(* ===== verification/_CoqProject ===== *)
-Q . S2P
Prelude.v
Names.v
Random.v
Gob.v
RaftNode.v
RaftNodeFacts.v
RaftSpec.v
RaftSystem.v
RaftRefine.v
RaftLead.v
RaftSim.v
RaftSafety.v
RaftApply.v
RaftBounds.v
RaftTrace.v
RaftOrigin.v
RaftProgress.v
RaftSnap.v
RaftWedge.v
RaftLocks.v
KVServer.v
KVFacts.v
KVChannels.v
KVClient.v
KVCluster.v
LabRpc.v
Harness.v
RaftConfig.v
RaftWiring.v
RaftHarness.v
RaftChecks.v
Bitset.v
LinCheck.v
LinList.v
LinSearch.v
LinHistory.v
LinKV.v
LinEvents.v
KVService.v
KVSession.v
KVReplica.v
KVServiceInv.v
KVReplay.v
KVLinear.v
KVLinearRuns.v
ShardMaster.v
ShardClient.v
ShardServers.v
ServiceConfig.v
ServiceFacts.v
ServiceTests.v
ShardMasterConfig.v
ShardKVConfig.v
ShardKVTests.v
LabGob.v
MapReduce.v
MRWorker.v
Programs.v
