(* ===== verification/Prelude.v ===== *)
(** * raftKVDB: a replicated key/value store on Raft, verified

    ** The program

    raftKVDB (Go) is a linearizable key/value service.  A cluster of servers
    (kvraft/server.go) puts client operations into a replicated log; Raft
    (raft/) agrees on the log and hands the committed entries to each server on
    its applyCh; a server applies them to its map, answers the client that
    waits, and gives Raft a snapshot when the log grows too large.  Clients
    (kvraft/client.go) repeat a request with one id until a server confirms it.
    Servers and clients talk over a simulated network (labrpc/) that delays,
    reorders and loses messages; what they send is encoded by labgob/.  Every
    package has a tester (config.go) that builds a cluster on the network, cuts
    connections, crashes and restarts servers and checks what they do; the tests
    check the histories of client calls with a linearizability checker
    (linearizability/).  A sharded store (shardmaster/, shardkv/) and a MapReduce
    library (mapreduce/) are there in part: some of their functions are empty.

    ** Files

    Prelude (this file): outcomes of Go code, slices, tactics, generic lemmas.
    Names: strconv.Itoa and names built from numbers.  Random: [randstring], the
    random names the testers give to client ends.

    Gob: the contract of encoding/gob as the class [Gob], with instances.
    LabGob: labgob.go, the checks of types and of variables before gob is called.

    Raft, src/raft/:
    - RaftNode: the struct [Raft], [Persister], the RPC handlers [RequestVote],
      [AppendEntries], [InstallSnapShot] (requestvote_rpc.go,
      appendentries_rpc.go, installsnapshot_rpc.go), and the critical sections
      of raft.go: [Make], [broadCastVote], [sendRequestVoteAndProcess],
      [sendAppendEntriesAndProcess], [sendSnapShotAndProcess],
      [checkConsistency], [Start], [Compact], [applyLogEntryDaemon].
    - RaftSystem: the cluster.  [exec] runs one event: a critical section, the
      delivery or loss of a request or a reply, a crash with a restart from the
      persister.  The reply of an [InstallSnapShot] that installs its snapshot is in
      flight only after the snapshot was sent on applyCh.  [reach ok] are the states reachable by events that satisfy
      [ok]; [reachable] puts no condition.
    - RaftSpec: the protocol without messages, [spec_step], and its inductive
      invariant [Inv].
    - RaftNodeFacts, RaftRefine, RaftLead, RaftSim: the simulation of the
      cluster by the protocol.
    - RaftSafety, RaftApply, RaftBounds, RaftTrace, RaftOrigin: the theorems about
      the cluster and about what it sends and logs.
    - RaftProgress: the cluster can always go on: elections, the search for the
      point where a follower's log matches, commit and application.
    - RaftWedge: a majority that never commits again once a follower has compacted.
    - RaftSnap: snapshots that a service hands to [Compact] and a peer hands to its
      service; the contract between the two, [snap_at] and [stream].
    - RaftLocks: one peer at the level of its goroutines: the mutex, the election
      timer with [electionDaemon] and [resetTimer], the channels resetTimerCh,
      commitCh and applyCh, [Kill]; the sections are those of RaftNode.

    The Raft tester, src/raft/config.go:
    - RaftConfig: the struct [config] and every operation and check of the file.
    - RaftWiring: the network follows [connect], [disconnect], [crash1], [start1].
    - RaftHarness: the tester on top of the cluster of RaftSystem; RaftChecks: what
      the checks say about the peers.

    Key/value service, src/kvraft/:
    - KVServer: the struct [KVServer] and its critical sections, the channels of
      applyStub in a store of their own; KVFacts, KVChannels: its theorems.
    - KVClient: the clerk's [ck_Get] and [ck_PutAppend].
    - KVCluster: servers on top of the peers of RaftSystem.
    - KVService: the whole service, clerks, handlers in progress, servers, apply
      loops and the cluster, with the history the tests record.  KVSession,
      KVReplica, KVServiceInv, KVReplay: the invariants of sessions, of a server
      and of the service, and the replay of the log as a sequence of client
      operations; KVLinear, KVLinearRuns: linearizability, and executions.

    The service testers, kvraft/config.go and shardmaster/config.go: ServiceConfig,
    one model over the class [TestedServer] of the server it starts, with the
    instance for kvraft; ShardMasterConfig, the instance for shardmaster;
    ServiceFacts, ServiceTests: their theorems.

    Network, src/labrpc/: LabRpc, the registration of ends and servers and the
    life of one request in [ProcessReq], cut where it waits.  Harness: what the
    testers share, loops, verdicts of a test, ends made and enabled in bulk.

    Linearizability checker, src/linearizability/:
    - Bitset: bitset.go on 64-bit words.
    - LinCheck: linearizability.go, model.go, models.go; the doubly linked list
      as a heap of [next] and [prev] fields.
    - LinList, LinSearch, LinHistory, LinKV, LinEvents: its theorems.

    Sharding, src/shardmaster/ and src/shardkv/: ShardMaster, the configurations
    and the master's clerk; ShardClient, [key2shard] and the store's clerk;
    ShardServers, the two servers, whose handlers are empty; ShardKVConfig,
    ShardKVTests: the tester shardkv/config.go and its theorems.

    MapReduce, src/mapreduce/: MapReduce, the master's side, names, order of a job,
    merge and cleanup; MRWorker, the forwarding of registrations, the tasks of
    workers and the accept loops of worker and master, as step functions on events.

    Programs, src/main/: what each program calls for its command line.

    ** What is proved

    The whole service (KVLinear, KVLinearRuns, C1, C2, C8, C9).  Without compaction
    every history of the service is linearizable (C1), whatever messages are
    lost, delayed, repeated by the clerks or reordered and whichever servers crash
    and restart; so the checker of the tests accepts what they record (C8).  With
    compaction, and any maxraftstate, this holds of the executions that avoid two
    flaws of raft.go (C2): no replication request overshoots the leader's log, and
    every peer hands an installed snapshot to its server before it applies further
    entries ([in_order]).  Both conditions are about flaws that break the service:
    C9 is an execution in which the handler of [InstallSnapShot] sends the snapshot
    to the server after later commands were applied (a second request, answered at
    once, had told the leader to go on), and an acknowledged append is invisible to a later read; C15 is below.

    Raft (RaftSafety, RaftBounds, RaftOrigin, C3-C7, C10, C11, C13-C15).  The
    cluster refines the protocol (C7), and from it: at most one leader per term, now
    and later (C4), log matching (C5), leader completeness (C6), and state machine
    safety, no two peers apply different commands at one index (C3).  No critical
    section panics (C10), and every peer is well formed at every time (C11).  A
    command is applied behind everything that was applied before it was started
    (C13).  A restart recovers the persistent state (C14).  C4, C5, C7, C11, C14
    hold in every execution; C3, C6 and C10 in those in which no replication request
    names a previous entry beyond the end of the leader's log ([no_overshoot]),
    which state_machine_safety_no_compaction shows to be all executions without
    compaction.  The condition is needed: C15 is an execution in which such a
    request makes two peers apply different commands, and overshoot_panics one in
    which the leader panics.

    Progress (RaftProgress, C16): from every state that two or more peers can reach
    without compaction, ordinary events alone, no crash and no loss, can lead to a
    leader that commits and applies a new command.  A single peer never elects
    itself (single_peer_never_leads).

    With compaction this is lost (RaftWedge, C17): the search for a matching entry
    can bounce between a follower's snapshot and the end of its log for ever, and
    a leader with this follower, two of three peers, commits nothing more until
    the third peer is back.

    Snapshots (RaftSnap, C18): when the service's snapshots hold what they say and
    are handed over in order, everything a peer sends on applyCh is one stream of
    commands without gaps and snapshots of longer prefixes of the agreed log.  The
    server relies on it (KVReplica, KVServiceInv) and keeps its side: what it hands
    to [Compact] is such a snapshot.

    Goroutines of a peer (RaftLocks, C12): the lock is always given back, with one
    exception that commit_deadlock_reachable exhibits; kill_blocks_peer and
    killed_peer_campaigns say what [Kill] does to the daemon and its timer.

    The apply daemon (RaftApply, C19-C20): the indices sent on applyCh have no gap
    without compaction, and a commit always leaves a token that wakes the daemon.

    The Raft tester (RaftHarness, RaftChecks, RaftWiring, C21-C24): its comparison
    of applied commands never fails on this implementation without compaction, so
    a failure would be a defect of the tester or of the assumptions; [one] returns
    only indices at which one of its polls found enough servers that had applied
    the command; [checkOneLeader]
    returns a leader of the newest term; and an end is enabled exactly when it
    joins two connected servers in their current incarnations.

    A server and a clerk (KVFacts, KVChannels, KVCluster, KVClient, C25-C28, C30):
    retried requests take effect exactly once; snapshots are transparent
    (snapshot_transparent); a confirmed request was applied at its index; the apply
    loop never blocks on a request; a clerk's loop ends with the first server that
    answers.  C28 is an execution that goes wrong: two requests waiting at one index.

    The service testers (ServiceTests, C29): a restarted server has what its
    predecessor persisted; leader_cut_off says when [make_partition] with
    [partition] cuts the leader off with a minority, and the lemmas on boundary
    cases what happens otherwise.

    The network (LabRpc, C31-C32): a request runs its handler at most once and a
    positive answer means exactly once; requests can always be moved on.

    The checker (Bitset, LinKV, LinEvents, C33-C35): the bit set implements a
    set; the search terminates, never panics and decides linearizability
    (single_history_decided), so does the key/value check by partitions for the
    whole store, and the check of events.  The empty key/value history makes the
    check wait for ever (empty_history_blocks).

    Sharding (ShardClient, ShardKVTests, C36): a clerk calls only the group its
    configuration assigns to the key, and finds the new group when that changes
    (get_follows_new_configuration); the tester works for three servers per group
    and no other number (tester_needs_three_servers).
    sharded_store_never_answers says what the empty handlers mean for clerks.

    labgob (LabGob, C37): the check of types terminates on recursive types and
    counts every lower-case field of a reachable type once.

    Programs: diskvd starts a server exactly for complete command lines
    (diskvd_starts).

    MapReduce (MapReduce, MRWorker, C38-C40): the merged output is complete and
    sorted; every registered worker is forwarded exactly once; the counters of the
    workers and the parallelism they report are exact.

    ** Conventions and bounds

    A critical section is a function to [outcome]: it returns, panics (an index
    out of range, a send on a closed channel, a nil pointer) or blocks.  A check of
    a test is a function to [verdict]: it passes, fails the test with a value that
    says why, or crashes.  Effects that start other goroutines are values that the
    cluster turns into messages.  Go's int is an unbounded integer: terms and
    indices grow by one per event.  The words of the bit set keep their 64 bits,
    the hash of ihash and the int32 counters their 32.

    In KVService the ids of clerks are distinct and between 1 and 2^62 - 1
    ([nrand] draws them; 0 is the id in the zero message of a closed channel), a
    clerk makes less than 2^64 - 1 requests, time is the number of events, and a
    panic is a crash of the server's process.

    Fuel: [matchLoop] runs at most once per entry of the request, [applyLoop] at
    most once per committed index, [lengthLoop] at most once per node, and gets
    exactly that.  [checkType] gets one level per type that is not yet checked,
    which C37 shows to be enough.  The loops of the clerks and [checkLoop] have no
    bound in the code; the theorems show that enough fuel exists and that more does
    not matter.  The rounds of [one] and [checkOneLeader] are the list of the
    states they read.

    The number of peers, the commands, the network's answers to a clerk, random
    names, the order in which partitions finish, [sort.Sort] with its contract
    [sorts], and the records a JSON decoder yields are arguments.

    ** What is not modelled

    - Real time: in the cluster elections and heartbeats are events that may
      happen at any time; C16 says that a leader can always be elected, no theorem
      that the timers make it happen; RaftLocks has the election timer without a
      clock; the testers' time limits
      (checkTimeout).
    - Sharing of memory between a leader's log and a request that is not sent yet:
      a request's entries are those of the critical section that made it.
    - The order of a waiting snapshot and the sends of one round of the apply daemon:
      [EvApply] is the whole round, and the snapshot is sent before or after it.
    - What a killed peer of the Raft tester still does: crash1 stops it at once, and
      only what it had sent on its applyCh is read later.
    - Logging and printing: DPrintf, the str methods, statistics of the testers
      beyond their numbers.
    - Concurrent calls of labgob; embedded struct fields.
    - Of mapreduce/: sockets; what a connection answers is an argument.
    - The tests themselves; the packages diskv, lockservice, pbservice and
      viewservice, which main/ imports and the repository does not have.

    ** Open

    Which states with compaction the cluster can go on from; progress of a clerk's
    request through the whole service; the key/value tester on top of the service,
    as RaftHarness is for Raft; restarts in shardkv/config.go. *)

From stdpp Require Import base functions list list_numbers gmap sets strings.

Declare Scope go_scope.
Delimit Scope go_scope with go.

(** ** Outcomes of Go code

    A critical section of the program either runs to its end ([Ret]), dies
    with a run-time panic such as an index out of range ([Panic]), or blocks
    for ever on a channel send ([Block]). *)
Inductive outcome (A : Type) : Type :=
| Ret (a : A)
| Panic
| Block.
Arguments Ret {A} a.
Arguments Panic {A}.
Arguments Block {A}.

#[export] Instance outcome_ret : MRet outcome := fun A a => Ret a.
#[export] Instance outcome_bind : MBind outcome := fun A B f m =>
  match m with Ret a => f a | Panic => Panic | Block => Block end.

Lemma bind_Ret_inv {A B} (m : outcome A) (f : A -> outcome B) b :
  (m ≫= f) = Ret b -> exists a, m = Ret a /\ f a = Ret b.
Proof. destruct m; cbn; intros H; [eauto | discriminate | discriminate]. Qed.

(** ** Go slices indexed by [int] *)
Definition len {A} (l : list A) : Z := Z.of_nat (length l).

(** [l[i]]: panics when the index is negative or not below the length. *)
Definition slice_get {A} (l : list A) (i : Z) : outcome A :=
  if decide (0 <= i)%Z then
    match l !! Z.to_nat i with Some a => Ret a | None => Panic end
  else Panic.

(** [l[i] = a]. *)
Definition slice_set {A} (l : list A) (i : Z) (a : A) : outcome (list A) :=
  if decide (0 <= i < len l)%Z then Ret (<[Z.to_nat i := a]> l) else Panic.

(** [l[i:]]. *)
Definition slice_from {A} (l : list A) (i : Z) : outcome (list A) :=
  if decide (0 <= i <= len l)%Z then Ret (drop (Z.to_nat i) l) else Panic.

(** [l[:i]]. *)
Definition slice_to {A} (l : list A) (i : Z) : outcome (list A) :=
  if decide (0 <= i <= len l)%Z then Ret (take (Z.to_nat i) l) else Panic.

(** Helpers [min] and [max] of raft/util.go. *)
Definition min (a b : Z) : Z := if (a <? b)%Z then a else b.
Definition max (a b : Z) : Z := if (b <? a)%Z then a else b.

Create HintDb go.

Lemma min_spec a b : min a b = Z.min a b.
Proof. unfold min. destruct (Z.ltb_spec a b); lia. Qed.

Lemma max_spec a b : max a b = Z.max a b.
Proof. unfold max. destruct (Z.ltb_spec b a); lia. Qed.

Lemma len_nonneg {A} (l : list A) : (0 <= len l)%Z.
Proof. unfold len. lia. Qed.

Lemma len_app {A} (l k : list A) : len (l ++ k) = (len l + len k)%Z.
Proof. unfold len. rewrite length_app. lia. Qed.

Lemma slice_get_Ret {A} (l : list A) i a :
  slice_get l i = Ret a <-> (0 <= i)%Z /\ l !! Z.to_nat i = Some a.
Proof.
  unfold slice_get. case_decide; [|naive_solver].
  destruct (l !! Z.to_nat i); naive_solver.
Qed.

Lemma slice_get_in {A} (l : list A) i :
  (0 <= i < len l)%Z -> exists a, slice_get l i = Ret a.
Proof.
  unfold len. intros [? ?].
  destruct (lookup_lt_is_Some_2 l (Z.to_nat i)) as [a Ha]; [lia|].
  exists a. by apply slice_get_Ret.
Qed.

Lemma slice_get_bound {A} (l : list A) i a :
  slice_get l i = Ret a -> (0 <= i < len l)%Z.
Proof.
  intros [? H]%slice_get_Ret. apply lookup_lt_Some in H. unfold len. lia.
Qed.

Lemma slice_set_Ret {A} (l l' : list A) i a :
  slice_set l i a = Ret l' <-> (0 <= i < len l)%Z /\ l' = <[Z.to_nat i := a]> l.
Proof. unfold slice_set. case_decide; naive_solver. Qed.

Lemma slice_set_in {A} (l : list A) i a :
  (0 <= i < len l)%Z -> slice_set l i a = Ret (<[Z.to_nat i := a]> l).
Proof. intros Hi. by apply slice_set_Ret. Qed.

Lemma slice_set_not_Block {A} (l : list A) i a : slice_set l i a <> Block.
Proof. unfold slice_set. by case_decide. Qed.

(** [slice_get] never blocks: a slice access returns or panics. *)
Lemma slice_get_not_Block {A} (l : list A) i : slice_get l i <> Block.
Proof. unfold slice_get. case_decide; [|done]. by destruct (_ !! _). Qed.

(** ** Tactics shared by the components *)

(** Peel one [Ret] off a bind equation in the context. *)
Ltac bind_inv :=
  repeat match goal with
  | H : (_ ≫= _) = Ret _ |- _ =>
      let E := fresh "E" in
      apply bind_Ret_inv in H as (? & E & H); simpl in H
  end.

(** Turn boolean integer tests into propositions. *)
Ltac zbool :=
  repeat match goal with
  | H : (_ <? _)%Z = true |- _ => apply Z.ltb_lt in H
  | H : (_ <? _)%Z = false |- _ => apply Z.ltb_ge in H
  | H : (_ <=? _)%Z = true |- _ => apply Z.leb_le in H
  | H : (_ <=? _)%Z = false |- _ => apply Z.leb_gt in H
  | H : (_ =? _)%Z = true |- _ => apply Z.eqb_eq in H
  | H : (_ =? _)%Z = false |- _ => apply Z.eqb_neq in H
  | H : (_ && _) = true |- _ => apply andb_true_iff in H as [? ?]
  | H : (_ || _) = false |- _ => apply orb_false_iff in H as [? ?]
  | H : negb _ = true |- _ => apply negb_true_iff in H
  | H : negb _ = false |- _ => apply negb_false_iff in H
  end.

(** Case split on every [match] and [if] of the goal or a hypothesis. *)
Ltac split_matches := repeat (case_match; simplify_eq/=).

(** ** Updated functions *)
Lemma fn_insert_case `{EqDecision A} {B} (f : A -> B) a b v :
  <[a := v]> f b = if decide (a = b) then v else f b.
Proof. done. Qed.

(** Split on every function update of the goal and the context. *)
Ltac fn_cases :=
  repeat rewrite fn_insert_case in *; repeat (case_decide; simplify_eq/=).

(** ** Prefixes of lists *)
Section Prefix.
Context {A : Type}.
Implicit Types l k : list A.

Lemma take_prefix l (n : nat) : take n l `prefix_of` l.
Proof. exists (drop n l). by rewrite take_drop. Qed.

Lemma take_prefix_le l (n m : nat) : n <= m -> take n l `prefix_of` take m l.
Proof. intros H. replace (take n l) with (take n (take m l)); [apply take_prefix|]. rewrite take_take. f_equal. lia. Qed.

Lemma prefix_take l k (n : nat) : l `prefix_of` k -> n <= length l -> take n l = take n k.
Proof. intros [r ->] Hn. by rewrite take_app_le. Qed.

Lemma prefix_eq_take l k : l `prefix_of` k -> l = take (length l) k.
Proof. intros [r ->]. by rewrite take_app_length. Qed.

Lemma take_prefix_of_prefix l k (n : nat) : l `prefix_of` k -> take n l `prefix_of` k.
Proof. intros. trans l; [apply take_prefix | done]. Qed.

Lemma prefix_total l1 l2 k :
  l1 `prefix_of` k -> l2 `prefix_of` k -> l1 `prefix_of` l2 \/ l2 `prefix_of` l1.
Proof. apply prefix_weak_total. Qed.

Lemma prefix_le l1 l2 k :
  l1 `prefix_of` k -> l2 `prefix_of` k -> length l1 <= length l2 -> l1 `prefix_of` l2.
Proof.
  intros H1 H2 Hle. rewrite (prefix_eq_take _ _ H1), (prefix_eq_take _ _ H2).
  by apply take_prefix_le.
Qed.

Lemma prefix_lookup_l l k i a : l `prefix_of` k -> l !! i = Some a -> k !! i = Some a.
Proof. intros [r ->] H. by apply lookup_app_l_Some. Qed.

Lemma prefix_lookup_r l k i a :
  l `prefix_of` k -> i < length l -> k !! i = Some a -> l !! i = Some a.
Proof. intros [r ->] Hi H. by rewrite lookup_app_l in H. Qed.

Lemma prefix_elem l k a : l `prefix_of` k -> a ∈ l -> a ∈ k.
Proof. intros [r ->] H. apply elem_of_app. by left. Qed.
End Prefix.

(** What is left after a deletion was there before. *)
Lemma delete_elem {A} (l : list A) k x : x ∈ delete k l -> x ∈ l.
Proof.
  intros [j Hj]%list_elem_of_lookup. apply list_elem_of_lookup. destruct (decide (j < k)%nat).
  - exists j. by rewrite list_lookup_delete_lt in Hj.
  - exists (S j). by rewrite list_lookup_delete_ge in Hj by lia.
Qed.

(** Filters that agree on the elements of a list. *)
Lemma filter_agree {A} (P Q : A -> Prop) `{!forall x, Decision (P x)} `{!forall x, Decision (Q x)}
    (l : list A) : (forall x, x ∈ l -> P x <-> Q x) -> filter P l = filter Q l.
Proof.
  induction l as [|x l IH]; intros HPQ; [done|]. rewrite !filter_cons.
  rewrite IH by (intros; apply HPQ; by right). pose proof (HPQ x (list_elem_of_here _ _)).
  repeat case_decide; naive_solver.
Qed.

(** Splitting a filtered list splits the list. *)
Lemma filter_split {A} (P : A -> Prop) `{!forall x, Decision (P x)} (l : list A) l1 x l2 :
  filter P l = l1 ++ x :: l2 ->
  exists k1 k2, l = k1 ++ x :: k2 /\ filter P k1 = l1 /\ filter P k2 = l2.
Proof.
  revert l1. induction l as [|y l IH]; intros l1 Hf; [by destruct l1|].
  rewrite filter_cons in Hf. case_decide as E.
  - destruct l1 as [|z l1]; injection Hf as -> Hf.
    + by exists [], l.
    + destruct (IH _ Hf) as (k1 & k2 & -> & <- & <-). exists (z :: k1), k2.
      by rewrite filter_cons, decide_True.
  - destruct (IH _ Hf) as (k1 & k2 & -> & <- & <-). exists (y :: k1), k2.
    by rewrite filter_cons, decide_False.
Qed.

Lemma filter_snd {A B} (P : B -> Prop) `{!forall x, Decision (P x)} (l : list (A * B)) :
  (filter (fun p => P p.2) l).*2 = filter P l.*2.
Proof.
  induction l as [|p l IH]; [done|]. rewrite filter_cons, fmap_cons, filter_cons.
  case_decide; rewrite ?fmap_cons, IH; done.
Qed.

Lemma filter_fst {A B} (P : A -> Prop) `{!forall x, Decision (P x)} (l : list (A * B)) :
  (filter (fun p => P p.1) l).*1 = filter P l.*1.
Proof.
  induction l as [|p l IH]; [done|]. rewrite filter_cons, fmap_cons, filter_cons.
  case_decide; rewrite ?fmap_cons, IH; done.
Qed.

(** Elements told apart by a key. *)
Lemma NoDup_fmap_elem {A B} (f : A -> B) (l : list A) x y :
  NoDup (f <$> l) -> x ∈ l -> y ∈ l -> f x = f y -> x = y.
Proof.
  intros Hnd [i Hi]%list_elem_of_lookup [j Hj]%list_elem_of_lookup E.
  assert (i = j) as ->; [|congruence]. apply (NoDup_lookup _ i j (f x) Hnd).
  - by rewrite list_lookup_fmap, Hi.
  - by rewrite list_lookup_fmap, Hj, E.
Qed.

(** ** Peers and majorities *)
Definition nodes (n : Z) : gset Z := list_to_set (seqZ 0 n).

Definition quorum (n : Z) (Q : gset Z) : Prop :=
  Q ⊆ nodes n /\ (Z.max 0 n < 2 * Z.of_nat (size Q))%Z.

Lemma elem_of_nodes n i : i ∈ nodes n <-> (0 <= i < n)%Z.
Proof. unfold nodes. rewrite elem_of_list_to_set, elem_of_seqZ. lia. Qed.

Lemma size_nodes n : Z.of_nat (size (nodes n)) = Z.max 0 n.
Proof.
  unfold nodes. rewrite size_list_to_set by apply NoDup_seqZ. rewrite length_seqZ. lia.
Qed.

(** Two majorities of the same peers share a peer. *)
Lemma quorum_meet n Q1 Q2 :
  quorum n Q1 -> quorum n Q2 -> exists q, q ∈ Q1 /\ q ∈ Q2.
Proof.
  intros [S1 L1] [S2 L2]. destruct (decide (Q1 ∩ Q2 = ∅)) as [E|NE].
  - assert (size (Q1 ∪ Q2) <= size (nodes n)) as Hs by (apply subseteq_size; set_solver).
    rewrite size_union in Hs by set_solver. pose proof (size_nodes n). lia.
  - apply set_choose_L in NE as [q Hq]. exists q. set_solver.
Qed.
