(* ===== verification/Names.v ===== *)
(** * Names built from numbers

    strconv.Itoa, and what makes names such as [server-101-2] or [mrtmp.job-0-1]
    unambiguous: a decimal number contains no dash. *)

From Stdlib Require Import Ascii.
From stdpp Require Import base list strings pretty.
From S2P Require Import Prelude.
Open Scope Z_scope.

(** strconv.Itoa *)
Definition Itoa (i : Z) : string := pretty i.

Lemma Itoa_inj i j : Itoa i = Itoa j -> i = j.
Proof. apply (inj pretty). Qed.

Fixpoint nodash (s : string) : bool :=
  match s with
  | EmptyString => true
  | String c s' => negb (Ascii.eqb c "-"%char) && nodash s'
  end.

Definition digit (c : ascii) : bool := (48 <=? N_of_ascii c)%N && (N_of_ascii c <=? 57)%N.
Fixpoint digits (s : string) : bool :=
  match s with EmptyString => true | String c s' => digit c && digits s' end.

Lemma digits_nodash s : digits s = true -> nodash s = true.
Proof.
  induction s as [|c s IH]; [done|]. simpl. intros [Hc Hs]%andb_true_iff. rewrite IH, andb_true_r by done.
  destruct (Ascii.eqb_spec c "-"%char) as [->|]; [by vm_compute in Hc|done].
Qed.

Lemma pretty_go_digits x : forall s, digits s = true -> digits (pretty_N_go x s) = true.
Proof.
  induction (N.lt_wf_0 x) as [x _ IH]. intros s Hs. destruct (decide (x = 0%N)) as [->|Hx].
  { by rewrite pretty_N_go_0. }
  rewrite pretty_N_go_step by lia. apply IH; [apply N.div_lt; lia|]. cbn [digits]. rewrite Hs, andb_true_r.
  unfold pretty_N_char. by repeat case_match.
Qed.

Lemma Itoa_digits i : 0 <= i -> digits (Itoa i) = true.
Proof.
  intros Hi. unfold Itoa, pretty, pretty_Z. destruct i as [|p|p]; [done| |lia].
  change (digits (pretty (N.pos p)) = true). unfold pretty, pretty_N. by apply pretty_go_digits.
Qed.

Lemma Itoa_nodash i : 0 <= i -> nodash (Itoa i) = true.
Proof. intros Hi. by apply digits_nodash, Itoa_digits. Qed.

(** The first dash ends the group number. *)
Lemma split_dash (a a' b b' : string) :
  nodash a = true -> nodash a' = true -> a +:+ "-" +:+ b = a' +:+ "-" +:+ b' -> a = a' /\ b = b'.
Proof.
  revert a'. induction a as [|c a IH]; intros [|c' a'] Ha Ha' E; simpl in *.
  - by injection E.
  - injection E as <- _. done.
  - injection E as -> _. done.
  - apply andb_true_iff in Ha as [_ Ha], Ha' as [_ Ha']. injection E as -> E.
    by destruct (IH a' Ha Ha' E) as [-> ->].
Qed.
