(* ===== verification/Random.v ===== *)
(** * Random names

    [randstring] of the testers (raft/config.go, kvraft/config.go,
    shardmaster/config.go, shardkv/config.go), which names the client ends: random
    bytes in base64, cut to length.  The bytes are an argument. *)

From Stdlib Require Import Ascii.
From stdpp Require Import base list list_numbers strings.
From S2P Require Import Prelude.
Open Scope Z_scope.

(** ** base64.URLEncoding *)
Definition alphabet : string := "ABCDEFGHIJKLMNOPQRSTUVWXYZabcdefghijklmnopqrstuvwxyz0123456789-_".
Definition char64 (i : Z) : ascii := default "="%char (String.get (Z.to_nat i) alphabet).

(** Three bytes are four characters; what is missing is padded. *)
Fixpoint EncodeToString (b : list Z) : list ascii :=
  match b with
  | x :: y :: z :: b' =>
      [char64 (x / 4); char64 (x mod 4 * 16 + y / 16); char64 (y mod 16 * 4 + z / 64); char64 (z mod 64)]
        ++ EncodeToString b'
  | [x; y] => [char64 (x / 4); char64 (x mod 4 * 16 + y / 16); char64 (y mod 16 * 4); "="%char]
  | [x] => [char64 (x / 4); char64 (x mod 4 * 16); "="%char; "="%char]
  | [] => []
  end.

(** [randstring(n)]; [crand n] are the bytes that are read. *)
Definition randstring (crand : nat -> list Z) (n : Z) : outcome (list ascii) :=
  if decide (0 <= 2 * n) then slice_to (EncodeToString (crand (Z.to_nat (2 * n)))) n else Panic.

(** ** What the names are like *)
Definition is_byte (x : Z) : Prop := 0 <= x < 256.
Definition in_alphabet (c : ascii) : Prop := exists i, 0 <= i < 64 /\ c = char64 i.

(** A character of the alphabet determines its number. *)
Definition index64 (c : ascii) : Z := default (-1) (Z.of_nat <$> String.index 0 (String c "") alphabet).

Lemma char64_inv i : 0 <= i < 64 -> index64 (char64 i) = i.
Proof.
  intros Hi. assert (Forall (fun i => index64 (char64 i) = i) (seqZ 0 64)) as H.
  { apply (bool_decide_unpack _). vm_compute. exact I. }
  rewrite Forall_forall in H. apply H, elem_of_seqZ. lia.
Qed.

Lemma char64_inj i j : 0 <= i < 64 -> 0 <= j < 64 -> char64 i = char64 j -> i = j.
Proof. intros Hi Hj E. by rewrite <- (char64_inv i), <- (char64_inv j), E. Qed.

Lemma char64_alphabet i : 0 <= i < 64 -> in_alphabet (char64 i).
Proof. intros Hi. by exists i. Qed.

(** Induction over groups of three bytes. *)
Lemma bytes3_ind (P : list Z -> Prop) :
  P [] -> (forall x, P [x]) -> (forall x y, P [x; y]) ->
  (forall x y z b, P b -> P (x :: y :: z :: b)) -> forall b, P b.
Proof.
  intros H0 H1 H2 H3. fix IH 1. intros [|x [|y [|z b]]]; [exact H0|exact (H1 x)|exact (H2 x y)|].
  apply H3, IH.
Qed.

(** The numbers in the characters of a group. *)
Lemma group_bounds x y z : is_byte x -> is_byte y -> is_byte z ->
  0 <= x / 4 < 64 /\ 0 <= x mod 4 * 16 + y / 16 < 64 /\ 0 <= y mod 16 * 4 + z / 64 < 64 /\ 0 <= z mod 64 < 64.
Proof.
  unfold is_byte. intros Hx Hy Hz.
  pose proof (Z.div_mod x 4). pose proof (Z.mod_pos_bound x 4). pose proof (Z.div_mod y 16).
  pose proof (Z.mod_pos_bound y 16). pose proof (Z.div_mod z 64). pose proof (Z.mod_pos_bound z 64). lia.
Qed.

Lemma group_inj x y z x' y' z' :
  is_byte x -> is_byte y -> is_byte z -> is_byte x' -> is_byte y' -> is_byte z' ->
  x / 4 = x' / 4 -> x mod 4 * 16 + y / 16 = x' mod 4 * 16 + y' / 16 ->
  y mod 16 * 4 + z / 64 = y' mod 16 * 4 + z' / 64 -> z mod 64 = z' mod 64 -> x = x' /\ y = y' /\ z = z'.
Proof.
  unfold is_byte. intros.
  pose proof (Z.div_mod x 4). pose proof (Z.mod_pos_bound x 4). pose proof (Z.div_mod y 16).
  pose proof (Z.mod_pos_bound y 16). pose proof (Z.div_mod z 64). pose proof (Z.mod_pos_bound z 64).
  pose proof (Z.div_mod x' 4). pose proof (Z.mod_pos_bound x' 4). pose proof (Z.div_mod y' 16).
  pose proof (Z.mod_pos_bound y' 16). pose proof (Z.div_mod z' 64). pose proof (Z.mod_pos_bound z' 64). lia.
Qed.

Lemma encode_length b : 4 * len b <= 3 * len (EncodeToString b).
Proof.
  unfold len. induction b as [|x|x y|x y z b IH] using bytes3_ind; [done|simpl; lia..|].
  cbn [EncodeToString]. rewrite length_app. cbn [length]. lia.
Qed.

(** No padding among the characters that the bytes fill. *)
Lemma encode_alphabet b k :
  Forall is_byte b -> 3 * Z.of_nat k <= 4 * len b -> Forall in_alphabet (take k (EncodeToString b)).
Proof.
  unfold len. revert k. induction b as [|x|x y|x y z b IH] using bytes3_ind; intros k Hb Hk.
  - by destruct k.
  - inversion_clear Hb as [|? ? Hx _]. destruct (group_bounds x 0 0) as (B1 & _); [done..|].
    destruct k as [|[|k]]; [by constructor| |simpl in Hk; lia]. simpl. constructor; [|done]. by apply char64_alphabet.
  - inversion_clear Hb as [|? ? Hx Hb']. inversion_clear Hb' as [|? ? Hy _].
    destruct (group_bounds x y 0) as (B1 & B2 & _); [done..|].
    destruct k as [|[|[|k]]]; cbn [EncodeToString firstn]; [by apply Forall_nil_2| | |simpl in Hk; lia];
      repeat (apply Forall_cons; split; [by apply char64_alphabet|]); by apply Forall_nil_2.
  - inversion_clear Hb as [|? ? Hx Hb']. inversion_clear Hb' as [|? ? Hy Hb]. inversion_clear Hb as [|? ? Hz Hb'].
    destruct (group_bounds x y z) as (B1 & B2 & B3 & B4); [done..|]. cbn [EncodeToString app].
    destruct k as [|[|[|[|k]]]]; cbn [firstn]; repeat (apply Forall_cons; split; [by apply char64_alphabet|]);
      try by apply Forall_nil_2.
    apply IH; [done|]. simpl in Hk. lia.
Qed.

(** Names that agree on [4 m] characters were made of the same [3 m] bytes. *)
Lemma encode_inj m b b' :
  Forall is_byte b -> Forall is_byte b' -> (3 * m <= length b)%nat -> (3 * m <= length b')%nat ->
  take (4 * m) (EncodeToString b) = take (4 * m) (EncodeToString b') -> take (3 * m) b = take (3 * m) b'.
Proof.
  revert b b'. induction m as [|m IH]; intros b b' Hb Hb' Hl Hl' E; [done|].
  replace (4 * S m)%nat with (S (S (S (S (4 * m))))) in E by lia.
  replace (3 * S m)%nat with (S (S (S (3 * m)))) in * by lia.
  destruct b as [|x [|y [|z b]]]; simpl in Hl; try lia. destruct b' as [|x' [|y' [|z' b']]]; simpl in Hl'; try lia.
  inversion_clear Hb as [|? ? Hx Hb1]. inversion_clear Hb1 as [|? ? Hy Hb]. inversion_clear Hb as [|? ? Hz Hb1].
  inversion_clear Hb' as [|? ? Hx' Hb2]. inversion_clear Hb2 as [|? ? Hy' Hb']. inversion_clear Hb' as [|? ? Hz' Hb2].
  cbn [EncodeToString app firstn] in E. injection E as E1 E2 E3 E4 E.
  destruct (group_bounds x y z) as (B1 & B2 & B3 & B4); [done..|].
  destruct (group_bounds x' y' z') as (B1' & B2' & B3' & B4'); [done..|].
  apply char64_inj in E1, E2, E3, E4; [|done..].
  destruct (group_inj x y z x' y' z') as (-> & -> & ->); [done..|]. cbn [firstn].
  do 3 f_equal. apply IH; [done|done|lia|lia|done].
Qed.

(** [randstring n] never slices out of range; the name has [n] characters, all of
    them from the alphabet, and two names of [4 m] characters are equal only when
    the first [3 m] random bytes were: 120 random bits for the 20 characters of
    the testers. *)
Theorem randstring_names crand n :
  0 <= n -> (forall k, length (crand k) = k /\ Forall is_byte (crand k)) ->
  exists s, randstring crand n = Ret s /\ len s = n /\ Forall in_alphabet s /\
    forall crand' m, n = 4 * Z.of_nat m -> (forall k, length (crand' k) = k /\ Forall is_byte (crand' k)) ->
      randstring crand' n = Ret s ->
      take (3 * m) (crand (Z.to_nat (2 * n))) = take (3 * m) (crand' (Z.to_nat (2 * n))).
Proof.
  intros Hn Hc. unfold randstring. rewrite decide_True by lia.
  assert (forall c, length (c (Z.to_nat (2 * n))) = Z.to_nat (2 * n) ->
    slice_to (EncodeToString (c (Z.to_nat (2 * n)))) n
      = Ret (take (Z.to_nat n) (EncodeToString (c (Z.to_nat (2 * n)))))) as Hs.
  { intros c Hlen. unfold slice_to. rewrite decide_True; [done|].
    pose proof (encode_length (c (Z.to_nat (2 * n)))) as He. unfold len in *. lia. }
  destruct (Hc (Z.to_nat (2 * n))) as [Hlen Hb]. eexists. rewrite Hs by done. split_and!; [done| | |].
  - pose proof (encode_length (crand (Z.to_nat (2 * n)))) as He. unfold len in *. rewrite length_take. lia.
  - apply encode_alphabet; [done|]. unfold len. lia.
  - intros crand' m Hm Hc' E. destruct (Hc' (Z.to_nat (2 * n))) as [Hlen' Hb'].
    rewrite decide_True, Hs in E by (done || lia). injection E as E. apply encode_inj; [done|done|lia|lia|].
    replace (4 * m)%nat with (Z.to_nat n) by lia. by symmetry.
Qed.

Lemma randstring_names_witness :
  exists s, randstring (fun k => replicate k 7) 4 = Ret s /\ len s = 4.
Proof.
  destruct (randstring_names (fun k => replicate k 7) 4) as (s & E & Hl & _); [lia| |by exists s].
  intros k. split; [apply length_replicate|]. apply Forall_replicate. unfold is_byte. lia.
Defined.
