(* ===== verification/Gob.v ===== *)
(** * Stream encoding of persistent values

    raft/raft.go and kvraft/server.go write values one after another with
    [e.Encode(v)] of encoding/gob and read them back in the same order with
    [d.Decode(&v)].  [Gob A] is the documented contract of that pair for one
    type: what was encoded at the head of a stream is what is decoded there,
    and the decoder stops where the next value starts.  The model of Raft and
    of the key/value server is stated against this class; the instances below
    (a self-delimiting byte code) show that it is inhabited and let the
    models run. *)

From Stdlib Require Import Strings.Byte.
From stdpp Require Import base list gmap strings.
From S2P Require Import Prelude.

Abbreviation bytes := (list Byte.byte).

Class Gob (A : Type) : Type := {
  Encode : A -> bytes;
  Decode : bytes -> option (A * bytes);
  Decode_Encode : forall a rest, Decode (Encode a ++ rest) = Some (a, rest);
  Encode_nonempty : forall a, Encode a <> []
}.

Lemma Decode_Encode_nil `{Gob A} (a : A) : Decode (Encode a) = Some (a, []).
Proof. rewrite <- (app_nil_r (Encode a)). apply Decode_Encode. Qed.

Lemma Encode_inj `{Gob A} (a b : A) : Encode a = Encode b -> a = b.
Proof.
  intros E. pose proof (Decode_Encode_nil a) as Ha.
  rewrite E, Decode_Encode_nil in Ha. congruence.
Qed.

(** ** A concrete code: positives *)
Fixpoint put_pos (p : positive) : bytes :=
  match p with
  | xH => [x00]
  | xO q => x01 :: put_pos q
  | xI q => x02 :: put_pos q
  end.

Fixpoint get_pos (b : bytes) : option (positive * bytes) :=
  match b with
  | x00 :: r => Some (xH, r)
  | x01 :: r => '(p, r') ← get_pos r; Some (xO p, r')
  | x02 :: r => '(p, r') ← get_pos r; Some (xI p, r')
  | _ => None
  end.

Lemma get_put_pos p r : get_pos (put_pos p ++ r) = Some (p, r).
Proof. induction p as [q IH|q IH|]; simpl; rewrite ?IH; done. Qed.

(** ** Integers, options, lists, pairs and strings *)
Definition put_Z (z : Z) : bytes :=
  match z with
  | Z0 => [x00]
  | Zpos p => x01 :: put_pos p
  | Zneg p => x02 :: put_pos p
  end.

Definition get_Z (b : bytes) : option (Z * bytes) :=
  match b with
  | x00 :: r => Some (Z0, r)
  | x01 :: r => '(p, r') ← get_pos r; Some (Zpos p, r')
  | x02 :: r => '(p, r') ← get_pos r; Some (Zneg p, r')
  | _ => None
  end.

#[export] Program Instance Gob_Z : Gob Z := {
  Encode := put_Z; Decode := get_Z
}.
Next Obligation. intros [|p|p] r; simpl; rewrite ?get_put_pos; done. Qed.
Next Obligation. by intros []. Qed.

#[export] Program Instance Gob_pair `{Gob A, Gob B} : Gob (A * B) := {
  Encode := fun '(a, b) => Encode a ++ Encode b;
  Decode := fun s => '(a, r) ← Decode s; '(b, r') ← Decode r; Some ((a, b), r')
}.
Next Obligation.
  intros A GA B GB [a b] r; simpl. rewrite <- app_assoc.
  rewrite Decode_Encode; simpl. by rewrite Decode_Encode.
Qed.
Next Obligation.
  intros A GA B GB [a b]. simpl. intros [E _]%app_nil. by apply Encode_nonempty in E.
Qed.

Definition put_option `{Gob A} (o : option A) : bytes :=
  match o with None => [x00] | Some a => x01 :: Encode a end.

Definition get_option `{Gob A} (s : bytes) : option (option A * bytes) :=
  match s with
  | x00 :: r => Some (None, r)
  | x01 :: r => '(a, r') ← Decode r; Some (Some a, r')
  | _ => None
  end.

#[export] Program Instance Gob_option `{Gob A} : Gob (option A) := {
  Encode := put_option; Decode := get_option
}.
Next Obligation. intros A GA [a|] r; simpl; rewrite ?Decode_Encode; done. Qed.
Next Obligation. by intros A GA []. Qed.

Fixpoint put_list `{Gob A} (l : list A) : bytes :=
  match l with [] => [x00] | a :: k => x01 :: Encode a ++ put_list k end.

(** The fuel is the length of the stream: each element takes at least a byte. *)
Fixpoint get_list `{Gob A} (fuel : nat) (s : bytes) : option (list A * bytes) :=
  match fuel with
  | 0 => None
  | S f => match s with
    | x00 :: r => Some ([], r)
    | x01 :: r => '(a, r') ← Decode r; '(k, r'') ← get_list f r'; Some (a :: k, r'')
    | _ => None end
  end.

Lemma get_put_list `{Gob A} (l : list A) f r :
  length (put_list l) <= f -> get_list f (put_list l ++ r) = Some (l, r).
Proof.
  revert f. induction l as [|a l IH]; intros [|f] Hf; simpl in *; try lia; [done|].
  rewrite length_app in Hf. rewrite <- app_assoc, Decode_Encode. simpl.
  rewrite IH; [done|lia].
Qed.

#[export] Program Instance Gob_list `{Gob A} : Gob (list A) := {
  Encode := put_list; Decode := fun s => get_list (length s) s
}.
Next Obligation. intros A GA l r. apply get_put_list. rewrite length_app. lia. Qed.
Next Obligation. by intros A GA []. Qed.

(** A codec carried over along an injection with a left inverse. *)
Program Definition Gob_retract {A B} `{Gob B} (f : A -> B) (g : B -> option A)
    (gf : forall a, g (f a) = Some a) : Gob A := {|
  Encode := fun a => Encode (f a);
  Decode := fun s => '(b, r) ← Decode s; a ← g b; Some (a, r)
|}.
Next Obligation. intros A B GB f g gf a r. simpl. rewrite Decode_Encode. simpl. by rewrite gf. Qed.
Next Obligation. intros. apply Encode_nonempty. Qed.

Definition Z_of_string (s : string) : Z := Zpos (encode s).
Definition string_of_Z (z : Z) : option string :=
  match z with Zpos p => decode p | _ => None end.

Lemma string_of_Z_of_string s : string_of_Z (Z_of_string s) = Some s.
Proof. apply decode_encode. Qed.

#[export] Instance Gob_string : Gob string :=
  Gob_retract Z_of_string string_of_Z string_of_Z_of_string.

(** Go maps are written as their key/value pairs. *)
Lemma gmap_of_pairs_of_gmap `{Countable K} {V} (m : gmap K V) :
  Some (list_to_map (map_to_list m)) = Some m.
Proof. by rewrite list_to_map_to_list. Qed.

#[export] Instance Gob_gmap `{Countable K} {V} `{Gob K, Gob V} : Gob (gmap K V) :=
  @Gob_retract (gmap K V) (list (K * V)) Gob_list map_to_list
    (fun l => Some (list_to_map l)) gmap_of_pairs_of_gmap.
