(* ===== verification/RaftNode.v ===== *)
(** * One Raft peer: raft/raft.go, the three RPC handlers and persister.go

    The record [Raft] has the fields of the Go struct (the mutex, the timer
    and the random source apart).  Every critical section of the program, a
    body between [rf.mu.Lock()] and its unlock, is one function from the state
    to an [outcome] holding the new state, the RPC reply if there is one and
    the list of effects the section starts: goroutines, timer resets, a
    snapshot notification.  Slice accesses panic out of range, and a send on
    the full [commitCh] blocks. *)

From stdpp Require Import base list list_numbers gmap.
From S2P Require Import Prelude Gob.
Open Scope Z_scope.

(** ** Data *)

(** raft/raft.go, [LogEntry]; a nil [Command] is [None]. *)
Record LogEntry (Cmd : Type) : Type := mkLogEntry {
  GlobalIndex : Z;
  Term : Z;
  Command : option Cmd
}.
Arguments mkLogEntry {Cmd} _ _ _.
Arguments GlobalIndex {Cmd} _.
Arguments Term {Cmd} _.
Arguments Command {Cmd} _.

(** raft/raft.go, [ApplyMsg]: [CommandMsg] has CommandValid = true,
    [SnapshotMsg] has CommandValid = false. *)
Inductive ApplyMsg (Cmd : Type) : Type :=
| CommandMsg (CommandIndex : Z) (c : option Cmd)
| SnapshotMsg (SnapShot : bytes).
Arguments CommandMsg {Cmd} _ _.
Arguments SnapshotMsg {Cmd} _.

Inductive role : Type := FOLLOWER | CANDIDATE | LEADER.

#[export] Instance role_eq_dec : EqDecision role.
Proof. solve_decision. Defined.

#[export] Instance LogEntry_eq_dec `{EqDecision Cmd} : EqDecision (LogEntry Cmd).
Proof. solve_decision. Defined.

(** raft/persister.go. *)
Record Persister : Type := mkPersister { raftstate : bytes; snapshot : bytes }.

Definition MakePersister : Persister := mkPersister [] [].
Definition Copy (ps : Persister) : Persister := mkPersister (raftstate ps) (snapshot ps).
Definition SaveRaftState (ps : Persister) (st : bytes) : Persister :=
  mkPersister st (snapshot ps).
Definition ReadRaftState (ps : Persister) : bytes := raftstate ps.
Definition RaftStateSize (ps : Persister) : Z := len (raftstate ps).
Definition SaveStateAndSnapshot (ps : Persister) (st snap : bytes) : Persister :=
  mkPersister st snap.
Definition ReadSnapshot (ps : Persister) : bytes := snapshot ps.
Definition SnapshotSize (ps : Persister) : Z := len (snapshot ps).

(** RPC arguments and replies. *)
Record RequestVoteArgs : Type := mkRequestVoteArgs {
  rv_Term : Z; rv_CandidateID : Z; rv_LastLogIndex : Z; rv_LastLogTerm : Z
}.
Record RequestVoteReply : Type := mkRequestVoteReply {
  rvr_Term : Z; rvr_VoteGranted : bool
}.

Record AppendEntriesArgs (Cmd : Type) : Type := mkAppendEntriesArgs {
  ae_Term : Z; ae_LeaderID : Z; ae_PrevLogIndex : Z; ae_PrevLogTerm : Z;
  ae_Entries : list (LogEntry Cmd); ae_LeaderCommit : Z
}.
Arguments mkAppendEntriesArgs {Cmd} _ _ _ _ _ _.
Arguments ae_Term {Cmd} _.
Arguments ae_LeaderID {Cmd} _.
Arguments ae_PrevLogIndex {Cmd} _.
Arguments ae_PrevLogTerm {Cmd} _.
Arguments ae_Entries {Cmd} _.
Arguments ae_LeaderCommit {Cmd} _.
Record AppendEntriesReply : Type := mkAppendEntriesReply {
  aer_Term : Z; aer_Success : bool; aer_ConflictIndex : Z
}.

Record InstallSnapshotArgs : Type := mkInstallSnapshotArgs {
  is_Term : Z; is_LeaderID : Z; is_LastIncludedIndex : Z; is_LastIncludedTerm : Z;
  is_Snapshot : bytes
}.
Record InstallSnapshotReply : Type := mkInstallSnapshotReply { isr_Term : Z }.

(** The struct [Raft].  [peers] is len(rf.peers); [commitCh] is the number of
    tokens buffered in the channel of capacity 100. *)
Record Raft (Cmd : Type) : Type := mkRaft {
  peers : Z;
  persister : Persister;
  me : Z;
  CurrentTerm : Z;
  VotedFor : Z;
  Logs : list (LogEntry Cmd);
  SnapshotIndex : Z;
  commitIndex : Z;
  lastApplied : Z;
  nextIndex : list Z;
  matchIndex : list Z;
  state : role;
  voteCount : Z;
  commitCh : nat
}.
Arguments mkRaft {Cmd} _ _ _ _ _ _ _ _ _ _ _ _ _ _.
Arguments peers {Cmd} _.
Arguments persister {Cmd} _.
Arguments me {Cmd} _.
Arguments CurrentTerm {Cmd} _.
Arguments VotedFor {Cmd} _.
Arguments Logs {Cmd} _.
Arguments SnapshotIndex {Cmd} _.
Arguments commitIndex {Cmd} _.
Arguments lastApplied {Cmd} _.
Arguments nextIndex {Cmd} _.
Arguments matchIndex {Cmd} _.
Arguments state {Cmd} _.
Arguments voteCount {Cmd} _.
Arguments commitCh {Cmd} _.

(** What a critical section starts before it returns. *)
Inductive effect (Cmd : Type) : Type :=
| ResetTimer
| GoSyncUpDaemon
| GoFastBroadCast
| GoBackup (peer : Z)
| GoSendRequestVote (args : RequestVoteArgs) (peer : Z)
| GoSendAppendEntries (args : AppendEntriesArgs Cmd) (peer : Z)
| GoSendSnapShot (args : InstallSnapshotArgs) (peer : Z)
| NotifyApp (snap : bytes).
Arguments ResetTimer {Cmd}.
Arguments GoSyncUpDaemon {Cmd}.
Arguments GoFastBroadCast {Cmd}.
Arguments GoBackup {Cmd} _.
Arguments GoSendRequestVote {Cmd} _ _.
Arguments GoSendAppendEntries {Cmd} _ _.
Arguments GoSendSnapShot {Cmd} _ _.
Arguments NotifyApp {Cmd} _.

Definition CommitChCap : nat := 100.

Definition retract_LogEntry {Cmd} (x : Z * Z * option Cmd) : option (LogEntry Cmd) :=
  Some (mkLogEntry x.1.1 x.1.2 x.2).

Lemma retract_LogEntry_ok {Cmd} (e : LogEntry Cmd) :
  retract_LogEntry (GlobalIndex e, Term e, Command e) = Some e.
Proof. by destruct e. Qed.

#[export] Instance Gob_LogEntry `{Gob Cmd} : Gob (LogEntry Cmd) :=
  Gob_retract (fun e => (GlobalIndex e, Term e, Command e)) retract_LogEntry
    retract_LogEntry_ok.

Section Node.
Context {Cmd : Type} `{GC : Gob Cmd}.
Implicit Types rf : Raft Cmd.

(** ** Field assignments *)
Definition set_persister (v : Persister) rf : Raft Cmd :=
  mkRaft (peers rf) v (me rf) (CurrentTerm rf) (VotedFor rf) (Logs rf) (SnapshotIndex rf)
    (commitIndex rf) (lastApplied rf) (nextIndex rf) (matchIndex rf) (state rf) (voteCount rf)
    (commitCh rf).
Definition set_CurrentTerm (v : Z) rf : Raft Cmd :=
  mkRaft (peers rf) (persister rf) (me rf) v (VotedFor rf) (Logs rf) (SnapshotIndex rf)
    (commitIndex rf) (lastApplied rf) (nextIndex rf) (matchIndex rf) (state rf) (voteCount rf)
    (commitCh rf).
Definition set_VotedFor (v : Z) rf : Raft Cmd :=
  mkRaft (peers rf) (persister rf) (me rf) (CurrentTerm rf) v (Logs rf) (SnapshotIndex rf)
    (commitIndex rf) (lastApplied rf) (nextIndex rf) (matchIndex rf) (state rf) (voteCount rf)
    (commitCh rf).
Definition set_Logs (v : list (LogEntry Cmd)) rf : Raft Cmd :=
  mkRaft (peers rf) (persister rf) (me rf) (CurrentTerm rf) (VotedFor rf) v (SnapshotIndex rf)
    (commitIndex rf) (lastApplied rf) (nextIndex rf) (matchIndex rf) (state rf) (voteCount rf)
    (commitCh rf).
Definition set_SnapshotIndex (v : Z) rf : Raft Cmd :=
  mkRaft (peers rf) (persister rf) (me rf) (CurrentTerm rf) (VotedFor rf) (Logs rf) v
    (commitIndex rf) (lastApplied rf) (nextIndex rf) (matchIndex rf) (state rf) (voteCount rf)
    (commitCh rf).
Definition set_commitIndex (v : Z) rf : Raft Cmd :=
  mkRaft (peers rf) (persister rf) (me rf) (CurrentTerm rf) (VotedFor rf) (Logs rf)
    (SnapshotIndex rf) v (lastApplied rf) (nextIndex rf) (matchIndex rf) (state rf)
    (voteCount rf) (commitCh rf).
Definition set_lastApplied (v : Z) rf : Raft Cmd :=
  mkRaft (peers rf) (persister rf) (me rf) (CurrentTerm rf) (VotedFor rf) (Logs rf)
    (SnapshotIndex rf) (commitIndex rf) v (nextIndex rf) (matchIndex rf) (state rf)
    (voteCount rf) (commitCh rf).
Definition set_nextIndex (v : list Z) rf : Raft Cmd :=
  mkRaft (peers rf) (persister rf) (me rf) (CurrentTerm rf) (VotedFor rf) (Logs rf)
    (SnapshotIndex rf) (commitIndex rf) (lastApplied rf) v (matchIndex rf) (state rf)
    (voteCount rf) (commitCh rf).
Definition set_matchIndex (v : list Z) rf : Raft Cmd :=
  mkRaft (peers rf) (persister rf) (me rf) (CurrentTerm rf) (VotedFor rf) (Logs rf)
    (SnapshotIndex rf) (commitIndex rf) (lastApplied rf) (nextIndex rf) v (state rf)
    (voteCount rf) (commitCh rf).
Definition set_state (v : role) rf : Raft Cmd :=
  mkRaft (peers rf) (persister rf) (me rf) (CurrentTerm rf) (VotedFor rf) (Logs rf)
    (SnapshotIndex rf) (commitIndex rf) (lastApplied rf) (nextIndex rf) (matchIndex rf) v
    (voteCount rf) (commitCh rf).
Definition set_voteCount (v : Z) rf : Raft Cmd :=
  mkRaft (peers rf) (persister rf) (me rf) (CurrentTerm rf) (VotedFor rf) (Logs rf)
    (SnapshotIndex rf) (commitIndex rf) (lastApplied rf) (nextIndex rf) (matchIndex rf)
    (state rf) v (commitCh rf).
Definition set_commitCh (v : nat) rf : Raft Cmd :=
  mkRaft (peers rf) (persister rf) (me rf) (CurrentTerm rf) (VotedFor rf) (Logs rf)
    (SnapshotIndex rf) (commitIndex rf) (lastApplied rf) (nextIndex rf) (matchIndex rf)
    (state rf) (voteCount rf) v.

(** ** Small helpers of raft.go *)
Definition logIdxLocal2Global rf (localIdx : Z) : Z := localIdx + SnapshotIndex rf.
Definition logIdxGlobal2Local rf (globalIdx : Z) : Z := globalIdx - SnapshotIndex rf.

Definition goBackToFollower rf : Raft Cmd := set_voteCount 0 (set_state FOLLOWER rf).

(** The three statements every reaction to a higher term starts with. *)
Definition stepDown rf (t : Z) : Raft Cmd :=
  goBackToFollower (set_VotedFor (-1) (set_CurrentTerm t rf)).

Definition GetState rf : Z * bool := (CurrentTerm rf, bool_decide (state rf = LEADER)).
Definition GetStateSize rf : Z := RaftStateSize (persister rf).

(** [rf.commitCh <- struct{}{}]. *)
Definition sendCommitCh rf : outcome (Raft Cmd) :=
  if decide (commitCh rf < CommitChCap)%nat then Ret (set_commitCh (S (commitCh rf)) rf)
  else Block.

Definition Kill rf : Raft Cmd := set_state FOLLOWER rf.

(** ** Persistence *)
Definition encodeState rf : bytes :=
  Encode (CurrentTerm rf) ++ Encode (VotedFor rf) ++ Encode (SnapshotIndex rf)
    ++ Encode (Logs rf).

Definition persistState rf : Raft Cmd :=
  set_persister (SaveRaftState (persister rf) (encodeState rf)) rf.

(** A stream that does not decode leaves the receiver unchanged. *)
Definition decodeState rf (data : bytes) : Raft Cmd :=
  if decide (len data < 1) then rf
  else
    match (
      '(currentTerm, d1) ← Decode data;
      '(votedFor, d2) ← Decode d1;
      '(snapShotIndex, d3) ← Decode d2;
      '(logs, _) ← Decode d3;
      Some (currentTerm, votedFor, snapShotIndex, logs) : option (Z * Z * Z * list (LogEntry Cmd)))
    with
    | None => rf
    | Some (currentTerm, votedFor, snapShotIndex, logs) =>
        set_Logs logs (set_SnapshotIndex snapShotIndex
          (set_VotedFor votedFor (set_CurrentTerm currentTerm rf)))
    end.

Definition dePersistState rf : Raft Cmd := decodeState rf (ReadRaftState (persister rf)).

(** [notifyAppUseNewSnapShot]: what it sends on [applyCh]. *)
Definition notifyAppUseNewSnapShot (snap : bytes) : list (ApplyMsg Cmd) :=
  if decide (len snap < 1) then [] else [SnapshotMsg snap].

Definition initRaft (npeers i : Z) (ps : Persister) : Raft Cmd :=
  mkRaft npeers ps i 0 (-1) [mkLogEntry 0 0 None] 0 0 0
    (replicate (Z.to_nat npeers) 1) (replicate (Z.to_nat npeers) 0) FOLLOWER 0 0.

(** [Make]: the new peer, and what it sends on [applyCh] before the daemons
    start. *)
Definition Make (npeers i : Z) (ps : Persister) : Raft Cmd * list (ApplyMsg Cmd) :=
  let rf := dePersistState (initRaft npeers i ps) in
  (rf, notifyAppUseNewSnapShot (ReadSnapshot (persister rf))).

(** ** RequestVote (raft/requestvote_rpc.go) *)
Definition RequestVote rf (args : RequestVoteArgs)
    : outcome (Raft Cmd * RequestVoteReply * list (effect Cmd)) :=
  if rv_Term args <? CurrentTerm rf then
    Ret (rf, mkRequestVoteReply (CurrentTerm rf) false, [])
  else
    let '(rf1, change) :=
      if CurrentTerm rf <? rv_Term args then (stepDown rf (rv_Term args), true)
      else (rf, false) in
    '(rf2, granted, change2, effs) ←
      (if (VotedFor rf1 =? -1) || (VotedFor rf1 =? rv_CandidateID args) then
        let idx := len (Logs rf1) - 1 in
        e ← slice_get (Logs rf1) idx;
        let localLastLogTerm := Term e in
        let localLastLogIndex := logIdxLocal2Global rf1 idx in
        if (localLastLogTerm <? rv_LastLogTerm args)
           || ((rv_LastLogTerm args =? localLastLogTerm)
               && (localLastLogIndex <=? rv_LastLogIndex args)) then
          if VotedFor rf1 =? -1 then
            Ret (set_VotedFor (rv_CandidateID args) rf1, true, true, [ResetTimer])
          else Ret (rf1, true, change, [ResetTimer])
        else Ret (rf1, false, change, [])
      else Ret (rf1, false, change, []));
    Ret (if change2 : bool then persistState rf2 else rf2,
         mkRequestVoteReply (rv_Term args) granted, effs).

(** ** AppendEntries (raft/appendentries_rpc.go) *)

(** [for ; i>0; i-- { if rf.Logs[i-1].Term != t { break } }] *)
Fixpoint conflictHead (logs : list (LogEntry Cmd)) (t : Z) (i : nat) : outcome nat :=
  match i with
  | O => Ret O
  | S i' =>
      e ← slice_get logs (Z.of_nat i');
      if Term e =? t then conflictHead logs t i' else Ret i
  end.

(** [for ; i < len(rf.Logs) && j < len(args.Entries); i, j = i+1, j+1 {...}];
    the fuel is the number of entries, and [j] grows in each round. *)
Fixpoint matchLoop (fuel : nat) (logs entries : list (LogEntry Cmd)) (i j : Z)
    : outcome (Z * Z) :=
  match fuel with
  | O => Ret (i, j)
  | S fuel' =>
      if (i <? len logs) && (j <? len entries) then
        a ← slice_get logs i;
        b ← slice_get entries j;
        if Term a =? Term b then matchLoop fuel' logs entries (i + 1) (j + 1)
        else Ret (i, j)
      else Ret (i, j)
  end.

(** The last branch of the handler: the entry before the new ones matches. *)
Definition appendMatched rf (args : AppendEntriesArgs Cmd) (localPrevIdx : Z) (change : bool)
    : outcome (Raft Cmd * AppendEntriesReply * bool) :=
  '(i, j) ← matchLoop (length (ae_Entries args)) (Logs rf) (ae_Entries args)
              (localPrevIdx + 1) 0;
  '(rf1, change1) ←
    (if j <? len (ae_Entries args) then
       pre ← slice_to (Logs rf) i;
       suf ← slice_from (ae_Entries args) j;
       Ret (set_Logs (pre ++ suf) rf, true)
     else Ret (rf, change));
  rf2 ←
    (if commitIndex rf1 <? ae_LeaderCommit args then
       sendCommitCh (set_commitIndex
         (min (ae_LeaderCommit args) (logIdxLocal2Global rf1 (len (Logs rf1) - 1))) rf1)
     else Ret rf1);
  Ret (rf2, mkAppendEntriesReply (ae_Term args) true 0, change1).

Definition AppendEntries rf (args : AppendEntriesArgs Cmd)
    : outcome (Raft Cmd * AppendEntriesReply * list (effect Cmd)) :=
  if ae_Term args <? CurrentTerm rf then
    Ret (rf, mkAppendEntriesReply (CurrentTerm rf) false 0, [])
  else
    let '(rf1, change) :=
      if CurrentTerm rf <? ae_Term args then (stepDown rf (ae_Term args), true)
      else (set_state FOLLOWER rf, false) in
    let localLastIdx := len (Logs rf1) - 1 in
    let localPrevIdx := logIdxGlobal2Local rf1 (ae_PrevLogIndex args) in
    '(rf2, reply, change2) ←
      (if ae_PrevLogIndex args <? SnapshotIndex rf1 then
         Ret (rf1, mkAppendEntriesReply (ae_Term args) false
                     (logIdxLocal2Global rf1 localLastIdx + 1), change)
       else if localLastIdx <? localPrevIdx then
         Ret (rf1, mkAppendEntriesReply (ae_Term args) false
                     (logIdxLocal2Global rf1 localLastIdx + 1), change)
       else
         e ← slice_get (Logs rf1) localPrevIdx;
         if negb (Term e =? ae_PrevLogTerm args) then
           i ← conflictHead (Logs rf1) (Term e) (Z.to_nat localPrevIdx);
           Ret (rf1, mkAppendEntriesReply (ae_Term args) false
                       (logIdxLocal2Global rf1 (Z.of_nat i)), change)
         else appendMatched rf1 args localPrevIdx change);
    Ret (if change2 : bool then persistState rf2 else rf2, reply, [ResetTimer]).

(** ** InstallSnapShot (raft/installsnapshot_rpc.go) and Compact *)

(** [copy(dst, src)]. *)
Definition goCopy (dst src : list (LogEntry Cmd)) : list (LogEntry Cmd) :=
  take (length dst) src ++ drop (length src) dst.

Definition zeroEntry : LogEntry Cmd := mkLogEntry 0 0 None.

(** [make([]LogEntry, size)], its head set to the dummy entry of a snapshot and
    its tail copied from the log after [from] when [size > 1]. *)
Definition rebaseLog (logs : list (LogEntry Cmd)) (size idx t from : Z)
    : outcome (list (LogEntry Cmd)) :=
  let tail := replicate (Z.to_nat (size - 1)) zeroEntry in
  if 1 <? size then
    src ← slice_from logs (from + 1);
    Ret (mkLogEntry idx t None :: goCopy tail src)
  else Ret (mkLogEntry idx t None :: tail).

Definition InstallSnapShot rf (args : InstallSnapshotArgs)
    : outcome (Raft Cmd * InstallSnapshotReply * list (effect Cmd)) :=
  if is_Term args <? CurrentTerm rf then
    Ret (rf, mkInstallSnapshotReply (CurrentTerm rf), [])
  else
    let reply := mkInstallSnapshotReply (is_Term args) in
    let '(rf1, change) :=
      if CurrentTerm rf <? is_Term args then (stepDown rf (is_Term args), true)
      else (set_state FOLLOWER rf, false) in
    if (is_LastIncludedIndex args <=? SnapshotIndex rf1)
       || (is_LastIncludedIndex args <=? commitIndex rf1) then
      Ret (if change : bool then persistState rf1 else rf1, reply, [ResetTimer])
    else
      let argsLocal := logIdxGlobal2Local rf1 (is_LastIncludedIndex args) in
      size ←
        (if argsLocal <? len (Logs rf1) then
           e ← slice_get (Logs rf1) argsLocal;
           if Term e =? is_LastIncludedTerm args then Ret (len (Logs rf1) - argsLocal)
           else Ret 1
         else Ret 1);
      newLog ← rebaseLog (Logs rf1) size (is_LastIncludedIndex args)
                 (is_LastIncludedTerm args) argsLocal;
      let rf2 := set_SnapshotIndex (is_LastIncludedIndex args) (set_Logs newLog rf1) in
      let rf3 := set_persister
        (SaveStateAndSnapshot (persister rf2) (encodeState rf2) (is_Snapshot args)) rf2 in
      Ret (rf3, reply, [ResetTimer; NotifyApp (is_Snapshot args)]).

(** [Compact]: the service hands in a snapshot of its state up to [cmdIndex]. *)
Definition Compact rf (cmdIndex : Z) (snap : bytes) : outcome (Raft Cmd) :=
  if cmdIndex <=? SnapshotIndex rf then Ret rf
  else
    let local := logIdxGlobal2Local rf cmdIndex in
    if len (Logs rf) <=? local then Ret rf
    else
      let size := 1 + max 0 (len (Logs rf) - 1 - local) in
      e ← slice_get (Logs rf) local;
      newLog ← rebaseLog (Logs rf) size cmdIndex (Term e) local;
      let rf1 := set_SnapshotIndex cmdIndex (set_Logs newLog rf) in
      Ret (set_persister (SaveStateAndSnapshot (persister rf1) (encodeState rf1) snap) rf1).

(** ** Elections *)
Definition otherPeers rf : list Z := filter (fun i => i <> me rf) (seqZ 0 (peers rf)).

(** [broadCastVote], run when the election timer fires. *)
Definition broadCastVote rf : outcome (Raft Cmd * list (effect Cmd)) :=
  if decide (state rf = LEADER) then Ret (rf, [])
  else
    let rf1 := set_voteCount 1 (set_VotedFor (me rf) (set_state CANDIDATE
                 (set_CurrentTerm (CurrentTerm rf + 1) rf))) in
    let localIdx := len (Logs rf1) - 1 in
    e ← slice_get (Logs rf1) localIdx;
    let args := mkRequestVoteArgs (CurrentTerm rf1) (me rf1)
                  (logIdxLocal2Global rf1 localIdx) (Term e) in
    Ret (persistState rf1, (fun i => GoSendRequestVote args i) <$> otherPeers rf1).

(** [for i := range rf.nextIndex { rf.nextIndex[i] = v; rf.matchIndex[i] = 0 }] *)
Fixpoint leaderInit (n : nat) (i v : Z) (next mtch : list Z) : outcome (list Z * list Z) :=
  match n with
  | O => Ret (next, mtch)
  | S n' =>
      next' ← slice_set next i v;
      mtch' ← slice_set mtch i 0;
      leaderInit n' (i + 1) v next' mtch'
  end.

Definition becomeLeader rf : outcome (Raft Cmd) :=
  let last := logIdxLocal2Global rf (len (Logs rf) - 1) in
  '(next, mtch) ← leaderInit (length (nextIndex rf)) 0 (last + 1) (nextIndex rf) (matchIndex rf);
  nm ← slice_get next (me rf);
  mtch' ← slice_set mtch (me rf) (nm - 1);
  Ret (set_matchIndex mtch' (set_nextIndex next (set_state LEADER rf))).

(** [sendRequestVoteAndProcess] after its RPC returned; [None] is a call that
    failed. *)
Definition sendRequestVoteAndProcess rf (args : RequestVoteArgs) (server : Z)
    (res : option RequestVoteReply) : outcome (Raft Cmd * list (effect Cmd)) :=
  match res with
  | None => Ret (rf, [])
  | Some reply =>
      if bool_decide (state rf <> CANDIDATE) || (rvr_Term reply <? CurrentTerm rf) then Ret (rf, [])
      else if CurrentTerm rf <? rvr_Term reply then
        Ret (persistState (stepDown rf (rvr_Term reply)), [ResetTimer])
      else if rvr_VoteGranted reply then
        let rf1 := set_voteCount (voteCount rf + 1) rf in
        if peers rf1 / 2 <? voteCount rf1 then
          rf2 ← becomeLeader rf1;
          Ret (rf2, [GoSyncUpDaemon; ResetTimer])
        else Ret (rf1, [])
      else Ret (rf, [])
  end.

(** ** Log replication: the leader's side *)
Definition countMatched (mtch : list Z) (N : Z) : Z := len (filter (fun x => N <= x) mtch).

(** The success branch of [sendAppendEntriesAndProcess]. *)
Definition processAppendSuccess rf (args : AppendEntriesArgs Cmd) (server : Z)
    : outcome (Raft Cmd) :=
  let N := ae_PrevLogIndex args + len (ae_Entries args) in
  m ← slice_get (matchIndex rf) server;
  if m <? N then
    mtch ← slice_set (matchIndex rf) server N;
    next ← slice_set (nextIndex rf) server (N + 1);
    let rf1 := set_nextIndex next (set_matchIndex mtch rf) in
    let idx := logIdxGlobal2Local rf1 N in
    count ←
      (if commitIndex rf1 <? N then
         e ← slice_get (Logs rf1) idx;
         Ret (if Term e =? CurrentTerm rf1 then countMatched (matchIndex rf1) N else 0)
       else Ret 0);
    if peers rf1 / 2 <? count then sendCommitCh (set_commitIndex N rf1)
    else Ret rf1
  else Ret rf.

Definition sendAppendEntriesAndProcess rf (args : AppendEntriesArgs Cmd) (server : Z)
    (res : option AppendEntriesReply) : outcome (Raft Cmd * list (effect Cmd)) :=
  match res with
  | None => Ret (rf, [])
  | Some reply =>
      if bool_decide (state rf <> LEADER) || (aer_Term reply <? CurrentTerm rf) then Ret (rf, [])
      else if CurrentTerm rf <? aer_Term reply then
        Ret (persistState (stepDown rf (aer_Term reply)), [ResetTimer])
      else if aer_Success reply then
        rf1 ← processAppendSuccess rf args server;
        Ret (rf1, [])
      else
        next ← slice_set (nextIndex rf) server (max 1 (aer_ConflictIndex reply));
        Ret (set_nextIndex next rf, [GoBackup server])
  end.

Definition sendSnapShotAndProcess rf (args : InstallSnapshotArgs) (server : Z)
    (res : option InstallSnapshotReply) : outcome (Raft Cmd * list (effect Cmd)) :=
  match res with
  | None => Ret (rf, [])
  | Some reply =>
      if bool_decide (state rf <> LEADER) || (isr_Term reply <? CurrentTerm rf) then Ret (rf, [])
      else if CurrentTerm rf <? isr_Term reply then
        Ret (persistState (stepDown rf (isr_Term reply)), [ResetTimer])
      else
        nx ← slice_get (nextIndex rf) server;
        if nx <=? is_LastIncludedIndex args then
          next ← slice_set (nextIndex rf) server (is_LastIncludedIndex args + 1);
          mtch ← slice_set (matchIndex rf) server (is_LastIncludedIndex args);
          Ret (set_matchIndex mtch (set_nextIndex next rf), [])
        else Ret (rf, [])
  end.

(** [checkConsistency]: the leader sends peer [to] its log from [nextIndex[to]],
    or its snapshot when the log before that was compacted away. *)
Definition checkConsistency rf (to : Z) : outcome (list (effect Cmd)) :=
  if decide (state rf = LEADER) then
    nx ← slice_get (nextIndex rf) to;
    let prevIdx := nx - 1 in
    if prevIdx <? SnapshotIndex rf then
      e ← slice_get (Logs rf) 0;
      Ret [GoSendSnapShot (mkInstallSnapshotArgs (CurrentTerm rf) (me rf) (SnapshotIndex rf)
             (Term e) (ReadSnapshot (persister rf))) to]
    else
      let localIdx := min (logIdxGlobal2Local rf prevIdx) (len (Logs rf) - 1) in
      e ← slice_get (Logs rf) localIdx;
      entries ← slice_from (Logs rf) (localIdx + 1);
      Ret [GoSendAppendEntries (mkAppendEntriesArgs (CurrentTerm rf) (me rf) prevIdx (Term e)
             entries (commitIndex rf)) to]
  else Ret [].

(** One round of [syncUpDaemon], and [fastBroadCastNewCommand]: the peers for
    which [checkConsistency] is run. *)
Definition syncUpTargets rf : list Z :=
  if decide (state rf = LEADER) then otherPeers rf else [].
Definition fastBroadCastNewCommand rf : list Z := otherPeers rf.

(** [Start]: index, term, isLeader. *)
Definition Start rf (command : Cmd)
    : outcome (Raft Cmd * (Z * Z * bool) * list (effect Cmd)) :=
  if decide (state rf = LEADER) then
    let rf1 := set_Logs (Logs rf ++
      [mkLogEntry (SnapshotIndex rf + len (Logs rf)) (CurrentTerm rf) (Some command)]) rf in
    let index := logIdxLocal2Global rf1 (len (Logs rf1) - 1) in
    next ← slice_set (nextIndex rf1) (me rf1) (index + 1);
    mtch ← slice_set (matchIndex rf1) (me rf1) index;
    Ret (persistState (set_matchIndex mtch (set_nextIndex next rf1)),
         (index, CurrentTerm rf, true), [GoFastBroadCast])
  else Ret (rf, (-1, -1, false), []).

(** ** Applying committed entries *)

(** The loop of [applyLogEntryDaemon]; the fuel bounds the number of rounds,
    each of which moves [i] forward. *)
Fixpoint applyLoop (fuel : nat) rf (i last : Z) : outcome (Raft Cmd * list (ApplyMsg Cmd)) :=
  match fuel with
  | O => Ret (rf, [])
  | S fuel' =>
      if i <=? last then
        if i <=? SnapshotIndex rf then applyLoop fuel' rf (SnapshotIndex rf + 1) last
        else
          e ← slice_get (Logs rf) (logIdxGlobal2Local rf i);
          '(rf', msgs) ← applyLoop fuel' (set_lastApplied i rf) (i + 1) last;
          Ret (rf', CommandMsg i (Command e) :: msgs)
      else Ret (rf, [])
  end.

(** One round of [applyLogEntryDaemon] after its receive from [commitCh]. *)
Definition applyLogEntryDaemon rf : outcome (Raft Cmd * list (ApplyMsg Cmd)) :=
  applyLoop (Z.to_nat (commitIndex rf - lastApplied rf)) rf (lastApplied rf + 1)
    (commitIndex rf).

End Node.
