(* ===== verification/RaftNodeFacts.v ===== *)
(** * Facts about one peer

    Persistence round trip, the loops of the handlers, and what each critical
    section leaves unchanged.  These lemmas are about a single peer; the
    cluster is in RaftSystem.v and RaftRefine.v. *)

From stdpp Require Import base list list_numbers gmap.
From S2P Require Import Prelude Gob RaftNode.
Open Scope Z_scope.

Section Facts.
Context {Cmd : Type} `{GC : Gob Cmd}.
Implicit Types rf : Raft Cmd.
Implicit Types logs entries : list (LogEntry Cmd).

(** ** Persistence *)

(** The persister of [rf] holds its persistent fields: a restart from it gets
    them back. *)
Definition synced rf : Prop :=
  let rb := dePersistState (initRaft (peers rf) (me rf) (persister rf)) in
  CurrentTerm rb = CurrentTerm rf /\ VotedFor rb = VotedFor rf /\
  SnapshotIndex rb = SnapshotIndex rf /\ Logs rb = Logs rf.

Lemma encodeState_nonempty rf : ~ len (encodeState rf) < 1.
Proof.
  unfold encodeState, len. rewrite !length_app.
  pose proof (Encode_nonempty (CurrentTerm rf)). destruct (Encode (CurrentTerm rf)); [done|].
  simpl. lia.
Qed.

(** What [encodeState] wrote, [decodeState] reads back into any peer. *)
Lemma decode_encodeState rf rf0 :
  decodeState rf0 (encodeState rf) =
  set_Logs (Logs rf) (set_SnapshotIndex (SnapshotIndex rf)
    (set_VotedFor (VotedFor rf) (set_CurrentTerm (CurrentTerm rf) rf0))).
Proof.
  unfold decodeState. case_decide as H; [by destruct (encodeState_nonempty rf)|].
  unfold encodeState. rewrite Decode_Encode; cbn [mbind option_bind].
  rewrite Decode_Encode; cbn [mbind option_bind].
  rewrite Decode_Encode; cbn [mbind option_bind].
  by rewrite Decode_Encode_nil.
Qed.

Lemma synced_saved rf :
  raftstate (persister rf) = encodeState rf -> synced rf.
Proof.
  intros H. unfold synced, dePersistState, ReadRaftState. simpl. rewrite H.
  by rewrite decode_encodeState.
Qed.

Lemma persistState_synced rf : synced (persistState rf).
Proof. by apply synced_saved. Qed.

Lemma synced_ext rf rf' :
  peers rf' = peers rf -> me rf' = me rf -> persister rf' = persister rf ->
  CurrentTerm rf' = CurrentTerm rf -> VotedFor rf' = VotedFor rf ->
  SnapshotIndex rf' = SnapshotIndex rf -> Logs rf' = Logs rf -> synced rf -> synced rf'.
Proof.
  intros E1 E2 E3 E4 E5 E6 E7. unfold synced. by rewrite E1, E2, E3, E4, E5, E6, E7.
Qed.

Lemma dePersistState_static rf :
  peers (dePersistState rf) = peers rf /\ me (dePersistState rf) = me rf /\
  persister (dePersistState rf) = persister rf /\
  commitIndex (dePersistState rf) = commitIndex rf /\
  lastApplied (dePersistState rf) = lastApplied rf /\
  nextIndex (dePersistState rf) = nextIndex rf /\
  matchIndex (dePersistState rf) = matchIndex rf /\
  state (dePersistState rf) = state rf /\ voteCount (dePersistState rf) = voteCount rf.
Proof.
  unfold dePersistState, decodeState. case_decide; [by split_and!|].
  case_match; [|by split_and!]. case_match. case_match. case_match. by split_and!.
Qed.

(** ** Slices *)
Lemma slice_get_lookup logs (k : nat) e : slice_get logs (Z.of_nat k) = Ret e -> logs !! k = Some e.
Proof. intros [_ H]%slice_get_Ret. by rewrite Nat2Z.id in H. Qed.

Lemma slice_to_Ret {A} (l l' : list A) i :
  slice_to l i = Ret l' -> 0 <= i <= len l /\ l' = take (Z.to_nat i) l.
Proof. unfold slice_to. case_decide; naive_solver. Qed.

Lemma slice_from_Ret {A} (l l' : list A) i :
  slice_from l i = Ret l' -> 0 <= i <= len l /\ l' = drop (Z.to_nat i) l.
Proof. unfold slice_from. case_decide; naive_solver. Qed.

(** ** The loops of AppendEntries *)

(** [conflictHead] finds the first index of the run of entries of term [t] that
    ends at [i]. *)
Lemma conflictHead_spec logs t i :
  (i < length logs)%nat ->
  (exists e, logs !! i = Some e /\ Term e = t) ->
  exists h, conflictHead logs t i = Ret h /\ (h <= i)%nat /\
    (forall k, (h <= k <= i)%nat -> exists e, logs !! k = Some e /\ Term e = t) /\
    (forall e, (0 < h)%nat -> logs !! Nat.pred h = Some e -> Term e <> t).
Proof.
  induction i as [|i IH]; intros Hi Ht; simpl.
  - exists 0%nat. split_and!; [done|lia| |lia]. intros k Hk. by replace k with 0%nat by lia.
  - destruct (lookup_lt_is_Some_2 logs i) as [e He]; [lia|].
    assert (slice_get logs (Z.of_nat i) = Ret e) as ->.
    { apply slice_get_Ret. rewrite Nat2Z.id. split; [lia|done]. }
    simpl. destruct (Z.eqb_spec (Term e) t) as [<-|Hne].
    + destruct IH as (h & Hh & ? & Hall & Hstop); [lia|eauto|]. exists h. split_and!; auto.
      intros k Hk. destruct (decide (k = S i)) as [->|]; [done|]. apply Hall. lia.
    + exists (S i). split_and!; [done|lia| |].
      * intros k Hk. by replace k with (S i) by lia.
      * simpl. intros e' _ He'. congruence.
Qed.

(** [matchLoop] skips the longest run of positions at which both lists have
    entries of equal terms. *)
Lemma matchLoop_spec fuel logs entries i j :
  0 <= i -> 0 <= j -> (length entries <= Z.to_nat j + fuel)%nat ->
  exists m : nat, matchLoop fuel logs entries i j = Ret (i + Z.of_nat m, j + Z.of_nat m) /\
    (i <= len logs -> i + Z.of_nat m <= len logs) /\
    (j <= len entries -> j + Z.of_nat m <= len entries) /\
    (forall k, (k < m)%nat -> exists x y, logs !! (Z.to_nat i + k)%nat = Some x /\
       entries !! (Z.to_nat j + k)%nat = Some y /\ Term x = Term y) /\
    (i + Z.of_nat m >= len logs \/ j + Z.of_nat m >= len entries \/
     exists x y, logs !! (Z.to_nat i + m)%nat = Some x /\
       entries !! (Z.to_nat j + m)%nat = Some y /\ Term x <> Term y).
Proof.
  revert i j. induction fuel as [|fuel IH]; intros i j Hi Hj Hf; simpl.
  - exists 0%nat. rewrite !Z.add_0_r. split_and!; try done; [lia|].
    right; left. unfold len. lia.
  - destruct ((i <? len logs) && (j <? len entries)) eqn:Hb; zbool.
    2:{ exists 0%nat. rewrite !Z.add_0_r. split_and!; try done; [lia|].
        apply andb_false_iff in Hb as [Hb|Hb]; zbool; [left|right; left]; lia. }
    destruct (slice_get_in logs i) as [x Hx]; [lia|].
    destruct (slice_get_in entries j) as [y Hy]; [lia|]. rewrite Hx; simpl. rewrite Hy; simpl.
    apply slice_get_Ret in Hx as [_ Hx], Hy as [_ Hy].
    destruct (Z.eqb_spec (Term x) (Term y)) as [Heq|Hne].
    + destruct (IH (i + 1) (j + 1)) as (m & Hm & H1 & H2 & H3 & H4); [lia|lia|lia|].
      exists (S m). rewrite Hm. split_and!.
      * f_equal. f_equal; lia.
      * intros. lia.
      * intros. lia.
      * intros [|k] Hk; [exists x, y; by rewrite !Nat.add_0_r|].
        destruct (H3 k) as (x' & y' & Hx' & Hy' & Ht); [lia|]. exists x', y'.
        split_and!; [rewrite <- Hx'|rewrite <- Hy'|done]; f_equal; lia.
      * destruct H4 as [?|[?|(x' & y' & Hx' & Hy' & Ht)]]; [left; lia|right; left; lia|].
        right; right. exists x', y'.
        split_and!; [rewrite <- Hx'|rewrite <- Hy'|done]; f_equal; lia.
    + exists 0%nat. rewrite !Z.add_0_r. split_and!; try done; [lia|].
      right; right. exists x, y. by rewrite !Nat.add_0_r.
Qed.

(** ** Rebasing a log on a snapshot *)
Lemma rebaseLog_spec logs size idx t from :
  size = 1 \/ (1 < size /\ 0 <= from + 1 /\ size = len logs - from) ->
  rebaseLog logs size idx t from =
    Ret (mkLogEntry idx t None :: if decide (1 < size) then drop (Z.to_nat (from + 1)) logs else []).
Proof.
  unfold rebaseLog. intros Hs.
  destruct (Z.ltb_spec 1 size) as [H|H].
  - rewrite decide_True by lia. destruct Hs as [?|(_ & Hf & Hl)]; [lia|].
    unfold slice_from. rewrite decide_True by (unfold len in *; lia). simpl. do 2 f_equal.
    unfold goCopy. rewrite length_replicate, length_drop.
    rewrite take_ge by (rewrite length_drop; unfold len in *; lia).
    rewrite (drop_ge (replicate _ _)) by (rewrite length_replicate; unfold len in *; lia). by rewrite app_nil_r.
  - rewrite decide_False by lia. replace (size - 1) with 0 by lia. done.
Qed.

(** ** Becoming leader *)
Lemma leaderInit_spec k i v next mtch :
  0 <= i -> length mtch = length next -> (Z.to_nat i + k = length next)%nat ->
  leaderInit k i v next mtch =
    Ret (take (Z.to_nat i) next ++ replicate k v, take (Z.to_nat i) mtch ++ replicate k 0).
Proof.
  revert i next mtch. induction k as [|k IH]; intros i next mtch Hi Hl Hk; simpl.
  - by rewrite !take_ge, !app_nil_r by lia.
  - unfold slice_set. rewrite !decide_True by (unfold len; lia). simpl.
    rewrite IH by (rewrite ?length_insert; lia).
    replace (Z.to_nat (i + 1)) with (S (Z.to_nat i)) by lia.
    rewrite (take_S_r _ _ v) by (apply list_lookup_insert_eq; lia).
    rewrite (take_S_r _ _ 0) by (apply list_lookup_insert_eq; lia).
    rewrite !take_insert_ge by lia. by rewrite <- !app_assoc.
Qed.

(** ** Terms never go back *)
Lemma RequestVote_term rf args rf' r effs :
  RequestVote rf args = Ret (rf', r, effs) ->
  CurrentTerm rf <= CurrentTerm rf' /\ CurrentTerm rf' = rvr_Term r.
Proof.
  unfold RequestVote. intros H. destruct (Z.ltb_spec (rv_Term args) (CurrentTerm rf)).
  { simplify_eq. simpl. lia. }
  destruct (Z.ltb_spec (CurrentTerm rf) (rv_Term args)); bind_inv;
    repeat (case_match; simplify_eq/=; bind_inv; simplify_eq/=); simpl; lia.
Qed.

End Facts.
