(* ===== verification/RaftSpec.v ===== *)
(** * The replicated-log protocol, without messages

    An abstract specification of what raft/ promises: peers vote for
    candidates term by term, a candidate with a majority leads its term, a
    leader's log of a term ([LL]) only grows, and a peer accepts prefixes of
    the log of the leader of its term.  The state keeps the history that the
    safety argument needs (votes, candidates' logs, leaders' logs, the longest
    prefix each peer accepted in each term).  There are no messages: what a
    message of the program carries is a fact about this history that stays
    true, so a late or repeated delivery is a step like any other.

    [Inv] is the inductive invariant, [committed_agree] the conclusion: two
    committed prefixes are prefixes of one another. *)

From stdpp Require Import base functions list gmap.
From S2P Require Import Prelude Gob RaftNode.
Open Scope Z_scope.

(** The term of entry [k] of a full log, entries numbered from 1; the empty
    log ends in the dummy entry of term 0. *)
Definition term_at {Cmd} (L : list (LogEntry Cmd)) (k : nat) : Z :=
  match k with
  | O => 0
  | S k' => match L !! k' with Some e => Term e | None => 0 end
  end.

Definition last_term {Cmd} (L : list (LogEntry Cmd)) : Z := term_at L (length L).

(** The comparison of RequestVote: is [lc] at least as up to date as [lp]? *)
Definition up_to_date {Cmd} (lc lp : list (LogEntry Cmd)) : Prop :=
  last_term lp < last_term lc \/
  (last_term lc = last_term lp /\ (length lp <= length lc)%nat).

(** The result of accepting the prefix [P] over the log [L]: kept when [L]
    already contains [P], replaced by it otherwise. *)
Definition merged {Cmd} (L P L' : list (LogEntry Cmd)) : Prop :=
  (P `prefix_of` L /\ L' = L) \/ (~ P `prefix_of` L /\ L' = P).

Record spec (Cmd : Type) : Type := mkSpec {
  term : Z -> Z;
  log : Z -> list (LogEntry Cmd);
  vote : Z * Z -> option Z;
  candLog : Z * Z -> list (LogEntry Cmd);
  leader : Z -> option Z;
  LL : Z -> list (LogEntry Cmd);
  acked : Z * Z -> nat
}.
Arguments mkSpec {Cmd} _ _ _ _ _ _ _.
Arguments term {Cmd} _ _.
Arguments log {Cmd} _ _.
Arguments vote {Cmd} _ _.
Arguments candLog {Cmd} _ _.
Arguments leader {Cmd} _ _.
Arguments LL {Cmd} _ _.
Arguments acked {Cmd} _ _.

Definition spec_init {Cmd} : spec Cmd :=
  mkSpec (fun _ => 0) (fun _ => []) (fun _ => None) (fun _ => []) (fun _ => None)
    (fun _ => []) (fun _ => 0%nat).

Section Protocol.
Context {Cmd : Type} (n : Z).
Implicit Types a : spec Cmd.
Implicit Types L P : list (LogEntry Cmd).

(** ** Steps *)
Inductive spec_step a : spec Cmd -> Prop :=
| step_timeout c :
    spec_step a (mkSpec (<[c := term a c + 1]> (term a)) (log a)
      (<[(term a c + 1, c) := Some c]> (vote a))
      (<[(term a c + 1, c) := log a c]> (candLog a)) (leader a) (LL a) (acked a))
| step_bump p T :
    term a p <= T ->
    spec_step a (mkSpec (<[p := T]> (term a)) (log a) (vote a) (candLog a) (leader a)
      (LL a) (acked a))
| step_vote p c :
    vote a (term a p, p) = None ->
    vote a (term a p, c) = Some c ->
    up_to_date (candLog a (term a p, c)) (log a p) ->
    spec_step a (mkSpec (term a) (log a) (<[(term a p, p) := Some c]> (vote a)) (candLog a)
      (leader a) (LL a) (acked a))
| step_elect c Q :
    quorum n Q ->
    (forall q, q ∈ Q -> vote a (term a c, q) = Some c) ->
    vote a (term a c, c) = Some c ->
    leader a (term a c) = None ->
    spec_step a (mkSpec (term a) (log a) (vote a) (candLog a)
      (<[term a c := Some c]> (leader a)) (<[term a c := log a c]> (LL a)) (acked a))
| step_append c e :
    leader a (term a c) = Some c ->
    Term e = term a c ->
    Command e <> None ->
    spec_step a (mkSpec (term a) (<[c := LL a (term a c) ++ [e]]> (log a)) (vote a) (candLog a)
      (leader a) (<[term a c := LL a (term a c) ++ [e]]> (LL a))
      (<[(term a c, c) := S (length (LL a (term a c)))]> (acked a)))
| step_accept p P L' :
    leader a (term a p) <> None ->
    P `prefix_of` LL a (term a p) ->
    merged (log a p) P L' ->
    spec_step a (mkSpec (term a) (<[p := L']> (log a)) (vote a) (candLog a) (leader a) (LL a)
      (<[(term a p, p) := Nat.max (acked a (term a p, p)) (length P)]> (acked a))).

(** ** The invariant *)

(** Log matching: an entry of term [t] at position [k] pins the log up to [k]
    to the log of the leader of [t]. *)
Definition wf_log a L : Prop := forall k e, L !! k = Some e ->
  0 < Term e /\ leader a (Term e) <> None /\ take (S k) L `prefix_of` LL a (Term e).

(** A majority has accepted position [k] in term [t], or still can. *)
Definition choosable a (t : Z) (k : nat) : Prop :=
  exists Q, quorum n Q /\ forall q, q ∈ Q -> (k <= acked a (t, q))%nat \/ term a q <= t.

(** A majority has accepted position [k] in term [t], and the entry there is
    of term [t]: the commit rule of the leader. *)
Definition committed a (t : Z) (k : nat) : Prop :=
  term_at (LL a t) k = t /\ (0 < k)%nat /\
  exists Q, quorum n Q /\ forall q, q ∈ Q -> (k <= acked a (t, q))%nat.

Record Inv a : Prop := {
  inv_term_nonneg p : 0 <= term a p;
  inv_vote_term T p c : vote a (T, p) = Some c -> 0 < T <= term a p;
  inv_vote_self T p c : vote a (T, p) = Some c -> vote a (T, c) = Some c;
  inv_leader_quorum T c : leader a T = Some c ->
    exists Q, quorum n Q /\ forall q, q ∈ Q -> vote a (T, q) = Some c;
  inv_leader_vote T c : leader a T = Some c -> vote a (T, c) = Some c;
  inv_wf_log p : wf_log a (log a p);
  inv_wf_cand T c : vote a (T, c) = Some c -> wf_log a (candLog a (T, c));
  inv_wf_LL T : wf_log a (LL a T);
  inv_log_le p e : e ∈ log a p -> Term e <= term a p;
  inv_cand_lt T c e : vote a (T, c) = Some c -> e ∈ candLog a (T, c) -> Term e < T;
  inv_LL_le T e : e ∈ LL a T -> Term e <= T;
  inv_LL_none T : leader a T = None -> LL a T = [];
  inv_leader_log c : leader a (term a c) = Some c -> log a c = LL a (term a c);
  inv_cand_log c : vote a (term a c, c) = Some c -> leader a (term a c) = None ->
    log a c = candLog a (term a c, c);
  inv_acked_le T p : (acked a (T, p) <= length (LL a T))%nat;
  inv_acked_term T p : (0 < acked a (T, p))%nat -> T <= term a p;
  inv_acked_log p t k : (0 < k <= acked a (t, p))%nat -> term_at (LL a t) k = t ->
    choosable a t k -> take k (LL a t) `prefix_of` log a p;
  inv_vote_log T p c t k : vote a (T, p) = Some c -> t < T -> (0 < k <= acked a (t, p))%nat ->
    term_at (LL a t) k = t -> choosable a t k -> take k (LL a t) `prefix_of` candLog a (T, c);
  inv_complete T t k : leader a T <> None -> t < T -> (0 < k)%nat -> term_at (LL a t) k = t ->
    choosable a t k -> take k (LL a t) `prefix_of` LL a T
}.

(** ** Terms of entries *)
Lemma term_at_lookup L k e : L !! k = Some e -> term_at L (S k) = Term e.
Proof. simpl. by intros ->. Qed.

Lemma term_at_Some L k : (0 < k <= length L)%nat ->
  exists e, L !! Nat.pred k = Some e /\ term_at L k = Term e.
Proof.
  intros Hk. destruct k as [|k]; [lia|]. simpl.
  destruct (lookup_lt_is_Some_2 L k) as [e He]; [lia|]. rewrite He. eauto.
Qed.

Lemma term_at_pos L k : 0 < term_at L k -> (0 < k <= length L)%nat.
Proof.
  destruct k as [|k]; simpl; [lia|]. case_match eqn:E; [|lia].
  apply lookup_lt_Some in E. lia.
Qed.

Lemma term_at_prefix L K k :
  L `prefix_of` K -> (k <= length L)%nat -> term_at K k = term_at L k.
Proof.
  intros H Hk. destruct k as [|k]; [done|]. simpl.
  destruct (lookup_lt_is_Some_2 L k) as [e He]; [lia|].
  by rewrite He, (prefix_lookup_l _ _ _ _ H He).
Qed.

Lemma term_at_take L (j k : nat) : (k <= j)%nat -> term_at (take j L) k = term_at L k.
Proof.
  intros. destruct k as [|k]; [done|]. simpl. by rewrite lookup_take_lt by lia.
Qed.

Lemma merged_prefix L P L' : merged L P L' -> P `prefix_of` L'.
Proof. by intros [[? ->]|[? ->]]. Qed.

Lemma merged_elem L P L' e : merged L P L' -> e ∈ L' -> e ∈ L \/ e ∈ P.
Proof. intros [[? ->]|[? ->]]; auto. Qed.

(** What both the old log and the accepted log agree on survives. *)
Lemma merged_keeps L P K L' X :
  merged L P L' -> P `prefix_of` K -> X `prefix_of` L -> X `prefix_of` K -> X `prefix_of` L'.
Proof.
  intros [[HP ->]|[HP ->]] HPK HX HXK; [done|].
  destruct (prefix_total _ _ _ HXK HPK) as [H|H]; [done|].
  exfalso. apply HP. by trans X.
Qed.

(** ** Growth of the history *)
Lemma wf_log_mono a a' L :
  (forall t, leader a t <> None -> leader a' t <> None /\ LL a t `prefix_of` LL a' t) ->
  wf_log a L -> wf_log a' L.
Proof.
  intros Hg H k e Hk. destruct (H k e Hk) as (? & Hl & ?).
  destruct (Hg _ Hl). split_and!; [done|done|]. by trans (LL a (Term e)).
Qed.

Lemma wf_log_prefix a L K : L `prefix_of` K -> wf_log a K -> wf_log a L.
Proof.
  intros HL H k e Hk. pose proof (lookup_lt_Some _ _ _ Hk).
  destruct (H k e) as (? & ? & HK); [by eapply prefix_lookup_l|].
  split_and!; [done|done|]. by rewrite (prefix_take L K) by (done || lia).
Qed.

Lemma choosable_mono a a' t k :
  (forall q, term a q <= term a' q) ->
  (forall q, (acked a' (t, q) <= acked a (t, q))%nat \/ term a q <= t) ->
  choosable a' t k -> choosable a t k.
Proof.
  intros Ht Ha (Q & HQ & H). exists Q. split; [done|]. intros q Hq.
  destruct (H q Hq) as [?|?]; destruct (Ha q); specialize (Ht q); auto; [left|right]; lia.
Qed.

Lemma committed_choosable a t k : committed a t k -> choosable a t k.
Proof. intros (_ & _ & Q & HQ & H). exists Q. split; [done|]. auto. Qed.

(** ** Consequences of the invariant *)
Section Consequences.
Context a (I : Inv a).

Lemma leader_pos t : leader a t <> None -> 0 < t.
Proof.
  intros H. destruct (leader a t) as [c|] eqn:E; [|done].
  apply (inv_leader_vote _ I) in E. apply (inv_vote_term _ I) in E. lia.
Qed.

(** At most one leader per term. *)
Lemma leader_unique_votes T c Q d :
  quorum n Q -> (forall q, q ∈ Q -> vote a (T, q) = Some d) -> leader a T = Some c -> c = d.
Proof.
  intros HQ Hv Hl. destruct (inv_leader_quorum _ I _ _ Hl) as (Q' & HQ' & Hv').
  destruct (quorum_meet _ _ _ HQ HQ') as (q & Hq & Hq').
  specialize (Hv _ Hq). specialize (Hv' _ Hq'). congruence.
Qed.

Lemma wf_log_term_le L k e j e' :
  wf_log a L -> L !! k = Some e -> L !! j = Some e' -> (j <= k)%nat -> Term e' <= Term e.
Proof.
  intros HL Hk Hj Hle. destruct (HL k e Hk) as (_ & _ & HP).
  apply (inv_LL_le _ I (Term e)). eapply prefix_elem; [exact HP|].
  apply list_elem_of_lookup. exists j. by rewrite lookup_take_lt by lia.
Qed.

(** Terms do not decrease along a log. *)
Lemma term_at_mono L j k :
  wf_log a L -> (j <= k <= length L)%nat -> term_at L j <= term_at L k.
Proof.
  intros HL Hjk. destruct (decide (j = 0%nat)) as [->|]; simpl.
  - destruct (decide (k = 0%nat)) as [->|]; simpl; [lia|].
    destruct (term_at_Some L k) as (e & He & ->); [lia|]. destruct (HL _ _ He). lia.
  - destruct (term_at_Some L k) as (e & He & ->); [lia|].
    destruct (term_at_Some L j) as (e' & He' & ->); [lia|].
    eapply wf_log_term_le; [done|exact He|exact He'|lia].
Qed.

(** Log matching: logs with an entry of the same term at the same position
    agree up to it. *)
Lemma log_matching L K k :
  wf_log a L -> wf_log a K -> (k <= length L)%nat -> (k <= length K)%nat ->
  term_at L k = term_at K k -> take k L = take k K.
Proof.
  intros HL HK H1 H2 Ht. destruct (decide (k = 0%nat)) as [->|]; [done|].
  destruct (term_at_Some L k) as (e & He & Ee); [lia|].
  destruct (term_at_Some K k) as (f & Hf & Ef); [lia|].
  destruct (HL _ _ He) as (_ & _ & PL). destruct (HK _ _ Hf) as (_ & _ & PK).
  replace (S (Nat.pred k)) with k in * by lia.
  apply prefix_eq_take in PL, PK. rewrite length_take, Nat.min_l in PL, PK by lia.
  rewrite PL, PK. congruence.
Qed.

(** A non-empty log is a prefix of the log of the leader of its last term. *)
Lemma wf_log_last L : wf_log a L -> (0 < length L)%nat ->
  0 < last_term L /\ leader a (last_term L) <> None /\ L `prefix_of` LL a (last_term L).
Proof.
  intros HL Hlen. unfold last_term.
  destruct (term_at_Some L (length L)) as (e & He & ->); [lia|].
  destruct (HL _ _ He) as (? & ? & HP). split_and!; [done|done|].
  rewrite take_ge in HP by lia. done.
Qed.

(** The election restriction: a candidate whose log is up to date with a
    voter's holds every position that voter accepted and that can still be
    chosen. *)
Lemma up_to_date_holds T c lp t k :
  vote a (T, c) = Some c -> wf_log a lp -> up_to_date (candLog a (T, c)) lp ->
  t < T -> (0 < k)%nat -> term_at (LL a t) k = t -> choosable a t k ->
  take k (LL a t) `prefix_of` lp -> take k (LL a t) `prefix_of` candLog a (T, c).
Proof.
  intros Hv Hlp Hup Ht Hk Htk Hch Hpre.
  destruct (decide (t = 0)) as [->|Hnz].
  { rewrite (inv_LL_none _ I). { rewrite take_nil. apply prefix_nil. }
    destruct (leader a 0) eqn:E; [|done]. assert (0 < 0) by (apply leader_pos; congruence). lia. }
  assert (Hkl : (k <= length (LL a t))%nat).
  { destruct (decide (k <= length (LL a t))%nat); [done|].
    destruct k as [|k']; [lia|]. simpl in Htk. rewrite lookup_ge_None_2 in Htk by lia. lia. }
  assert (Hlk : (k <= length lp)%nat).
  { apply prefix_length in Hpre. rewrite length_take in Hpre. lia. }
  assert (Hlast : t <= last_term lp).
  { unfold last_term. etrans; [|apply (term_at_mono lp k (length lp)); [done|lia]].
    rewrite (term_at_prefix (take k (LL a t)) lp) by (done || (rewrite length_take; lia)).
    rewrite term_at_take by lia. lia. }
  pose proof (inv_wf_cand _ I _ _ Hv) as Hwc. set (lc := candLog a (T, c)) in *.
  assert (0 < t).
  { destruct (term_at_Some (LL a t) k) as (e & He & Ee); [lia|].
    destruct (inv_wf_LL _ I t _ _ He). lia. }
  assert (Hc0 : (0 < length lc)%nat).
  { destruct (decide (0 < length lc)%nat); [done|].
    assert (lc = []) as E by (apply nil_length_inv; lia). rewrite E in Hup.
    destruct Hup as [Hup|[Hup Hl]]; unfold last_term at 2 in Hup; simpl in *; lia. }
  destruct (wf_log_last lc Hwc Hc0) as (_ & Hlead & Hpc).
  destruct Hup as [Hlt|[Heq Hlen]].
  - assert (take k (LL a t) `prefix_of` LL a (last_term lc)) as HX.
    { apply (inv_complete _ I); [done|lia|done|done|done]. }
    destruct (prefix_total _ _ _ HX Hpc) as [?|Hcon]; [done|exfalso].
    destruct (term_at_Some lc (length lc)) as (e & He & Ee); [lia|].
    assert (Term e <= t); [|unfold last_term in *; lia].
    apply (inv_LL_le _ I). eapply prefix_elem; [apply take_prefix|].
    eapply prefix_elem; [exact Hcon|]. by eapply list_elem_of_lookup_2.
  - destruct (wf_log_last lp Hlp) as (_ & _ & Hpp); [lia|].
    rewrite <- Heq in Hpp. trans lp; [done|]. by eapply prefix_le.
Qed.
End Consequences.

(** ** The invariant holds initially and is preserved *)
Lemma spec_init_Inv : Inv (@spec_init Cmd).
Proof.
  split; simpl; intros; try done; try (by intros k e Hk); try lia.
  all: by match goal with H : _ ∈ [] |- _ => apply elem_of_nil in H end.
Qed.

Lemma timeout_Inv a c : Inv a ->
  Inv (mkSpec (<[c := term a c + 1]> (term a)) (log a)
      (<[(term a c + 1, c) := Some c]> (vote a))
      (<[(term a c + 1, c) := log a c]> (candLog a)) (leader a) (LL a) (acked a)).
Proof.
  intros I. set (T := term a c + 1).
  assert (Hfresh : forall d, vote a (T, c) <> Some d).
  { intros d H. apply (inv_vote_term _ I) in H. lia. }
  assert (Hch : forall t k, choosable (mkSpec (<[c := T]> (term a)) (log a)
      (<[(T, c) := Some c]> (vote a)) (<[(T, c) := log a c]> (candLog a)) (leader a) (LL a)
      (acked a)) t k -> choosable a t k).
  { intros t k. apply choosable_mono; simpl; [intros q; fn_cases; lia|auto]. }
  destruct I. split; simpl; intros; try (by eauto).
  - pose proof (inv_term_nonneg0 c). fn_cases; [lia|done].
  - specialize (inv_term_nonneg0 c). fn_cases; try lia; apply inv_vote_term0 in H; lia.
  - fn_cases; naive_solver.
  - destruct (inv_leader_quorum0 _ _ H) as (Q & HQ & Hv). exists Q. split; [done|].
    intros q Hq. specialize (Hv q Hq). fn_cases; [|done]. by destruct (Hfresh c0).
  - specialize (inv_leader_vote0 _ _ H). fn_cases; naive_solver.
  - fn_cases; eauto.
  - fn_cases; [|by eauto]. specialize (inv_log_le0 _ _ H). lia.
  - fn_cases; [|by eauto]. specialize (inv_log_le0 _ _ H0). lia.
  - fn_cases; [|by eauto].
    destruct (inv_leader_quorum0 _ _ H) as (Q & HQ & Hv).
    destruct (Hfresh c0). by apply inv_leader_vote0.
  - fn_cases; naive_solver.
  - specialize (inv_acked_term0 _ _ H). fn_cases; lia.
  - fn_cases; eauto. exfalso. eapply Hfresh. by eapply inv_vote_self0.
Qed.

Lemma bump_Inv a p T : Inv a -> term a p <= T ->
  Inv (mkSpec (<[p := T]> (term a)) (log a) (vote a) (candLog a) (leader a) (LL a) (acked a)).
Proof.
  intros I HT.
  assert (Hch : forall t k, choosable (mkSpec (<[p := T]> (term a)) (log a) (vote a) (candLog a)
      (leader a) (LL a) (acked a)) t k -> choosable a t k).
  { intros t k. apply choosable_mono; simpl; [intros q; fn_cases; lia|auto]. }
  destruct I. split; simpl; intros; try (by eauto).
  - pose proof (inv_term_nonneg0 p). fn_cases; [lia|done].
  - specialize (inv_vote_term0 _ _ _ H). fn_cases; lia.
  - specialize (inv_log_le0 _ _ H). fn_cases; lia.
  - fn_cases; [|by eauto]. pose proof (inv_leader_vote0 _ _ H) as Hv.
    apply inv_vote_term0 in Hv. assert (T = term a c) as -> by lia. by eauto.
  - fn_cases; [|by eauto]. pose proof (inv_vote_term0 _ _ _ H) as Hv.
    assert (T = term a c) as -> by lia. by eauto.
  - specialize (inv_acked_term0 _ _ H). fn_cases; lia.
Qed.

Lemma vote_Inv a p c : Inv a ->
  vote a (term a p, p) = None -> vote a (term a p, c) = Some c ->
  up_to_date (candLog a (term a p, c)) (log a p) ->
  Inv (mkSpec (term a) (log a) (<[(term a p, p) := Some c]> (vote a)) (candLog a)
      (leader a) (LL a) (acked a)).
Proof.
  intros I Hno Hc Hup.
  assert (Hch : forall t k, choosable (mkSpec (term a) (log a)
      (<[(term a p, p) := Some c]> (vote a)) (candLog a) (leader a) (LL a) (acked a)) t k ->
      choosable a t k).
  { intros t k. by apply choosable_mono; simpl; auto. }
  pose proof (up_to_date_holds _ I) as Hup2.
  destruct I. split; simpl; intros; try (by eauto).
  - fn_cases; [|by eauto]. apply inv_vote_term0 in Hc. lia.
  - fn_cases; naive_solver.
  - destruct (inv_leader_quorum0 _ _ H) as (Q & HQ & Hv). exists Q. split; [done|].
    intros q Hq. specialize (Hv q Hq). fn_cases; naive_solver.
  - specialize (inv_leader_vote0 _ _ H). fn_cases; naive_solver.
  - fn_cases; naive_solver.
  - fn_cases; naive_solver.
  - fn_cases; naive_solver.
  - fn_cases; [|by eauto]. apply (Hup2 _ _ (log a p0)); eauto. lia.
Qed.

Lemma elect_Inv a c Q : Inv a -> quorum n Q ->
  (forall q, q ∈ Q -> vote a (term a c, q) = Some c) ->
  vote a (term a c, c) = Some c -> leader a (term a c) = None ->
  Inv (mkSpec (term a) (log a) (vote a) (candLog a)
      (<[term a c := Some c]> (leader a)) (<[term a c := log a c]> (LL a)) (acked a)).
Proof.
  intros I HQ HvQ Hv Hno. set (T := term a c) in *. set (a' := mkSpec _ _ _ _ _ _ _).
  pose proof (inv_cand_log _ I _ Hv Hno) as Hlog.
  pose proof (inv_LL_none _ I _ Hno) as Hnil.
  assert (Hlt : forall e, e ∈ log a c -> Term e < T).
  { intros e He. rewrite Hlog in He. by eapply (inv_cand_lt _ I). }
  assert (Hch : forall t k, choosable a' t k -> choosable a t k).
  { intros t k. by apply choosable_mono; simpl; auto. }
  assert (Hwf : forall L, wf_log a L -> wf_log a' L).
  { intros L. apply wf_log_mono. subst a'; simpl. intros t Ht.
    assert (T <> t) by congruence. by rewrite !fn_lookup_insert_ne. }
  assert (Hack : forall p, acked a (T, p) = 0%nat).
  { intros p. pose proof (inv_acked_le _ I T p). rewrite Hnil in *. simpl in *. lia. }
  assert (Hnew : forall k, (0 < k)%nat -> term_at (log a c) k <> T).
  { intros k Hk E. pose proof (inv_vote_term _ I _ _ _ Hv).
    destruct (term_at_Some (log a c) k) as (e & He & Ee); [apply term_at_pos; lia|].
    specialize (Hlt e (list_elem_of_lookup_2 _ _ _ He)). lia. }
  destruct I. split; subst a'; simpl; intros; try (by eauto).
  - fn_cases; [|by eauto]. eauto.
  - fn_cases; [done|]. eauto.
  - fn_cases; [|by eauto]. by apply Hwf.
  - fn_cases; [|by eauto]. specialize (Hlt _ H). lia.
  - fn_cases; by eauto.
  - fn_cases; [|by eauto]. congruence.
  - fn_cases; naive_solver.
  - fn_cases; [rewrite Hack; lia|done].
  - fn_cases; [rewrite Hack in *; lia|]. eauto.
  - fn_cases; [rewrite Hack in *; lia|]. eauto.
  - repeat rewrite fn_insert_case in *. case_decide; simplify_eq.
    { exfalso. by eapply Hnew. }
    case_decide; simplify_eq; [|by eauto].
    destruct (Hch _ _ H3) as (Q' & HQ' & Hq'). destruct (quorum_meet _ _ _ HQ HQ') as (q & Hq & Hqq).
    rewrite Hlog. apply (inv_vote_log0 _ q); eauto.
    destruct (Hq' q Hqq); [lia|]. specialize (inv_vote_term0 _ _ _ (HvQ q Hq)). lia.
Qed.

(** What can still be chosen in a term that a later leader has passed was
    accepted, so the log of the term reaches that far. *)
Lemma choosable_bounded a T t k : Inv a -> leader a T <> None -> t < T -> choosable a t k ->
  (k <= length (LL a t))%nat.
Proof.
  intros I Hl Ht (Q' & HQ' & Hq'). destruct (leader a T) as [d|] eqn:Hd; [|done].
  destruct (inv_leader_quorum _ I _ _ Hd) as (Q & HQ & HvQ).
  destruct (quorum_meet _ _ _ HQ HQ') as (q & Hq & Hqq).
  pose proof (inv_vote_term _ I _ _ _ (HvQ q Hq)). pose proof (inv_acked_le _ I t q).
  destruct (Hq' q Hqq); lia.
Qed.

(** The leader's log with a new entry of its term matches itself. *)
Lemma wf_log_snoc a a' T e :
  Inv a -> 0 < T -> Term e = T -> leader a' T <> None -> LL a' T = LL a T ++ [e] ->
  (forall L, wf_log a L -> wf_log a' L) -> wf_log a' (LL a T ++ [e]).
Proof.
  intros I Hpos He Hl HLL Hwf k x Hk. apply lookup_app_Some in Hk as [Hk|[Hlen Hk]].
  - destruct (Hwf _ (inv_wf_LL _ I T) k x Hk) as (? & ? & ?). split_and!; [done|done|].
    apply lookup_lt_Some in Hk. by rewrite take_app_le by lia.
  - apply list_lookup_singleton_Some in Hk as [Hk <-]. rewrite He, HLL. split_and!; [done|done|].
    apply take_prefix.
Qed.

Lemma append_Inv a c e : Inv a -> leader a (term a c) = Some c -> Term e = term a c ->
  Inv (mkSpec (term a) (<[c := LL a (term a c) ++ [e]]> (log a)) (vote a) (candLog a)
      (leader a) (<[term a c := LL a (term a c) ++ [e]]> (LL a))
      (<[(term a c, c) := S (length (LL a (term a c)))]> (acked a))).
Proof.
  intros I Hl He. set (T := term a c) in *. set (a' := mkSpec _ _ _ _ _ _ _).
  assert (Hgrow : forall t, LL a t `prefix_of` LL a' t).
  { intros t. subst a'; simpl. fn_cases; [by apply prefix_app_r|done]. }
  assert (Hwf : forall L, wf_log a L -> wf_log a' L).
  { intros L. apply wf_log_mono. auto. }
  assert (Hpos : 0 < T) by (apply (leader_pos _ I); congruence).
  assert (Hnew : wf_log a' (LL a T ++ [e])).
  { apply wf_log_snoc; subst a'; simpl; try done; [congruence|by rewrite fn_lookup_insert]. }
  assert (Hch : forall t k, choosable a' t k -> choosable a t k).
  { intros t k. apply choosable_mono; subst a'; simpl; [done|]. intros q. fn_cases; [right; lia|auto]. }
  assert (Hold : forall t k, (k <= length (LL a t))%nat ->
    take k (LL a' t) = take k (LL a t) /\ term_at (LL a' t) k = term_at (LL a t) k).
  { intros t k Hk. split; [symmetry; by apply prefix_take|by apply term_at_prefix]. }
  assert (Hack : forall t q, q <> c \/ t <> T -> acked a' (t, q) = acked a (t, q)).
  { intros t q Hq. subst a'; simpl. fn_cases; [|done]. naive_solver. }
  pose proof (inv_leader_log _ I _ Hl) as Hlog.
  pose proof (fun t q => inv_acked_le _ I t q) as Hle.
  pose proof I as I0. destruct I0. split; subst a'; simpl; intros; try (by eauto).
  - fn_cases; [done|]. by apply Hwf.
  - fn_cases; [done|]. by apply Hwf.
  - fn_cases; [|by eauto]. apply elem_of_app in H as [H|H%list_elem_of_singleton]; [|naive_solver lia].
    by apply inv_LL_le0.
  - fn_cases; [|by eauto]. apply elem_of_app in H as [H|H%list_elem_of_singleton]; [|naive_solver lia].
    by apply inv_LL_le0.
  - fn_cases; try congruence; by eauto.
  - fn_cases; try congruence; by eauto.
  - fn_cases; try congruence; by eauto.
  - specialize (Hle T0 p). specialize (Hgrow T0). apply prefix_length in Hgrow. simpl in Hgrow.
    fn_cases; rewrite ?length_app in *; simpl in *; lia.
  - fn_cases; [lia|]. by eauto.
  - destruct (decide (p = c)) as [->|Hpc]; [destruct (decide (t = T)) as [->|HtT]|].
    { rewrite !fn_lookup_insert. apply take_prefix. }
    all: assert (k <= acked a (t, _))%nat as Hk by
      (specialize (Hack t); simpl in Hack; rewrite Hack in H by auto; apply H).
    all: pose proof (Hle t) as Hle'; destruct (Hold t k) as [E1 E2];
      [etrans; [exact Hk|apply Hle']|]; simpl in E1, E2; rewrite E1; rewrite E2 in H0.
    all: assert (take k (LL a t) `prefix_of` log a _) as Hp by
      (eapply inv_acked_log0; [split; [apply H|exact Hk]|done|by apply Hch]).
    + rewrite fn_lookup_insert. trans (log a c); [done|]. rewrite Hlog. by apply prefix_app_r.
    + by rewrite fn_lookup_insert_ne.
  - assert (p <> c \/ t <> T) as Hpc. { destruct (decide (p = c)) as [->|]; [right|by left]. apply inv_vote_term0 in H. lia. }
    specialize (Hack t p Hpc). simpl in Hack. rewrite Hack in H1.
    destruct (Hold t k) as [E1 E2]; [specialize (Hle t p); lia|]. simpl in E1, E2.
    rewrite E1. rewrite E2 in H2. by eauto.
  - trans (LL a T0); [|apply Hgrow].
    destruct (Hold t k) as [E1 E2]; [by eapply choosable_bounded; [..|by apply Hch]|].
    simpl in E1, E2. rewrite E1. rewrite E2 in H2. by eauto.
Qed.

Lemma accept_Inv a p P L' : Inv a -> leader a (term a p) <> None ->
  P `prefix_of` LL a (term a p) -> merged (log a p) P L' ->
  Inv (mkSpec (term a) (<[p := L']> (log a)) (vote a) (candLog a) (leader a) (LL a)
      (<[(term a p, p) := Nat.max (acked a (term a p, p)) (length P)]> (acked a))).
Proof.
  intros I Hl HP Hm. set (T := term a p) in *. set (a' := mkSpec _ _ _ _ _ _ _).
  assert (Hch : forall t k, choosable a' t k -> choosable a t k).
  { intros t k. apply choosable_mono; subst a'; simpl; [done|]. intros q. fn_cases; [right; lia|auto]. }
  assert (Hlead : leader a T = Some p -> L' = LL a T).
  { intros E. rewrite (inv_leader_log _ I _ E) in Hm. fold T in Hm. destruct Hm as [[_ ->]|[Hn _]]; done. }
  assert (Hwf : wf_log a L').
  { destruct Hm as [[_ ->]|[_ ->]]; [apply I|]. eapply wf_log_prefix; [exact HP|apply I]. }
  pose proof I as I0. destruct I0. split; subst a'; simpl; intros; try (by eauto).
  - fn_cases; by eauto.
  - fn_cases; [|by eauto]. destruct (merged_elem _ _ _ _ Hm H) as [?|?]; [by eauto|].
    apply inv_LL_le0. by eapply prefix_elem.
  - fn_cases; by eauto.
  - fn_cases; by eauto.
  - apply prefix_length in HP. pose proof (inv_acked_le0 T p). fn_cases; [lia|by eauto].
  - fn_cases; [lia|by eauto].
  - apply Hch in H1.
    destruct (decide (p = p0)) as [<-|]; [|by fn_cases; eauto].
    rewrite fn_lookup_insert. destruct (decide (t = T)) as [->|HtT].
    + rewrite fn_lookup_insert in H.
      destruct (decide (k <= length P)%nat).
      * trans P; [|by eapply merged_prefix]. rewrite <- (prefix_take P (LL a T)) by done.
        apply take_prefix.
      * eapply merged_keeps; [done|done| |apply take_prefix]. apply inv_acked_log0; [lia|done|done].
    + rewrite fn_lookup_insert_ne in H by congruence.
      assert (t <= T) by (apply inv_acked_term0; lia).
      eapply merged_keeps; [done|done|by eauto|]. apply inv_complete0; [done|lia|lia|done|done].
  - rewrite fn_lookup_insert_ne in H1; [by eauto|]. intros [=<- <-].
    apply inv_vote_term0 in H. lia.
Qed.

Lemma spec_step_Inv a a' : Inv a -> spec_step a a' -> Inv a'.
Proof.
  intros I []; [by apply timeout_Inv|by apply bump_Inv|by apply vote_Inv|by eapply elect_Inv
    |by apply append_Inv|by apply accept_Inv].
Qed.

Lemma spec_steps_Inv a a' : rtc spec_step a a' -> Inv a -> Inv a'.
Proof. induction 1; eauto using spec_step_Inv. Qed.

(** ** Conclusions *)

(** A committed prefix is contained in the log of every later leader. *)
Lemma leader_completeness a T t k :
  Inv a -> committed a t k -> leader a T <> None -> t < T ->
  take k (LL a t) `prefix_of` LL a T.
Proof.
  intros I Hc Hl Ht. apply (inv_complete _ I); try done; [apply Hc|apply Hc|].
  by apply committed_choosable.
Qed.

(** Two committed prefixes are comparable. *)
Lemma committed_agree a t1 k1 t2 k2 :
  Inv a -> committed a t1 k1 -> committed a t2 k2 ->
  take k1 (LL a t1) `prefix_of` take k2 (LL a t2) \/
  take k2 (LL a t2) `prefix_of` take k1 (LL a t1).
Proof.
  assert (Hlt : forall t1 k1 t2 k2, Inv a -> committed a t1 k1 -> committed a t2 k2 -> t1 <= t2 ->
    take k1 (LL a t1) `prefix_of` take k2 (LL a t2) \/
    take k2 (LL a t2) `prefix_of` take k1 (LL a t1)).
  { clear. intros t1 k1 t2 k2 I H1 H2 Hle.
    apply (prefix_total _ _ (LL a t2)); [|apply take_prefix].
    destruct (decide (t1 = t2)) as [->|]; [apply take_prefix|].
    destruct (leader a t2) eqn:E; [eapply leader_completeness; [done|done|congruence|lia]|].
    destruct H2 as (H2 & ? & _). rewrite (inv_LL_none _ I _ E) in H2. destruct H1 as (H1 & ? & _).
    destruct k2 as [|k2]; [lia|]. simpl in H2. destruct k1 as [|k1]; [lia|]. simpl in H1.
    case_match eqn:E1; [destruct (inv_wf_LL _ I _ _ _ E1); lia|]. lia. }
  intros I H1 H2. destruct (decide (t1 <= t2)); [by apply Hlt|].
  destruct (Hlt t2 k2 t1 k1); auto. lia.
Qed.

End Protocol.
