(* ===== verification/RaftSystem.v ===== *)
(** * The cluster: peers, in-flight RPCs and their interleavings

    A state of the cluster is the state of every peer and the list of RPCs in
    flight.  An event is one critical section of the program, one delivery or
    loss of labrpc, or a crash followed by a restart from the persister;
    [exec] runs it.  labrpc gives every [Call] at most one execution and at
    most one reply, in any order and after any delay, and may lose either: a
    request in flight turns into its reply when it is delivered and disappears
    when the reply is processed or lost.  The timers only decide when
    [broadCastVote] and [checkConsistency] run, so both may run at any time. *)

From stdpp Require Import base functions list list_numbers gmap.
From S2P Require Import Prelude Gob RaftNode.
Open Scope Z_scope.

(** An RPC in flight: the request, or the reply on its way back. *)
Inductive rpc (Cmd : Type) : Type :=
| CallVote (args : RequestVoteArgs)
| RetVote (args : RequestVoteArgs) (reply : RequestVoteReply)
| CallAppend (args : AppendEntriesArgs Cmd)
| RetAppend (args : AppendEntriesArgs Cmd) (reply : AppendEntriesReply)
| CallSnap (args : InstallSnapshotArgs)
| RetSnap (args : InstallSnapshotArgs) (reply : InstallSnapshotReply).
Arguments CallVote {Cmd} _.
Arguments RetVote {Cmd} _ _.
Arguments CallAppend {Cmd} _.
Arguments RetAppend {Cmd} _ _.
Arguments CallSnap {Cmd} _.
Arguments RetSnap {Cmd} _ _.

Record call (Cmd : Type) : Type := mkCall { c_from : Z; c_to : Z; c_rpc : rpc Cmd }.
Arguments mkCall {Cmd} _ _ _.
Arguments c_from {Cmd} _.
Arguments c_to {Cmd} _.
Arguments c_rpc {Cmd} _.

(** A peer with its channels: what was sent on [applyCh] since the start of
    this incarnation, the [InstallSnapShot] handlers that have left the critical
    section but not reached their channel send, each with its snapshot and the
    reply it returns after the send, and whether the apply daemon has received a
    token of [commitCh] and waits for the mutex. *)
Record node (Cmd : Type) : Type := mkNode {
  nd_raft : Raft Cmd;
  nd_applyCh : list (ApplyMsg Cmd);
  nd_notify : list (bytes * call Cmd);
  nd_woken : bool
}.
Arguments mkNode {Cmd} _ _ _ _.
Arguments nd_raft {Cmd} _.
Arguments nd_applyCh {Cmd} _.
Arguments nd_notify {Cmd} _.
Arguments nd_woken {Cmd} _.

(** [sys_logs] is the record of every command any peer ever applied, as the
    tester keeps it in cfg.logs (raft/config.go). *)
Record sys (Cmd : Type) : Type := mkSys {
  sys_nodes : Z -> node Cmd;
  sys_calls : list (call Cmd);
  sys_logs : list (Z * Z * option Cmd)
}.
Arguments mkSys {Cmd} _ _ _.
Arguments sys_nodes {Cmd} _ _.
Arguments sys_calls {Cmd} _.
Arguments sys_logs {Cmd} _.

Inductive event (Cmd : Type) : Type :=
| EvTimeout (i : Z)
| EvDeliver (k : nat)
| EvReply (k : nat)
| EvDrop (k : nat)
| EvSync (i j : Z)
| EvStart (i : Z) (c : Cmd)
| EvWake (i : Z)
| EvApply (i : Z)
| EvNotify (i : Z) (k : nat)
| EvCompact (i idx : Z) (snap : bytes)
| EvCrash (i : Z).
Arguments EvTimeout {Cmd} _.
Arguments EvDeliver {Cmd} _.
Arguments EvReply {Cmd} _.
Arguments EvDrop {Cmd} _.
Arguments EvSync {Cmd} _ _.
Arguments EvStart {Cmd} _ _.
Arguments EvWake {Cmd} _.
Arguments EvApply {Cmd} _.
Arguments EvNotify {Cmd} _ _.
Arguments EvCompact {Cmd} _ _ _.
Arguments EvCrash {Cmd} _.

Section System.
Context {Cmd : Type} `{GC : Gob Cmd} (n : Z).
Implicit Types s : sys Cmd.

Definition raft_of s (i : Z) : Raft Cmd := nd_raft (sys_nodes s i).

Definition is_peer (i : Z) : bool := (0 <=? i) && (i <? n).

(** A peer (re)started from a copy of a persister: [Make]. *)
Definition boot (i : Z) (ps : Persister) : node Cmd :=
  let '(rf, msgs) := Make n i (Copy ps) in mkNode rf msgs [] false.

Definition sys_init : sys Cmd := mkSys (fun i => boot i MakePersister) [] [].

(** The RPCs among the effects of a critical section, and the notifications, with
    the reply [c] that is returned after them. *)
Definition effect_call (i : Z) (e : effect Cmd) : option (call Cmd) :=
  match e with
  | GoSendRequestVote args p => Some (mkCall i p (CallVote args))
  | GoSendAppendEntries args p => Some (mkCall i p (CallAppend args))
  | GoSendSnapShot args p => Some (mkCall i p (CallSnap args))
  | _ => None
  end.

Definition effect_notify (c : call Cmd) (e : effect Cmd) : option (bytes * call Cmd) :=
  match e with NotifyApp snap => Some (snap, c) | _ => None end.

(** The state after a section of peer [i] that returned [rf] with the handlers
    [hs] left to send. *)
Definition put_node s (i : Z) (rf : Raft Cmd) (effs : list (effect Cmd)) (hs : list (bytes * call Cmd)) : sys Cmd :=
  let nd := sys_nodes s i in
  mkSys (<[i := mkNode rf (nd_applyCh nd) hs (nd_woken nd)]> (sys_nodes s))
    (sys_calls s ++ omap (effect_call i) effs) (sys_logs s).

(** A section without a notification: every one but that of [InstallSnapShot]. *)
Definition put_raft s (i : Z) (rf : Raft Cmd) (effs : list (effect Cmd)) : sys Cmd :=
  put_node s i rf effs (nd_notify (sys_nodes s i)).

Definition with_calls s (cs : list (call Cmd)) : sys Cmd :=
  mkSys (sys_nodes s) cs (sys_logs s).

(** [InstallSnapShot] at the receiver of call [k].  When it installs the snapshot it
    returns only after [notifyAppUseNewSnapShot], so that its reply [c] is not in
    flight yet; otherwise it returns at once. *)
Definition put_install s (k : nat) (rf : Raft Cmd) (effs : list (effect Cmd)) (c : call Cmd) : sys Cmd :=
  let nd := sys_nodes s (c_to c) in
  match omap (effect_notify c) effs with
  | [] => put_raft (with_calls s (<[k := c]> (sys_calls s))) (c_to c) rf effs
  | hs => put_node (with_calls s (delete k (sys_calls s))) (c_to c) rf effs (nd_notify nd ++ hs)
  end.

Lemma put_install_spec s k rf effs c :
  put_install s k rf effs c = put_raft (with_calls s (<[k := c]> (sys_calls s))) (c_to c) rf effs /\
    omap (effect_notify c) effs = [] \/
  put_install s k rf effs c = put_node (with_calls s (delete k (sys_calls s))) (c_to c) rf effs
    (nd_notify (sys_nodes s (c_to c)) ++ omap (effect_notify c) effs).
Proof. unfold put_install. destruct (omap (effect_notify c) effs); [by left|by right]. Qed.

(** A crash loses everything but the persister; a run-time panic is one. *)
Definition crash s (i : Z) : sys Cmd :=
  mkSys (<[i := boot i (persister (raft_of s i))]> (sys_nodes s)) (sys_calls s) (sys_logs s).

(** Run a critical section of peer [i]: one that blocks is not taken. *)
Definition handle s (i : Z) (o : outcome (Raft Cmd * list (effect Cmd))) : option (sys Cmd) :=
  match o with
  | Ret (rf, effs) => Some (put_raft s i rf effs)
  | Panic => Some (crash s i)
  | Block => None
  end.

(** Deliver request [k]: the handler runs at the receiver and its reply takes
    the place of the request, when it has returned. *)
Definition deliver s (k : nat) (c : call Cmd) : option (sys Cmd) :=
  let rf := raft_of s (c_to c) in
  let lost := with_calls s (delete k (sys_calls s)) in
  let back r := with_calls s (<[k := mkCall (c_from c) (c_to c) r]> (sys_calls s)) in
  match c_rpc c with
  | CallVote args =>
      match RequestVote rf args with
      | Ret (rf', reply, effs) => Some (put_raft (back (RetVote args reply)) (c_to c) rf' effs)
      | Panic => Some (crash lost (c_to c))
      | Block => None
      end
  | CallAppend args =>
      match AppendEntries rf args with
      | Ret (rf', reply, effs) => Some (put_raft (back (RetAppend args reply)) (c_to c) rf' effs)
      | Panic => Some (crash lost (c_to c))
      | Block => None
      end
  | CallSnap args =>
      match InstallSnapShot rf args with
      | Ret (rf', reply, effs) => Some (put_install s k rf' effs (mkCall (c_from c) (c_to c) (RetSnap args reply)))
      | Panic => Some (crash lost (c_to c))
      | Block => None
      end
  | _ => None
  end.

(** Reply [k] reaches its caller, which processes it. *)
Definition reply s (k : nat) (c : call Cmd) : option (sys Cmd) :=
  let rf := raft_of s (c_from c) in
  let s' := with_calls s (delete k (sys_calls s)) in
  match c_rpc c with
  | RetVote args r =>
      handle s' (c_from c) (sendRequestVoteAndProcess rf args (c_to c) (Some r))
  | RetAppend args r =>
      handle s' (c_from c) (sendAppendEntriesAndProcess rf args (c_to c) (Some r))
  | RetSnap args r =>
      handle s' (c_from c) (sendSnapShotAndProcess rf args (c_to c) (Some r))
  | _ => None
  end.

(** The service may compact up to a command it received on [applyCh]. *)
Definition applied_index (idx : Z) (m : ApplyMsg Cmd) : bool :=
  match m with CommandMsg i _ => i =? idx | SnapshotMsg _ => false end.

Definition log_record (i : Z) (m : ApplyMsg Cmd) : option (Z * Z * option Cmd) :=
  match m with CommandMsg idx c => Some (i, idx, c) | SnapshotMsg _ => None end.

(** One event.  [EvApply] is one round of the apply daemon, which holds the mutex
    over its sends.  The only other sends on [applyCh] are those of handlers that
    have left their section; one that happens between two sends of the round is
    put before or after the round. *)
Definition exec s (e : event Cmd) : option (sys Cmd) :=
  match e with
  | EvTimeout i =>
      if is_peer i then handle s i (broadCastVote (raft_of s i)) else None
  | EvDeliver k => c ← sys_calls s !! k; deliver s k c
  | EvReply k => c ← sys_calls s !! k; reply s k c
  | EvDrop k => c ← sys_calls s !! k; Some (with_calls s (delete k (sys_calls s)))
  | EvSync i j =>
      if is_peer i && is_peer j && negb (i =? j) then
        handle s i (effs ← checkConsistency (raft_of s i) j; Ret (raft_of s i, effs))
      else None
  | EvStart i c =>
      if is_peer i then
        handle s i ('(rf, _, effs) ← Start (raft_of s i) c; Ret (rf, effs))
      else None
  | EvWake i =>
      let nd := sys_nodes s i in
      let rf := nd_raft nd in
      if is_peer i && negb (nd_woken nd) then
        match commitCh rf with
        | O => None
        | S k => Some (mkSys (<[i := mkNode (set_commitCh k rf) (nd_applyCh nd) (nd_notify nd)
                                 true]> (sys_nodes s)) (sys_calls s) (sys_logs s))
        end
      else None
  | EvApply i =>
      let nd := sys_nodes s i in
      if is_peer i && nd_woken nd then
        match applyLogEntryDaemon (nd_raft nd) with
        | Ret (rf, msgs) =>
            Some (mkSys (<[i := mkNode rf (nd_applyCh nd ++ msgs) (nd_notify nd) false]>
                    (sys_nodes s)) (sys_calls s) (sys_logs s ++ omap (log_record i) msgs))
        | Panic => Some (crash s i)
        | Block => None
        end
      else None
  | EvNotify i k =>
      let nd := sys_nodes s i in
      if is_peer i then
        '(snap, c) ← nd_notify nd !! k;
        Some (mkSys (<[i := mkNode (nd_raft nd) (nd_applyCh nd ++ notifyAppUseNewSnapShot snap)
                       (delete k (nd_notify nd)) (nd_woken nd)]> (sys_nodes s))
                (sys_calls s ++ [c]) (sys_logs s))
      else None
  | EvCompact i idx snap =>
      if is_peer i && existsb (applied_index idx) (nd_applyCh (sys_nodes s i)) then
        handle s i (rf ← Compact (raft_of s i) idx snap; Ret (rf, []))
      else None
  | EvCrash i => if is_peer i then Some (crash s i) else None
  end.

Fixpoint run s (evs : list (event Cmd)) : option (sys Cmd) :=
  match evs with
  | [] => Some s
  | e :: evs' => s' ← exec s e; run s' evs'
  end.

(** ** Executions *)

(** Executions whose events all satisfy [ok] in the state they are taken in. *)
Inductive reach (ok : sys Cmd -> event Cmd -> Prop) : sys Cmd -> Prop :=
| reach_init : reach ok sys_init
| reach_step s e s' : reach ok s -> ok s e -> exec s e = Some s' -> reach ok s'.

Definition reachable : sys Cmd -> Prop := reach (fun _ _ => True).

(** [checkConsistency] for a peer whose [nextIndex] points past the end of the
    leader's own log: the case raft.go clamps with
    [localIdx := min(..., len(rf.Logs)-1)]. *)
Definition overshoots s (e : event Cmd) : Prop :=
  match e with
  | EvSync i j =>
      let rf := raft_of s i in
      state rf = LEADER /\ exists nx, nextIndex rf !! Z.to_nat j = Some nx /\
        logIdxLocal2Global rf (len (Logs rf) - 1) < nx - 1
  | _ => False
  end.

(** A peer hands its snapshots over in order: the apply daemon of a peer does not
    run while a snapshot the peer has installed waits for its send on [applyCh],
    and waiting snapshots are sent in the order of their installation. *)
Definition hands_over s (e : event Cmd) : Prop :=
  match e with
  | EvApply i => nd_notify (sys_nodes s i) = []
  | EvNotify _ k => k = 0%nat
  | _ => True
  end.

Definition in_order s (e : event Cmd) : Prop := ~ overshoots s e /\ hands_over s e.

(** The peer whose code an event runs. *)
Definition actor s (e : event Cmd) : option Z :=
  match e with
  | EvTimeout i | EvSync i _ | EvStart i _ | EvWake i | EvApply i | EvNotify i _
  | EvCompact i _ _ | EvCrash i => Some i
  | EvDeliver k => c_to <$> sys_calls s !! k
  | EvReply k => c_from <$> sys_calls s !! k
  | EvDrop _ => None
  end.

(** Compaction by the service; a server started with maxraftstate = -1 has none. *)
Definition compacts (e : event Cmd) : Prop :=
  match e with EvCompact _ _ _ => True | _ => False end.

Lemma run_reach ok s evs s' :
  reach ok s -> (forall s e, ok s e) -> run s evs = Some s' -> reach ok s'.
Proof.
  revert s. induction evs as [|e evs IH]; simpl; intros s Hr Hok H; [by simplify_eq|].
  destruct (exec s e) as [s1|] eqn:E; [|done]. simpl in H.
  eapply IH; [|done|done]. by eapply reach_step.
Qed.

Lemma reach_weaken (ok ok' : sys Cmd -> event Cmd -> Prop) s :
  (forall s e, ok s e -> ok' s e) -> reach ok s -> reach ok' s.
Proof. intros H. induction 1; [apply reach_init|]. eapply reach_step; eauto. Qed.

End System.
