(* ===== verification/RaftRefine.v ===== *)
(** * The cluster implements the protocol

    [rel] ties a state of the cluster (RaftSystem.v) to a state of the abstract
    protocol (RaftSpec.v): a peer's compacted log is its full abstract log
    rebased on its snapshot, a message in flight states a fact of the history.
    Every event of the cluster is simulated by steps of the protocol.

    Two flags say which executions are considered.  Under [safe] no
    [checkConsistency] overshoots the leader's log, and [rel] then also says
    that what a peer regards as committed is committed.  Under [nocomp] no
    service compacts its log, and [rel] then also bounds [nextIndex]. *)

From stdpp Require Import base functions list list_numbers gmap relations.
From S2P Require Import Prelude Gob RaftNode RaftNodeFacts RaftSpec RaftSystem.
Open Scope Z_scope.

(** ** The log of a peer and its full log *)

(** A full log after compaction up to [s]: the dummy entry, then the rest. *)
Definition rebased {Cmd} (s : Z) (L : list (LogEntry Cmd)) : list (LogEntry Cmd) :=
  mkLogEntry s (term_at L (Z.to_nat s)) None :: drop (Z.to_nat s) L.

Section Rebased.
Context {Cmd : Type}.
Implicit Types L P : list (LogEntry Cmd).

Lemma len_rebased s L : 0 <= s <= len L -> len (rebased s L) = len L - s + 1.
Proof. unfold rebased, len. simpl. rewrite length_drop. lia. Qed.

Lemma rebased_get s L i e :
  0 <= s <= len L -> slice_get (rebased s L) i = Ret e ->
  0 <= i /\ s + i <= len L /\ Term e = term_at L (Z.to_nat (s + i)).
Proof.
  intros Hs He. pose proof (slice_get_bound _ _ _ He) as Hb. rewrite len_rebased in Hb by done.
  apply slice_get_Ret in He as [Hi He]. split_and!; [done|lia|].
  destruct (decide (i = 0)) as [->|Hne].
  - simpl in He. simplify_eq. simpl. by rewrite Z.add_0_r.
  - replace (Z.to_nat i) with (S (Z.to_nat (i - 1))) in He by lia. simpl in He.
    rewrite lookup_drop in He. symmetry.
    replace (Z.to_nat (s + i)) with (S (Z.to_nat s + Z.to_nat (i - 1))) by lia.
    by apply term_at_lookup.
Qed.

Lemma rebased_get_cmd s L i e :
  0 <= s <= len L -> 0 < i -> slice_get (rebased s L) i = Ret e ->
  L !! Z.to_nat (s + i - 1) = Some e.
Proof.
  intros Hs Hi He. apply slice_get_Ret in He as [_ He].
  replace (Z.to_nat i) with (S (Z.to_nat (i - 1))) in He by lia. simpl in He.
  rewrite lookup_drop in He. rewrite <- He. f_equal. lia.
Qed.

Lemma rebased_app s L e : 0 <= s <= len L -> rebased s L ++ [e] = rebased s (L ++ [e]).
Proof.
  intros Hs. unfold rebased, len in *. rewrite drop_app_le by lia. simpl. f_equal. f_equal.
  symmetry. apply term_at_prefix; [by apply prefix_app_r|lia].
Qed.

(** Compacting a compacted log further. *)
Lemma rebased_drop s s' L :
  0 <= s -> s <= s' -> drop (Z.to_nat (s' - s + 1)) (rebased s L) = drop (Z.to_nat s') L.
Proof.
  intros Hs Hlt. unfold rebased.
  replace (Z.to_nat (s' - s + 1)) with (S (Z.to_nat (s' - s))) by lia. simpl.
  rewrite drop_drop. f_equal. lia.
Qed.
(** *** The loop of AppendEntries on a compacted log *)

Lemma rebased_lookup s L (k : nat) :
  0 <= s -> (0 < k)%nat -> rebased s L !! k = L !! (Z.to_nat s + Nat.pred k)%nat.
Proof. intros Hs Hk. destruct k as [|k]; [lia|]. simpl. by rewrite lookup_drop. Qed.

(** The entries the loop of AppendEntries skipped agree with the leader's. *)
Lemma match_agree s L P prev m :
  (forall k, (k <= length L)%nat -> (k <= length P)%nat -> term_at L k = term_at P k ->
     take k L = take k P) ->
  0 <= s <= prev -> prev <= len L -> prev <= len P ->
  take (Z.to_nat prev) L = take (Z.to_nat prev) P ->
  (forall k, (k < m)%nat -> exists x y, rebased s L !! (Z.to_nat (prev - s + 1) + k)%nat = Some x /\
     drop (Z.to_nat prev) P !! k = Some y /\ Term x = Term y) ->
  (Z.to_nat prev + m <= length L)%nat /\ (Z.to_nat prev + m <= length P)%nat /\
  take (Z.to_nat prev + m) L = take (Z.to_nat prev + m) P.
Proof.
  intros Hlm Hs HL HP Hpre Hall. unfold len in *. destruct m as [|m].
  { rewrite Nat.add_0_r. split_and!; [lia|lia|done]. }
  destruct (Hall m) as (x & y & Hx & Hy & Hxy); [lia|].
  rewrite rebased_lookup in Hx by lia. rewrite lookup_drop in Hy.
  replace (Z.to_nat s + Nat.pred (Z.to_nat (prev - s + 1) + m))%nat
    with (Z.to_nat prev + m)%nat in Hx by lia.
  pose proof (lookup_lt_Some _ _ _ Hx). pose proof (lookup_lt_Some _ _ _ Hy).
  split_and!; [lia|lia|]. rewrite Nat.add_succ_r. apply Hlm; [lia|lia|].
  by rewrite (term_at_lookup _ _ _ Hx), (term_at_lookup _ _ _ Hy).
Qed.

Lemma rebased_splice s L P prev m :
  0 <= s <= prev -> (Z.to_nat prev + m <= length L)%nat ->
  take (Z.to_nat prev + m) L = take (Z.to_nat prev + m) P ->
  (Z.to_nat prev + m <= length P)%nat ->
  take (Z.to_nat (prev - s + 1 + Z.of_nat m)) (rebased s L) ++
    drop m (drop (Z.to_nat prev) P) = rebased s P.
Proof.
  intros Hs HL Heq HP.
  replace (Z.to_nat (prev - s + 1 + Z.of_nat m)) with (S (Z.to_nat prev - Z.to_nat s + m)) by lia.
  unfold rebased at 1. simpl. unfold rebased. f_equal.
  - f_equal. rewrite <- (term_at_take L (Z.to_nat prev + m)) by lia.
    by rewrite Heq, term_at_take by lia.
  - rewrite drop_drop. replace (Z.to_nat prev - Z.to_nat s + m)%nat
      with ((Z.to_nat prev + m) - Z.to_nat s)%nat by lia.
    rewrite take_drop_commute. replace (Z.to_nat s + (Z.to_nat prev + m - Z.to_nat s))%nat
      with (Z.to_nat prev + m)%nat by lia.
    rewrite Heq. rewrite <- (take_drop (Z.to_nat prev + m) P) at 3.
    rewrite drop_app_le; [done|]. rewrite length_take. lia.
Qed.

Lemma append_result s L P prev i j :
  (forall k, (k <= length L)%nat -> (k <= length P)%nat -> term_at L k = term_at P k ->
     take k L = take k P) ->
  0 <= s <= prev -> prev <= len L -> prev <= len P ->
  take (Z.to_nat prev) L = take (Z.to_nat prev) P ->
  let entries := drop (Z.to_nat prev) P in
  matchLoop (length entries) (rebased s L) entries (prev - s + 1) 0 = Ret (i, j) ->
  (j = len entries /\ P `prefix_of` L) \/
  (j < len entries /\ ~ P `prefix_of` L /\ forall pre suf,
     slice_to (rebased s L) i = Ret pre -> slice_from entries j = Ret suf ->
     pre ++ suf = rebased s P).
Proof.
  intros Hlm Hs HL HP Hpre entries H.
  assert (Hle : length entries = (length P - Z.to_nat prev)%nat) by apply length_drop.
  destruct (matchLoop_spec (length entries) (rebased s L) entries (prev - s + 1) 0)
    as (m & Hm & Hi & Hj & Hall & Hend); [lia|lia|simpl; lia|].
  rewrite Hm in H. simplify_eq. rewrite Z.add_0_l in *. simpl in Hall, Hend.
  destruct (match_agree s L P prev m Hlm Hs HL HP Hpre Hall) as (H1 & H2 & Htake).
  destruct (decide (m = length entries)) as [Em|Em].
  - left. split; [unfold len; lia|].
    replace (Z.to_nat prev + m)%nat with (length P) in Htake by (unfold len in *; lia).
    rewrite (take_ge P) in Htake by lia. rewrite <- Htake. apply take_prefix.
  - right. assert (Z.of_nat m < len entries) by (unfold len in *; lia).
    split_and!; [done| |].
    + intros Hp. destruct Hend as [Hend|[Hend|(x & y & Hx & Hy & Hxy)]].
      * apply prefix_length in Hp. rewrite len_rebased in Hend by lia. unfold len in *. lia.
      * lia.
      * rewrite rebased_lookup in Hx by lia. subst entries. rewrite lookup_drop in Hy.
        replace (Z.to_nat s + Nat.pred (Z.to_nat (prev - s + 1) + m))%nat
          with (Z.to_nat prev + m)%nat in Hx by lia.
        pose proof (prefix_lookup_l _ _ _ _ Hp Hy). congruence.
    + intros pre suf [_ ->]%slice_to_Ret [_ ->]%slice_from_Ret. rewrite Nat2Z.id.
      by apply rebased_splice.
Qed.
End Rebased.

Section Refine.
Context {Cmd : Type} `{GC : Gob Cmd} (n : Z) (safe nocomp : Prop).
Implicit Types a : spec Cmd.
Implicit Types rf : Raft Cmd.
Implicit Types s : sys Cmd.
Implicit Types L P : list (LogEntry Cmd).

(** [L] is part of a prefix committed in a term up to [T]. *)
Definition committed_log a (T : Z) L : Prop :=
  L = [] \/ exists t k, t <= T /\ committed n a t k /\ L `prefix_of` take k (LL a t).

(** ** The relation *)
Record node_core a (i : Z) rf : Prop := {
  nr_peers : peers rf = n;
  nr_me : me rf = i;
  nr_next : length (nextIndex rf) = Z.to_nat n;
  nr_match : length (matchIndex rf) = Z.to_nat n;
  nr_term : CurrentTerm rf = term a i;
  nr_vote : vote a (term a i, i) = if decide (VotedFor rf = -1) then None else Some (VotedFor rf);
  nr_snap : 0 <= SnapshotIndex rf <= len (log a i);
  nr_logs : Logs rf = rebased (SnapshotIndex rf) (log a i);
  nr_cand : state rf = CANDIDATE -> VotedFor rf = i /\ leader a (term a i) <> Some i;
  nr_lead : state rf = LEADER -> leader a (term a i) = Some i;
  nr_commit : safe -> 0 <= commitIndex rf <= len (log a i) /\
    committed_log a (term a i) (take (Z.to_nat (commitIndex rf)) (log a i));
  nr_snapc : safe -> committed_log a (term a i) (take (Z.to_nat (SnapshotIndex rf)) (log a i));
  nr_applied : safe -> 0 <= lastApplied rf <= commitIndex rf;
  nr_acks : safe -> state rf = LEADER -> forall j m, matchIndex rf !! j = Some m ->
    m <= len (log a i) /\ forall N : nat, (0 < N)%nat -> Z.of_nat N <= m ->
      term_at (log a i) N = term a i ->
      (N <= acked a (term a i, Z.of_nat j))%nat \/ committed n a (term a i) N;
  nr_nocomp : nocomp -> SnapshotIndex rf = 0 /\
    (state rf = LEADER -> forall j x, nextIndex rf !! j = Some x -> 1 <= x <= len (log a i) + 1)
}.

Definition node_rel a (i : Z) rf : Prop := node_core a i rf /\ synced rf.

(** A vote request states the log of its candidate. *)
Definition cand_ok a (f : Z) (args : RequestVoteArgs) : Prop :=
  rv_CandidateID args = f /\ vote a (rv_Term args, f) = Some f /\
  rv_LastLogTerm args = last_term (candLog a (rv_Term args, f)) /\
  rv_LastLogIndex args = len (candLog a (rv_Term args, f)).

(** The entries of an AppendEntries request are the end of a prefix [P] of the
    log of the leader of its term, after position PrevLogIndex, or, when the
    request overshoots, none. *)
Definition append_args a P (args : AppendEntriesArgs Cmd) : Prop :=
  P `prefix_of` LL a (ae_Term args) /\
  ((0 <= ae_PrevLogIndex args <= len P /\
    ae_Entries args = drop (Z.to_nat (ae_PrevLogIndex args)) P /\
    ae_PrevLogTerm args = term_at P (Z.to_nat (ae_PrevLogIndex args))) \/
   (len P < ae_PrevLogIndex args /\ ae_Entries args = [] /\
    ae_PrevLogTerm args = last_term P /\ ~ safe /\ ~ nocomp)).

Definition append_ok a (f : Z) P (args : AppendEntriesArgs Cmd) : Prop :=
  leader a (ae_Term args) = Some f /\ append_args a P args /\
  (safe -> 0 <= ae_LeaderCommit args <= len P /\
    committed_log a (ae_Term args) (take (Z.to_nat (ae_LeaderCommit args)) P)).

Definition snap_ok a (f : Z) (args : InstallSnapshotArgs) : Prop :=
  leader a (is_Term args) = Some f /\
  exists P, P `prefix_of` LL a (is_Term args) /\ len P = is_LastIncludedIndex args /\
    last_term P = is_LastIncludedTerm args /\ (safe -> committed_log a (is_Term args) P) /\
    ~ nocomp.

Definition rpc_ok a (f t : Z) (r : rpc Cmd) : Prop :=
  match r with
  | CallVote args => cand_ok a f args
  | RetVote args reply => cand_ok a f args /\
      (rvr_VoteGranted reply = true ->
       rvr_Term reply = rv_Term args /\ vote a (rv_Term args, t) = Some f)
  | CallAppend args => exists P, append_ok a f P args
  | RetAppend args reply => exists P, append_ok a f P args /\
      (aer_Success reply = true -> aer_Term reply = ae_Term args /\
         (safe -> (length P <= acked a (ae_Term args, t))%nat)) /\
      (nocomp -> aer_Success reply = false -> aer_ConflictIndex reply = 0 \/
         (aer_Term reply = ae_Term args /\ aer_ConflictIndex reply <= len P))
  | CallSnap args => snap_ok a f args
  | RetSnap args reply => snap_ok a f args
  end.

Definition call_ok a (c : call Cmd) : Prop :=
  0 <= c_from c < n /\ 0 <= c_to c < n /\ c_from c <> c_to c /\
  rpc_ok a (c_from c) (c_to c) (c_rpc c).

(** Votes asked for and not yet counted, as (candidate, peer, term). *)
Definition vote_key (c : call Cmd) : option (Z * Z * Z) :=
  match c_rpc c with
  | CallVote args | RetVote args _ => Some (c_from c, c_to c, rv_Term args)
  | _ => None
  end.

(** The peers that voted for [i] in term [T] and whose reply is not in flight. *)
Definition counted a (cs : list (call Cmd)) (i T : Z) : gset Z :=
  filter (fun q => vote a (T, q) = Some i /\ (i, q, T) ∉ omap vote_key cs) (nodes n).

Definition votes_ok a (cs : list (call Cmd)) (i : Z) rf : Prop :=
  state rf = CANDIDATE -> voteCount rf <= Z.of_nat (size (counted a cs i (CurrentTerm rf))).

(** A command in the tester's record is a committed one. *)
Definition record_ok a (r : Z * Z * option Cmd) : Prop :=
  exists t k e, committed n a t k /\ 0 < r.1.2 <= Z.of_nat k /\
    LL a t !! Z.to_nat (r.1.2 - 1) = Some e /\ Command e = r.2.

(** The reply of a handler that has not sent its snapshot yet. *)
Definition is_retsnap (c : call Cmd) : Prop := exists args r, c_rpc c = RetSnap args r.

Record rel a s : Prop := {
  rel_node i : 0 <= i < n -> node_rel a i (raft_of s i);
  rel_votes i : 0 <= i < n -> votes_ok a (sys_calls s) i (raft_of s i);
  rel_calls c : c ∈ sys_calls s -> call_ok a c;
  rel_keys : NoDup (omap vote_key (sys_calls s));
  rel_sent i idx c : 0 <= i < n -> safe -> CommandMsg idx c ∈ nd_applyCh (sys_nodes s i) ->
    idx <= commitIndex (raft_of s i);
  rel_logs r : safe -> r ∈ sys_logs s -> record_ok a r;
  rel_held i b c : 0 <= i < n -> (b, c) ∈ nd_notify (sys_nodes s i) -> call_ok a c /\ is_retsnap c
}.

(** ** Steps of one peer *)

(** What steps of peer [t] leave in place. *)
Record frame (t : Z) a a' : Prop := {
  fr_vote k c : vote a k = Some c -> vote a' k = Some c;
  fr_cand T c : vote a (T, c) = Some c -> candLog a' (T, c) = candLog a (T, c);
  fr_leader T c : leader a T = Some c -> leader a' T = Some c;
  fr_LL T : LL a T `prefix_of` LL a' T;
  fr_term p : term a p <= term a' p;
  fr_acked k : (acked a k <= acked a' k)%nat;
  fr_o_term p : p <> t -> term a' p = term a p;
  fr_o_log p : p <> t -> log a' p = log a p;
  fr_o_vote T p : p <> t -> vote a' (T, p) = vote a (T, p);
  fr_o_leader T p : p <> t -> leader a' T = Some p -> leader a T = Some p
}.

Lemma frame_refl t a : frame t a a.
Proof. split; by auto. Qed.

Lemma frame_trans t a b c : frame t a b -> frame t b c -> frame t a c.
Proof.
  intros [] []. split; intros; eauto; try (by etrans; eauto).
  - rewrite fr_cand1; eauto.
  - rewrite fr_o_term1; eauto.
  - rewrite fr_o_log1; eauto.
  - rewrite fr_o_vote1; eauto.
Qed.

Lemma timeout_frame a c : Inv n a ->
  frame c a (mkSpec (<[c := term a c + 1]> (term a)) (log a)
      (<[(term a c + 1, c) := Some c]> (vote a))
      (<[(term a c + 1, c) := log a c]> (candLog a)) (leader a) (LL a) (acked a)).
Proof.
  intros I. assert (Hf : forall d, vote a (term a c + 1, c) <> Some d).
  { intros d H. apply (inv_vote_term _ _ I) in H. lia. }
  split; simpl; intros; fn_cases; try done; try lia; by destruct (Hf c0).
Qed.

Lemma bump_frame a p T : term a p <= T ->
  frame p a (mkSpec (<[p := T]> (term a)) (log a) (vote a) (candLog a) (leader a) (LL a) (acked a)).
Proof. intros HT. split; simpl; intros; fn_cases; try done; lia. Qed.

Lemma vote_frame a p c : vote a (term a p, p) = None ->
  frame p a (mkSpec (term a) (log a) (<[(term a p, p) := Some c]> (vote a)) (candLog a)
      (leader a) (LL a) (acked a)).
Proof. intros Hno. split; simpl; intros; fn_cases; try done; lia. Qed.

Lemma elect_frame a c : Inv n a -> leader a (term a c) = None ->
  frame c a (mkSpec (term a) (log a) (vote a) (candLog a)
      (<[term a c := Some c]> (leader a)) (<[term a c := log a c]> (LL a)) (acked a)).
Proof.
  intros I Hno. pose proof (inv_LL_none _ _ I _ Hno) as Hnil.
  split; simpl; intros; fn_cases; try done; try lia.
  rewrite Hnil. apply prefix_nil.
Qed.

Lemma append_frame a c e : Inv n a -> leader a (term a c) = Some c ->
  frame c a (mkSpec (term a) (<[c := LL a (term a c) ++ [e]]> (log a)) (vote a) (candLog a)
      (leader a) (<[term a c := LL a (term a c) ++ [e]]> (LL a))
      (<[(term a c, c) := S (length (LL a (term a c)))]> (acked a))).
Proof.
  intros I Hl. pose proof (inv_acked_le _ _ I (term a c) c).
  split; simpl; intros; fn_cases; try done; try lia. by apply prefix_app_r.
Qed.

Lemma accept_frame a p P L' :
  frame p a (mkSpec (term a) (<[p := L']> (log a)) (vote a) (candLog a) (leader a) (LL a)
      (<[(term a p, p) := Nat.max (acked a (term a p, p)) (length P)]> (acked a))).
Proof. split; simpl; intros; fn_cases; try done; lia. Qed.

(** ** What a step of a peer preserves *)
Lemma quorum_nonempty Q : quorum n Q -> exists q, q ∈ Q.
Proof. intros H. destruct (quorum_meet n Q Q H H) as (q & ? & _). eauto. Qed.

Lemma committed_le a t k : Inv n a -> committed n a t k -> (k <= length (LL a t))%nat.
Proof.
  intros I (_ & _ & Q & HQ & H). destruct (quorum_nonempty Q HQ) as [q Hq].
  specialize (H q Hq). pose proof (inv_acked_le _ _ I t q). lia.
Qed.

Section Framed.
Context (t : Z) a a' (I : Inv n a) (F : frame t a a').

Lemma committed_frame u k : committed n a u k -> committed n a' u k.
Proof.
  intros Hc. pose proof (committed_le _ _ _ I Hc) as Hk. destruct Hc as (Ht & ? & Q & HQ & Hq).
  split_and!; [|done|].
  - rewrite <- Ht at 2. apply term_at_prefix; [apply F|done].
  - exists Q. split; [done|]. intros q Hq'. specialize (Hq q Hq').
    pose proof (fr_acked _ _ _ F (u, q)). lia.
Qed.

Lemma committed_log_frame T T' L : T <= T' -> committed_log a T L -> committed_log a' T' L.
Proof.
  intros HT [->|(u & k & Hu & Hc & HL)]; [by left|]. right. exists u, k.
  split_and!; [lia|by apply committed_frame|].
  rewrite <- (prefix_take (LL a u) (LL a' u)); [done|apply F|by apply committed_le].
Qed.

Lemma node_core_other j rf : j <> t -> node_core a j rf -> node_core a' j rf.
Proof.
  intros Hj []. destruct F.
  pose proof (fr_o_term0 j Hj) as Et. pose proof (fr_o_log0 j Hj) as El.
  split; rewrite ?Et, ?El; auto.
  - by rewrite fr_o_vote0.
  - intros Hs. destruct (nr_cand0 Hs) as [? Hn]. split; [done|]. intros Hl. by apply Hn, fr_o_leader0.
  - intros Hs. destruct (nr_commit0 Hs). split; [done|]. by eapply committed_log_frame.
  - intros Hs. by eapply committed_log_frame; [|apply nr_snapc0].
  - intros Hs Hl j' m Hm. destruct (nr_acks0 Hs Hl j' m Hm) as [? Ha]. split; [done|].
    intros N H0 HN HT. destruct (Ha N H0 HN HT) as [?|?]; [left|right; by apply committed_frame].
    specialize (fr_acked0 (term a j, Z.of_nat j')). lia.
Qed.

Lemma cand_ok_frame f args : cand_ok a f args -> cand_ok a' f args.
Proof.
  intros (? & Hv & ? & ?). repeat split; [done|by apply F| |]; by rewrite (fr_cand _ _ _ F).
Qed.

Lemma append_args_frame P args : append_args a P args -> append_args a' P args.
Proof. intros [HP H]. split; [|done]. etrans; [done|apply F]. Qed.

Lemma append_ok_frame f P args : append_ok a f P args -> append_ok a' f P args.
Proof.
  intros (? & HP & Hc). split_and!; [by apply F|by apply append_args_frame|].
  intros Hs. destruct (Hc Hs). split; [done|]. by eapply committed_log_frame.
Qed.

Lemma snap_ok_frame f args : snap_ok a f args -> snap_ok a' f args.
Proof.
  intros (? & P & HP & ? & ? & Hc & ?). split; [by apply F|]. exists P.
  split_and!; try done; [etrans; [done|apply F]|]. intros Hs.
  eapply committed_log_frame; [done|by apply Hc].
Qed.

Lemma rpc_ok_frame f q r : rpc_ok a f q r -> rpc_ok a' f q r.
Proof.
  destruct r; simpl.
  - apply cand_ok_frame.
  - intros [Hc Hg]. split; [by apply cand_ok_frame|]. intros H. destruct (Hg H).
    split; [done|]. by apply F.
  - intros (P & HP). exists P. by apply append_ok_frame.
  - intros (P & HP & Hs & Hc). exists P. split_and!; [by apply append_ok_frame| |done].
    intros H. destruct (Hs H) as [? Hk]. split; [done|]. intros Hsafe.
    pose proof (fr_acked _ _ _ F (ae_Term args, q)). specialize (Hk Hsafe). lia.
  - apply snap_ok_frame.
  - apply snap_ok_frame.
Qed.

Lemma call_ok_frame c : call_ok a c -> call_ok a' c.
Proof. intros (? & ? & ? & ?). split_and!; try done; try lia. by apply rpc_ok_frame. Qed.

Lemma record_ok_frame r : record_ok a r -> record_ok a' r.
Proof.
  intros (u & k & e & Hc & ? & Hl & ?). exists u, k, e.
  split; [by apply committed_frame|]. split; [done|]. split; [|done].
  eapply prefix_lookup_l; [apply F|done].
Qed.

(** More votes and fewer replies in flight only add to the counted votes. *)
Lemma counted_mono cs cs' i T :
  (forall q, (i, q, T) ∈ omap vote_key cs' -> (i, q, T) ∈ omap vote_key cs) ->
  (size (counted a cs i T) <= size (counted a' cs' i T))%nat.
Proof.
  intros Hcs. apply subseteq_size. unfold counted. intros q.
  rewrite !elem_of_filter. intros [[Hv Hk] Hq]. split_and!; [by apply F| |done].
  intros H. by apply Hk, Hcs.
Qed.
End Framed.

(** One step of peer [t] in the protocol. *)
Definition sim_step (t : Z) a a' : Prop := rtc (spec_step n) a a' /\ Inv n a' /\ frame t a a'.

Lemma sim_refl t a : Inv n a -> sim_step t a a.
Proof. intros. split_and!; [apply rtc_refl|done|apply frame_refl]. Qed.

Lemma sim_trans t a b c : sim_step t a b -> sim_step t b c -> sim_step t a c.
Proof.
  intros (R1 & _ & F1) (R2 & I2 & F2).
  split_and!; [by etrans|done|by eapply frame_trans].
Qed.

Lemma sim_once t a a' : Inv n a -> spec_step n a a' -> frame t a a' -> sim_step t a a'.
Proof. intros I S F. split_and!; [by apply rtc_once|by eapply spec_step_Inv|done]. Qed.

(** ** The critical sections of one peer *)

(** A peer that is a candidate after a section was one before, with the same
    votes. *)
Definition cand_same rf rf' : Prop :=
  state rf' = CANDIDATE ->
  state rf = CANDIDATE /\ voteCount rf' = voteCount rf /\ CurrentTerm rf' = CurrentTerm rf.

(** The section of peer [t] from [rf] to [rf'] is simulated from [a] to [a']. *)
Definition simulated (t : Z) a rf a' rf' : Prop :=
  sim_step t a a' /\ node_rel a' t rf' /\ cand_same rf rf' /\
  (safe -> commitIndex rf <= commitIndex rf').

Lemma cand_same_refl rf : cand_same rf rf.
Proof. by intros H. Qed.

Lemma simulated_refl t a rf : Inv n a -> node_rel a t rf -> simulated t a rf a rf.
Proof. intros. split_and!; [by apply sim_refl|done|apply cand_same_refl|done]. Qed.

Lemma core_persist a i rf : node_core a i rf -> node_core a i (persistState rf).
Proof. intros []. by split. Qed.

Lemma core_follower a i rf : node_core a i rf -> node_core a i (set_state FOLLOWER rf).
Proof.
  intros []. split; simpl; auto; try done.
  intros Hn. destruct (nr_nocomp0 Hn). by split.
Qed.

(** Seeing a higher term. *)
Lemma sim_stepDown t a rf T :
  Inv n a -> node_core a t rf -> CurrentTerm rf < T ->
  exists a', sim_step t a a' /\ node_core a' t (stepDown rf T) /\ term a' t = T /\
    log a' t = log a t /\ (forall T', LL a' T' = LL a T').
Proof.
  intros I C HT. assert (term a t < T) as Ht by (rewrite <- (nr_term _ _ _ C); done).
  assert (F := bump_frame a t T (Z.lt_le_incl _ _ Ht)).
  assert (S : sim_step t a (mkSpec (<[t := T]> (term a)) (log a) (vote a) (candLog a) (leader a)
     (LL a) (acked a))).
  { apply sim_once; [done|apply step_bump; lia|done]. }
  eexists. split; [exact S|]. destruct C. simpl. rewrite fn_lookup_insert.
  split; [|done]. split; simpl; rewrite ?fn_lookup_insert; auto; try done.
  - destruct (vote a (T, t)) eqn:Hv; [|done]. apply (inv_vote_term _ _ I) in Hv. lia.
  - intros Hs. destruct (nr_commit0 Hs). split; [done|].
    eapply committed_log_frame; [done|exact F| |done]. lia.
  - intros Hs. eapply committed_log_frame; [done|exact F| |by apply nr_snapc0]. lia.
  - intros Hn. destruct (nr_nocomp0 Hn). by split.
Qed.

(** [stepDown] followed by a persist: every reaction to a higher term in a reply. *)
Lemma sim_higher_term t a rf T :
  Inv n a -> node_rel a t rf -> CurrentTerm rf < T ->
  exists a', simulated t a rf a' (persistState (stepDown rf T)).
Proof.
  intros I [C _] HT. destruct (sim_stepDown t a rf T I C HT) as (a' & S & C' & _).
  exists a'. split_and!; [done| |done|done]. split; [by apply core_persist|apply persistState_synced].
Qed.

(** The last entry of a peer's log. *)
Lemma core_last a i rf e :
  node_core a i rf -> slice_get (Logs rf) (len (Logs rf) - 1) = Ret e ->
  Term e = last_term (log a i) /\
  logIdxLocal2Global rf (len (Logs rf) - 1) = len (log a i).
Proof.
  intros [] He. rewrite nr_logs0 in *. unfold logIdxLocal2Global.
  apply rebased_get in He as (_ & _ & ->); [|done]. rewrite len_rebased by done.
  split; [|lia]. unfold last_term. f_equal. unfold len. lia.
Qed.

Lemma core_len a i rf : node_core a i rf ->
  logIdxLocal2Global rf (len (Logs rf) - 1) = len (log a i).
Proof.
  intros []. unfold logIdxLocal2Global. rewrite nr_logs0, len_rebased by done. lia.
Qed.

(** ** RequestVote *)
Definition granted_ok a (f t : Z) (args : RequestVoteArgs) (r : RequestVoteReply) : Prop :=
  rvr_VoteGranted r = true -> rvr_Term r = rv_Term args /\ vote a (rv_Term args, t) = Some f.

Lemma grant_sim t a rf f args e :
  Inv n a -> node_core a t rf -> 0 <= t -> 0 <= f -> cand_ok a f args ->
  term a t = rv_Term args -> VotedFor rf = -1 ->
  slice_get (Logs rf) (len (Logs rf) - 1) = Ret e ->
  (Term e <? rv_LastLogTerm args)
     || ((rv_LastLogTerm args =? Term e)
         && (logIdxLocal2Global rf (len (Logs rf) - 1) <=? rv_LastLogIndex args)) = true ->
  exists a', sim_step t a a' /\ node_core a' t (set_VotedFor f rf) /\
    vote a' (rv_Term args, t) = Some f.
Proof.
  intros I C Ht Hf (Hid & Hv & Hlt & Hli) HT Hvf He Hup.
  destruct (core_last _ _ _ _ C He) as [Ee El]. rewrite El, Ee, Hlt, Hli in Hup.
  assert (Hno : vote a (term a t, t) = None).
  { rewrite (nr_vote _ _ _ C). by rewrite decide_True. }
  assert (F := vote_frame a t f Hno).
  eexists. split; [apply sim_once; [done|apply (step_vote _ _ t f)|exact F]|].
  - done.
  - by rewrite HT.
  - rewrite HT. apply orb_true_iff in Hup as [Hup|[H1 H2]%andb_true_iff]; zbool;
      [left|right]; unfold len in *; lia.
  - simpl. rewrite <- HT, fn_lookup_insert. split; [|done]. destruct C.
    split; simpl; auto.
    + rewrite fn_lookup_insert. rewrite decide_False; [done|lia].
    + intros Hc. destruct (nr_cand0 Hc). lia.
Qed.

Lemma RequestVote_sim t a rf f args rf' r effs :
  Inv n a -> node_rel a t rf -> 0 <= t -> 0 <= f -> cand_ok a f args ->
  RequestVote rf args = Ret (rf', r, effs) ->
  exists a', simulated t a rf a' rf' /\ granted_ok a' f t args r /\
    omap (effect_call t) effs = [].
Proof.
  intros I [C Sy] Ht Hf Hc H. unfold RequestVote in H.
  destruct (Z.ltb_spec (rv_Term args) (CurrentTerm rf)) as [|Hge].
  { simplify_eq. exists a. split_and!; [by apply simulated_refl|done|done]. }
  (* after the term comparison *)
  set (p := if CurrentTerm rf <? rv_Term args then (stepDown rf (rv_Term args), true)
            else (rf, false)) in H.
  assert (exists a1, sim_step t a a1 /\ node_core a1 t p.1 /\ term a1 t = rv_Term args /\
    cand_ok a1 f args /\ cand_same rf p.1 /\ commitIndex p.1 = commitIndex rf /\
    (p.2 = false -> p.1 = rf)) as (a1 & S1 & C1 & HT1 & Hc1 & Hs1 & Hci & Hch).
  { subst p. destruct (Z.ltb_spec (CurrentTerm rf) (rv_Term args)) as [Hlt|]; simpl.
    - destruct (sim_stepDown t a rf _ I C Hlt) as (a1 & S1 & C1 & HT & _).
      exists a1. split_and!; try done. eapply cand_ok_frame; [apply S1|done].
    - exists a. split; [by apply sim_refl|]. split; [done|]. split; [|done].
      rewrite <- (nr_term _ _ _ C). lia. }
  destruct p as [rf1 change]; simpl in *. destruct S1 as (R1 & I1 & F1).
  assert (Hsim : forall ch, (ch = false -> rf1 = rf) ->
    simulated t a rf a1 (if ch : bool then persistState rf1 else rf1)).
  { intros [] Hh; split_and!; try done; simpl; try lia.
    - split; [by apply core_persist|apply persistState_synced].
    - split; [done|by rewrite Hh]. }
  destruct ((VotedFor rf1 =? -1) || (VotedFor rf1 =? rv_CandidateID args)) eqn:Hvf.
  2:{ simplify_eq/=. exists a1. split_and!; [by apply Hsim|done|done]. }
  apply bind_Ret_inv in H as (x & E & H). apply bind_Ret_inv in E as (e & He & E).
  destruct ((Term e <? rv_LastLogTerm args) || _) eqn:Hup.
  2:{ simplify_eq/=. exists a1. split_and!; [by apply Hsim|done|done]. }
  destruct (Z.eqb_spec (VotedFor rf1) (-1)) as [Hm1|Hm1]; simplify_eq/=.
  - destruct (grant_sim t a1 rf1 f args e) as (a2 & S2 & C2 & Hv2); try done.
    exists a2. destruct Hc1 as (-> & _). split_and!; [|done|done].
    split_and!; [by eapply sim_trans| | |simpl; lia].
    + split; [by apply core_persist|apply persistState_synced].
    + intros Hcand. simpl in Hcand. by apply Hs1.
  - zbool. exists a1. split_and!; [by apply Hsim| |done]. intros _. split; [done|].
    destruct Hc1 as (Hid & _). rewrite <- HT1, (nr_vote _ _ _ C1), decide_False by done.
    f_equal. lia.
Qed.

(** ** Accepting a prefix of the leader's log *)

(** AppendEntries and InstallSnapShot first adopt the sender's term. *)
Definition enterTerm rf (T : Z) : Raft Cmd * bool :=
  if CurrentTerm rf <? T then (stepDown rf T, true) else (set_state FOLLOWER rf, false).

Lemma enterTerm_sim t a rf T :
  Inv n a -> node_rel a t rf -> CurrentTerm rf <= T ->
  exists a', sim_step t a a' /\ node_core a' t (enterTerm rf T).1 /\ term a' t = T /\
    ((enterTerm rf T).2 = false -> synced (enterTerm rf T).1).
Proof.
  intros I [C Sy] HT. unfold enterTerm. destruct (Z.ltb_spec (CurrentTerm rf) T) as [Hlt|]; simpl.
  - destruct (sim_stepDown t a rf T I C Hlt) as (a' & S & C' & HT' & _). exists a'. by split_and!.
  - exists a. split; [by apply sim_refl|]. split; [by apply core_follower|].
    split; [rewrite <- (nr_term _ _ _ C); lia|]. intros _. by eapply synced_ext; [..|exact Sy].
Qed.

Lemma enterTerm_fields rf T :
  state (enterTerm rf T).1 = FOLLOWER /\ commitIndex (enterTerm rf T).1 = commitIndex rf.
Proof. unfold enterTerm. by case_match. Qed.

(** A committed prefix of the log is also one of the leader's log. *)
Lemma committed_in_leader a T L :
  Inv n a -> leader a T <> None -> committed_log a T L -> L `prefix_of` LL a T.
Proof.
  intros I Hl [->|(u & k & Hu & Hc & HL)]; [apply prefix_nil|]. etrans; [exact HL|].
  destruct (decide (u = T)) as [->|]; [apply take_prefix|].
  eapply leader_completeness; [done|done|done|lia].
Qed.

(** Accepting a prefix of the leader's log keeps what is committed. *)
Lemma committed_kept a T L P L' k :
  Inv n a -> leader a T <> None -> P `prefix_of` LL a T -> merged L P L' ->
  0 <= k <= len L -> committed_log a T (take (Z.to_nat k) L) ->
  k <= len L' /\ take (Z.to_nat k) L' = take (Z.to_nat k) L.
Proof.
  intros I Hl HP Hm Hk Hc.
  assert (Hp : take (Z.to_nat k) L `prefix_of` L').
  { eapply merged_keeps; [done|done|apply take_prefix|by apply committed_in_leader]. }
  pose proof (prefix_length _ _ Hp) as Hlen. rewrite length_take in Hlen. unfold len in *.
  split; [lia|]. apply prefix_eq_take in Hp. rewrite length_take, Nat.min_l in Hp by lia. done.
Qed.

Lemma accept_sim t a rf P L' b :
  Inv n a -> node_core a t rf -> state rf = FOLLOWER -> leader a (term a t) <> None ->
  P `prefix_of` LL a (term a t) -> merged (log a t) P L' -> 0 <= b <= len L' ->
  (safe -> committed_log a (term a t) (take (Z.to_nat b) L')) -> (nocomp -> b = 0) ->
  exists a', sim_step t a a' /\
    node_core a' t (set_SnapshotIndex b (set_Logs (rebased b L') rf)) /\
    term a' t = term a t /\ log a' t = L' /\ (length P <= acked a' (term a t, t))%nat.
Proof.
  intros I C Hst Hl HP Hm Hb Hbc Hnc.
  assert (F := accept_frame a t P L').
  assert (S : sim_step t a (mkSpec (term a) (<[t := L']> (log a)) (vote a) (candLog a) (leader a)
    (LL a) (<[(term a t, t) := Nat.max (acked a (term a t, t)) (length P)]> (acked a)))).
  { apply sim_once; [done|by apply step_accept|done]. }
  eexists. split; [exact S|]. simpl. rewrite !fn_lookup_insert. split; [|split_and!; [done|done|lia]].
  destruct C. split; simpl; rewrite ?fn_lookup_insert; auto; try (rewrite Hst; intros; try split; by auto).
  - intros Hs. destruct (nr_commit0 Hs) as [H1 H2].
    destruct (committed_kept a (term a t) (log a t) P L' (commitIndex rf)) as [H3 H4]; try done.
    split; [lia|]. rewrite H4. eapply committed_log_frame; [done|exact F|done|done].
  - intros Hs. eapply committed_log_frame; [done|exact F|done|by apply Hbc].
Qed.

(** Moving the commit index inside the log. *)
Lemma commit_core a t rf c :
  node_core a t rf ->
  (safe -> commitIndex rf <= c <= len (log a t) /\
     committed_log a (term a t) (take (Z.to_nat c) (log a t))) ->
  node_core a t (set_commitIndex c rf).
Proof.
  intros [] Hc. split; simpl; auto.
  - intros Hs. destruct (nr_commit0 Hs), (Hc Hs). split; [lia|done].
  - intros Hs. destruct (nr_applied0 Hs), (Hc Hs). lia.
Qed.

Lemma sendCommitCh_Ret rf rf' :
  sendCommitCh rf = Ret rf' -> rf' = set_commitCh (S (commitCh rf)) rf.
Proof. unfold sendCommitCh. case_decide; naive_solver. Qed.

Lemma core_commitCh a t rf k : node_core a t rf -> node_core a t (set_commitCh k rf).
Proof. intros []. by split. Qed.

(** The commit update at the end of a successful AppendEntries. *)
Lemma follower_commit_sim a t rf (args : AppendEntriesArgs Cmd) rf' P :
  node_core a t rf -> term a t = ae_Term args -> (safe -> P `prefix_of` log a t) ->
  (safe -> 0 <= ae_LeaderCommit args <= len P /\
    committed_log a (ae_Term args) (take (Z.to_nat (ae_LeaderCommit args)) P)) ->
  (if commitIndex rf <? ae_LeaderCommit args then
     sendCommitCh (set_commitIndex
       (min (ae_LeaderCommit args) (logIdxLocal2Global rf (len (Logs rf) - 1))) rf)
   else Ret rf) = Ret rf' ->
  node_core a t rf' /\ state rf' = state rf /\ persister rf' = persister rf /\
  (safe -> commitIndex rf <= commitIndex rf') /\
  (forall rf0, synced rf0 -> rf = rf0 -> synced rf').
Proof.
  intros C HT HP Hc H. destruct (Z.ltb_spec (commitIndex rf) (ae_LeaderCommit args)) as [Hlt|].
  2:{ simplify_eq. split_and!; try done. by intros ? ? ->. }
  apply sendCommitCh_Ret in H as ->. rewrite (core_len _ _ _ C), min_spec.
  assert (Hmin : safe -> Z.min (ae_LeaderCommit args) (len (log a t)) = ae_LeaderCommit args).
  { intros Hs. destruct (Hc Hs). specialize (HP Hs). apply prefix_length in HP. unfold len in *. lia. }
  split_and!; simpl; try done.
  - apply core_commitCh, commit_core; [done|]. intros Hs. rewrite (Hmin Hs).
    destruct (Hc Hs) as [Hr Hcl]. specialize (HP Hs). apply prefix_length in HP as Hlen. unfold len in *.
    split; [lia|]. rewrite HT. by rewrite <- (prefix_take P (log a t)) by (done || lia).
  - intros Hs. rewrite (Hmin Hs). lia.
  - intros rf0 Hsy ->. by eapply synced_ext; [..|exact Hsy].
Qed.

(** The log update of a successful AppendEntries. *)
Lemma append_logs_sim t a rf f P args change i j rf1 change1 :
  Inv n a -> node_core a t rf -> state rf = FOLLOWER -> term a t = ae_Term args ->
  leader a (ae_Term args) = Some f -> append_args a P args ->
  (change = false -> synced rf) -> SnapshotIndex rf <= ae_PrevLogIndex args ->
  (exists e, slice_get (Logs rf) (ae_PrevLogIndex args - SnapshotIndex rf) = Ret e /\
     Term e = ae_PrevLogTerm args) ->
  matchLoop (length (ae_Entries args)) (Logs rf) (ae_Entries args)
    (ae_PrevLogIndex args - SnapshotIndex rf + 1) 0 = Ret (i, j) ->
  (if j <? len (ae_Entries args) then
     pre ← slice_to (Logs rf) i;
     suf ← slice_from (ae_Entries args) j;
     Ret (set_Logs (pre ++ suf) rf, true)
   else Ret (rf, change)) = Ret (rf1, change1) ->
  exists a', sim_step t a a' /\ node_core a' t rf1 /\ term a' t = ae_Term args /\
    state rf1 = FOLLOWER /\ commitIndex rf1 = commitIndex rf /\
    (change1 = false -> synced rf1) /\
    (safe -> P `prefix_of` log a' t /\ (length P <= acked a' (ae_Term args, t))%nat).
Proof.
  intros I C Hst HT Hl [HP Hargs] Hsy Hsn (e & He & Ee) Hm H. pose proof (nr_snap _ _ _ C) as Hs.
  pose proof (nr_logs _ _ _ C) as Elogs.
  destruct Hargs as [(Hprev & Hent & Hpt)|(_ & Hent & _ & Hns & _)].
  2:{ rewrite Hent in *. simpl in Hm. simplify_eq/=. exists a.
      split; [by apply sim_refl|]. by split_and!. }
  rewrite Elogs in He. apply rebased_get in He as (_ & Hle & Et); [|done].
  replace (SnapshotIndex rf + (ae_PrevLogIndex args - SnapshotIndex rf))
    with (ae_PrevLogIndex args) in * by lia.
  assert (Hlm : forall k, (k <= length (log a t))%nat -> (k <= length P)%nat ->
    term_at (log a t) k = term_at P k -> take k (log a t) = take k P).
  { intros k ? ? ?. apply (log_matching a); try done; [by apply I|].
    eapply wf_log_prefix; [exact HP|by apply I]. }
  assert (Hpre : take (Z.to_nat (ae_PrevLogIndex args)) (log a t) =
                 take (Z.to_nat (ae_PrevLogIndex args)) P).
  { apply Hlm; [unfold len in *; lia|unfold len in *; lia|congruence]. }
  rewrite Elogs, Hent in Hm.
  assert (Hacc : forall L', merged (log a t) P L' ->
    rf1 = set_SnapshotIndex (SnapshotIndex rf) (set_Logs (rebased (SnapshotIndex rf) L') rf) ->
    SnapshotIndex rf <= len L' -> (take (Z.to_nat (SnapshotIndex rf)) L' =
      take (Z.to_nat (SnapshotIndex rf)) (log a t)) ->
    exists a', sim_step t a a' /\ node_core a' t rf1 /\ term a' t = ae_Term args /\
      (P `prefix_of` log a' t /\ (length P <= acked a' (ae_Term args, t))%nat)).
  { intros L' HL' E1 Hlen Htk.
    destruct (accept_sim t a rf P L' (SnapshotIndex rf)) as (a' & S & C' & HT' & HL & Hak);
      try done; try (rewrite HT; congruence); [lia| | |].
    - intros Hsafe. rewrite Htk. by apply C.
    - intros Hn. by destruct (nr_nocomp _ _ _ C Hn).
    - exists a'. rewrite E1, HL, <- HT, HT'. split_and!; try done. by eapply merged_prefix. }
  destruct (append_result _ _ _ _ _ _ Hlm (conj (proj1 Hs) Hsn) Hle (proj2 Hprev) Hpre Hm)
    as [[Ej Hp]|(Hj & Hp & Hsplice)].
  - rewrite Hent, Ej, Z.ltb_irrefl in H. injection H as <- <-.
    destruct (Hacc (log a t)) as (a' & S & C' & HT' & HL); [by left| |lia|done|].
    { rewrite <- Elogs. by destruct rf. }
    exists a'. by split_and!.
  - rewrite Hent in H. rewrite (proj2 (Z.ltb_lt _ _) Hj) in H. bind_inv. injection H as <- <-.
    rewrite Elogs in E. rewrite (Hsplice _ _ E E0) in *.
    destruct (Hacc P) as (a' & S & C' & HT' & HL); [by right|by destruct rf|lia| |].
    { apply (f_equal (take (Z.to_nat (SnapshotIndex rf)))) in Hpre.
      by rewrite !take_take, !Nat.min_l in Hpre by lia. }
    exists a'. by split_and!.
Qed.

(** What the sender learns from a reply to AppendEntries. *)
Definition append_reply_ok a (t : Z) P (args : AppendEntriesArgs Cmd) (r : AppendEntriesReply)
    : Prop :=
  (aer_Success r = true -> aer_Term r = ae_Term args /\
     (safe -> (length P <= acked a (ae_Term args, t))%nat)) /\
  (nocomp -> aer_Success r = false -> aer_ConflictIndex r = 0 \/
     (aer_Term r = ae_Term args /\ aer_ConflictIndex r <= len P)).

Lemma appendMatched_sim t a rf f P args change rf' r change' :
  Inv n a -> node_core a t rf -> state rf = FOLLOWER -> term a t = ae_Term args ->
  append_ok a f P args -> (change = false -> synced rf) ->
  SnapshotIndex rf <= ae_PrevLogIndex args ->
  (exists e, slice_get (Logs rf) (ae_PrevLogIndex args - SnapshotIndex rf) = Ret e /\
     Term e = ae_PrevLogTerm args) ->
  appendMatched rf args (ae_PrevLogIndex args - SnapshotIndex rf) change = Ret (rf', r, change') ->
  exists a', sim_step t a a' /\ node_core a' t rf' /\ state rf' = FOLLOWER /\
    (change' = false -> synced rf') /\ (safe -> commitIndex rf <= commitIndex rf') /\
    append_reply_ok a' t P args r.
Proof.
  intros I C Hst HT (Hl & Hargs & Hcom) Hsy Hsn He H. unfold appendMatched in H.
  apply bind_Ret_inv in H as ([i j] & Hm & H).
  apply bind_Ret_inv in H as ([rf1 change1] & H1 & H).
  apply bind_Ret_inv in H as (rf2 & H2 & H). simplify_eq.
  destruct (append_logs_sim t a rf f P args change i j rf1 change') as
    (a' & S & C' & HT' & Hst' & Hci & Hsy' & Hacc); try done.
  destruct (follower_commit_sim a' t rf1 args rf' P) as (C2 & Hst2 & _ & Hci2 & Hsy2); try done.
  { intros Hs. by apply Hacc. }
  { intros Hs. destruct (Hcom Hs). split; [done|].
    eapply committed_log_frame; [exact I|apply S|done|done]. }
  exists a'. split; [done|]. split; [done|]. split; [congruence|]. split.
  { intros Hch. eapply Hsy2; [by apply Hsy'|done]. }
  split; [intros Hs; rewrite <- Hci; by apply Hci2|].
  split; [|done]. intros _. split; [done|]. intros Hs. by apply Hacc.
Qed.

(** The entries of the conflicting term start at or before PrevLogIndex. *)
Lemma conflictHead_le logs t i h : conflictHead (Cmd := Cmd) logs t i = Ret h -> (h <= i)%nat.
Proof.
  revert h. induction i as [|i IH]; simpl; intros h H; [by simplify_eq|].
  bind_inv. case_match; [apply IH in H; lia|simplify_eq; lia].
Qed.

(** The rejections of AppendEntries leave the log alone. *)
Lemma append_reject_ok t a rf P args :
  node_core a t rf -> append_args a P args -> nocomp ->
  SnapshotIndex rf <= ae_PrevLogIndex args /\
  (len (Logs rf) - 1 < logIdxGlobal2Local rf (ae_PrevLogIndex args) ->
     logIdxLocal2Global rf (len (Logs rf) - 1) + 1 <= len P) /\
  (forall T h,
     conflictHead (Logs rf) T (Z.to_nat (logIdxGlobal2Local rf (ae_PrevLogIndex args))) = Ret h ->
     logIdxLocal2Global rf (Z.of_nat h) <= len P).
Proof.
  intros C [_ Hargs] Hn. destruct Hargs as [(Hprev & _)|(_ & _ & _ & _ & Hno)]; [|done].
  destruct (nr_nocomp _ _ _ C Hn) as [E0 _]. rewrite (core_len _ _ _ C).
  unfold logIdxGlobal2Local, logIdxLocal2Global in *. rewrite E0 in *.
  split_and!; [lia| |].
  - rewrite (nr_logs _ _ _ C), E0, len_rebased by (pose proof (nr_snap _ _ _ C); lia). lia.
  - intros T h Hh%conflictHead_le. lia.
Qed.

Lemma AppendEntries_sim t a rf f P args rf' r effs :
  Inv n a -> node_rel a t rf -> append_ok a f P args ->
  AppendEntries rf args = Ret (rf', r, effs) ->
  exists a', simulated t a rf a' rf' /\ append_reply_ok a' t P args r /\
    omap (effect_call t) effs = [].
Proof.
  intros I R Hok H. unfold AppendEntries in H.
  destruct (Z.ltb_spec (ae_Term args) (CurrentTerm rf)) as [|Hge].
  { simplify_eq. exists a. split; [by apply simulated_refl|]. split; [|done]. split; [done|]. by left. }
  fold (enterTerm rf (ae_Term args)) in H.
  destruct (enterTerm_sim t a rf _ I R Hge) as (a1 & S1 & C1 & HT1 & Hsy).
  destruct (enterTerm_fields rf (ae_Term args)) as [Hst Hci].
  destruct (enterTerm rf (ae_Term args)) as [rf1 change]; simpl in *.
  assert (Hok1 : append_ok a1 f P args) by (eapply append_ok_frame; [exact I|apply S1|done]).
  assert (Hfin : forall a2 rf2 (ch : bool), sim_step t a1 a2 -> node_core a2 t rf2 ->
    state rf2 = FOLLOWER -> (ch = false -> synced rf2) ->
    (safe -> commitIndex rf1 <= commitIndex rf2) ->
    simulated t a rf a2 (if ch then persistState rf2 else rf2)).
  { intros a2 rf2 ch S2 C2 Hst2 Hsy2 Hc2. split; [by eapply sim_trans|].
    split; [split; [by destruct ch; [apply core_persist|]|]|].
    - destruct ch; [apply persistState_synced|auto].
    - split; [destruct ch; unfold cand_same; simpl; rewrite Hst2; done|].
      intros Hs. specialize (Hc2 Hs). destruct ch; simpl; lia. }
  assert (Hrej : forall ci, (nocomp -> ci <= len P) ->
    exists a', simulated t a rf a' (if change then persistState rf1 else rf1) /\
      append_reply_ok a' t P args (mkAppendEntriesReply (ae_Term args) false ci) /\
      omap (effect_call t) [@ResetTimer Cmd] = []).
  { intros ci Hci'. exists a1. split; [apply Hfin; try done; apply sim_refl, S1|].
    split; [|done]. split; [done|]. simpl. auto. }
  apply bind_Ret_inv in H as ([[rf2 r2] ch2] & H & E). injection E as <- <- <-.
  destruct (Z.ltb_spec (ae_PrevLogIndex args) (SnapshotIndex rf1)) as [|Hsn].
  { injection H as <- <- <-. apply Hrej. intros Hn.
    destruct (append_reject_ok t a1 rf1 P args C1 (proj1 (proj2 Hok1)) Hn). lia. }
  destruct (Z.ltb_spec (len (Logs rf1) - 1) (logIdxGlobal2Local rf1 (ae_PrevLogIndex args))) as [Hlt|Hle].
  { injection H as <- <- <-. apply Hrej. intros Hn.
    by eapply (append_reject_ok t a1 rf1 P args C1 (proj1 (proj2 Hok1)) Hn). }
  apply bind_Ret_inv in H as (e & He & H).
  destruct (negb (Term e =? ae_PrevLogTerm args)) eqn:Hne; zbool.
  - apply bind_Ret_inv in H as (h & Hh & H). injection H as <- <- <-. apply Hrej. intros Hn.
    by eapply (append_reject_ok t a1 rf1 P args C1 (proj1 (proj2 Hok1)) Hn).
  - destruct (appendMatched_sim t a1 rf1 f P args change rf2 r2 ch2) as
      (a2 & S2 & C2 & Hst2 & Hsy2 & Hci2 & Hr); try done; [apply S1|eauto|].
    exists a2. split_and!; try done. by apply Hfin.
Qed.

(** ** InstallSnapShot and Compact *)
Lemma core_persister a i rf ps : node_core a i rf -> node_core a i (set_persister ps rf).
Proof. intros []. by split. Qed.

(** A snapshot saved with the state it belongs to. *)
Lemma save_rel a i rf snap :
  node_core a i rf ->
  node_rel a i (set_persister (SaveStateAndSnapshot (persister rf) (encodeState rf) snap) rf).
Proof. intros C. split; [by apply core_persister|by apply synced_saved]. Qed.

(** The log after a snapshot of the prefix [P] of length [b] was installed over
    a peer's log. *)
Lemma install_log (s b : Z) L P size newLog :
  (forall k, (k <= length L)%nat -> (k <= length P)%nat -> term_at L k = term_at P k ->
     take k L = take k P) ->
  0 <= s <= len L -> s < b -> len P = b ->
  (if b - s <? len (rebased s L) then
     e ← slice_get (rebased s L) (b - s);
     if Term e =? last_term P then Ret (len (rebased s L) - (b - s)) else Ret 1
   else Ret 1) = Ret size ->
  rebaseLog (rebased s L) size b (last_term P) (b - s) = Ret newLog ->
  exists L', merged L P L' /\ newLog = rebased b L'.
Proof.
  intros Hlm Hs Hb HP Hsize Hnew.
  assert (HPend : term_at P (Z.to_nat b) = last_term P) by (unfold last_term; f_equal; unfold len in *; lia).
  rewrite len_rebased in * by done.
  assert (Hshort : ~ P `prefix_of` L -> size = 1 -> exists L', merged L P L' /\ newLog = rebased b L').
  { intros Hp ->. rewrite rebaseLog_spec in Hnew by lia. simpl in Hnew. simplify_eq.
    exists P. split; [by right|]. unfold rebased. rewrite HPend. f_equal.
    by rewrite drop_ge by (unfold len in *; lia). }
  destruct (Z.ltb_spec (b - s) (len L - s + 1)) as [Hlt|Hge].
  2:{ simplify_eq. apply Hshort; [|done]. intros Hp%prefix_length. unfold len in *. lia. }
  apply bind_Ret_inv in Hsize as (e & He & Hsize).
  apply rebased_get in He as (_ & _ & Et); [|done]. replace (s + (b - s)) with b in Et by lia.
  destruct (Z.eqb_spec (Term e) (last_term P)) as [Heq|Hne]; simplify_eq.
  2:{ apply Hshort; [|done]. intros Hp. apply Hne. rewrite Et, <- HPend.
      apply term_at_prefix; [done|unfold len; lia]. }
  rewrite rebaseLog_spec in Hnew.
  2:{ rewrite len_rebased by done. destruct (decide (len L - s + 1 - (len P - s) = 1)); lia. }
  simplify_eq. exists L. split.
  - left. split; [|done]. assert (Hk : take (length P) L = take (length P) P).
    { apply Hlm; [unfold len in *; lia|lia|]. unfold len in Et. rewrite Nat2Z.id in Et.
      by rewrite <- Et, Heq. }
    rewrite (take_ge P) in Hk by lia. rewrite <- Hk. apply take_prefix.
  - unfold rebased at 2. f_equal; [f_equal; congruence|].
    case_decide as Hd; [by rewrite rebased_drop by lia|]. rewrite drop_ge; [done|unfold len in *; lia].
Qed.

Lemma InstallSnapShot_sim t a rf f args rf' r effs :
  Inv n a -> node_rel a t rf -> snap_ok a f args ->
  InstallSnapShot rf args = Ret (rf', r, effs) ->
  exists a', simulated t a rf a' rf' /\ omap (effect_call t) effs = [].
Proof.
  intros I R Hok H. unfold InstallSnapShot in H.
  destruct (Z.ltb_spec (is_Term args) (CurrentTerm rf)) as [|Hge].
  { simplify_eq. exists a. split; [by apply simulated_refl|done]. }
  fold (enterTerm rf (is_Term args)) in H.
  destruct (enterTerm_sim t a rf _ I R Hge) as (a1 & S1 & C1 & HT1 & Hsy).
  destruct (enterTerm_fields rf (is_Term args)) as [Hst Hci].
  destruct (enterTerm rf (is_Term args)) as [rf1 change]; simpl in *.
  assert (Hok1 : snap_ok a1 f args) by (eapply snap_ok_frame; [exact I|apply S1|done]).
  destruct ((is_LastIncludedIndex args <=? SnapshotIndex rf1)
       || (is_LastIncludedIndex args <=? commitIndex rf1)) eqn:Hold.
  { simplify_eq. exists a1. split; [|done]. split; [done|].
    destruct change; (split; [split|]); simpl; auto using core_persist, persistState_synced;
      (split; [unfold cand_same; simpl; by rewrite Hst|simpl; lia]). }
  zbool. apply bind_Ret_inv in H as (size & Hsize & H).
  apply bind_Ret_inv in H as (newLog & Hnew & H). simplify_eq.
  destruct Hok1 as (Hl & P & HP & HlP & HtP & HcP & Hnc). pose proof (nr_snap _ _ _ C1) as Hs.
  unfold logIdxGlobal2Local in *. rewrite (nr_logs _ _ _ C1), <- ?HtP in Hsize, Hnew.
  edestruct (install_log (SnapshotIndex rf1) (is_LastIncludedIndex args)) as (L' & HL' & ->);
    [|exact Hs|done|exact HlP|exact Hsize|exact Hnew|].
  { intros k ? ? ?. apply (log_matching a1); try done; [by apply S1|].
    eapply wf_log_prefix; [exact HP|by apply S1]. }
  assert (HPL := merged_prefix _ _ _ HL').
  destruct (accept_sim t a1 rf1 P L' (is_LastIncludedIndex args)) as (a2 & S2 & C2 & _ & _ & _);
    try done; rewrite ?HT1; try done; [apply S1|congruence| | |].
  - rewrite <- HlP. apply prefix_length in HPL. unfold len. lia.
  - intros Hsafe. replace (take _ L') with P; [by apply HcP|].
    rewrite (prefix_eq_take _ _ HPL) at 1. f_equal. unfold len in *. lia.
  - exists a2. split; [|done]. split; [by eapply sim_trans|]. split; [by apply (save_rel _ _ _ _ C2)|].
    split; [unfold cand_same; simpl; by rewrite Hst|simpl; lia].
Qed.

End Refine.

(** The fields of the relation, as facts about a given peer. *)
Arguments nr_peers {Cmd n safe nocomp a i rf} _.
Arguments nr_me {Cmd n safe nocomp a i rf} _.
Arguments nr_next {Cmd n safe nocomp a i rf} _.
Arguments nr_match {Cmd n safe nocomp a i rf} _.
Arguments nr_term {Cmd n safe nocomp a i rf} _.
Arguments nr_vote {Cmd n safe nocomp a i rf} _.
Arguments nr_snap {Cmd n safe nocomp a i rf} _.
Arguments nr_logs {Cmd n safe nocomp a i rf} _.
Arguments nr_cand {Cmd n safe nocomp a i rf} _.
Arguments nr_lead {Cmd n safe nocomp a i rf} _.
Arguments nr_commit {Cmd n safe nocomp a i rf} _.
Arguments nr_snapc {Cmd n safe nocomp a i rf} _.
Arguments nr_applied {Cmd n safe nocomp a i rf} _.
Arguments nr_acks {Cmd n safe nocomp a i rf} _.
Arguments nr_nocomp {Cmd n safe nocomp a i rf} _.
Arguments rel_node {Cmd GC n safe nocomp a s} _.
Arguments rel_votes {Cmd GC n safe nocomp a s} _.
Arguments rel_calls {Cmd GC n safe nocomp a s} _.
Arguments rel_keys {Cmd GC n safe nocomp a s} _.
Arguments rel_sent {Cmd GC n safe nocomp a s} _.
Arguments rel_logs {Cmd GC n safe nocomp a s} _.
Arguments rel_held {Cmd GC n safe nocomp a s} _.
Arguments fr_vote {Cmd t a a'} _.
Arguments fr_cand {Cmd t a a'} _.
Arguments fr_leader {Cmd t a a'} _.
Arguments fr_LL {Cmd t a a'} _.
Arguments fr_term {Cmd t a a'} _.
Arguments fr_acked {Cmd t a a'} _.
Arguments fr_o_term {Cmd t a a'} _.
Arguments fr_o_log {Cmd t a a'} _.
Arguments fr_o_vote {Cmd t a a'} _.
Arguments fr_o_leader {Cmd t a a'} _.
