(* ===== verification/RaftLead.v ===== *)
(** * Candidates, leaders and the service's side of a peer

    The critical sections of raft.go that are not RPC handlers: elections,
    replication, [Start], [Compact] and the apply daemon, each simulated by the
    protocol of RaftSpec.v under the relation of RaftRefine.v. *)

From stdpp Require Import base functions list list_numbers gmap relations.
From S2P Require Import Prelude Gob RaftNode RaftNodeFacts RaftSpec RaftSystem RaftRefine.
Open Scope Z_scope.

Section Lead.
Context {Cmd : Type} `{GC : Gob Cmd} (n : Z) (safe nocomp : Prop).
Implicit Types a : spec Cmd.
Implicit Types rf : Raft Cmd.
Implicit Types L P : list (LogEntry Cmd).

Local Abbreviation node_core := (RaftRefine.node_core n safe nocomp).
Local Abbreviation node_rel := (RaftRefine.node_rel n safe nocomp).
Local Abbreviation simulated := (RaftRefine.simulated n safe nocomp).
Local Abbreviation sim_step := (RaftRefine.sim_step n).
Local Abbreviation committed_log := (RaftRefine.committed_log n).
Local Abbreviation append_ok := (RaftRefine.append_ok n safe nocomp).
Local Abbreviation snap_ok := (RaftRefine.snap_ok n safe nocomp).

(** ** Compact *)
Lemma compact_core a t rf idx :
  node_core a t rf -> ~ nocomp -> SnapshotIndex rf < idx <= len (log a t) ->
  (safe -> idx <= commitIndex rf) ->
  node_core a t (set_SnapshotIndex idx (set_Logs (rebased idx (log a t)) rf)).
Proof.
  intros [] Hnc Hidx Hc. split; simpl; auto; try done; [lia|].
  intros Hs. destruct (nr_commit Hs) as [_ [E|(u & k & ? & ? & HL)]].
  - left. apply (f_equal (take (Z.to_nat idx))) in E. specialize (Hc Hs).
    rewrite take_take, take_nil, Nat.min_l in E by lia. done.
  - right. exists u, k. split_and!; [done|done|]. etrans; [|exact HL]. specialize (Hc Hs).
    apply take_prefix_le. lia.
Qed.

Lemma Compact_sim a t rf idx snap rf' :
  Inv n a -> node_rel a t rf -> ~ nocomp -> (safe -> idx <= commitIndex rf) ->
  Compact rf idx snap = Ret rf' -> simulated t a rf a rf'.
Proof.
  intros I R Hnc Hc H. unfold Compact in H.
  destruct (Z.leb_spec idx (SnapshotIndex rf)) as [|Hlt].
  { simplify_eq. by apply simulated_refl. }
  destruct (Z.leb_spec (len (Logs rf)) (logIdxGlobal2Local rf idx)) as [|Hin].
  { simplify_eq. by apply simulated_refl. }
  apply bind_Ret_inv in H as (e & He & H). apply bind_Ret_inv in H as (newLog & Hnew & H).
  simplify_eq. destruct R as [C Sy]. unfold logIdxGlobal2Local in *.
  pose proof (nr_snap C) as Hs. rewrite (nr_logs C) in Hin, He, Hnew.
  rewrite len_rebased in Hin, Hnew by done. rewrite max_spec in Hnew.
  apply rebased_get in He as (_ & Hle & Et); [|done].
  replace (SnapshotIndex rf + (idx - SnapshotIndex rf)) with idx in * by lia.
  rewrite rebaseLog_spec in Hnew.
  2:{ rewrite len_rebased by done. destruct (decide (idx = len (log a t))); lia. }
  assert (newLog = rebased idx (log a t)) as ->.
  { simplify_eq. unfold rebased at 2. f_equal; [by rewrite Et|].
    case_decide; [apply rebased_drop; lia|]. rewrite drop_ge; [done|unfold len in *; lia]. }
  split; [by apply sim_refl|]. split; [|split; [done|simpl; lia]].
  apply (save_rel n safe nocomp a t (set_SnapshotIndex idx (set_Logs _ rf))).
  by apply compact_core.
Qed.

(** ** Elections *)

(** A candidate's vote request states its log. *)
Lemma broadCastVote_sim a t rf rf' effs :
  Inv n a -> node_rel a t rf -> 0 <= t -> broadCastVote rf = Ret (rf', effs) ->
  (rf' = rf /\ effs = []) \/
  exists a' args, sim_step t a a' /\ node_rel a' t rf' /\ commitIndex rf' = commitIndex rf /\
    voteCount rf' = 1 /\ term a' t = term a t + 1 /\ cand_ok a' t args /\
    rv_Term args = term a' t /\ vote a' (term a' t, t) = Some t /\
    effs = (fun i => GoSendRequestVote args i) <$> otherPeers rf.
Proof.
  intros I [C Sy] Ht H. unfold broadCastVote in H. case_decide as Hst; [left; by simplify_eq|right].
  apply bind_Ret_inv in H as (e & He & H). simplify_eq. simpl in *.
  pose proof (core_last _ _ _ _ _ _ _ C He) as [Ee El].
  assert (F := timeout_frame n a t I). eexists. eexists.
  split; [apply sim_once; [done|apply (step_timeout _ _ t)|exact F]|]. simpl.
  rewrite !fn_lookup_insert.
  split; [split; [apply core_persist|apply persistState_synced]|].
  - assert (Hno : leader a (term a t + 1) <> Some t).
    { intros H%(inv_leader_vote _ _ I). apply (inv_vote_term _ _ I) in H. lia. }
    destruct C. split; simpl; rewrite ?fn_lookup_insert; auto; try done; try lia.
    + rewrite nr_me. by rewrite decide_False by lia.
    + intros Hs. destruct (nr_commit Hs). split; [done|].
      eapply committed_log_frame; [exact I|exact F| |done]. lia.
    + intros Hs. eapply committed_log_frame; [exact I|exact F| |by apply nr_snapc]. lia.
    + intros Hn. destruct (nr_nocomp Hn). by split.
  - pose proof (nr_me C) as Eme. pose proof (nr_term C) as Et.
    split_and!; try done; [|simpl; lia].
    unfold cand_ok. simpl. rewrite Eme, Et, !fn_lookup_insert. by split_and!.
Qed.

Lemma becomeLeader_Ret rf rf' :
  length (matchIndex rf) = length (nextIndex rf) -> becomeLeader rf = Ret rf' ->
  let last := logIdxLocal2Global rf (len (Logs rf) - 1) in
  rf' = set_matchIndex (<[Z.to_nat (me rf) := last]> (replicate (length (nextIndex rf)) 0))
    (set_nextIndex (replicate (length (nextIndex rf)) (last + 1)) (set_state LEADER rf)).
Proof.
  intros Hlen H last. unfold becomeLeader in H. rewrite leaderInit_spec in H by (done || lia).
  apply bind_Ret_inv in H as ([next mtch] & E & H). simplify_eq. simpl in *.
  apply bind_Ret_inv in H as (nm & E & H). apply bind_Ret_inv in H as (m' & E' & H).
  apply slice_get_Ret in E as [_ E]. apply lookup_replicate_1 in E as [-> _].
  apply slice_set_Ret in E' as [_ ->]. simplify_eq. do 2 f_equal. unfold last. lia.
Qed.

(** A candidate with a majority leads its term. *)
Lemma elect_sim a t rf rf' Q :
  Inv n a -> node_core a t rf -> state rf = CANDIDATE -> 0 <= t -> quorum n Q ->
  (forall q, q ∈ Q -> vote a (term a t, q) = Some t) -> becomeLeader rf = Ret rf' ->
  exists a', sim_step t a a' /\ node_core a' t rf' /\ commitIndex rf' = commitIndex rf /\
    state rf' = LEADER.
Proof.
  intros I C Hst Ht HQ Hq H. destruct (nr_cand C Hst) as [Hvf Hnl].
  assert (Hlead : leader a (term a t) = None).
  { destruct (leader a (term a t)) as [c|] eqn:E; [|done].
    destruct Hnl. f_equal. by eapply leader_unique_votes. }
  assert (Hself : vote a (term a t, t) = Some t).
  { rewrite (nr_vote C), Hvf. by rewrite decide_False by lia. }
  apply becomeLeader_Ret in H; [|by rewrite (nr_next C), (nr_match C)].
  rewrite (core_len _ _ _ _ _ _ C) in H. subst rf'.
  assert (F := elect_frame n a t I Hlead).
  eexists. split; [apply sim_once; [done|by eapply (step_elect _ _ t Q)|exact F]|].
  split; [|done]. assert (Hold := inv_cand_log _ _ I _ Hself Hlead).
  destruct C. split; simpl; rewrite ?length_insert, ?length_replicate, ?fn_lookup_insert; auto; try done.
  - intros Hs. destruct (nr_commit Hs). split; [done|].
    eapply committed_log_frame; [exact I|exact F| |done]. done.
  - intros Hs. eapply committed_log_frame; [exact I|exact F| |by apply nr_snapc]. done.
  - intros Hs _ j m Hm. assert (Hm' : m = 0 \/ m = len (log a t)).
    { apply list_lookup_insert_Some in Hm as [(? & ? & ?)|(_ & Hm)]; [by right|].
      apply lookup_replicate_1 in Hm as [? _]. by left. }
    split; [unfold len in *; lia|]. intros N HN HNm HtN. exfalso.
    destruct (term_at_Some (log a t) N) as (e & He & Ee); [unfold len in *; lia|].
    assert (Term e < term a t); [|lia]. apply (inv_cand_lt _ _ I _ _ e Hself).
    rewrite <- Hold. by eapply list_elem_of_lookup_2.
  - intros Hn. destruct (nr_nocomp Hn). split; [done|]. intros _ j x [-> _]%lookup_replicate_1.
    unfold len. lia.
Qed.

(** Processing a granted vote adds its sender to the counted votes. *)
Lemma omap_delete_lookup {A B} (f : A -> option B) (l : list A) k x :
  l !! k = Some x -> omap f l ≡ₚ omap f (x :: delete k l).
Proof. intros H. by rewrite (delete_Permutation l k x H) at 1. Qed.

Lemma counted_vote a (cs : list (call Cmd)) k c i T q :
  cs !! k = Some c -> vote_key c = Some (i, q, T) -> NoDup (omap vote_key cs) ->
  q ∈ nodes n -> vote a (T, q) = Some i ->
  Z.of_nat (size (counted n a cs i T)) + 1 <= Z.of_nat (size (counted n a (delete k cs) i T)).
Proof.
  intros Hk Hkey Hnd Hq Hv. pose proof (omap_delete_lookup vote_key _ _ _ Hk) as Hp.
  simpl in Hp. rewrite Hkey in Hp. rewrite Hp in Hnd. apply NoDup_cons in Hnd as [Hnew _].
  assert (q ∉ counted n a cs i T).
  { unfold counted. rewrite elem_of_filter. intros [[_ Hn] _]. apply Hn. rewrite Hp. left. }
  assert (size ({[q]} ∪ counted n a cs i T) = S (size (counted n a cs i T))) as Hsz.
  { rewrite size_union by set_solver. by rewrite size_singleton. }
  assert ({[q]} ∪ counted n a cs i T ⊆ counted n a (delete k cs) i T) as Hsub%subseteq_size.
  { intros x [->%elem_of_singleton|Hx]%elem_of_union; unfold counted in *; apply elem_of_filter.
    - by split_and!.
    - apply elem_of_filter in Hx as [[? Hn] ?]. split_and!; try done. intros Hin. apply Hn.
      rewrite Hp. by right. }
  lia.
Qed.

Lemma counted_quorum a cs i T v :
  0 < n -> n / 2 < v -> v <= Z.of_nat (size (counted n a cs i T)) -> quorum n (counted n a cs i T).
Proof.
  intros Hn Hv Hs. split; [|pose proof (Z.div_mod n 2); pose proof (Z.mod_pos_bound n 2); lia].
  unfold counted. intros x. rewrite elem_of_filter. by intros [_ ?].
Qed.

Lemma cand_same_votes a a' t rf rf' (cs cs' : list (call Cmd)) :
  frame t a a' -> cand_same rf rf' -> votes_ok n a cs t rf ->
  (forall q T, (t, q, T) ∈ omap vote_key cs' -> (t, q, T) ∈ omap vote_key cs) ->
  votes_ok n a' cs' t rf'.
Proof.
  intros F Hc Hv Hcs Hst. destruct (Hc Hst) as (H1 & -> & ->). etrans; [by apply Hv|].
  apply inj_le. eapply counted_mono; [exact F|]. eauto.
Qed.

Lemma keys_delete (cs : list (call Cmd)) k key :
  key ∈ omap vote_key (delete k cs) -> key ∈ omap vote_key cs.
Proof.
  rewrite !list_elem_of_omap. intros (c & Hc & ?). exists c. split; [by eapply delete_elem|done].
Qed.

Lemma sendRequestVoteAndProcess_sim a t rf cs k args server r rf' effs :
  Inv n a -> node_rel a t rf -> votes_ok n a cs t rf -> NoDup (omap vote_key cs) ->
  cs !! k = Some (mkCall t server (RetVote args r)) -> 0 <= t < n -> 0 <= server < n ->
  cand_ok a t args -> granted_ok a t server args r ->
  sendRequestVoteAndProcess rf args server (Some r) = Ret (rf', effs) ->
  exists a', sim_step t a a' /\ node_rel a' t rf' /\ votes_ok n a' (delete k cs) t rf' /\
    (safe -> commitIndex rf <= commitIndex rf') /\ omap (effect_call t) effs = [].
Proof.
  intros I R Hv Hnd Hk Ht Hsv Hc Hg H. unfold sendRequestVoteAndProcess in H.
  assert (Hvd : votes_ok n a (delete k cs) t rf).
  { eapply cand_same_votes; [apply frame_refl|apply cand_same_refl|exact Hv|].
    intros q T. apply keys_delete. }
  destruct (bool_decide (state rf <> CANDIDATE) || (rvr_Term r <? CurrentTerm rf)) eqn:Hst.
  { simplify_eq. exists a. split; [by apply sim_refl|done]. }
  apply orb_false_iff in Hst as [Hst Hge]. apply bool_decide_eq_false, dec_stable in Hst. zbool.
  destruct (Z.ltb_spec (CurrentTerm rf) (rvr_Term r)) as [Hlt|Hle].
  { simplify_eq. destruct (sim_higher_term n safe nocomp t a rf _ I R Hlt) as (a' & S & R' & Hcs & ?).
    exists a'. split_and!; try done; apply S. }
  destruct (rvr_VoteGranted r) eqn:Hgr.
  2:{ simplify_eq. exists a. split; [by apply sim_refl|done]. }
  destruct (Hg Hgr) as [Ert Hvote]. assert (Et : rv_Term args = CurrentTerm rf) by lia.
  destruct R as [C Sy].
  assert (Hcount : voteCount rf + 1 <= Z.of_nat (size (counted n a (delete k cs) t (CurrentTerm rf)))).
  { etrans; [apply Z.add_le_mono_r; by apply Hv|]. eapply counted_vote; try done.
    - unfold vote_key. simpl. by rewrite Et.
    - by apply elem_of_nodes.
    - by rewrite <- Et. }
  assert (C1 : node_core a t (set_voteCount (voteCount rf + 1) rf)) by (destruct C; by split).
  destruct (Z.ltb_spec (peers rf / 2) (voteCount rf + 1)) as [Hmaj|Hmin].
  - rewrite (proj2 (Z.ltb_lt _ _)) in H by done. apply bind_Ret_inv in H as (rf2 & H & E).
    simplify_eq. rewrite (nr_peers C) in Hmaj.
    destruct (elect_sim a t _ rf' (counted n a (delete k cs) t (CurrentTerm rf)) I C1 Hst)
      as (a' & S & C' & Hci & Hld); try done; try lia.
    { eapply counted_quorum; [lia|exact Hmaj|done]. }
    { intros q. unfold counted. rewrite elem_of_filter, <- (nr_term C). by intros [[? _] _]. }
    exists a'. split; [done|]. split; [split; [done|]|].
    { apply becomeLeader_Ret in H as ->; [|simpl; by rewrite (nr_next C), (nr_match C)].
      by eapply synced_ext; [..|exact Sy]. }
    split; [intros Hcd; congruence|]. rewrite Hci. by split.
  - rewrite (proj2 (Z.ltb_ge _ _)) in H by done. simplify_eq. exists a.
    split; [by apply sim_refl|]. split; [split; [done|by eapply synced_ext; [..|exact Sy]]|].
    split; [|done]. intros _. done.
Qed.

(** ** Replication: the leader's bookkeeping *)

(** What an entry of [matchIndex] stands for. *)
Definition ack_ok a (i : Z) (j : nat) (m : Z) : Prop :=
  m <= len (log a i) /\ forall N : nat, (0 < N)%nat -> Z.of_nat N <= m ->
    term_at (log a i) N = term a i ->
    (N <= acked a (term a i, Z.of_nat j))%nat \/ committed n a (term a i) N.

(** A leader updates its view of peer [server]. *)
Lemma update_view a t rf server x m :
  node_core a t rf -> 0 <= server ->
  (safe -> state rf = LEADER -> ack_ok a t (Z.to_nat server) m) ->
  (nocomp -> state rf = LEADER -> 1 <= x <= len (log a t) + 1) ->
  node_core a t (set_matchIndex (<[Z.to_nat server := m]> (matchIndex rf))
    (set_nextIndex (<[Z.to_nat server := x]> (nextIndex rf)) rf)).
Proof.
  intros [] Hs Hm Hx. split; simpl; rewrite ?length_insert; auto.
  - intros Hsafe Hl j m' [(<- & <- & _)|(_ & Hj)]%list_lookup_insert_Some; [by apply Hm|by apply nr_acks].
  - intros Hn. destruct (nr_nocomp Hn) as [? Hnx]. split; [done|].
    intros Hl j m' [(<- & <- & _)|(_ & Hj)]%list_lookup_insert_Some; [by apply Hx|by eapply Hnx].
Qed.

(** The peers whose [matchIndex] reaches [N]. *)
Definition matched (mtch : list Z) (N : Z) : gset Z :=
  list_to_set (filter (fun j => N <= default (N - 1) (mtch !! Z.to_nat j))
    (seqZ 0 (len mtch))).

Lemma filter_seqZ_count (mtch : list Z) N (k : nat) :
  length (filter (fun j => N <= default (N - 1) ((replicate k (N - 1) ++ mtch) !! Z.to_nat j))
            (seqZ (Z.of_nat k) (len mtch))) = length (filter (fun x => N <= x) mtch).
Proof.
  revert k. induction mtch as [|m mtch IH]; intros k; [done|].
  unfold len. simpl length at 2. rewrite Nat2Z.inj_succ, seqZ_cons by lia.
  replace (Z.pred (Z.succ (Z.of_nat (length mtch)))) with (len mtch) by (unfold len; lia).
  assert (Hhd : (replicate k (N - 1) ++ m :: mtch) !! Z.to_nat (Z.of_nat k) = Some m).
  { rewrite Nat2Z.id, lookup_app_r, length_replicate, Nat.sub_diag by (rewrite length_replicate; lia). done. }
  assert (Htl : length (filter (fun j => N <= default (N - 1) ((replicate k (N - 1) ++ m :: mtch) !! Z.to_nat j))
    (seqZ (Z.succ (Z.of_nat k)) (len mtch))) = length (filter (fun x => N <= x) mtch)).
  { rewrite <- (IH (S k)). rewrite Nat2Z.inj_succ. f_equal. apply filter_agree.
    intros j Hj%elem_of_seqZ. rewrite !lookup_app_r by (rewrite length_replicate; lia).
    rewrite !length_replicate. replace (Z.to_nat j - k)%nat with (S (Z.to_nat j - S k)) by lia. done. }
  rewrite !filter_cons, Hhd. simpl. case_decide; [|done]. simpl. by rewrite Htl.
Qed.

Lemma size_matched mtch N : Z.of_nat (size (matched mtch N)) = countMatched mtch N.
Proof.
  unfold matched, countMatched, len. rewrite size_list_to_set by apply NoDup_filter, NoDup_seqZ.
  f_equal. exact (filter_seqZ_count mtch N 0).
Qed.

(** The commit rule: a majority of [matchIndex] at an entry of the own term. *)
Lemma majority_commits a t rf N :
  Inv n a -> node_core a t rf -> safe -> state rf = LEADER -> 0 < n -> 0 < N <= len (log a t) ->
  term_at (log a t) (Z.to_nat N) = term a t -> n / 2 < countMatched (matchIndex rf) N ->
  committed n a (term a t) (Z.to_nat N).
Proof.
  intros I C Hs Hl Hn HN HT Hmaj.
  assert (HQ : quorum n (matched (matchIndex rf) N)).
  { split.
    - intros j Hj. apply elem_of_list_to_set, list_elem_of_filter in Hj as [_ Hj%elem_of_seqZ].
      apply elem_of_nodes. unfold len in Hj. rewrite (nr_match C) in Hj. lia.
    - rewrite size_matched. pose proof (Z.div_mod n 2). pose proof (Z.mod_pos_bound n 2). lia. }
  rewrite (inv_leader_log _ _ I _ (nr_lead C Hl)) in HT.
  assert (Hall : forall q, q ∈ matched (matchIndex rf) N ->
    (Z.to_nat N <= acked a (term a t, q))%nat \/ committed n a (term a t) (Z.to_nat N)).
  { intros q Hq. apply elem_of_list_to_set, list_elem_of_filter in Hq as [Hle Hq%elem_of_seqZ].
    destruct (matchIndex rf !! Z.to_nat q) as [m|] eqn:Hm; simpl in Hle; [|lia].
    destruct (nr_acks C Hs Hl _ _ Hm) as [_ Ha]. rewrite Z2Nat.id in Ha by lia.
    apply Ha; [lia|lia|]. by rewrite (inv_leader_log _ _ I _ (nr_lead C Hl)). }
  destruct (decide (set_Forall (fun q => (Z.to_nat N <= acked a (term a t, q))%nat)
    (matched (matchIndex rf) N))) as [Hyes|Hno].
  - split_and!; [done|lia|]. eexists. by split.
  - apply not_set_Forall_Exists in Hno as (q & Hq & Hlt); [|apply _].
    by destruct (Hall q Hq).
Qed.

(** The entries a peer acknowledged in a term are in its leader's log. *)
Lemma ack_of_prefix a t P j :
  Inv n a -> leader a (term a t) = Some t -> P `prefix_of` LL a (term a t) ->
  (length P <= acked a (term a t, Z.of_nat j))%nat -> ack_ok a t j (len P).
Proof.
  intros I Hl HP Hk. rewrite <- (inv_leader_log _ _ I _ Hl) in HP. apply prefix_length in HP.
  split; [unfold len; lia|]. intros N _ HN _. left. unfold len in HN. lia.
Qed.

Lemma processAppendSuccess_sim a t rf P args server rf' :
  Inv n a -> node_core a t rf -> state rf = LEADER -> 0 < n -> 0 <= server ->
  append_args safe nocomp a P args -> ae_Term args = term a t ->
  (safe -> (length P <= acked a (term a t, server))%nat) ->
  processAppendSuccess rf args server = Ret rf' ->
  node_core a t rf' /\ cand_same rf rf' /\ (safe -> commitIndex rf <= commitIndex rf') /\
  (synced rf -> synced rf').
Proof.
  intros I C Hst Hn Hsv [HP Hargs] HT Hack H. unfold processAppendSuccess in H.
  apply bind_Ret_inv in H as (m & Hm & H). case_match eqn:Hlt; zbool.
  2:{ simplify_eq. by split_and!. }
  set (N := ae_PrevLogIndex args + len (ae_Entries args)) in *.
  assert (HN : safe \/ nocomp -> N = len P).
  { intros Hf. destruct Hargs as [(? & E & _)|(_ & _ & _ & ? & ?)]; [|naive_solver].
    subst N. rewrite E. unfold len in *. rewrite length_drop. lia. }
  pose proof (nr_lead C Hst) as Hl. rewrite HT in HP.
  assert (HPl : len P <= len (log a t)).
  { rewrite (inv_leader_log _ _ I _ Hl). apply prefix_length in HP. unfold len. lia. }
  apply bind_Ret_inv in H as (mtch & [_ ->]%slice_set_Ret & H).
  apply bind_Ret_inv in H as (next & [_ ->]%slice_set_Ret & H).
  set (rf1 := set_nextIndex _ _) in H.
  assert (C1 : node_core a t rf1).
  { apply (update_view a t rf server (N + 1) N C Hsv).
    - intros Hs _. rewrite HN by auto. apply ack_of_prefix; try done.
      rewrite Z2Nat.id by lia. by apply Hack.
    - intros Hnc _. rewrite HN by auto. pose proof (len_nonneg P). lia. }
  apply bind_Ret_inv in H as (count & Hcount & H).
  assert (Hsy : synced rf -> synced rf1) by (intros Hsy; by eapply synced_ext; [..|exact Hsy]).
  destruct (Z.ltb_spec (peers rf1 / 2) count) as [Hmaj|].
  2:{ simplify_eq. by split_and!. }
  apply sendCommitCh_Ret in H as ->.
  assert (Hpos : 0 <= peers rf1 / 2). { simpl. rewrite (nr_peers C). by apply Z.div_pos; lia. }
  destruct (Z.ltb_spec (commitIndex rf1) N) as [Hci|]; [|simplify_eq; lia].
  apply bind_Ret_inv in Hcount as (e & He & Hcount). simplify_eq.
  case_match eqn:HeT; [zbool|lia].
  split_and!; try done.
  - apply core_commitCh, commit_core; [done|]. intros Hs.
    unfold logIdxGlobal2Local in He. pose proof (nr_snap C1) as Hsn. rewrite (nr_logs C1) in He.
    apply rebased_get in He as (_ & Hle & Et); [|done].
    replace (SnapshotIndex rf1 + (N - SnapshotIndex rf1)) with N in * by lia.
    destruct (nr_commit C1 Hs) as [Hc0 _].
    split; [lia|]. right. exists (term a t), (Z.to_nat N). split; [done|]. split.
    + apply (majority_commits a t rf1); try done; [lia| |by rewrite <- (nr_peers C1)].
      rewrite <- Et, HeT. apply (nr_term C1).
    + by rewrite (inv_leader_log _ _ I _ Hl).
  - intros _. simpl in *. lia.
Qed.

Lemma sendAppendEntriesAndProcess_sim a t rf P args server r rf' effs :
  Inv n a -> node_rel a t rf -> 0 < n -> 0 <= server -> append_ok a t P args ->
  append_reply_ok safe nocomp a server P args r ->
  sendAppendEntriesAndProcess rf args server (Some r) = Ret (rf', effs) ->
  exists a', simulated t a rf a' rf' /\ omap (effect_call t) effs = [].
Proof.
  intros I R Hn Hsv (Hl & Hargs & _) [Hok Hrej] H. unfold sendAppendEntriesAndProcess in H.
  destruct (bool_decide (state rf <> LEADER) || (aer_Term r <? CurrentTerm rf)) eqn:Hst.
  { simplify_eq. exists a. split; [by apply simulated_refl|done]. }
  apply orb_false_iff in Hst as [Hst Hge]. apply bool_decide_eq_false, dec_stable in Hst. zbool.
  destruct (Z.ltb_spec (CurrentTerm rf) (aer_Term r)) as [Hlt|Hle].
  { simplify_eq. destruct (sim_higher_term n safe nocomp t a rf _ I R Hlt) as (a' & S).
    by exists a'. }
  destruct R as [C Sy]. pose proof (nr_term C) as Et.
  destruct (aer_Success r).
  - apply bind_Ret_inv in H as (rf1 & H & E). simplify_eq. destruct (Hok eq_refl) as [Er Hack].
    assert (HT : ae_Term args = term a t) by lia. rewrite HT in Hack.
    destruct (processAppendSuccess_sim a t rf P args server rf') as (C' & ? & ? & ?); try done.
    exists a. split; [|done]. split; [by apply sim_refl|]. split; [|done]. split; auto.
  - apply bind_Ret_inv in H as (next & [_ ->]%slice_set_Ret & H). simplify_eq.
    exists a. split; [|done]. split; [by apply sim_refl|]. split; [|done].
    split; [|by eapply synced_ext; [..|exact Sy]].
    destruct C. split; simpl; rewrite ?length_insert; auto.
    intros Hnc. destruct (nr_nocomp Hnc) as [? Hnx]. split; [done|].
    intros _ j x [(<- & <- & _)|(_ & Hj)]%list_lookup_insert_Some; [|by eapply Hnx].
    rewrite max_spec. pose proof (len_nonneg (log a t)).
    destruct (Hrej Hnc eq_refl) as [?|[? ?]]; [lia|].
    assert (HT : ae_Term args = term a t) by lia. destruct Hargs as [HP _]. rewrite HT in *.
    rewrite <- (inv_leader_log _ _ I _ Hl) in HP. apply prefix_length in HP. unfold len in *. lia.
Qed.

(** A committed snapshot of an earlier leadership covers only committed entries
    of the current term. *)
Lemma ack_of_snapshot a t P T :
  Inv n a -> leader a (term a t) = Some t -> T <= term a t -> committed_log a T P ->
  forall j, ack_ok a t j (len P).
Proof.
  intros I Hl HT Hc j.
  assert (Hc' : committed_log a (term a t) P).
  { destruct Hc as [->|(u & k & ? & ? & ?)]; [by left|right; exists u, k; split_and!; try done; lia]. }
  assert (HP : P `prefix_of` log a t).
  { rewrite (inv_leader_log _ _ I _ Hl). apply (committed_in_leader n); try done. congruence. }
  pose proof (prefix_length _ _ HP) as Hlen. split; [unfold len; lia|].
  intros N HN HNP HtN. unfold len in HNP. right.
  destruct Hc as [->|(u & k & Hu & (Htk & Hk & Q & HQ & Hq) & HPk)]; [simpl in *; lia|].
  rewrite (term_at_prefix P) in HtN by (done || lia).
  destruct (term_at_Some P N) as (e & He & Ee); [lia|].
  pose proof (prefix_length _ _ HPk) as HlenP. rewrite length_take in HlenP.
  assert (Term e <= u).
  { apply (inv_LL_le _ _ I u). eapply prefix_elem; [apply take_prefix|].
    eapply prefix_elem; [exact HPk|]. by eapply list_elem_of_lookup_2. }
  assert (u = term a t) as -> by lia.
  split_and!; [|done|].
  - rewrite <- HtN at 2. apply term_at_prefix; [|lia]. etrans; [exact HPk|apply take_prefix].
  - exists Q. split; [done|]. intros q Hqq. specialize (Hq q Hqq). lia.
Qed.

Lemma sendSnapShotAndProcess_sim a t rf args server r rf' effs :
  Inv n a -> node_rel a t rf -> 0 <= server -> snap_ok a t args ->
  sendSnapShotAndProcess rf args server (Some r) = Ret (rf', effs) ->
  exists a', simulated t a rf a' rf' /\ omap (effect_call t) effs = [].
Proof.
  intros I R Hsv (Hl & P & HP & HlP & _ & HcP & Hnc) H. unfold sendSnapShotAndProcess in H.
  destruct (bool_decide (state rf <> LEADER) || (isr_Term r <? CurrentTerm rf)) eqn:Hst.
  { simplify_eq. exists a. split; [by apply simulated_refl|done]. }
  apply orb_false_iff in Hst as [Hst Hge]. apply bool_decide_eq_false, dec_stable in Hst. zbool.
  destruct (Z.ltb_spec (CurrentTerm rf) (isr_Term r)) as [Hlt|Hle].
  { simplify_eq. destruct (sim_higher_term n safe nocomp t a rf _ I R Hlt) as (a' & S).
    by exists a'. }
  apply bind_Ret_inv in H as (nx & Hnx & H). case_match.
  2:{ simplify_eq. exists a. split; [by apply simulated_refl|done]. }
  apply bind_Ret_inv in H as (next & [_ ->]%slice_set_Ret & H).
  apply bind_Ret_inv in H as (mtch & [_ ->]%slice_set_Ret & H). simplify_eq.
  destruct R as [C Sy]. exists a. split; [|done]. split; [by apply sim_refl|]. split; [|done].
  split; [|by eapply synced_ext; [..|exact Sy]].
  apply update_view; try done. intros Hs _. rewrite <- HlP.
  apply (ack_of_snapshot a t P (is_Term args)); auto; [by apply (nr_lead C)|].
  apply (inv_leader_vote _ _ I), (inv_vote_term _ _ I) in Hl. lia.
Qed.

(** ** The messages of a leader *)
Lemma checkConsistency_ok a t rf to effs :
  Inv n a -> node_core a t rf -> 0 <= to ->
  (safe -> forall nx, state rf = LEADER -> nextIndex rf !! Z.to_nat to = Some nx ->
     nx - 1 <= logIdxLocal2Global rf (len (Logs rf) - 1)) ->
  checkConsistency rf to = Ret effs ->
  effs = [] \/ (exists args P, effs = [GoSendAppendEntries args to] /\ append_ok a t P args) \/
  (exists args, effs = [GoSendSnapShot args to] /\ snap_ok a t args).
Proof.
  intros I C Hto Hov H. unfold checkConsistency in H. case_decide as Hst; [|left; by simplify_eq].
  right. apply bind_Ret_inv in H as (nx & Hnx & H). apply slice_get_Ret in Hnx as [_ Hnx].
  pose proof (nr_lead C Hst) as Hl. pose proof (inv_leader_log _ _ I _ Hl) as HL.
  pose proof (nr_snap C) as Hsn. pose proof (nr_term C) as Et.
  destruct (Z.ltb_spec (nx - 1) (SnapshotIndex rf)) as [Hlt|Hge].
  - right. apply bind_Ret_inv in H as (e & He & H). simplify_eq. eexists. split; [by rewrite <- (nr_me C)|].
    rewrite (nr_logs C) in He. apply rebased_get in He as (_ & _ & Ee); [|done].
    unfold RaftRefine.snap_ok. simpl. rewrite Et. split; [done|].
    exists (take (Z.to_nat (SnapshotIndex rf)) (log a t)).
    rewrite HL at 1. split; [apply take_prefix|].
    split; [unfold len in *; rewrite length_take; lia|]. split.
    { unfold last_term. rewrite length_take, term_at_take by lia. rewrite Ee. f_equal. unfold len in *. lia. }
    split; [by apply C|]. intros Hnc. destruct (nr_nocomp C Hnc) as [E0 Hx].
    specialize (Hx Hst _ _ Hnx). lia.
  - left. apply bind_Ret_inv in H as (e & He & H). apply bind_Ret_inv in H as (ents & Hents & H).
    simplify_eq. eexists. exists (log a t). split; [by rewrite <- (nr_me C)|].
    rewrite (core_len _ _ _ _ _ _ C) in Hov. unfold logIdxGlobal2Local in *. rewrite min_spec in *.
    apply slice_from_Ret in Hents as [_ ->]. rewrite (nr_logs C), len_rebased in * by done.
    apply rebased_get in He as (_ & _ & Ee); [|done].
    split; [simpl; by rewrite Et|]. split; [split; [simpl; by rewrite Et, HL|]|].
    2:{ simpl. rewrite Et. intros Hs. by apply C. }
    simpl. destruct (decide (nx - 1 <= len (log a t))) as [Hin|Hout]; [left|right].
    + rewrite Z.min_l by lia. split; [lia|]. split; [by apply rebased_drop; lia|].
      rewrite Ee, Z.min_l by lia. do 2 f_equal. lia.
    + rewrite Z.min_r by lia. split; [lia|]. split.
      { apply nil_length_inv. rewrite length_drop. apply Nat.sub_0_le.
        pose proof (len_rebased _ _ Hsn). unfold len in *. lia. }
      split; [rewrite Ee, Z.min_r by lia; unfold last_term; f_equal; unfold len in *; lia|].
      split; [intros Hs; specialize (Hov Hs _ Hst Hnx); lia|].
      intros Hnc. destruct (nr_nocomp C Hnc) as [_ Hx]. specialize (Hx Hst _ _ Hnx). lia.
Qed.

(** ** Start *)
Lemma Start_sim a t rf c rf' ret effs :
  Inv n a -> node_rel a t rf -> 0 <= t -> Start rf c = Ret (rf', ret, effs) ->
  exists a', simulated t a rf a' rf' /\ omap (effect_call t) effs = [].
Proof.
  intros I [C Sy] Ht H. unfold Start in H. case_decide as Hst.
  2:{ simplify_eq. exists a. split; [by apply simulated_refl|done]. }
  apply bind_Ret_inv in H as (next & [_ ->]%slice_set_Ret & H).
  apply bind_Ret_inv in H as (mtch & [_ ->]%slice_set_Ret & H). injection H as <- _ <-.
  pose proof (nr_lead C Hst) as Hl. pose proof (inv_leader_log _ _ I _ Hl) as HL.
  pose proof (nr_snap C) as Hsn. pose proof (nr_term C) as Et. simpl.
  set (e := mkLogEntry _ _ (Some c)).
  assert (F := append_frame n a t e I Hl).
  eexists. split; [|done].
  split; [apply sim_once; [done|by apply (step_append _ _ t e)|exact F]|].
  split; [split; [apply core_persist|apply persistState_synced]|by split].
  assert (Hidx : logIdxLocal2Global (set_Logs (Logs rf ++ [e]) rf) (len (Logs rf ++ [e]) - 1)
    = len (log a t) + 1).
  { unfold logIdxLocal2Global. simpl. rewrite (nr_logs C), len_app, len_rebased by done.
    unfold len at 2. simpl. lia. }
  rewrite Hidx, <- HL. pose proof (len_app (log a t) [e]) as Hla. change (len [e]) with 1 in Hla.
  assert (Hkeep : forall k, k <= len (log a t) -> take (Z.to_nat k) (log a t ++ [e]) = take (Z.to_nat k) (log a t)).
  { intros k Hk. apply take_app_le. unfold len in Hk. lia. }
  destruct C. split; simpl; rewrite ?length_insert, ?fn_lookup_insert, ?Hla; auto; try lia.
  - by rewrite nr_logs, rebased_app.
  - intros Hs. destruct (nr_commit Hs) as [? Hcl]. split; [lia|]. rewrite Hkeep by lia.
    rewrite <- HL in F. eapply committed_log_frame; [exact I|exact F| |exact Hcl]. done.
  - intros Hs. rewrite Hkeep by lia. rewrite <- HL in F.
    eapply committed_log_frame; [exact I|exact F| |by apply nr_snapc]. done.
  - intros Hs _ j m Hm. rewrite nr_me in Hm.
    apply list_lookup_insert_Some in Hm as [(<- & <- & _)|(_ & Hm)].
    + split; [lia|]. intros N HN HNm _. left. rewrite Z2Nat.id by lia. rewrite fn_lookup_insert.
      unfold len in HNm. lia.
    + destruct (nr_acks Hs Hst _ _ Hm) as [Hlm Ha]. split; [lia|]. intros N HN HNm HtN.
      rewrite (term_at_prefix (log a t)) in HtN by ((by apply prefix_app_r) || (unfold len in *; lia)).
      destruct (Ha N HN HNm HtN) as [Hk|Hk]; [left|right].
      * pose proof (fr_acked F (term a t, Z.of_nat j)) as Hm'. simpl in Hm'. rewrite HL. lia.
      * rewrite <- HL in F. by eapply committed_frame; [exact I|exact F|].
  - intros Hnc. destruct (nr_nocomp Hnc) as [? Hx]. split; [done|].
    intros _ j x [(_ & <- & _)|(_ & Hj)]%list_lookup_insert_Some; [pose proof (len_nonneg (log a t)); lia|].
    specialize (Hx Hst _ _ Hj). lia.
Qed.

(** ** The apply daemon *)

(** Every message is a log entry between the last applied and the committed
    one. *)
Lemma applyLoop_spec fuel rf i lst rf' msgs :
  applyLoop fuel rf i lst = Ret (rf', msgs) ->
  (exists x, rf' = set_lastApplied x rf /\ (x = lastApplied rf \/ i <= x <= lst)) /\
  forall m, m ∈ msgs -> exists idx e, m = CommandMsg idx (Command e) /\ i <= idx <= lst /\
    SnapshotIndex rf < idx /\ slice_get (Logs rf) (idx - SnapshotIndex rf) = Ret e.
Proof.
  revert rf i rf' msgs. induction fuel as [|fuel IH]; intros rf i rf' msgs H; simpl in H.
  { simplify_eq. split; [|set_solver]. exists (lastApplied rf'). split; [by destruct rf'|by left]. }
  destruct (Z.leb_spec i lst) as [Hi|Hi].
  2:{ simplify_eq. split; [|set_solver]. exists (lastApplied rf'). split; [by destruct rf'|by left]. }
  destruct (Z.leb_spec i (SnapshotIndex rf)) as [Hs|Hs].
  - destruct (IH _ _ _ _ H) as [(x & -> & Hx) Hm]. split.
    + exists x. split; [done|]. destruct Hx; [by left|right; lia].
    + intros m Hin. destruct (Hm m Hin) as (idx & e & ? & ? & ? & ?). exists idx, e.
      split_and!; try done; lia.
  - apply bind_Ret_inv in H as (e & He & H). apply bind_Ret_inv in H as ([rf1 ms] & H & E).
    simplify_eq. destruct (IH _ _ _ _ H) as [(x & -> & Hx) Hm]. split.
    + exists x. split; [done|]. right. simpl in Hx. destruct Hx; lia.
    + intros m [->|Hin]%elem_of_cons; [exists i, e; by split_and!|].
      destruct (Hm m Hin) as (idx & e' & ? & ? & ? & ?). exists idx, e'. split_and!; try done; lia.
Qed.

Lemma applyLogEntryDaemon_sim a t rf rf' msgs :
  Inv n a -> node_rel a t rf -> applyLogEntryDaemon rf = Ret (rf', msgs) ->
  simulated t a rf a rf' /\ commitIndex rf' = commitIndex rf /\
  forall m, m ∈ msgs -> exists idx c, m = CommandMsg idx c /\ idx <= commitIndex rf /\
    (safe -> record_ok n a (t, idx, c)).
Proof.
  intros I [C Sy] H. apply applyLoop_spec in H as [(x & -> & Hx) Hm]. split_and!.
  - split; [by apply sim_refl|]. split; [|by split]. split; [|by eapply synced_ext; [..|exact Sy]].
    destruct C. split; simpl; auto. intros Hs. destruct (nr_applied Hs). lia.
  - done.
  - intros m Hin. destruct (Hm m Hin) as (idx & e & -> & Hidx & Hsn & He).
    exists idx, (Command e). split; [done|]. split; [lia|]. intros Hs.
    pose proof (nr_snap C) as Hr. rewrite (nr_logs C) in He. apply rebased_get_cmd in He; [|done|lia].
    replace (SnapshotIndex rf + (idx - SnapshotIndex rf) - 1) with (idx - 1) in He by lia.
    destruct (nr_commit C Hs) as [Hc Hcl]. destruct (nr_applied C Hs) as [Ha _].
    assert (Htk : take (Z.to_nat (commitIndex rf)) (log a t) !! Z.to_nat (idx - 1) = Some e).
    { rewrite lookup_take_lt by lia. done. }
    destruct Hcl as [E|(u & k & _ & Hck & Hp)]; [by rewrite E in Htk|].
    pose proof (prefix_length _ _ Hp) as Hlen. rewrite !length_take in Hlen.
    exists u, k, e. unfold len in *. split_and!; simpl; try done; try lia.
    eapply prefix_lookup_l; [apply (take_prefix _ k)|]. by eapply prefix_lookup_l.
Qed.

(** ** Restarting *)
Lemma boot_rel a t rf :
  Inv n a -> node_rel a t rf -> 0 <= n ->
  node_rel a t (nd_raft (boot n t (persister rf))) /\
  state (nd_raft (boot n t (persister rf))) = FOLLOWER /\
  nd_applyCh (boot n t (persister rf)) = notifyAppUseNewSnapShot (snapshot (persister rf)).
Proof.
  intros I [C (E1 & E2 & E3 & E4)] Hn. unfold boot, Make. simpl.
  rewrite (nr_peers C), (nr_me C) in *. unfold Copy. replace (mkPersister _ _) with (persister rf) by (by destruct (persister rf)).
  destruct (dePersistState_static (initRaft n t (persister rf))) as
    (H1 & H2 & H3 & H4 & H5 & H6 & H7 & H8 & H9).
  set (rb := dePersistState (initRaft n t (persister rf))) in *. simpl in *.
  split_and!; [split|done|by rewrite H3].
  - destruct C. split; rewrite ?H1, ?H2, ?H4, ?H5, ?H6, ?H7, ?H8, ?E1, ?E2, ?E3, ?E4, ?length_replicate; auto; try done.
    + intros Hs. split; [pose proof (len_nonneg (log a t)); lia|by left].
    + intros Hnc. destruct (nr_nocomp Hnc). by split.
  - unfold synced. rewrite H1, H2, H3. by fold rb.
Qed.

End Lead.
