(* ===== verification/RaftSim.v ===== *)
(** * Every event of the cluster is simulated

    The critical sections (RaftRefine.v, RaftLead.v) put together: [exec_sim]
    simulates one event of the cluster, [reach_sim] an execution. *)

From stdpp Require Import base functions list list_numbers gmap relations.
From S2P Require Import Prelude Gob RaftNode RaftNodeFacts RaftSpec RaftSystem RaftRefine RaftLead.
Open Scope Z_scope.

Section Sim.
Context {Cmd : Type} `{GC : Gob Cmd} (n : Z) (safe nocomp : Prop).
Implicit Types a : spec Cmd.
Implicit Types rf : Raft Cmd.
Implicit Types s : sys Cmd.

Local Abbreviation node_rel := (RaftRefine.node_rel n safe nocomp).
Local Abbreviation simulated := (RaftRefine.simulated n safe nocomp).
Local Abbreviation sim_step := (RaftRefine.sim_step n).
Local Abbreviation call_ok := (RaftRefine.call_ok n safe nocomp).
Local Abbreviation rel := (RaftRefine.rel n safe nocomp).
Local Abbreviation keys := (omap (vote_key (Cmd := Cmd))).

(** What an update of peer [t] has to establish. *)
Lemma rel_update t a a' s s' :
  Inv n a -> rel a s -> sim_step t a a' ->
  (forall i, i <> t -> sys_nodes s' i = sys_nodes s i) ->
  node_rel a' t (raft_of s' t) -> votes_ok n a' (sys_calls s') t (raft_of s' t) ->
  (forall c, c ∈ sys_calls s' -> c ∈ sys_calls s \/ call_ok a' c) ->
  NoDup (keys (sys_calls s')) ->
  (forall i q T, i <> t -> (i, q, T) ∈ keys (sys_calls s') -> (i, q, T) ∈ keys (sys_calls s)) ->
  (safe -> forall idx c, CommandMsg idx c ∈ nd_applyCh (sys_nodes s' t) ->
     idx <= commitIndex (raft_of s' t)) ->
  (safe -> forall r, r ∈ sys_logs s' -> r ∈ sys_logs s \/ record_ok n a' r) ->
  (forall b c, (b, c) ∈ nd_notify (sys_nodes s' t) ->
     (b, c) ∈ nd_notify (sys_nodes s t) \/ (call_ok a' c /\ is_retsnap c)) ->
  rel a' s'.
Proof.
  intros I R (_ & _ & F) Hoth Hnode Hvotes Hcalls Hnd Hkeys Hsent Hlogs Hheld. split.
  - intros i Hi. destruct (decide (i = t)) as [->|Hne]; [done|].
    destruct (rel_node R i Hi) as [C Sy]. unfold raft_of. rewrite Hoth by done.
    split; [by eapply node_core_other|done].
  - intros i Hi. destruct (decide (i = t)) as [->|Hne]; [done|].
    unfold raft_of. rewrite Hoth by done. intros Hst. etrans; [by apply (rel_votes R i Hi)|].
    apply inj_le. eapply counted_mono; [exact F|]. intros q. by apply Hkeys.
  - intros c Hc. destruct (Hcalls c Hc) as [Hin|?]; [|done].
    eapply call_ok_frame; [exact I|exact F|by apply (rel_calls R)].
  - done.
  - intros i idx c Hi Hs. destruct (decide (i = t)) as [->|Hne]; [by apply Hsent|].
    unfold raft_of. rewrite Hoth by done. by apply (rel_sent R).
  - intros r Hs Hr. destruct (Hlogs Hs r Hr) as [?|?]; [|done].
    eapply record_ok_frame; [exact I|exact F|by apply (rel_logs R)].
  - intros i b c Hi Hin.
    assert (Hin' : (b, c) ∈ nd_notify (sys_nodes s i) \/ (call_ok a' c /\ is_retsnap c)).
    { destruct (decide (i = t)) as [->|Hne]; [by apply Hheld|]. rewrite Hoth in Hin by done. by left. }
    destruct Hin' as [Hin'|?]; [|done]. destruct (rel_held R i b c Hi Hin') as [Hok ?].
    split; [by eapply call_ok_frame|done].
Qed.

(** A section of peer [t] that sends no vote requests and leaves the handlers [hs]. *)
Lemma rel_install t a a' s cs rf effs hs :
  Inv n a -> rel a s -> 0 <= t < n -> simulated t a (raft_of s t) a' rf ->
  (forall c, c ∈ cs -> c ∈ sys_calls s \/ call_ok a' c) ->
  (forall e c, e ∈ effs -> effect_call t e = Some c -> call_ok a' c /\ vote_key c = None) ->
  NoDup (keys cs) -> (forall key, key ∈ keys cs -> key ∈ keys (sys_calls s)) ->
  (forall b c, (b, c) ∈ hs -> (b, c) ∈ nd_notify (sys_nodes s t) \/ (call_ok a' c /\ is_retsnap c)) ->
  rel a' (put_node (with_calls s cs) t rf effs hs).
Proof.
  intros I R Ht (S & Hn & Hcs & Hci) Hcalls Heffs Hnd Hkeys Hheld.
  assert (Ek : keys (cs ++ omap (effect_call t) effs) = keys cs).
  { rewrite omap_app. rewrite <- (app_nil_r (keys cs)) at 2. f_equal. clear -Heffs.
    induction effs as [|e effs IH]; simpl; [done|].
    destruct (effect_call t e) as [c|] eqn:E; simpl.
    - destruct (Heffs e c) as [_ ->]; [by left|done|]. apply IH. intros; eapply Heffs; [by right|done].
    - apply IH. intros; eapply Heffs; [by right|done]. }
  eapply (rel_update t); try done; simpl.
  - intros i Hi. by rewrite fn_lookup_insert_ne.
  - unfold raft_of. simpl. by rewrite fn_lookup_insert.
  - unfold raft_of. simpl. rewrite fn_lookup_insert. simpl.
    eapply cand_same_votes; [apply S|exact Hcs|by apply (rel_votes R)|].
    intros q T. rewrite Ek. apply Hkeys.
  - intros c [Hc|(e & He & Hc)%list_elem_of_omap]%elem_of_app; [by apply Hcalls|].
    right. by eapply Heffs.
  - by rewrite Ek.
  - intros i q T _. rewrite Ek. apply Hkeys.
  - intros Hs idx c. unfold raft_of. simpl. rewrite fn_lookup_insert. simpl. intros Hin.
    etrans; [by eapply (rel_sent R)|by apply Hci].
  - intros _ r Hr. by left.
  - by rewrite fn_lookup_insert.
Qed.

(** A section of peer [t] that sends no vote requests. *)
Lemma rel_section t a a' s cs rf effs :
  Inv n a -> rel a s -> 0 <= t < n -> simulated t a (raft_of s t) a' rf ->
  (forall c, c ∈ cs -> c ∈ sys_calls s \/ call_ok a' c) ->
  (forall e c, e ∈ effs -> effect_call t e = Some c -> call_ok a' c /\ vote_key c = None) ->
  NoDup (keys cs) -> (forall key, key ∈ keys cs -> key ∈ keys (sys_calls s)) ->
  rel a' (put_raft (with_calls s cs) t rf effs).
Proof. intros. eapply rel_install; try done. by left. Qed.

Lemma put_with_calls s t rf effs :
  put_raft s t rf effs = put_raft (with_calls s (sys_calls s)) t rf effs.
Proof. done. Qed.

Lemma no_calls {e : effect Cmd} {t effs c} :
  omap (effect_call t) effs = [] -> e ∈ effs -> effect_call t e = Some c -> False.
Proof.
  intros H He Hc. assert (c ∈ omap (effect_call t) effs) by (apply list_elem_of_omap; eauto).
  rewrite H in *. set_solver.
Qed.

(** A crash is a restart from the persister. *)
Lemma crash_rel t a s cs :
  Inv n a -> rel a s -> 0 <= t < n ->
  (forall c, c ∈ cs -> c ∈ sys_calls s) -> NoDup (keys cs) ->
  (forall key, key ∈ keys cs -> key ∈ keys (sys_calls s)) ->
  rel a (crash n (with_calls s cs) t).
Proof.
  intros I R Ht Hcs Hnd Hkeys.
  destruct (boot_rel n safe nocomp a t (raft_of s t)) as (Hb & Hst & Hch); [done|by apply R|lia|].
  assert (Hat : sys_nodes (crash n (with_calls s cs) t) t = boot n t (persister (raft_of s t)))
    by apply fn_lookup_insert.
  apply (rel_update t a a s _ I R (sim_refl n t a I)); unfold raft_of; rewrite ?Hat; try done.
  - intros i Hi. simpl. by rewrite fn_lookup_insert_ne.
  - intros Hc. congruence.
  - intros c Hc. left. by apply Hcs.
  - intros i q T _. apply Hkeys.
  - intros _ idx c. rewrite Hch. unfold notifyAppUseNewSnapShot. case_decide; set_solver.
  - intros _ r Hr. by left.
  - intros b c Hin. by apply not_elem_of_nil in Hin.
Qed.

(** ** The calls in flight *)
Lemma keys_delete_NoDup (cs : list (call Cmd)) k c :
  cs !! k = Some c -> NoDup (keys cs) -> NoDup (keys (delete k cs)).
Proof.
  intros Hk. rewrite (omap_delete_lookup vote_key _ _ _ Hk). simpl. case_match; [|done].
  by intros [_ ?]%NoDup_cons.
Qed.

(** A request that becomes its reply keeps its key. *)
Lemma keys_insert (cs : list (call Cmd)) k c c' :
  cs !! k = Some c -> vote_key c' = vote_key c -> keys (<[k := c']> cs) = keys cs.
Proof.
  revert k. induction cs as [|x cs IH]; intros [|k]; simpl; intros Hk E; try done; simplify_eq/=.
  - by rewrite E.
  - destruct (vote_key x); simpl; [f_equal|]; exact (IH k Hk E).
Qed.

(** ** Events *)

Definition stepped a s' : Prop := exists a', rtc (spec_step n) a a' /\ Inv n a' /\ rel a' s'.

Lemma stepped_intro t a a' s' : sim_step t a a' -> rel a' s' -> stepped a s'.
Proof. intros (? & ? & _) R. exists a'. by split_and!. Qed.

(** A request was executed and its reply is on its way. *)
Lemma replied t a a' s k c c' rf effs :
  Inv n a -> rel a s -> 0 <= t < n -> simulated t a (raft_of s t) a' rf ->
  sys_calls s !! k = Some c -> vote_key c' = vote_key c -> call_ok a' c' ->
  omap (effect_call t) effs = [] ->
  stepped a (put_raft (with_calls s (<[k := c']> (sys_calls s))) t rf effs).
Proof.
  intros I R Ht Hsim Hk Ekey Hok Heffs. eapply stepped_intro; [apply Hsim|].
  eapply rel_section; try done.
  - intros x Hx. apply list_elem_of_lookup in Hx as [j Hj].
    apply list_lookup_insert_Some in Hj as [(_ & <- & _)|(_ & Hj)]; [by right|].
    left. by eapply list_elem_of_lookup_2.
  - intros e x He Hx. exfalso. exact (no_calls Heffs He Hx).
  - erewrite keys_insert by done. by apply (rel_keys R).
  - intros key. by erewrite keys_insert.
Qed.

(** A snapshot was installed, or refused; the handler returns when it has sent it. *)
Lemma installed a a' s k c args r rf effs :
  Inv n a -> rel a s -> 0 <= c_to c < n -> simulated (c_to c) a (raft_of s (c_to c)) a' rf ->
  sys_calls s !! k = Some c -> vote_key c = None ->
  let c' := mkCall (c_from c) (c_to c) (RetSnap args r) in
  call_ok a' c' -> omap (effect_call (c_to c)) effs = [] -> stepped a (put_install s k rf effs c').
Proof.
  intros I R Ht Hsim Hk Ekey c' Hok Heffs. unfold put_install.
  destruct (omap (effect_notify c') effs) as [|h hs] eqn:Eh; [by eapply replied|]. rewrite <- Eh.
  eapply stepped_intro; [apply Hsim|]. eapply rel_install; try done.
  - intros x Hx. left. by eapply delete_elem.
  - intros e x He Hx. exfalso. exact (no_calls Heffs He Hx).
  - eapply keys_delete_NoDup; [done|apply (rel_keys R)].
  - intros key. apply keys_delete.
  - intros b x [Hin|(e & _ & He)%list_elem_of_omap]%elem_of_app; [by left|right].
    destruct e; simpl in He; simplify_eq. split; [done|]. by exists args, r.
Qed.

Lemma lost t a s k c :
  Inv n a -> rel a s -> 0 <= t < n -> sys_calls s !! k = Some c ->
  stepped a (crash n (with_calls s (delete k (sys_calls s))) t).
Proof.
  intros I R Ht Hk. exists a. split; [done|]. split; [done|]. apply crash_rel; try done.
  - intros x. apply delete_elem.
  - eapply keys_delete_NoDup; [done|apply (rel_keys R)].
  - intros key. apply keys_delete.
Qed.

Lemma deliver_sim a s k c s' :
  Inv n a -> rel a s -> sys_calls s !! k = Some c -> deliver n s k c = Some s' -> stepped a s'.
Proof.
  intros I R Hk H.
  destruct (rel_calls R c) as (Hf & Ht & Hne & Hok); [by eapply list_elem_of_lookup_2|].
  destruct c as [f t r]. simpl in *. unfold deliver in H. simpl in H.
  assert (Rt := rel_node R t Ht).
  destruct r as [args| |args| |args| ]; try done; simpl in Hok.
  - destruct (RequestVote (raft_of s t) args) as [[[rf r] effs]| |] eqn:E; simplify_eq;
      [|by eapply lost].
    destruct (RequestVote_sim _ _ _ _ _ _ _ _ _ _ _ I Rt (proj1 Ht) (proj1 Hf) Hok E)
      as (a' & Hsim & Hg & He).
    eapply replied; try done. split_and!; simpl; try done; try lia.
    split; [|done]. eapply cand_ok_frame; [apply Hsim|done].
  - destruct Hok as [P Hok].
    destruct (AppendEntries (raft_of s t) args) as [[[rf r] effs]| |] eqn:E; simplify_eq;
      [|by eapply lost].
    destruct (AppendEntries_sim _ _ _ _ _ _ _ _ _ _ _ _ I Rt Hok E) as (a' & Hsim & Hr & He).
    eapply replied; try done. split_and!; simpl; try done; try lia.
    exists P. split; [|done]. eapply append_ok_frame; [exact I|apply Hsim|done].
  - destruct (InstallSnapShot (raft_of s t) args) as [[[rf r] effs]| |] eqn:E; simplify_eq;
      [|by eapply lost].
    destruct (InstallSnapShot_sim _ _ _ _ _ _ _ _ _ _ _ I Rt Hok E) as (a' & Hsim & He).
    eapply (installed a a' s k (mkCall f t (CallSnap args))); try done. split_and!; simpl; try done; try lia.
    eapply snap_ok_frame; [exact I|apply Hsim|done].
Qed.

(** A section that ran with calls [cs] left in flight. *)
Lemma handled t a s k c o s' :
  Inv n a -> rel a s -> 0 <= t < n -> sys_calls s !! k = Some c ->
  (forall rf effs, o = Ret (rf, effs) ->
     exists a', simulated t a (raft_of s t) a' rf /\ omap (effect_call t) effs = []) ->
  handle n (with_calls s (delete k (sys_calls s))) t o = Some s' -> stepped a s'.
Proof.
  intros I R Ht Hk Ho H. destruct o as [[rf effs]| |]; simpl in H; simplify_eq; [|by eapply lost].
  destruct (Ho rf effs eq_refl) as (a' & Hsim & He).
  eapply stepped_intro; [apply Hsim|]. eapply rel_section; try done.
  - intros x Hx. left. by eapply delete_elem.
  - intros e x Hin Hx. exfalso. exact (no_calls He Hin Hx).
  - eapply keys_delete_NoDup; [done|apply (rel_keys R)].
  - intros key. apply keys_delete.
Qed.

Lemma reply_sim a s k c s' :
  Inv n a -> rel a s -> sys_calls s !! k = Some c -> reply n s k c = Some s' -> stepped a s'.
Proof.
  intros I R Hk H.
  destruct (rel_calls R c) as (Hf & Ht & Hne & Hok); [by eapply list_elem_of_lookup_2|].
  destruct c as [f t r]. simpl in *. unfold reply in H. cbn [c_rpc c_from c_to] in H.
  assert (Rf := rel_node R f Hf).
  destruct r as [|args r| |args r| |args r]; try done; simpl in Hok.
  - destruct (sendRequestVoteAndProcess (raft_of s f) args t (Some r)) as [[rf effs]| |] eqn:E;
      simpl in H; simplify_eq; [|by eapply lost].
    destruct Hok as [Hc Hg].
    destruct (sendRequestVoteAndProcess_sim n safe nocomp a f (raft_of s f) (sys_calls s) k args t r rf effs)
      as (a' & S & Hn & Hv & Hci & He); try done; [by apply R..|].
    eapply stepped_intro; [exact S|]. eapply (rel_update f); try done; simpl; rewrite ?He, ?app_nil_r.
    + intros i Hi. by rewrite fn_lookup_insert_ne.
    + unfold raft_of. simpl. by rewrite fn_lookup_insert.
    + unfold raft_of. simpl. by rewrite fn_lookup_insert.
    + intros x Hx. left. by eapply delete_elem.
    + eapply keys_delete_NoDup; [done|apply (rel_keys R)].
    + intros i q T _. apply keys_delete.
    + intros Hs idx c. unfold raft_of. simpl. rewrite fn_lookup_insert. simpl. intros Hin.
      etrans; [by eapply (rel_sent R f)|by apply Hci].
    + intros _ x Hx. by left.
    + rewrite fn_lookup_insert. by left.
  - destruct Hok as (P & Hok & Hr). eapply (handled f); try done. intros rf effs E.
    apply (sendAppendEntriesAndProcess_sim n safe nocomp a f _ P args t r); try done; lia.
  - eapply (handled f); try done. intros rf effs E.
    apply (sendSnapShotAndProcess_sim n safe nocomp a f _ args t r); try done; lia.
Qed.

(** A section peer [t] runs on its own. *)
Lemma local_step t a s o s' :
  Inv n a -> rel a s -> 0 <= t < n ->
  (forall rf effs, o = Ret (rf, effs) -> exists a', simulated t a (raft_of s t) a' rf /\
     forall e c, e ∈ effs -> effect_call t e = Some c -> call_ok a' c /\ vote_key c = None) ->
  handle n s t o = Some s' -> stepped a s'.
Proof.
  intros I R Ht Ho H. destruct o as [[rf effs]| |]; simpl in H; simplify_eq.
  - destruct (Ho rf effs eq_refl) as (a' & Hsim & He).
    eapply stepped_intro; [apply Hsim|]. rewrite put_with_calls.
    eapply rel_section; try done; [by left|apply (rel_keys R)].
  - exists a. split; [done|]. split; [done|]. replace s with (with_calls s (sys_calls s)) at 1.
    + apply crash_rel; try done. apply (rel_keys R).
    + by destruct s.
Qed.

(** The vote requests of a new candidate. *)
Lemma vote_calls rf t args :
  omap (effect_call (Cmd := Cmd) t) ((fun i => GoSendRequestVote args i) <$> otherPeers rf) =
  (fun i => mkCall t i (CallVote args)) <$> otherPeers rf.
Proof. induction (otherPeers rf) as [|x l IH]; [done|]. simpl. f_equal. exact IH. Qed.

Lemma vote_calls_keys t args (l : list Z) :
  keys ((fun i => mkCall t i (CallVote args)) <$> l) = (fun i => (t, i, rv_Term args)) <$> l.
Proof. induction l as [|x l IH]; [done|]. simpl. f_equal. exact IH. Qed.

Lemma fresh_key a s t q T :
  Inv n a -> rel a s -> term a t < T -> (t, q, T) ∉ keys (sys_calls s).
Proof.
  intros I R HT (c & Hc & Hk)%list_elem_of_omap. destruct (rel_calls R c Hc) as (_ & _ & _ & Hok).
  assert (Hv : vote a (T, t) = Some t).
  { destruct c as [f u []]; unfold vote_key in Hk; simpl in *; simplify_eq/=;
      [apply Hok|apply (proj1 Hok)]. }
  apply (inv_vote_term _ _ I) in Hv. lia.
Qed.

Lemma timeout_sim t a s s' :
  Inv n a -> rel a s -> 0 <= t < n -> handle n s t (broadCastVote (raft_of s t)) = Some s' ->
  stepped a s'.
Proof.
  intros I R Ht H. pose proof (rel_node R t Ht) as Rt.
  destruct (broadCastVote (raft_of s t)) as [[rf effs]| |] eqn:E.
  2,3: eapply local_step; [exact I|exact R|exact Ht| |exact H]; by intros.
  destruct (broadCastVote_sim _ _ _ _ _ _ _ _ I Rt (proj1 Ht) E)
    as [[-> ->]|(a' & args & S & Hn & Hci & Hvc & HT & Hc & HaT & Hself & ->)].
  { eapply local_step; [exact I|exact R|exact Ht| |exact H]. intros rf effs Eq. simplify_eq.
    exists a. split; [by apply simulated_refl|set_solver]. }
  simpl in H. simplify_eq. eapply stepped_intro; [exact S|].
  assert (Hme : me (raft_of s t) = t) by apply Rt.
  assert (Hp : peers (raft_of s t) = n) by apply Rt.
  assert (Hoth : forall i, i ∈ otherPeers (raft_of s t) -> 0 <= i < n /\ i <> t).
  { intros i. unfold otherPeers. rewrite Hme, Hp, list_elem_of_filter, elem_of_seqZ. lia. }
  assert (Hfresh : forall q, (t, q, term a' t) ∉ keys (sys_calls s)).
  { intros q. apply (fresh_key a); try done. lia. }
  eapply (rel_update t); try done; unfold raft_of in *; simpl;
    rewrite ?vote_calls, ?omap_app, ?vote_calls_keys.
  - intros i Hi. by rewrite fn_lookup_insert_ne.
  - by rewrite fn_lookup_insert.
  - rewrite fn_lookup_insert. simpl. intros _. rewrite Hvc.
    assert (t ∈ counted n a' (sys_calls s ++ ((fun i => mkCall t i (CallVote args)) <$>
      otherPeers (nd_raft (sys_nodes s t)))) t (CurrentTerm rf)) as Hin.
    { unfold counted. destruct Hn as [C _]. rewrite (nr_term C).
      apply elem_of_filter. split; [split; [done|]|by apply elem_of_nodes].
      rewrite omap_app, vote_calls_keys. intros [?|(i & Ei & Hi)%list_elem_of_fmap]%elem_of_app;
        [by eapply Hfresh|]. apply Hoth in Hi. naive_solver. }
    apply elem_of_subseteq_singleton, subseteq_size in Hin. rewrite size_singleton in Hin. lia.
  - intros c [Hin|(i & -> & Hi)%list_elem_of_fmap]%elem_of_app; [by left|right].
    apply Hoth in Hi. split_and!; simpl; try done; try lia.
  - apply NoDup_app. split; [apply (rel_keys R)|]. split.
    + intros key Hk (i & -> & Hi)%list_elem_of_fmap. rewrite HaT in Hk. by eapply Hfresh.
    + apply NoDup_fmap; [intros ? ?; naive_solver|]. apply NoDup_filter, NoDup_seqZ.
  - intros i q T Hi [?|(j & ? & Hj)%list_elem_of_fmap]%elem_of_app; [done|naive_solver].
  - intros Hs idx c. rewrite fn_lookup_insert. simpl. intros Hin.
    rewrite Hci. by eapply (rel_sent R).
  - intros _ x Hx. by left.
  - rewrite fn_lookup_insert. by left.
Qed.

(** A section that changes neither the calls in flight, except by replies to
    snapshots, nor, except by committed commands, what was applied. *)
Lemma quiet_step t a a' s rf msgs (msgs' : list (ApplyMsg Cmd)) nt w back :
  Inv n a -> rel a s -> 0 <= t < n -> simulated t a (raft_of s t) a' rf ->
  (forall idx c, safe -> CommandMsg idx c ∈ msgs -> idx <= commitIndex rf) ->
  (forall m r, safe -> m ∈ msgs' -> log_record t m = Some r -> record_ok n a' r) ->
  (forall h, h ∈ nt -> h ∈ nd_notify (sys_nodes s t)) ->
  (forall c, c ∈ back -> call_ok a' c /\ vote_key c = None) ->
  stepped a (mkSys (<[t := mkNode rf (nd_applyCh (sys_nodes s t) ++ msgs) nt w]> (sys_nodes s))
    (sys_calls s ++ back) (sys_logs s ++ omap (log_record t) msgs')).
Proof.
  intros I R Ht (S & Hn & Hcs & Hci) Hidx Hrec Hnt Hback.
  assert (Ek : keys (sys_calls s ++ back) = keys (sys_calls s)).
  { rewrite omap_app. rewrite <- (app_nil_r (keys (sys_calls s))) at 2. f_equal. clear -Hback.
    induction back as [|c cs IH]; [done|]. simpl. destruct (Hback c) as [_ ->]; [by left|].
    apply IH. intros x Hx. apply Hback. by right. }
  eapply stepped_intro; [exact S|].
  eapply (rel_update t); try done; unfold raft_of in *; simpl; rewrite ?Ek.
  - intros i Hi. by rewrite fn_lookup_insert_ne.
  - by rewrite fn_lookup_insert.
  - rewrite fn_lookup_insert. simpl.
    eapply cand_same_votes; [apply S|exact Hcs|by apply (rel_votes R)|]. intros q T. by rewrite Ek.
  - intros c [Hc|Hc]%elem_of_app; [by left|right; by apply Hback].
  - apply (rel_keys R).
  - done.
  - intros Hs idx c. rewrite fn_lookup_insert. simpl. intros [Hin|Hin]%elem_of_app.
    + etrans; [by eapply (rel_sent R)|by apply Hci].
    + by eapply Hidx.
  - intros Hs r [Hin|(m & Hm & Hr)%list_elem_of_omap]%elem_of_app; [by left|right; by eapply Hrec].
  - rewrite fn_lookup_insert. simpl. intros b c Hin. left. by apply Hnt.
Qed.

Lemma apply_sim t a s s' :
  Inv n a -> rel a s -> 0 <= t < n -> nd_woken (sys_nodes s t) = true ->
  exec n s (EvApply t) = Some s' -> stepped a s'.
Proof.
  intros I R Ht Hw H. pose proof (rel_node R t Ht) as Rt. unfold exec in H.
  assert (is_peer n t = true) as Hp by (unfold is_peer; lia). rewrite Hp, Hw in H. cbn [andb] in H.
  destruct (applyLogEntryDaemon (nd_raft (sys_nodes s t))) as [[rf msgs]| |] eqn:E; simplify_eq.
  - destruct (applyLogEntryDaemon_sim _ _ _ _ _ _ _ _ I Rt E) as (Hsim & Hci & Hm).
    rewrite <- (app_nil_r (sys_calls s)). eapply quiet_step; try done.
    + intros idx c _ Hin. destruct (Hm _ Hin) as (? & ? & ? & ? & _). simplify_eq. lia.
    + intros m r Hs Hin Hr. destruct (Hm _ Hin) as (idx & c & -> & _ & Hok).
      simpl in Hr. simplify_eq. by apply Hok.
    + by intros c ?%not_elem_of_nil.
  - eapply (local_step t a s Panic); try done.
Qed.

(** The events of one peer that exchange no messages. *)
Lemma wake_sim t a s k w :
  Inv n a -> rel a s -> 0 <= t < n ->
  stepped a (mkSys (<[t := mkNode (set_commitCh k (raft_of s t)) (nd_applyCh (sys_nodes s t))
    (nd_notify (sys_nodes s t)) w]> (sys_nodes s)) (sys_calls s) (sys_logs s)).
Proof.
  intros I R Ht.
  pose proof (quiet_step t a a s (set_commitCh k (raft_of s t)) [] [] (nd_notify (sys_nodes s t)) w [] I R Ht) as H.
  rewrite !app_nil_r in H. apply H; [|set_solver|set_solver|done|set_solver].
  destruct (rel_node R t Ht) as [C Sy]. split; [by apply sim_refl|]. split; [|by split].
  split; [by apply core_commitCh|]. by eapply synced_ext; [..|exact Sy].
Qed.

Lemma notify_sim t a s k snap c w :
  Inv n a -> rel a s -> 0 <= t < n -> nd_notify (sys_nodes s t) !! k = Some (snap, c) ->
  stepped a (mkSys (<[t := mkNode (raft_of s t)
    (nd_applyCh (sys_nodes s t) ++ notifyAppUseNewSnapShot snap) (delete k (nd_notify (sys_nodes s t))) w]>
    (sys_nodes s)) (sys_calls s ++ [c]) (sys_logs s)).
Proof.
  intros I R Ht Hk.
  pose proof (quiet_step t a a s (raft_of s t) (notifyAppUseNewSnapShot snap) []
    (delete k (nd_notify (sys_nodes s t))) w [c] I R Ht) as H.
  rewrite app_nil_r in H. apply H; [| |set_solver| |].
  - apply simulated_refl; [done|by apply R].
  - intros idx x _. unfold notifyAppUseNewSnapShot. case_decide; set_solver.
  - intros h. apply delete_elem.
  - intros x ->%list_elem_of_singleton. destruct (rel_held R t snap c) as [? (args & r & Er)];
      [done|by eapply list_elem_of_lookup_2|]. split; [done|]. unfold vote_key. by rewrite Er.
Qed.

Lemma sync_sim i j a s s' :
  Inv n a -> rel a s -> 0 <= i < n -> 0 <= j < n -> i <> j ->
  (safe -> ~ overshoots s (EvSync i j)) ->
  handle n s i (effs ← checkConsistency (raft_of s i) j; Ret (raft_of s i, effs)) = Some s' ->
  stepped a s'.
Proof.
  intros I R Hi Hj Hne Hov H. eapply local_step; [exact I|exact R|exact Hi| |exact H].
  intros rf effs E. apply bind_Ret_inv in E as (effs' & E & E'). simplify_eq.
  pose proof (rel_node R i Hi) as [C Sy].
  exists a. split; [by apply simulated_refl|]. intros e c He Hc.
  destruct (checkConsistency_ok n safe nocomp a i (raft_of s i) j effs I C (proj1 Hj)) as [->|[(args & P & -> & Hok)|(args & -> & Hok)]]; [|exact E|..].
  - intros Hs nx Hst Hnx. destruct (decide (nx - 1 <= logIdxLocal2Global (raft_of s i)
      (len (Logs (raft_of s i)) - 1))) as [?|Hgt]; [done|].
    destruct (Hov Hs). split; [done|]. exists nx. split; [done|lia].
  - set_solver.
  - apply list_elem_of_singleton in He as ->. simpl in Hc. simplify_eq.
    split; [|done]. do 3 (split; [done|]). by exists P.
  - apply list_elem_of_singleton in He as ->. simpl in Hc. simplify_eq.
    split; [|done]. by do 3 (split; [done|]).
Qed.

Lemma compact_sim i idx snap a s s' :
  Inv n a -> rel a s -> 0 <= i < n -> ~ nocomp ->
  existsb (applied_index idx) (nd_applyCh (sys_nodes s i)) = true ->
  handle n s i (rf ← Compact (raft_of s i) idx snap; Ret (rf, [])) = Some s' -> stepped a s'.
Proof.
  intros I R Hi Hnc Hap H. eapply local_step; [exact I|exact R|exact Hi| |exact H].
  intros rf effs E. apply bind_Ret_inv in E as (rf' & E & E'). simplify_eq.
  exists a. split; [|set_solver]. apply (Compact_sim n safe nocomp a i (raft_of s i) idx snap);
    try done; [by apply R|]. intros Hs.
  apply existsb_exists in Hap as (m & Hm%list_elem_of_In & Hidx).
  destruct m as [k c|]; simpl in Hidx; [zbool; subst k|done]. by eapply (rel_sent R).
Qed.

Lemma start_sim i c a s s' :
  Inv n a -> rel a s -> 0 <= i < n ->
  handle n s i ('(rf, _, effs) ← Start (raft_of s i) c; Ret (rf, effs)) = Some s' -> stepped a s'.
Proof.
  intros I R Hi H. eapply local_step; [exact I|exact R|exact Hi| |exact H].
  intros rf effs E. apply bind_Ret_inv in E as ([[rf' ret] effs'] & E & E'). simplify_eq.
  destruct (Start_sim n safe nocomp a i (raft_of s i) c rf ret effs) as (a' & Hsim & He);
    try done; [by apply R|lia|]. exists a'. split; [done|].
  intros e x Hin Hx. exfalso. exact (no_calls He Hin Hx).
Qed.

(** One event of the cluster. *)
Lemma exec_sim a s e s' :
  Inv n a -> rel a s -> exec n s e = Some s' ->
  (safe -> ~ overshoots s e) -> (nocomp -> ~ compacts e) -> stepped a s'.
Proof.
  intros I R H Hov Hnc.
  destruct e as [i|k|k|k|i j|i c|i|i|i k|i idx snap|i]; unfold exec in H;
    try (match type of H with (if ?b then _ else _) = _ =>
      destruct b eqn:Hb; [|done]; unfold is_peer in Hb; zbool end).
  - by eapply (timeout_sim i).
  - destruct (sys_calls s !! k) as [c|] eqn:Hk; [|done]. by eapply deliver_sim.
  - destruct (sys_calls s !! k) as [c|] eqn:Hk; [|done]. by eapply reply_sim.
  - destruct (sys_calls s !! k) as [c|] eqn:Hk; [|done]. simpl in H. simplify_eq.
    exists a. split; [done|]. split; [done|]. destruct R. split; simpl; auto.
    + intros i Hi Hst. etrans; [by apply rel_votes|]. apply inj_le.
      eapply counted_mono; [apply (frame_refl i)|]. intros q. apply keys_delete.
    + intros x Hx. apply rel_calls. by eapply delete_elem.
    + by eapply keys_delete_NoDup.
  - by eapply (sync_sim i j).
  - by eapply (start_sim i c).
  - destruct (commitCh _) as [|k]; [done|]. simplify_eq. by apply (wake_sim i).
  - eapply (apply_sim i); try done. unfold exec, is_peer.
    rewrite !(proj2 (Z.leb_le _ _)), !(proj2 (Z.ltb_lt _ _)) by done. by rewrite H1.
  - destruct (nd_notify (sys_nodes s i) !! k) as [[snap c]|] eqn:Hk; [|done]. simpl in H. simplify_eq.
    by apply (notify_sim i).
  - eapply (compact_sim i idx snap); try done. intros Hn. by apply (Hnc Hn).
  - simplify_eq. eapply (local_step i a s Panic); done.
Qed.

(** ** Executions *)
Lemma init_rel : rel spec_init (sys_init n).
Proof.
  split; [|done|set_solver|apply NoDup_nil_2|set_solver|set_solver|set_solver].
  intros i Hi. split; [|by split_and!].
  split; simpl; rewrite ?length_replicate; try done; try lia; intros _;
    [split; [done|]|]; by left.
Qed.

Lemma reach_sim ok s :
  (forall s e, ok s e -> (safe -> ~ overshoots s e) /\ (nocomp -> ~ compacts e)) ->
  reach n ok s -> exists a, rtc (spec_step n) spec_init a /\ Inv n a /\ rel a s.
Proof.
  intros Hok. induction 1 as [|s e s' Hr (a & Hst & I & R) Ho He].
  { exists spec_init. split; [done|]. split; [apply spec_init_Inv|apply init_rel]. }
  destruct (Hok _ _ Ho) as [H1 H2].
  destruct (exec_sim a s e s' I R He H1 H2) as (a' & Hst' & I' & R'). exists a'.
  split; [by etrans|done].
Qed.

End Sim.
