(* ===== verification/RaftSafety.v ===== *)
(** * Safety of the Raft cluster

    The guarantees of raft/, as theorems about the executions of RaftSystem.v:
    election safety, log matching, leader completeness and state machine
    safety, all read off the refinement of RaftSim.v; and the execution in
    which the overshooting [checkConsistency] breaks state machine safety. *)

From stdpp Require Import base functions list list_numbers gmap relations.
From S2P Require Import Prelude Gob RaftNode RaftNodeFacts RaftSpec RaftSystem RaftRefine RaftLead RaftSim.
Open Scope Z_scope.

(** ** Checked runs *)
Section Runs.
Context {Cmd : Type} `{GC : Gob Cmd} (n : Z).
Implicit Types s : sys Cmd.

Fixpoint run_checked (okb : sys Cmd -> event Cmd -> bool) s (evs : list (event Cmd))
    : option (sys Cmd) :=
  match evs with
  | [] => Some s
  | e :: evs' => if okb s e then s' ← exec n s e; run_checked okb s' evs' else None
  end.

Lemma run_checked_reach okb ok s evs s' :
  (forall s e, okb s e = true -> ok s e) -> reach n ok s ->
  run_checked okb s evs = Some s' -> reach n ok s'.
Proof.
  intros Hok. revert s. induction evs as [|e evs IH]; simpl; intros s Hr H; [by simplify_eq|].
  destruct (okb s e) eqn:Eo; [|done]. destruct (exec n s e) as [s1|] eqn:E; [|done]. simpl in H.
  eapply IH; [|done]. eapply reach_step; eauto.
Qed.

(** A run from the initial state, or the initial state when it gets stuck. *)
Definition ran okb (evs : list (event Cmd)) : sys Cmd :=
  default (sys_init n) (run_checked okb (sys_init n) evs).

Lemma ran_reach okb ok evs :
  (forall s e, okb s e = true -> ok s e) -> reach n ok (ran okb evs).
Proof.
  intros Hok. unfold ran. destruct (run_checked _ _ _) eqn:E; simpl; [|apply reach_init].
  eapply run_checked_reach; [done|apply reach_init|done].
Qed.

Definition overshootsb s (e : event Cmd) : bool :=
  match e with
  | EvSync i j =>
      let rf := raft_of s i in
      bool_decide (state rf = LEADER) &&
      match nextIndex rf !! Z.to_nat j with
      | Some nx => logIdxLocal2Global rf (len (Logs rf) - 1) <? nx - 1
      | None => false
      end
  | _ => false
  end.

Lemma overshootsb_spec s e : overshootsb s e = true <-> overshoots s e.
Proof.
  destruct e; simpl; try done. rewrite andb_true_iff, bool_decide_eq_true.
  destruct (nextIndex _ !! _); split; intros [H1 H2]; split; try done.
  - zbool. eauto.
  - destruct H2 as (? & ? & ?). simplify_eq. by apply Z.ltb_lt.
  - by destruct H2 as (? & ? & ?).
Qed.

Definition compactsb (e : event Cmd) : bool :=
  match e with EvCompact _ _ _ => true | _ => false end.
End Runs.

(** ** Safety *)
Section Safety.
Context {Cmd : Type} `{GC : Gob Cmd} (n : Z).
Implicit Types s : sys Cmd.
Implicit Types a : spec Cmd.

(** Executions without an overshooting replication request, and executions
    without compaction. *)
Definition no_overshoot s (e : event Cmd) : Prop := ~ overshoots s e.
Definition no_compaction (_ : sys Cmd) (e : event Cmd) : Prop := ~ compacts e.

Lemma reach_basic s : reachable n s ->
  exists a, rtc (spec_step n) spec_init a /\ Inv n a /\ rel n False False a s.
Proof. apply reach_sim. by intros; split. Qed.

Lemma reach_safe s : reach n no_overshoot s ->
  exists a, rtc (spec_step n) spec_init a /\ Inv n a /\ rel n True False a s.
Proof. apply reach_sim. intros; by split. Qed.

(** Without compaction [nextIndex] stays inside the log. *)
Lemma no_compaction_step s e s' :
  reach n no_compaction s -> exec n s e = Some s' -> no_overshoot s e.
Proof.
  intros Hr He Hov. destruct (reach_sim n False True no_compaction s) as (a & _ & I & R); [by intros; split|done|].
  destruct e as [| | | |i j| | | | | |]; try done.
  unfold exec in He. destruct (is_peer n i && is_peer n j && negb (i =? j)) eqn:Hp; [|done].
  unfold is_peer in Hp. zbool. destruct Hov as (Hst & nx & Hnx & Hlt).
  destruct (rel_node R i) as [C _]; [lia|]. destruct (nr_nocomp C Logic.I) as [_ Hb].
  specialize (Hb Hst _ _ Hnx). rewrite (core_len _ _ _ _ _ _ C) in Hlt. lia.
Qed.

Lemma no_compaction_no_overshoot s :
  reach n no_compaction s -> reach n no_overshoot s.
Proof.
  induction 1 as [|s e s' Hr IH Hok He]; [apply reach_init|].
  eapply reach_step; [exact IH| |exact He]. by eapply no_compaction_step.
Qed.

Lemma record_agree a i j idx c d :
  Inv n a -> record_ok n a (i, idx, c) -> record_ok n a (j, idx, d) -> c = d.
Proof.
  intros I (t1 & k1 & e1 & H1 & Hk1 & Hl1 & Ec) (t2 & k2 & e2 & H2 & Hk2 & Hl2 & Ed).
  simpl in *. subst c d. f_equal.
  assert (take k1 (LL a t1) !! Z.to_nat (idx - 1) = Some e1) as Ht1 by (rewrite lookup_take_lt by lia; done).
  assert (take k2 (LL a t2) !! Z.to_nat (idx - 1) = Some e2) as Ht2 by (rewrite lookup_take_lt by lia; done).
  destruct (committed_agree n a t1 k1 t2 k2 I H1 H2) as [Hp|Hp].
  - pose proof (prefix_lookup_l _ _ _ _ Hp Ht1). congruence.
  - pose proof (prefix_lookup_l _ _ _ _ Hp Ht2). congruence.
Qed.

Lemma safe_logs_agree s i j idx c d :
  reach n no_overshoot s -> (i, idx, c) ∈ sys_logs s -> (j, idx, d) ∈ sys_logs s -> c = d.
Proof.
  intros Hr Hi Hj. destruct (reach_safe s Hr) as (a & _ & I & R).
  eapply record_agree; [exact I|..]; by apply (rel_logs R).
Qed.

(** ** Entries by global index *)

(** The entry of a peer at a global index above its snapshot. *)
Definition entry_at (rf : Raft Cmd) (k : Z) : outcome (LogEntry Cmd) :=
  slice_get (Logs rf) (logIdxGlobal2Local rf k).

Lemma entry_at_log (safe nocomp : Prop) a i (rf : Raft Cmd) k :
  node_core n safe nocomp a i rf -> SnapshotIndex rf < k ->
  entry_at rf k = match log a i !! Z.to_nat (k - 1) with Some e => Ret e | None => Panic end.
Proof.
  intros C Hk. unfold entry_at, slice_get, logIdxGlobal2Local. rewrite decide_True by lia.
  pose proof (nr_snap C). rewrite (nr_logs C), rebased_lookup by lia.
  by replace (Z.to_nat (SnapshotIndex rf) + Nat.pred (Z.to_nat (k - SnapshotIndex rf)))%nat
    with (Z.to_nat (k - 1)) by lia.
Qed.

Lemma entry_at_term (safe nocomp : Prop) a i (rf : Raft Cmd) k e :
  node_core n safe nocomp a i rf -> entry_at rf k = Ret e ->
  SnapshotIndex rf <= k <= len (log a i) /\ Term e = term_at (log a i) (Z.to_nat k).
Proof.
  intros C He. unfold entry_at, logIdxGlobal2Local in He. rewrite (nr_logs C) in He.
  apply rebased_get in He as (? & ? & E); [|apply C].
  replace (SnapshotIndex rf + (k - SnapshotIndex rf)) with k in * by lia. split; [lia|done].
Qed.

Lemma entries_agree (safe nocomp : Prop) a i j (rf rg : Raft Cmd) (k : nat) k' :
  node_core n safe nocomp a i rf -> node_core n safe nocomp a j rg ->
  take k (log a i) = take k (log a j) -> k' <= Z.of_nat k ->
  SnapshotIndex rf < k' -> SnapshotIndex rg < k' -> entry_at rf k' = entry_at rg k'.
Proof.
  intros Ci Cj Htk Hk Hi Hj. rewrite (entry_at_log _ _ _ _ _ _ Ci Hi), (entry_at_log _ _ _ _ _ _ Cj Hj).
  pose proof (nr_snap Ci).
  rewrite <- (lookup_take_lt (log a i) k), <- (lookup_take_lt (log a j) k) by lia. by rewrite Htk.
Qed.

(** C3: state machine safety.  In an execution in which no replication request
    overshoots the leader's log, two peers never apply different commands at
    the same index, over crashes, restarts, compaction, snapshot transfer and
    message loss, delay and reordering. *)
Theorem state_machine_safety s i j idx c d :
  reach n no_overshoot s ->
  (i, idx, c) ∈ sys_logs s -> (j, idx, d) ∈ sys_logs s -> c = d.
Proof. apply safe_logs_agree. Qed.

(** State machine safety without compaction.  When no service compacts its
    log (kvraft with maxraftstate = -1, and the Raft tests) the guarantee holds
    in every execution. *)
Theorem state_machine_safety_no_compaction s i j idx c d :
  reach n no_compaction s ->
  (i, idx, c) ∈ sys_logs s -> (j, idx, d) ∈ sys_logs s -> c = d.
Proof. intros Hr. by apply safe_logs_agree, no_compaction_no_overshoot. Qed.

(** ** Executions in time *)
Definition sys_step s s' : Prop := exists e, exec n s e = Some s'.

Lemma spec_steps_leader a a' T c :
  rtc (spec_step n) a a' -> leader a T = Some c -> leader a' T = Some c.
Proof.
  induction 1 as [|a b d Hs _ IH]; intros Hl; [done|]. apply IH.
  destruct Hs; simpl; try done. fn_cases; congruence.
Qed.

Lemma steps_sim a s s' :
  Inv n a -> rel n False False a s -> rtc sys_step s s' ->
  exists a', rtc (spec_step n) a a' /\ Inv n a' /\ rel n False False a' s'.
Proof.
  intros I R Hs. revert a I R. induction Hs as [|s t s' [e He] _ IH]; intros a I R; [by exists a|].
  destruct (exec_sim n False False a s e t I R He) as (b & Hab & Ib & Rb); [done|done|].
  destruct (IH b Ib Rb) as (a' & Hb & ? & ?). exists a'. split; [by etrans|done].
Qed.

Lemma steps_reachable s s' : reachable n s -> rtc sys_step s s' -> reachable n s'.
Proof. intros Hr. induction 1 as [|s t s' [e He] _ IH]; [done|]. apply IH. by eapply reach_step. Qed.

Lemma one_leader_per_term s s' i j :
  reachable n s -> rtc sys_step s s' -> 0 <= i < n -> 0 <= j < n ->
  state (raft_of s i) = LEADER -> state (raft_of s' j) = LEADER ->
  CurrentTerm (raft_of s i) = CurrentTerm (raft_of s' j) -> i = j.
Proof.
  intros Hr Hs Hi Hj Li Lj Et. destruct (reach_basic s Hr) as (a & _ & I & R).
  destruct (steps_sim a s s' I R Hs) as (a' & Hst & I' & R').
  destruct (rel_node R i Hi) as [Ci _], (rel_node R' j Hj) as [Cj _].
  pose proof (spec_steps_leader _ _ _ _ Hst (nr_lead Ci Li)) as H1. pose proof (nr_lead Cj Lj) as H2.
  rewrite <- (nr_term Ci) in H1. rewrite <- (nr_term Cj), <- Et in H2. congruence.
Qed.

(** C4: election safety.  A peer that leads a term and a peer that leads the
    same term then or at any later time are the same peer, in every
    execution. *)
Theorem election_safety s s' i j :
  reachable n s -> rtc sys_step s s' -> 0 <= i < n -> 0 <= j < n ->
  state (raft_of s i) = LEADER -> state (raft_of s' j) = LEADER ->
  CurrentTerm (raft_of s i) = CurrentTerm (raft_of s' j) -> i = j.
Proof. apply one_leader_per_term. Qed.

(** C5: log matching.  If two peers hold entries of the same term at the same
    global index, then they hold the same entries (index, term and command) at
    every earlier index that neither has compacted away, in every execution. *)
Theorem log_matching_peers s i j k k' e f :
  reachable n s -> 0 <= i < n -> 0 <= j < n ->
  entry_at (raft_of s i) k = Ret e -> entry_at (raft_of s j) k = Ret f -> Term e = Term f ->
  SnapshotIndex (raft_of s i) < k' -> SnapshotIndex (raft_of s j) < k' -> k' <= k ->
  entry_at (raft_of s i) k' = entry_at (raft_of s j) k'.
Proof.
  intros Hr Hi Hj He Hf Hef Hsi Hsj Hk. destruct (reach_basic s Hr) as (a & _ & I & R).
  destruct (rel_node R i Hi) as [Ci _], (rel_node R j Hj) as [Cj _].
  destruct (entry_at_term _ _ _ _ _ _ _ Ci He) as [? E1].
  destruct (entry_at_term _ _ _ _ _ _ _ Cj Hf) as [? E2].
  apply (entries_agree False False a i j _ _ (Z.to_nat k)); try done; [|lia].
  apply (log_matching a); [by apply I|by apply I| | |congruence]; unfold len in *; lia.
Qed.

(** C6: leader completeness.  What a peer regards as committed is in the log of
    every leader of the same or a later term (in executions without overshooting
    requests): the two hold the same entry at every committed index that neither
    has compacted away, and the leader's log reaches that far. *)
Theorem leader_completeness_peers s i j k :
  reach n no_overshoot s -> 0 <= i < n -> 0 <= j < n ->
  state (raft_of s j) = LEADER -> CurrentTerm (raft_of s i) <= CurrentTerm (raft_of s j) ->
  SnapshotIndex (raft_of s i) < k <= commitIndex (raft_of s i) ->
  SnapshotIndex (raft_of s j) < k ->
  exists e, entry_at (raft_of s i) k = Ret e /\ entry_at (raft_of s j) k = Ret e.
Proof.
  intros Hr Hi Hj Lj Ht Hki Hkj. destruct (reach_safe s Hr) as (a & _ & I & R).
  destruct (rel_node R i Hi) as [Ci _], (rel_node R j Hj) as [Cj _].
  destruct (nr_commit Ci Logic.I) as [Hci Hc]. pose proof (nr_lead Cj Lj) as Hl.
  rewrite (nr_term Ci), (nr_term Cj) in Ht.
  assert (Hp : take (Z.to_nat (commitIndex (raft_of s i))) (log a i) `prefix_of` log a j).
  { rewrite (inv_leader_log _ _ I _ Hl). apply (committed_in_leader n); [done|congruence|].
    eapply committed_log_frame; [exact I|apply (frame_refl i)|exact Ht|exact Hc]. }
  pose proof (nr_snap Ci). unfold len in *.
  destruct (lookup_lt_is_Some_2 (log a i) (Z.to_nat (k - 1))) as [e He]; [lia|].
  exists e. rewrite (entry_at_log _ _ _ _ _ _ Ci), (entry_at_log _ _ _ _ _ _ Cj), He by lia.
  split; [done|]. erewrite prefix_lookup_l; [done|exact Hp|]. rewrite lookup_take_lt by lia. done.
Qed.

(** C7: refinement.  Every execution of the cluster is an execution of the
    message-free protocol of RaftSpec.v: terms, votes and leaders are those of
    the protocol, and a peer's log is its full protocol log compacted up to its
    SnapshotIndex. *)
Theorem cluster_refines_protocol s :
  reachable n s ->
  exists a, rtc (spec_step n) spec_init a /\ Inv n a /\ forall i, 0 <= i < n ->
    CurrentTerm (raft_of s i) = term a i /\
    vote a (term a i, i) =
      (if decide (VotedFor (raft_of s i) = -1) then None else Some (VotedFor (raft_of s i))) /\
    Logs (raft_of s i) = rebased (SnapshotIndex (raft_of s i)) (log a i) /\
    (state (raft_of s i) = LEADER ->
       leader a (term a i) = Some i /\ log a i = LL a (term a i)).
Proof.
  intros Hr. destruct (reach_basic s Hr) as (a & Hst & I & R). exists a. split_and!; try done.
  intros i Hi. destruct (rel_node R i Hi) as [C _]. split_and!; try apply C.
  intros Hl. split; [by apply C|]. by apply (inv_leader_log _ _ I), C.
Qed.

(** C14: durability.  At every point of every execution a crash and restart of
    a peer recovers its term, its vote, its snapshot index and its log from the
    persister, and nothing of the volatile state. *)
Theorem restart_recovers s i :
  reachable n s -> 0 <= i < n ->
  let rf := raft_of s i in
  let rb := raft_of (crash n s i) i in
  CurrentTerm rb = CurrentTerm rf /\ VotedFor rb = VotedFor rf /\
  SnapshotIndex rb = SnapshotIndex rf /\ Logs rb = Logs rf /\
  state rb = FOLLOWER /\ commitIndex rb = 0 /\ lastApplied rb = 0.
Proof.
  intros Hr Hi rf rb. destruct (reach_basic s Hr) as (a & _ & I & R).
  destruct (rel_node R i Hi) as [C Sy]. fold rf in C, Sy. destruct Sy as (E1 & E2 & E3 & E4).
  rewrite (nr_peers C), (nr_me C) in *.
  assert (rb = dePersistState (initRaft n i (persister rf))) as ->.
  { unfold rb, raft_of. simpl. rewrite fn_lookup_insert. unfold boot. simpl. unfold Copy.
    fold (raft_of s i). fold rf. by destruct (persister rf). }
  destruct (dePersistState_static (initRaft n i (persister rf))) as
    (_ & _ & _ & H4 & H5 & _ & _ & H8 & _). by split_and!.
Qed.

Lemma spec_steps_vote a a' k c :
  Inv n a -> rtc (spec_step n) a a' -> vote a k = Some c -> vote a' k = Some c.
Proof.
  intros I Hst. revert I. induction Hst as [|a b d Hs _ IH]; intros I Hv; [done|].
  apply IH; [by eapply spec_step_Inv|]. destruct Hs as [q| |p q| | |]; simpl; try done; fn_cases; try done.
  - apply (inv_vote_term _ _ I) in Hv. lia.
Qed.

Lemma spec_steps_term a a' p : rtc (spec_step n) a a' -> term a p <= term a' p.
Proof.
  induction 1 as [|a b c Hst _ IH]; [done|]. etrans; [|exact IH].
  destruct Hst; simpl; fn_cases; lia.
Qed.

(** Terms are monotone.  No event, a crash included, takes a peer back to
    an earlier term. *)
Theorem term_monotone s e s' i :
  reachable n s -> exec n s e = Some s' -> 0 <= i < n ->
  CurrentTerm (raft_of s i) <= CurrentTerm (raft_of s' i).
Proof.
  intros Hr He Hi. destruct (reach_basic s Hr) as (a & _ & I & R).
  destruct (exec_sim n False False a s e s' I R He) as (a' & Hst & _ & R'); [done|done|].
  destruct (rel_node R i Hi) as [C _], (rel_node R' i Hi) as [C' _].
  rewrite (nr_term C), (nr_term C'). by apply spec_steps_term.
Qed.

(** Votes are kept.  A peer that has voted in its current term keeps that
    vote as long as it stays in the term, over any event, a crash included. *)
Theorem vote_kept s e s' i :
  reachable n s -> exec n s e = Some s' -> 0 <= i < n ->
  CurrentTerm (raft_of s' i) = CurrentTerm (raft_of s i) -> VotedFor (raft_of s i) <> -1 ->
  VotedFor (raft_of s' i) = VotedFor (raft_of s i).
Proof.
  intros Hr He Hi Et Hv. destruct (reach_basic s Hr) as (a & _ & I & R).
  destruct (exec_sim n False False a s e s' I R He) as (a' & Hst & I' & R'); [done|done|].
  destruct (rel_node R i Hi) as [C _], (rel_node R' i Hi) as [C' _].
  rewrite (nr_term C), (nr_term C') in Et. pose proof (nr_vote C) as Hvote.
  rewrite decide_False in Hvote by done.
  eapply (spec_steps_vote a a') in Hvote; [|exact I|exact Hst].
  rewrite <- Et, (nr_vote C') in Hvote. case_decide; congruence.
Qed.

End Safety.

(** ** Executions of a cluster of three *)

(** Peer 1 is elected by peer 0, replicates a command to it and both apply it. *)
Definition demo_events : list (event Z) :=
  [EvTimeout 1; EvDeliver 0; EvReply 0; EvStart 1 10; EvSync 1 0; EvDeliver 1; EvReply 1;
   EvWake 1; EvApply 1; EvSync 1 0; EvDeliver 1; EvReply 1; EvWake 0; EvApply 0].

Definition demo : sys Z := ran 3 (fun s e => negb (overshootsb s e) && negb (compactsb e)) demo_events.

Lemma demo_no_overshoot : reach 3 no_overshoot demo.
Proof. apply ran_reach. intros s e [H _]%andb_true_iff Ho%overshootsb_spec. by rewrite Ho in H. Qed.

Lemma demo_no_compaction : reach 3 no_compaction demo.
Proof. apply ran_reach. intros s e [_ H]%andb_true_iff Hc. by destruct e. Qed.

Lemma demo_reachable : reachable 3 demo.
Proof. by apply ran_reach. Qed.

Lemma state_machine_safety_witness :
  (0, 1, Some 10) ∈ sys_logs demo /\ (1, 1, Some 10) ∈ sys_logs demo /\ Some 10 = Some 10.
Proof.
  assert (H0 : (0, 1, Some 10) ∈ sys_logs demo) by (apply (bool_decide_unpack _); vm_compute; exact Logic.I).
  assert (H1 : (1, 1, Some 10) ∈ sys_logs demo) by (apply (bool_decide_unpack _); vm_compute; exact Logic.I).
  exact (conj H0 (conj H1 (state_machine_safety 3 demo 0 1 1 _ _ demo_no_overshoot H0 H1))).
Defined.

Lemma state_machine_safety_no_compaction_witness :
  (0, 1, Some 10) ∈ sys_logs demo /\ (1, 1, Some 10) ∈ sys_logs demo /\ Some 10 = Some 10.
Proof.
  assert (H0 : (0, 1, Some 10) ∈ sys_logs demo) by (apply (bool_decide_unpack _); vm_compute; exact Logic.I).
  assert (H1 : (1, 1, Some 10) ∈ sys_logs demo) by (apply (bool_decide_unpack _); vm_compute; exact Logic.I).
  exact (conj H0 (conj H1
    (state_machine_safety_no_compaction 3 demo 0 1 1 _ _ demo_no_compaction H0 H1))).
Defined.

(** Peer 1 leads term 1 before and after it starts a command. *)
Lemma election_safety_witness :
  state (raft_of demo 1) = LEADER /\
  exists s', rtc (sys_step 3) demo s' /\ state (raft_of s' 1) = LEADER /\ 1 = 1.
Proof.
  assert (H : state (raft_of demo 1) = LEADER) by (vm_compute; reflexivity).
  split; [exact H|].
  destruct (exec 3 demo (EvStart 1 11)) as [s'|] eqn:E; [|vm_compute in E; discriminate E].
  assert (Hs : rtc (sys_step 3) demo s') by (apply rtc_once; exists (EvStart 1 11); exact E).
  assert (H' : state (raft_of s' 1) = LEADER).
  { vm_compute in E. injection E as <-. vm_compute. reflexivity. }
  exists s'. split; [exact Hs|]. split; [exact H'|].
  apply (election_safety 3 demo s' 1 1 demo_reachable Hs); [lia|lia|exact H|exact H'|].
  vm_compute in E. injection E as <-. vm_compute. reflexivity.
Defined.

Lemma log_matching_peers_witness :
  entry_at (raft_of demo 0) 1 = Ret (mkLogEntry 1 1 (Some 10)) /\
  entry_at (raft_of demo 0) 1 = entry_at (raft_of demo 1) 1.
Proof.
  split; [vm_compute; reflexivity|].
  apply (log_matching_peers 3 demo 0 1 1 1 (mkLogEntry 1 1 (Some 10)) (mkLogEntry 1 1 (Some 10))
    demo_reachable); try lia; vm_compute; try reflexivity; done.
Defined.

Lemma leader_completeness_peers_witness :
  commitIndex (raft_of demo 0) = 1 /\
  exists e, entry_at (raft_of demo 0) 1 = Ret e /\ entry_at (raft_of demo 1) 1 = Ret e.
Proof.
  split; [vm_compute; reflexivity|].
  apply (leader_completeness_peers 3 demo 0 1 1 demo_no_overshoot); try lia; vm_compute;
    try reflexivity; try split; done.
Defined.

Lemma cluster_refines_protocol_witness :
  exists a : spec Z, rtc (spec_step 3) spec_init a /\ Inv 3 a /\
    CurrentTerm (raft_of demo 1) = term a 1.
Proof.
  destruct (cluster_refines_protocol 3 demo demo_reachable) as (a & Hst & I & H).
  exists a. split; [exact Hst|]. split; [exact I|]. apply H. lia.
Defined.

Lemma restart_recovers_witness :
  CurrentTerm (raft_of demo 0) = 1 /\ Logs (raft_of (crash 3 demo 0) 0) = Logs (raft_of demo 0).
Proof.
  split; [vm_compute; reflexivity|].
  apply (restart_recovers 3 demo 0 demo_reachable). lia.
Defined.

Lemma term_monotone_witness :
  exists s', exec 3 demo (EvTimeout 2) = Some s' /\
    CurrentTerm (raft_of demo 2) <= CurrentTerm (raft_of s' 2).
Proof.
  destruct (exec 3 demo (EvTimeout 2)) as [s'|] eqn:E; [|vm_compute in E; discriminate E].
  exists s'. split; [reflexivity|].
  apply (term_monotone 3 demo (EvTimeout 2) s' 2 demo_reachable E). lia.
Defined.

Lemma vote_kept_witness :
  exists s', exec 3 demo (EvCrash 0) = Some s' /\ VotedFor (raft_of s' 0) = 1.
Proof.
  exists (crash 3 demo 0). split; [reflexivity|].
  replace 1 with (VotedFor (raft_of demo 0)) by (vm_compute; reflexivity).
  apply (vote_kept 3 demo (EvCrash 0) (crash 3 demo 0) 0 demo_reachable); try lia;
    vm_compute; try reflexivity; discriminate.
Defined.

(** ** The overshooting replication request *)

(** Peer 1 leads term 1, replicates 10, and a delayed rejection to it is left in
    flight; peer 0 applies and compacts entry 1. *)
Definition overshoot_prefix : list (event Z) :=
  [EvTimeout 1; EvDeliver 0; EvReply 0; EvStart 1 10; EvSync 1 0; EvDeliver 1; EvReply 1;
   EvSync 1 0; EvDeliver 1; EvDrop 1; EvWake 0; EvApply 0; EvCompact 0 1 [Byte.x01]; EvSync 1 0;
   EvTimeout 0; EvDrop 0;
   EvDeliver 1; EvReply 1; EvDrop 1; EvStart 0 21; EvSync 0 1; EvDeliver 1; EvDrop 1;
   EvStart 0 22; EvTimeout 1;
   EvDeliver 1; EvDrop 1; EvDeliver 1; EvReply 1; EvDeliver 0; EvReply 0; EvSync 1 0; EvDeliver 0;
   EvReply 0; EvSync 1 0].

(** The leader, whose log ends at 2, has sent PrevLogIndex = 3. *)
Definition overshoot_conflict : list (event Z) :=
  [EvStart 1 33; EvDeliver 0; EvReply 0; EvWake 1; EvApply 1;
   EvTimeout 0; EvDrop 0; EvDeliver 0; EvReply 0; EvStart 0 44; EvSync 0 2; EvDeliver 0; EvReply 0;
   EvSync 0 2; EvDeliver 0; EvNotify 2 0; EvReply 0; EvSync 0 2; EvDeliver 0; EvReply 0; EvWake 0; EvApply 0].

(** C15: the overshooting request breaks state machine safety.  There is an
    execution of a cluster of three, with one compaction and one delayed reply,
    in which peer 1 applies 33 and peer 0 applies 22 at index 3. *)
Theorem overshoot_breaks_safety :
  exists s : sys Z, reachable 3 s /\
    (1, 3, Some 33) ∈ sys_logs s /\ (0, 3, Some 22) ∈ sys_logs s.
Proof.
  exists (ran 3 (fun _ _ => true) (overshoot_prefix ++ overshoot_conflict)).
  split; [by apply ran_reach|].
  split; apply (bool_decide_unpack _); vm_compute; exact Logic.I.
Qed.

(** The overshooting request crashes the leader.  When its log has not
    grown in the meantime, the leader indexes its log past the end while it
    processes the reply. *)
Theorem overshoot_panics :
  exists (s : sys Z) args r, reachable 3 s /\
    sys_calls s !! 0%nat = Some (mkCall 1 0 (RetAppend args r)) /\
    state (raft_of s 1) = LEADER /\
    sendAppendEntriesAndProcess (raft_of s 1) args 0 (Some r) = Panic.
Proof.
  exists (ran 3 (fun _ _ => true) (overshoot_prefix ++ [EvDeliver 0])).
  exists (mkAppendEntriesArgs 3 1 3 2 [] 1), (mkAppendEntriesReply 3 true 0).
  split; [by apply ran_reach|]. vm_compute. done.
Qed.
