(* ===== verification/RaftApply.v ===== *)
(** * The apply daemon: order, completeness and wake-ups

    What a peer sends on applyCh in one incarnation, for every execution:
    command indices increase strictly, without compaction they are 1, 2, 3, ...
    without a gap, one round of the daemon applies everything that is committed,
    and a commit is never left without a token for the daemon. *)

From stdpp Require Import base functions list list_numbers gmap relations sorting.
From S2P Require Import Prelude Gob RaftNode RaftNodeFacts RaftSpec RaftSystem RaftRefine RaftLead RaftSim RaftSafety.
Open Scope Z_scope.

Section Apply.
Context {Cmd : Type} `{GC : Gob Cmd} (n : Z).
Implicit Types s : sys Cmd.
Implicit Types rf : Raft Cmd.

(** ** What the other critical sections do to the daemon's data *)

(** A section other than the daemon leaves [lastApplied] alone, never moves the
    snapshot back, and moves [commitIndex] only together with a token on
    [commitCh]. *)
Record keeps rf rf' : Prop := {
  k_applied : lastApplied rf' = lastApplied rf;
  k_snap : SnapshotIndex rf <= SnapshotIndex rf';
  k_token : (commitIndex rf' = commitIndex rf /\ commitCh rf' = commitCh rf) \/
            (0 < commitCh rf')%nat
}.

Lemma keeps_refl rf : keeps rf rf.
Proof. split; [done|lia|by left]. Qed.

Lemma keeps_trans rf1 rf2 rf3 : keeps rf1 rf2 -> keeps rf2 rf3 -> keeps rf1 rf3.
Proof.
  intros [A1 S1 T1] [A2 S2 T2]. split; [congruence|lia|].
  destruct T2 as [[-> E]|?]; [rewrite E; exact T1|by right].
Qed.

(** A section that only sets other fields. *)
Lemma keeps_fields rf rf' :
  lastApplied rf' = lastApplied rf -> SnapshotIndex rf' = SnapshotIndex rf ->
  commitIndex rf' = commitIndex rf -> commitCh rf' = commitCh rf -> keeps rf rf'.
Proof. intros ? E ? ?. split; [done|lia|by left]. Qed.

Lemma keeps_commit rf rf' c : sendCommitCh (set_commitIndex c rf) = Ret rf' -> keeps rf rf'.
Proof. intros ->%sendCommitCh_Ret. split; simpl; [done|lia|right; lia]. Qed.

Ltac keeps_solve :=
  repeat (bind_inv; simplify_eq/=; try case_match; simplify_eq/=);
  try discriminate; try (by apply keeps_fields); eauto using keeps_refl, keeps_commit.

Lemma keeps_persist rf rf' : keeps rf rf' -> keeps rf (persistState rf').
Proof. intros [? ? ?]. by split. Qed.

Lemma RequestVote_keeps rf args rf' r effs :
  RequestVote rf args = Ret (rf', r, effs) -> keeps rf rf'.
Proof. unfold RequestVote. intros H. keeps_solve. Qed.

Lemma appendMatched_keeps rf args p ch rf' r ch' :
  appendMatched rf args p ch = Ret (rf', r, ch') -> keeps rf rf'.
Proof.
  unfold appendMatched. intros H. apply bind_Ret_inv in H as ([i j] & _ & H).
  apply bind_Ret_inv in H as ([rf1 ch1] & H1 & H). apply bind_Ret_inv in H as (rf2 & H2 & H).
  simplify_eq. apply (keeps_trans _ rf1).
  - clear H2. case_match; bind_inv; simplify_eq; [by apply keeps_fields|apply keeps_refl].
  - clear H1. case_match; [by eapply keeps_commit|simplify_eq; apply keeps_refl].
Qed.

Lemma enterTerm_keeps rf T : keeps rf (enterTerm rf T).1.
Proof. unfold enterTerm. case_match; by apply keeps_fields. Qed.

Lemma AppendEntries_keeps rf args rf' r effs :
  AppendEntries rf args = Ret (rf', r, effs) -> keeps rf rf'.
Proof.
  unfold AppendEntries. intros H. case_match; [simplify_eq; apply keeps_refl|].
  fold (enterTerm rf (ae_Term args)) in H. pose proof (enterTerm_keeps rf (ae_Term args)) as He.
  destruct (enterTerm rf (ae_Term args)) as [rf1 ch]. simpl in *.
  apply bind_Ret_inv in H as ([[rf2 r2] ch2] & H & E). simplify_eq.
  apply (keeps_trans _ rf1); [done|].
  assert (keeps rf1 rf2); [|destruct ch2; [by apply keeps_persist|done]].
  repeat (case_match; simplify_eq/=; [apply keeps_refl|]). bind_inv.
  case_match; [bind_inv; simplify_eq; apply keeps_refl|]. by eapply appendMatched_keeps.
Qed.

Lemma InstallSnapShot_keeps rf args rf' r effs :
  InstallSnapShot rf args = Ret (rf', r, effs) -> keeps rf rf'.
Proof.
  unfold InstallSnapShot. intros H. case_match; [simplify_eq; apply keeps_refl|].
  fold (enterTerm rf (is_Term args)) in H. pose proof (enterTerm_keeps rf (is_Term args)) as He.
  destruct (enterTerm rf (is_Term args)) as [rf1 ch]. simpl in *.
  case_match eqn:Ho.
  - simplify_eq. destruct ch; [by apply keeps_persist|done].
  - zbool. bind_inv. simplify_eq. apply (keeps_trans _ rf1); [done|].
    split; simpl; [done|lia|by left].
Qed.

Lemma Compact_keeps rf idx snap rf' : Compact rf idx snap = Ret rf' -> keeps rf rf'.
Proof.
  unfold Compact. intros H. case_match eqn:Hi; [simplify_eq; apply keeps_refl|].
  case_match; [simplify_eq; apply keeps_refl|]. bind_inv. simplify_eq. zbool.
  split; simpl; [done|lia|by left].
Qed.

Lemma broadCastVote_keeps rf rf' effs : broadCastVote rf = Ret (rf', effs) -> keeps rf rf'.
Proof. unfold broadCastVote. intros H. keeps_solve. Qed.

Lemma becomeLeader_keeps rf rf' : becomeLeader rf = Ret rf' -> keeps rf rf'.
Proof.
  unfold becomeLeader. intros H. apply bind_Ret_inv in H as ([x y] & _ & H). bind_inv. simplify_eq.
  by apply keeps_fields.
Qed.

Lemma sendRequestVoteAndProcess_keeps rf args sv r rf' effs :
  sendRequestVoteAndProcess rf args sv (Some r) = Ret (rf', effs) -> keeps rf rf'.
Proof.
  unfold sendRequestVoteAndProcess. intros H.
  case_match; [simplify_eq; apply keeps_refl|]. case_match; [simplify_eq; by apply keeps_fields|].
  destruct (rvr_VoteGranted r); [|simplify_eq; apply keeps_refl].
  case_match; [|simplify_eq; by apply keeps_fields].
  apply bind_Ret_inv in H as (rf2 & H & E). simplify_eq.
  eapply keeps_trans; [|by eapply becomeLeader_keeps]. by apply keeps_fields.
Qed.

Lemma processAppendSuccess_keeps rf args sv rf' :
  processAppendSuccess rf args sv = Ret rf' -> keeps rf rf'.
Proof.
  unfold processAppendSuccess. intros H. apply bind_Ret_inv in H as (m & _ & H).
  case_match; [|simplify_eq; apply keeps_refl].
  apply bind_Ret_inv in H as (mtch & _ & H). apply bind_Ret_inv in H as (next & _ & H).
  apply bind_Ret_inv in H as (count & _ & H).
  eapply (keeps_trans _ (set_nextIndex next (set_matchIndex mtch rf))); [by apply keeps_fields|].
  case_match; [by eapply keeps_commit|simplify_eq; apply keeps_refl].
Qed.

Lemma sendAppendEntriesAndProcess_keeps rf args sv r rf' effs :
  sendAppendEntriesAndProcess rf args sv (Some r) = Ret (rf', effs) -> keeps rf rf'.
Proof.
  unfold sendAppendEntriesAndProcess. intros H.
  case_match; [simplify_eq; apply keeps_refl|]. case_match; [simplify_eq; by apply keeps_fields|].
  destruct (aer_Success r); apply bind_Ret_inv in H as (x & E & H); simplify_eq.
  - by eapply processAppendSuccess_keeps.
  - by apply keeps_fields.
Qed.

Lemma sendSnapShotAndProcess_keeps rf args sv r rf' effs :
  sendSnapShotAndProcess rf args sv (Some r) = Ret (rf', effs) -> keeps rf rf'.
Proof.
  unfold sendSnapShotAndProcess. intros H.
  case_match; [simplify_eq; apply keeps_refl|]. case_match; [simplify_eq; by apply keeps_fields|].
  apply bind_Ret_inv in H as (nx & _ & H). case_match; bind_inv; simplify_eq; by apply keeps_fields.
Qed.

Lemma Start_keeps rf c rf' ret effs : Start rf c = Ret (rf', ret, effs) -> keeps rf rf'.
Proof.
  unfold Start. intros H. case_decide; bind_inv; simplify_eq; [by apply keeps_fields|apply keeps_refl].
Qed.

(** ** One round of the daemon *)
Definition cmd_index (m : ApplyMsg Cmd) : option Z :=
  match m with CommandMsg i _ => Some i | SnapshotMsg _ => None end.

(** The command indices sent on applyCh, in order. *)
Definition indices (ms : list (ApplyMsg Cmd)) : list Z := omap cmd_index ms.

(** The loop sends every index above the snapshot, in order, and its fuel is
    enough to reach the commit index. *)
Lemma applyLoop_indices fuel rf i lst rf' msgs :
  0 <= SnapshotIndex rf -> lst - i + 1 <= Z.of_nat fuel ->
  applyLoop fuel rf i lst = Ret (rf', msgs) ->
  let first := Z.max i (SnapshotIndex rf + 1) in
  indices msgs = seqZ first (lst - first + 1) /\
  rf' = set_lastApplied (if decide (first <= lst) then lst else lastApplied rf) rf.
Proof.
  revert rf i rf' msgs. induction fuel as [|fuel IH]; intros rf i rf' msgs Hs Hf H; cbn zeta; simpl in H.
  { simplify_eq. rewrite decide_False by lia. rewrite seqZ_nil by lia. by destruct rf'. }
  destruct (Z.leb_spec i lst) as [Hi|Hi].
  2:{ simplify_eq. rewrite decide_False by lia. rewrite seqZ_nil by lia. by destruct rf'. }
  destruct (Z.leb_spec i (SnapshotIndex rf)) as [Hle|Hgt].
  - apply IH in H as [E1 E2]; [|done|lia]. cbn zeta in E1, E2.
    rewrite Z.max_l in E1, E2 by lia. by rewrite !Z.max_r by lia.
  - apply bind_Ret_inv in H as (e & He & H). apply bind_Ret_inv in H as ([rf1 ms] & H & E).
    simplify_eq. apply IH in H as [E1 E2]; [|done|lia]. cbn zeta in E1, E2. simpl in E1, E2. rewrite Z.max_l in E1, E2 by lia. rewrite !Z.max_l by lia.
    rewrite decide_True by lia. split.
    + simpl. rewrite (seqZ_cons i) by lia. f_equal.
      change (indices ms = seqZ (Z.succ i) (Z.pred (lst - i + 1))). rewrite E1. f_equal; lia.
    + rewrite E2. case_decide; [done|]. by replace lst with i by lia.
Qed.

(** ** The invariant *)
Record applied_ok (nd : node Cmd) : Prop := {
  ao_range idx : idx ∈ indices (nd_applyCh nd) -> 0 < idx <= lastApplied (nd_raft nd);
  ao_sorted : StronglySorted Z.lt (indices (nd_applyCh nd));
  ao_nonneg : 0 <= lastApplied (nd_raft nd);
  ao_token : commitIndex (nd_raft nd) <= Z.max (lastApplied (nd_raft nd)) (SnapshotIndex (nd_raft nd))
    \/ (0 < commitCh (nd_raft nd))%nat \/ nd_woken nd = true;
  ao_gapfree : SnapshotIndex (nd_raft nd) = 0 ->
    indices (nd_applyCh nd) = seqZ 1 (lastApplied (nd_raft nd))
}.

Definition all_applied s : Prop := forall i, applied_ok (sys_nodes s i).

Lemma notify_indices snap : indices (notifyAppUseNewSnapShot snap) = [].
Proof. unfold notifyAppUseNewSnapShot. by case_decide. Qed.

Lemma boot_applied i ps : applied_ok (boot n i ps).
Proof.
  unfold boot, Make. destruct (dePersistState_static (initRaft n i (Copy ps))) as
    (_ & _ & _ & H4 & H5 & _). split; simpl; rewrite ?notify_indices, ?H4, ?H5; simpl.
  - set_solver.
  - constructor.
  - done.
  - left. lia.
  - done.
Qed.

Lemma keeps_applied nd rf nt :
  0 <= SnapshotIndex (nd_raft nd) -> keeps (nd_raft nd) rf -> applied_ok nd ->
  applied_ok (mkNode rf (nd_applyCh nd) nt (nd_woken nd)).
Proof.
  intros Hsn [Ka Ks Kt] []. split; simpl; rewrite ?Ka; try done.
  - destruct Kt as [[-> ->]|?]; [|by right; left].
    destruct ao_token0 as [?|?]; [left; lia|by right].
  - intros E. apply ao_gapfree0. lia.
Qed.

Lemma all_applied_insert s t nd cs lg :
  all_applied s -> applied_ok nd -> all_applied (mkSys (<[t := nd]> (sys_nodes s)) cs lg).
Proof. intros H Hnd i. simpl. fn_cases; [done|apply H]. Qed.

Lemma put_node_applied s t rf effs hs :
  0 <= SnapshotIndex (raft_of s t) -> keeps (raft_of s t) rf -> all_applied s ->
  all_applied (put_node s t rf effs hs).
Proof. intros Hs K H. apply all_applied_insert; [done|]. by apply keeps_applied. Qed.

Lemma put_applied s t rf effs :
  0 <= SnapshotIndex (raft_of s t) -> keeps (raft_of s t) rf -> all_applied s ->
  all_applied (put_raft s t rf effs).
Proof. apply put_node_applied. Qed.

Lemma put_install_applied s k rf effs c :
  0 <= SnapshotIndex (raft_of s (c_to c)) -> keeps (raft_of s (c_to c)) rf -> all_applied s ->
  all_applied (put_install s k rf effs c).
Proof. intros Hs K H. destruct (put_install_spec s k rf effs c) as [[-> _]| ->]; by apply put_node_applied. Qed.

Lemma crash_applied s t : all_applied s -> all_applied (crash n s t).
Proof. intros H. apply all_applied_insert; [done|]. apply boot_applied. Qed.

Lemma handle_applied s t o s' :
  0 <= SnapshotIndex (raft_of s t) ->
  (forall rf effs, o = Ret (rf, effs) -> keeps (raft_of s t) rf) ->
  all_applied s -> handle n s t o = Some s' -> all_applied s'.
Proof.
  intros Hs K H E. destruct o as [[rf effs]| |]; simpl in E; simplify_eq.
  - apply put_applied; eauto.
  - by apply crash_applied.
Qed.

Lemma reach_snap s i : reachable n s -> 0 <= i < n -> 0 <= SnapshotIndex (raft_of s i).
Proof.
  intros Hr Hi. destruct (reach_basic n s Hr) as (a & _ & _ & R).
  destruct (rel_node R i Hi) as [C _]. apply C.
Qed.

Lemma reach_call s k c : reachable n s -> sys_calls s !! k = Some c ->
  0 <= c_from c < n /\ 0 <= c_to c < n.
Proof.
  intros Hr Hk. destruct (reach_basic n s Hr) as (a & _ & _ & R).
  destruct (rel_calls R c) as (? & ? & _); [by eapply list_elem_of_lookup_2|done].
Qed.

Lemma seqZ_sorted m len : StronglySorted Z.lt (seqZ m len).
Proof.
  destruct (Z.le_gt_cases 0 len) as [Hl|Hl]; [|rewrite seqZ_nil by lia; constructor].
  revert m. pattern len. apply natlike_ind; [constructor| |done].
  intros k Hk IH m. rewrite seqZ_cons by lia. constructor.
  - rewrite Z.pred_succ. apply IH.
  - apply Forall_forall. intros x Hx%elem_of_seqZ. lia.
Qed.

(** The round of the daemon. *)
Lemma apply_round nd rf msgs :
  0 <= SnapshotIndex (nd_raft nd) -> applied_ok nd ->
  applyLogEntryDaemon (nd_raft nd) = Ret (rf, msgs) ->
  applied_ok (mkNode rf (nd_applyCh nd ++ msgs) (nd_notify nd) false).
Proof.
  intros Hs [] H. unfold applyLogEntryDaemon in H. apply applyLoop_indices in H as [E1 E2]; [|done|lia].
  cbn zeta in E1, E2. cbn beta in *.
  assert (Hi : forall idx, idx ∈ indices msgs ->
    Z.max (lastApplied (nd_raft nd) + 1) (SnapshotIndex (nd_raft nd) + 1) <= idx <= commitIndex (nd_raft nd)).
  { intros idx. rewrite E1, elem_of_seqZ. lia. }
  split; subst rf; simpl; unfold indices in *; rewrite ?omap_app.
  - intros idx [Hin|Hin]%elem_of_app; [apply ao_range0 in Hin|apply Hi in Hin]; case_decide; lia.
  - apply StronglySorted_app_2; [|done|rewrite E1; apply seqZ_sorted].
    intros x y Hx Hy. apply ao_range0 in Hx. apply Hi in Hy. lia.
  - case_decide; lia.
  - left. case_decide; lia.
  - intros E0. rewrite ao_gapfree0, E1 by done. case_decide.
    + trans (seqZ 1 (lastApplied (nd_raft nd) + (commitIndex (nd_raft nd) - lastApplied (nd_raft nd))));
        [rewrite (seqZ_app 1 (lastApplied (nd_raft nd))) by lia; f_equal|]; f_equal; lia.
    + rewrite (seqZ_nil (Z.max _ _)) by lia. by rewrite app_nil_r.
Qed.

Lemma exec_applied s e s' :
  reachable n s -> all_applied s -> exec n s e = Some s' -> all_applied s'.
Proof.
  intros Hr H E. destruct e as [i|k|k|k|i j|i c|i|i|i k|i idx snap|i]; unfold exec in E;
    try (match type of E with (if ?b then _ else _) = _ =>
      destruct b eqn:Hb; [|done]; unfold is_peer in Hb; zbool;
      pose proof (reach_snap s i Hr ltac:(lia)) as Hsn end).
  - eapply handle_applied; [exact Hsn| |exact H|exact E]. intros. by eapply broadCastVote_keeps.
  - destruct (sys_calls s !! k) as [[f t r]|] eqn:Hk; [|done].
    destruct (reach_call _ _ _ Hr Hk) as [_ Ht]. pose proof (reach_snap s t Hr Ht) as Hsn.
    simpl in E. unfold deliver in E. destruct r; try done; cbn [c_rpc c_to c_from] in E.
    + destruct (RequestVote _ _) as [[[? ?] ?]| |] eqn:X; simplify_eq;
        [apply put_applied; eauto using RequestVote_keeps|by apply crash_applied].
    + destruct (AppendEntries _ _) as [[[? ?] ?]| |] eqn:X; simplify_eq;
        [apply put_applied; eauto using AppendEntries_keeps|by apply crash_applied].
    + destruct (InstallSnapShot _ _) as [[[? ?] ?]| |] eqn:X; simplify_eq;
        [apply put_install_applied; eauto using InstallSnapShot_keeps|by apply crash_applied].
  - destruct (sys_calls s !! k) as [[f t r]|] eqn:Hk; [|done].
    destruct (reach_call _ _ _ Hr Hk) as [Hf _]. pose proof (reach_snap s f Hr Hf) as Hsn.
    cbn [mbind option_bind] in E. unfold reply in E.
    destruct r; try done; cbn [c_rpc c_to c_from] in E;
      (eapply (handle_applied (with_calls s (delete k (sys_calls s)))); [exact Hsn| |exact H|exact E]); intros.
    + by eapply sendRequestVoteAndProcess_keeps.
    + by eapply sendAppendEntriesAndProcess_keeps.
    + by eapply sendSnapShotAndProcess_keeps.
  - destruct (sys_calls s !! k); [|done]. simpl in E. by simplify_eq.
  - eapply handle_applied; [exact Hsn| |exact H|exact E]. intros rf effs X. bind_inv. simplify_eq.
    apply keeps_refl.
  - eapply handle_applied; [exact Hsn| |exact H|exact E]. intros rf effs X.
    apply bind_Ret_inv in X as ([[? ?] ?] & X & ?). simplify_eq. by eapply Start_keeps.
  - destruct (commitCh _) eqn:Ec; [done|]. simplify_eq. apply all_applied_insert; [done|].
    destruct (H i). split; simpl; auto.
  - destruct (applyLogEntryDaemon _) as [[rf msgs]| |] eqn:X; simplify_eq; [|by apply crash_applied].
    apply all_applied_insert; [done|]. by apply apply_round.
  - destruct (nd_notify (sys_nodes s i) !! k) as [[snap c]|]; [|done]. simpl in E. simplify_eq.
    apply all_applied_insert; [done|]. destruct (H i). unfold indices in *.
    split; simpl; unfold indices; rewrite ?omap_app; fold (indices (notifyAppUseNewSnapShot snap));
      rewrite ?notify_indices, ?app_nil_r; auto.
  - eapply handle_applied; [exact Hsn| |exact H|exact E]. intros rf effs X. bind_inv. simplify_eq.
    by eapply Compact_keeps.
  - simplify_eq. by apply crash_applied.
Qed.

Lemma reach_applied s : reachable n s -> all_applied s.
Proof.
  induction 1; [intros i; apply boot_applied|]. by eapply exec_applied.
Qed.

Lemma reach_no_compaction_snap s i : reach n no_compaction s -> 0 <= i < n ->
  SnapshotIndex (raft_of s i) = 0.
Proof.
  intros Hr Hi. destruct (reach_sim n False True no_compaction s) as (a & _ & _ & R);
    [by intros; split|done|]. destruct (rel_node R i Hi) as [C _]. by apply (nr_nocomp C).
Qed.

Lemma gap_free_indices s i : reach n no_compaction s -> 0 <= i < n ->
  indices (nd_applyCh (sys_nodes s i)) = seqZ 1 (lastApplied (raft_of s i)).
Proof.
  intros Hr Hi. assert (Hr' : reachable n s) by (by eapply reach_weaken; [|exact Hr]).
  destruct (reach_applied s Hr' i) as [_ _ _ _ Hg]. by apply Hg, reach_no_compaction_snap.
Qed.

(** In-order application.  The command indices a peer sends on applyCh in
    one incarnation strictly increase, in every execution: no command is
    delivered twice or out of order between two restarts. *)
Theorem applied_in_order s i :
  reachable n s ->
  StronglySorted Z.lt (indices (nd_applyCh (sys_nodes s i))) /\
  forall idx, idx ∈ indices (nd_applyCh (sys_nodes s i)) ->
    0 < idx <= lastApplied (raft_of s i).
Proof. intros Hr. destruct (reach_applied s Hr i). by split. Qed.

(** C19: gap-free application.  Without compaction, the command indices a peer
    has sent on applyCh are exactly 1, ..., lastApplied. *)
Theorem applied_gap_free s i :
  reach n no_compaction s -> 0 <= i < n ->
  indices (nd_applyCh (sys_nodes s i)) = seqZ 1 (lastApplied (raft_of s i)).
Proof. apply gap_free_indices. Qed.

(** C20: no lost wake-up.  In every execution, whenever something is committed
    that neither was applied nor is covered by the snapshot, the apply daemon has
    a token on commitCh or has already received one. *)
Theorem no_lost_wakeup s i :
  reachable n s ->
  Z.max (lastApplied (raft_of s i)) (SnapshotIndex (raft_of s i)) < commitIndex (raft_of s i) ->
  (0 < commitCh (raft_of s i))%nat \/ nd_woken (sys_nodes s i) = true.
Proof.
  intros Hr Hlt. destruct (reach_applied s Hr i) as [_ _ _ [?|?] _]; [unfold raft_of in *; lia|done].
Qed.

(** One round applies everything committed.  A round of applyLogEntryDaemon
    that returns leaves nothing committed above both lastApplied and the
    snapshot, and the indices it sends are exactly those above both. *)
Theorem apply_round_complete rf rf' msgs :
  0 <= SnapshotIndex rf -> applyLogEntryDaemon rf = Ret (rf', msgs) ->
  commitIndex rf' <= Z.max (lastApplied rf') (SnapshotIndex rf') /\
  let first := Z.max (lastApplied rf + 1) (SnapshotIndex rf + 1) in
  indices msgs = seqZ first (commitIndex rf - first + 1).
Proof.
  intros Hs H. apply applyLoop_indices in H as [E1 ->]; [|done|lia]. split; [|exact E1].
  simpl. case_decide; lia.
Qed.

End Apply.

(** ** Witnesses *)
Lemma applied_in_order_witness :
  indices (nd_applyCh (sys_nodes demo 0)) = [1] /\
  StronglySorted Z.lt (indices (nd_applyCh (sys_nodes demo 0))).
Proof.
  split; [vm_compute; reflexivity|]. apply (applied_in_order 3 demo 0 demo_reachable).
Defined.

Lemma applied_gap_free_witness :
  indices (nd_applyCh (sys_nodes demo 0)) = seqZ 1 (lastApplied (raft_of demo 0)).
Proof. apply (applied_gap_free 3 demo 0 demo_no_compaction). lia. Defined.

(** Peer 1 has committed its command and not applied it yet. *)
Definition committed_demo : sys Z := ran 3 (fun _ _ => true) (take 7 demo_events).

Lemma no_lost_wakeup_witness :
  (0 < commitCh (raft_of committed_demo 1))%nat \/ nd_woken (sys_nodes committed_demo 1) = true.
Proof.
  apply (no_lost_wakeup 3 committed_demo 1); [by apply ran_reach|vm_compute; reflexivity].
Defined.

Lemma apply_round_complete_witness :
  exists rf' msgs, applyLogEntryDaemon (raft_of committed_demo 1) = Ret (rf', msgs) /\
    commitIndex rf' <= Z.max (lastApplied rf') (SnapshotIndex rf').
Proof.
  destruct (applyLogEntryDaemon (raft_of committed_demo 1)) as [[rf' msgs]| |] eqn:E;
    [|vm_compute in E; discriminate E|vm_compute in E; discriminate E].
  exists rf', msgs. split; [reflexivity|].
  apply (apply_round_complete (raft_of committed_demo 1) rf' msgs); [vm_compute; discriminate|exact E].
Defined.
