(* ===== verification/RaftBounds.v ===== *)
(** * The peers never index a slice out of range

    Every critical section of raft.go indexes the log, [nextIndex] and
    [matchIndex] with computed positions, and a Go slice panics out of range.
    [panics] says that the section an event runs would panic.  No event of an
    execution without an overshooting replication request panics, and none of
    an execution without compaction does.  Most sections only rely on the shape
    of the peer ([shaped]); the success branch of
    [sendAppendEntriesAndProcess] also relies on what the leader compacted
    since it sent the request ([all_sent]). *)

From stdpp Require Import base functions list list_numbers gmap relations.
From S2P Require Import Prelude Gob RaftNode RaftNodeFacts RaftSpec RaftSystem RaftRefine RaftLead RaftSim RaftSafety.
Open Scope Z_scope.

(** ** Outcomes that do not panic *)
Definition is_panic {A} (o : outcome A) : bool := match o with Panic => true | _ => false end.

Lemma is_panic_bind {A B} (o : outcome A) (f : A -> outcome B) :
  is_panic o = false -> (forall x, o = Ret x -> is_panic (f x) = false) ->
  is_panic (o ≫= f) = false.
Proof. intros Ho Hf. destruct o; [by apply Hf|done|done]. Qed.

Lemma slice_get_no_panic {A} (l : list A) i : 0 <= i < len l -> is_panic (slice_get l i) = false.
Proof. intros H. by destruct (slice_get_in l i H) as [x ->]. Qed.

Lemma slice_set_no_panic {A} (l : list A) i x : 0 <= i < len l -> is_panic (slice_set l i x) = false.
Proof. intros H. unfold slice_set. by rewrite decide_True. Qed.

Lemma slice_from_no_panic {A} (l : list A) i : 0 <= i <= len l -> is_panic (slice_from l i) = false.
Proof. intros H. unfold slice_from. by rewrite decide_True. Qed.

Lemma slice_to_no_panic {A} (l : list A) i : 0 <= i <= len l -> is_panic (slice_to l i) = false.
Proof. intros H. unfold slice_to. by rewrite decide_True. Qed.

Create HintDb nopanic.
#[export] Hint Resolve slice_get_no_panic slice_set_no_panic slice_from_no_panic
  slice_to_no_panic : nopanic.
#[export] Hint Extern 1 (_ <= _ < _) => lia : nopanic.
#[export] Hint Extern 1 (_ <= _ <= _) => lia : nopanic.

(** One access of a section: in range, then the rest of the section. *)
Ltac np_bind := apply is_panic_bind; [auto with nopanic|intros ? ?].

Section Bounds.
Context {Cmd : Type} `{GC : Gob Cmd} (n : Z).
Implicit Types s : sys Cmd.
Implicit Types rf : Raft Cmd.
Implicit Types a : spec Cmd.

(** ** The shape of a peer *)
Record shaped rf : Prop := {
  sh_log : 0 < len (Logs rf);
  sh_next : len (nextIndex rf) = n;
  sh_match : len (matchIndex rf) = n;
  sh_me : 0 <= me rf < n
}.

Lemma core_shaped (safe nocomp : Prop) a i rf :
  0 <= i < n -> node_core n safe nocomp a i rf -> shaped rf.
Proof.
  intros Hi C. pose proof (nr_next C). pose proof (nr_match C). pose proof (nr_snap C).
  split; [|unfold len; lia|unfold len; lia|by rewrite (nr_me C)].
  rewrite (nr_logs C), len_rebased by done. lia.
Qed.

Lemma shaped_ext rf rf' :
  Logs rf' = Logs rf -> nextIndex rf' = nextIndex rf -> matchIndex rf' = matchIndex rf ->
  me rf' = me rf -> shaped rf -> shaped rf'.
Proof. intros E1 E2 E3 E4 []. split; by rewrite ?E1, ?E2, ?E3, ?E4. Qed.

Lemma enterTerm_shaped rf T : shaped rf -> shaped (enterTerm rf T).1.
Proof. unfold enterTerm. case_match; by apply shaped_ext. Qed.

(** ** The sections that rely on the shape alone *)
Lemma RequestVote_no_panic rf args : shaped rf -> is_panic (RequestVote rf args) = false.
Proof.
  intros Sh. unfold RequestVote. case_match; [done|].
  set (p := if CurrentTerm rf <? rv_Term args then (stepDown rf (rv_Term args), true) else (rf, false)).
  assert (Hp : shaped p.1) by (subst p; case_match; [by eapply shaped_ext; [..|exact Sh]|done]).
  destruct p as [rf1 ch]. simpl in Hp. destruct Hp.
  apply is_panic_bind; [|by intros [[[? ?] ?] ?]].
  case_match; [|done]. np_bind. by split_matches.
Qed.

Lemma conflictHead_no_panic (logs : list (LogEntry Cmd)) t i :
  (i <= length logs)%nat -> is_panic (conflictHead logs t i) = false.
Proof.
  induction i as [|i IH]; intros Hi; simpl; [done|].
  apply is_panic_bind; [apply slice_get_no_panic; unfold len; lia|]. intros x _.
  case_match; [apply IH; lia|done].
Qed.

Lemma sendCommitCh_no_panic rf : is_panic (sendCommitCh rf) = false.
Proof. unfold sendCommitCh. by case_decide. Qed.

Lemma appendMatched_no_panic rf args p ch :
  0 <= p < len (Logs rf) -> is_panic (appendMatched rf args p ch) = false.
Proof.
  intros Hp. unfold appendMatched.
  destruct (matchLoop_spec (length (ae_Entries args)) (Logs rf) (ae_Entries args) (p + 1) 0)
    as (m & -> & H1 & H2 & _); [lia|lia|simpl; lia|].
  pose proof (len_nonneg (ae_Entries args)). specialize (H1 ltac:(lia)). specialize (H2 ltac:(lia)).
  apply is_panic_bind; [done|]. intros ? E. injection E as <-. cbn beta iota.
  apply is_panic_bind.
  - case_match; [|done]. np_bind. by np_bind.
  - intros [rf1 ch1] _. apply is_panic_bind; [|done]. case_match; [|done]. apply sendCommitCh_no_panic.
Qed.

Lemma AppendEntries_no_panic rf args : shaped rf -> is_panic (AppendEntries rf args) = false.
Proof.
  intros Sh. unfold AppendEntries. case_match; [done|].
  fold (enterTerm rf (ae_Term args)). pose proof (enterTerm_shaped rf (ae_Term args) Sh) as Hp.
  destruct (enterTerm rf (ae_Term args)) as [rf1 ch]. simpl in Hp. destruct Hp.
  apply is_panic_bind; [|by intros [[? ?] []]].
  case_match; [done|]. case_match; [done|]. zbool. unfold logIdxGlobal2Local in *.
  np_bind. case_match; [|apply appendMatched_no_panic; lia].
  apply is_panic_bind; [|done]. apply conflictHead_no_panic. unfold len in *. lia.
Qed.

(** A compaction point inside the log. *)
Lemma rebaseLog_no_panic (logs : list (LogEntry Cmd)) size idx t from :
  size = 1 \/ (1 < size /\ 0 <= from + 1 /\ size = len logs - from) ->
  is_panic (rebaseLog logs size idx t from) = false.
Proof. intros H. by rewrite rebaseLog_spec. Qed.

Lemma InstallSnapShot_no_panic rf args : shaped rf -> is_panic (InstallSnapShot rf args) = false.
Proof.
  intros Sh. unfold InstallSnapShot. case_match; [done|].
  fold (enterTerm rf (is_Term args)). pose proof (enterTerm_shaped rf (is_Term args) Sh) as Hp.
  destruct (enterTerm rf (is_Term args)) as [rf1 ch]. simpl in Hp. destruct Hp.
  case_match; [done|]. zbool. unfold logIdxGlobal2Local in *. apply is_panic_bind.
  - case_match; [|done]. zbool. np_bind. by case_match.
  - intros size Hsize. apply is_panic_bind; [|done]. apply rebaseLog_no_panic.
    destruct (_ <? _) eqn:E in Hsize; [|by injection Hsize; left]. zbool. bind_inv.
    case_match; simplify_eq; [|by left].
    destruct (decide (len (Logs rf1) - (is_LastIncludedIndex args - SnapshotIndex rf1) = 1)); lia.
Qed.

Lemma Compact_no_panic rf idx snap : shaped rf -> is_panic (Compact rf idx snap) = false.
Proof.
  intros []. unfold Compact. case_match; [done|]. case_match; [done|]. zbool.
  unfold logIdxGlobal2Local in *. np_bind. apply is_panic_bind; [|done].
  apply rebaseLog_no_panic. rewrite max_spec. lia.
Qed.

Lemma broadCastVote_no_panic rf : shaped rf -> is_panic (broadCastVote rf) = false.
Proof. intros []. unfold broadCastVote. case_decide; [done|]. simpl. by np_bind. Qed.

Lemma becomeLeader_no_panic rf : shaped rf -> is_panic (becomeLeader rf) = false.
Proof.
  intros []. unfold becomeLeader.
  rewrite leaderInit_spec by (unfold len in *; lia). simpl.
  assert (len (replicate (length (nextIndex rf))
    (logIdxLocal2Global rf (len (Logs rf) - 1) + 1)) = n) by (unfold len in *; rewrite length_replicate; lia).
  np_bind. assert (len (replicate (length (nextIndex rf)) 0) = n)
    by (unfold len in *; rewrite length_replicate; lia). by np_bind.
Qed.

Lemma sendRequestVoteAndProcess_no_panic rf args sv r :
  shaped rf -> is_panic (sendRequestVoteAndProcess rf args sv r) = false.
Proof.
  intros Sh. unfold sendRequestVoteAndProcess. split_matches; try done.
  apply is_panic_bind; [|done]. apply becomeLeader_no_panic. by eapply shaped_ext; [..|exact Sh].
Qed.

Lemma sendSnapShotAndProcess_no_panic rf args sv r :
  shaped rf -> 0 <= sv < n -> is_panic (sendSnapShotAndProcess rf args sv r) = false.
Proof.
  intros [] Hsv. unfold sendSnapShotAndProcess. case_match; [|done]. case_match; [done|].
  case_match; [done|]. np_bind. case_match; [|done]. np_bind. by np_bind.
Qed.

Lemma checkConsistency_no_panic rf to :
  shaped rf -> 0 <= to < n -> is_panic (checkConsistency rf to) = false.
Proof.
  intros [] Hto. unfold checkConsistency. case_decide; [|done]. np_bind.
  case_match; zbool; [by np_bind|]. rewrite min_spec. unfold logIdxGlobal2Local. np_bind. by np_bind.
Qed.

Lemma Start_no_panic rf c : shaped rf -> is_panic (Start rf c) = false.
Proof.
  intros []. unfold Start. case_decide; [|done]. simpl. np_bind. by np_bind.
Qed.

(** ** The sections that rely on the history of the peer *)

(** The daemon stays inside the log as long as the commit index does. *)
Lemma applyLoop_no_panic fuel rf i lst :
  lst - SnapshotIndex rf < len (Logs rf) -> is_panic (applyLoop fuel rf i lst) = false.
Proof.
  revert rf i. induction fuel as [|fuel IH]; intros rf i Hl; simpl; [done|].
  case_match; [|done]. zbool. case_match; zbool; [by apply IH|].
  unfold logIdxGlobal2Local. np_bind. apply is_panic_bind; [by apply IH|by intros [? ?]].
Qed.

Lemma processAppendSuccess_no_panic rf args sv :
  shaped rf -> 0 <= sv < n ->
  (commitIndex rf < ae_PrevLogIndex args + len (ae_Entries args) ->
   0 <= ae_PrevLogIndex args + len (ae_Entries args) - SnapshotIndex rf < len (Logs rf)) ->
  is_panic (processAppendSuccess rf args sv) = false.
Proof.
  intros [] Hsv HN. unfold processAppendSuccess. np_bind. case_match; [|done]. np_bind. np_bind.
  apply is_panic_bind; simpl.
  - unfold logIdxGlobal2Local. simpl. case_match; [|done]. zbool. by np_bind.
  - intros count _. case_match; [apply sendCommitCh_no_panic|done].
Qed.

(** ** What a leader compacted since it sent a request *)

(** The request a call carries or answers. *)
Definition append_of (c : call Cmd) : option (AppendEntriesArgs Cmd) :=
  match c_rpc c with CallAppend args | RetAppend args _ => Some args | _ => None end.

(** A leader's snapshot ends at or before the request it sent in its term, or
    at or before its commit index. *)
Definition sent_ok s (c : call Cmd) : Prop :=
  forall args, append_of c = Some args ->
    let rf := raft_of s (c_from c) in
    state rf = LEADER -> CurrentTerm rf = ae_Term args ->
    SnapshotIndex rf <= Z.max (ae_PrevLogIndex args) (commitIndex rf).

Definition all_sent s : Prop := forall c, c ∈ sys_calls s -> sent_ok s c.

(** A leader was the leader of its term before the section, with a commit index
    and a snapshot that only grew with each other, or has just been elected. *)
Definition leads rf rf' : Prop :=
  state rf' = LEADER ->
  CurrentTerm rf' = CurrentTerm rf /\
  ((state rf = LEADER /\ commitIndex rf <= commitIndex rf' /\
    SnapshotIndex rf' <= Z.max (SnapshotIndex rf) (commitIndex rf')) \/
   state rf = CANDIDATE).

Lemma leads_same rf rf' :
  state rf' = state rf -> CurrentTerm rf' = CurrentTerm rf -> commitIndex rf' = commitIndex rf ->
  SnapshotIndex rf' = SnapshotIndex rf -> leads rf rf'.
Proof. intros E1 E2 E3 E4 Hl. split; [done|]. left. rewrite <- E1. split; [done|]. lia. Qed.

Lemma leads_follower rf rf' : state rf' <> LEADER -> leads rf rf'.
Proof. by intros H ?. Qed.

Lemma RequestVote_leads rf args rf' r effs :
  RequestVote rf args = Ret (rf', r, effs) -> leads rf rf'.
Proof.
  unfold RequestVote. intros H.
  repeat (bind_inv; simplify_eq/=; try case_match; simplify_eq/=);
    (by apply leads_follower) || by apply leads_same.
Qed.

Lemma enterTerm_follower rf T : state (enterTerm rf T).1 <> LEADER.
Proof. destruct (enterTerm_fields rf T) as [-> _]. done. Qed.

Lemma appendMatched_state rf args p ch rf' r ch' :
  appendMatched rf args p ch = Ret (rf', r, ch') -> state rf' = state rf.
Proof.
  unfold appendMatched. intros H. apply bind_Ret_inv in H as ([i j] & _ & H).
  apply bind_Ret_inv in H as ([rf1 ch1] & H1 & H). apply bind_Ret_inv in H as (rf2 & H2 & H).
  simplify_eq. trans (state rf1).
  - clear H1. case_match; [by apply sendCommitCh_Ret in H2 as ->|by simplify_eq].
  - clear H2. case_match; bind_inv; by simplify_eq.
Qed.

Lemma AppendEntries_leads rf args rf' r effs :
  AppendEntries rf args = Ret (rf', r, effs) -> leads rf rf'.
Proof.
  unfold AppendEntries. intros H. case_match; [simplify_eq; by apply leads_same|].
  fold (enterTerm rf (ae_Term args)) in H. pose proof (enterTerm_follower rf (ae_Term args)) as Hf.
  destruct (enterTerm rf (ae_Term args)) as [rf1 ch]. simpl in *.
  apply bind_Ret_inv in H as ([[rf2 r2] ch2] & H & E). simplify_eq. apply leads_follower.
  assert (state rf2 = state rf1) as E2; [|destruct ch2; simpl; congruence].
  repeat (case_match; simplify_eq/=; [done|]). bind_inv.
  case_match; [bind_inv; by simplify_eq|]. by eapply appendMatched_state.
Qed.

Lemma InstallSnapShot_leads rf args rf' r effs :
  InstallSnapShot rf args = Ret (rf', r, effs) -> leads rf rf'.
Proof.
  unfold InstallSnapShot. intros H. case_match; [simplify_eq; by apply leads_same|].
  fold (enterTerm rf (is_Term args)) in H. pose proof (enterTerm_follower rf (is_Term args)) as Hf.
  destruct (enterTerm rf (is_Term args)) as [rf1 ch]. simpl in *. apply leads_follower.
  case_match; [simplify_eq; by destruct ch|]. bind_inv. by simplify_eq.
Qed.

Lemma Compact_leads rf idx snap rf' :
  idx <= commitIndex rf -> Compact rf idx snap = Ret rf' -> leads rf rf'.
Proof.
  unfold Compact. intros Hi H. repeat (case_match; [simplify_eq; by apply leads_same|]).
  bind_inv. simplify_eq. intros Hl. simpl in *. split; [done|]. left. split; [done|]. lia.
Qed.

Lemma broadCastVote_leads rf rf' effs : broadCastVote rf = Ret (rf', effs) -> leads rf rf'.
Proof.
  unfold broadCastVote. intros H. case_decide; [simplify_eq; by apply leads_same|].
  bind_inv. simplify_eq. by apply leads_follower.
Qed.

Lemma sendRequestVoteAndProcess_leads rf args sv r rf' effs :
  sendRequestVoteAndProcess rf args sv (Some r) = Ret (rf', effs) -> leads rf rf'.
Proof.
  unfold sendRequestVoteAndProcess. intros H.
  destruct (bool_decide (state rf <> CANDIDATE)) eqn:Hc; simpl in H; [simplify_eq; by apply leads_same|].
  apply bool_decide_eq_false in Hc. apply dec_stable in Hc.
  case_match; [simplify_eq; by apply leads_same|]. case_match; [simplify_eq; by apply leads_follower|].
  destruct (rvr_VoteGranted r); [|simplify_eq; by apply leads_same].
  case_match; [|simplify_eq; by apply leads_same].
  apply bind_Ret_inv in H as (rf2 & H & E). simplify_eq. unfold becomeLeader in H.
  apply bind_Ret_inv in H as ([x y] & _ & H). bind_inv. simplify_eq. intros _. by split; [|right].
Qed.

Lemma processAppendSuccess_leads rf args sv rf' :
  0 <= peers rf -> processAppendSuccess rf args sv = Ret rf' -> leads rf rf'.
Proof.
  intros Hp. unfold processAppendSuccess. intros H. apply bind_Ret_inv in H as (m & _ & H).
  case_match; [|simplify_eq; by apply leads_same].
  apply bind_Ret_inv in H as (mtch & _ & H). apply bind_Ret_inv in H as (next & _ & H).
  apply bind_Ret_inv in H as (count & Hcount & H).
  case_match; [|simplify_eq; by apply leads_same]. apply sendCommitCh_Ret in H as ->. zbool. simpl in *.
  destruct (Z.ltb_spec (commitIndex rf) (ae_PrevLogIndex args + len (ae_Entries args))).
  - intros Hl. simpl in *. split; [done|]. left. split; [done|]. lia.
  - simplify_eq. pose proof (Z.div_pos (peers rf) 2). lia.
Qed.

Lemma sendAppendEntriesAndProcess_leads rf args sv r rf' effs :
  0 <= peers rf -> sendAppendEntriesAndProcess rf args sv (Some r) = Ret (rf', effs) -> leads rf rf'.
Proof.
  intros Hp. unfold sendAppendEntriesAndProcess. intros H.
  case_match; [simplify_eq; by apply leads_same|]. case_match; [simplify_eq; by apply leads_follower|].
  destruct (aer_Success r); apply bind_Ret_inv in H as (x & E & H); simplify_eq;
    [by eapply processAppendSuccess_leads|by apply leads_same].
Qed.

Lemma sendSnapShotAndProcess_leads rf args sv r rf' effs :
  sendSnapShotAndProcess rf args sv (Some r) = Ret (rf', effs) -> leads rf rf'.
Proof.
  unfold sendSnapShotAndProcess. intros H.
  case_match; [simplify_eq; by apply leads_same|]. case_match; [simplify_eq; by apply leads_follower|].
  apply bind_Ret_inv in H as (nx & _ & H). case_match; bind_inv; simplify_eq; by apply leads_same.
Qed.

Lemma Start_leads rf c rf' ret effs : Start rf c = Ret (rf', ret, effs) -> leads rf rf'.
Proof. unfold Start. intros H. case_decide; bind_inv; simplify_eq; by apply leads_same. Qed.

(** A request is sent only for a position the snapshot does not cover. *)
Lemma checkConsistency_sent rf to effs i e c args :
  checkConsistency rf to = Ret effs -> e ∈ effs -> effect_call i e = Some c ->
  append_of c = Some args -> c_from c = i /\ SnapshotIndex rf <= ae_PrevLogIndex args.
Proof.
  unfold checkConsistency. intros H He Hc Ha. case_decide; [|simplify_eq; by apply not_elem_of_nil in He].
  bind_inv. case_match; zbool; bind_inv; simplify_eq;
    apply list_elem_of_singleton in He as ->; simpl in Hc; simplify_eq;
    unfold append_of in Ha; simpl in Ha; simplify_eq; by split.
Qed.

(** An update of peer [t] whose calls come from old calls or carry new requests. *)
Lemma sent_update s t rf cs nd' lg a :
  all_sent s -> rel n True False a s -> 0 <= t < n -> leads (raft_of s t) rf -> nd_raft nd' = rf ->
  (forall c args, c ∈ cs -> append_of c = Some args ->
     (exists c0, c0 ∈ sys_calls s /\ c_from c0 = c_from c /\ append_of c0 = Some args) \/
     (c_from c = t /\ SnapshotIndex rf <= ae_PrevLogIndex args)) ->
  all_sent (mkSys (<[t := nd']> (sys_nodes s)) cs lg).
Proof.
  intros Hall R Ht HL Hnd Hcs c Hc args Ha. unfold raft_of. simpl.
  destruct (Hcs c args Hc Ha) as [(c0 & Hc0 & Hf & Ha0)|[-> ?]].
  - specialize (Hall c0 Hc0 args Ha0). rewrite Hf in Hall. cbn zeta in Hall. fn_cases; [|exact Hall].
    intros Hl HT. destruct (HL Hl) as [ET [(Hl0 & Hci & Hsn)|Hcand]].
    + specialize (Hall Hl0 ltac:(congruence)). lia.
    + destruct (rel_node R (c_from c) Ht) as [C _]. destruct (nr_cand C Hcand) as [_ Hno].
      destruct Hno. rewrite <- (nr_term C), <- ET, HT, <- Hf.
      destruct (rel_calls R c0 Hc0) as (_ & _ & _ & Hok). unfold append_of in Ha0.
      destruct (c_rpc c0); simplify_eq/=; destruct Hok as (P & Hok); [|destruct Hok as [Hok _]]; apply Hok.
  - rewrite fn_lookup_insert, Hnd. lia.
Qed.

Lemma sent_crash s t cs :
  all_sent s -> (forall c, c ∈ cs -> c ∈ sys_calls s) -> all_sent (crash n (with_calls s cs) t).
Proof.
  intros Hall Hcs c Hc args Ha. simpl in Hc. specialize (Hall c (Hcs c Hc) args Ha).
  unfold raft_of in *. simpl. fn_cases; [|exact Hall].
  unfold boot, Make. simpl. destruct (dePersistState_static (initRaft n (c_from c)
    (Copy (persister (raft_of (with_calls s cs) (c_from c)))))) as (_ & _ & _ & _ & _ & _ & _ & -> & _). done.
Qed.

Lemma sent_handle s t o s' a cs :
  all_sent s -> rel n True False a s -> 0 <= t < n -> (forall c, c ∈ cs -> c ∈ sys_calls s) ->
  (forall rf effs, o = Ret (rf, effs) -> leads (raft_of s t) rf /\
     forall e c args, e ∈ effs -> effect_call t e = Some c -> append_of c = Some args ->
       c_from c = t /\ SnapshotIndex rf <= ae_PrevLogIndex args) ->
  handle n (with_calls s cs) t o = Some s' -> all_sent s'.
Proof.
  intros Hall R Ht Hcs Ho H. destruct o as [[rf effs]| |]; simpl in H; simplify_eq.
  - destruct (Ho rf effs eq_refl) as [HL He]. unfold put_raft, put_node. eapply (sent_update s t rf); try done. simpl.
    intros c args [Hc|(e & Hin & Hc)%list_elem_of_omap]%elem_of_app Ha; [left; eauto|right; eauto].
  - by apply sent_crash.
Qed.
Lemma deliver_sent s k c s' a :
  all_sent s -> rel n True False a s -> sys_calls s !! k = Some c -> deliver n s k c = Some s' ->
  all_sent s'.
Proof.
  intros Hall R Hk H. pose proof (list_elem_of_lookup_2 _ _ _ Hk) as Hin.
  destruct (rel_calls R c Hin) as (_ & Ht & _).
  assert (Hput : forall r rf effs, leads (raft_of s (c_to c)) rf -> omap (effect_call (c_to c)) effs = [] ->
    append_of (mkCall (c_from c) (c_to c) r) = append_of c ->
    all_sent (put_raft (with_calls s (<[k := mkCall (c_from c) (c_to c) r]> (sys_calls s))) (c_to c) rf effs)).
  { intros r rf effs HL He Er. unfold put_raft, put_node. simpl. rewrite He, app_nil_r.
    eapply (sent_update s (c_to c) rf); try done. intros x args Hx Ha. left.
    apply list_elem_of_lookup in Hx as [j Hj].
    apply list_lookup_insert_Some in Hj as [(_ & <- & _)|(_ & Hj)].
    - exists c. rewrite <- Er. done.
    - exists x. split; [by eapply list_elem_of_lookup_2|done]. }
  assert (Hlost : all_sent (crash n (with_calls s (delete k (sys_calls s))) (c_to c))).
  { apply sent_crash; [done|]. intros x. apply delete_elem. }
  destruct (rel_node R _ Ht) as [C Sy]. destruct (rel_calls R c Hin) as (Hf & _ & _ & Hok).
  unfold deliver in H. destruct c as [f t []]; try done; cbn [c_rpc c_to c_from] in *; simpl in Hok.
  - destruct (RequestVote _ _) as [[[rf r] effs]| |] eqn:E; simplify_eq; [|done].
    apply Hput; [by eapply RequestVote_leads| |done].
    unfold RequestVote in E. clear -E.
    repeat (bind_inv; simplify_eq/=; try case_match; simplify_eq/=); done.
  - destruct (AppendEntries _ _) as [[[rf r] effs]| |] eqn:E; simplify_eq; [|done].
    apply Hput; [by eapply AppendEntries_leads| |done].
    unfold AppendEntries in E. clear -E. case_match; [by simplify_eq|]. case_match.
    apply bind_Ret_inv in E as ([[? ?] ?] & _ & E). by simplify_eq.
  - destruct (InstallSnapShot _ _) as [[[rf r] effs]| |] eqn:E; simplify_eq; [|done].
    assert (HL : leads (raft_of s t) rf) by (by eapply InstallSnapShot_leads).
    assert (He : omap (effect_call t) effs = []).
    { unfold InstallSnapShot in E. clear -E. case_match; [by simplify_eq|]. case_match.
      case_match; [by simplify_eq|]. bind_inv. by simplify_eq. }
    destruct (put_install_spec s k rf effs (mkCall f t (RetSnap args r))) as [[-> _]| ->]; [by apply Hput|].
    unfold put_node. simpl. rewrite He, app_nil_r. eapply (sent_update s t rf); try done.
    intros x args' Hx Ha. left. exists x. split; [by eapply delete_elem|done].
Qed.

(** A section that only changes the apply channel or the daemon's tokens. *)
Lemma sent_quiet s t rf cs msgs nt w lg a :
  all_sent s -> rel n True False a s -> 0 <= t < n -> leads (raft_of s t) rf ->
  (forall c, c ∈ cs -> c ∈ sys_calls s \/ is_retsnap c) ->
  all_sent (mkSys (<[t := mkNode rf msgs nt w]> (sys_nodes s)) cs lg).
Proof.
  intros Hall R Ht HL Hcs. eapply (sent_update s t rf); try done. intros c args Hc Ha. left.
  destruct (Hcs c Hc) as [?|(x & r & E)]; [by eauto|]. unfold append_of in Ha. by rewrite E in Ha.
Qed.

Lemma applyLoop_leads fuel rf i lst rf' msgs :
  applyLoop fuel rf i lst = Ret (rf', msgs) -> exists v, rf' = set_lastApplied v rf.
Proof.
  revert rf i msgs. induction fuel as [|fuel IH]; intros rf i msgs H; simpl in H.
  { simplify_eq. exists (lastApplied rf'). by destruct rf'. }
  case_match; [|simplify_eq; exists (lastApplied rf'); by destruct rf'].
  case_match; [by eapply IH|]. apply bind_Ret_inv in H as (e & _ & H).
  apply bind_Ret_inv in H as ([rf1 ms] & H & E). simplify_eq. apply IH in H as [v ->]. by exists v.
Qed.

Lemma no_append_effects (effs : list (effect Cmd)) t rf e c args :
  (forall p x, GoSendAppendEntries x p ∉ effs) -> e ∈ effs -> effect_call t e = Some c ->
  append_of c = Some args -> c_from c = t /\ SnapshotIndex rf <= ae_PrevLogIndex args.
Proof.
  intros Hno He Hc Ha. destruct e; simpl in Hc; simplify_eq; unfold append_of in Ha; simpl in Ha;
    simplify_eq. exfalso. by eapply Hno.
Qed.
(** The requests a section other than [checkConsistency] starts. *)
Lemma broadCastVote_effects rf rf' effs p x :
  broadCastVote rf = Ret (rf', effs) -> GoSendAppendEntries x p ∉ effs.
Proof.
  unfold broadCastVote. intros H. case_decide; [simplify_eq; by apply not_elem_of_nil|].
  bind_inv. simplify_eq. by intros (? & ? & _)%list_elem_of_fmap.
Qed.

Ltac no_such_effect :=
  let H := fresh in intros H;
  repeat (apply elem_of_cons in H as [?|H]; [discriminate|]); by apply not_elem_of_nil in H.

(** The section that processes a reply. *)
Definition reply_section s (c : call Cmd) : outcome (Raft Cmd * list (effect Cmd)) :=
  let rf := raft_of s (c_from c) in
  match c_rpc c with
  | RetVote args r => sendRequestVoteAndProcess rf args (c_to c) (Some r)
  | RetAppend args r => sendAppendEntriesAndProcess rf args (c_to c) (Some r)
  | RetSnap args r => sendSnapShotAndProcess rf args (c_to c) (Some r)
  | _ => Block
  end.

Lemma reply_section_spec s k c :
  reply n s k c = handle n (with_calls s (delete k (sys_calls s))) (c_from c) (reply_section s c).
Proof. unfold reply, reply_section. by destruct (c_rpc c). Qed.

Lemma reply_effects s c rf effs p x :
  reply_section s c = Ret (rf, effs) -> GoSendAppendEntries x p ∉ effs.
Proof.
  intros E. unfold reply_section in E.
  destruct (c_rpc c); try done;
    unfold sendRequestVoteAndProcess, sendAppendEntriesAndProcess, sendSnapShotAndProcess in E;
    repeat (bind_inv; simplify_eq/=; try case_match; simplify_eq/=);
    no_such_effect.
Qed.

Lemma reply_leads s c rf effs :
  0 <= peers (raft_of s (c_from c)) ->
  reply_section s c = Ret (rf, effs) -> leads (raft_of s (c_from c)) rf.
Proof.
  intros Hp E. unfold reply_section in E. destruct (c_rpc c); try done.
  - by eapply sendRequestVoteAndProcess_leads.
  - by eapply sendAppendEntriesAndProcess_leads.
  - by eapply sendSnapShotAndProcess_leads.
Qed.

Lemma exec_all_sent s e s' a :
  all_sent s -> rel n True False a s -> exec n s e = Some s' -> all_sent s'.
Proof.
  intros Hall R E.
  assert (Hself : forall t o, 0 <= t < n -> handle n s t o = Some s' ->
    (forall rf effs, o = Ret (rf, effs) -> leads (raft_of s t) rf /\
     forall e c args, e ∈ effs -> effect_call t e = Some c -> append_of c = Some args ->
       c_from c = t /\ SnapshotIndex rf <= ae_PrevLogIndex args) -> all_sent s').
  { intros t o Ht Hh Ho. eapply (sent_handle s t o s' a (sys_calls s)); done. }
  destruct e as [i|k|k|k|i j|i c|i|i|i k|i idx snap|i]; unfold exec in E;
    try (match type of E with (if ?b then _ else _) = _ =>
      destruct b eqn:Hb; [|done]; unfold is_peer in Hb; zbool end).
  - eapply Hself; [|exact E|]; [lia|]. intros rf effs X. split; [by eapply broadCastVote_leads|].
    intros e c args. apply no_append_effects. intros p x. by eapply broadCastVote_effects.
  - destruct (sys_calls s !! k) as [c|] eqn:Hk; [|done]. by eapply deliver_sent.
  - destruct (sys_calls s !! k) as [c|] eqn:Hk; [|done]. cbn [mbind option_bind] in E.
    destruct (rel_calls R c) as (Hf & _); [by eapply list_elem_of_lookup_2|].
    destruct (rel_node R _ Hf) as [C _]. rewrite reply_section_spec in E.
    eapply (sent_handle s (c_from c)); [exact Hall|exact R|exact Hf| | |exact E];
      [intros x; apply delete_elem|].
    intros rf effs X. split; [eapply reply_leads; [rewrite (nr_peers C); lia|exact X]|].
    intros e x args. apply no_append_effects. intros p y. by eapply reply_effects.
  - destruct (sys_calls s !! k); [|done]. simpl in E. simplify_eq. intros x Hx.
    exact (Hall x (delete_elem _ _ _ Hx)).
  - eapply Hself; [|exact E|]; [lia|]. intros rf effs X. bind_inv. simplify_eq.
    split; [by apply leads_same|]. intros e c args. by eapply checkConsistency_sent.
  - eapply Hself; [|exact E|]; [lia|]. intros rf effs X.
    apply bind_Ret_inv in X as ([[? ?] effs'] & X & ?). simplify_eq. split; [by eapply Start_leads|].
    intros e x args. apply no_append_effects. intros q y. unfold Start in X.
    case_decide; bind_inv; simplify_eq; no_such_effect.
  - destruct (commitCh _) eqn:Ec; [done|]. simplify_eq.
    eapply sent_quiet; try done; [by apply leads_same|by left].
  - destruct (applyLogEntryDaemon _) as [[rf msgs]| |] eqn:X; simplify_eq.
    + eapply sent_quiet; try done; [|by left]. apply applyLoop_leads in X as [v ->]. by apply leads_same.
    + eapply (Hself i Panic); [lia|done|done].
  - destruct (nd_notify (sys_nodes s i) !! k) as [[snap c]|] eqn:Hk; [|done]. simpl in E. simplify_eq.
    eapply sent_quiet; try done; [by apply leads_same|].
    intros x [Hx|Hx]%elem_of_app; [by left|right]. apply list_elem_of_singleton in Hx as ->.
    eapply (rel_held R i snap); [done|]. by eapply list_elem_of_lookup_2.
  - eapply Hself; [|exact E|]; [lia|]. intros rf effs X. bind_inv. simplify_eq.
    split; [|intros ? ? ? Hno; by apply not_elem_of_nil in Hno]. eapply Compact_leads; [|done].
    match goal with Hx : existsb _ _ = true |- _ =>
      apply existsb_exists in Hx as (m & Hm%list_elem_of_In & Hidx) end.
    destruct m as [x c|]; simpl in Hidx; [zbool; subst x|done]. by eapply (rel_sent R).
  - simplify_eq. eapply (Hself i Panic); [lia|done|done].
Qed.
Lemma init_sent : all_sent (sys_init n).
Proof. intros c Hc. by apply not_elem_of_nil in Hc. Qed.

Lemma reach_all_sent s : reach n no_overshoot s -> all_sent s.
Proof.
  induction 1 as [|s e s' Hr IH _ He]; [apply init_sent|].
  destruct (reach_safe n s Hr) as (a & _ & _ & R). by eapply exec_all_sent.
Qed.

(** A positive reply points into the part of the log the leader still has. *)
Lemma reply_in_log s f t args r a :
  Inv n a -> rel n True False a s -> all_sent s ->
  mkCall f t (RetAppend args r) ∈ sys_calls s ->
  let rf := raft_of s f in
  let N := ae_PrevLogIndex args + len (ae_Entries args) in
  state rf = LEADER -> CurrentTerm rf = aer_Term r -> aer_Success r = true -> commitIndex rf < N ->
  0 <= N - SnapshotIndex rf < len (Logs rf).
Proof.
  intros I R Hall Hin rf N Hl HT Hs HN. destruct (rel_calls R _ Hin) as (Hf & _ & _ & Hok).
  simpl in Hf, Hok. destruct Hok as (P & (Hlead & [HP Hargs] & _) & Hr & _).
  destruct (Hr Hs) as [ET _]. destruct (rel_node R f Hf) as [C _]. fold rf in C.
  specialize (Hall _ Hin args eq_refl). cbn [c_from] in Hall. fold rf in Hall.
  specialize (Hall Hl ltac:(congruence)). pose proof (nr_snap C).
  assert (EN : N = len P).
  { destruct Hargs as [(? & E & _)|(_ & _ & _ & Hns & _)]; [|by destruct Hns].
    subst N. rewrite E. unfold len in *. rewrite length_drop. lia. }
  assert (len P <= len (log a f)).
  { rewrite (inv_leader_log _ _ I f) by (rewrite <- (nr_lead C Hl); done).
    rewrite <- (nr_term C), HT, ET. apply prefix_length in HP. unfold len. lia. }
  destruct Hargs as [(? & _)|(_ & _ & _ & Hns & _)]; [|by destruct Hns].
  rewrite (nr_logs C), len_rebased by done. lia.
Qed.

(** ** Panic freedom *)

(** The critical section that event [e] runs in state [s] panics. *)
Definition panics s (e : event Cmd) : bool :=
  match e with
  | EvTimeout i => is_peer n i && is_panic (broadCastVote (raft_of s i))
  | EvDeliver k =>
      match sys_calls s !! k with
      | Some c =>
          let rf := raft_of s (c_to c) in
          match c_rpc c with
          | CallVote args => is_panic (RequestVote rf args)
          | CallAppend args => is_panic (AppendEntries rf args)
          | CallSnap args => is_panic (InstallSnapShot rf args)
          | _ => false
          end
      | None => false
      end
  | EvReply k =>
      match sys_calls s !! k with Some c => is_panic (reply_section s c) | None => false end
  | EvSync i j =>
      is_peer n i && is_peer n j && is_panic (checkConsistency (raft_of s i) j)
  | EvStart i c => is_peer n i && is_panic (Start (raft_of s i) c)
  | EvApply i => is_peer n i && is_panic (applyLogEntryDaemon (raft_of s i))
  | EvCompact i idx snap => is_peer n i && is_panic (Compact (raft_of s i) idx snap)
  | EvDrop _ | EvWake _ | EvNotify _ _ | EvCrash _ => false
  end.

Lemma reach_no_panic s e : reach n no_overshoot s -> panics s e = false.
Proof.
  intros Hr. destruct (reach_safe n s Hr) as (a & _ & I & R). pose proof (reach_all_sent s Hr) as Hall.
  assert (Hsh : forall i, 0 <= i < n -> shaped (raft_of s i)).
  { intros i Hi. destruct (rel_node R i Hi) as [C _]. by eapply core_shaped. }
  assert (Hpeer : forall i (b : bool), (0 <= i < n -> b = false) -> is_peer n i && b = false).
  { intros i b Hb. destruct (is_peer n i) eqn:E; [|done]. unfold is_peer in E. zbool. apply Hb. lia. }
  destruct e as [i|k|k|k|i j|i c|i|i|i k|i idx snap|i]; simpl; try done.
  - apply Hpeer. intros Hi. by apply broadCastVote_no_panic, Hsh.
  - destruct (sys_calls s !! k) as [c|] eqn:Hk; [|done].
    destruct (rel_calls R c) as (_ & Ht & _); [by eapply list_elem_of_lookup_2|].
    destruct (c_rpc c); try done; [apply RequestVote_no_panic|apply AppendEntries_no_panic|
      apply InstallSnapShot_no_panic]; by apply Hsh.
  - destruct (sys_calls s !! k) as [[f t r]|] eqn:Hk; [|done]. apply list_elem_of_lookup_2 in Hk.
    destruct (rel_calls R _ Hk) as (Hf & Ht & _). simpl in Hf, Ht. specialize (Hsh f Hf).
    unfold reply_section. cbn [c_rpc c_from c_to]. destruct r as [|args r| |args r| |args r]; try done.
    + by apply sendRequestVoteAndProcess_no_panic.
    + unfold sendAppendEntriesAndProcess.
      destruct (bool_decide (state (raft_of s f) <> LEADER)) eqn:Hl; [done|].
      apply bool_decide_eq_false in Hl. apply dec_stable in Hl. simpl.
      case_match; [done|]. case_match; [done|]. zbool.
      destruct (aer_Success r) eqn:Hs; (apply is_panic_bind; [|done]).
      * apply processAppendSuccess_no_panic; [done|done|]. intros HN.
        eapply (reply_in_log s f t args r a); try done. lia.
      * destruct Hsh. by apply slice_set_no_panic; rewrite sh_next0.
    + by apply sendSnapShotAndProcess_no_panic.
  - rewrite <- andb_assoc. apply Hpeer. intros Hi. apply Hpeer. intros Hj.
    by apply checkConsistency_no_panic; [apply Hsh|].
  - apply Hpeer. intros Hi. by apply Start_no_panic, Hsh.
  - apply Hpeer. intros Hi. apply applyLoop_no_panic. destruct (rel_node R i Hi) as [C _].
    destruct (nr_commit C Logic.I) as [Hci _]. pose proof (nr_snap C).
    rewrite (nr_logs C), len_rebased by done. lia.
  - apply Hpeer. intros Hi. by apply Compact_no_panic, Hsh.
Qed.
(** C10: no run-time panic.  In an execution in which no replication request
    overshoots the leader's log, no event indexes a slice of the peer out of
    range: not an RPC handler, not the processing of a reply that arrives after
    the leader compacted its log, not the apply daemon. *)
Theorem no_run_time_panic s e : reach n no_overshoot s -> panics s e = false.
Proof. apply reach_no_panic. Qed.

(** No run-time panic without compaction.  When no service compacts its log,
    no event of any execution indexes a slice out of range. *)
Theorem no_run_time_panic_no_compaction s e : reach n no_compaction s -> panics s e = false.
Proof. intros Hr. by apply reach_no_panic, no_compaction_no_overshoot. Qed.

End Bounds.

(** ** The type of a peer *)
Section Shape.
Context {Cmd : Type} `{GC : Gob Cmd} (n : Z).
Implicit Types s : sys Cmd.

(** What the fields of a peer are: slices of the right lengths, the terms of the
    log in order and at most the current one, no index below the snapshot. *)
Record well_formed (i : Z) (rf : Raft Cmd) : Prop := {
  wf_peers : peers rf = n;
  wf_me : me rf = i;
  wf_shape : shaped n rf;
  wf_term : 0 <= CurrentTerm rf;
  wf_snapshot : 0 <= SnapshotIndex rf;
  wf_entry k e : entry_at rf k = Ret e ->
    SnapshotIndex rf <= k < SnapshotIndex rf + len (Logs rf) /\ 0 <= Term e <= CurrentTerm rf;
  wf_sorted j k e f : entry_at rf j = Ret e -> entry_at rf k = Ret f -> j <= k -> Term e <= Term f;
  wf_candidate : state rf = CANDIDATE -> VotedFor rf = me rf;
  wf_leader : state rf = LEADER -> VotedFor rf = me rf
}.

(** C11: every peer is well formed at every point of every execution. *)
Theorem peer_well_formed s i : reachable n s -> 0 <= i < n -> well_formed i (raft_of s i).
Proof.
  intros Hr Hi. destruct (reach_basic n s Hr) as (a & _ & I & R). destruct (rel_node R i Hi) as [C _].
  pose proof (nr_snap C) as Hs. pose proof (inv_wf_log _ _ I i) as Hwf. pose proof (inv_term_nonneg _ _ I i) as Ht.
  assert (Hterm : forall k : nat, (k <= length (log a i))%nat -> 0 <= term_at (log a i) k <= term a i).
  { intros k Hk. split; [apply (term_at_mono n a I (log a i) 0 k Hwf); lia|].
    destruct k as [|k]; [done|]. destruct (lookup_lt_is_Some_2 (log a i) k) as [e He]; [lia|].
    rewrite (term_at_lookup _ _ _ He). apply (inv_log_le _ _ I). by eapply list_elem_of_lookup_2. }
  split; try apply C; [by eapply core_shaped|by rewrite (nr_term C)|..].
  - intros k e He. destruct (entry_at_term _ _ _ _ _ _ _ _ C He) as [Hk ->]. rewrite (nr_term C).
    rewrite (nr_logs C), len_rebased by done. split; [lia|]. apply Hterm. unfold len in *. lia.
  - intros j k e f He Hf Hjk. destruct (entry_at_term _ _ _ _ _ _ _ _ C He) as [Hj ->].
    destruct (entry_at_term _ _ _ _ _ _ _ _ C Hf) as [Hk ->].
    apply (term_at_mono n a I); [done|]. unfold len in *. lia.
  - intros Hst. rewrite (nr_me C). by apply (nr_cand C).
  - intros Hst. pose proof (nr_lead C Hst) as Hl. apply (inv_leader_vote _ _ I) in Hl.
    rewrite (nr_vote C) in Hl. case_decide; [done|]. rewrite (nr_me C). congruence.
Qed.
End Shape.

(** ** Witnesses *)

(** The leader compacts the entry it replicated while a request that was sent
    before the compaction is still in flight. *)
Definition compacted_events : list (event Z) :=
  demo_events ++ [EvStart 1 20; EvSync 1 0; EvCompact 1 1 [Byte.x01]; EvDeliver 1].

Definition compacted : sys Z := ran 3 (fun s e => negb (overshootsb s e)) compacted_events.

Lemma compacted_no_overshoot : reach 3 no_overshoot compacted.
Proof. apply ran_reach. intros s e H Ho%overshootsb_spec. by rewrite Ho in H. Qed.

Lemma no_run_time_panic_witness :
  SnapshotIndex (raft_of compacted 1) = 1 /\
  (exists args, sys_calls compacted !! 1%nat =
     Some (mkCall 1 0 (RetAppend args (mkAppendEntriesReply 1 true 0)))) /\
  panics 3 compacted (EvReply 1) = false.
Proof.
  split; [vm_compute; reflexivity|]. split; [eexists; vm_compute; reflexivity|].
  apply (no_run_time_panic 3 compacted (EvReply 1) compacted_no_overshoot).
Defined.

Lemma no_run_time_panic_no_compaction_witness : panics 3 demo (EvApply 0) = false.
Proof. apply (no_run_time_panic_no_compaction 3 demo (EvApply 0) demo_no_compaction). Defined.

Lemma peer_well_formed_witness :
  entry_at (raft_of demo 1) 1 = Ret (mkLogEntry 1 1 (Some 10)) /\ well_formed 3 1 (raft_of demo 1).
Proof.
  split; [vm_compute; reflexivity|]. apply (peer_well_formed 3 demo 1 demo_reachable). lia.
Defined.
