(* ===== verification/RaftTrace.v ===== *)
(** * What the peers send on applyCh

    Facts about the record of applied commands and about what a peer sends on
    applyCh that a reader of the channel relies on: every message is in the
    record and every entry carries a command. *)

From stdpp Require Import base functions list list_numbers gmap relations.
From S2P Require Import Prelude Gob RaftNode RaftNodeFacts RaftSpec RaftSystem RaftRefine RaftLead RaftSim RaftSafety.
Open Scope Z_scope.

Section Facts.
Context {Cmd : Type} `{GC : Gob Cmd} (n : Z).
Implicit Types s : sys Cmd.
Implicit Types rf : Raft Cmd.
Implicit Types a : spec Cmd.

(** Every entry of the protocol carries a command. *)
Definition with_command (e : LogEntry Cmd) : Prop := Command e <> None.

Definition commanded a : Prop :=
  (forall p, Forall with_command (log a p)) /\ (forall T, Forall with_command (LL a T)).

Lemma spec_step_commanded a b : spec_step n a b -> commanded a -> commanded b.
Proof.
  intros Hs [Hl HL].
  assert (Hpre : forall L P, P `prefix_of` L -> Forall with_command L -> Forall with_command P).
  { intros L P [k ->]. by intros [? _]%Forall_app. }
  destruct Hs as [| | | |c e _ _ He|p P L' _ HP Hm]; try (by split).
  - split; [done|]. intros T. simpl. fn_cases; auto.
  - split; intros x; simpl; fn_cases; auto; apply Forall_app; (split; [apply HL|by constructor]).
  - split; [|done]. intros x. simpl. fn_cases; auto.
    destruct Hm as [[_ ->]|[_ ->]]; [done|by eapply Hpre].
Qed.

Lemma spec_commanded a b : rtc (spec_step n) a b -> commanded a -> commanded b.
Proof. induction 1 as [|a b c Hs _ IH]; intros Ha; [done|]. by eapply IH, spec_step_commanded. Qed.

Lemma logged_command s i idx c :
  reach n no_overshoot s -> (i, idx, c) ∈ sys_logs s -> is_Some c.
Proof.
  intros Hr Hin. destruct (reach_safe n s Hr) as (a & Hst & I & R).
  destruct (rel_logs R _ Logic.I Hin) as (t & k & e & _ & _ & He & Ec). simpl in Ec. subst c.
  assert (commanded a) as [_ HL].
  { eapply spec_commanded; [exact Hst|]. split; intros; constructor. }
  apply not_eq_None_Some. by eapply (Forall_lookup_1 _ _ _ _ (HL t)).
Qed.

(** What was sent on applyCh is in the record. *)
Definition sent_logged s : Prop :=
  forall i idx c, CommandMsg idx c ∈ nd_applyCh (sys_nodes s i) -> (i, idx, c) ∈ sys_logs s.

(** The effect of an event on what peer [i] has sent: nothing, a snapshot, newly
    recorded commands, or a restart. *)
Definition sends s s' (i : Z) : Prop :=
  let old := nd_applyCh (sys_nodes s i) in
  let new := nd_applyCh (sys_nodes s' i) in
  new = old \/ (exists snap, new = old ++ notifyAppUseNewSnapShot snap) \/
  (exists msgs, new = old ++ msgs /\ sys_logs s' = sys_logs s ++ omap (log_record i) msgs) \/
  (exists snap, new = notifyAppUseNewSnapShot snap).

Lemma crash_sends s cs t i : sends s (crash n (with_calls s cs) t) i.
Proof. unfold sends. simpl. fn_cases; [|by left]. do 3 right. by eexists. Qed.

Lemma put_node_sends s cs t rf effs hs i : sends s (put_node (with_calls s cs) t rf effs hs) i.
Proof. left. simpl. by fn_cases. Qed.

Lemma put_sends s cs t rf effs i : sends s (put_raft (with_calls s cs) t rf effs) i.
Proof. apply put_node_sends. Qed.

Lemma install_sends s k rf effs c :
  sys_logs (put_install s k rf effs c) = sys_logs s /\ forall i, sends s (put_install s k rf effs c) i.
Proof.
  destruct (put_install_spec s k rf effs c) as [[-> _]| ->]; (split; [done|]); intros i; apply put_node_sends.
Qed.

Lemma handle_sends s cs t o s' :
  handle n (with_calls s cs) t o = Some s' -> sys_logs s' = sys_logs s /\ forall i, sends s s' i.
Proof.
  intros H. destruct o as [[rf effs]| |]; simpl in H; simplify_eq; (split; [done|]);
    intros i; [apply put_sends|apply crash_sends].
Qed.

Lemma exec_sends s e s' :
  exec n s e = Some s' -> (exists rs, sys_logs s' = sys_logs s ++ rs) /\ forall i, sends s s' i.
Proof.
  intros H.
  assert (Hdone : sys_logs s' = sys_logs s /\ (forall i, sends s s' i) ->
    (exists rs, sys_logs s' = sys_logs s ++ rs) /\ forall i, sends s s' i).
  { intros [E Hi]. split; [exists []; by rewrite app_nil_r|done]. }
  destruct e as [i|k|k|k|i j|i c|i|i|i k|i idx snap|i]; unfold exec in H;
    try (match type of H with (if ?b then _ else _) = _ => destruct b eqn:Hb; [|done] end).
  - apply Hdone. by apply (handle_sends s (sys_calls s) i (broadCastVote (raft_of s i))).
  - destruct (sys_calls s !! k) as [c|]; [|done]. apply Hdone. cbn [mbind option_bind] in H.
    unfold deliver in H. destruct (c_rpc c); try done.
    + destruct (RequestVote _ _) as [[[? ?] ?]| |]; simplify_eq; (split; [done|]); intros;
        apply put_sends || apply crash_sends.
    + destruct (AppendEntries _ _) as [[[? ?] ?]| |]; simplify_eq; (split; [done|]); intros;
        apply put_sends || apply crash_sends.
    + destruct (InstallSnapShot _ _) as [[[? ?] ?]| |]; simplify_eq; [apply install_sends|].
      split; [done|]. intros. apply crash_sends.
  - destruct (sys_calls s !! k) as [c|]; [|done]. apply Hdone. cbn [mbind option_bind] in H.
    unfold reply in H. destruct (c_rpc c); try done; by eapply handle_sends.
  - destruct (sys_calls s !! k) as [c|]; [|done]. simpl in H. simplify_eq. apply Hdone.
    split; [done|]. intros i. by left.
  - apply Hdone. by eapply (handle_sends s (sys_calls s)).
  - apply Hdone. by eapply (handle_sends s (sys_calls s)).
  - case_match; [done|]. simplify_eq. apply Hdone. split; [done|]. intros x. left. simpl. by fn_cases.
  - destruct (applyLogEntryDaemon _) as [[rf msgs]| |]; simplify_eq.
    + split; [by eexists|]. intros x. unfold sends. simpl. fn_cases; [|by left].
      right; right; left. by eexists.
    + apply Hdone. split; [done|]. intros x. apply (crash_sends s (sys_calls s) i).
  - destruct (nd_notify (sys_nodes s i) !! k) as [[snap c]|]; [|done]. simpl in H. simplify_eq.
    apply Hdone. split; [done|]. intros x. unfold sends. simpl. fn_cases; [|by left].
    right; left. by eexists.
  - apply Hdone. by eapply (handle_sends s (sys_calls s)).
  - simplify_eq. apply Hdone. split; [done|]. intros x. apply (crash_sends s (sys_calls s) i).
Qed.

Lemma notify_no_command snap idx (c : option Cmd) : CommandMsg idx c ∉ notifyAppUseNewSnapShot snap.
Proof. unfold notifyAppUseNewSnapShot. case_decide; set_solver. Qed.

Lemma reach_sent_logged ok s : reach n ok s -> sent_logged s.
Proof.
  induction 1 as [|s e s' _ IH _ He]; intros i idx c Hin.
  { by apply notify_no_command in Hin. }
  destruct (exec_sends s e s' He) as [[rs El] Hs].
  assert (Hold : forall m, m ∈ sys_logs s -> m ∈ sys_logs s') by (intros m Hm; rewrite El; set_solver).
  destruct (Hs i) as [E|[(snap & E)|[(msgs & E & El')|(snap & E)]]]; rewrite E in Hin.
  - by apply Hold, IH.
  - apply elem_of_app in Hin as [Hin|Hin]; [by apply Hold, IH|by apply notify_no_command in Hin].
  - apply elem_of_app in Hin as [Hin|Hin]; [by apply Hold, IH|]. rewrite El'. apply elem_of_app. right.
    apply list_elem_of_omap. by eexists.
  - by apply notify_no_command in Hin.
Qed.

End Facts.
