(* ===== verification/RaftOrigin.v ===== *)
(** * Where the applied commands come from

    Without compaction every command in a log, in a replication request, or in
    the record of applied commands was handed to Start before, no snapshot is
    saved or announced, and the record has no gaps.  So a command that is started
    only after an index was applied is applied, if ever, at a later index: the log
    respects the order of non-overlapping requests. *)

From stdpp Require Import base functions list list_numbers gmap relations.
From S2P Require Import Prelude Gob RaftNode RaftNodeFacts RaftSpec RaftSystem RaftRefine RaftLead RaftSim RaftSafety RaftApply RaftTrace.
Open Scope Z_scope.

Lemma take_elem {A} (l : list A) k x : x ∈ take k l -> x ∈ l.
Proof. intros (i & Hi & _)%elem_of_take. by eapply list_elem_of_lookup_2. Qed.

Lemma drop_elem {A} (l : list A) k x : x ∈ drop k l -> x ∈ l.
Proof. intros (i & Hi)%list_elem_of_lookup_1. rewrite lookup_drop in Hi. by eapply list_elem_of_lookup_2. Qed.

Section Sections.
Context {Cmd : Type} `{GC : Gob Cmd} (n : Z).
Implicit Types rf : Raft Cmd.

Definition snap_of rf : bytes := snapshot (persister rf).

(** An effect of peer [rf] that announces no snapshot, sends only entries of its
    log, and no other snapshot than the one it has saved. *)
Definition mild_effect rf (e : effect Cmd) : Prop :=
  match e with
  | NotifyApp _ => False
  | GoSendAppendEntries args _ => ae_Entries args ⊆ Logs rf
  | GoSendSnapShot args _ =>
      is_LastIncludedIndex args = SnapshotIndex rf /\ is_Snapshot args = snap_of rf
  | _ => True
  end.

(** A critical section that leaves the saved snapshot alone and whose new log
    entries are among [L]. *)
Record mild (L : list (LogEntry Cmd)) rf rf' (effs : list (effect Cmd)) : Prop := {
  ml_snap : snap_of rf' = snap_of rf;
  ml_index : SnapshotIndex rf' = SnapshotIndex rf;
  ml_logs : Logs rf' ⊆ Logs rf ++ L;
  ml_effs : Forall (mild_effect rf) effs
}.

Lemma mild_intro rf rf' effs :
  snap_of rf' = snap_of rf -> SnapshotIndex rf' = SnapshotIndex rf -> Logs rf' = Logs rf ->
  Forall (mild_effect rf) effs -> mild [] rf rf' effs.
Proof. intros ? ? E ?. split; [done|done| |done]. rewrite E. set_solver. Qed.

(** Close the goal of a section that only sets other fields. *)
Ltac mild_solve := simplify_eq; apply mild_intro; [reflexivity|reflexivity|reflexivity|repeat constructor].
Ltac quiet_effs := repeat constructor.

Lemma RequestVote_mild rf args rf' r effs :
  RequestVote rf args = Ret (rf', r, effs) -> mild [] rf rf' effs.
Proof.
  unfold RequestVote. intros H.
  repeat (bind_inv; simplify_eq/=; try case_match; simplify_eq/=); mild_solve.
Qed.

Lemma appendMatched_mild rf args p ch rf' r ch' :
  appendMatched rf args p ch = Ret (rf', r, ch') -> mild (ae_Entries args) rf rf' [].
Proof.
  unfold appendMatched. intros H. apply bind_Ret_inv in H as ([i j] & _ & H).
  apply bind_Ret_inv in H as ([rf1 ch1] & H1 & H). apply bind_Ret_inv in H as (rf2 & H2 & H).
  simplify_eq.
  assert (mild (ae_Entries args) rf rf1 []) as [E1 Ei E2 _].
  { clear H2. case_match; bind_inv; simplify_eq; [|split; [done|done|set_solver|constructor]].
    split; [done|done| |constructor]. simpl. unfold slice_to, slice_from in *.
    repeat (case_decide; [|done]). simplify_eq. intros e [He|He]%elem_of_app; apply elem_of_app; [left|right].
    - by apply (take_elem _ (Z.to_nat i)).
    - by apply (drop_elem _ (Z.to_nat j)). }
  assert (snap_of rf' = snap_of rf1 /\ SnapshotIndex rf' = SnapshotIndex rf1 /\ Logs rf' = Logs rf1) as (E3 & E5 & E4).
  { clear H1. case_match; [by apply sendCommitCh_Ret in H2 as ->|by simplify_eq]. }
  split; [congruence|congruence|by rewrite E4|constructor].
Qed.

Lemma enterTerm_static rf T :
  let rf' := (enterTerm rf T).1 in
  snap_of rf' = snap_of rf /\ SnapshotIndex rf' = SnapshotIndex rf /\ Logs rf' = Logs rf.
Proof. unfold enterTerm. by destruct (CurrentTerm rf <? T). Qed.

Lemma AppendEntries_mild rf args rf' r effs :
  AppendEntries rf args = Ret (rf', r, effs) -> mild (ae_Entries args) rf rf' effs.
Proof.
  unfold AppendEntries. intros H. case_match; [simplify_eq; split; [done|done|set_solver|constructor]|].
  fold (enterTerm rf (ae_Term args)) in H. pose proof (enterTerm_static rf (ae_Term args)) as He.
  destruct (enterTerm rf (ae_Term args)) as [rf1 ch]. simpl in *. destruct He as (He1 & He2 & He3).
  apply bind_Ret_inv in H as ([[rf2 r2] ch2] & H & E). simplify_eq.
  assert (mild (ae_Entries args) rf1 rf2 []) as [E1 Ei E2 _].
  { assert (Hsame : mild (ae_Entries args) rf1 rf1 []) by (split; [done|done|set_solver|constructor]).
    repeat (case_match; simplify_eq/=; [done|]). bind_inv.
    case_match; [bind_inv; by simplify_eq|]. by eapply appendMatched_mild. }
  rewrite He1, He2, He3 in *. split; [by destruct ch2..|quiet_effs].
Qed.

Lemma becomeLeader_mild rf rf' effs : becomeLeader rf = Ret rf' ->
  Forall (mild_effect rf) effs -> mild [] rf rf' effs.
Proof.
  unfold becomeLeader. intros H ?. apply bind_Ret_inv in H as ([x y] & _ & H). bind_inv. simplify_eq.
  by apply mild_intro.
Qed.

Lemma processAppendSuccess_mild rf args sv rf' :
  processAppendSuccess rf args sv = Ret rf' -> mild [] rf rf' [].
Proof.
  unfold processAppendSuccess. intros H. apply bind_Ret_inv in H as (m & _ & H).
  case_match; [|simplify_eq; by apply mild_intro]. apply bind_Ret_inv in H as (mtch & _ & H).
  apply bind_Ret_inv in H as (next & _ & H). apply bind_Ret_inv in H as (count & _ & H).
  case_match; [apply sendCommitCh_Ret in H as ->|simplify_eq]; by apply mild_intro.
Qed.

(** The section that processes a reply. *)
Lemma reply_mild rf rf' effs server :
  (forall args r, sendRequestVoteAndProcess rf args server (Some r) = Ret (rf', effs) ->
     mild [] rf rf' effs) /\
  (forall args r, sendAppendEntriesAndProcess rf args server (Some r) = Ret (rf', effs) ->
     mild [] rf rf' effs) /\
  (forall args r, sendSnapShotAndProcess rf args server (Some r) = Ret (rf', effs) ->
     mild [] rf rf' effs).
Proof.
  split_and!; intros args r H.
  - unfold sendRequestVoteAndProcess in H. repeat (case_match; [mild_solve|]).
    destruct (rvr_VoteGranted r); [|mild_solve].
    case_match; [|mild_solve].
    apply bind_Ret_inv in H as (rf2 & H & E). simplify_eq.
    apply (becomeLeader_mild _ _ [GoSyncUpDaemon; ResetTimer]) in H as []; [by split|quiet_effs].
  - unfold sendAppendEntriesAndProcess in H. repeat (case_match; [mild_solve|]).
    destruct (aer_Success r); apply bind_Ret_inv in H as (x & E & H); simplify_eq;
      [by eapply processAppendSuccess_mild|mild_solve].
  - unfold sendSnapShotAndProcess in H. repeat (case_match; [mild_solve|]).
    apply bind_Ret_inv in H as (nx & _ & H). case_match; bind_inv; mild_solve.
Qed.

Lemma broadCastVote_mild rf rf' effs : broadCastVote rf = Ret (rf', effs) -> mild [] rf rf' effs.
Proof.
  unfold broadCastVote. intros H. case_decide; bind_inv; simplify_eq; apply mild_intro; try done.
  apply Forall_fmap, Forall_true. by intros.
Qed.

Lemma checkConsistency_mild rf to effs :
  checkConsistency rf to = Ret effs -> mild [] rf rf effs.
Proof.
  intros H. apply mild_intro; [done|done|done|]. unfold checkConsistency in H.
  case_decide; [|simplify_eq; constructor]. apply bind_Ret_inv in H as (nx & _ & H).
  case_match; bind_inv; simplify_eq; constructor; try done.
  unfold slice_from in *. case_decide; [|done]. simplify_eq. simpl. intros e. apply drop_elem.
Qed.

Lemma Start_mild rf c rf' ret effs :
  Start rf c = Ret (rf', ret, effs) ->
  exists e, Command e = Some c /\ mild [e] rf rf' effs.
Proof.
  unfold Start. intros H. exists (mkLogEntry (SnapshotIndex rf + len (Logs rf)) (CurrentTerm rf) (Some c)).
  split; [done|]. case_decide; bind_inv; simplify_eq; split; try done; quiet_effs; set_solver.
Qed.
End Sections.

(** ** The cluster *)
Section Origin.
Context {Cmd : Type} `{GC : Gob Cmd} (n : Z) (P : Cmd -> Prop).
Implicit Types s : sys Cmd.
Implicit Types rf : Raft Cmd.

(** Executions without compaction in which only commands in [P] are started. *)
Definition starts_in s (e : event Cmd) : Prop :=
  no_compaction s e /\ match e with EvStart _ c => P c | _ => True end.

Definition from_P (e : LogEntry Cmd) : Prop := forall c, Command e = Some c -> P c.

Definition call_from (c : call Cmd) : Prop :=
  match c_rpc c with CallAppend args => Forall from_P (ae_Entries args) | _ => True end.

Definition is_command (m : ApplyMsg Cmd) : bool :=
  match m with CommandMsg _ _ => true | SnapshotMsg _ => false end.

Record plain s : Prop := {
  pl_snap i : snap_of (raft_of s i) = [];
  pl_notify i : nd_notify (sys_nodes s i) = [];
  pl_sent i : Forall (fun m => is_command m = true) (nd_applyCh (sys_nodes s i));
  pl_logs i : Forall from_P (Logs (raft_of s i));
  pl_calls : Forall call_from (sys_calls s);
  pl_records : Forall (fun r => forall c, r.2 = Some c -> P c) (sys_logs s)
}.

Lemma Forall_subseteq {A} (Q : A -> Prop) (l k : list A) : l ⊆ k -> Forall Q k -> Forall Q l.
Proof. rewrite !Forall_forall. auto. Qed.

Lemma mild_calls t rf (effs : list (effect Cmd)) :
  Forall from_P (Logs rf) -> Forall (mild_effect rf) effs -> Forall call_from (omap (effect_call t) effs).
Proof.
  intros HL. induction 1 as [|e effs He _ IH]; [constructor|]. simpl.
  destruct e; simpl in *; try done; constructor; try done. by eapply Forall_subseteq.
Qed.

Lemma put_plain s cs t L rf effs :
  plain s -> Forall call_from cs -> mild L (raft_of s t) rf effs -> Forall from_P L ->
  plain (put_raft (with_calls s cs) t rf effs).
Proof.
  intros [] Hcs [] HL. split; try done; try (intros i; unfold raft_of; simpl; fn_cases; try done; fold (raft_of s i); auto).
  - by rewrite ml_snap0.
  - eapply Forall_subseteq; [exact ml_logs0|]. apply Forall_app. by split; [apply pl_logs0|].
  - simpl. apply Forall_app. split; [done|]. eapply mild_calls; [apply pl_logs0|exact ml_effs0].
Qed.

Lemma boot_snap i ps : snap_of (nd_raft (boot (Cmd := Cmd) n i ps)) = snapshot ps.
Proof.
  unfold boot, snap_of. simpl.
  by destruct (dePersistState_static (initRaft (Cmd := Cmd) n i (Copy ps))) as (_ & _ & -> & _).
Qed.

(** A peer restarted from its persister has the log it had. *)
Lemma boot_logs s i : reachable n s -> 0 <= i < n ->
  Logs (nd_raft (boot n i (persister (raft_of s i)))) = Logs (raft_of s i).
Proof.
  intros Hr Hi. destruct (reach_basic n s Hr) as (a & _ & _ & R).
  destruct (rel_node R i Hi) as [C (_ & _ & _ & E)]. rewrite (nr_peers C), (nr_me C) in E.
  unfold boot. simpl. rewrite <- E. unfold Copy. by destruct (persister (raft_of s i)).
Qed.

Lemma crash_plain s cs t : reachable n s -> 0 <= t < n -> plain s -> Forall call_from cs ->
  plain (crash n (with_calls s cs) t).
Proof.
  intros Hr Ht [] Hcs.
  split; try done; intros i; unfold raft_of; simpl; fn_cases; try done; fold (raft_of s i); auto.
  - exact (eq_trans (boot_snap i _) (pl_snap0 i)).
  - unfold boot, Make. simpl. unfold notifyAppUseNewSnapShot.
    destruct (dePersistState_static (initRaft (Cmd := Cmd) n i (Copy (persister (raft_of (with_calls s cs) i))))) as (_ & _ & -> & _).
    simpl. specialize (pl_snap0 i). unfold snap_of, raft_of in *. simpl. by rewrite pl_snap0.
  - pose proof (boot_logs s i Hr Ht) as E. unfold raft_of in *. simpl in *. rewrite E. apply pl_logs0.
Qed.

Lemma handle_plain s cs t L o s' :
  reachable n s -> 0 <= t < n -> plain s -> Forall call_from cs -> Forall from_P L ->
  (forall rf effs, o = Ret (rf, effs) -> mild L (raft_of s t) rf effs) ->
  handle n (with_calls s cs) t o = Some s' -> plain s'.
Proof.
  intros Hr Ht Hs Hcs HL Ho H. destruct o as [[rf effs]| |]; simpl in H; simplify_eq;
    [by eapply put_plain; eauto|by apply crash_plain].
Qed.

Lemma no_snap_call s k c args :
  reach n no_compaction s -> sys_calls s !! k = Some c -> c_rpc c <> CallSnap args.
Proof.
  intros Hr Hk Er.
  destruct (reach_sim n False True no_compaction s) as (a & _ & _ & R); [by intros; split|done|].
  destruct (rel_calls R c) as (_ & _ & _ & Hok'); [by eapply list_elem_of_lookup_2|].
  rewrite Er in Hok'. simpl in Hok'. destruct Hok' as (_ & Q & _ & _ & _ & _ & Hn). by apply Hn.
Qed.

Lemma deliver_plain s k c s' :
  reach n no_compaction s -> plain s -> sys_calls s !! k = Some c -> deliver n s k c = Some s' -> plain s'.
Proof.
  intros Hnc Hs Hk H. assert (Hr : reachable n s) by (by eapply reach_weaken; [|exact Hnc]).
  destruct (reach_call n s k c Hr Hk) as [_ Ht].
  assert (Hc : call_from c) by (eapply Forall_lookup_1; [apply Hs|exact Hk]).
  assert (Hdel : Forall call_from (delete k (sys_calls s))) by (apply Forall_delete, Hs).
  assert (Hins : forall f t r, call_from (mkCall f t r) ->
    Forall call_from (<[k := mkCall f t r]> (sys_calls s))) by (intros; apply Forall_insert; [apply Hs|done]).
  unfold deliver in H. unfold call_from in Hc. destruct (c_rpc c) eqn:Er; try done.
  - destruct (RequestVote _ _) as [[[? ?] ?]| |] eqn:X; simplify_eq; [|by apply crash_plain].
    eapply put_plain; [done|by apply Hins|by eapply RequestVote_mild|constructor].
  - destruct (AppendEntries _ _) as [[[? ?] ?]| |] eqn:X; simplify_eq; [|by apply crash_plain].
    eapply put_plain; [done|by apply Hins|by eapply AppendEntries_mild|done].
  - by destruct (no_snap_call s k c args Hnc Hk).
Qed.

Lemma reply_plain s k c s' :
  reachable n s -> plain s -> sys_calls s !! k = Some c -> reply n s k c = Some s' -> plain s'.
Proof.
  intros Hr Hs Hk H. destruct (reach_call n s k c Hr Hk) as [Hf _]. unfold reply in H.
  assert (Hdel : Forall call_from (delete k (sys_calls s))) by (apply Forall_delete, Hs).
  destruct (c_rpc c); try done; (eapply (handle_plain s _ _ []); [done|done|done|done|constructor| |exact H]);
    intros rf effs X; destruct (reply_mild (raft_of s (c_from c)) rf effs (c_to c)) as (? & ? & ?); eauto.
Qed.

Lemma apply_plain s i rf msgs :
  plain s -> applyLogEntryDaemon (nd_raft (sys_nodes s i)) = Ret (rf, msgs) ->
  plain (mkSys (<[i := mkNode rf (nd_applyCh (sys_nodes s i) ++ msgs) (nd_notify (sys_nodes s i)) false]>
    (sys_nodes s)) (sys_calls s) (sys_logs s ++ omap (log_record i) msgs)).
Proof.
  intros [] H. apply applyLoop_spec in H as [(v & -> & _) Hm].
  assert (Hmsg : forall m, m ∈ msgs -> is_command m = true /\
    forall r, log_record i m = Some r -> forall c, r.2 = Some c -> P c).
  { intros m (idx & e & -> & _ & _ & He)%Hm. split; [done|]. intros r Er c Ec. simpl in Er. simplify_eq/=.
    unfold slice_get in He. case_decide; [|done]. case_match eqn:El; [|done]. simplify_eq.
    by eapply (Forall_lookup_1 _ _ _ _ (pl_logs0 i)). }
  split; try done; try (intros x; unfold raft_of; simpl; fn_cases; try done; fold (raft_of s x); auto).
  - exact (pl_snap0 x).
  - apply Forall_app. split; [done|]. apply Forall_forall. intros m Hin. by apply Hmsg.
  - simpl. apply Forall_app. split; [done|]. apply Forall_forall.
    intros r (m & Hin & Er)%list_elem_of_omap. by eapply Hmsg.
Qed.

Lemma exec_plain s e s' :
  reach n no_compaction s -> plain s -> starts_in s e -> exec n s e = Some s' -> plain s'.
Proof.
  intros Hnc Hs [Hok Hst] H. assert (Hr : reachable n s) by (by eapply reach_weaken; [|exact Hnc]).
  destruct e as [i|k|k|k|i j|i c|i|i|i k|i idx snap|i]; unfold exec in H;
    try (match type of H with (if ?b then _ else _) = _ => destruct b eqn:Hb; [|done] end);
    try (match type of Hb with context [is_peer n ?p] =>
      assert (Hp : 0 <= p < n) by (unfold is_peer in Hb; zbool; lia) end);
    try (destruct (sys_calls s !! k) as [c|] eqn:Hk; [|done]; cbn [mbind option_bind] in H).
  - eapply (handle_plain s (sys_calls s) i []); [done|done|done|apply Hs|constructor| |exact H].
    intros rf effs X. by apply broadCastVote_mild.
  - by eapply deliver_plain.
  - by eapply reply_plain.
  - simplify_eq. destruct Hs. split; try done. by apply Forall_delete.
  - eapply (handle_plain s (sys_calls s) i []); [done|done|done|apply Hs|constructor| |exact H].
    intros rf effs X. bind_inv. simplify_eq. by eapply checkConsistency_mild.
  - destruct (Start (raft_of s i) c) as [[[rf ret] effs]| |] eqn:X;
      [|simpl in H; simplify_eq; apply (crash_plain s (sys_calls s)); [done..|apply Hs]|done].
    destruct (Start_mild _ _ _ _ _ X) as (e & Ee & Hm).
    simpl in H. simplify_eq. apply (put_plain s (sys_calls s) i [e]); [done|apply Hs|done|].
    constructor; [|constructor]. intros d Ed. congruence.
  - case_match; [done|]. simplify_eq. destruct Hs.
    split; try done; intros x; unfold raft_of; simpl; fn_cases; try done; fold (raft_of s x); auto.
    exact (pl_snap0 x).
  - destruct (applyLogEntryDaemon _) as [[rf msgs]| |] eqn:X; simplify_eq; [by apply apply_plain|].
    apply (crash_plain s (sys_calls s)); [done..|apply Hs].
  - by rewrite (pl_notify _ Hs i) in H.
  - by destruct Hok.
  - simplify_eq. apply (crash_plain s (sys_calls s)); [done..|apply Hs].
Qed.

Lemma starts_in_no_compaction s : reach n starts_in s -> reach n no_compaction s.
Proof. apply reach_weaken. by intros ? ? []. Qed.

Lemma reach_plain s : reach n starts_in s -> plain s.
Proof.
  induction 1 as [|s e s' Hr IH Hok He].
  - assert (from_P (mkLogEntry 0 0 None)) by done.
    split; try done; try (intros i; by repeat constructor); constructor.
  - eapply exec_plain; [by apply starts_in_no_compaction|done..].
Qed.

(** ** The order of requests in the log *)

Lemma exec_logs_grow s e s' : exec n s e = Some s' -> sys_logs s ⊆ sys_logs s'.
Proof. intros H. destruct (exec_sends n s e s' H) as [[rs ->] _]. set_solver. Qed.

(** Only the apply daemon adds to the record, what it sends on applyCh. *)
Lemma exec_new_record s e s' i idx c : exec n s e = Some s' -> (i, idx, c) ∈ sys_logs s' ->
  (i, idx, c) ∈ sys_logs s \/ (0 <= i < n /\ CommandMsg idx c ∈ nd_applyCh (sys_nodes s' i)).
Proof.
  intros H Hin.
  assert (Hdone : sys_logs s' = sys_logs s -> (i, idx, c) ∈ sys_logs s \/
    (0 <= i < n /\ CommandMsg idx c ∈ nd_applyCh (sys_nodes s' i))) by (intros E; left; by rewrite <- E).
  assert (Hh : forall cs t o, handle n (with_calls s cs) t o = Some s' -> sys_logs s' = sys_logs s)
    by (intros cs t o Ho; apply (handle_sends n s cs t o s' Ho)).
  destruct e as [p|k|k|k|p j|p d|p|p|p k|p x snap|p]; unfold exec in H;
    try (match type of H with (if ?b then _ else _) = _ => destruct b eqn:Hb; [|done] end);
    try (destruct (sys_calls s !! k) as [d|] eqn:Hk; [|done]; cbn [mbind option_bind] in H).
  - apply Hdone. by eapply (Hh (sys_calls s)).
  - apply Hdone. unfold deliver in H. destruct (c_rpc d); try done; repeat case_match;
    simplify_eq; done || apply install_sends.
  - apply Hdone. unfold reply in H. destruct (c_rpc d); try done; by eapply Hh.
  - apply Hdone. by simplify_eq.
  - apply Hdone. by eapply (Hh (sys_calls s)).
  - apply Hdone. by eapply (Hh (sys_calls s)).
  - apply Hdone. case_match; by simplify_eq.
  - destruct (applyLogEntryDaemon _) as [[rf msgs]| |]; simplify_eq; [|by apply Hdone].
    simpl in Hin. apply elem_of_app in Hin as [?|(m & Hm & E)%list_elem_of_omap]; [by left|right].
    destruct m as [x y|]; [|done]. simpl in E. simplify_eq. simpl. rewrite fn_lookup_insert. simpl.
    unfold is_peer in Hb. zbool. split; [lia|]. set_solver.
  - apply Hdone. destruct (nd_notify _ !! _) as [[? ?]|]; [|done]. simpl in H. by simplify_eq.
  - apply Hdone. by eapply (Hh (sys_calls s)).
  - apply Hdone. by simplify_eq.
Qed.

(** The record has no gaps: an index is applied by a peer after every smaller
    one. *)
Lemma record_gap_free s i idx c : reach n no_compaction s -> (i, idx, c) ∈ sys_logs s ->
  1 <= idx /\ forall k, 1 <= k <= idx -> exists d, (i, k, d) ∈ sys_logs s.
Proof.
  intros Hr. revert i idx c. induction Hr as [|s e s' Hr IH Hok He]; intros i idx c Hin.
  { by apply elem_of_nil in Hin. }
  destruct (exec_new_record s e s' i idx c He Hin) as [[? H]%IH|[Hi Hm]].
  { split; [done|]. intros k [d Hd]%H. exists d. by eapply exec_logs_grow. }
  assert (Hr' : reach n no_compaction s') by (by eapply reach_step).
  assert (Hidx : forall k, k ∈ indices (nd_applyCh (sys_nodes s' i)) <-> exists d, CommandMsg k d ∈ nd_applyCh (sys_nodes s' i)).
  { intros k. unfold indices. rewrite list_elem_of_omap. split.
    - intros ([x d|] & Hx & E); [|done]. simpl in E. simplify_eq. by exists d.
    - intros [d Hd]. by eexists. }
  setoid_rewrite (gap_free_indices n s' i Hr' Hi) in Hidx. setoid_rewrite elem_of_seqZ in Hidx.
  pose proof (proj2 (Hidx idx) (ex_intro _ c Hm)). split; [lia|]. intros k Hk.
  destruct (proj1 (Hidx k)) as [d Hd]; [lia|]. exists d. by eapply (reach_sent_logged n no_compaction).
Qed.
End Origin.

Section Order.
Context {Cmd : Type} `{GC : Gob Cmd} (n : Z).
Implicit Types s : sys Cmd.

Lemma applied_from (P : Cmd -> Prop) s i idx c :
  reach n (starts_in P) s -> (i, idx, Some c) ∈ sys_logs s -> P c.
Proof.
  intros Hr Hin. pose proof (pl_records _ _ (reach_plain n P s Hr)) as Hf.
  rewrite Forall_forall in Hf. by apply (Hf _ Hin).
Qed.

(** Without compaction no snapshot is saved and only commands are sent. *)
Lemma reach_all_plain s : reach n no_compaction s -> plain (fun _ => True) s.
Proof.
  intros Hr. apply (reach_plain n). eapply reach_weaken; [|exact Hr]. intros ? [] ?; by split.
Qed.

Lemma reach_snapless s : reach n no_compaction s -> forall i, snap_of (raft_of s i) = [].
Proof. intros Hr. apply (pl_snap _ _ (reach_all_plain s Hr)). Qed.

(** Steps of executions without compaction. *)
Definition quiet_step s s' : Prop := exists e, no_compaction s e /\ exec n s e = Some s'.

Lemma quiet_reach s s' : reach n no_compaction s -> rtc quiet_step s s' -> reach n no_compaction s'.
Proof. intros Hr. induction 1 as [|s t s' (e & ? & ?) _ IH]; [done|]. apply IH. by eapply reach_step. Qed.

Lemma quiet_logs s s' : rtc quiet_step s s' -> sys_logs s ⊆ sys_logs s'.
Proof. induction 1 as [|s t s' (e & _ & He) _ IH]; [done|]. etrans; [by eapply exec_logs_grow|done]. Qed.

Lemma later_index (P : Cmd -> Prop) s s' i j idx k c d :
  reach n (starts_in P) s -> rtc quiet_step s s' ->
  (i, idx, d) ∈ sys_logs s -> (j, k, Some c) ∈ sys_logs s' -> ~ P c -> idx < k.
Proof.
  intros Hr Hst Hi Hj HP. destruct (decide (idx < k)) as [|Hle]; [done|]. exfalso.
  pose proof (starts_in_no_compaction n P s Hr) as Hnc. pose proof (quiet_reach s s' Hnc Hst) as Hnc'.
  destruct (record_gap_free n s' j k _ Hnc' Hj) as [Hk _].
  destruct (record_gap_free n s i idx d Hnc Hi) as [_ Hgap].
  destruct (Hgap k ltac:(lia)) as [c' Hc']. apply HP. apply (applied_from P s i k); [done|].
  replace (Some c) with c'; [done|]. eapply (safe_logs_agree n s' i j k).
  - by apply no_compaction_no_overshoot.
  - by apply (quiet_logs s s').
  - done.
Qed.

(** Only started commands are applied.  When no service compacts its log and
    Start is called with commands of a set only, every command any peer ever
    applies is in the set: replication, elections, crashes and restarts make
    nothing up. *)
Theorem applied_was_started (P : Cmd -> Prop) s i idx c :
  reach n (starts_in P) s -> (i, idx, Some c) ∈ sys_logs s -> P c.
Proof. apply applied_from. Qed.

(** C13: the log respects the order of requests.  When index [idx] had been applied
    by some peer before a command was ever handed to Start, the command is
    applied, by any peer and at any later time, at a larger index only. *)
Theorem log_respects_order (P : Cmd -> Prop) s s' i j idx k c d :
  reach n (starts_in P) s -> rtc quiet_step s s' ->
  (i, idx, d) ∈ sys_logs s -> (j, k, Some c) ∈ sys_logs s' -> ~ P c -> idx < k.
Proof. apply later_index. Qed.
End Order.

(** ** Runs *)
Lemma run_quiet {Cmd} `{GC : Gob Cmd} n (s : sys Cmd) evs s' :
  run_checked n (fun _ e => negb (compactsb e)) s evs = Some s' -> rtc (quiet_step n) s s'.
Proof.
  revert s. induction evs as [|e evs IH]; simpl; intros s H; [by simplify_eq|].
  destruct (negb (compactsb e)) eqn:Hc; [|done]. destruct (exec n s e) as [s1|] eqn:E; [|done]. simpl in H.
  eapply rtc_l; [exists e; split; [|exact E]|by apply IH]. intros Hco. by destruct e.
Qed.

(** Peer 1 and peer 0 apply 10 at index 1, before 20 is started. *)
Definition only_ten (s : sys Z) (e : event Z) : bool :=
  negb (compactsb e) && match e with EvStart _ c => c =? 10 | _ => true end.
Definition first_applied : sys Z := ran 3 only_ten demo_events.
Definition then_events : list (event Z) :=
  [EvStart 1 20; EvSync 1 0; EvDeliver 1; EvReply 1; EvWake 1; EvApply 1].
Definition then_applied : sys Z :=
  default first_applied (run_checked 3 (fun _ e => negb (compactsb e)) first_applied then_events).

Lemma first_applied_reach : reach 3 (starts_in (fun c => c = 10)) first_applied.
Proof.
  apply ran_reach. intros s e [Hc He]%andb_true_iff. split; [intros Hco; by destruct e|].
  destruct e; try done. by apply Z.eqb_eq.
Qed.

Lemma applied_was_started_witness : (1, 1, Some 10) ∈ sys_logs first_applied /\ 10 = 10.
Proof.
  assert (H : (1, 1, Some 10) ∈ sys_logs first_applied)
    by (apply (bool_decide_unpack _); vm_compute; exact Logic.I).
  exact (conj H (applied_was_started 3 (fun c => c = 10) first_applied 1 1 10 first_applied_reach H)).
Defined.

Lemma log_respects_order_witness : (1, 2, Some 20) ∈ sys_logs then_applied /\ 1 < 2.
Proof.
  assert (H1 : (0, 1, Some 10) ∈ sys_logs first_applied)
    by (apply (bool_decide_unpack _); vm_compute; exact Logic.I).
  assert (H2 : (1, 2, Some 20) ∈ sys_logs then_applied)
    by (apply (bool_decide_unpack _); vm_compute; exact Logic.I).
  split; [exact H2|].
  apply (log_respects_order 3 (fun c => c = 10) first_applied then_applied 0 1 1 2 20 (Some 10)
    first_applied_reach); [|exact H1|exact H2|discriminate].
  unfold then_applied. destruct (run_checked _ _ _ _) as [s|] eqn:E; simpl; [|reflexivity].
  by apply run_quiet in E.
Defined.
