(* ===== verification/RaftProgress.v ===== *)
(** * The cluster can always make progress

    From every state the cluster can reach without compaction, however messages
    were lost, delayed or reordered and peers crashed, a course of ordinary events
    (timeouts, deliveries, replies, replication rounds, wake-ups of the apply
    daemon) leads to a leader that commits and applies a new command: no vote,
    term, log or channel is ever left in a state that blocks the others for good.
    On the way: elections always have a winner, and the leader's search for the
    point where a follower's log matches its own terminates.  A cluster of one
    peer is the exception: it never elects a leader. *)

From stdpp Require Import base functions list list_numbers gmap relations.
From S2P Require Import Prelude Gob RaftNode RaftNodeFacts RaftSpec RaftSystem RaftRefine RaftLead RaftSim RaftSafety RaftApply RaftBounds RaftTrace RaftOrigin.
Open Scope Z_scope.

(** ** Lists *)
Lemma list_max {A} (R : relation A) (l : list A) (x0 : A) :
  Transitive R -> (forall x y, R x y \/ R y x) -> exists m, m ∈ x0 :: l /\ forall x, x ∈ x0 :: l -> R x m.
Proof.
  intros HR Ht. revert x0. induction l as [|y l IH]; intros x0.
  { exists x0. split; [left|]. intros x ->%list_elem_of_singleton. by destruct (Ht x0 x0). }
  destruct (IH y) as (m & Hm & Hle). destruct (Ht x0 m) as [Hx|Hx].
  - exists m. split; [by right|]. intros x [->|?]%elem_of_cons; [done|by apply Hle].
  - exists x0. split; [left|]. intros x [->|Hx']%elem_of_cons; [by destruct (Ht x0 x0)|].
    etrans; [by apply Hle|done].
Qed.

(** ** Sections that do not block *)
Definition is_block {A} (o : outcome A) : bool := match o with Block => true | _ => false end.

Lemma is_block_bind {A B} (o : outcome A) (f : A -> outcome B) :
  is_block o = false -> (forall a, o = Ret a -> is_block (f a) = false) -> is_block (o ≫= f) = false.
Proof. intros Ho Hf. destruct o; simpl in *; auto. Qed.

Lemma runs_Ret {A} (o : outcome A) : is_panic o = false -> is_block o = false -> exists a, o = Ret a.
Proof. destruct o; eauto; done. Qed.

Section Blocks.
Context {Cmd : Type} `{GC : Gob Cmd}.
Implicit Types rf : Raft Cmd.

Lemma slice_get_no_block {A} (l : list A) i : is_block (slice_get l i) = false.
Proof. unfold slice_get. case_decide; [by case_match|done]. Qed.
Lemma slice_set_no_block {A} (l : list A) i x : is_block (slice_set l i x) = false.
Proof. unfold slice_set. by case_decide. Qed.
Lemma slice_from_no_block {A} (l : list A) i : is_block (slice_from l i) = false.
Proof. unfold slice_from. by case_decide. Qed.
Lemma slice_to_no_block {A} (l : list A) i : is_block (slice_to l i) = false.
Proof. unfold slice_to. by case_decide. Qed.

Ltac nb_bind :=
  apply is_block_bind; [eauto using slice_get_no_block, slice_set_no_block, slice_from_no_block, slice_to_no_block|
    intros].

Lemma matchLoop_no_block fuel (l k : list (LogEntry Cmd)) i j : is_block (matchLoop fuel l k i j) = false.
Proof.
  revert i j. induction fuel as [|fuel IH]; intros i j; simpl; [done|].
  case_match; [|done]. do 2 nb_bind. case_match; [apply IH|done].
Qed.

Lemma conflictHead_no_block (l : list (LogEntry Cmd)) t i : is_block (conflictHead l t i) = false.
Proof. induction i as [|i IH]; simpl; [done|]. nb_bind. by case_match. Qed.

(** There is room on [commitCh]. *)
Definition room rf : Prop := (commitCh rf < CommitChCap)%nat.

Lemma sendCommitCh_no_block rf : room rf -> is_block (sendCommitCh rf) = false.
Proof. unfold sendCommitCh, room. intros. by rewrite decide_True. Qed.

Lemma appendMatched_no_block rf args p ch : room rf -> is_block (appendMatched rf args p ch) = false.
Proof.
  intros Hr. unfold appendMatched. apply is_block_bind; [apply matchLoop_no_block|]. intros [i j] _.
  apply is_block_bind.
  - case_match; [|done]. by do 2 nb_bind.
  - intros [rf1 ch1] H1. assert (room rf1).
    { case_match; bind_inv; by simplify_eq. }
    clear H1. apply is_block_bind; [|done]. case_match; [by apply sendCommitCh_no_block|done].
Qed.

Lemma AppendEntries_no_block rf args : room rf -> is_block (AppendEntries rf args) = false.
Proof.
  intros Hr. unfold AppendEntries. case_match; [done|]. fold (enterTerm rf (ae_Term args)).
  assert (room (enterTerm rf (ae_Term args)).1) by (unfold enterTerm, room; by case_match).
  destruct (enterTerm rf (ae_Term args)) as [rf1 ch]. simpl in *.
  apply is_block_bind; [|intros [[? ?] ?] _; done].
  repeat (case_match; [done|]). nb_bind. case_match; [|by apply appendMatched_no_block].
  apply is_block_bind; [apply conflictHead_no_block|done].
Qed.

Lemma sendAppend_no_block rf args sv r : room rf ->
  is_block (sendAppendEntriesAndProcess rf args sv (Some r)) = false.
Proof.
  intros Hr. unfold sendAppendEntriesAndProcess. repeat (case_match; [done|]). case_match.
  - apply is_block_bind; [|done]. unfold processAppendSuccess. nb_bind. case_match; [|done].
    nb_bind. nb_bind. apply is_block_bind; [case_match; [by nb_bind|done]|]. intros count _.
    case_match; [by apply sendCommitCh_no_block|done].
  - by nb_bind.
Qed.

Lemma applyLoop_no_block fuel rf i lst : is_block (applyLoop fuel rf i lst) = false.
Proof.
  revert rf i. induction fuel as [|fuel IH]; intros rf i; simpl; [done|]. case_match; [|done].
  case_match; [apply IH|]. nb_bind. apply is_block_bind; [apply IH|]. by intros [].
Qed.
End Blocks.

(** ** Ordinary events *)
Section Progress.
Context {Cmd : Type} `{GC : Gob Cmd} (n : Z).
Implicit Types s : sys Cmd.
Implicit Types rf : Raft Cmd.

(** No crash, no loss of a message, no compaction. *)
Definition ordinary (e : event Cmd) : Prop :=
  match e with EvCompact _ _ _ | EvCrash _ | EvDrop _ => False | _ => True end.

Definition calm s s' : Prop := exists e, ordinary e /\ exec n s e = Some s'.

Abbreviation quiet := (reach n no_compaction).

Lemma calm_quiet s s' : quiet s -> rtc calm s s' -> quiet s'.
Proof.
  intros Hr. induction 1 as [|s t s' (e & He & Hex) _ IH]; [done|]. apply IH.
  eapply reach_step; [done| |exact Hex]. intros Hc. by destruct e.
Qed.

Lemma calm_once s e s' : ordinary e -> exec n s e = Some s' -> rtc calm s s'.
Proof. intros ? ?. apply rtc_once. by exists e. Qed.

(** What holds of every peer without compaction. *)
Lemma quiet_rel s : quiet s ->
  exists a, rtc (spec_step n) spec_init a /\ Inv n a /\ rel n True True a s.
Proof.
  intros Hr. apply (reach_sim n True True (fun s e => no_overshoot s e /\ no_compaction s e)); [by intros ? ? []|].
  induction Hr as [|s e s' Hr IH Hok He]; [apply reach_init|].
  eapply reach_step; [exact IH| |exact He]. split; [by eapply no_compaction_step|done].
Qed.

Record sound (i : Z) rf : Prop := {
  sd_me : me rf = i;
  sd_peers : peers rf = n;
  sd_next : len (nextIndex rf) = n;
  sd_match : len (matchIndex rf) = n;
  sd_snap : SnapshotIndex rf = 0;
  sd_head : exists L, Logs rf = mkLogEntry 0 0 None :: L;
  sd_commit : 0 <= commitIndex rf < len (Logs rf);
  sd_range : state rf = LEADER -> forall j x, nextIndex rf !! j = Some x -> 1 <= x <= len (Logs rf);
  sd_acks : state rf = LEADER -> forall j x, matchIndex rf !! j = Some x -> x < len (Logs rf)
}.

Lemma quiet_sound s i : quiet s -> 0 <= i < n -> sound i (raft_of s i).
Proof.
  intros Hr Hi. destruct (quiet_rel s Hr) as (a & _ & I & R). destruct (rel_node R i Hi) as [C _].
  destruct (nr_nocomp C Logic.I) as [Hs Hn]. destruct (nr_commit C Logic.I) as [Hc _].
  assert (HL : Logs (raft_of s i) = mkLogEntry 0 0 None :: log a i).
  { rewrite (nr_logs C), Hs. unfold rebased. simpl. by rewrite drop_0. }
  assert (El : len (Logs (raft_of s i)) = len (log a i) + 1) by (rewrite HL; unfold len; simpl; lia).
  split; try apply C; try done.
  - unfold len. rewrite (nr_next C). lia.
  - unfold len. rewrite (nr_match C). lia.
  - by exists (log a i).
  - lia.
  - intros Hst j x Hx. rewrite El. by eapply Hn.
  - intros Hst j x Hx. destruct (nr_acks C Logic.I Hst j x Hx). lia.
Qed.

Lemma quiet_no_panic s e : quiet s -> panics n s e = false.
Proof. intros Hr. by apply reach_no_panic, no_compaction_no_overshoot. Qed.

Lemma peer_true i : 0 <= i < n -> is_peer n i = true.
Proof. intros. unfold is_peer. rewrite (proj2 (Z.leb_le _ _)), (proj2 (Z.ltb_lt _ _)) by lia. done. Qed.

(** ** Draining [commitCh] *)

(** Two states that differ in what the apply daemon of peer [i] does only. *)
Record applies (i : Z) s s' : Prop := {
  ap_calls : sys_calls s' = sys_calls s;
  ap_other j : j <> i -> sys_nodes s' j = sys_nodes s j;
  ap_raft : exists k x, raft_of s' i = set_commitCh k (set_lastApplied x (raft_of s i))
}.

Lemma applies_refl i s : applies i s s.
Proof. split; [done|done|]. exists (commitCh (raft_of s i)), (lastApplied (raft_of s i)). by destruct (raft_of s i). Qed.

Lemma applies_trans i s1 s2 s3 : applies i s1 s2 -> applies i s2 s3 -> applies i s1 s3.
Proof.
  intros [A1 B1 (k1 & x1 & C1)] [A2 B2 (k2 & x2 & C2)]. split; [congruence| |].
  - intros j Hj. by rewrite B2, B1.
  - exists k2, x2. by rewrite C2, C1.
Qed.

Lemma wake_step s i k : 0 <= i < n -> nd_woken (sys_nodes s i) = false -> commitCh (raft_of s i) = S k ->
  exists s', calm s s' /\ applies i s s' /\ commitCh (raft_of s' i) = k /\ nd_woken (sys_nodes s' i) = true.
Proof.
  intros Hi Hw Hk. eexists. split.
  { exists (EvWake i). split; [done|]. unfold exec. rewrite peer_true, Hw by done. simpl.
    unfold raft_of in Hk. rewrite Hk. reflexivity. }
  unfold raft_of. simpl. rewrite fn_lookup_insert. split_and!; [|done|done]. split; simpl; [done| |].
  - intros j Hj. by rewrite fn_lookup_insert_ne.
  - unfold raft_of. simpl. rewrite fn_lookup_insert. simpl. exists k, (lastApplied (nd_raft (sys_nodes s i))).
    by destruct (nd_raft (sys_nodes s i)).
Qed.

Lemma apply_step s i : quiet s -> 0 <= i < n -> nd_woken (sys_nodes s i) = true ->
  exists s', calm s s' /\ applies i s s' /\ commitCh (raft_of s' i) = commitCh (raft_of s i) /\
    nd_woken (sys_nodes s' i) = false.
Proof.
  intros Hr Hi Hw. pose proof (quiet_no_panic s (EvApply i) Hr) as Hp. simpl in Hp. rewrite peer_true in Hp by done.
  destruct (runs_Ret (applyLogEntryDaemon (raft_of s i))) as [[rf msgs] E]; [done|apply applyLoop_no_block|].
  eexists. split.
  { exists (EvApply i). split; [done|]. unfold exec. rewrite peer_true, Hw by done. simpl.
    unfold raft_of in E. rewrite E. reflexivity. }
  pose proof E as (x & -> & _)%applyLoop_spec%proj1.
  unfold raft_of. simpl. rewrite fn_lookup_insert. split_and!; [|done|done]. split; simpl; [done| |].
  - intros j Hj. by rewrite fn_lookup_insert_ne.
  - unfold raft_of. simpl. rewrite fn_lookup_insert. simpl. exists (commitCh (nd_raft (sys_nodes s i))), x.
    by destruct (nd_raft (sys_nodes s i)).
Qed.

Lemma drain s i : quiet s -> 0 <= i < n ->
  exists s', rtc calm s s' /\ applies i s s' /\ commitCh (raft_of s' i) = 0%nat /\ nd_woken (sys_nodes s' i) = false.
Proof.
  intros Hr Hi. remember (commitCh (raft_of s i)) as k eqn:Hk. revert s Hr Hk.
  induction k as [|k IH]; intros s Hr Hk.
  all: assert (exists s1, rtc calm s s1 /\ applies i s s1 /\ commitCh (raft_of s1 i) = commitCh (raft_of s i) /\
    nd_woken (sys_nodes s1 i) = false) as (s1 & H1 & A1 & E1 & W1);
    [destruct (nd_woken (sys_nodes s i)) eqn:Hw; [destruct (apply_step s i Hr Hi Hw) as (s1 & Hc & ? & ? & ?);
       exists s1; split; [by apply rtc_once|done]|exists s; split_and!; [reflexivity|apply applies_refl|done|done]]|].
  - exists s1. split_and!; [done..|congruence|done].
  - destruct (wake_step s1 i k Hi W1) as (s2 & H2 & A2 & E2 & W2); [congruence|].
    assert (H02 : rtc calm s s2) by (by eapply rtc_r).
    destruct (IH s2) as (s3 & H3 & A3 & E3 & W3); [by eapply calm_quiet|done|].
    exists s3. split_and!; [by etrans|by eapply applies_trans, applies_trans|done..].
Qed.

(** ** One round of replication *)
Lemma sound_shaped i rf : 0 <= i < n -> sound i rf -> shaped n rf.
Proof.
  intros Hi []. split; [|done|done|lia]. destruct sd_head0 as (L & ->). unfold len. simpl. lia.
Qed.

(** A call in flight, its handler at another peer and the processing of its reply. *)
Lemma exchange s i p cs rest request answer rp effs ri effs' :
  i <> p -> sys_calls s = cs ++ mkCall i p request :: rest ->
  (forall k, deliver n s k (mkCall i p request) =
     Some (put_raft (with_calls s (<[k := mkCall i p answer]> (sys_calls s))) p rp effs)) ->
  (forall s1 k, raft_of s1 i = raft_of s i -> reply n s1 k (mkCall i p answer) =
     Some (put_raft (with_calls s1 (delete k (sys_calls s1))) i ri effs')) ->
  omap (effect_call p) effs = [] -> omap (effect_call i) effs' = [] ->
  exists s', rtc calm s s' /\ raft_of s' i = ri /\ raft_of s' p = rp /\ sys_calls s' = cs ++ rest /\
    forall q, q <> i -> q <> p -> sys_nodes s' q = sys_nodes s q.
Proof.
  intros Hne Hcs Hd Ha He He'. set (k := length cs).
  set (s2 := put_raft (with_calls s (<[k := mkCall i p answer]> (sys_calls s))) p rp effs).
  assert (E2 : exec n s (EvDeliver k) = Some s2).
  { unfold exec. rewrite Hcs, list_lookup_middle by done. cbn [mbind option_bind]. apply Hd. }
  assert (C2 : sys_calls s2 = cs ++ mkCall i p answer :: rest).
  { unfold s2. simpl. rewrite He, app_nil_r, Hcs. unfold k.
    by rewrite <- (Nat.add_0_r (length cs)), insert_app_r. }
  assert (R2 : raft_of s2 i = raft_of s i) by (unfold s2, raft_of; simpl; by rewrite fn_lookup_insert_ne).
  set (s3 := put_raft (with_calls s2 (delete k (sys_calls s2))) i ri effs').
  assert (E3 : exec n s2 (EvReply k) = Some s3).
  { unfold exec. rewrite C2, list_lookup_middle by done. cbn [mbind option_bind]. by apply Ha. }
  exists s3. split.
  { eapply rtc_l; [by exists (EvDeliver k)|]. apply rtc_once. by exists (EvReply k). }
  unfold raft_of. split_and!.
  - unfold s3. simpl. by rewrite fn_lookup_insert.
  - unfold s3. simpl. by rewrite fn_lookup_insert_ne, fn_lookup_insert by done.
  - trans (delete k (sys_calls s2)); [unfold s3; simpl; by rewrite He', app_nil_r|].
    rewrite C2. unfold k. by rewrite delete_middle.
  - intros q Hq Hq'. unfold s3, s2. simpl. by rewrite !fn_lookup_insert_ne by done.
Qed.

Lemma append_exchange s i p args rp r effs ri effs' :
  0 <= i < n -> 0 <= p < n -> i <> p ->
  checkConsistency (raft_of s i) p = Ret [GoSendAppendEntries args p] ->
  AppendEntries (raft_of s p) args = Ret (rp, r, effs) -> omap (effect_call p) effs = [] ->
  sendAppendEntriesAndProcess (raft_of s i) args p (Some r) = Ret (ri, effs') -> omap (effect_call i) effs' = [] ->
  exists s', rtc calm s s' /\ raft_of s' i = ri /\ raft_of s' p = rp /\
    forall q, q <> i -> q <> p -> sys_nodes s' q = sys_nodes s q.
Proof.
  intros Hi Hp Hne Hc Ha He Hs He'.
  set (s1 := put_raft s i (raft_of s i) [GoSendAppendEntries args p]).
  assert (E1 : exec n s (EvSync i p) = Some s1).
  { unfold exec. rewrite !peer_true by done. rewrite (proj2 (Z.eqb_neq _ _)) by done. simpl. by rewrite Hc. }
  assert (R1 : raft_of s1 p = raft_of s p) by (unfold raft_of; simpl; by rewrite fn_lookup_insert_ne).
  assert (R1' : raft_of s1 i = raft_of s i) by (unfold raft_of; simpl; by rewrite fn_lookup_insert).
  destruct (exchange s1 i p (sys_calls s) [] (CallAppend args) (RetAppend args r) rp effs ri effs')
    as (s' & Hst & ? & ? & _ & Hq); try done.
  { intros k. unfold deliver. cbn [c_to c_from c_rpc]. by rewrite R1, Ha. }
  { intros s2 k E. unfold reply. cbn [c_to c_from c_rpc]. by rewrite E, R1', Hs. }
  exists s'. split_and!; [by eapply rtc_l; [exists (EvSync i p)|]|done..|].
  intros q ? ?. rewrite Hq by done. unfold s1. simpl. by rewrite fn_lookup_insert_ne.
Qed.

(** What a follower answers: success, or a smaller index to try. *)
Lemma append_answer p rf args rf' r effs :
  sound p rf -> CurrentTerm rf <= ae_Term args -> 0 <= ae_PrevLogIndex args ->
  (ae_PrevLogIndex args = 0 -> ae_PrevLogTerm args = 0) ->
  AppendEntries rf args = Ret (rf', r, effs) ->
  CurrentTerm rf' = ae_Term args /\ aer_Term r = ae_Term args /\ effs = [ResetTimer] /\
  (aer_Success r = true \/ (aer_Success r = false /\ 0 < ae_PrevLogIndex args /\
     aer_ConflictIndex r <= ae_PrevLogIndex args)).
Proof.
  intros S HT H0 Hz H. unfold AppendEntries in H. rewrite (proj2 (Z.ltb_ge _ _)) in H by lia.
  fold (enterTerm rf (ae_Term args)) in H. pose proof (enterTerm_static rf (ae_Term args)) as He.
  assert (Ht : CurrentTerm (enterTerm rf (ae_Term args)).1 = ae_Term args).
  { unfold enterTerm. destruct (Z.ltb_spec (CurrentTerm rf) (ae_Term args)); simpl; lia. }
  destruct (enterTerm rf (ae_Term args)) as [rf1 ch]. simpl in He, Ht, H. destruct He as (_ & Hs & HL).
  destruct S as [_ _ _ _ Hsn (L & EL) _ _ _]. rewrite Hsn in Hs. rewrite EL in HL.
  unfold logIdxLocal2Global, logIdxGlobal2Local in H. rewrite Hs, HL in H.
  apply bind_Ret_inv in H as ([[rf2 r2] ch2] & H & E). injection E as <- <- <-.
  assert (Hret : CurrentTerm rf2 = ae_Term args /\ aer_Term r2 = ae_Term args /\
    (aer_Success r2 = true \/ (aer_Success r2 = false /\ 0 < ae_PrevLogIndex args /\
     aer_ConflictIndex r2 <= ae_PrevLogIndex args))).
  2:{ destruct Hret as (? & ? & ?). split_and!; try done. by destruct ch2. }
  rewrite (proj2 (Z.ltb_ge _ _)) in H by lia. rewrite Z.sub_0_r in H. case_match eqn:Hlen; zbool.
  { simplify_eq/=. split_and!; [done..|]. right. unfold len in *. simpl in *. split; [done|]. lia. }
  apply bind_Ret_inv in H as (e & Hget & H). case_match eqn:Hterm.
  - apply bind_Ret_inv in H as (k & Hk & H). simplify_eq/=. split_and!; [done..|]. right. split; [done|].
    apply conflictHead_le in Hk. assert (ae_PrevLogIndex args <> 0); [|lia]. intros E0. rewrite E0 in Hget.
    unfold slice_get in Hget. simpl in Hget. simplify_eq. rewrite (Hz E0) in Hterm. done.
  - assert (CurrentTerm rf2 = CurrentTerm rf1 /\ r2 = mkAppendEntriesReply (ae_Term args) true 0) as [-> ->].
    { clear -H. unfold appendMatched in H. apply bind_Ret_inv in H as ([i j] & _ & H).
      apply bind_Ret_inv in H as ([rf3 ch3] & H3 & H). apply bind_Ret_inv in H as (rf4 & H4 & H). simplify_eq.
      split; [|done]. trans (CurrentTerm rf3).
      - clear H3. case_match; [by apply sendCommitCh_Ret in H4 as ->|by simplify_eq].
      - clear H4. case_match; bind_inv; by simplify_eq. }
    split_and!; [done..|by left].
Qed.

(** What the leader sends: its log from [nextIndex] on. *)
Lemma sync_args i p rf nx :
  sound i rf -> state rf = LEADER -> 0 <= p < n -> nextIndex rf !! Z.to_nat p = Some nx ->
  exists args, checkConsistency rf p = Ret [GoSendAppendEntries args p] /\ ae_Term args = CurrentTerm rf /\
    ae_PrevLogIndex args = nx - 1 /\ ae_PrevLogIndex args + len (ae_Entries args) = len (Logs rf) - 1 /\
    (ae_PrevLogIndex args = 0 -> ae_PrevLogTerm args = 0).
Proof.
  intros S Hl Hp Hnx. pose proof (sd_range _ _ S Hl _ _ Hnx) as Hr. destruct S as [_ _ _ _ Hsn (L & EL) _ _ _].
  destruct (lookup_lt_is_Some_2 (Logs rf) (Z.to_nat (nx - 1))) as [e He]; [unfold len in *; lia|].
  assert (Hg : slice_get (nextIndex rf) p = Ret nx) by (unfold slice_get; by rewrite decide_True, Hnx by lia).
  eexists. split.
  { unfold checkConsistency, logIdxGlobal2Local. rewrite decide_True, Hg by done. simpl. rewrite Hsn, (proj2 (Z.ltb_ge _ _)) by lia.
    rewrite min_spec, Z.sub_0_r, Z.min_l by lia. unfold slice_get. rewrite decide_True, He by lia. simpl.
    unfold slice_from. rewrite decide_True by lia. reflexivity. }
  simpl. split_and!; [done..| |].
  - unfold len in *. rewrite length_drop. lia.
  - intros E0. replace nx with 1 in He by lia. rewrite EL in He. simpl in He. by simplify_eq.
Qed.

(** Index [N] is committed, or too few peers are known to have it. *)
Definition committing rf (N : Z) : Prop :=
  N <= commitIndex rf \/ countMatched (matchIndex rf) N <= n / 2.

Record replied rf rf' (N : Z) : Prop := {
  re_state : state rf' = LEADER;
  re_term : CurrentTerm rf' = CurrentTerm rf;
  re_logs : Logs rf' = Logs rf;
  re_commit : committing rf N -> committing rf' N;
  re_match j x : matchIndex rf !! j = Some x -> exists x', matchIndex rf' !! j = Some x' /\ x <= x'
}.

(** The reply of a follower that has stored the leader's log. *)
Lemma success_reply i p rf args r :
  sound i rf -> state rf = LEADER -> room rf -> 0 <= i < n -> 0 <= p < n -> aer_Term r = CurrentTerm rf ->
  ae_PrevLogIndex args + len (ae_Entries args) = len (Logs rf) - 1 ->
  (exists e, Logs rf !! Z.to_nat (len (Logs rf) - 1) = Some e /\ Term e = CurrentTerm rf) ->
  aer_Success r = true ->
  exists rf', sendAppendEntriesAndProcess rf args p (Some r) = Ret (rf', []) /\
    replied rf rf' (len (Logs rf) - 1) /\
    exists x, matchIndex rf' !! Z.to_nat p = Some x /\ len (Logs rf) - 1 <= x.
Proof.
  intros S Hl Hroom Hi Hp Ht HN (e & He & Te) Hs. pose proof (sound_shaped i rf Hi S) as Sh.
  assert (Hproc : sendAppendEntriesAndProcess rf args p (Some r) =
    (rf1 ← processAppendSuccess rf args p; Ret (rf1, []))).
  { unfold sendAppendEntriesAndProcess. rewrite bool_decide_eq_false_2 by (by intros ?). simpl.
    by rewrite (proj2 (Z.ltb_ge _ _)), (proj2 (Z.ltb_ge _ _)), Hs by lia. }
  destruct (runs_Ret (processAppendSuccess rf args p)) as [rf' E].
  { apply (processAppendSuccess_no_panic n); [done..|]. intros _. rewrite (sd_snap _ _ S), HN.
    destruct Sh. lia. }
  { pose proof (sendAppend_no_block rf args p r Hroom) as Hb. rewrite Hproc in Hb.
    by destruct (processAppendSuccess rf args p). }
  exists rf'. rewrite Hproc, E. split; [done|]. clear Hproc. unfold processAppendSuccess in E. rewrite HN in E.
  apply bind_Ret_inv in E as (m & Hm & E). unfold slice_get in Hm. rewrite decide_True in Hm by lia.
  destruct (matchIndex rf !! Z.to_nat p) as [m'|] eqn:Em; simplify_eq.
  destruct (Z.ltb_spec m (len (Logs rf) - 1)) as [Hlt|Hge].
  2:{ simplify_eq. split; [split; eauto; intros; eexists; split; [done|lia]|]. exists m. split; [done|lia]. }
  apply bind_Ret_inv in E as (mtch & Hmt & E). apply bind_Ret_inv in E as (next & Hnx & E).
  unfold slice_set in Hmt. case_decide; [|done]. injection Hmt as <-.
  apply bind_Ret_inv in E as (count & Hcount & E). simpl in Hcount.
  unfold logIdxGlobal2Local in Hcount. simpl in Hcount. rewrite (sd_snap _ _ S), Z.sub_0_r in Hcount.
  set (M := <[Z.to_nat p := len (Logs rf) - 1]> (matchIndex rf)) in *.
  assert (HM : M !! Z.to_nat p = Some (len (Logs rf) - 1)).
  { apply list_lookup_insert_eq. unfold len in *. lia. }
  assert (Hmono : forall j x, matchIndex rf !! j = Some x -> exists x', M !! j = Some x' /\ x <= x').
  { intros j x Hx. destruct (decide (j = Z.to_nat p)) as [->|Hne].
    - exists (len (Logs rf) - 1). split; [done|]. rewrite Em in Hx. simplify_eq. lia.
    - exists x. unfold M. rewrite list_lookup_insert_ne by done. split; [done|lia]. }
  assert (Hsame : exists c k, rf' = set_commitCh k (set_commitIndex c (set_nextIndex next (set_matchIndex M rf))) /\
    commitIndex rf <= c /\ (len (Logs rf) - 1 <= c \/ countMatched M (len (Logs rf) - 1) <= n / 2)).
  { simpl in E. rewrite (sd_peers _ _ S) in E.
    destruct (Z.ltb_spec (commitIndex rf) (len (Logs rf) - 1)) as [Hci|Hci].
    - apply bind_Ret_inv in Hcount as (e' & He' & Hcount). unfold slice_get in He'. destruct Sh.
      rewrite decide_True, He in He' by lia. simplify_eq. rewrite Te, Z.eqb_refl in E.
      case_match eqn:Hmaj; zbool.
      + apply sendCommitCh_Ret in E as ->. do 2 eexists. split; [reflexivity|]. simpl. lia.
      + simplify_eq. exists (commitIndex rf), (commitCh rf). split; [by destruct rf|]. split; [lia|by right].
    - simplify_eq. assert (0 <= n / 2) by (apply Z.div_pos; lia).
      rewrite (proj2 (Z.ltb_ge _ _)) in E by lia. simplify_eq.
      exists (commitIndex rf), (commitCh rf). split; [by destruct rf|]. split; [lia|left; lia]. }
  destruct Hsame as (c & k & -> & Hc & Hcom). split; [|by exists (len (Logs rf) - 1)].
  split; simpl; try done.
Qed.

(** The reply of a follower whose log does not match there. *)
Lemma conflict_reply i p rf args r :
  sound i rf -> state rf = LEADER -> 0 <= p < n -> aer_Term r = CurrentTerm rf -> aer_Success r = false ->
  exists rf' effs, sendAppendEntriesAndProcess rf args p (Some r) = Ret (rf', effs) /\
    omap (effect_call i) effs = [] /\ (forall N, replied rf rf' N) /\
    nextIndex rf' !! Z.to_nat p = Some (Z.max 1 (aer_ConflictIndex r)).
Proof.
  intros S Hl Hp Ht Hs. do 2 eexists. split.
  { unfold sendAppendEntriesAndProcess. rewrite bool_decide_eq_false_2 by (by intros ?). simpl.
    rewrite (proj2 (Z.ltb_ge _ _)), (proj2 (Z.ltb_ge _ _)), Hs by lia.
    unfold slice_set. rewrite decide_True by (rewrite (sd_next _ _ S); lia). reflexivity. }
  split; [done|]. split.
  - intros N. split; simpl; try done. intros j x Hx. exists x. split; [done|lia].
  - simpl. rewrite max_spec. apply list_lookup_insert_eq. pose proof (sd_next _ _ S). unfold len in *. lia.
Qed.

(** ** Replication terminates *)

(** Peer [i] leads the greatest term [T] with log [L]. *)
Record led (i T : Z) (L : list (LogEntry Cmd)) s : Prop := {
  ld_quiet : quiet s;
  ld_peer : 0 <= i < n;
  ld_state : state (raft_of s i) = LEADER;
  ld_term : CurrentTerm (raft_of s i) = T;
  ld_logs : Logs (raft_of s i) = L;
  ld_top p : 0 <= p < n -> CurrentTerm (raft_of s p) <= T
}.

(** The follower's entries the leader knows of, and whether its last is committed. *)
Definition known i s (p x : Z) : Prop := exists m, matchIndex (raft_of s i) !! Z.to_nat p = Some m /\ x <= m.
Definition gains i (L : list (LogEntry Cmd)) s s' : Prop :=
  (committing (raft_of s i) (len L - 1) -> committing (raft_of s' i) (len L - 1)) /\
  forall p x, known i s p x -> known i s' p x.

Lemma gains_refl i L s : gains i L s s.
Proof. by split. Qed.
Lemma gains_trans i L s1 s2 s3 : gains i L s1 s2 -> gains i L s2 s3 -> gains i L s1 s3.
Proof. intros [] []. split; auto. Qed.

Lemma applies_fields q s s' i : applies q s s' ->
  let rf := raft_of s i in let rf' := raft_of s' i in
  state rf' = state rf /\ CurrentTerm rf' = CurrentTerm rf /\ Logs rf' = Logs rf /\
  commitIndex rf' = commitIndex rf /\ matchIndex rf' = matchIndex rf /\ nextIndex rf' = nextIndex rf.
Proof.
  intros [_ Ho (k & x & E)]. cbn zeta. destruct (decide (i = q)) as [->|Hne]; [by rewrite E|].
  unfold raft_of. by rewrite Ho.
Qed.

Lemma led_drain i T L q s : led i T L s -> 0 <= q < n ->
  exists s', rtc calm s s' /\ led i T L s' /\ gains i L s s' /\ commitCh (raft_of s' q) = 0%nat /\
    nextIndex (raft_of s' i) = nextIndex (raft_of s i) /\ (forall j, j <> q -> sys_nodes s' j = sys_nodes s j).
Proof.
  intros [] Hq. destruct (drain s q ld_quiet0 Hq) as (s' & Hs & Ha & Hc & _). exists s'.
  destruct (applies_fields q s s' i Ha) as (E1 & E2 & E3 & E4 & E5 & E6).
  split_and!; [done| | |done|done|apply Ha].
  - split; [by eapply calm_quiet|done|congruence..|]. intros p Hp.
    destruct (applies_fields q s s' p Ha) as (_ & -> & _). auto.
  - unfold gains, committing, known. by rewrite E4, E5.
Qed.

Lemma round i T L s p nx :
  led i T L s -> 0 <= p < n -> p <> i ->
  (exists e, L !! Z.to_nat (len L - 1) = Some e /\ Term e = T) ->
  nextIndex (raft_of s i) !! Z.to_nat p = Some nx ->
  exists s', rtc calm s s' /\ led i T L s' /\ gains i L s s' /\
    (known i s' p (len L - 1) \/
     exists nx', nextIndex (raft_of s' i) !! Z.to_nat p = Some nx' /\ 1 <= nx' < nx).
Proof.
  intros H0 Hp Hne HL Hnx.
  destruct (led_drain i T L p s H0 Hp) as (s1 & S1 & H1 & G1 & C1 & N1 & _).
  destruct (led_drain i T L i s1 H1 (ld_peer _ _ _ _ H1)) as (s2 & S2 & H2 & G2 & C2 & N2 & O2).
  assert (C1' : commitCh (raft_of s2 p) = 0%nat) by (unfold raft_of in *; by rewrite O2).
  rewrite <- N1, <- N2 in Hnx. clear N1 N2 O2 C1 H0.
  pose proof H2 as [Hr Hi Hst Ht Hlog Htop]. pose proof (quiet_sound s2 i Hr Hi) as Si.
  pose proof (quiet_sound s2 p Hr Hp) as Sp. subst T. subst L. clear H1.
  destruct (sync_args i p (raft_of s2 i) nx Si Hst Hp Hnx) as (args & Hc & HT & Hprev & Hend & Hz).
  pose proof (sd_range _ _ Si Hst _ _ Hnx) as Hrange.
  destruct (runs_Ret (AppendEntries (raft_of s2 p) args)) as [[[rp r] effs] Ha].
  { by apply (AppendEntries_no_panic n), (sound_shaped p). }
  { apply AppendEntries_no_block. unfold room. rewrite C1'. unfold CommitChCap. lia. }
  destruct (append_answer p _ _ _ _ _ Sp ltac:(rewrite HT; by apply Htop) ltac:(lia) Hz Ha) as (Tp & Tr & -> & Hans).
  assert (exists ri effs', sendAppendEntriesAndProcess (raft_of s2 i) args p (Some r) = Ret (ri, effs') /\
    omap (effect_call i) effs' = [] /\ replied (raft_of s2 i) ri (len (Logs (raft_of s2 i)) - 1) /\
    ((exists x, matchIndex ri !! Z.to_nat p = Some x /\ len (Logs (raft_of s2 i)) - 1 <= x) \/
     exists nx', nextIndex ri !! Z.to_nat p = Some nx' /\ 1 <= nx' < nx)) as (ri & effs' & Hri & He' & Hrep & Hgo).
  { destruct Hans as [Hok|(Hno & Hpos & Hci)].
    - destruct (success_reply i p (raft_of s2 i) args r) as (ri & E & Hrep & Hx); try done; [|congruence|].
      { unfold room. rewrite C2. unfold CommitChCap. lia. }
      exists ri, []. split_and!; [done..|by left].
    - destruct (conflict_reply i p (raft_of s2 i) args r) as (ri & effs' & E & Ee & Hrep & Hx); try done; [congruence|].
      exists ri, effs'. split_and!; [done|done|apply Hrep|]. right. eexists. split; [exact Hx|]. lia. }
  destruct (append_exchange s2 i p args rp r [ResetTimer] ri effs') as (s3 & S3 & Ri & Rp & Oth); try done.
  exists s3. split; [by etrans; [exact S1|etrans]|]. split_and!.
  - destruct Hrep. split; [by eapply calm_quiet|done|by rewrite Ri|by rewrite Ri|by rewrite Ri|].
    intros q Hq. destruct (decide (q = i)) as [->|Hqi]; [rewrite Ri; lia|].
    destruct (decide (q = p)) as [->|Hqp]; [rewrite Rp; lia|]. unfold raft_of. rewrite Oth by done. by apply Htop.
  - eapply gains_trans; [exact G1|]. eapply gains_trans; [exact G2|]. destruct Hrep. split.
    + by rewrite Ri.
    + intros q x (m & Hm & Hx). destruct (re_match0 _ _ Hm) as (m' & Hm' & ?). exists m'. rewrite Ri. split; [done|lia].
  - destruct Hgo as [(x & Hx & ?)|(nx' & Hx & ?)]; [left|right]; [exists x|exists nx']; by rewrite Ri.
Qed.

(** The leader finds the point where the follower's log matches, in at most as many
    rounds as its log has entries, and the follower stores the rest. *)
Lemma replicate_to i T L s p :
  led i T L s -> 0 <= p < n -> p <> i ->
  (exists e, L !! Z.to_nat (len L - 1) = Some e /\ Term e = T) ->
  exists s', rtc calm s s' /\ led i T L s' /\ gains i L s s' /\ known i s' p (len L - 1).
Proof.
  intros H Hp Hne HL. pose proof (quiet_sound s i (ld_quiet _ _ _ _ H) (ld_peer _ _ _ _ H)) as S.
  destruct (lookup_lt_is_Some_2 (nextIndex (raft_of s i)) (Z.to_nat p)) as [nx Hnx].
  { pose proof (sd_next _ _ S). unfold len in *. lia. }
  assert (exists m : nat, nx <= Z.of_nat m) as (m & Hm) by (exists (Z.to_nat nx); lia).
  revert s nx H S Hnx Hm. induction m as [|m IH]; intros s nx H S Hnx Hm.
  { pose proof (sd_range _ _ S (ld_state _ _ _ _ H) _ _ Hnx). lia. }
  destruct (round i T L s p nx H Hp Hne HL Hnx) as (s1 & S1 & H1 & G1 & [Hk|(nx' & Hnx' & Hlt)]); [by exists s1|].
  destruct (IH s1 nx' H1) as (s2 & S2 & H2 & G2 & Hk); [|done|lia|].
  { apply quiet_sound; [apply H1|apply H1]. }
  exists s2. split; [by etrans|]. split_and!; [done|by eapply gains_trans|done].
Qed.

Lemma replicate_all i T L s (ps : list Z) :
  led i T L s -> (exists e, L !! Z.to_nat (len L - 1) = Some e /\ Term e = T) ->
  (forall p, p ∈ ps -> 0 <= p < n /\ p <> i) ->
  exists s', rtc calm s s' /\ led i T L s' /\ gains i L s s' /\ forall p, p ∈ ps -> known i s' p (len L - 1).
Proof.
  intros H HL. revert s H. induction ps as [|p ps IH]; intros s H Hps.
  { exists s. split_and!; [reflexivity|done|apply gains_refl|]. by intros ? ?%elem_of_nil. }
  destruct (Hps p ltac:(left)) as [Hp Hne].
  destruct (replicate_to i T L s p H Hp Hne HL) as (s1 & S1 & H1 & G1 & Hk).
  destruct (IH s1 H1) as (s2 & S2 & H2 & G2 & Hks); [intros; apply Hps; by right|].
  exists s2. split; [by etrans|]. split_and!; [done|by eapply gains_trans|].
  intros q [->|Hq]%elem_of_cons; [by apply G2|by apply Hks].
Qed.

(** ** Commit and apply *)
Lemma count_all (M : list Z) N : Forall (fun x => N <= x) M -> countMatched M N = len M.
Proof.
  intros H. unfold countMatched. f_equal. induction H as [|x M Hx _ IH]; [done|].
  by rewrite filter_cons_True, IH.
Qed.

Lemma count_one (M : list Z) N k v : Forall (fun x => x < N) M -> countMatched (<[k := v]> M) N <= 1.
Proof.
  intros H. unfold countMatched.
  assert (Hnil : forall l, l ⊆ M -> filter (fun x => N <= x) l = []).
  { intros l Hl. destruct (filter _ l) as [|x k'] eqn:E; [done|]. exfalso.
    assert (Hx : x ∈ filter (fun x => N <= x) l) by (rewrite E; left).
    apply list_elem_of_filter in Hx as [? Hx%Hl]. rewrite Forall_forall in H. specialize (H x Hx). lia. }
  destruct (decide (k < length M)%nat) as [Hk|Hk].
  - rewrite insert_take_drop, filter_app by done. rewrite Hnil by (intros x; apply take_elem).
    rewrite filter_cons. rewrite (Hnil (drop (S k) M)) by (intros x; apply drop_elem).
    case_decide; unfold len; simpl; lia.
  - rewrite list_insert_ge by lia. rewrite Hnil by done. unfold len. simpl. lia.
Qed.

(** A committed record is an entry of every peer that knows it is committed. *)
Lemma record_entry s i j idx d :
  quiet s -> 0 <= i < n -> (j, idx, d) ∈ sys_logs s -> idx <= commitIndex (raft_of s i) ->
  exists e, Logs (raft_of s i) !! Z.to_nat idx = Some e /\ Command e = d.
Proof.
  intros Hr Hi Hin Hle. destruct (quiet_rel s Hr) as (a & _ & I & R). destruct (rel_node R i Hi) as [C _].
  destruct (rel_logs R _ Logic.I Hin) as (t & k & e & Hc & Hk & He & Ed). simpl in Hk, He, Ed.
  destruct (nr_commit C Logic.I) as [Hci [E|(t' & k' & _ & Hc' & Hp)]].
  { apply (f_equal length) in E. rewrite length_take in E. unfold len in *. simpl in E. lia. }
  assert (Htk : take k (LL a t) !! Z.to_nat (idx - 1) = Some e) by (rewrite lookup_take_lt by lia; done).
  destruct (lookup_lt_is_Some_2 (log a i) (Z.to_nat (idx - 1))) as [f Hf]; [unfold len in *; lia|].
  assert (Hf' : take k' (LL a t') !! Z.to_nat (idx - 1) = Some f).
  { eapply prefix_lookup_l; [exact Hp|]. rewrite lookup_take_lt by lia. done. }
  assert (f = e) as ->.
  { destruct (committed_agree n a t k t' k' I Hc Hc') as [Hp'|Hp'].
    - pose proof (prefix_lookup_l _ _ _ _ Hp' Htk). congruence.
    - pose proof (prefix_lookup_l _ _ _ _ Hp' Hf'). congruence. }
  exists e. split; [|done]. rewrite (nr_logs C), (proj1 (nr_nocomp C Logic.I)). unfold rebased. simpl.
  rewrite drop_0. replace (Z.to_nat idx) with (S (Z.to_nat (idx - 1))) by lia. done.
Qed.

(** Everything applied so far is in the log of a leader of the greatest term. *)
Lemma record_below i T L s j idx d : led i T L s -> (j, idx, d) ∈ sys_logs s -> idx < len L.
Proof.
  intros [Hr Hi Hst Ht HL Htop] Hin. destruct (quiet_rel s Hr) as (a & _ & I & R). destruct (rel_node R i Hi) as [C _].
  destruct (rel_logs R _ Logic.I Hin) as (t & k & e & Hc & Hk & He & _). simpl in Hk, He.
  assert (HtT : t <= T).
  { destruct Hc as (_ & Hpos & Q & HQ & Hack). destruct (quorum_nonempty n Q HQ) as (q & Hq).
    assert (Hqn : 0 <= q < n) by (by apply elem_of_nodes, HQ).
    specialize (Hack q Hq). assert (t <= term a q) by (apply (inv_acked_term _ _ I t q); lia).
    destruct (rel_node R q Hqn) as [Cq _]. pose proof (Htop q Hqn). rewrite (nr_term Cq) in *. lia. }
  pose proof (nr_lead C Hst) as Hlead. rewrite <- (nr_term C), Ht in Hlead.
  assert (Hp : take k (LL a t) `prefix_of` LL a T).
  { apply (committed_in_leader n); [done|congruence|]. right. exists t, k. by split_and!. }
  assert (Hlog : log a i = LL a T).
  { rewrite (inv_leader_log _ _ I i); [by rewrite <- (nr_term C), Ht|]. by rewrite <- (nr_term C), Ht. }
  assert (El : len L = len (log a i) + 1).
  { rewrite <- HL, (nr_logs C), (proj1 (nr_nocomp C Logic.I)). unfold rebased, len. simpl. rewrite drop_0. lia. }
  rewrite El, Hlog. apply lookup_lt_Some in He. apply prefix_length in Hp. rewrite length_take in Hp. unfold len. lia.
Qed.

(** The leader takes a command. *)
Lemma start_led i T L s c : 2 <= n -> led i T L s ->
  exists e s', Command e = Some c /\ Term e = T /\ calm s s' /\ led i T (L ++ [e]) s' /\
    committing (raft_of s' i) (len L) /\ known i s' i (len L).
Proof.
  intros Hn H. pose proof H as [Hr Hi Hst Ht HL Htop]. pose proof (quiet_sound s i Hr Hi) as S.
  destruct (runs_Ret (Start (raft_of s i) c)) as [[[rf ret] effs] E].
  { by apply (Start_no_panic n), (sound_shaped i). }
  { unfold Start. rewrite decide_True by done.
    repeat (apply is_block_bind; [apply slice_set_no_block|intros]). done. }
  pose proof E as E'. unfold Start in E. rewrite decide_True in E by done.
  apply bind_Ret_inv in E as (nx & Hnx & E). apply bind_Ret_inv in E as (mt & Hmt & E). injection E as <- _ <-.
  set (e := mkLogEntry (SnapshotIndex (raft_of s i) + len (Logs (raft_of s i))) (CurrentTerm (raft_of s i)) (Some c)) in *.
  set (rf := persistState _) in *.
  exists e, (put_raft s i rf [GoFastBroadCast]).
  assert (Hcalm : calm s (put_raft s i rf [GoFastBroadCast])).
  { exists (EvStart i c). split; [done|]. unfold exec. by rewrite peer_true, E' by done. }
  assert (Ri : raft_of (put_raft s i rf [GoFastBroadCast]) i = rf) by (unfold raft_of; simpl; by rewrite fn_lookup_insert).
  assert (Hlen : logIdxLocal2Global (set_Logs (Logs (raft_of s i) ++ [e]) (raft_of s i))
    (len (Logs (set_Logs (Logs (raft_of s i) ++ [e]) (raft_of s i))) - 1) = len L).
  { unfold logIdxLocal2Global. simpl. rewrite HL, (sd_snap _ _ S). unfold len. rewrite length_app. simpl. lia. }
  rewrite Hlen in Hmt. simpl in Hmt. rewrite (sd_me _ _ S) in Hmt. unfold slice_set in Hmt. case_decide; [|done].
  assert (Emt : <[Z.to_nat i := len L]> (matchIndex (raft_of s i)) = mt) by congruence.
  split_and!; [done|done|done| | |].
  - split; [|done|by rewrite Ri|by rewrite Ri|rewrite Ri; simpl; congruence|].
    + eapply calm_quiet; [exact Hr|]. by apply rtc_once.
    + intros p Hp. unfold raft_of. simpl. fn_cases; [by simpl; lia|]. by apply Htop.
  - rewrite Ri. right. simpl. rewrite <- Emt.
    assert (1 <= n / 2) by (apply Z.div_le_lower_bound; lia). etrans; [apply count_one|done].
    apply Forall_lookup. intros j x Hx. rewrite <- HL. by apply (sd_acks _ _ S Hst j).
  - exists (len L). rewrite Ri. split; [|done]. simpl. rewrite <- Emt. apply list_lookup_insert_eq. unfold len in *. lia.
Qed.

(** A leader of the greatest term commits a command and applies it. *)
Lemma leader_progress i T L s c : 2 <= n -> led i T L s ->
  exists s', rtc calm s s' /\ (i, len L, Some c) ∈ sys_logs s'.
Proof.
  intros Hn H0. destruct (start_led i T L s c Hn H0) as (e & s1 & Ec & Et & S1 & H1 & Hcom & Hown).
  assert (El : len (L ++ [e]) - 1 = len L) by (unfold len; rewrite length_app; simpl; lia).
  assert (Hlast : (L ++ [e]) !! Z.to_nat (len L) = Some e).
  { unfold len. rewrite Nat2Z.id. by apply list_lookup_middle. }
  destruct (replicate_all i T (L ++ [e]) s1 (filter (fun p => p <> i) (seqZ 0 n)) H1) as (s2 & S2 & H2 & [G1 G2] & Hk).
  { exists e. by rewrite El. }
  { intros p [? [? ?]%elem_of_seqZ]%list_elem_of_filter. split; [lia|done]. }
  rewrite El in *. specialize (G1 Hcom).
  assert (Hall : forall p, 0 <= p < n -> known i s2 p (len L)).
  { intros p Hp. destruct (decide (p = i)) as [->|Hne]; [by apply G2|]. apply Hk.
    apply list_elem_of_filter. split; [done|]. apply elem_of_seqZ. lia. }
  pose proof (quiet_sound s2 i (ld_quiet _ _ _ _ H2) (ld_peer _ _ _ _ H2)) as S.
  assert (Hci : len L <= commitIndex (raft_of s2 i)).
  { destruct G1 as [?|Hcnt]; [done|]. rewrite count_all in Hcnt.
    - rewrite (sd_match _ _ S) in Hcnt. pose proof (Z.div_lt n 2). lia.
    - apply Forall_lookup. intros j x Hx. pose proof (lookup_lt_Some _ _ _ Hx). pose proof (sd_match _ _ S).
      destruct (Hall (Z.of_nat j)) as (m & Hm & ?); [unfold len in *; lia|]. rewrite Nat2Z.id in Hm. congruence. }
  destruct (drain s2 i (ld_quiet _ _ _ _ H2) (ld_peer _ _ _ _ H2)) as (s3 & S3 & A3 & C3 & W3).
  exists s3. split; [by eapply rtc_l; [|etrans]|].
  assert (Hr3 : quiet s3) by (eapply calm_quiet; [apply H2|done]).
  destruct (applies_fields i s2 s3 i A3) as (_ & _ & EL & EC & _). pose proof (ld_peer _ _ _ _ H2) as Hi.
  assert (Hla : len L <= lastApplied (raft_of s3 i)).
  { destruct (reach_applied n s3 ltac:(by eapply reach_weaken; [|exact Hr3]) i) as [_ _ Hnn Htok _].
    fold (raft_of s3 i) in Htok. rewrite C3, W3 in Htok. destruct Htok as [Htok|[?|?]]; [|lia|done].
    rewrite (sd_snap _ _ (quiet_sound s3 i Hr3 Hi)) in Htok. unfold raft_of in *. lia. }
  assert (Hidx : len L ∈ indices (nd_applyCh (sys_nodes s3 i))).
  { rewrite (gap_free_indices n s3 i Hr3 Hi). apply elem_of_seqZ.
    pose proof (sd_head _ _ (quiet_sound s i (ld_quiet _ _ _ _ H0) (ld_peer _ _ _ _ H0))) as (L0 & E0).
    rewrite (ld_logs _ _ _ _ H0) in E0. rewrite E0 in *. unfold len in *. simpl in *. lia. }
  apply list_elem_of_omap in Hidx as ([idx d|] & Hm & E); [|done]. simpl in E. injection E as ->.
  assert (Hrec : (i, len L, d) ∈ sys_logs s3) by (by eapply (reach_sent_logged n)).
  destruct (record_entry s3 i i (len L) d Hr3 Hi Hrec) as (f & Hf & <-); [lia|].
  rewrite EL, (ld_logs _ _ _ _ H2), Hlast in Hf. injection Hf as <-. by rewrite <- Ec.
Qed.

(** ** Elections *)

(** The log of [rf] is no more up to date than that of [rg], as RequestVote
    compares them. *)
Definition last_of rf : Z := match last (Logs rf) with Some e => Term e | None => 0 end.
Definition behind rf rg : Prop :=
  last_of rf < last_of rg \/ (last_of rf = last_of rg /\ len (Logs rf) <= len (Logs rg)).

Lemma last_get rf : 0 < len (Logs rf) ->
  exists e, slice_get (Logs rf) (len (Logs rf) - 1) = Ret e /\ Term e = last_of rf.
Proof.
  intros Hl. unfold slice_get, last_of, len in *. rewrite decide_True, last_lookup by lia.
  replace (Z.to_nat (Z.of_nat (length (Logs rf)) - 1)) with (Nat.pred (length (Logs rf))) by lia.
  destruct (lookup_lt_is_Some_2 (Logs rf) (Nat.pred (length (Logs rf)))) as [e ->]; [lia|]. by exists e.
Qed.

(** A vote request of a candidate with log [rf]. *)
Definition asks i rf (args : RequestVoteArgs) : Prop :=
  rv_Term args = CurrentTerm rf /\ rv_CandidateID args = i /\
  rv_LastLogIndex args = len (Logs rf) - 1 /\ rv_LastLogTerm args = last_of rf.

Lemma vote_granted i p rf rg args :
  sound p rf -> asks i rg args -> CurrentTerm rf < CurrentTerm rg -> behind rf rg -> 0 <= p < n ->
  exists rf', RequestVote rf args = Ret (rf', mkRequestVoteReply (CurrentTerm rg) true, [ResetTimer]) /\
    CurrentTerm rf' = CurrentTerm rg.
Proof.
  intros S (Et & Ec & Ei & El) Hlt Hb Hp. pose proof (sound_shaped p rf Hp S) as [Hlog _ _ _].
  destruct (last_get rf Hlog) as (e & He & Te). eexists. split.
  { unfold RequestVote. rewrite Et, (proj2 (Z.ltb_ge _ _)), (proj2 (Z.ltb_lt _ _)) by lia. simpl.
    rewrite He. simpl. unfold logIdxLocal2Global. simpl. rewrite (sd_snap _ _ S), Te, El, Ei, Ec.
    assert ((last_of rf <? last_of rg) || ((last_of rg =? last_of rf) &&
      (len (Logs rf) - 1 + 0 <=? len (Logs rg) - 1)) = true) as ->; [|reflexivity].
    destruct Hb as [Hb|[Hb Hb']]; [by rewrite (proj2 (Z.ltb_lt _ _))|].
    rewrite Hb, Z.eqb_refl, (proj2 (Z.leb_le _ _)) by lia. apply orb_true_r. }
  done.
Qed.

(** A granted vote counts. *)
Record elected_or_counts rf rf' (v : Z) : Prop := {
  ec_term : CurrentTerm rf' = CurrentTerm rf;
  ec_logs : Logs rf' = Logs rf;
  ec_state : state rf' = LEADER \/ (state rf' = CANDIDATE /\ voteCount rf' = v /\ v <= n / 2)
}.

Lemma vote_counted i rf args p v :
  sound i rf -> 0 <= i < n ->
  state rf = LEADER \/ (state rf = CANDIDATE /\ voteCount rf = v /\ v <= n / 2) ->
  exists rf' effs, sendRequestVoteAndProcess rf args p (Some (mkRequestVoteReply (CurrentTerm rf) true)) = Ret (rf', effs) /\
    omap (effect_call i) effs = [] /\ elected_or_counts rf rf' (v + 1).
Proof.
  intros S Hi [Hl|(Hc & Hv & _)]; unfold sendRequestVoteAndProcess.
  { rewrite bool_decide_eq_true_2 by congruence. simpl. exists rf, []. split_and!; [done..|]. split; [done|done|by left]. }
  rewrite bool_decide_eq_false_2 by (by intros ?). simpl. rewrite Z.ltb_irrefl.
  set (rf1 := set_voteCount (voteCount rf + 1) rf). rewrite (sd_peers _ _ S).
  destruct (Z.ltb_spec (n / 2) (voteCount rf + 1)) as [Hmaj|Hmin].
  - destruct (runs_Ret (becomeLeader rf1)) as [rf2 E].
    { apply (becomeLeader_no_panic n). destruct (sound_shaped i rf Hi S). by split. }
    { unfold becomeLeader. pose proof (sound_shaped i rf Hi S) as [_ ? ? _].
      rewrite leaderInit_spec by (simpl; unfold len in *; lia). simpl.
      repeat (apply is_block_bind; [apply slice_get_no_block || apply slice_set_no_block|intros]). done. }
    rewrite E. exists rf2, [GoSyncUpDaemon; ResetTimer]. split_and!; [done..|].
    unfold becomeLeader in E. apply bind_Ret_inv in E as ([nx mt] & _ & E). bind_inv. simplify_eq.
    split; [done|done|by left].
  - exists rf1, []. split_and!; [done..|]. split; [done|done|]. right. simpl. split_and!; [done|lia|lia].
Qed.

(** A vote request, its handler and the processing of the reply. *)
Lemma vote_exchange s i p cs rest args rp r effs ri effs' :
  0 <= i < n -> 0 <= p < n -> i <> p -> sys_calls s = cs ++ mkCall i p (CallVote args) :: rest ->
  RequestVote (raft_of s p) args = Ret (rp, r, effs) -> omap (effect_call p) effs = [] ->
  sendRequestVoteAndProcess (raft_of s i) args p (Some r) = Ret (ri, effs') -> omap (effect_call i) effs' = [] ->
  exists s', rtc calm s s' /\ raft_of s' i = ri /\ raft_of s' p = rp /\ sys_calls s' = cs ++ rest /\
    forall q, q <> i -> q <> p -> sys_nodes s' q = sys_nodes s q.
Proof.
  intros Hi Hp Hne Hcs Ha He Hs He'.
  apply (exchange s i p cs rest (CallVote args) (RetVote args r) rp effs ri effs'); try done.
  - intros k. unfold deliver. cbn [c_to c_from c_rpc]. by rewrite Ha.
  - intros s2 k E. unfold reply. cbn [c_to c_from c_rpc]. by rewrite E, Hs.
Qed.

(** All peers of [ps] vote for the candidate. *)
Lemma collect_votes i args T L (ps : list Z) : 0 <= i < n -> forall s cs,
  quiet s -> asks i (raft_of s i) args -> CurrentTerm (raft_of s i) = T -> Logs (raft_of s i) = L -> NoDup ps ->
  sys_calls s = cs ++ ((fun p => mkCall i p (CallVote args)) <$> ps) ->
  (forall p, p ∈ ps -> 0 <= p < n /\ p <> i /\ CurrentTerm (raft_of s p) < T /\ behind (raft_of s p) (raft_of s i)) ->
  (forall q, 0 <= q < n -> CurrentTerm (raft_of s q) <= T) ->
  state (raft_of s i) = LEADER \/ (state (raft_of s i) = CANDIDATE /\ voteCount (raft_of s i) = n - len ps /\ n - len ps <= n / 2) ->
  exists s', rtc calm s s' /\ led i T L s'.
Proof.
  intros Hi. induction ps as [|p ps IH]; intros s cs Hr Hask Ht HL Hnd Hcs Hps Htop Hst.
  { exists s. split; [reflexivity|]. split; try done. destruct Hst as [?|(_ & _ & Hv)]; [done|].
    exfalso. unfold len in Hv. simpl in Hv. pose proof (Z.div_lt n 2). lia. }
  destruct (Hps p ltac:(left)) as (Hp & Hne & Hlt & Hb). apply NoDup_cons in Hnd as [Hnot Hnd].
  destruct (vote_granted i p (raft_of s p) (raft_of s i) args) as (rp & Ep & Tp); try done; [by apply quiet_sound|congruence|].
  assert (El : n - len (p :: ps) + 1 = n - len ps) by (unfold len; simpl; lia).
  destruct (vote_counted i (raft_of s i) args p _ (quiet_sound s i Hr Hi) Hi Hst) as (ri & effs & Ei & Ee & [Et1 El1 Est]).
  rewrite El in Est.
  destruct (vote_exchange s i p cs ((fun p => mkCall i p (CallVote args)) <$> ps) args rp
    (mkRequestVoteReply (CurrentTerm (raft_of s i)) true) [ResetTimer] ri effs)
    as (s1 & S1 & Ri & Rp & C1 & Oth); try done.
  assert (Hq : forall q, q <> i -> q <> p -> raft_of s1 q = raft_of s q) by (intros; unfold raft_of; by rewrite Oth).
  destruct (IH s1 cs) as (s2 & S2 & H2); try done; [by eapply calm_quiet|..].
  - destruct Hask as (? & ? & ? & ?). unfold asks, last_of in *. rewrite Ri, Et1, El1. by split_and!.
  - by rewrite Ri, Et1.
  - by rewrite Ri, El1.
  - intros q Hin. destruct (Hps q) as (? & ? & ? & Hbq); [by right|].
    rewrite Ri, Hq by (try done; by intros ->). split_and!; try done; try lia.
    unfold behind, last_of in *. by rewrite El1.
  - intros q Hqn. destruct (decide (q = i)) as [->|]; [rewrite Ri; lia|].
    destruct (decide (q = p)) as [->|]; [rewrite Rp; lia|]. rewrite Hq by done. by apply Htop.
  - by rewrite Ri.
  - exists s2. split; [by etrans|done].
Qed.

(** A peer that does not lead starts elections until its term is above [M]. *)
Lemma timeout_step s i : quiet s -> 0 <= i < n -> state (raft_of s i) <> LEADER ->
  exists s' args, calm s s' /\ asks i (raft_of s' i) args /\ state (raft_of s' i) = CANDIDATE /\
    voteCount (raft_of s' i) = 1 /\ CurrentTerm (raft_of s' i) = CurrentTerm (raft_of s i) + 1 /\
    Logs (raft_of s' i) = Logs (raft_of s i) /\
    sys_calls s' = sys_calls s ++ ((fun p => mkCall i p (CallVote args)) <$> filter (fun p => p <> i) (seqZ 0 n)) /\
    forall q, q <> i -> raft_of s' q = raft_of s q.
Proof.
  intros Hr Hi Hst. pose proof (quiet_sound s i Hr Hi) as S. pose proof (sound_shaped i _ Hi S) as [Hlog _ _ _].
  destruct (last_get (raft_of s i) Hlog) as (e & He & Te).
  set (rf := persistState (set_voteCount 1 (set_VotedFor (me (raft_of s i)) (set_state CANDIDATE
    (set_CurrentTerm (CurrentTerm (raft_of s i) + 1) (raft_of s i)))))).
  set (args := mkRequestVoteArgs (CurrentTerm (raft_of s i) + 1) i (len (Logs (raft_of s i)) - 1) (Term e)).
  set (effs := (fun p => GoSendRequestVote (Cmd := Cmd) args p) <$> filter (fun p => p <> i) (seqZ 0 n)).
  assert (E : broadCastVote (raft_of s i) = Ret (rf, effs)).
  { unfold broadCastVote. rewrite decide_False by done. cbn [Logs set_voteCount set_VotedFor set_state set_CurrentTerm].
    rewrite He. simpl. unfold effs, args, otherPeers, logIdxLocal2Global. simpl.
    rewrite (sd_me _ _ S), (sd_peers _ _ S), (sd_snap _ _ S), Z.add_0_r. unfold rf. by rewrite (sd_me _ _ S). }
  exists (put_raft s i rf effs), args.
  assert (Ri : raft_of (put_raft s i rf effs) i = rf) by (unfold raft_of; simpl; by rewrite fn_lookup_insert).
  split_and!; rewrite ?Ri; try done.
  - exists (EvTimeout i). split; [done|]. unfold exec. rewrite peer_true, E by done. done.
  - simpl. f_equal. unfold effs. generalize (filter (fun p => p <> i) (seqZ 0 n)). intros l.
    induction l as [|x l IH]; simpl; [done|]. by f_equal.
  - intros q Hq. unfold raft_of. simpl. by rewrite fn_lookup_insert_ne.
Qed.

Lemma campaign M s i : quiet s -> 0 <= i < n -> state (raft_of s i) <> LEADER ->
  exists s' args cs, rtc calm s s' /\ asks i (raft_of s' i) args /\ state (raft_of s' i) = CANDIDATE /\
    voteCount (raft_of s' i) = 1 /\ M < CurrentTerm (raft_of s' i) /\ Logs (raft_of s' i) = Logs (raft_of s i) /\
    sys_calls s' = cs ++ ((fun p => mkCall i p (CallVote args)) <$> filter (fun p => p <> i) (seqZ 0 n)) /\
    forall q, q <> i -> raft_of s' q = raft_of s q.
Proof.
  intros Hr Hi. assert (exists k : nat, M < CurrentTerm (raft_of s i) + 1 + Z.of_nat k) as (k & Hk)
    by (exists (Z.to_nat (M - CurrentTerm (raft_of s i))); lia).
  revert s Hr Hk. induction k as [|k IH]; intros s Hr Hk Hst;
    destruct (timeout_step s i Hr Hi Hst) as (s1 & args & S1 & Ha & Hc & Hv & Ht & Hl & Hcs & Hq).
  - exists s1, args, (sys_calls s). split_and!; try done; [by apply rtc_once|lia].
  - destruct (IH s1) as (s2 & args2 & cs & S2 & Ha2 & Hc2 & Hv2 & Ht2 & Hl2 & Hcs2 & Hq2).
    + eapply calm_quiet; [done|by apply rtc_once].
    + lia.
    + congruence.
    + exists s2, args2, cs. split_and!; try done; [by eapply rtc_l|congruence|].
      intros q Hne. by rewrite Hq2, Hq.
Qed.

(** A leader of a term that is not the greatest learns of a greater one. *)
Lemma stand_down s i p : quiet s -> 0 <= i < n -> 0 <= p < n -> state (raft_of s i) = LEADER ->
  CurrentTerm (raft_of s i) < CurrentTerm (raft_of s p) ->
  exists s', rtc calm s s' /\ state (raft_of s' i) <> LEADER /\ forall q, Logs (raft_of s' q) = Logs (raft_of s q).
Proof.
  intros Hr Hi Hp Hst Hlt. pose proof (quiet_sound s i Hr Hi) as S.
  assert (Hne : i <> p) by (intros ->; lia).
  destruct (lookup_lt_is_Some_2 (nextIndex (raft_of s i)) (Z.to_nat p)) as [nx Hnx].
  { pose proof (sd_next _ _ S). unfold len in *. lia. }
  destruct (sync_args i p (raft_of s i) nx S Hst Hp Hnx) as (args & Hc & HT & _).
  destruct (append_exchange s i p args (raft_of s p) (mkAppendEntriesReply (CurrentTerm (raft_of s p)) false 0) []
    (persistState (stepDown (raft_of s i) (CurrentTerm (raft_of s p)))) [ResetTimer]) as (s' & S' & Ri & Rp & Oth); try done.
  - unfold AppendEntries. by rewrite HT, (proj2 (Z.ltb_lt _ _)) by lia.
  - unfold sendAppendEntriesAndProcess. rewrite bool_decide_eq_false_2 by (by intros ?). simpl.
    by rewrite (proj2 (Z.ltb_ge _ _)), (proj2 (Z.ltb_lt _ _)) by lia.
  - exists s'. split; [done|]. split; [by rewrite Ri|]. intros q.
    destruct (decide (q = i)) as [->|]; [by rewrite Ri|]. destruct (decide (q = p)) as [->|]; [by rewrite Rp|].
    unfold raft_of. by rewrite Oth.
Qed.

Lemma peer_max (R : relation Z) : Transitive R -> 0 < n -> (forall x y, R x y \/ R y x) ->
  exists m, 0 <= m < n /\ forall x, 0 <= x < n -> R x m.
Proof.
  intros HR Hn Ht. destruct (list_max R (seqZ 1 (n - 1)) 0 HR Ht) as (m & Hm & Hle).
  assert (Hin : forall x, x ∈ 0 :: seqZ 1 (n - 1) <-> 0 <= x < n).
  { intros x. rewrite elem_of_cons, elem_of_seqZ. lia. }
  exists m. split; [by apply Hin|]. intros x Hx. by apply Hle, Hin.
Qed.

Lemma top_term s : 0 < n -> exists m, 0 <= m < n /\ forall p, 0 <= p < n -> CurrentTerm (raft_of s p) <= CurrentTerm (raft_of s m).
Proof.
  intros Hn. apply (peer_max (fun x y => CurrentTerm (raft_of s x) <= CurrentTerm (raft_of s y))); [|done|].
  - intros x y z. lia.
  - intros x y. lia.
Qed.

(** Any peer with a most up-to-date log wins an election. *)
Lemma elect_free s i : quiet s -> 2 <= n -> 0 <= i < n -> state (raft_of s i) <> LEADER ->
  (forall p, 0 <= p < n -> behind (raft_of s p) (raft_of s i)) ->
  exists T L s', rtc calm s s' /\ led i T L s'.
Proof.
  intros Hr Hn Hi Hst Hb. destruct (top_term s ltac:(lia)) as (m & Hm & Htop).
  destruct (campaign (CurrentTerm (raft_of s m)) s i Hr Hi Hst)
    as (s1 & args & cs & S1 & Hask & Hc & Hv & HM & HL & Hcs & Hq).
  assert (Hr1 : quiet s1) by (by eapply calm_quiet).
  set (ps := filter (fun p => p <> i) (seqZ 0 n)) in *.
  assert (Hlen : len ps = n - 1).
  { assert (Hp : i :: ps ≡ₚ seqZ 0 n).
    { apply NoDup_Permutation.
      - constructor; [|by apply NoDup_filter, NoDup_seqZ]. intros [? _]%list_elem_of_filter. done.
      - apply NoDup_seqZ.
      - intros x. unfold ps. rewrite elem_of_cons, list_elem_of_filter, elem_of_seqZ.
        destruct (decide (x = i)); [|naive_solver]. split; [lia|by left]. }
    apply Permutation_length in Hp. rewrite length_seqZ in Hp. unfold len. simpl in Hp. lia. }
  destruct (collect_votes i args (CurrentTerm (raft_of s1 i)) (Logs (raft_of s1 i)) ps Hi s1 cs) as (s2 & S2 & H2); try done.
  - by apply NoDup_filter, NoDup_seqZ.
  - intros p [Hne Hp%elem_of_seqZ]%list_elem_of_filter. rewrite Hq by done.
    pose proof (Htop p ltac:(lia)). pose proof (Hb p ltac:(lia)) as Hbp.
    split_and!; try done; try lia. unfold behind, last_of in *. by rewrite HL.
  - intros q Hqn. destruct (decide (q = i)) as [->|]; [done|]. rewrite Hq by done. pose proof (Htop q Hqn). lia.
  - right. rewrite Hlen. assert (1 <= n / 2) by (apply Z.div_le_lower_bound; lia). split_and!; [done|lia|lia].
  - exists (CurrentTerm (raft_of s1 i)), (Logs (raft_of s1 i)), s2. split; [by etrans|done].
Qed.

Lemma elect s : quiet s -> 2 <= n -> exists i T L s', rtc calm s s' /\ led i T L s'.
Proof.
  intros Hr Hn. destruct (peer_max (fun x y => behind (raft_of s x) (raft_of s y))) as (i & Hi & Hb); [|lia|..].
  { intros x y z. unfold behind. lia. }
  { intros x y. unfold behind. lia. }
  exists i. destruct (decide (state (raft_of s i) = LEADER)) as [Hst|Hst]; [|by apply elect_free].
  destruct (top_term s ltac:(lia)) as (m & Hm & Htop).
  destruct (decide (CurrentTerm (raft_of s m) <= CurrentTerm (raft_of s i))) as [Hle|Hgt].
  - exists (CurrentTerm (raft_of s i)), (Logs (raft_of s i)), s. split; [reflexivity|]. split; try done.
    intros p Hp. pose proof (Htop p Hp). lia.
  - destruct (stand_down s i m Hr Hi Hm Hst ltac:(lia)) as (s1 & S1 & Hst1 & HL).
    destruct (elect_free s1 i) as (T & L & s2 & S2 & H2); try done; [by eapply calm_quiet| |].
    + intros p Hp. pose proof (Hb p Hp). unfold behind, last_of in *. by rewrite !HL.
    + exists T, L, s2. split; [by etrans|done].
Qed.

Lemma calm_logs s s' : rtc calm s s' -> sys_logs s ⊆ sys_logs s'.
Proof. induction 1 as [|s t s' (e & _ & He) _ IH]; [done|]. etrans; [by eapply exec_logs_grow|done]. Qed.

(** C16: the cluster is never stuck.  From every state that two or more peers can reach
    without compaction, whatever messages were lost or are still in flight, whoever
    crashed, voted or leads, there is a course of timeouts, deliveries, replies and
    wake-ups alone, without another crash or lost message, after which a peer has
    applied a given command, at an index above everything any peer had applied
    before. *)
Theorem progress_possible s c : quiet s -> 2 <= n ->
  exists s' i idx, rtc calm s s' /\ (i, idx, Some c) ∈ sys_logs s' /\
    forall j k d, (j, k, d) ∈ sys_logs s -> k < idx.
Proof.
  intros Hr Hn. destruct (elect s Hr Hn) as (i & T & L & s1 & S1 & H1).
  destruct (leader_progress i T L s1 c Hn H1) as (s2 & S2 & Hin).
  exists s2, i, (len L). split; [by etrans|]. split; [done|]. intros j k d Hk.
  eapply record_below; [exact H1|]. by apply (calm_logs s s1 S1).
Qed.
End Progress.

(** ** A cluster of one *)
Section Single.
Context {Cmd : Type} `{GC : Gob Cmd}.
Implicit Types s : sys Cmd.

Lemma single_no_calls s : reachable 1 s -> sys_calls s = [].
Proof.
  intros Hr. destruct (reach_basic 1 s Hr) as (a & _ & _ & R).
  destruct (sys_calls s) as [|c cs] eqn:E; [done|].
  destruct (rel_calls R c) as (? & ? & ? & _); [rewrite E; left|]. lia.
Qed.

(** A single peer is never elected.  In a cluster of one peer no execution ever has
    a leader, although the peer's own vote is a majority: becoming leader is tried
    only when a reply to a vote request arrives, and there is nobody to reply. *)
Theorem single_peer_never_leads s i : reachable 1 s -> state (raft_of s i) <> LEADER.
Proof.
  intros Hr. revert i. induction Hr as [|s e s' Hr IH _ He]; intros i; [done|].
  pose proof (single_no_calls s Hr) as Hcs.
  assert (Hboot : forall t, state (raft_of (crash 1 s t) i) <> LEADER).
  { intros t. unfold raft_of. simpl. fn_cases; [|apply IH].
    destruct (dePersistState_static (initRaft (Cmd := Cmd) 1 i (Copy (persister (raft_of s i))))) as
      (_ & _ & _ & _ & _ & _ & _ & E & _). intros H. by rewrite H in E. }
  assert (Hh : forall t o, handle 1 s t o = Some s' -> (forall rf effs, o = Ret (rf, effs) ->
    (forall q, state (raft_of s q) <> LEADER) -> state rf <> LEADER) -> state (raft_of s' i) <> LEADER).
  { intros t o Ho Hrf. destruct o as [[rf effs]| |]; simpl in Ho; simplify_eq; [|apply Hboot].
    unfold raft_of. simpl. fn_cases; [by eapply Hrf|apply IH]. }
  destruct e as [p|k|k|k|p j|p c|p|p|p k|p x snap|p]; unfold exec in He; try (by rewrite Hcs in He);
    (match type of He with (if ?b then _ else _) = _ => destruct b; [|done] end).
  - eapply Hh; [exact He|]. intros rf effs X Hq. unfold broadCastVote in X.
    rewrite decide_False in X by done. bind_inv. by simplify_eq.
  - eapply Hh; [exact He|]. intros rf effs X Hq. bind_inv. simplify_eq. apply Hq.
  - eapply Hh; [exact He|]. intros rf effs X Hq. unfold Start in X. rewrite decide_False in X by done.
    simpl in X. simplify_eq. apply Hq.
  - case_match; simplify_eq. unfold raft_of. simpl. fn_cases; apply IH.
  - destruct (applyLogEntryDaemon _) as [[rf msgs]| |] eqn:X; simplify_eq; [|apply Hboot].
    apply applyLoop_spec in X as [(x & -> & _) _]. unfold raft_of. simpl. fn_cases; apply IH.
  - destruct (nd_notify _ !! _) as [[? ?]|]; [|done]. simpl in He. simplify_eq. unfold raft_of. simpl. fn_cases; apply IH.
  - eapply Hh; [exact He|]. intros rf effs X Hq. apply bind_Ret_inv in X as (rf1 & X & E). simplify_eq.
    unfold Compact in X. repeat (case_match; [simplify_eq; apply Hq|]). bind_inv. simplify_eq. apply Hq.
  - simplify_eq. apply Hboot.
Qed.
End Single.

(** ** Witnesses *)

(** The leader has crashed with a command it had not replicated, and both other
    peers are candidates of the same term. *)
Definition contested : sys Z :=
  ran 3 (fun _ e => negb (compactsb e)) (demo_events ++ [EvStart 1 20; EvCrash 1; EvTimeout 0; EvTimeout 2; EvTimeout 2]).

Lemma contested_quiet : reach 3 no_compaction contested.
Proof. apply ran_reach. intros s e He Hc. by destruct e. Qed.

Lemma progress_possible_witness :
  (state (raft_of contested 0), state (raft_of contested 1), state (raft_of contested 2)) =
    (CANDIDATE, FOLLOWER, CANDIDATE) /\
  exists s' i idx, rtc (calm 3) contested s' /\ (i, idx, Some 30) ∈ sys_logs s' /\
    forall j k d, (j, k, d) ∈ sys_logs contested -> k < idx.
Proof.
  split; [vm_compute; reflexivity|]. apply (progress_possible 3 contested 30 contested_quiet). lia.
Defined.

(** A single peer after three elections. *)
Definition alone : sys Z := ran 1 (fun _ _ => true) [EvTimeout 0; EvTimeout 0; EvTimeout 0].

Lemma single_peer_never_leads_witness :
  CurrentTerm (raft_of alone 0) = 3 /\ state (raft_of alone 0) <> LEADER.
Proof.
  split; [vm_compute; reflexivity|]. apply (single_peer_never_leads alone 0). by apply ran_reach.
Defined.
