(* ===== verification/RaftSnap.v ===== *)
(** * Snapshots in the cluster

    What a peer hands to its service when the service compacts its log, for
    executions in which no replication request overshoots the leader's log and
    every installed snapshot is handed over before the apply daemon runs again
    ([in_order], RaftSystem.v).  A service promises that a snapshot it hands to
    [Compact] holds the effect of the commands up to the index it names ([good]);
    the peer promises in return that everything it ever sends on applyCh is a
    [stream]: commands at consecutive indices, and snapshots that hold the effect
    of a longer prefix of the same log. *)

From stdpp Require Import base functions list list_numbers gmap relations.
From S2P Require Import Prelude Gob RaftNode RaftNodeFacts RaftSpec RaftSystem RaftRefine RaftLead RaftSim RaftSafety RaftApply RaftBounds RaftTrace RaftOrigin.
Open Scope Z_scope.

(** ** The log as the peers have applied it *)
Section Log.
Context {Cmd : Type}.
Implicit Types s : sys Cmd.

Definition logged s (idx : Z) (c : Cmd) : Prop := exists p, (p, idx, Some c) ∈ sys_logs s.

(** The commands [l] are the first ones of the log. *)
Definition gprefix s (l : list Cmd) : Prop :=
  forall j c, l !! j = Some c -> logged s (Z.of_nat j + 1) c.

Lemma logged_mono s s' idx c : sys_logs s ⊆ sys_logs s' -> logged s idx c -> logged s' idx c.
Proof. intros Hs [p Hp]. exists p. by apply Hs. Qed.

Lemma gprefix_mono s s' l : sys_logs s ⊆ sys_logs s' -> gprefix s l -> gprefix s' l.
Proof. intros Hs Hl j c Hj%Hl. by eapply logged_mono. Qed.

Lemma gprefix_nil s : gprefix s [].
Proof. by intros j c. Qed.

Lemma gprefix_snoc s l c : gprefix s l -> logged s (len l + 1) c -> gprefix s (l ++ [c]).
Proof.
  intros Hl Hc j d [Hj|[Hj E]]%lookup_app_Some; [by apply Hl|].
  apply list_lookup_singleton_Some in E as [? <-]. by replace j with (length l) by lia.
Qed.

Lemma len_snoc {A} (l : list A) x : len (l ++ [x]) = len l + 1.
Proof. unfold len. rewrite length_app. simpl. lia. Qed.

(** Prefixes of the log agree. *)
Lemma gprefix_agree `{GC : Gob Cmd} n s l k :
  reach n no_overshoot s -> gprefix s l -> gprefix s k -> len l <= len k -> l `prefix_of` k.
Proof.
  intros Hr Hl Hk Hlen. exists (drop (length l) k). rewrite <- (take_drop (length l) k) at 1. f_equal.
  apply list_eq. intros j. destruct (l !! j) as [c|] eqn:Hj.
  - pose proof (lookup_lt_Some _ _ _ Hj). rewrite lookup_take_lt by done.
    destruct (lookup_lt_is_Some_2 k j) as [d Hd]; [unfold len in *; lia|]. rewrite Hd.
    destruct (Hl j c Hj) as [p Hp], (Hk j d Hd) as [q Hq].
    symmetry. exact (safe_logs_agree n s p q _ _ _ Hr Hp Hq).
  - apply lookup_ge_None in Hj. apply lookup_ge_None_2. rewrite length_take. lia.
Qed.
End Log.

Section Snap.
Context {Cmd : Type} `{GC : Gob Cmd} (n : Z) (P : Cmd -> Prop) (good : list Cmd -> bytes -> Prop).
Implicit Types s : sys Cmd.
Implicit Types rf : Raft Cmd.

(** ** Snapshots and streams *)

(** [b] is a snapshot of the effect of the first [idx] commands. *)
Definition snap_at s (idx : Z) (b : bytes) : Prop :=
  exists l, gprefix s l /\ len l = idx /\ good l b /\ 1 <= len b.

(** From the state after [p] commands, the messages [ms] lead to the one after [q]. *)
Inductive stream s : Z -> list (ApplyMsg Cmd) -> Z -> Prop :=
| stream_nil p : stream s p [] p
| stream_cmd p c ms q :
    logged s (p + 1) c -> stream s (p + 1) ms q -> stream s p (CommandMsg (p + 1) (Some c) :: ms) q
| stream_snap p m b ms q :
    p <= m -> snap_at s m b -> stream s m ms q -> stream s p (SnapshotMsg b :: ms) q.

Lemma snap_at_mono s s' idx b : sys_logs s ⊆ sys_logs s' -> snap_at s idx b -> snap_at s' idx b.
Proof. intros Hs (l & ? & ?). exists l. split; [by eapply gprefix_mono|done]. Qed.

Lemma stream_mono s s' p ms q : sys_logs s ⊆ sys_logs s' -> stream s p ms q -> stream s' p ms q.
Proof.
  intros Hs. induction 1 as [|p c ms q Hc _ IH|p m b ms q Hm Hb _ IH].
  - constructor.
  - constructor; [by eapply logged_mono|done].
  - econstructor; [done|by eapply snap_at_mono|done].
Qed.

Lemma stream_app s p ms r ms' q : stream s p ms r -> stream s r ms' q -> stream s p (ms ++ ms') q.
Proof. induction 1; simpl; intros; [done|constructor; auto|econstructor; eauto]. Qed.

(** The log reaches every position of a stream. *)
Definition reaches s (idx : Z) : Prop := exists l, gprefix s l /\ len l = idx.

Lemma reaches_step s idx c : reaches s idx -> logged s (idx + 1) c -> reaches s (idx + 1).
Proof. intros (l & Hl & <-) Hc. exists (l ++ [c]). split; [by apply gprefix_snoc|apply len_snoc]. Qed.

Lemma snap_reaches s idx b : snap_at s idx b -> reaches s idx.
Proof. intros (l & ? & ? & _). by exists l. Qed.

Lemma stream_reaches s p ms q : stream s p ms q -> reaches s p ->
  reaches s q /\ forall idx c, CommandMsg idx c ∈ ms -> 0 < idx /\ reaches s idx.
Proof.
  induction 1 as [p|p c ms q Hc _ IH|p m b ms q Hm Hb _ IH]; intros Hp.
  - split; [done|]. by intros ? ? ?%elem_of_nil.
  - destruct IH as [? Hin]; [by eapply reaches_step|]. split; [done|].
    intros idx d [[= -> _]|Hd]%elem_of_cons; [|by eapply Hin].
    split; [|by eapply reaches_step]. destruct Hp as (l & _ & <-). unfold len. lia.
  - destruct IH as [? Hin]; [by eapply snap_reaches|]. split; [done|].
    intros idx d [?|Hd]%elem_of_cons; [done|by eapply Hin].
Qed.

(** Commands at consecutive indices are a stream. *)
Lemma commands_stream s p ms :
  indices ms = seqZ (p + 1) (len ms) ->
  (forall m, m ∈ ms -> exists idx c, m = CommandMsg idx (Some c) /\ logged s idx c) ->
  stream s p ms (p + len ms).
Proof.
  revert p. induction ms as [|m ms IH]; intros p Hidx Hms.
  { rewrite Z.add_0_r. constructor. }
  destruct (Hms m ltac:(left)) as (idx & c & -> & Hc).
  assert (El : len (CommandMsg idx (Some c) :: ms) = len ms + 1) by (unfold len; simpl; lia).
  rewrite El in *. rewrite (seqZ_cons (p + 1)) in Hidx by (unfold len; lia). simpl in Hidx.
  injection Hidx as -> Hidx. constructor; [done|].
  replace (p + (len ms + 1)) with (p + 1 + len ms) by lia. apply IH.
  - etrans; [exact Hidx|]. f_equal; lia.
  - intros m Hm. apply Hms. by right.
Qed.

(** ** What a peer has handed over, and how far *)

(** What was sent on applyCh and what will be, of the snapshots installed so far. *)
Definition feed s (i : Z) : list (ApplyMsg Cmd) :=
  nd_applyCh (sys_nodes s i) ++ ((fun h => SnapshotMsg h.1) <$> nd_notify (sys_nodes s i)).

Definition top s (i : Z) : Z := Z.max (lastApplied (raft_of s i)) (SnapshotIndex (raft_of s i)).

(** The executions of this file: commands come from [P], snapshots are [good]. *)
Definition orderly s (e : event Cmd) : Prop :=
  in_order s e /\
  match e with
  | EvStart _ c => P c
  | EvCompact _ idx snap => snap_at s idx snap
  | _ => True
  end.

Definition saved_ok s rf : Prop :=
  (SnapshotIndex rf = 0 /\ snap_of rf = []) \/ snap_at s (SnapshotIndex rf) (snap_of rf).

Definition request_ok s (c : call Cmd) : Prop :=
  match c_rpc c with
  | CallAppend args => Forall (from_P P) (ae_Entries args)
  | CallSnap args =>
      is_LastIncludedIndex args <= 0 \/ snap_at s (is_LastIncludedIndex args) (is_Snapshot args)
  | _ => True
  end.

Record snapped s : Prop := {
  sn_saved i : saved_ok s (raft_of s i);
  sn_logs i : Forall (from_P P) (Logs (raft_of s i));
  sn_calls : Forall (request_ok s) (sys_calls s);
  sn_notify i : Forall (fun h => 1 <= len h.1) (nd_notify (sys_nodes s i));
  sn_records i idx c : (i, idx, Some c) ∈ sys_logs s -> P c /\ 0 < idx /\ reaches s idx;
  sn_feed i : stream s 0 (feed s i) (top s i)
}.

(** ** What an event does *)

(** A log entry that is new at a peer: a command of [P], or sent by a leader. *)
Definition new_entry s (e : LogEntry Cmd) : Prop :=
  from_P P e \/ exists c args, c ∈ sys_calls s /\ c_rpc c = CallAppend args /\ e ∈ ae_Entries args.

(** No request is added to those in flight. *)
Definition old_calls s (cs : list (call Cmd)) : Prop :=
  forall c, c ∈ cs -> c ∈ sys_calls s \/
    match c_rpc c with RetVote _ _ | RetAppend _ _ | RetSnap _ _ => True | _ => False end.

(** A section that puts snapshot [snap] of the first [idx] commands in the place of
    the log up to there. *)
Record cuts (idx : Z) (snap : bytes) rf rf' : Prop := {
  cu_index : SnapshotIndex rf < idx;
  cu_index' : SnapshotIndex rf' = idx;
  cu_snap : snap_of rf' = snap;
  cu_applied : lastApplied rf' = lastApplied rf;
  cu_logs e : e ∈ Logs rf' -> e ∈ Logs rf \/ Command e = None
}.

(** The events of an orderly execution other than crashes. *)
Inductive act s : sys Cmd -> Prop :=
| act_section t cs L rf effs :
    0 <= t < n -> old_calls s cs -> (forall e, e ∈ L -> new_entry s e) ->
    mild L (raft_of s t) rf effs -> lastApplied rf = lastApplied (raft_of s t) ->
    act s (put_raft (with_calls s cs) t rf effs)
| act_install t cs c c' args rf :
    0 <= t < n -> old_calls s cs -> c ∈ sys_calls s -> c_rpc c = CallSnap args ->
    commitIndex (raft_of s t) < is_LastIncludedIndex args ->
    cuts (is_LastIncludedIndex args) (is_Snapshot args) (raft_of s t) rf ->
    act s (put_node (with_calls s cs) t rf [ResetTimer; NotifyApp (is_Snapshot args)]
      (nd_notify (sys_nodes s t) ++ [(is_Snapshot args, c')]))
| act_compact t idx snap rf :
    0 <= t < n -> snap_at s idx snap -> idx <= lastApplied (raft_of s t) ->
    cuts idx snap (raft_of s t) rf -> act s (put_raft (with_calls s (sys_calls s)) t rf [])
| act_calls cs : old_calls s cs -> act s (with_calls s cs)
| act_wake t k :
    0 <= t < n -> act s (mkSys (<[t := mkNode (set_commitCh k (raft_of s t)) (nd_applyCh (sys_nodes s t))
      (nd_notify (sys_nodes s t)) true]> (sys_nodes s)) (sys_calls s) (sys_logs s))
| act_apply t rf msgs :
    0 <= t < n -> nd_notify (sys_nodes s t) = [] -> applyLogEntryDaemon (raft_of s t) = Ret (rf, msgs) ->
    act s (mkSys (<[t := mkNode rf (nd_applyCh (sys_nodes s t) ++ msgs) (nd_notify (sys_nodes s t)) false]>
      (sys_nodes s)) (sys_calls s) (sys_logs s ++ omap (log_record t) msgs))
| act_notify t b c bs :
    0 <= t < n -> nd_notify (sys_nodes s t) = (b, c) :: bs -> is_retsnap c ->
    act s (mkSys (<[t := mkNode (raft_of s t) (nd_applyCh (sys_nodes s t) ++ notifyAppUseNewSnapShot b) bs
      (nd_woken (sys_nodes s t))]> (sys_nodes s)) (sys_calls s ++ [c]) (sys_logs s)).

Lemma mild_notify rf c (effs : list (effect Cmd)) :
  Forall (mild_effect rf) effs -> omap (effect_notify c) effs = [].
Proof. induction 1 as [|e effs He _ IH]; [done|]. simpl. by destruct e. Qed.

(** The sections that move the snapshot do so, or change nothing of it. *)
Lemma rebaseLog_entries (logs : list (LogEntry Cmd)) size idx t from newLog e :
  rebaseLog logs size idx t from = Ret newLog -> e ∈ newLog -> e ∈ logs \/ Command e = None.
Proof.
  unfold rebaseLog, goCopy. intros H He.
  assert (Hz : forall k j, e ∈ drop j (replicate k zeroEntry) -> Command e = None).
  { intros k j [-> _]%drop_elem%elem_of_replicate. done. }
  case_match; bind_inv; simplify_eq; apply elem_of_cons in He as [->|He]; try (by right).
  - apply elem_of_app in He as [He%take_elem|He%Hz]; [left|by right]. unfold slice_from in *.
    case_decide; [|done]. simplify_eq. by apply drop_elem in He.
  - right. by apply (Hz (Z.to_nat (size - 1)) 0%nat).
Qed.

Lemma InstallSnapShot_cuts rf args rf' r effs :
  InstallSnapShot rf args = Ret (rf', r, effs) ->
  mild [] rf rf' effs \/
  (commitIndex rf < is_LastIncludedIndex args /\ effs = [ResetTimer; NotifyApp (is_Snapshot args)] /\
   cuts (is_LastIncludedIndex args) (is_Snapshot args) rf rf').
Proof.
  intros H. pose proof (k_applied _ _ (InstallSnapShot_keeps _ _ _ _ _ H)) as Ha. revert H.
  unfold InstallSnapShot. intros H. case_match; [left; simplify_eq; split; [done|done|set_solver|constructor]|].
  fold (enterTerm rf (is_Term args)) in H. pose proof (enterTerm_static rf (is_Term args)) as He.
  pose proof (enterTerm_fields rf (is_Term args)) as Hf.
  destruct (enterTerm rf (is_Term args)) as [rf1 ch]. simpl in He, Hf, H. destruct He as (He1 & He2 & He3).
  case_match eqn:Hle; simplify_eq.
  { left. apply mild_intro; [by destruct ch..|repeat constructor]. }
  right. apply orb_false_iff in Hle as [Hle1 Hle2]. zbool.
  apply bind_Ret_inv in H as (size & _ & H). apply bind_Ret_inv in H as (newLog & Hn & H). simplify_eq.
  destruct Hf as [_ Hc]. split; [lia|]. split; [done|]. split; simpl in *; [lia|done|done|done|].
  intros e He. rewrite <- He3. by eapply rebaseLog_entries.
Qed.

Lemma Compact_cuts rf idx snap rf' :
  Compact rf idx snap = Ret rf' -> mild [] rf rf' [] \/ cuts idx snap rf rf'.
Proof.
  unfold Compact. intros H. case_match eqn:Hi; [left; simplify_eq; by apply mild_intro|].
  case_match; [left; simplify_eq; by apply mild_intro|]. right.
  apply bind_Ret_inv in H as (e & _ & H). apply bind_Ret_inv in H as (newLog & Hn & H). simplify_eq. zbool.
  split; simpl; [lia|done..|]. intros x Hx. by eapply rebaseLog_entries.
Qed.

Lemma orderly_in_order s e : orderly s e -> no_overshoot s e.
Proof. by intros [[] _]. Qed.

Lemma reach_orderly s : reach n orderly s -> reach n no_overshoot s.
Proof. apply reach_weaken, orderly_in_order. Qed.

Lemma old_calls_refl s : old_calls s (sys_calls s).
Proof. intros c Hc. by left. Qed.

Lemma old_calls_delete s k : old_calls s (delete k (sys_calls s)).
Proof.
  intros c Hc. left. rewrite delete_take_drop in Hc.
  by apply elem_of_app in Hc as [?%take_elem|?%drop_elem].
Qed.

Lemma old_calls_insert s k c :
  match c_rpc c with RetVote _ _ | RetAppend _ _ | RetSnap _ _ => True | _ => False end ->
  old_calls s (<[k := c]> (sys_calls s)).
Proof.
  intros Hc d (j & Hj)%list_elem_of_lookup_1.
  apply list_lookup_insert_Some in Hj as [(_ & <- & _)|[_ ?]]; [by right|left; by eapply list_elem_of_lookup_2].
Qed.

(** A section run by [handle] that does not panic. *)
Lemma handle_act s cs t L o s' :
  0 <= t < n -> old_calls s cs -> is_panic o = false ->
  (forall rf effs, o = Ret (rf, effs) -> mild L (raft_of s t) rf effs /\ keeps (raft_of s t) rf) ->
  (forall e, e ∈ L -> new_entry s e) ->
  handle n (with_calls s cs) t o = Some s' -> act s s'.
Proof.
  intros Ht Hcs Hp Ho HL H. destruct o as [[rf effs]| |]; simpl in *; simplify_eq.
  destruct (Ho _ _ eq_refl) as [? []]. by eapply act_section.
Qed.

Lemma deliver_act s k c s' :
  reach n orderly s -> sys_calls s !! k = Some c -> deliver n s k c = Some s' -> act s s'.
Proof.
  intros Hr Hk H. pose proof (reach_no_panic n s (EvDeliver k) (reach_orderly s Hr)) as Hp.
  destruct (reach_call n s k c) as [_ Ht]; [by eapply reach_weaken; [|exact Hr]|done|].
  assert (Hc : c ∈ sys_calls s) by (by eapply list_elem_of_lookup_2).
  simpl in Hp. rewrite Hk in Hp. unfold deliver in H. destruct (c_rpc c) as [args| |args| |args|] eqn:Er; try done.
  - destruct (RequestVote _ _) as [[[rf r] effs]| |] eqn:X; simplify_eq.
    eapply act_section; [done|by apply old_calls_insert| |by eapply RequestVote_mild|by eapply RequestVote_keeps].
    by intros ? ?%elem_of_nil.
  - destruct (AppendEntries _ _) as [[[rf r] effs]| |] eqn:X; simplify_eq.
    eapply act_section; [done|by apply old_calls_insert| |by eapply AppendEntries_mild|by eapply AppendEntries_keeps].
    intros e He. right. eauto.
  - destruct (InstallSnapShot _ _) as [[[rf r] effs]| |] eqn:X; simplify_eq.
    destruct (InstallSnapShot_cuts _ _ _ _ _ X) as [Hm|(Hci & -> & Hcut)].
    + unfold put_install. rewrite (mild_notify _ _ _ (ml_effs _ _ _ _ Hm)).
      eapply act_section; [done|by apply old_calls_insert| |done|by eapply InstallSnapShot_keeps].
      by intros ? ?%elem_of_nil.
    + eapply act_install; eauto using old_calls_delete.
Qed.

Lemma reply_act s k c s' :
  reach n orderly s -> sys_calls s !! k = Some c -> reply n s k c = Some s' -> act s s'.
Proof.
  intros Hr Hk H. pose proof (reach_no_panic n s (EvReply k) (reach_orderly s Hr)) as Hp.
  destruct (reach_call n s k c) as [Hf _]; [by eapply reach_weaken; [|exact Hr]|done|].
  simpl in Hp. rewrite Hk in Hp. unfold reply, reply_section in *.
  destruct (c_rpc c); try done;
    (eapply (handle_act s _ _ []); [done|apply old_calls_delete|exact Hp| |by intros ? ?%elem_of_nil|exact H]);
    intros rf effs X; destruct (reply_mild (raft_of s (c_from c)) rf effs (c_to c)) as (? & ? & ?);
    eauto using sendRequestVoteAndProcess_keeps, sendAppendEntriesAndProcess_keeps, sendSnapShotAndProcess_keeps.
Qed.

(** A service that compacts has received the command it compacts up to. *)
Lemma compact_act s i idx snap s' :
  reach n orderly s -> orderly s (EvCompact i idx snap) -> exec n s (EvCompact i idx snap) = Some s' -> act s s'.
Proof.
  intros Hr [_ Hsnap] H. pose proof (reach_no_panic n s (EvCompact i idx snap) (reach_orderly s Hr)) as Hp.
  unfold exec in H. destruct (is_peer n i && _) eqn:Hb; [|done].
  apply andb_true_iff in Hb as [Hi (m & Hm & Ei)%existsb_exists]. simpl in Hp. rewrite Hi in Hp. simpl in Hp.
  unfold is_peer in Hi. zbool. assert (Hrng : 0 <= i < n) by lia.
  assert (Hle : idx <= lastApplied (raft_of s i)).
  { destruct (reach_applied n s ltac:(by eapply reach_weaken; [|exact Hr]) i) as [Hap _ _ _ _].
    destruct m as [x c|]; [|done]. simpl in Ei. zbool. subst x. apply Hap.
    apply list_elem_of_omap. exists (CommandMsg idx c). split; [by apply list_elem_of_In|done]. }
  destruct (Compact _ _ _) as [rf| |] eqn:X; simpl in H; simplify_eq.
  destruct (Compact_cuts _ _ _ _ X) as [Hm'|Hcut].
  - apply (act_section s i (sys_calls s) [] rf []); [done|apply old_calls_refl|by intros ? ?%elem_of_nil|done|].
    by eapply Compact_keeps.
  - by apply (act_compact s i idx snap).
Qed.

Lemma exec_act s e s' :
  reach n orderly s -> orderly s e -> (forall i, e <> EvCrash i) -> exec n s e = Some s' -> act s s'.
Proof.
  intros Hr Hok Hnc H. pose proof (reach_no_panic n s e (reach_orderly s Hr)) as Hp.
  destruct e as [i|k|k|k|i j|i c|i|i|i k|i idx snap|i];
    [| | | | | | | | |by eapply compact_act|by destruct (Hnc i)];
    unfold exec in H; simpl in Hp;
    try (match type of H with (if ?b then _ else _) = _ => destruct b eqn:Hb; [|done] end);
    try (match type of Hb with context [is_peer n ?p] =>
      assert (Hi : is_peer n p = true) by (by destruct (is_peer n p)); rewrite ?Hi in Hp;
      assert (0 <= p < n) by (unfold is_peer in Hi; zbool; lia) end); cbn [andb] in Hp;
    try (destruct (sys_calls s !! k) as [c|] eqn:Hk; [|done]; cbn [mbind option_bind] in H).
  - eapply (handle_act s (sys_calls s) i []); [done|apply old_calls_refl|exact Hp| |by intros ? ?%elem_of_nil|exact H].
    eauto using broadCastVote_mild, broadCastVote_keeps.
  - by eapply deliver_act.
  - by eapply reply_act.
  - simplify_eq. apply act_calls, old_calls_delete.
  - rewrite Hi in Hb. destruct (is_peer n j) eqn:Hj; [|done]. cbn [andb] in Hp.
    eapply (handle_act s (sys_calls s) i []); [done|apply old_calls_refl| | |by intros ? ?%elem_of_nil|exact H].
    + by destruct (checkConsistency _ _).
    + intros rf effs X. bind_inv. simplify_eq. eauto using checkConsistency_mild, keeps_refl.
  - destruct (Start (raft_of s i) c) as [[[rf ret] effs]| |] eqn:X; simpl in H; simplify_eq.
    destruct (Start_mild _ _ _ _ _ X) as (e & Ee & Hm).
    apply (act_section s i (sys_calls s) [e]); [done|apply old_calls_refl| |done|by eapply Start_keeps].
    intros x ->%list_elem_of_singleton. left. intros d Ed. destruct Hok as [_ Hok]. simpl in Hok. congruence.
  - case_match; [done|]. simplify_eq. by apply act_wake.
  - simpl in Hp. unfold raft_of in Hp. destruct (applyLogEntryDaemon _) as [[rf msgs]| |] eqn:X; simplify_eq.
    apply act_apply; [done|apply Hok|done].
  - destruct Hok as [[_ Hk] _]. simpl in Hk. subst k.
    destruct (nd_notify (sys_nodes s i)) as [|[b c] bs] eqn:Hn; [done|]. simpl in H. simplify_eq.
    apply (act_notify s i b c bs); [done..|].
    destruct (reach_basic n s) as (a & _ & _ & Rl); [by eapply reach_weaken; [|exact Hr]|].
    eapply (rel_held Rl i b); [done|]. rewrite Hn. by left.
Qed.

Lemma act_grows s s' : act s s' -> sys_logs s ⊆ sys_logs s'.
Proof. destruct 1; simpl; try done. set_solver. Qed.

(** ** The step *)

(** What was applied was committed. *)
Lemma applied_committed s i : reach n orderly s -> 0 <= i < n ->
  0 <= lastApplied (raft_of s i) <= commitIndex (raft_of s i) /\ 0 <= SnapshotIndex (raft_of s i).
Proof.
  intros Hr Hi. destruct (reach_safe n s (reach_orderly s Hr)) as (a & _ & _ & R).
  destruct (rel_node R i Hi) as [C _]. split; [by apply (nr_applied C)|apply C].
Qed.

(** A round of the apply daemon continues the stream. *)
Lemma apply_stream s' t rf rf' msgs :
  reach n no_overshoot s' -> (forall r, r ∈ omap (log_record t) msgs -> r ∈ sys_logs s') ->
  0 <= SnapshotIndex rf -> applyLogEntryDaemon rf = Ret (rf', msgs) ->
  stream s' (Z.max (lastApplied rf) (SnapshotIndex rf)) msgs (Z.max (lastApplied rf') (SnapshotIndex rf')).
Proof.
  intros Hr Hin Hs H. pose proof H as Hspec. apply applyLoop_spec in Hspec as [_ Hm].
  apply applyLoop_indices in H as [Hidx ->]; [|done|lia]. cbn zeta in Hidx. simpl.
  rewrite Z.add_max_distr_r in Hidx. set (p := Z.max _ _) in *.
  assert (Hl : len (indices msgs) = len msgs).
  { clear - Hm. induction msgs as [|m msgs IH]; [done|]. destruct (Hm m ltac:(left)) as (idx & e & -> & _).
    unfold len in *. simpl. rewrite !Nat2Z.inj_succ. f_equal. apply IH. intros x Hx. apply Hm. by right. }
  assert (Hlen : len msgs = Z.max 0 (commitIndex rf - p)).
  { rewrite <- Hl, Hidx. unfold len. rewrite length_seqZ. lia. }
  replace (Z.max _ _) with (p + len msgs).
  - apply commands_stream.
    + rewrite Hidx, Hlen. destruct (Z.le_gt_cases p (commitIndex rf)); [f_equal; lia|].
      by rewrite !seqZ_nil by lia.
    + intros m Hx. destruct (Hm m Hx) as (idx & e & -> & _).
      assert (Hrec : (t, idx, Command e) ∈ sys_logs s').
      { apply Hin, list_elem_of_omap. by eexists. }
      destruct (logged_command n s' t idx _ Hr Hrec) as [c Ec]. exists idx, c. rewrite Ec in *.
      split; [done|]. by exists t.
  - rewrite Hlen. subst p. case_decide; lia.
Qed.

(** What an event other than a crash adds to what a peer hands over continues the
    stream. *)
Lemma act_feed s s' i :
  reach n orderly s -> reach n no_overshoot s' -> snapped s -> act s s' ->
  exists ms, feed s' i = feed s i ++ ms /\ stream s' (top s i) ms (top s' i).
Proof.
  intros Hr Hr' Hs Ha. pose proof (act_grows s s' Ha) as Hlog.
  assert (Hsame : feed s' i = feed s i -> top s' i = top s i ->
    exists ms, feed s' i = feed s i ++ ms /\ stream s' (top s i) ms (top s' i)).
  { intros E1 E2. exists []. rewrite E1, E2, app_nil_r. split; [done|constructor]. }
  destruct Ha as [t cs L rf effs Ht Hcs HL Hm Hap|t cs c c' args rf Ht Hcs Hc Er Hci Hcut|t idx snap rf Ht Hsn Hle Hcut
    |cs Hcs|t k Ht|t rf msgs Ht Hn Hrun|t b c bs Ht Hn Hret]; try (by apply Hsame);
    (destruct (decide (t = i)) as [->|Hne];
      [|apply Hsame; unfold feed, top, raft_of; simpl; by rewrite fn_lookup_insert_ne]).
  - apply Hsame; unfold feed, top, raft_of; simpl; rewrite fn_lookup_insert; simpl.
    + done.
    + by rewrite (ml_index _ _ _ _ Hm), Hap.
  - exists [SnapshotMsg (is_Snapshot args)]. unfold feed, top, raft_of; simpl. rewrite fn_lookup_insert. simpl.
    rewrite fmap_app, app_assoc. split; [done|]. destruct (applied_committed s i Hr Ht) as [? ?].
    fold (raft_of s i). destruct Hcut as [Hlt Hidx _ Hap _]. rewrite Hidx, Hap, (Z.max_r (lastApplied _) (is_LastIncludedIndex _)) by lia.
    pose proof (sn_calls _ Hs) as Hcalls. rewrite Forall_forall in Hcalls. specialize (Hcalls c Hc).
    unfold request_ok in Hcalls. rewrite Er in Hcalls. destruct Hcalls as [?|Hsnap]; [lia|].
    eapply stream_snap; [|by eapply snap_at_mono|constructor]. lia.
  - destruct Hcut as [Hlt Hidx _ Hap _].
    apply Hsame; unfold feed, top, raft_of; simpl; rewrite fn_lookup_insert; simpl; [done|].
    rewrite Hidx, Hap. fold (raft_of s i). lia.
  - apply Hsame; unfold feed, top, raft_of; simpl; by rewrite fn_lookup_insert.
  - exists msgs. split.
    + unfold feed. simpl. rewrite fn_lookup_insert. simpl. rewrite Hn. simpl. by rewrite !app_nil_r.
    + unfold top, raft_of. simpl. rewrite fn_lookup_insert. simpl.
      eapply apply_stream; [exact Hr'| |by apply applied_committed|exact Hrun]. set_solver.
  - apply Hsame; unfold feed, top, raft_of; simpl; rewrite fn_lookup_insert; simpl; [|done].
    rewrite Hn. simpl. rewrite <- app_assoc. f_equal.
    pose proof (sn_notify _ Hs i) as Hb. rewrite Hn in Hb. apply Forall_cons in Hb as [Hb _]. simpl in Hb.
    unfold notifyAppUseNewSnapShot. by rewrite decide_False by lia.
Qed.

(** ** The invariant *)
Lemma saved_ok_mono s s' rf : sys_logs s ⊆ sys_logs s' -> saved_ok s rf -> saved_ok s' rf.
Proof. intros Hs [?|?]; [by left|right; by eapply snap_at_mono]. Qed.

Lemma request_ok_mono s s' c : sys_logs s ⊆ sys_logs s' -> request_ok s c -> request_ok s' c.
Proof.
  unfold request_ok. intros Hs. destruct (c_rpc c); try done. intros [?|?]; [by left|right; by eapply snap_at_mono].
Qed.

Lemma old_calls_ok s s' cs : sys_logs s ⊆ sys_logs s' -> Forall (request_ok s) (sys_calls s) ->
  old_calls s cs -> Forall (request_ok s') cs.
Proof.
  rewrite !Forall_forall. intros Hs Hc Hcs c [Hin|Hr]%Hcs; [eapply request_ok_mono; eauto|].
  unfold request_ok. by destruct (c_rpc c).
Qed.

(** The requests a section sends. *)
Lemma effects_ok s t rf effs : saved_ok s rf -> Forall (from_P P) (Logs rf) -> Forall (mild_effect rf) effs ->
  Forall (request_ok s) (omap (effect_call t) effs).
Proof.
  intros Hsv HL. induction 1 as [|e effs He _ IH]; [constructor|]. simpl.
  destruct e; simpl in *; try done; constructor; try done; unfold request_ok; simpl.
  - by eapply Forall_subseteq.
  - destruct He as [-> ->]. destruct Hsv as [[-> _]|?]; [left; lia|by right].
Qed.

Lemma install_snap s c args rf rf' : snapped s -> c ∈ sys_calls s -> c_rpc c = CallSnap args ->
  0 <= SnapshotIndex rf -> cuts (is_LastIncludedIndex args) (is_Snapshot args) rf rf' ->
  snap_at s (is_LastIncludedIndex args) (is_Snapshot args).
Proof.
  intros Hs Hc Er Hsn [Hlt _ _ _ _]. pose proof (sn_calls _ Hs) as Hcalls. rewrite Forall_forall in Hcalls.
  specialize (Hcalls c Hc). unfold request_ok in Hcalls. rewrite Er in Hcalls. destruct Hcalls; [lia|done].
Qed.

(** The saved snapshot, the log and the waiting snapshots of a peer. *)
Definition node_ok s (nd : node Cmd) : Prop :=
  saved_ok s (nd_raft nd) /\ Forall (from_P P) (Logs (nd_raft nd)) /\ Forall (fun h => 1 <= len h.1) (nd_notify nd).

Lemma snapped_node s i : snapped s -> node_ok s (sys_nodes s i).
Proof. intros Hs. split_and!; [apply (sn_saved _ Hs i)|apply (sn_logs _ Hs i)|apply (sn_notify _ Hs i)]. Qed.

Lemma node_ok_mono s s' nd : sys_logs s ⊆ sys_logs s' -> node_ok s nd -> node_ok s' nd.
Proof. intros Hs (? & ? & ?). split_and!; [by eapply saved_ok_mono|done..]. Qed.

Lemma new_entries_from s L : Forall (request_ok s) (sys_calls s) -> (forall e, e ∈ L -> new_entry s e) ->
  Forall (from_P P) L.
Proof.
  rewrite !Forall_forall. intros Hc HL e [?|(c & args & Hin & Er & He)]%HL; [done|].
  specialize (Hc c Hin). unfold request_ok in Hc. rewrite Er, Forall_forall in Hc. by apply Hc.
Qed.

Lemma cuts_logs idx snap rf rf' : cuts idx snap rf rf' -> Forall (from_P P) (Logs rf) -> Forall (from_P P) (Logs rf').
Proof.
  intros [_ _ _ _ Hl]. rewrite !Forall_forall. intros HP e [?|E]%Hl; [by apply HP|]. intros c Hc. congruence.
Qed.

Lemma act_node s s' i : reach n orderly s -> snapped s -> act s s' -> node_ok s (sys_nodes s' i).
Proof.
  intros Hr Hs Ha. pose proof (snapped_node s i Hs) as Hold.
  destruct Ha as [t cs L rf effs Ht Hcs HL Hm Hap|t cs c c' args rf Ht Hcs Hc Er Hci Hcut|t idx snap rf Ht Hsn Hle Hcut
    |cs Hcs|t k Ht|t rf msgs Ht Hn Hrun|t b c bs Ht Hn Hret]; try done; simpl;
    (destruct (decide (t = i)) as [->|Hne]; [|by rewrite fn_lookup_insert_ne]); rewrite fn_lookup_insert;
    destruct Hold as (Hsv & Hl & Hnt); split_and!; simpl; try done.
  - unfold saved_ok. by rewrite (ml_snap _ _ _ _ Hm), (ml_index _ _ _ _ Hm).
  - eapply Forall_subseteq; [exact (ml_logs _ _ _ _ Hm)|]. apply Forall_app. split; [done|].
    eapply new_entries_from; [apply Hs|done].
  - right. rewrite (cu_index' _ _ _ _ Hcut), (cu_snap _ _ _ _ Hcut).
    eapply install_snap; [done..| |exact Hcut]. by apply applied_committed.
  - by eapply cuts_logs.
  - apply Forall_app. split; [done|]. constructor; [|constructor].
    destruct (install_snap s c args (raft_of s i) rf) as (l & _ & _ & _ & ?); try done. by apply applied_committed.
  - right. by rewrite (cu_index' _ _ _ _ Hcut), (cu_snap _ _ _ _ Hcut).
  - by eapply cuts_logs.
  - apply applyLoop_spec in Hrun as [(x & -> & _) _]. done.
  - apply applyLoop_spec in Hrun as [(x & -> & _) _]. done.
  - rewrite Hn in Hnt. by apply Forall_cons in Hnt as [_ ?].
Qed.

Lemma act_calls_ok s s' : snapped s -> act s s' -> Forall (request_ok s) (sys_calls s').
Proof.
  intros Hs Ha. pose proof (fun cs => old_calls_ok s s cs ltac:(done) (sn_calls _ Hs)) as Hold.
  destruct Ha as [t cs L rf effs Ht Hcs HL Hm Hap|t cs c c' args rf Ht Hcs Hc Er Hci Hcut|t idx snap rf Ht Hsn Hle Hcut
    |cs Hcs|t k Ht|t rf msgs Ht Hn Hrun|t b c bs Ht Hn Hret]; simpl; try (apply Forall_app; split); try apply Hs; auto.
  2:{ destruct Hret as (args & r & Er). constructor; [|constructor]. unfold request_ok. by rewrite Er. }
  eapply effects_ok; [apply (sn_saved _ Hs t)|apply (sn_logs _ Hs t)|apply Hm].
Qed.

Lemma act_records s s' i idx c : snapped s -> act s s' -> (i, idx, Some c) ∈ sys_logs s' ->
  (i, idx, Some c) ∈ sys_logs s \/ (P c /\ CommandMsg idx (Some c) ∈ feed s' i).
Proof.
  intros Hs Ha Hin. destruct Ha as [| | | | |t rf msgs Ht Hn Hrun|]; try (by left). simpl in Hin.
  apply elem_of_app in Hin as [?|(m & Hm & E)%list_elem_of_omap]; [by left|right].
  apply applyLoop_spec in Hrun as [_ Hspec]. destruct (Hspec m Hm) as (x & e & -> & _ & _ & He).
  simpl in E. injection E as -> -> Ec. rewrite Ec in Hm. split.
  - unfold slice_get in He. case_decide; [|done]. case_match eqn:El; [|done]. simplify_eq.
    by eapply (Forall_lookup_1 _ _ _ _ (sn_logs _ Hs i)).
  - unfold feed. simpl. rewrite fn_lookup_insert. simpl. apply elem_of_app. left.
    apply elem_of_app. by right.
Qed.

Lemma act_snapped s s' :
  reach n orderly s -> reach n no_overshoot s' -> snapped s -> act s s' -> snapped s'.
Proof.
  intros Hr Hr' Hs Ha. pose proof (act_grows s s' Ha) as Hlog.
  assert (Hnode : forall i, node_ok s' (sys_nodes s' i)).
  { intros i. eapply node_ok_mono; [done|]. by apply act_node. }
  assert (Hfeed : forall i, stream s' 0 (feed s' i) (top s' i)).
  { intros i. destruct (act_feed s s' i Hr Hr' Hs Ha) as (ms & -> & Hms).
    eapply stream_app; [|exact Hms]. eapply stream_mono; [done|]. apply (sn_feed _ Hs). }
  split; try done; try (intros i; apply (Hnode i)).
  - eapply Forall_impl; [by apply act_calls_ok|]. intros c. by apply request_ok_mono.
  - intros i idx c Hin. destruct (act_records s s' i idx c Hs Ha Hin) as [Hold|[HP Hm]].
    + destruct (sn_records _ Hs i idx c Hold) as (? & ? & l & ? & ?). split_and!; [done..|]. exists l.
      split; [by eapply gprefix_mono|done].
    + split; [done|]. eapply stream_reaches; [apply Hfeed| |exact Hm]. exists []. split; [apply gprefix_nil|done].
Qed.

(** A restart hands over the saved snapshot. *)
Lemma boot_fields s i : reachable n s -> 0 <= i < n ->
  let nd := boot n i (persister (raft_of s i)) in
  SnapshotIndex (nd_raft nd) = SnapshotIndex (raft_of s i) /\ lastApplied (nd_raft nd) = 0 /\
  nd_notify nd = [] /\ nd_applyCh nd = notifyAppUseNewSnapShot (snap_of (raft_of s i)).
Proof.
  intros Hr Hi. destruct (reach_basic n s Hr) as (a & _ & _ & R).
  destruct (rel_node R i Hi) as [C (_ & _ & E & _)]. rewrite (nr_peers C), (nr_me C) in E.
  unfold boot. simpl. destruct (dePersistState_static (initRaft (Cmd := Cmd) n i (Copy (persister (raft_of s i)))))
    as (_ & _ & Ep & _ & El & _). rewrite El, Ep. split_and!; try done.
  rewrite <- E. unfold Copy. by destruct (persister (raft_of s i)).
Qed.

Lemma boot_feed s i : reach n orderly s -> 0 <= i < n -> snapped s ->
  stream (crash n s i) 0 (feed (crash n s i) i) (top (crash n s i) i).
Proof.
  intros Hr Hi Hs. destruct (boot_fields s i) as (E1 & E2 & E3 & E4); [by eapply reach_weaken; [|exact Hr]|done|].
  unfold feed, top, raft_of. cbn [crash sys_nodes]. rewrite fn_lookup_insert. cbn zeta in *. unfold raft_of in *.
  rewrite E1, E2, E3, E4. simpl. rewrite app_nil_r. pose proof (sn_saved _ Hs i) as Hsv.
  unfold saved_ok, raft_of in Hsv. unfold notifyAppUseNewSnapShot. destruct Hsv as [[-> ->]|Hsv]; [constructor|].
  pose proof Hsv as (l & _ & Hl & _ & Hb). rewrite decide_False, Z.max_r by (unfold len in *; lia).
  eapply stream_snap; [|exact Hsv|constructor]. unfold len in *. lia.
Qed.

Lemma crash_snapped s i : reach n orderly s -> 0 <= i < n -> snapped s -> snapped (crash n s i).
Proof.
  intros Hr Hi Hs. assert (Hb : reachable n s) by (by eapply reach_weaken; [|exact Hr]).
  assert (Hnode : forall j, node_ok (crash n s i) (sys_nodes (crash n s i) j)).
  { intros j. simpl. destruct (decide (i = j)) as [<-|Hne];
      [|rewrite fn_lookup_insert_ne by done; by apply (snapped_node s j)].
    rewrite fn_lookup_insert. destruct (boot_fields s i Hb Hi) as (E1 & _ & E3 & _). cbn zeta in *.
    unfold node_ok, saved_ok. rewrite E1, E3, boot_snap, boot_logs by done.
    split_and!; [apply (sn_saved _ Hs i)|apply (sn_logs _ Hs i)|constructor]. }
  split; try (intros j; apply (Hnode j)); try apply Hs.
  intros j. destruct (decide (i = j)) as [<-|Hne]; [by apply boot_feed|].
  pose proof (sn_feed _ Hs j) as Hf. unfold feed, top, raft_of in *. simpl. rewrite fn_lookup_insert_ne by done.
  by apply (stream_mono s).
Qed.

Lemma init_snapped : snapped (sys_init n).
Proof.
  split; simpl; try done.
  - intros i. by left.
  - intros i. by repeat constructor.
  - by intros i idx c ?%elem_of_nil.
  - intros i. constructor.
Qed.

Lemma exec_snapped s e s' : reach n orderly s -> orderly s e -> snapped s -> exec n s e = Some s' -> snapped s'.
Proof.
  intros Hr Hok Hs He. assert (Hr' : reach n no_overshoot s') by (eapply reach_orderly, reach_step; eauto).
  destruct e as [| | | | | | | | | |i]; try (by eapply act_snapped, exec_act; eauto). simpl in He.
  destruct (is_peer n i) eqn:Hi; simplify_eq. unfold is_peer in Hi. zbool. apply crash_snapped; [done|lia|done].
Qed.

Lemma reach_snapped s : reach n orderly s -> snapped s.
Proof. induction 1; [apply init_snapped|]. by eapply exec_snapped. Qed.

(** An event that does not restart peer [i] adds to what the peer hands over. *)
Lemma exec_feed s e s' i :
  reach n orderly s -> orderly s e -> exec n s e = Some s' -> e <> EvCrash i ->
  exists ms, feed s' i = feed s i ++ ms /\ stream s' (top s i) ms (top s' i).
Proof.
  intros Hr Hok He Hne. pose proof (reach_snapped s Hr) as Hs.
  assert (Hr' : reach n no_overshoot s') by (eapply reach_orderly, reach_step; eauto).
  destruct e as [| | | | | | | | | |j]; try (by eapply act_feed, exec_act; eauto). simpl in He.
  destruct (is_peer n j); simplify_eq. exists []. unfold feed, top, raft_of. simpl.
  rewrite fn_lookup_insert_ne by congruence. rewrite app_nil_r. split; [done|constructor].
Qed.

(** So what the service has not yet taken of it stays a stream. *)
Lemma exec_rest s e s' i p k :
  reach n orderly s -> orderly s e -> exec n s e = Some s' -> e <> EvCrash i -> (k <= length (feed s i))%nat ->
  stream s p (drop k (feed s i)) (top s i) ->
  (k <= length (feed s' i))%nat /\ stream s' p (drop k (feed s' i)) (top s' i).
Proof.
  intros Hr Hok He Hne Hk Hst. destruct (exec_feed s e s' i Hr Hok He Hne) as (ms & -> & Hms).
  rewrite length_app, drop_app_le by done. split; [lia|]. eapply stream_app; [|exact Hms].
  eapply stream_mono; [by eapply exec_logs_grow|done].
Qed.

Lemma applied_in_P s idx c : reach n orderly s -> logged s idx c -> P c /\ 0 < idx /\ reaches s idx.
Proof. intros Hr [p Hp]. by apply (sn_records _ (reach_snapped s Hr) p). Qed.

(** C18: snapshots and commands are handed over as one stream.  In
    executions without overshooting requests, when the service compacts its log with
    snapshots that hold the effect of the commands up to the index it names, and
    every peer hands its snapshots over in order ([orderly]), everything a peer has
    sent on applyCh since its last start, and the snapshots about to be sent, is a
    stream from the empty state up to what the peer has applied: each command comes
    at the index after the last one or after the snapshot before it, and each
    snapshot holds the effect of a prefix of the log all peers agree on that is no
    shorter than what was handed over before. *)
Theorem hands_over_stream s i : reach n orderly s -> stream s 0 (feed s i) (top s i).
Proof. intros Hr. apply (sn_feed _ (reach_snapped s Hr)). Qed.
End Snap.

(** ** Runs *)
Definition in_orderb {Cmd} (s : sys Cmd) (e : event Cmd) : bool :=
  negb (overshootsb s e) &&
  match e with
  | EvApply i => bool_decide (nd_notify (sys_nodes s i) = [])
  | EvNotify _ k => bool_decide (k = 0%nat)
  | _ => true
  end.

Lemma in_orderb_spec {Cmd} (s : sys Cmd) e : in_orderb s e = true -> in_order s e.
Proof.
  intros [Hov Hh]%andb_true_iff. split; [intros Ho%overshootsb_spec; by rewrite Ho in Hov|].
  destruct e; try done; by apply bool_decide_eq_true in Hh.
Qed.

(** The snapshots of a service whose state is the list of its commands, a byte
    each. *)
Definition commands_of (b : bytes) : list Z := (fun x => Z.of_N (Byte.to_N x)) <$> b.
Definition byte_log (l : list Z) (b : bytes) : Prop := commands_of b = l.

(** Peer 1 applies 10 and compacts; peer 2, which missed it, installs the snapshot
    and applies 20. *)
Definition handed_events : list (event Z) :=
  demo_events ++
  [EvCompact 1 1 [Byte.x0a]; EvSync 1 2; EvDeliver 1; EvNotify 2 0; EvReply 1; EvStart 1 20; EvSync 1 2;
   EvDeliver 1; EvReply 1; EvWake 1; EvApply 1; EvSync 1 2; EvDeliver 1; EvReply 1; EvWake 2; EvApply 2].

Definition handed_ok (s : sys Z) (e : event Z) : bool :=
  in_orderb s e &&
  match e with
  | EvCompact _ idx snap => bool_decide (idx = 1 /\ commands_of snap = [10] /\ (1, 1, Some 10) ∈ sys_logs s)
  | _ => true
  end.

Definition handed : sys Z := ran 3 handed_ok handed_events.

Lemma handed_orderly : reach 3 (orderly (fun _ => True) byte_log) handed.
Proof.
  apply ran_reach. intros s e [Ho%in_orderb_spec He]%andb_true_iff. split; [done|]. destruct e; try done.
  apply bool_decide_eq_true in He as (-> & Hs & Hin). exists [10].
  split_and!; [|done|done|destruct snap; [done|unfold len; simpl; lia]]. intros j c [-> <-]%list_lookup_singleton_Some. by exists 1.
Qed.

Lemma hands_over_stream_witness :
  feed handed 2 = [SnapshotMsg [Byte.x0a]; CommandMsg 2 (Some 20)] /\ stream byte_log handed 0 (feed handed 2) 2.
Proof.
  split; [vm_compute; reflexivity|].
  assert (E : top handed 2 = 2) by (vm_compute; reflexivity).
  pose proof (hands_over_stream 3 (fun _ => True) byte_log handed 2 handed_orderly) as H.
  rewrite E in H. exact H.
Defined.
