(* ===== verification/RaftWedge.v ===== *)
(** * A majority that can never commit again

    With compaction the progress of RaftProgress.v is lost.  A follower whose
    snapshot ends right before entries that conflict with the leader's answers a
    request at the conflict with its SnapshotIndex, and a request before its
    snapshot with the end of its log; the leader's nextIndex bounces between the
    two and never tries the one entry on which both logs agree.  When the third
    peer of a cluster of three is down, the other two, both alive and connected,
    stay in this state for ever, over any number of elections, restarts and new
    commands. *)

From stdpp Require Import base functions list list_numbers gmap relations.
From S2P Require Import Prelude Gob RaftNode RaftNodeFacts RaftSpec RaftSystem RaftRefine RaftLead RaftSim RaftSafety RaftApply RaftBounds RaftTrace RaftOrigin RaftSnap.
Open Scope Z_scope.

Section Wedge.
Context {Cmd : Type} `{GC : Gob Cmd}.
Implicit Types s : sys Cmd.
Implicit Types rf : Raft Cmd.

(** ** The two peers *)

(** The leader's next indices: positive, and not 2 for peer 1. *)
Definition aims (next : list Z) : Prop :=
  Forall (fun x => 1 <= x) next /\ exists x, next !! 1%nat = Some x /\ (x = 1 \/ 3 <= x).

(** Peer 0: an entry of term 2 at index 2, nothing compacted, nothing known to be
    committed, and, when it leads, no attempt at index 1 of peer 1. *)
Record ahead rf : Prop := {
  ah_snap : SnapshotIndex rf = 0;
  ah_logs : exists d a b L, Logs rf = d :: a :: b :: L /\ Term b = 2 /\ Forall (fun e => 2 <= Term e) L;
  ah_term : 2 <= CurrentTerm rf;
  ah_commit : commitIndex rf <= 0;
  ah_next : state rf = LEADER -> aims (nextIndex rf)
}.

(** Peer 1: a snapshot up to index 1 and an entry of term 1 at index 2. *)
Record behind1 rf : Prop := {
  bh_snap : SnapshotIndex rf = 1;
  bh_logs : exists a b, Logs rf = [a; b] /\ Term a = 1 /\ Term b = 1;
  bh_commit : commitIndex rf <= 1;
  bh_state : state rf <> LEADER;
  bh_votes : voteCount rf <= 1
}.

(** A request to peer 1 that does not name index 1. *)
Definition misses (args : AppendEntriesArgs Cmd) : Prop :=
  ae_PrevLogIndex args = 0 \/ (ae_PrevLogIndex args = 2 /\ ae_PrevLogTerm args = 2) \/ 3 <= ae_PrevLogIndex args.

Definition refuses (r : AppendEntriesReply) : Prop :=
  aer_Success r = false /\ (aer_ConflictIndex r <= 1 \/ aer_ConflictIndex r = 3).

Definition between (c : call Cmd) : Prop :=
  match c_rpc c with
  | CallVote args => c_from c = 1 -> rv_LastLogTerm args = 1
  | RetVote _ r => c_from c = 1 -> rvr_VoteGranted r = false
  | CallAppend args => c_from c = 0 /\ (c_to c = 1 -> misses args)
  | RetAppend _ r => c_from c = 0 /\ c_to c = 1 /\ refuses r
  | CallSnap _ | RetSnap _ _ => False
  end.

Definition placed (i : Z) rf : Prop := if decide (i = 0) then ahead rf else behind1 rf.

(** Peer [i] of the two: it has handed over no command past its snapshot, and no
    snapshot waits to be handed over. *)
Record held (i : Z) (nd : node Cmd) : Prop := {
  hd_raft : placed i (nd_raft nd);
  hd_sent idx c : CommandMsg idx c ∈ nd_applyCh nd -> idx <= i;
  hd_quiet : nd_notify nd = []
}.

Record wedged logs s : Prop := {
  we_peer i : i = 0 \/ i = 1 -> held i (sys_nodes s i);
  we_calls : Forall between (sys_calls s);
  we_logs : sys_logs s = logs
}.

(** ** Sections that leave the logs alone *)
Record same_logs rf rf' : Prop := {
  sl_snap : SnapshotIndex rf' = SnapshotIndex rf;
  sl_logs : Logs rf' = Logs rf;
  sl_term : CurrentTerm rf <= CurrentTerm rf';
  sl_commit : commitIndex rf' = commitIndex rf
}.

Lemma ahead_same rf rf' : ahead rf -> same_logs rf rf' ->
  (state rf' = LEADER -> aims (nextIndex rf')) -> ahead rf'.
Proof. intros [] [] H. split; [congruence|by rewrite sl_logs0|lia|lia|done]. Qed.

Lemma behind_same rf rf' : behind1 rf -> same_logs rf rf' -> state rf' <> LEADER -> voteCount rf' <= 1 -> behind1 rf'.
Proof. intros [] [] ? ?. split; [congruence|by rewrite sl_logs0|lia|done|done]. Qed.

(** A vote request. *)
Lemma vote_same rf args rf' r effs : RequestVote rf args = Ret (rf', r, effs) ->
  same_logs rf rf' /\ nextIndex rf' = nextIndex rf /\ (state rf' = LEADER -> state rf = LEADER) /\
  (voteCount rf' = voteCount rf \/ voteCount rf' = 0) /\ omap (effect_call 0) effs = [] /\ omap (effect_call 1) effs = [].
Proof.
  unfold RequestVote. intros H.
  repeat (bind_inv; simplify_eq/=; try case_match; simplify_eq/=); zbool;
    split_and!; try done; try (split; simpl; done || lia); auto.
Qed.

(** The last entry of peer 0 is newer than that of peer 1. *)
Lemma ahead_last rf : ahead rf -> exists e, slice_get (Logs rf) (len (Logs rf) - 1) = Ret e /\ 2 <= Term e.
Proof.
  intros [_ (d & a & b & L & -> & Hb & HL) _ _ _].
  destruct (lookup_lt_is_Some_2 (d :: a :: b :: L) (2 + length L)) as [e He]; [simpl; lia|].
  exists e. unfold slice_get, len. simpl length. rewrite decide_True by lia.
  replace (Z.to_nat (Z.of_nat (S (S (S (length L)))) - 1)) with (2 + length L)%nat by lia. rewrite He.
  split; [done|]. simpl in He. destruct L as [|f L]; simpl in He; [simplify_eq; lia|].
  rewrite Forall_lookup in HL. by apply (HL (length L)).
Qed.

Lemma ahead_refuses rf args rf' r effs : ahead rf -> rv_LastLogTerm args = 1 ->
  RequestVote rf args = Ret (rf', r, effs) -> rvr_VoteGranted r = false.
Proof.
  intros Ha Hl. destruct (ahead_last rf Ha) as (e & He & Te). unfold RequestVote. rewrite Hl. intros H.
  case_match; [by simplify_eq|].
  destruct (CurrentTerm rf <? rv_Term args); apply bind_Ret_inv in H as ([[[rf2 g] c2] ef] & Hx & H);
    (destruct (_ || _) in Hx; [|by simplify_eq]); apply bind_Ret_inv in Hx as (e' & He' & Hx);
    simpl in He'; rewrite He in He'; simplify_eq;
    rewrite (proj2 (Z.ltb_ge (Term e') 1)), (proj2 (Z.eqb_neq 1 (Term e'))) in Hx by lia; simpl in Hx; by simplify_eq.
Qed.

Lemma same_refl rf : same_logs rf rf.
Proof. by split. Qed.

(** ** Elections *)
Lemma timeout_ahead rf rf' effs : ahead rf -> broadCastVote rf = Ret (rf', effs) -> ahead rf'.
Proof.
  intros Ha H. unfold broadCastVote in H. case_decide; [by simplify_eq|].
  bind_inv. simplify_eq. apply (ahead_same rf); [done|split; simpl; done || lia|done].
Qed.

Lemma timeout_behind rf rf' effs : behind1 rf -> broadCastVote rf = Ret (rf', effs) ->
  behind1 rf' /\ Forall between (omap (effect_call 1) effs).
Proof.
  intros Hb H. unfold broadCastVote in H. pose proof Hb as [_ (a & b & HL & _ & Tb) _ Hst _].
  rewrite decide_False in H by done. apply bind_Ret_inv in H as (e & He & H). simplify_eq.
  assert (e = b) as ->.
  { simpl in He. rewrite HL in He. unfold slice_get in He. simpl in He. by simplify_eq. }
  split; [apply (behind_same rf); [done|split; simpl; done || lia|done|done]|].
  apply Forall_forall. intros c (x & (q & -> & _)%list_elem_of_fmap & E)%list_elem_of_omap. simpl in E. simplify_eq.
  intros _. exact Tb.
Qed.

Lemma timeout_between rf rf' effs : broadCastVote rf = Ret (rf', effs) -> Forall between (omap (effect_call 0) effs).
Proof.
  unfold broadCastVote. intros H. case_decide; [simplify_eq; constructor|]. bind_inv. simplify_eq.
  apply Forall_forall. intros c (ef & (q & -> & _)%list_elem_of_fmap & Ec)%list_elem_of_omap. simpl in Ec. by simplify_eq.
Qed.

Lemma elect_ahead rf args p r rf' effs : shaped 3 rf -> ahead rf ->
  sendRequestVoteAndProcess rf args p (Some r) = Ret (rf', effs) -> ahead rf' /\ omap (effect_call 0) effs = [].
Proof.
  intros Sh Ha H. unfold sendRequestVoteAndProcess in H. destruct (_ || _); [by simplify_eq|].
  destruct (CurrentTerm rf <? rvr_Term r) eqn:Et; [simplify_eq|].
  - split; [|done]. zbool. apply (ahead_same rf); [done|split; simpl; done || lia|done].
  - destruct (rvr_VoteGranted r); [|by simplify_eq]. case_match.
    2:{ simplify_eq. split; [|done]. apply (ahead_same rf); [done|split; simpl; done || lia|]. by destruct Ha. }
    apply bind_Ret_inv in H as (rf2 & H & E). simplify_eq. split; [|done]. unfold becomeLeader in H.
    pose proof Sh as [_ Hn Hm _]. rewrite leaderInit_spec in H by (simpl; unfold len in *; lia). simpl in H.
    bind_inv. simplify_eq. apply (ahead_same rf); [done|split; simpl; done || lia|]. intros _. simpl.
    assert (Hlast : 3 <= logIdxLocal2Global (set_voteCount (voteCount rf + 1) rf) (len (Logs rf) - 1) + 1).
    { destruct Ha as [Hs (d & a & b & L & -> & _) _ _ _]. unfold logIdxLocal2Global, len. simpl. lia. }
    split; [apply Forall_replicate; lia|]. eexists. split; [apply lookup_replicate_2; unfold len in *; lia|by right].
Qed.

Lemma elect_behind rf args p r rf' effs : behind1 rf -> rvr_VoteGranted r = false ->
  sendRequestVoteAndProcess rf args p (Some r) = Ret (rf', effs) -> behind1 rf' /\ omap (effect_call 1) effs = [].
Proof.
  intros Hb Hr H. unfold sendRequestVoteAndProcess in H. rewrite Hr in H.
  destruct (_ || _); [by simplify_eq|]. destruct (CurrentTerm rf <? rvr_Term r) eqn:Et; [simplify_eq|].
  - split; [|done]. zbool. apply (behind_same rf); [done|split; simpl; done || lia|done|simpl; lia].
  - by simplify_eq.
Qed.

(** ** Replication *)
Lemma append_refused rf args rf' r effs : behind1 rf -> misses args -> AppendEntries rf args = Ret (rf', r, effs) ->
  behind1 rf' /\ refuses r /\ omap (effect_call 1) effs = [].
Proof.
  intros Hb Hm H. unfold AppendEntries in H.
  case_match; [simplify_eq; split_and!; [done|split; [done|left; simpl; lia]|done]|]. zbool.
  fold (enterTerm rf (ae_Term args)) in H.
  assert (Hb' : behind1 (enterTerm rf (ae_Term args)).1).
  { apply (behind_same rf); [done| |apply enterTerm_follower|].
    - destruct (enterTerm_static rf (ae_Term args)) as (_ & ? & ?).
      destruct (enterTerm_fields rf (ae_Term args)) as [_ ?]. split; try done.
      unfold enterTerm. destruct (Z.ltb_spec (CurrentTerm rf) (ae_Term args)); simpl; lia.
    - pose proof (bh_votes _ Hb). unfold enterTerm.
      destruct (CurrentTerm rf <? ae_Term args); simpl; lia. }
  destruct (enterTerm rf (ae_Term args)) as [rf1 ch]. simpl in Hb', H.
  pose proof Hb' as [Hs (a & b & HL & Ta & Tb) _ _ _].
  unfold logIdxLocal2Global, logIdxGlobal2Local in H. rewrite Hs, HL in H. unfold len in H. simpl in H.
  apply bind_Ret_inv in H as ([[rf2 r2] ch2] & H & E). injection E as <- <- <-.
  assert (rf2 = rf1 /\ refuses r2) as [-> Hr].
  { destruct Hm as [E0|[[E2 T2]|H3]].
    - rewrite E0 in H. simpl in H. simplify_eq. split; [done|]. split; [done|by right].
    - rewrite E2, T2 in H. simpl in H. rewrite ?Ta, ?Tb in H. simpl in H. simplify_eq.
      split; [done|]. split; [done|by left].
    - rewrite (proj2 (Z.ltb_ge _ _)), (proj2 (Z.ltb_lt _ _)) in H by lia. simplify_eq. split; [done|].
      split; [done|by right]. }
  split_and!; [|done|done]. destruct ch2; [|done]. by apply (behind_same rf1); [|split|apply Hb'..].
Qed.

Lemma reply_ahead rf args r rf' effs : shaped 3 rf -> ahead rf -> refuses r ->
  sendAppendEntriesAndProcess rf args 1 (Some r) = Ret (rf', effs) -> ahead rf' /\ omap (effect_call 0) effs = [].
Proof.
  intros Sh Ha [Hs Hc] H. unfold sendAppendEntriesAndProcess in H. rewrite Hs in H.
  destruct (bool_decide_reflect (state rf <> LEADER)) as [Hl|Hl]; [by simplify_eq/=|].
  apply dec_stable in Hl. simpl in H. destruct (aer_Term r <? CurrentTerm rf); [by simplify_eq|].
  destruct (CurrentTerm rf <? aer_Term r) eqn:Et; [simplify_eq|].
  - split; [|done]. zbool. apply (ahead_same rf); [done|split; simpl; done || lia|done].
  - apply bind_Ret_inv in H as (nx & Hn & H). simplify_eq. split; [|done]. rewrite max_spec in Hn.
    unfold slice_set in Hn. case_decide; [|done]. injection Hn as <-.
    apply (ahead_same rf); [done|split; simpl; done || lia|]. intros _. simpl.
    destruct (ah_next _ Ha Hl) as [Hp _]. split; [apply Forall_insert; [done|lia]|].
    eexists. split; [apply list_lookup_insert_eq; unfold len in *; lia|]. lia.
Qed.

Lemma start_ahead rf c rf' ret effs : me rf = 0 -> ahead rf -> Start rf c = Ret (rf', ret, effs) ->
  ahead rf' /\ omap (effect_call 0) effs = [].
Proof.
  intros Hme Ha H. unfold Start in H. case_decide as Hl; [|by simplify_eq].
  apply bind_Ret_inv in H as (nx & Hn & H). apply bind_Ret_inv in H as (mt & _ & H). simplify_eq. split; [|done].
  simpl in Hn. rewrite Hme in Hn. unfold slice_set in Hn. case_decide; [|done]. injection Hn as <-.
  pose proof Ha as [Hs (d & a & b & L & HL & Tb & HT) Ht Hc Hx]. split; simpl; try done.
  - exists d, a, b. eexists. rewrite HL. split; [reflexivity|]. split; [done|]. apply Forall_app. split; [done|].
    by repeat constructor.
  - intros _. destruct (Hx Hl) as [Hp (x & Hx1 & Hx2)]. split.
    + apply Forall_insert; [done|]. unfold logIdxLocal2Global, len. simpl. rewrite Hs, length_app. simpl. lia.
    + exists x. by rewrite list_lookup_insert_ne.
Qed.

Lemma sync_between rf j effs : me rf = 0 -> ahead rf -> checkConsistency rf j = Ret effs ->
  Forall between (omap (effect_call 0) effs).
Proof.
  intros Hme Ha H. unfold checkConsistency in H. case_decide as Hl; [|simplify_eq; constructor].
  destruct (ah_next _ Ha Hl) as [Hp (x & Hx1 & Hx2)]. apply bind_Ret_inv in H as (nx & Hn & H).
  apply slice_get_Ret in Hn as [_ En].
  assert (Hnx : 1 <= nx) by (by eapply (Forall_lookup_1 _ _ _ _ Hp)).
  pose proof Ha as [Hs (d & a & b & L & HL & Tb & HT) _ _ _]. rewrite Hs, (proj2 (Z.ltb_ge _ _)) in H by lia.
  apply bind_Ret_inv in H as (e & He & H). apply bind_Ret_inv in H as (es & _ & H). simplify_eq. simpl.
  constructor; [|constructor]. split; [done|]. simpl. intros ->.
  change (Z.to_nat 1) with 1%nat in En. rewrite Hx1 in En. simplify_eq.
  unfold misses. simpl. destruct Hx2 as [->|Hx2]; [left; lia|]. destruct (decide (nx = 3)) as [->|]; [|right; right; lia].
  right. left. split; [done|]. unfold logIdxGlobal2Local in He. rewrite Hs, HL, min_spec in He. unfold len in He.
  simpl in He. rewrite Z.min_l in He by lia. unfold slice_get in He. simpl in He. by simplify_eq.
Qed.

(** ** The system *)
Lemma placed_same i rf rf' : placed i rf -> same_logs rf rf' -> state rf' = state rf ->
  nextIndex rf' = nextIndex rf -> voteCount rf' = voteCount rf -> placed i rf'.
Proof.
  unfold placed. intros Hp Hs E1 E2 E3. case_decide.
  - apply (ahead_same rf); [done..|]. rewrite E1, E2. apply Hp.
  - apply (behind_same rf); [done|done|rewrite E1; apply Hp|rewrite E3; apply Hp].
Qed.

Lemma placed_snap i rf : i = 0 \/ i = 1 -> placed i rf -> SnapshotIndex rf = i /\ commitIndex rf <= i.
Proof. intros [->| ->] []; by split. Qed.

Lemma reach_peer s i : reachable 3 s -> 0 <= i < 3 -> shaped 3 (raft_of s i) /\ me (raft_of s i) = i.
Proof.
  intros Hr Hi. destruct (reach_basic 3 s Hr) as (a & _ & _ & R). destruct (rel_node R i Hi) as [C _].
  split; [by eapply core_shaped|apply (nr_me C)].
Qed.

Lemma reach_others s k c : reachable 3 s -> sys_calls s !! k = Some c -> c_from c <> c_to c.
Proof.
  intros Hr Hk. destruct (reach_basic 3 s Hr) as (a & _ & _ & R).
  destruct (rel_calls R c) as (_ & _ & ? & _); [by eapply list_elem_of_lookup_2|done].
Qed.

Lemma put_wedged logs s cs i rf effs : wedged logs s -> i = 0 \/ i = 1 -> placed i rf -> Forall between cs ->
  Forall between (omap (effect_call i) effs) -> wedged logs (put_raft (with_calls s cs) i rf effs).
Proof.
  intros [Hp _ Hl] Hi Hrf Hcs He. split; simpl; [|by apply Forall_app|done]. intros j Hj. fn_cases; [|by apply Hp].
  split; [done|apply (hd_sent _ _ (Hp _ Hi))|apply (hd_quiet _ _ (Hp _ Hi))].
Qed.

Lemma with_calls_id s : with_calls s (sys_calls s) = s.
Proof. by destruct s. Qed.

(** A restart keeps the log and forgets the rest. *)
Lemma boot_held s i : reachable 3 s -> i = 0 \/ i = 1 -> held i (sys_nodes s i) ->
  held i (boot 3 i (persister (raft_of s i))).
Proof.
  intros Hr Hi [Hp _ _]. assert (Hi3 : 0 <= i < 3) by lia. destruct (boot_fields 3 s i Hr Hi3) as (Es & _ & _ & Ea).
  pose proof (boot_logs 3 s i Hr Hi3) as El. destruct (reach_basic 3 s Hr) as (a & _ & _ & R).
  destruct (rel_node R i Hi3) as [C (Et & _)]. rewrite (nr_peers C), (nr_me C) in Et. split.
  - fold (raft_of s i) in Hp. revert Es El. unfold boot. simpl in *.
    destruct (dePersistState_static (initRaft (Cmd := Cmd) 3 i (Copy (persister (raft_of s i)))))
      as (_ & _ & _ & Ec & _ & _ & _ & Est & Ev). intros Es El.
    assert (Et' : CurrentTerm (dePersistState (initRaft 3 i (Copy (persister (raft_of s i))))) = CurrentTerm (raft_of s i)).
    { rewrite <- Et. unfold Copy. by destruct (persister (raft_of s i)). }
    destruct Hi as [->| ->]; destruct Hp as [P1 P2 P3 P4 P5]; split; rewrite ?Es, ?El, ?Et', ?Ec, ?Est, ?Ev; done.
  - intros idx c. rewrite Ea. unfold notifyAppUseNewSnapShot. case_decide; [by intros ?%not_elem_of_nil|].
    by intros ?%list_elem_of_singleton.
  - done.
Qed.

Lemma crash_wedged logs s cs i : reachable 3 s -> wedged logs s -> i = 0 \/ i = 1 -> Forall between cs ->
  wedged logs (crash 3 (with_calls s cs) i).
Proof.
  intros Hr [Hp _ Hl] Hi Hcs. split; [|done|done]. intros j Hj. simpl. fn_cases; [|by apply Hp].
  apply (boot_held s); [done..|by apply Hp].
Qed.

Lemma handle_wedged logs s cs i o s' : reachable 3 s -> wedged logs s -> i = 0 \/ i = 1 -> Forall between cs ->
  (forall rf effs, o = Ret (rf, effs) -> placed i rf /\ Forall between (omap (effect_call i) effs)) ->
  handle 3 (with_calls s cs) i o = Some s' -> wedged logs s'.
Proof.
  intros Hr Hw Hi Hcs Ho H. destruct o as [[rf effs]| |]; simpl in H; simplify_eq; [|by apply crash_wedged].
  destruct (Ho rf effs eq_refl). by apply put_wedged.
Qed.

Lemma deliver_wedged logs s k c s' : reachable 3 s -> wedged logs s -> sys_calls s !! k = Some c ->
  c_to c = 0 \/ c_to c = 1 -> deliver 3 s k c = Some s' -> wedged logs s'.
Proof.
  intros Hr Hw Hk Ht H. pose proof (hd_raft _ _ (we_peer _ _ Hw _ Ht)) as Hp. fold (raft_of s (c_to c)) in Hp.
  pose proof (Forall_lookup_1 _ _ _ _ (we_calls _ _ Hw) Hk) as Hb. pose proof (reach_others s k c Hr Hk) as Hne.
  assert (Hdel : Forall between (delete k (sys_calls s))) by apply Forall_delete, Hw.
  assert (Hins : forall r, between (mkCall (c_from c) (c_to c) r) ->
    Forall between (<[k := mkCall (c_from c) (c_to c) r]> (sys_calls s))) by (intros; by apply Forall_insert; [apply Hw|]).
  unfold deliver in H. destruct c as [f t []]; cbn [c_rpc c_to c_from] in *; try done; unfold between in Hb; simpl in Hb.
  - destruct (RequestVote _ _) as [[[rf r] effs]| |] eqn:E; simplify_eq; [|by apply crash_wedged].
    pose proof E as (Hs & En & El & Ev & E0 & E1)%vote_same. apply put_wedged; [done|done| |apply Hins|].
    + destruct Ht as [->| ->]; simpl in Hp |- *; [apply (ahead_same _ _ Hp Hs)|apply (behind_same _ _ Hp Hs)].
      * intros Hl. rewrite En. by apply Hp, El.
      * intros Hl. by apply (bh_state _ Hp), El.
      * pose proof (bh_votes _ Hp). lia.
    + intros Hf. simpl in Hf. subst f. assert (t = 0) as -> by lia. by eapply ahead_refuses; [|apply Hb|].
    + destruct Ht as [->| ->]; [rewrite E0|rewrite E1]; constructor.
  - destruct Hb as [-> Hm]. assert (t = 1) as -> by lia.
    destruct (AppendEntries _ _) as [[[rf r] effs]| |] eqn:E; simplify_eq; [|by apply crash_wedged].
    apply append_refused in E as (Hp' & Hs & E1); [|done|by apply Hm]. apply put_wedged; [done..|by apply Hins|].
    rewrite E1. constructor.
Qed.

Lemma reply_wedged logs s k c s' : reachable 3 s -> wedged logs s -> sys_calls s !! k = Some c ->
  c_from c = 0 \/ c_from c = 1 -> reply 3 s k c = Some s' -> wedged logs s'.
Proof.
  intros Hr Hw Hk Hf H. pose proof (hd_raft _ _ (we_peer _ _ Hw _ Hf)) as Hp. fold (raft_of s (c_from c)) in Hp.
  pose proof (Forall_lookup_1 _ _ _ _ (we_calls _ _ Hw) Hk) as Hb.
  destruct (reach_peer s (c_from c) Hr) as [Sh _]; [lia|]. rewrite reply_section_spec in H.
  eapply (handle_wedged _ s); [done|done|exact Hf|apply Forall_delete, Hw| |exact H].
  intros rf effs E. unfold reply_section in E.
  destruct c as [f t []]; cbn [c_rpc c_to c_from] in *; try done; unfold between in Hb; simpl in Hb.
  - destruct Hf as [->| ->]; simpl in Hp |- *.
    + apply elect_ahead in E as [? ->]; [|done..]. by split; [|constructor].
    + apply elect_behind in E as [? ->]; [|done|by apply Hb]. by split; [|constructor].
  - destruct Hb as (-> & -> & Hrf). apply reply_ahead in E as [? ->]; [|done..]. by split; [|constructor].
Qed.

(** Nothing is left to apply. *)
Lemma apply_quiet rf : commitIndex rf <= SnapshotIndex rf -> applyLogEntryDaemon rf = Ret (rf, []).
Proof.
  intros Hc. unfold applyLogEntryDaemon. destruct (Z.to_nat _) as [|k]; [done|]. simpl. case_match; [|done]. zbool.
  rewrite (proj2 (Z.leb_le _ _)) by lia. destruct k as [|k]; [done|]. simpl. by rewrite (proj2 (Z.leb_gt _ _)) by lia.
Qed.

Lemma start_placed i rf c rf' ret effs : me rf = i -> placed i rf -> Start rf c = Ret (rf', ret, effs) -> i = 0 \/ i = 1 ->
  placed i rf' /\ Forall between (omap (effect_call i) effs).
Proof.
  intros Hme Hp H [->| ->]; [apply start_ahead in H as [? ->]; [by split; [|constructor]|done..]|].
  unfold Start in H. rewrite decide_False in H by apply (bh_state _ Hp). simplify_eq. by split; [|constructor].
Qed.

Lemma sync_placed i rf j effs : me rf = i -> placed i rf -> checkConsistency rf j = Ret effs -> i = 0 \/ i = 1 ->
  Forall between (omap (effect_call i) effs).
Proof.
  intros Hme Hp H [->| ->]; [by eapply sync_between|].
  unfold checkConsistency in H. rewrite decide_False in H by apply (bh_state _ Hp). simplify_eq. constructor.
Qed.

Lemma timeout_placed i rf rf' effs : placed i rf -> broadCastVote rf = Ret (rf', effs) -> i = 0 \/ i = 1 ->
  placed i rf' /\ Forall between (omap (effect_call i) effs).
Proof.
  intros Hp H [->| ->]; [|by apply timeout_behind in H].
  split; [by eapply timeout_ahead|by eapply timeout_between].
Qed.

(** The rest of the section: the channels, the service, a crash. *)
Lemma node_wedged logs s i nd : wedged logs s -> i = 0 \/ i = 1 -> held i nd ->
  wedged logs (mkSys (<[i := nd]> (sys_nodes s)) (sys_calls s) (sys_logs s)).
Proof. intros [Hp Hc Hl] Hi Hn. split; [|done|done]. intros j Hj. simpl. fn_cases; [done|by apply Hp]. Qed.

(** The commands a peer handed over are in its snapshot already. *)
Lemma compact_held i nd idx snap : i = 0 \/ i = 1 -> held i nd -> existsb (applied_index idx) (nd_applyCh nd) = true ->
  Compact (nd_raft nd) idx snap = Ret (nd_raft nd).
Proof.
  intros Hi [Hp Hs _] ([j c|b] & Hin & Ej)%existsb_exists; [|done]. simpl in Ej. zbool.
  apply list_elem_of_In, Hs in Hin. destruct (placed_snap i _ Hi Hp) as [Es _].
  unfold Compact. by rewrite Es, (proj2 (Z.leb_le _ _)) by lia.
Qed.

(** Peer 2 is down: none of its code runs. *)
Definition spares s (e : event Cmd) : Prop := actor s e <> Some 2.

Lemma spared s e i : spares s e -> actor s e = Some i -> 0 <= i < 3 -> i = 0 \/ i = 1.
Proof. unfold spares. intros He Ha Hi. assert (i <> 2) by (by intros ->). lia. Qed.

Lemma exec_wedged logs s e s' : reachable 3 s -> wedged logs s -> spares s e -> exec 3 s e = Some s' -> wedged logs s'.
Proof.
  intros Hr Hw He H.
  assert (Hpeer : forall i, is_peer 3 i = true -> actor s e = Some i ->
    (i = 0 \/ i = 1) /\ placed i (raft_of s i) /\ me (raft_of s i) = i).
  { intros i Hi Ha. assert (Hi3 : 0 <= i < 3) by (unfold is_peer in Hi; zbool; lia).
    pose proof (spared s e i He Ha Hi3) as Hi'. split; [done|].
    split; [apply (hd_raft _ _ (we_peer _ _ Hw _ Hi'))|by apply (reach_peer s i)]. }
  pose proof (fun k => spared s e k He) as Hsp.
  destruct e as [i|k|k|k|i j|i c|i|i|i k|i idx snap|i]; simpl in H.
  - destruct (is_peer 3 i) eqn:Hi; [|done]. destruct (Hpeer i Hi eq_refl) as (Hi' & Hp & _).
    apply (handle_wedged logs s (sys_calls s) i (broadCastVote (raft_of s i))); [done..|apply Hw| |by destruct s].
    intros rf effs E. by eapply timeout_placed.
  - destruct (sys_calls s !! k) as [c|] eqn:Hk; [|done]. destruct (reach_call 3 s k c Hr Hk) as [_ Ht].
    eapply deliver_wedged; [done..| |exact H]. apply Hsp; [|done]. simpl. by rewrite Hk.
  - destruct (sys_calls s !! k) as [c|] eqn:Hk; [|done]. destruct (reach_call 3 s k c Hr Hk) as [Hf _].
    eapply reply_wedged; [done..| |exact H]. apply Hsp; [|done]. simpl. by rewrite Hk.
  - destruct (sys_calls s !! k) as [c|] eqn:Hk; [|done]. simpl in H. simplify_eq.
    split; [apply Hw|apply Forall_delete, Hw|apply Hw].
  - destruct (is_peer 3 i) eqn:Hi; [|done]. destruct (Hpeer i Hi eq_refl) as (Hi' & Hp & Hme).
    destruct (true && is_peer 3 j && negb (i =? j)); [|done].
    eapply (handle_wedged logs s (sys_calls s) i); [done..|apply Hw| |destruct s; exact H].
    intros rf effs (effs' & E & E')%bind_Ret_inv. simplify_eq. split; [done|]. by eapply sync_placed.
  - destruct (is_peer 3 i) eqn:Hi; [|done]. destruct (Hpeer i Hi eq_refl) as (Hi' & Hp & Hme).
    eapply (handle_wedged logs s (sys_calls s) i); [done..|apply Hw| |destruct s; exact H].
    intros rf effs ([[rf1 ret] effs'] & E & E')%bind_Ret_inv. simplify_eq. by eapply start_placed.
  - destruct (is_peer 3 i && _) eqn:Hb; [|done]. apply andb_true_iff in Hb as [Hi _].
    destruct (Hpeer i Hi eq_refl) as (Hi' & Hp & _). case_match; [done|]. simplify_eq.
    apply node_wedged; [done|done|]. split; simpl; [by eapply placed_same|apply (we_peer _ _ Hw _ Hi')..].
  - destruct (is_peer 3 i && _) eqn:Hb; [|done]. apply andb_true_iff in Hb as [Hi _].
    destruct (Hpeer i Hi eq_refl) as (Hi' & Hp & _). destruct (placed_snap i _ Hi' Hp) as [Es Ec].
    unfold raft_of in Es, Ec. rewrite apply_quiet in H by lia. simpl in H. rewrite !app_nil_r in H. simplify_eq.
    apply node_wedged; [done|done|]. split; [done|apply (we_peer _ _ Hw _ Hi')..].
  - destruct (is_peer 3 i) eqn:Hi; [|done]. destruct (Hpeer i Hi eq_refl) as (Hi' & Hp & _).
    by rewrite (hd_quiet _ _ (we_peer _ _ Hw _ Hi')) in H.
  - destruct (is_peer 3 i && _) eqn:Hb; [|done]. apply andb_true_iff in Hb as [Hi Hx].
    destruct (Hpeer i Hi eq_refl) as (Hi' & Hp & _).
    unfold raft_of in H. rewrite (compact_held i) in H by (done || apply (we_peer _ _ Hw _ Hi')).
    simpl in H. simplify_eq. rewrite <- (with_calls_id s).
    apply put_wedged; [done|done|done|apply Hw|constructor].
  - destruct (is_peer 3 i) eqn:Hi; [|done]. destruct (Hpeer i Hi eq_refl) as (Hi' & _ & _). simplify_eq.
    rewrite <- (with_calls_id s). apply crash_wedged; [done..|apply Hw].
Qed.

(** A step of the cluster without peer 2. *)
Definition pair_step s s' : Prop := exists e, spares s e /\ exec 3 s e = Some s'.

Lemma pair_wedged logs s s' : rtc pair_step s s' -> reachable 3 s -> wedged logs s -> wedged logs s'.
Proof.
  induction 1 as [|s s1 s' (e & He & E) _ IH]; intros Hr Hw; [done|].
  apply IH; [by eapply reach_step|by eapply exec_wedged].
Qed.
End Wedge.

(** ** The run *)
(** Peer 1 leads term 1; its command 10 is committed with peer 0 and compacted,
    and 11 reaches only its own log.  Peer 0 wins term 2, with the vote of
    peer 2, appends 20, crashes, and wins term 3 with the vote of peer 1. *)
Definition wedge_events : list (event Z) :=
  [EvTimeout 1; EvDeliver 0; EvReply 0; EvDrop 0; EvStart 1 10; EvSync 1 0; EvDeliver 0; EvReply 0; EvWake 1;
   EvApply 1; EvCompact 1 1 [Byte.x0a]; EvStart 1 11; EvTimeout 0; EvDeliver 1; EvReply 1; EvDrop 0; EvStart 0 20;
   EvCrash 0; EvTimeout 0; EvDeliver 0; EvReply 0; EvDrop 0].

Definition wedge : sys Z := ran 3 in_orderb wedge_events.

Lemma wedge_wedged : wedged [(1, 1, Some 10)] wedge.
Proof.
  split; [|vm_compute; constructor|vm_compute; reflexivity].
  intros i [->| ->]; split.
  - split; [vm_compute; reflexivity| |vm_compute; discriminate|vm_compute; discriminate|intros _].
    + do 4 eexists. split_and!; [vm_compute; reflexivity|reflexivity|constructor].
    + split; [vm_compute; repeat constructor; discriminate|]. eexists. split; [vm_compute; reflexivity|right; lia].
  - intros idx c. vm_compute. by intros ?%not_elem_of_nil.
  - vm_compute. reflexivity.
  - split; [vm_compute; reflexivity| |vm_compute; discriminate|vm_compute; discriminate|vm_compute; discriminate].
    do 2 eexists. split_and!; [vm_compute; reflexivity|reflexivity|reflexivity].
  - intros idx c. replace (nd_applyCh (sys_nodes wedge 1)) with [CommandMsg 1 (Some 10)] by (vm_compute; reflexivity).
    intros ?%list_elem_of_singleton. by simplify_eq.
  - vm_compute. reflexivity.
Qed.

Lemma wedge_reach : reach 3 in_order wedge.
Proof. apply ran_reach, in_orderb_spec. Qed.

(** C17: with compaction a connected majority can be stuck for ever.  There is a state
    of a cluster of three, reached in order, where peer 0 leads, peer 1 follows it in
    the same term, and one command has been applied, such that no execution in which
    only peer 2 is down applies anything more: whatever messages are delivered,
    whatever commands are started, and over any elections, crashes and restarts of
    the two, their record stays as it is. *)
Theorem conflict_search_wedges : exists s : sys Z,
  reach 3 in_order s /\ state (raft_of s 0) = LEADER /\ state (raft_of s 1) = FOLLOWER /\
  CurrentTerm (raft_of s 0) = CurrentTerm (raft_of s 1) /\ sys_logs s = [(1, 1, Some 10)] /\
  forall s', rtc pair_step s s' -> sys_logs s' = [(1, 1, Some 10)].
Proof.
  exists wedge. split_and!; [exact wedge_reach|vm_compute; reflexivity..|].
  intros s' Hs. apply (we_logs _ s'). eapply pair_wedged; [exact Hs| |exact wedge_wedged].
  eapply reach_weaken; [|exact wedge_reach]. done.
Qed.
