(* ===== verification/RaftLocks.v ===== *)
(** * Locks, channels and the election timer of a peer

    One peer at the level of its goroutines (raft/raft.go): who holds rf.mu, where
    the election daemon and the apply daemon are, the election timer with its
    channel, and the reader of applyCh.  A critical section holds the lock while
    it sends on resetTimerCh, which has no buffer, and on commitCh, which has 100
    places; the apply daemon holds it while it sends on applyCh.  The sections
    themselves are those of RaftNode.

    The timer is that of Go before 1.23, which go.mod selects: its channel has one
    place, and Stop and Reset leave a value in it. *)

From stdpp Require Import base list list_numbers.
From S2P Require Import Prelude Gob RaftNode.
Open Scope Z_scope.

(** ** time.Timer *)
Record timer : Type := mkTimer { tm_armed : option Z; tm_C : bool }.

(** [Stop]: false when the timer has expired or was stopped. *)
Definition timer_stop (t : timer) : timer * bool :=
  (mkTimer None (tm_C t), bool_decide (is_Some (tm_armed t))).
Definition timer_reset (d : Z) (t : timer) : timer := mkTimer (Some d) (tm_C t).
Definition timer_drained (t : timer) : timer := mkTimer (tm_armed t) false.

(** The timer expires. *)
Definition timer_fire (t : timer) : option timer :=
  match tm_armed t with Some _ => Some (mkTimer None true) | None => None end.

(** [randomizeTimeout], in milliseconds; [r] is what [Intn] returns. *)
Definition ELECTIONTIMEOUTFIXED : Z := 400.
Definition ELECTIONTIMEOUTRAND : Z := 400.
Definition randomizeTimeout (r : Z) : Z := ELECTIONTIMEOUTFIXED + r.
Definition intn (r : Z) : bool := (0 <=? r) && (r <? ELECTIONTIMEOUTRAND).

(** [resetTimer]: whether the timer is running again; if not, the caller waits in
    [<-rf.timer.C]. *)
Definition resetTimer (r : Z) (t : timer) : timer * bool :=
  let '(t1, stopped) := timer_stop t in
  if stopped then (timer_reset (randomizeTimeout r) t1, true)
  else if tm_C t1 then (timer_reset (randomizeTimeout r) (timer_drained t1), true)
  else (t1, false).

(** ** The peer *)
Section Locks.
Context {Cmd : Type} `{GC : Gob Cmd}.
Implicit Types rf : Raft Cmd.

(** The critical sections. *)
Inductive section : Type :=
| SecRequestVote (args : RequestVoteArgs)
| SecAppendEntries (args : AppendEntriesArgs Cmd)
| SecInstallSnapShot (args : InstallSnapshotArgs)
| SecBroadCastVote
| SecVoteReply (args : RequestVoteArgs) (server : Z) (res : option RequestVoteReply)
| SecAppendReply (args : AppendEntriesArgs Cmd) (server : Z) (res : option AppendEntriesReply)
| SecSnapShotReply (args : InstallSnapshotArgs) (server : Z) (res : option InstallSnapshotReply)
| SecCheckConsistency (to : Z)
| SecStart (command : Cmd)
| SecCompact (cmdIndex : Z) (snap : bytes)
| SecGetState.

Definition run_sec rf (sec : section) : outcome (Raft Cmd * list (effect Cmd)) :=
  match sec with
  | SecRequestVote args => '(rf', _, effs) ← RequestVote rf args; Ret (rf', effs)
  | SecAppendEntries args => '(rf', _, effs) ← AppendEntries rf args; Ret (rf', effs)
  | SecInstallSnapShot args => '(rf', _, effs) ← InstallSnapShot rf args; Ret (rf', effs)
  | SecBroadCastVote => broadCastVote rf
  | SecVoteReply args server res => sendRequestVoteAndProcess rf args server res
  | SecAppendReply args server res => sendAppendEntriesAndProcess rf args server res
  | SecSnapShotReply args server res => sendSnapShotAndProcess rf args server res
  | SecCheckConsistency to => effs ← checkConsistency rf to; Ret (rf, effs)
  | SecStart command => '(rf', _, effs) ← Start rf command; Ret (rf', effs)
  | SecCompact cmdIndex snap => rf' ← Compact rf cmdIndex snap; Ret (rf', [])
  | SecGetState => Ret (rf, [])
  end.

(** The sends on resetTimerCh among the effects of a section, and the snapshots
    it hands to the service after it released the lock. *)
Definition is_reset (e : effect Cmd) : bool := match e with ResetTimer => true | _ => false end.
Definition resets (effs : list (effect Cmd)) : nat := length (List.filter is_reset effs).
Definition notified (e : effect Cmd) : list (ApplyMsg Cmd) :=
  match e with NotifyApp snap => notifyAppUseNewSnapShot snap | _ => [] end.

(** Who holds rf.mu: nobody, a section that still has [k] sends on resetTimerCh
    before it, or the apply daemon with the messages it still has to send. *)
Inductive holder : Type :=
| Free
| Holds (sec : section) (k : nat)
| Applying (rf' : Raft Cmd) (msgs : list (ApplyMsg Cmd)).

(** The apply daemon waits for a token, or for the lock, which it then holds. *)
Inductive apply_pc : Type := AwaitsToken | AwaitsLock.

Record peer : Type := mkPeer {
  lk_rf : Raft Cmd;
  lk_mu : holder;
  lk_apply : apply_pc;
  lk_draining : bool;
  lk_timer : timer;
  lk_votes : nat;
  lk_notify : list (ApplyMsg Cmd);
  lk_busy : bool
}.
Implicit Types p : peer.

Definition set_rf rf p : peer :=
  mkPeer rf (lk_mu p) (lk_apply p) (lk_draining p) (lk_timer p) (lk_votes p) (lk_notify p) (lk_busy p).
Definition set_mu h p : peer :=
  mkPeer (lk_rf p) h (lk_apply p) (lk_draining p) (lk_timer p) (lk_votes p) (lk_notify p) (lk_busy p).
Definition set_apply a p : peer :=
  mkPeer (lk_rf p) (lk_mu p) a (lk_draining p) (lk_timer p) (lk_votes p) (lk_notify p) (lk_busy p).
Definition set_daemon b t p : peer :=
  mkPeer (lk_rf p) (lk_mu p) (lk_apply p) b t (lk_votes p) (lk_notify p) (lk_busy p).
Definition set_votes v p : peer :=
  mkPeer (lk_rf p) (lk_mu p) (lk_apply p) (lk_draining p) (lk_timer p) v (lk_notify p) (lk_busy p).
Definition set_service ms b p : peer :=
  mkPeer (lk_rf p) (lk_mu p) (lk_apply p) (lk_draining p) (lk_timer p) (lk_votes p) ms b.

(** A peer when [Make] returns: the timer was created with [NewTimer(0)], and
    the service has received the snapshot, if there is one. *)
Definition booted (npeers i : Z) (ps : Persister) : peer :=
  let '(rf, msgs) := Make npeers i ps in
  mkPeer rf Free AwaitsToken false (mkTimer (Some 0) false) 0 [] (bool_decide (msgs <> [])).

Inductive lock_event : Type :=
| Acquire (sec : section)
| ResetSent (r : Z)
| Finish
| Fire
| Elect (r : Z)
| Drained (r : Z)
| Token
| ApplyAcquire
| Deliver
| ApplyRelease
| Notify
| ServiceDone
| Killed.

(** A goroutine takes the lock for [sec]; those of [broadCastVote] are started by
    the election daemon. *)
Definition acquire p (sec : section) : option peer :=
  match lk_mu p, run_sec (set_commitCh 0 (lk_rf p)) sec with
  | Free, Ret (_, effs) =>
      match sec, lk_votes p with
      | SecBroadCastVote, O => None
      | SecBroadCastVote, S v => Some (set_votes v (set_mu (Holds sec (resets effs)) p))
      | _, _ => Some (set_mu (Holds sec (resets effs)) p)
      end
  | _, _ => None
  end.

(** The end of a section, with its send on commitCh. *)
Definition finish p : option peer :=
  match lk_mu p with
  | Holds sec O =>
      match run_sec (lk_rf p) sec with
      | Ret (rf', effs) =>
          Some (set_service (lk_notify p ++ mjoin (notified <$> effs)) (lk_busy p) (set_mu Free (set_rf rf' p)))
      | _ => None
      end
  | _ => None
  end.

(** The events of [electionDaemon]. *)
Definition reset_received p (r : Z) : option peer :=
  match lk_mu p, lk_draining p with
  | Holds sec (S k), false =>
      let '(t, running) := resetTimer r (lk_timer p) in
      if intn r then Some (set_daemon (negb running) t (set_mu (Holds sec k) p)) else None
  | _, _ => None
  end.

Definition elect p (r : Z) : option peer :=
  if negb (lk_draining p) && tm_C (lk_timer p) && intn r then
    Some (set_votes (S (lk_votes p))
           (set_daemon false (timer_reset (randomizeTimeout r) (timer_drained (lk_timer p))) p))
  else None.

Definition drained p (r : Z) : option peer :=
  if lk_draining p && tm_C (lk_timer p) && intn r then
    Some (set_daemon false (timer_reset (randomizeTimeout r) (timer_drained (lk_timer p))) p)
  else None.

(** The events of [applyLogEntryDaemon]. *)
Definition token p : option peer :=
  match lk_apply p, commitCh (lk_rf p) with
  | AwaitsToken, S c => Some (set_apply AwaitsLock (set_rf (set_commitCh c (lk_rf p)) p))
  | _, _ => None
  end.

Definition apply_acquire p : option peer :=
  match lk_mu p, lk_apply p, applyLogEntryDaemon (lk_rf p) with
  | Free, AwaitsLock, Ret (rf', msgs) => Some (set_mu (Applying rf' msgs) p)
  | _, _, _ => None
  end.

Definition deliver p : option peer :=
  match lk_mu p, lk_busy p with
  | Applying rf' (_ :: msgs), false => Some (set_service (lk_notify p) true (set_mu (Applying rf' msgs) p))
  | _, _ => None
  end.

Definition apply_release p : option peer :=
  match lk_mu p with
  | Applying rf' [] => Some (set_apply AwaitsToken (set_mu Free (set_rf rf' p)))
  | _ => None
  end.

Definition lock_exec p (e : lock_event) : option peer :=
  match e with
  | Acquire sec => acquire p sec
  | ResetSent r => reset_received p r
  | Finish => finish p
  | Fire => t ← timer_fire (lk_timer p); Some (set_daemon (lk_draining p) t p)
  | Elect r => elect p r
  | Drained r => drained p r
  | Token => token p
  | ApplyAcquire => apply_acquire p
  | Deliver => deliver p
  | ApplyRelease => apply_release p
  | Notify =>
      match lk_notify p, lk_busy p with
      | _ :: ms, false => Some (set_service ms true p)
      | _, _ => None
      end
  | ServiceDone => if lk_busy p then Some (set_service (lk_notify p) false p) else None
  | Killed => Some (set_daemon (lk_draining p) (timer_stop (lk_timer p)).1 (set_rf (Kill (lk_rf p)) p))
  end.

Fixpoint lock_run p (evs : list lock_event) : option peer :=
  match evs with
  | [] => Some p
  | e :: evs' => p' ← lock_exec p e; lock_run p' evs'
  end.

(** The states of a peer before [Kill] is called. *)
Inductive lock_reach (p0 : peer) : peer -> Prop :=
| lock_reach_init : lock_reach p0 p0
| lock_reach_step p e p' :
    lock_reach p0 p -> e <> Killed -> lock_exec p e = Some p' -> lock_reach p0 p'.

Lemma lock_run_reach p0 p evs p' :
  lock_reach p0 p -> Forall (fun e => e <> Killed) evs -> lock_run p evs = Some p' -> lock_reach p0 p'.
Proof.
  intros Hr HF. revert p Hr. induction HF as [|e evs He HF IH]; simpl; intros p Hr H; [by simplify_eq|].
  destruct (lock_exec p e) eqn:E; [|done]. eapply IH; [|done]. by eapply lock_reach_step.
Qed.

(** ** Sections and the room in commitCh *)

(** The outcomes of a section in two states that differ in their tokens: the
    same effects, or the second waits for room. *)
Definition same_effects (room : Prop) (o1 o2 : outcome (Raft Cmd * list (effect Cmd))) : Prop :=
  match o1, o2 with
  | Ret (_, effs1), Ret (_, effs2) => effs1 = effs2
  | Ret _, Block => ~ room
  | Panic, Panic | Block, Block => True
  | _, _ => False
  end.

(** Cases of a scrutinee that holds no match itself. *)
Ltac inner_match :=
  match goal with
  | |- context [match ?x with _ => _ end] =>
      lazymatch x with context [match _ with _ => _ end] => fail | _ => destruct x eqn:? end
  end.

Ltac same_solve :=
  cbv [mbind outcome_bind sendCommitCh appendMatched becomeLeader processAppendSuccess
       logIdxLocal2Global logIdxGlobal2Local stepDown goBackToFollower
       set_persister set_CurrentTerm set_VotedFor set_Logs set_SnapshotIndex set_commitIndex set_nextIndex
       set_matchIndex set_state set_voteCount set_commitCh persistState otherPeers
       RaftNode.peers RaftNode.persister RaftNode.me RaftNode.CurrentTerm RaftNode.VotedFor RaftNode.Logs
       RaftNode.SnapshotIndex RaftNode.commitIndex RaftNode.lastApplied RaftNode.nextIndex RaftNode.matchIndex
       RaftNode.state RaftNode.voteCount RaftNode.commitCh];
  repeat (inner_match; cbv beta iota zeta);
  try done; try lia.

(** What a section does apart from its send on commitCh does not depend on the
    tokens that are there. *)
Lemma run_sec_same rf sec c1 c2 :
  (c1 < CommitChCap)%nat ->
  same_effects (c2 < CommitChCap)%nat (run_sec (set_commitCh c1 rf) sec) (run_sec (set_commitCh c2 rf) sec).
Proof.
  intros H1. destruct rf. destruct sec; cbn [run_sec].
  - unfold RequestVote. same_solve.
  - unfold AppendEntries. same_solve.
  - unfold InstallSnapShot. same_solve.
  - unfold broadCastVote. same_solve.
  - unfold sendRequestVoteAndProcess. same_solve.
  - unfold sendAppendEntriesAndProcess. same_solve.
  - unfold sendSnapShotAndProcess. same_solve.
  - unfold checkConsistency. same_solve.
  - unfold Start. same_solve.
  - unfold Compact. same_solve.
  - done.
Qed.

(** A section that was started returns when there is room in commitCh. *)
Lemma run_sec_room rf sec rf0 effs :
  run_sec (set_commitCh 0 rf) sec = Ret (rf0, effs) ->
  match run_sec rf sec with
  | Ret (_, effs') => effs' = effs
  | Block => (CommitChCap <= commitCh rf)%nat
  | Panic => False
  end.
Proof.
  intros H. pose proof (run_sec_same rf sec 0 (commitCh rf)) as Hs. rewrite H in Hs.
  replace (set_commitCh (commitCh rf) rf) with rf in Hs by (by destruct rf).
  unfold same_effects, CommitChCap in *. repeat case_match; try (by apply Hs; lia).
  - symmetry. apply Hs. lia.
  - assert (~ (commitCh rf < 100)%nat) by (apply Hs; lia). lia.
Qed.

(** ** The lock is released *)

(** The timer is armed or has a value in its channel, and never both. *)
Definition timer_ok (t : timer) : Prop :=
  match tm_armed t with
  | Some d => tm_C t = false /\ (d = 0 \/ ELECTIONTIMEOUTFIXED <= d < ELECTIONTIMEOUTFIXED + ELECTIONTIMEOUTRAND)
  | None => tm_C t = true
  end.

Record lock_inv p : Prop := {
  li_timer : timer_ok (lk_timer p);
  li_daemon : lk_draining p = false;
  li_section : match lk_mu p with
    | Holds sec k => exists rf0 effs, run_sec (set_commitCh 0 (lk_rf p)) sec = Ret (rf0, effs)
    | _ => True
    end
}.

Lemma resetTimer_ok r t :
  timer_ok t -> intn r = true -> (resetTimer r t).2 = true /\ timer_ok (resetTimer r t).1.
Proof.
  unfold intn, timer_ok, resetTimer, timer_stop. intros Ht Hr. zbool.
  destruct t as [[d|] C]; simpl in *; [|subst C]; simpl; unfold randomizeTimeout, ELECTIONTIMEOUTFIXED,
    ELECTIONTIMEOUTRAND in *; (split; [done|]); (split; [naive_solver|lia]).
Qed.

Lemma lock_inv_step p e p' : lock_inv p -> e <> Killed -> lock_exec p e = Some p' -> lock_inv p'.
Proof.
  intros [Ht Hd Hs] He H. destruct e; simpl in H; try done.
  - unfold acquire in H. destruct (lk_mu p); try done.
    destruct (run_sec (set_commitCh 0 (lk_rf p)) sec) as [[rf0 effs]| |] eqn:E; try done.
    repeat case_match; simplify_eq; split; simpl; eauto.
  - unfold reset_received in H. destruct (lk_mu p) as [|sec [|k]|]; try done.
    rewrite Hd in H. destruct (intn r) eqn:Hr; [|by repeat case_match].
    pose proof (resetTimer_ok r _ Ht Hr) as [E1 E2]. destruct (resetTimer r (lk_timer p)) as [t b].
    simpl in *. simplify_eq. by split.
  - unfold finish in H. repeat case_match; simplify_eq; split; done.
  - unfold timer_fire in H. destruct (tm_armed (lk_timer p)); simplify_eq/=. by split.
  - unfold elect in H. case_match eqn:E; simplify_eq. split; simpl; try done.
    unfold intn, timer_ok, timer_reset, timer_drained, randomizeTimeout in *. zbool. simpl. split; [done|lia].
  - unfold drained in H. rewrite Hd in H. done.
  - unfold token in H. destruct (lk_apply p); [|done]. destruct (commitCh (lk_rf p)); simplify_eq. by split.
  - unfold apply_acquire in H. repeat case_match; simplify_eq. by split.
  - unfold deliver in H. repeat case_match; simplify_eq. by split.
  - unfold apply_release in H. repeat case_match; simplify_eq. by split.
  - destruct (lk_notify p), (lk_busy p); simplify_eq. by split.
  - destruct (lk_busy p); simplify_eq. by split.
Qed.

Lemma booted_inv npeers i ps : lock_inv (booted npeers i ps).
Proof. split; simpl; [split; [done|by left]|done|done]. Qed.

Lemma lock_reach_inv p0 p : lock_inv p0 -> lock_reach p0 p -> lock_inv p.
Proof. intros H0. induction 1; eauto using lock_inv_step. Qed.

(** What is left to do until the holder of the lock gives it back. *)
Definition work p : nat :=
  match lk_mu p with
  | Free => 0
  | Holds _ k => S (k + match lk_apply p with AwaitsToken => 1 | AwaitsLock => 0 end)
  | Applying _ msgs => S (2 * length msgs + 2 * length (lk_notify p) + (if lk_busy p then 1 else 0))
  end%nat.

(** The steps of the holder and of the goroutines it waits for. *)
Definition advances p (e : lock_event) : bool :=
  match e, lk_mu p with
  | ResetSent _, _ | Finish, _ | Deliver, _ | ApplyRelease, _ => true
  | Token, Holds _ _ => true
  | (ServiceDone | Notify), Applying _ _ => true
  | _, _ => false
  end.

(** The one way in which the lock is not released: the section waits for room
    in commitCh, and the apply daemon, which would make room, for the lock. *)
Definition commit_deadlock p : Prop :=
  lk_apply p = AwaitsLock /\ (CommitChCap <= commitCh (lk_rf p))%nat /\
  exists sec, lk_mu p = Holds sec 0 /\ run_sec (lk_rf p) sec = Block.

Lemma lock_progress p :
  lock_inv p -> lk_mu p <> Free ->
  commit_deadlock p \/ exists e p', advances p e = true /\ lock_exec p e = Some p'.
Proof.
  intros [Ht Hd Hs] Hf. destruct (lk_mu p) as [|sec k|rf' msgs] eqn:Hm; [done| |].
  - destruct Hs as (rf0 & effs & Hs). destruct k as [|k].
    + pose proof (run_sec_room _ _ _ _ Hs) as Hr.
      destruct (run_sec (lk_rf p) sec) as [[rf1 effs1]| |] eqn:E; [|done|].
      * right. eexists Finish, _. split; [done|]. simpl. unfold finish. by rewrite Hm, E.
      * destruct (lk_apply p) eqn:Ha; [right|left; by split_and!; eauto].
        unfold CommitChCap in Hr. destruct (commitCh (lk_rf p)) as [|c] eqn:Hc; [lia|].
        eexists Token, _. unfold advances. rewrite Hm. split; [done|]. simpl. unfold token. by rewrite Ha, Hc.
    + right. destruct (resetTimer 0 (lk_timer p)) as [t b] eqn:Et.
      eexists (ResetSent 0), _. split; [done|]. simpl. unfold reset_received. by rewrite Hm, Hd, Et.
  - right. destruct (lk_busy p) eqn:Hb.
    + eexists ServiceDone, _. unfold advances. rewrite Hm. split; [done|]. simpl. by rewrite Hb.
    + destruct msgs as [|m msgs].
      * eexists ApplyRelease, _. split; [done|]. simpl. unfold apply_release. by rewrite Hm.
      * eexists Deliver, _. split; [done|]. simpl. unfold deliver. by rewrite Hm, Hb.
Qed.

Lemma lock_work p e p' :
  lk_mu p <> Free -> lock_exec p e = Some p' ->
  (work p' <= work p)%nat /\ (advances p e = true -> (work p' < work p)%nat).
Proof.
  intros Hf H. destruct e; simpl in H;
    unfold acquire, reset_received, finish, timer_fire, elect, drained, token, apply_acquire, deliver,
      apply_release, advances, work in *;
    repeat (case_match; simplify_eq/=); try done; try lia.
Qed.

(** Along a run: the steps that advance the holder, and whether the lock was
    free in between. *)
Fixpoint advanced p (evs : list lock_event) : nat :=
  match evs with
  | [] => 0
  | e :: evs' =>
      match lock_exec p e with
      | Some p' => (if advances p e then 1 else 0) + advanced p' evs'
      | None => 0
      end
  end.
Fixpoint was_free p (evs : list lock_event) : Prop :=
  lk_mu p = Free \/
  match evs with
  | [] => False
  | e :: evs' => match lock_exec p e with Some p' => was_free p' evs' | None => False end
  end.

Lemma advanced_bound p evs p' :
  lock_run p evs = Some p' -> was_free p evs \/ (advanced p evs <= work p)%nat.
Proof.
  revert p. induction evs as [|e evs IH]; simpl; intros p H; [right; lia|].
  assert (lk_mu p = Free \/ lk_mu p <> Free) as [Hf|Hf] by (destruct (lk_mu p); auto); [by left; left|].
  destruct (lock_exec p e) as [p1|] eqn:E; [|done]. simpl in H.
  destruct (lock_work _ _ _ Hf E) as [W1 W2]. destruct (IH _ H) as [?|W]; [by left; right|right].
  destruct (advances p e); [specialize (W2 eq_refl)|]; lia.
Qed.

(** C12: no goroutine keeps rf.mu for ever, as long as the peer is not killed.
    While the lock is held, a step is possible that brings the holder closer to
    its end: the election daemon is ready to receive the reset the holder sends,
    the service to receive the entry, the section can return.  The holder is done
    after at most [work] such steps, whatever else happens in between.  The one
    exception is a section that sends on a full commitCh while the apply daemon,
    its only reader, waits for the lock. *)
Theorem lock_released npeers i ps p :
  lock_reach (booted npeers i ps) p -> lk_mu p <> Free ->
  (commit_deadlock p \/ exists e p', advances p e = true /\ lock_exec p e = Some p') /\
  (forall evs p', lock_run p evs = Some p' -> was_free p evs \/ (advanced p evs <= work p)%nat).
Proof.
  intros Hr Hf. pose proof (lock_reach_inv _ _ (booted_inv _ _ _) Hr) as Hi.
  split; [by apply lock_progress|]. intros evs p'. apply advanced_bound.
Qed.

(** The exception is final. *)
Lemma commit_deadlock_final p p' : lock_reach p p' -> commit_deadlock p -> commit_deadlock p'.
Proof.
  intros Hr. induction Hr as [|p1 e p2 Hr IH He H]; [done|].
  intros (Ha & Hc & sec & Hm & Hb)%IH. unfold commit_deadlock.
  destruct e; simpl in H; try done;
    unfold acquire, reset_received, finish, timer_fire, elect, drained, token, apply_acquire, deliver,
      apply_release in H; rewrite ?Ha, ?Hm, ?Hb in H; try done;
    repeat (case_match; simplify_eq/=); try done; split_and!; try done; eauto.
Qed.

(** A killed peer whose daemon waits for a stopped timer, with a section that
    wants to reset it. *)
Definition daemon_dead p : Prop :=
  lk_draining p = true /\ lk_timer p = mkTimer None false /\ exists sec k, lk_mu p = Holds sec (S k).

Lemma daemon_dead_final p evs p' : daemon_dead p -> lock_run p evs = Some p' -> daemon_dead p'.
Proof.
  revert p. induction evs as [|e evs IH]; simpl; intros p Hp H; [by simplify_eq|].
  destruct (lock_exec p e) as [p1|] eqn:E; [|done]. simpl in H. apply (IH p1); [|done].
  destruct Hp as (Hd & Ht & sec & k & Hm). unfold daemon_dead.
  destruct e; simpl in E;
    unfold acquire, reset_received, finish, timer_fire, elect, drained, token, apply_acquire, deliver,
      apply_release in E; rewrite ?Hd, ?Ht, ?Hm in E; try done;
    repeat (case_match; simplify_eq/=); try done; simplify_eq/=; split_and!; simpl; rewrite ?Ht; eauto.
Qed.
End Locks.

(** ** Executions *)

(** A follower of three that is sent [k] requests of the leader of term 1, each
    with the next entry, which commit what they bring. *)
Definition appending (i : Z) : AppendEntriesArgs Z :=
  mkAppendEntriesArgs 1 1 i (if i =? 0 then 0 else 1) [mkLogEntry (i + 1) 1 (Some i)] (i + 1).
Definition served (i : Z) : list (lock_event (Cmd := Z)) :=
  [Acquire (SecAppendEntries (appending i)); ResetSent 0; Finish].
Definition flooded (k : Z) : list (lock_event (Cmd := Z)) :=
  served 0 ++ [Token] ++ (seqZ 1 k ≫= served).
Definition follower : peer (Cmd := Z) := booted 3 0 MakePersister.
Definition after (evs : list (lock_event (Cmd := Z))) : peer (Cmd := Z) := default follower (lock_run follower evs).

Lemma after_reach evs :
  Forall (fun e => e <> Killed) evs -> lock_reach follower (after evs).
Proof.
  intros HF. unfold after. destruct (lock_run follower evs) eqn:E; simpl; [|constructor].
  eapply lock_run_reach; [constructor|done|done].
Qed.

Lemma lock_released_witness :
  lk_mu (after [Acquire (SecAppendEntries (appending 0))]) <> Free /\
  exists e p', advances (after [Acquire (SecAppendEntries (appending 0))]) e = true /\
    lock_exec (after [Acquire (SecAppendEntries (appending 0))]) e = Some p'.
Proof.
  assert (lk_mu (after [Acquire (SecAppendEntries (appending 0))]) <> Free) as Hf by done.
  split; [exact Hf|].
  destruct (lock_released (Cmd := Z) 3 0 MakePersister _ (after_reach [Acquire (SecAppendEntries (appending 0))]
    ltac:(by repeat constructor)) Hf) as [[(_ & Hc & _)|H] _]; [|exact H].
  exfalso. vm_compute in Hc. lia.
Defined.

(** The exception happens: one hundred requests commit between the daemon's
    receive of a token and its lock, and the next one waits for ever. *)
Lemma commit_deadlock_reachable :
  exists evs p, lock_run follower evs = Some p /\ Forall (fun e => e <> Killed) evs /\ commit_deadlock p.
Proof.
  exists (flooded 100 ++ [Acquire (SecAppendEntries (appending 101)); ResetSent 0]).
  eexists. split_and!.
  - vm_compute. reflexivity.
  - apply Forall_app; split; [|by repeat constructor]. unfold flooded.
    apply Forall_app; split; [by repeat constructor|]. apply Forall_app; split; [by repeat constructor|].
    apply Forall_bind, Forall_forall. intros x _. by repeat constructor.
  - split_and!; [done|vm_compute; lia|]. eexists. split; [reflexivity|]. vm_compute. reflexivity.
Qed.

(** [Kill] stops the timer behind the back of the election daemon: the next
    reset makes the daemon wait for ever in [<-rf.timer.C], and the reset after
    it keeps rf.mu for ever. *)
Lemma kill_blocks_peer :
  exists evs p, lock_run follower evs = Some p /\
  forall evs' p', lock_run p evs' = Some p' -> exists sec k, lk_mu p' = Holds sec (S k).
Proof.
  exists ([Killed] ++ served 0 ++ [Acquire (SecAppendEntries (appending 1))]). eexists. split.
  - vm_compute. reflexivity.
  - intros evs' p' H. eapply daemon_dead_final in H as (_ & _ & H); [exact H|].
    split_and!; [done|done|by eauto].
Qed.

(** [Kill] after the timer has expired does not stop the peer: the daemon finds
    the value in the channel, starts the timer again, and the killed peer
    becomes a candidate. *)
Lemma killed_peer_campaigns :
  exists p, lock_run follower [Fire; Killed; Elect 0; Acquire SecBroadCastVote; Finish] = Some p /\
    state (lk_rf p) = CANDIDATE /\ tm_armed (lk_timer p) = Some 400.
Proof. eexists. split_and!; [vm_compute; reflexivity|done|done]. Qed.
