(* ===== verification/KVServer.v ===== *)
(** * The key/value server: kvraft/server.go

    The state of a KVServer and its critical sections.  [applyStub] maps a Raft
    index to a channel; two callers may hold the same channel and a caller may
    hold one that has been closed and removed from the map, so channels live in
    a store of their own and [applyStub] holds references into it.

    [Get] and [PutAppend] are split where they release the mutex: the part up to
    [enterOperation], the sections of [enterOperation], and the reply. *)

From stdpp Require Import base list gmap strings.
From S2P Require Import Prelude Gob RaftNode.
Open Scope Z_scope.

(** ** Data (common.go, server.go) *)
Definition OK : string := "OK".
Definition ErrNoKey : string := "ErrNoKey".
Definition ErrFail : string := "ErrFail".
Definition GET : string := "Get".
Definition PUT : string := "Put".
Definition APPEND : string := "Append".

Record PutAppendArgs : Type := mkPutAppendArgs {
  pa_Key : string; pa_Value : string; pa_Op : string; pa_ClientID : Z; pa_CmdID : Z
}.
Record PutAppendReply : Type := mkPutAppendReply { par_WrongLeader : bool; par_Err : string }.
Record GetArgs : Type := mkGetArgs { ga_Key : string; ga_ClientID : Z; ga_CmdID : Z }.
Record GetReply : Type := mkGetReply {
  gr_WrongLeader : bool; gr_Err : string; gr_Value : string
}.

Record Op : Type := mkOp {
  CmdType : string; Key : string; Val : string; ClientID : Z; CmdID : Z
}.

Record DoneMsg : Type := mkDoneMsg { dm_ClientID : Z; dm_CmdID : Z }.

#[export] Instance Op_eq_dec : EqDecision Op.
Proof. solve_decision. Defined.
#[export] Instance DoneMsg_eq_dec : EqDecision DoneMsg.
Proof. solve_decision. Defined.

Definition retract_Op (x : string * string * string * Z * Z) : option Op :=
  Some (mkOp x.1.1.1.1 x.1.1.1.2 x.1.1.2 x.1.2 x.2).

Lemma retract_Op_ok (o : Op) : retract_Op (CmdType o, Key o, Val o, ClientID o, CmdID o) = Some o.
Proof. by destruct o. Qed.

#[export] Instance Gob_Op : Gob Op :=
  Gob_retract (fun o => (CmdType o, Key o, Val o, ClientID o, CmdID o)) retract_Op retract_Op_ok.

(** A channel of capacity 1. *)
Record chan : Type := mkChan { buffer : option DoneMsg; closed : bool }.

Record KVServer : Type := mkKVServer {
  kv_me : Z;
  maxraftstate : Z;
  DupMap : gmap Z Z;
  applyStub : gmap Z nat;
  Kvdb : gmap string string;
  heap : gmap nat chan;
  nextChan : nat
}.

Definition set_db (dup : gmap Z Z) (db : gmap string string) (kv : KVServer) : KVServer :=
  mkKVServer (kv_me kv) (maxraftstate kv) dup (applyStub kv) db (heap kv) (nextChan kv).
Definition set_heap (h : gmap nat chan) (kv : KVServer) : KVServer :=
  mkKVServer (kv_me kv) (maxraftstate kv) (DupMap kv) (applyStub kv) (Kvdb kv) h (nextChan kv).
Definition set_stub (st : gmap Z nat) (kv : KVServer) : KVServer :=
  mkKVServer (kv_me kv) (maxraftstate kv) (DupMap kv) st (Kvdb kv) (heap kv) (nextChan kv).

Definition StartKVServer (me maxraftstate : Z) : KVServer :=
  mkKVServer me maxraftstate ∅ ∅ ∅ ∅ 0%nat.

(** ** Channels *)

(** [if _, ok := kv.applyStub[i]; !ok { kv.applyStub[i] = make(chan DoneMsg, 1) }],
    then [kv.applyStub[i]]. *)
Definition stubFor (kv : KVServer) (i : Z) : KVServer * nat :=
  match applyStub kv !! i with
  | Some c => (kv, c)
  | None =>
      let c := nextChan kv in
      (mkKVServer (kv_me kv) (maxraftstate kv) (DupMap kv) (<[i := c]> (applyStub kv)) (Kvdb kv)
         (<[c := mkChan None false]> (heap kv)) (S c), c)
  end.

(** [select { case <-ch: default: }] *)
Definition drain (kv : KVServer) (c : nat) : KVServer :=
  match heap kv !! c with
  | Some ch => if closed ch then kv else set_heap (<[c := mkChan None false]> (heap kv)) kv
  | None => kv
  end.

(** [ch <- m]: panics on a closed channel, blocks on a full one. *)
Definition send (kv : KVServer) (c : nat) (m : DoneMsg) : outcome KVServer :=
  match heap kv !! c with
  | Some ch =>
      if closed ch then Panic
      else match buffer ch with
           | None => Ret (set_heap (<[c := mkChan (Some m) false]> (heap kv)) kv)
           | Some _ => Block
           end
  | None => Block
  end.

(** [m := <-ch]: a closed and empty channel yields the zero value. *)
Definition receive (kv : KVServer) (c : nat) : outcome (KVServer * DoneMsg) :=
  match heap kv !! c with
  | Some ch =>
      match buffer ch with
      | Some m => Ret (set_heap (<[c := mkChan None (closed ch)]> (heap kv)) kv, m)
      | None => if closed ch then Ret (kv, mkDoneMsg 0 0) else Block
      end
  | None => Block
  end.

(** [close(ch)]: panics on a closed channel. *)
Definition close (kv : KVServer) (c : nat) : outcome KVServer :=
  match heap kv !! c with
  | Some ch =>
      if closed ch then Panic
      else Ret (set_heap (<[c := mkChan (buffer ch) true]> (heap kv)) kv)
  | None => Panic
  end.

(** ** Applying operations *)

(** The first half of [dealWithApplyMsg]: the operation takes effect unless the
    client's record already covers it. *)
Definition applyOp (dup : gmap Z Z) (db : gmap string string) (operation : Op)
    : gmap Z Z * gmap string string :=
  let fresh :=
    match dup !! ClientID operation with
    | None => true
    | Some recorded => recorded <? CmdID operation
    end in
  if fresh then
    (<[ClientID operation := CmdID operation]> dup,
     if decide (CmdType operation = PUT) then <[Key operation := Val operation]> db
     else if decide (CmdType operation = APPEND) then
       <[Key operation := default "" (db !! Key operation) +:+ Val operation]> db
     else db)
  else (dup, db).

(** The encoding of the two maps is that of encoding/gob. *)
Section Server.
Context {GD : Gob (gmap string string)} {GM : Gob (gmap Z Z)}.

Definition encodeSnapshot (kv : KVServer) : bytes := Encode (Kvdb kv) ++ Encode (DupMap kv).

(** Both maps are made empty first, and a decoding error leaves them so. *)
Definition decodeSnapshot (snap : bytes) : gmap string string * gmap Z Z :=
  match Decode snap with
  | None => (∅, ∅)
  | Some (db, rest) => (db, match Decode rest with Some (dup, _) => dup | None => ∅ end)
  end.

(** [dealWithApplyMsg]; [stateSize] is what kv.rf.GetStateSize() returns.  The
    second result is the call of Compact the function starts. *)
Definition dealWithApplyMsg (kv : KVServer) (stateSize : Z) (m : ApplyMsg Op)
    : outcome (KVServer * option (Z * bytes)) :=
  match m with
  | CommandMsg CommandIndex None => Panic
  | CommandMsg CommandIndex (Some operation) =>
      let '(dup, db) := applyOp (DupMap kv) (Kvdb kv) operation in
      let kv1 := set_db dup db kv in
      let '(kv2, ch) := stubFor kv1 CommandIndex in
      kv3 ← send (drain kv2 ch) ch (mkDoneMsg (ClientID operation) (CmdID operation));
      if negb (maxraftstate kv3 =? -1) && (maxraftstate kv3 <=? stateSize) then
        Ret (kv3, Some (CommandIndex, encodeSnapshot kv3))
      else Ret (kv3, None)
  | SnapshotMsg snap =>
      let '(db, dup) := decodeSnapshot snap in
      Ret (set_db dup db kv, None)
  end.

(** [enactDaemon]: the messages of applyCh, in order. *)
Fixpoint enactDaemon (kv : KVServer) (sizes : nat -> Z) (ms : list (ApplyMsg Op))
    : outcome KVServer :=
  match ms with
  | [] => Ret kv
  | m :: ms' =>
      '(kv', _) ← dealWithApplyMsg kv (sizes (length ms')) m;
      enactDaemon kv' sizes ms'
  end.

End Server.

(** ** Client requests *)
Definition seenCmd (kv : KVServer) (clientID cmdID : Z) : bool :=
  match DupMap kv !! clientID with
  | Some lastCmd => cmdID <=? lastCmd
  | None => false
  end.

(** The critical section of [enterOperation] after Start accepted the operation
    at [raftIdx]. *)
Definition enterStub (kv : KVServer) (raftIdx : Z) : KVServer * nat := stubFor kv raftIdx.

(** The [select] of [enterOperation] when a message is received: the operation
    is done, or the message is put back. *)
Definition enterReceive (kv : KVServer) (doneCh : nat) (operation : Op)
    : outcome (KVServer * bool) :=
  '(kv1, doneMsg) ← receive kv doneCh;
  if (dm_ClientID doneMsg =? ClientID operation) && (dm_CmdID doneMsg =? CmdID operation) then
    kv2 ← close kv1 doneCh;
    Ret (kv2, true)
  else
    kv2 ← send kv1 doneCh doneMsg;
    Ret (kv2, false).

(** [delete(kv.applyStub, raftIdx)] *)
Definition enterDelete (kv : KVServer) (raftIdx : Z) : KVServer :=
  set_stub (delete raftIdx (applyStub kv)) kv.

(** [Get] up to [enterOperation]: the operation to enter, if any. *)
Definition getOp (args : GetArgs) : Op :=
  mkOp GET (ga_Key args) "" (ga_ClientID args) (ga_CmdID args).

Definition Get_enter (kv : KVServer) (isLeader : bool) (args : GetArgs) : bool * option Op :=
  let opDone := seenCmd kv (ga_ClientID args) (ga_CmdID args) in
  if negb opDone && isLeader then (opDone, Some (getOp args)) else (opDone, None).

(** [Get] after [enterOperation]. *)
Definition Get_reply (kv : KVServer) (isLeader opDone : bool) (args : GetArgs) : GetReply :=
  if opDone then
    match Kvdb kv !! ga_Key args with
    | Some val => mkGetReply (negb isLeader) OK val
    | None => mkGetReply (negb isLeader) ErrNoKey ""
    end
  else mkGetReply (negb isLeader) ErrFail "".

Definition putAppendOp (args : PutAppendArgs) : Op :=
  mkOp (if decide (pa_Op args = PUT) then PUT else APPEND) (pa_Key args) (pa_Value args)
    (pa_ClientID args) (pa_CmdID args).

Definition PutAppend_enter (kv : KVServer) (isLeader : bool) (args : PutAppendArgs)
    : bool * option Op :=
  let opDone := seenCmd kv (pa_ClientID args) (pa_CmdID args) in
  if negb opDone && isLeader then (opDone, Some (putAppendOp args)) else (opDone, None).

Definition PutAppend_reply (isLeader opDone : bool) : PutAppendReply :=
  mkPutAppendReply (negb isLeader) (if opDone then OK else ErrFail).
