(* ===== verification/KVFacts.v ===== *)
(** * Facts about the key/value server

    Duplicate detection against a reference semantics without it, snapshots,
    and the channels through which a request learns that its operation was
    applied. *)

From stdpp Require Import base list list_numbers gmap strings.
From S2P Require Import Prelude Gob RaftNode KVServer.
Open Scope Z_scope.

(** ** Duplicate detection *)

(** The effect of an operation on the map, duplicates not considered. *)
Definition effect_of (db : gmap string string) (o : Op) : gmap string string :=
  if decide (CmdType o = PUT) then <[Key o := Val o]> db
  else if decide (CmdType o = APPEND) then
    <[Key o := default "" (db !! Key o) +:+ Val o]> db
  else db.

Definition applyOps (st : gmap Z Z * gmap string string) (ops : list Op)
    : gmap Z Z * gmap string string :=
  foldl (fun st o => applyOp st.1 st.2 o) st ops.

(** Each request once: the operations whose (ClientID, CmdID) did not occur
    before. *)
Fixpoint first_occurrences (seen : list (Z * Z)) (ops : list Op) : list Op :=
  match ops with
  | [] => []
  | o :: ops' =>
      if decide ((ClientID o, CmdID o) ∈ seen) then first_occurrences seen ops'
      else o :: first_occurrences ((ClientID o, CmdID o) :: seen) ops'
  end.

(** Every client's requests enter the log in the order of their ids, retries of
    earlier requests apart: a clerk sends its next request after the previous
    one was answered. *)
Fixpoint client_order (seen : list (Z * Z)) (ops : list Op) : Prop :=
  match ops with
  | [] => True
  | o :: ops' =>
      ((ClientID o, CmdID o) ∈ seen \/
       forall k, (ClientID o, k) ∈ seen -> k < CmdID o) /\
      client_order ((ClientID o, CmdID o) :: seen) ops'
  end.

(** [dup] is the record of the requests in [seen]. *)
Definition records (dup : gmap Z Z) (seen : list (Z * Z)) : Prop :=
  forall c, match dup !! c with
  | Some m => (c, m) ∈ seen /\ forall k, (c, k) ∈ seen -> k <= m
  | None => forall k, (c, k) ∉ seen
  end.

Lemma applyOp_seen dup db seen o :
  records dup seen -> (ClientID o, CmdID o) ∈ seen -> applyOp dup db o = (dup, db).
Proof.
  intros Hr Hin. specialize (Hr (ClientID o)). unfold applyOp.
  destruct (dup !! ClientID o) as [m|]; [|by destruct (Hr (CmdID o))].
  destruct Hr as [_ Hr]. specialize (Hr _ Hin). by rewrite (proj2 (Z.ltb_ge _ _)).
Qed.

Lemma applyOp_fresh dup db seen o :
  records dup seen -> (forall k, (ClientID o, k) ∈ seen -> k < CmdID o) ->
  applyOp dup db o = (<[ClientID o := CmdID o]> dup, effect_of db o) /\
  records (<[ClientID o := CmdID o]> dup) ((ClientID o, CmdID o) :: seen).
Proof.
  intros Hr Hlt. split.
  - unfold applyOp. specialize (Hr (ClientID o)).
    destruct (dup !! ClientID o) as [m|]; [|done]. destruct Hr as [Hm _].
    by rewrite (proj2 (Z.ltb_lt _ _)) by auto.
  - intros c. destruct (decide (ClientID o = c)) as [<-|Hne].
    + rewrite lookup_insert_eq. split; [by left|]. intros k [?|Hk]%elem_of_cons; [simplify_eq; lia|].
      apply Hlt in Hk. lia.
    + rewrite lookup_insert_ne by done. specialize (Hr c). destruct (dup !! c) as [m|].
      * destruct Hr as [? Hr]. split; [by right|].
        intros k [?|Hk]%elem_of_cons; [simplify_eq|by apply Hr].
      * intros k [?|Hk]%elem_of_cons; [simplify_eq|by eapply Hr].
Qed.

Lemma records_again dup seen x : x ∈ seen -> records dup seen -> records dup (x :: seen).
Proof.
  intros Hx Hr c. specialize (Hr c). destruct (dup !! c) as [m|].
  - destruct Hr as [? Hr]. split; [by right|]. intros k [<-|Hk]%elem_of_cons; by apply Hr.
  - intros k [<-|Hk]%elem_of_cons; by eapply Hr.
Qed.

Lemma first_occurrences_ext seen seen' ops :
  (forall x, x ∈ seen <-> x ∈ seen') -> first_occurrences seen ops = first_occurrences seen' ops.
Proof.
  revert seen seen'. induction ops as [|o ops IH]; intros seen seen' H; [done|]. simpl.
  destruct (decide ((ClientID o, CmdID o) ∈ seen)) as [Hin|Hin].
  - rewrite decide_True by (by apply H). by apply IH.
  - rewrite decide_False by (by rewrite <- H). f_equal. apply IH. set_solver.
Qed.

Lemma applyOps_once dup db seen ops :
  records dup seen -> client_order seen ops ->
  (applyOps (dup, db) ops).2 = foldl effect_of db (first_occurrences seen ops).
Proof.
  revert dup db seen. induction ops as [|o ops IH]; intros dup db seen Hr Hcl; [done|].
  destruct Hcl as [Ho Hc]. simpl. destruct (decide ((ClientID o, CmdID o) ∈ seen)) as [Hin|Hin].
  - rewrite (applyOp_seen dup db seen o Hr Hin), (IH _ _ _ (records_again _ _ _ Hin Hr) Hc).
    f_equal. apply first_occurrences_ext. set_solver.
  - destruct Ho as [?|Ho]; [done|]. destruct (applyOp_fresh dup db seen o Hr Ho) as [-> Hr'].
    simpl. by apply IH.
Qed.

(** C25: exactly-once application.  When every client's requests enter the log in
    the order of their ids, with any number of retries anywhere in between, the
    map the server reaches is the one of a log in which every request occurs
    exactly once. *)
Theorem exactly_once ops :
  client_order [] ops ->
  (applyOps (∅, ∅) ops).2 = foldl effect_of ∅ (first_occurrences [] ops).
Proof. apply applyOps_once. intros c. rewrite lookup_empty. set_solver. Qed.

Lemma exactly_once_witness :
  (applyOps (∅, ∅) [mkOp APPEND "k" "x" 7 0; mkOp APPEND "k" "x" 7 0; mkOp APPEND "k" "y" 7 1;
                    mkOp APPEND "k" "x" 7 0]).2 !! "k"%string = Some "xy"%string.
Proof.
  rewrite (exactly_once [mkOp APPEND "k" "x" 7 0; mkOp APPEND "k" "x" 7 0; mkOp APPEND "k" "y" 7 1;
                    mkOp APPEND "k" "x" 7 0]); [vm_compute; reflexivity|].
  split; [right; intros k Hk; apply elem_of_nil in Hk; destruct Hk|].
  split; [left; apply (bool_decide_unpack _); vm_compute; exact Logic.I|].
  split; [right; intros k Hk; simpl in Hk|].
  - rewrite !elem_of_cons, elem_of_nil in Hk. naive_solver lia.
  - split; [left; apply (bool_decide_unpack _); vm_compute; exact Logic.I|exact Logic.I].
Defined.

(** ** Snapshots *)
Section Snapshots.
Context {GD : Gob (gmap string string)} {GM : Gob (gmap Z Z)}.

(** The replicated part of the state. *)
Definition data (kv : KVServer) : gmap Z Z * gmap string string := (DupMap kv, Kvdb kv).

(** What one message of applyCh does to it. *)
Definition data_step (st : gmap Z Z * gmap string string) (m : ApplyMsg Op)
    : gmap Z Z * gmap string string :=
  match m with
  | CommandMsg _ (Some o) => applyOp st.1 st.2 o
  | CommandMsg _ None => st
  | SnapshotMsg snap => let '(db, dup) := decodeSnapshot snap in (dup, db)
  end.

Lemma stubFor_data kv i : data (stubFor kv i).1 = data kv.
Proof. unfold stubFor. by case_match. Qed.

Lemma drain_data kv c : data (drain kv c) = data kv.
Proof. unfold drain. repeat case_match; done. Qed.

Lemma send_data kv c m kv' : send kv c m = Ret kv' -> data kv' = data kv.
Proof. unfold send. intros H. repeat case_match; by simplify_eq. Qed.

Lemma dealWith_data kv sz m kv' r :
  dealWithApplyMsg kv sz m = Ret (kv', r) -> data kv' = data_step (data kv) m.
Proof.
  destruct m as [i [o|]|snap]; simpl; [|done|].
  - destruct (applyOp (DupMap kv) (Kvdb kv) o) as [dup db] eqn:Ea.
    pose proof (stubFor_data (set_db dup db kv) i) as Hs.
    destruct (stubFor (set_db dup db kv) i) as [kv2 ch]. simpl in Hs. intros H.
    apply bind_Ret_inv in H as (kv3 & H3 & H). apply send_data in H3.
    rewrite drain_data, Hs in H3. case_match; injection H as <- _; by rewrite H3.
  - destruct (decodeSnapshot snap). intros. by simplify_eq.
Qed.

Lemma enact_data kv sizes ms kv' :
  enactDaemon kv sizes ms = Ret kv' -> data kv' = foldl data_step (data kv) ms.
Proof.
  revert kv. induction ms as [|m ms IH]; simpl; intros kv H; [by simplify_eq|].
  apply bind_Ret_inv in H as ([kv1 r] & H1 & H). rewrite (IH _ H).
  by rewrite (dealWith_data _ _ _ _ _ H1).
Qed.

Lemma decode_encodeSnapshot kv : decodeSnapshot (encodeSnapshot kv) = (Kvdb kv, DupMap kv).
Proof.
  unfold decodeSnapshot, encodeSnapshot. rewrite Decode_Encode. by rewrite Decode_Encode_nil.
Qed.

(** A server that receives the snapshot of another server has that server's map
    and duplicate record, whatever it had before. *)
Lemma snapshot_restores kv kv0 sz :
  dealWithApplyMsg kv sz (SnapshotMsg (encodeSnapshot kv0)) = Ret (set_db (DupMap kv0) (Kvdb kv0) kv, None).
Proof. simpl. by rewrite decode_encodeSnapshot. Qed.

Lemma encodeSnapshot_nonempty kv : ~ len (encodeSnapshot kv) < 1.
Proof.
  unfold encodeSnapshot, len. rewrite length_app. pose proof (Encode_nonempty (Kvdb kv)).
  destruct (Encode (Kvdb kv)); [done|]. simpl. lia.
Qed.

(** Snapshots are transparent.  A server that is handed the snapshot of a
    server that applied [ms1] and then applies [ms2] ends with the data of a
    server that applied [ms1] and [ms2] one by one. *)
Theorem snapshot_transparent kv0 kv1 kv2 kv3 kv4 sz1 sz3 sz4 ms1 ms2 :
  data kv0 = data kv4 ->
  enactDaemon kv0 sz1 ms1 = Ret kv1 ->
  enactDaemon kv2 sz3 (SnapshotMsg (encodeSnapshot kv1) :: ms2) = Ret kv3 ->
  forall kv5, enactDaemon kv4 sz4 (ms1 ++ ms2) = Ret kv5 -> data kv3 = data kv5.
Proof.
  intros E0 H1 H3 kv5 H5. rewrite (enact_data _ _ _ _ H3), (enact_data _ _ _ _ H5), foldl_app.
  rewrite <- E0, <- (enact_data _ _ _ _ H1). simpl. by rewrite decode_encodeSnapshot.
Qed.
End Snapshots.

(** The state a server reaches on given messages. *)
Definition served (kv : KVServer) (ms : list (ApplyMsg Op)) : KVServer :=
  match enactDaemon kv (fun _ => 0) ms with Ret kv' => kv' | _ => kv end.

Definition demo_put : ApplyMsg Op := CommandMsg 1 (Some (mkOp PUT "k" "x" 7 0)).
Definition demo_append : ApplyMsg Op := CommandMsg 2 (Some (mkOp APPEND "k" "y" 7 1)).

Lemma snapshot_transparent_witness :
  let snap := SnapshotMsg (encodeSnapshot (served (StartKVServer 0 100) [demo_put])) in
  data (served (StartKVServer 1 100) [snap; demo_append]) =
  data (served (StartKVServer 2 100) [demo_put; demo_append]).
Proof.
  apply (snapshot_transparent (StartKVServer 0 100) (served (StartKVServer 0 100) [demo_put])
    (StartKVServer 1 100) _ (StartKVServer 2 100) (fun _ => 0) (fun _ => 0) (fun _ => 0)
    [demo_put] [demo_append]); vm_compute; reflexivity.
Defined.
