(* ===== verification/KVChannels.v ===== *)
(** * Requests waiting for their operation: the channels of applyStub

    The interleavings of one server's goroutines: the apply loop, and any number
    of requests inside [enterOperation].  An acknowledged request was applied at
    the index Raft gave it; the apply loop never blocks on or panics at a
    channel; and two requests waiting at one index can crash the server. *)

From stdpp Require Import base list list_numbers gmap strings.
From S2P Require Import Prelude Gob RaftNode KVServer KVFacts.
Open Scope Z_scope.

(** A server with the requests in the [select] of enterOperation (index,
    channel, operation), those between [close] and [delete], and two records:
    what was applied and what was acknowledged, as (index, operation). *)
Record kvsys : Type := mkKvsys {
  ks_kv : KVServer;
  ks_wait : list (Z * nat * Op);
  ks_del : list Z;
  ks_hist : list (Z * Op);
  ks_acked : list (Z * Op)
}.

Inductive kvevent : Type :=
| KApply (i : Z) (o : Op)
| KSnapshot (snap : bytes)
| KEnter (i : Z) (o : Op)
| KReceive (k : nat)
| KTimeout (k : nat)
| KDelete (k : nat).

Section Channels.
Context {GD : Gob (gmap string string)} {GM : Gob (gmap Z Z)}.
Implicit Types ks : kvsys.

Definition kv_init (me maxraftstate : Z) : kvsys :=
  mkKvsys (StartKVServer me maxraftstate) [] [] [] [].

Definition kv_exec ks (e : kvevent) : outcome kvsys :=
  match e with
  | KApply i o =>
      '(kv, _) ← dealWithApplyMsg (ks_kv ks) 0 (CommandMsg i (Some o));
      Ret (mkKvsys kv (ks_wait ks) (ks_del ks) ((i, o) :: ks_hist ks) (ks_acked ks))
  | KSnapshot snap =>
      '(kv, _) ← dealWithApplyMsg (ks_kv ks) 0 (SnapshotMsg snap);
      Ret (mkKvsys kv (ks_wait ks) (ks_del ks) (ks_hist ks) (ks_acked ks))
  | KEnter i o =>
      let '(kv, c) := enterStub (ks_kv ks) i in
      Ret (mkKvsys kv ((i, c, o) :: ks_wait ks) (ks_del ks) (ks_hist ks) (ks_acked ks))
  | KReceive k =>
      match ks_wait ks !! k with
      | None => Block
      | Some (i, c, o) =>
          '(kv, ok) ← enterReceive (ks_kv ks) c o;
          let wait := delete k (ks_wait ks) in
          if ok : bool then Ret (mkKvsys kv wait (i :: ks_del ks) (ks_hist ks) ((i, o) :: ks_acked ks))
          else Ret (mkKvsys kv wait (ks_del ks) (ks_hist ks) (ks_acked ks))
      end
  | KTimeout k =>
      Ret (mkKvsys (ks_kv ks) (delete k (ks_wait ks)) (ks_del ks) (ks_hist ks) (ks_acked ks))
  | KDelete k =>
      match ks_del ks !! k with
      | None => Block
      | Some i => Ret (mkKvsys (enterDelete (ks_kv ks) i) (ks_wait ks) (delete k (ks_del ks))
                         (ks_hist ks) (ks_acked ks))
      end
  end.

Definition applied_at ks (i : Z) : Prop := i ∈ (ks_hist ks).*1.

(** What Raft and the clerks promise: an index is applied once per incarnation
    ([applied_in_order] of RaftApply.v), and client ids are not 0. *)
Definition kv_ok ks (e : kvevent) : Prop :=
  match e with
  | KApply i _ => ~ applied_at ks i
  | KEnter _ o => ClientID o <> 0
  | _ => True
  end.

Inductive kv_reach (me maxraftstate : Z) : kvsys -> Prop :=
| kv_reach_init : kv_reach me maxraftstate (kv_init me maxraftstate)
| kv_reach_step ks e ks' : kv_reach me maxraftstate ks -> kv_ok ks e ->
    kv_exec ks e = Ret ks' -> kv_reach me maxraftstate ks'.

(** ** The invariant *)

Definition same_id (o o' : Op) : Prop := ClientID o = ClientID o' /\ CmdID o = CmdID o'.
Definition done_of (o : Op) : DoneMsg := mkDoneMsg (ClientID o) (CmdID o).

(** A channel of index [i]: its message is the one of the operation applied at
    [i]; it is closed, and then empty, only after that. *)
Definition chan_ok (hist : list (Z * Op)) (i : Z) (ch : chan) : Prop :=
  (forall d, buffer ch = Some d -> exists o, (i, o) ∈ hist /\ d = done_of o) /\
  (closed ch = true -> buffer ch = None /\ i ∈ hist.*1).

(** [own] says for which index a channel was made. *)
Record kv_inv (own : gmap nat Z) ks : Prop := {
  ki_stub i c : applyStub (ks_kv ks) !! i = Some c -> own !! c = Some i;
  ki_heap c i : own !! c = Some i -> (c < nextChan (ks_kv ks))%nat /\
    exists ch, heap (ks_kv ks) !! c = Some ch /\ chan_ok (ks_hist ks) i ch;
  ki_wait i c o : (i, c, o) ∈ ks_wait ks -> own !! c = Some i /\ ClientID o <> 0;
  ki_acked i o : (i, o) ∈ ks_acked ks -> exists o', (i, o') ∈ ks_hist ks /\ same_id o o'
}.

Lemma chan_ok_hist hist x i ch : chan_ok hist i ch -> chan_ok (x :: hist) i ch.
Proof.
  intros [H1 H2]. split.
  - intros d Hd. destruct (H1 d Hd) as (o & ? & ?). exists o. split; [by right|done].
  - intros Hc. destruct (H2 Hc). split; [done|]. rewrite fmap_cons. by right.
Qed.

(** Replacing a channel of index [i]. *)
Lemma heap_update (own : gmap nat Z) hist (h : gmap nat chan) nc c i ch' :
  own !! c = Some i -> chan_ok hist i ch' ->
  (forall c i, own !! c = Some i -> (c < nc)%nat /\
     exists ch, h !! c = Some ch /\ chan_ok hist i ch) ->
  forall d j, own !! d = Some j -> (d < nc)%nat /\
    exists ch, <[c := ch']> h !! d = Some ch /\ chan_ok hist j ch.
Proof.
  intros Hc Hok H d j Hd. destruct (H d j Hd) as [? (ch & Hch & ?)]. split; [done|].
  destruct (decide (c = d)) as [->|]; [|rewrite lookup_insert_ne by done; eauto].
  rewrite lookup_insert_eq. simplify_eq. eauto.
Qed.

(** The channel of an index, made when there is none. *)
Lemma stubFor_inv own ks i kv c :
  kv_inv own ks -> stubFor (ks_kv ks) i = (kv, c) ->
  exists own', own' !! c = Some i /\
    kv_inv own' (mkKvsys kv (ks_wait ks) (ks_del ks) (ks_hist ks) (ks_acked ks)).
Proof.
  intros [] H. unfold stubFor in H. destruct (applyStub (ks_kv ks) !! i) as [c'|] eqn:E; simplify_eq.
  { exists own. split; [by apply ki_stub0|]. by split. }
  assert (Hnew : own !! nextChan (ks_kv ks) = None).
  { destruct (own !! nextChan (ks_kv ks)) as [j|] eqn:Eo; [|done]. apply ki_heap0 in Eo as [? _]. lia. }
  exists (<[nextChan (ks_kv ks) := i]> own). split; [apply lookup_insert_eq|].
  split; simpl; [| |intros j d o Hin; destruct (ki_wait0 j d o Hin); split; [|done]|done].
  - intros j d [[<- <-]|[? Hj]]%lookup_insert_Some; [apply lookup_insert_eq|].
    apply ki_stub0 in Hj. rewrite lookup_insert_ne; [done|]. congruence.
  - intros d j [[<- <-]|[? Hj]]%lookup_insert_Some.
    + split; [lia|]. exists (mkChan None false). split; [apply lookup_insert_eq|]. by split.
    + destruct (ki_heap0 d j Hj) as [? (ch & ? & ?)]. split; [lia|]. exists ch.
      by rewrite lookup_insert_ne.
  - rewrite lookup_insert_ne; [done|]. congruence.
Qed.

Lemma set_db_inv own ks dup db :
  kv_inv own ks -> kv_inv own (mkKvsys (set_db dup db (ks_kv ks)) (ks_wait ks) (ks_del ks)
    (ks_hist ks) (ks_acked ks)).
Proof. intros []. by split. Qed.

(** The apply loop finds an open channel for an index it has not applied, and
    leaves its message there. *)
Lemma apply_sends own ks i o :
  kv_inv own ks -> ~ applied_at ks i ->
  exists kv own' r, dealWithApplyMsg (ks_kv ks) 0 (CommandMsg i (Some o)) = Ret (kv, r) /\
    kv_inv own' (mkKvsys kv (ks_wait ks) (ks_del ks) ((i, o) :: ks_hist ks) (ks_acked ks)).
Proof.
  intros Hinv Hnew. simpl. destruct (applyOp _ _ o) as [dup db].
  pose proof (set_db_inv own ks dup db Hinv) as H1.
  destruct (stubFor (set_db dup db (ks_kv ks)) i) as [kv2 c] eqn:Es.
  destruct (stubFor_inv own _ i kv2 c H1 Es) as (own' & Hc & [Hst Hh Hw Ha]). simpl in *.
  destruct (Hh c i Hc) as [Hlt (ch & Hch & [Hb Hcl])].
  assert (closed ch = false) as Eop.
  { destruct (closed ch) eqn:E; [|done]. destruct (Hcl eq_refl). done. }
  assert (Hfin : forall kv', kv' = set_heap (<[c := mkChan (Some (done_of o)) false]> (heap kv2)) kv2 ->
    kv_inv own' (mkKvsys kv' (ks_wait ks) (ks_del ks) ((i, o) :: ks_hist ks) (ks_acked ks))).
  { intros kv' ->. split; simpl; try done.
    - eapply heap_update; [exact Hc| |].
      + split; [|done]. intros d Hd. simplify_eq/=. exists o. split; [by left|done].
      + intros d j Hd. destruct (Hh d j Hd) as [? (ch' & ? & ?)]. split; [done|]. exists ch'.
        split; [done|]. by apply chan_ok_hist.
    - intros j o' Hj. destruct (Ha j o' Hj) as (o'' & ? & ?). exists o''. split; [by right|done]. }
  unfold drain. rewrite Hch, Eop. unfold send. simpl. rewrite lookup_insert_eq. simpl.
  destruct (negb _ && _); (eexists _, own', _; split; [reflexivity|]);
    apply Hfin; unfold set_heap; simpl; by rewrite insert_insert_eq.
Qed.

(** A request that receives a message: acknowledged only if it is its own. *)
Lemma receive_inv own ks k i c o kv ok :
  kv_inv own ks -> ks_wait ks !! k = Some (i, c, o) ->
  enterReceive (ks_kv ks) c o = Ret (kv, ok) ->
  kv_inv own (mkKvsys kv (delete k (ks_wait ks)) (ks_del ks) (ks_hist ks) (ks_acked ks)) /\
  (ok = true -> exists o', (i, o') ∈ ks_hist ks /\ same_id o o').
Proof.
  intros [] Hk H. destruct (ki_wait0 i c o) as [Hc Hid]; [by eapply list_elem_of_lookup_2|].
  destruct (ki_heap0 c i Hc) as [Hlt (ch & Hch & Hok)]. unfold enterReceive, receive in H.
  assert (Hwait : forall j d p, (j, d, p) ∈ delete k (ks_wait ks) -> own !! d = Some j /\ ClientID p <> 0).
  { intros j d p Hin. by eapply ki_wait0, delete_elem. }
  rewrite Hch in H. destruct (buffer ch) as [d|] eqn:Hb; simpl in H.
  2:{ destruct (closed ch) eqn:Hcl; simpl in H; [|done].
      destruct (ClientID o); [done|..]; simpl in H; unfold send in H; by rewrite Hch, Hcl in H. }
  destruct Hok as [Hbuf Hcl]. assert (closed ch = false) as Eop.
  { destruct (closed ch) eqn:E; [|done]. destruct (Hcl eq_refl). congruence. }
  destruct (Hbuf d Hb) as (o' & Ho' & ->). rewrite Eop in H.
  destruct ((dm_ClientID (done_of o') =? ClientID o) && (dm_CmdID (done_of o') =? CmdID o)) eqn:Em;
    apply bind_Ret_inv in H as (kv2 & H2 & H); simplify_eq;
    [unfold close in H2|unfold send in H2]; simpl in H2; rewrite lookup_insert_eq in H2;
    simpl in H2; simplify_eq; rewrite insert_insert_eq.
  - zbool. split; [|intros _; exists o'; by split].
    split; simpl; try done. eapply heap_update; [exact Hc| |done].
    split; [done|]. intros _. split; [done|]. apply list_elem_of_fmap. by exists (i, o').
  - split; [|done]. split; simpl; try done. eapply heap_update; [exact Hc| |done].
    split; [|done]. intros d Hd. simplify_eq/=. by exists o'.
Qed.

Lemma kv_reach_inv me mx ks : kv_reach me mx ks -> exists own, kv_inv own ks.
Proof.
  induction 1 as [|ks e ks' Hr [own IH] Hok He].
  { exists ∅. split; simpl; intros; set_solver. }
  destruct e as [i o|snap|i o|k|k|k]; unfold kv_exec in He.
  - destruct (apply_sends own ks i o IH Hok) as (kv & own' & r & E & H). rewrite E in He.
    simpl in He. simplify_eq. eauto.
  - simpl in He. destruct (decodeSnapshot snap). simpl in He. simplify_eq. exists own.
    by apply set_db_inv.
  - unfold enterStub in He. destruct (stubFor (ks_kv ks) i) as [kv c] eqn:Es. simplify_eq.
    destruct (stubFor_inv own ks i kv c IH Es) as (own' & Hc & []). exists own'.
    split; simpl in *; try done. intros j d p [?|Hin]%elem_of_cons; [by simplify_eq|by apply ki_wait0].
  - destruct (ks_wait ks !! k) as [[[i c] o]|] eqn:Hk; [|done].
    apply bind_Ret_inv in He as ([kv ok] & E & He).
    destruct (receive_inv own ks k i c o kv ok IH Hk E) as [[] Hack]. exists own.
    destruct ok; simplify_eq; split; simpl in *; try done.
    intros j p [?|Hin]%elem_of_cons; [simplify_eq; by apply Hack|by apply ki_acked0].
  - simplify_eq. exists own. destruct IH. split; simpl; try done.
    intros i c o Hin. by eapply ki_wait0, delete_elem.
  - destruct (ks_del ks !! k) as [i|]; [|done]. simplify_eq. exists own. destruct IH.
    split; simpl; try done. intros j c [_ Hj]%lookup_delete_Some. by apply ki_stub0.
Qed.

(** C26: acknowledged requests were applied.  A request to which enterOperation
    answers true was applied, at the index Start returned for it, by the server
    that answers, in every interleaving of the server's goroutines. *)
Theorem acknowledged_was_applied me mx ks i o :
  kv_reach me mx ks -> (i, o) ∈ ks_acked ks ->
  exists o', (i, o') ∈ ks_hist ks /\ same_id o o'.
Proof. intros Hr Ha. destruct (kv_reach_inv me mx ks Hr) as [own []]. by apply ki_acked0. Qed.

(** C27: the apply loop does not block.  For an index the server has not applied
    before, dealWithApplyMsg returns: its channel is neither closed nor full. *)
Theorem apply_never_blocks me mx ks i o :
  kv_reach me mx ks -> ~ applied_at ks i ->
  exists kv r, dealWithApplyMsg (ks_kv ks) 0 (CommandMsg i (Some o)) = Ret (kv, r).
Proof.
  intros Hr Hi. destruct (kv_reach_inv me mx ks Hr) as [own Hinv].
  destruct (apply_sends own ks i o Hinv Hi) as (kv & _ & r & H & _). eauto.
Qed.

(** ** Runs *)
Definition kv_okb ks (e : kvevent) : bool :=
  match e with
  | KApply i _ => negb (bool_decide (i ∈ (ks_hist ks).*1))
  | KEnter _ o => negb (ClientID o =? 0)
  | _ => true
  end.

Fixpoint kv_run ks (evs : list kvevent) : outcome kvsys :=
  match evs with
  | [] => Ret ks
  | e :: evs' => if kv_okb ks e then ks' ← kv_exec ks e; kv_run ks' evs' else Block
  end.

Lemma kv_run_reach me mx ks evs ks' :
  kv_reach me mx ks -> kv_run ks evs = Ret ks' -> kv_reach me mx ks'.
Proof.
  revert ks. induction evs as [|e evs IH]; simpl; intros ks Hr H; [by simplify_eq|].
  destruct (kv_okb ks e) eqn:Hok; [|done]. apply bind_Ret_inv in H as (ks1 & H1 & H).
  eapply IH; [|exact H]. eapply kv_reach_step; [exact Hr| |exact H1].
  destruct e; simpl in *; try done; zbool; [by apply bool_decide_eq_false in Hok|done].
Qed.

(** The state after a run, or the initial state when it does not end. *)
Definition kv_ran (me mx : Z) (evs : list kvevent) : kvsys :=
  match kv_run (kv_init me mx) evs with Ret ks => ks | _ => kv_init me mx end.

Lemma kv_ran_reach me mx evs : kv_reach me mx (kv_ran me mx evs).
Proof.
  unfold kv_ran. destruct (kv_run _ _) eqn:E; try apply kv_reach_init.
  eapply kv_run_reach; [apply kv_reach_init|exact E].
Qed.
End Channels.

(** Two requests at index 5, of which the second was applied and acknowledged. *)
Definition waiter_a : Op := mkOp PUT "k" "a" 7 3.
Definition waiter_b : Op := mkOp PUT "k" "b" 8 3.
Definition two_waiters : kvsys :=
  kv_ran 0 (-1) [KEnter 5 waiter_a; KEnter 5 waiter_b; KApply 5 waiter_b; KReceive 0].

Lemma acknowledged_was_applied_witness :
  (5, waiter_b) ∈ ks_acked two_waiters /\
  exists o', (5, o') ∈ ks_hist two_waiters /\ same_id waiter_b o'.
Proof.
  assert (H : (5, waiter_b) ∈ ks_acked two_waiters)
    by (apply (bool_decide_unpack _); vm_compute; exact Logic.I).
  exact (conj H (acknowledged_was_applied 0 (-1) two_waiters 5 waiter_b
    (kv_ran_reach 0 (-1) _) H)).
Defined.

Lemma apply_never_blocks_witness :
  exists kv r, dealWithApplyMsg (ks_kv two_waiters) 0 (CommandMsg 6 (Some waiter_a)) = Ret (kv, r).
Proof.
  apply (apply_never_blocks 0 (-1) two_waiters 6 waiter_a); [apply kv_ran_reach|unfold applied_at].
  apply (bool_decide_unpack _). vm_compute. exact Logic.I.
Defined.

(** C28: two requests at one index can crash the server.  When a leader's log is
    cut and grows back while a request waits, two requests wait on one channel;
    the one whose operation is applied closes it, and the other then receives
    the zero message and sends it on the closed channel, which panics. *)
Theorem two_waiters_panic :
  exists ks, kv_reach 0 (-1) ks /\
    (exists i c, ks_wait ks !! 0%nat = Some (i, c, waiter_a) /\ (i, waiter_b) ∈ ks_acked ks) /\
    kv_exec ks (KReceive 0) = Panic.
Proof.
  exists two_waiters. split; [apply kv_ran_reach|]. split; [|vm_compute; reflexivity].
  exists 5, 0%nat. split; [vm_compute; reflexivity|].
  apply (bool_decide_unpack _). vm_compute. exact Logic.I.
Qed.
