(* ===== verification/KVClient.v ===== *)
(** * The clerk: kvraft/client.go

    A clerk sends a request to the servers in turn until one answers it.  The
    network and the servers are the function [net]: the reply to the attempt
    number [t] at a server, [None] when the call fails. *)

From stdpp Require Import base list list_numbers gmap strings.
From S2P Require Import Prelude Gob RaftNode KVServer.
Open Scope Z_scope.

Definition uint64 (x : Z) : Z := x mod 2 ^ 64.

(** [servers] is len(ck.servers). *)
Record Clerk : Type := mkClerk { servers : Z; leadId : Z; clientID : Z; nextSeq : Z }.

(** [nrand] is a random number of 62 bits, the argument [r]. *)
Definition nrand (r : Z) : Z := r mod 2 ^ 62.
Definition MakeClerk (nservers r : Z) : Clerk := mkClerk nservers 0 (uint64 (nrand r)) 0.

Definition set_leadId (v : Z) (ck : Clerk) : Clerk :=
  mkClerk (servers ck) v (clientID ck) (nextSeq ck).

(** [cmdSeq := ck.nextSeq; ck.nextSeq++] *)
Definition takeSeq (ck : Clerk) : Clerk * Z :=
  (mkClerk (servers ck) (leadId ck) (clientID ck) (uint64 (nextSeq ck + 1)), nextSeq ck).

(** [ck.servers[ck.leadId]] *)
Definition target (ck : Clerk) : outcome Z :=
  if decide (0 <= leadId ck < servers ck) then Ret (leadId ck) else Panic.

(** [ck.leadId = (ck.leadId+1) % len(ck.servers)] *)
Definition nextServer (ck : Clerk) : Clerk :=
  set_leadId (Z.rem (leadId ck + 1) (servers ck)) ck.

(** What a run of the loop of [Get] or [PutAppend] yields: the clerk, the
    calls made, as (server, arguments), and the result; no result when the fuel,
    the number of attempts considered, runs out. *)
Record loopResult (A R : Type) : Type := mkLoopResult {
  lr_clerk : Clerk; lr_calls : list (Z * A); lr_result : option R
}.
Arguments mkLoopResult {A R} _ _ _.
Arguments lr_clerk {A R} _.
Arguments lr_calls {A R} _.
Arguments lr_result {A R} _.

Fixpoint Get_loop (fuel : nat) (net : nat -> Z -> option GetReply) (t : nat) (ck : Clerk)
    (args : GetArgs) : outcome (loopResult GetArgs string) :=
  match fuel with
  | O => Ret (mkLoopResult ck [] None)
  | S fuel' =>
      i ← target ck;
      let ok := net t i in
      let again ck' :=
        r ← Get_loop fuel' net (S t) ck' args;
        Ret (mkLoopResult (lr_clerk r) ((i, args) :: lr_calls r) (lr_result r)) in
      match ok with
      | Some reply =>
          if decide (gr_Err reply = OK) then
            Ret (mkLoopResult ck [(i, args)] (Some (gr_Value reply)))
          else if decide (gr_Err reply = ErrNoKey) then
            Ret (mkLoopResult ck [(i, args)] (Some ""%string))
          else if gr_WrongLeader reply then again (nextServer ck)
          else again ck
      | None => again (nextServer ck)
      end
  end.

Definition ck_Get (fuel : nat) (net : nat -> Z -> option GetReply) (ck : Clerk) (key : string)
    : outcome (loopResult GetArgs string) :=
  let '(ck1, cmdSeq) := takeSeq ck in
  Get_loop fuel net 0 ck1 (mkGetArgs key (clientID ck1) cmdSeq).

Fixpoint PutAppend_loop (fuel : nat) (net : nat -> Z -> option PutAppendReply) (t : nat)
    (ck : Clerk) (args : PutAppendArgs) : outcome (loopResult PutAppendArgs unit) :=
  match fuel with
  | O => Ret (mkLoopResult ck [] None)
  | S fuel' =>
      i ← target ck;
      let again ck' :=
        r ← PutAppend_loop fuel' net (S t) ck' args;
        Ret (mkLoopResult (lr_clerk r) ((i, args) :: lr_calls r) (lr_result r)) in
      match net t i with
      | Some reply =>
          if decide (par_Err reply = OK) then Ret (mkLoopResult ck [(i, args)] (Some ()))
          else if par_WrongLeader reply then again (nextServer ck)
          else again ck
      | None => again (nextServer ck)
      end
  end.

Definition ck_PutAppend (fuel : nat) (net : nat -> Z -> option PutAppendReply) (ck : Clerk)
    (key value op : string) : outcome (loopResult PutAppendArgs unit) :=
  let '(ck1, cmdSeq) := takeSeq ck in
  PutAppend_loop fuel net 0 ck1 (mkPutAppendArgs key value op (clientID ck1) cmdSeq).

Definition ck_Put fuel net ck key value := ck_PutAppend fuel net ck key value "Put".
Definition ck_Append fuel net ck key value := ck_PutAppend fuel net ck key value "Append".

(** ** Properties *)
Definition clerk_ok (ck : Clerk) : Prop := 0 <= leadId ck < servers ck.

Lemma nextServer_ok ck : clerk_ok ck -> clerk_ok (nextServer ck).
Proof.
  unfold clerk_ok. simpl. intros. rewrite Z.rem_mod_nonneg by lia.
  apply Z.mod_pos_bound. lia.
Qed.

Lemma target_ok ck : clerk_ok ck -> target ck = Ret (leadId ck).
Proof. intros. unfold target. by rewrite decide_True. Qed.

(** The loop never panics, repeats one request unchanged and leaves the clerk's
    identity alone. *)
Lemma PutAppend_loop_spec fuel net t ck args :
  clerk_ok ck -> exists r, PutAppend_loop fuel net t ck args = Ret r /\
    clerk_ok (lr_clerk r) /\ servers (lr_clerk r) = servers ck /\
    clientID (lr_clerk r) = clientID ck /\ nextSeq (lr_clerk r) = nextSeq ck /\
    Forall (fun c => 0 <= c.1 < servers ck /\ c.2 = args) (lr_calls r) /\
    (lr_result r = Some () -> exists u i reply, net u i = Some reply /\ par_Err reply = OK).
Proof.
  revert t ck. induction fuel as [|fuel IH]; intros t ck Hck; simpl.
  { eexists. split; [done|]. by split_and!. }
  rewrite (target_ok ck Hck). simpl.
  assert (Hagain : forall ck', clerk_ok ck' -> servers ck' = servers ck ->
    clientID ck' = clientID ck -> nextSeq ck' = nextSeq ck ->
    exists r, (r ← PutAppend_loop fuel net (S t) ck' args;
       Ret (mkLoopResult (lr_clerk r) ((leadId ck, args) :: lr_calls r) (lr_result r))) = Ret r /\
    clerk_ok (lr_clerk r) /\ servers (lr_clerk r) = servers ck /\
    clientID (lr_clerk r) = clientID ck /\ nextSeq (lr_clerk r) = nextSeq ck /\
    Forall (fun c => 0 <= c.1 < servers ck /\ c.2 = args) (lr_calls r) /\
    (lr_result r = Some () -> exists u i reply, net u i = Some reply /\ par_Err reply = OK)).
  { intros ck' H1 H2 H3 H4. destruct (IH (S t) ck' H1) as (r & -> & ? & ? & ? & ? & Hf & ?).
    rewrite H2 in Hf. simpl. eexists. split; [done|]. simpl. split_and!; try done; try congruence.
    constructor; [by split|done]. }
  pose proof (nextServer_ok ck Hck).
  destruct (net t (leadId ck)) as [reply|] eqn:Hn; [|by apply Hagain].
  case_decide as Ho; [|destruct (par_WrongLeader reply); by apply Hagain].
  eexists. split; [done|]. simpl. split_and!; try done.
  - constructor; [by split|constructor].
  - intros _. eauto.
Qed.

(** A clerk's request is one request.  Put and Append (and retries of them)
    never panic; every call they make carries the same ClientID and CmdID and
    goes to an existing server, so that retries are recognised; the CmdID of the
    next request is the next one; and they return only after some server
    answered OK. *)
Theorem putappend_retries_one_request fuel net ck key value op :
  clerk_ok ck ->
  exists r, ck_PutAppend fuel net ck key value op = Ret r /\
    clerk_ok (lr_clerk r) /\ clientID (lr_clerk r) = clientID ck /\
    nextSeq (lr_clerk r) = uint64 (nextSeq ck + 1) /\
    Forall (fun c => 0 <= c.1 < servers ck /\
      c.2 = mkPutAppendArgs key value op (clientID ck) (nextSeq ck)) (lr_calls r) /\
    (lr_result r = Some () -> exists u i reply, net u i = Some reply /\ par_Err reply = OK).
Proof.
  intros Hck. unfold ck_PutAppend. simpl.
  destruct (PutAppend_loop_spec fuel net 0
    (mkClerk (servers ck) (leadId ck) (clientID ck) (uint64 (nextSeq ck + 1)))
    (mkPutAppendArgs key value op (clientID ck) (nextSeq ck)) Hck)
    as (r & -> & ? & ? & ? & ? & ? & ?).
  exists r. by split_and!.
Qed.

(** ** Finding the leader *)

(** Server [i + d] in the rotation. *)
Definition rotate (m i : Z) (d : nat) : Z := (i + Z.of_nat d) mod m.

(** A reply that ends the loop of [Get], and what it returns. *)
Definition decisive (r : option GetReply) : option string :=
  match r with
  | Some reply =>
      if decide (gr_Err reply = OK) then Some (gr_Value reply)
      else if decide (gr_Err reply = ErrNoKey) then Some ""%string else None
  | None => None
  end.

(** A reply, or a failed call, after which the clerk turns to the next server. *)
Definition turns (r : option GetReply) : Prop :=
  match r with
  | Some reply => gr_Err reply = ErrFail /\ gr_WrongLeader reply = true
  | None => True
  end.

Lemma rotate_S m i d : 0 <= i < m -> rotate m (Z.rem (i + 1) m) d = rotate m i (S d).
Proof.
  intros Hi. unfold rotate. rewrite Z.rem_mod_nonneg by lia. rewrite Zplus_mod_idemp_l. f_equal. lia.
Qed.

Lemma Get_loop_finds fuel net t ck args d v :
  clerk_ok ck -> (d < fuel)%nat ->
  (forall k, (k < d)%nat -> turns (net (t + k)%nat (rotate (servers ck) (leadId ck) k))) ->
  decisive (net (t + d)%nat (rotate (servers ck) (leadId ck) d)) = Some v ->
  exists r, Get_loop fuel net t ck args = Ret r /\ lr_result r = Some v /\
    length (lr_calls r) = S d /\ leadId (lr_clerk r) = rotate (servers ck) (leadId ck) d.
Proof.
  revert t ck d. induction fuel as [|fuel IH]; intros t ck d Hck Hd Hturn Hdec; [lia|].
  simpl. rewrite (target_ok ck Hck). simpl.
  assert (Hrot : rotate (servers ck) (leadId ck) 0 = leadId ck).
  { unfold rotate. rewrite Z.add_0_r. by apply Z.mod_small. }
  destruct d as [|d].
  - rewrite Nat.add_0_r, Hrot in Hdec. rewrite Hrot. destruct (net t (leadId ck)) as [reply|]; [|done].
    simpl in Hdec. case_decide; [by simplify_eq; eauto|]. case_decide; [by simplify_eq; eauto|done].
  - pose proof (Hturn 0%nat ltac:(lia)) as H0. rewrite Nat.add_0_r, Hrot in H0.
    destruct (IH (S t) (nextServer ck) d) as (r & Hr & Hv & Hl & Hld).
    + by apply nextServer_ok.
    + lia.
    + intros k Hk. simpl. rewrite rotate_S by done. specialize (Hturn (S k) ltac:(lia)).
      by rewrite Nat.add_succ_r in Hturn.
    + simpl. rewrite rotate_S by done. by rewrite Nat.add_succ_r in Hdec.
    + simpl in Hld. rewrite rotate_S in Hld by done.
      destruct (net t (leadId ck)) as [reply|]; rewrite Hr; simpl.
      * destruct H0 as [E1 E2]. rewrite E1, E2. simpl. eexists. split; [done|]. simpl. by rewrite Hl.
      * eexists. split; [done|]. simpl. by rewrite Hl.
Qed.

(** C30: a clerk finds the leader.  If the servers before the [d]-th in the
    rotation fail or say that they are not the leader, and the [d]-th answers,
    then Get returns that answer after exactly [d]+1 calls and remembers the
    server; with one responsive server among [n] at most [n] calls are needed. *)
Theorem get_finds_leader fuel net ck key d v :
  clerk_ok ck -> (d < fuel)%nat ->
  (forall k, (k < d)%nat -> turns (net k (rotate (servers ck) (leadId ck) k))) ->
  decisive (net d (rotate (servers ck) (leadId ck) d)) = Some v ->
  exists r, ck_Get fuel net ck key = Ret r /\ lr_result r = Some v /\
    length (lr_calls r) = S d /\ leadId (lr_clerk r) = rotate (servers ck) (leadId ck) d.
Proof.
  intros. unfold ck_Get. simpl.
  by apply (Get_loop_finds fuel net 0
    (mkClerk (servers ck) (leadId ck) (clientID ck) (uint64 (nextSeq ck + 1)))).
Qed.

Lemma putappend_retries_one_request_witness :
  exists r, ck_Put 5 (fun t i => if (i =? 2)%Z then Some (mkPutAppendReply false OK) else None)
    (MakeClerk 3 77) "k" "v" = Ret r /\ lr_result r = Some () /\ nextSeq (lr_clerk r) = 1.
Proof.
  destruct (putappend_retries_one_request 5
    (fun t i => if (i =? 2)%Z then Some (mkPutAppendReply false OK) else None)
    (MakeClerk 3 77) "k" "v" "Put") as (r & E & _ & _ & H & _); [vm_compute; split; congruence|].
  exists r. split; [exact E|]. split; [|exact H].
  vm_compute in E. injection E as <-. reflexivity.
Defined.

Lemma get_finds_leader_witness :
  exists r, ck_Get 3 (fun t i => if (i =? 2)%Z then Some (mkGetReply false OK "v")
                                else Some (mkGetReply true ErrFail "")) (MakeClerk 3 77) "k" = Ret r /\
    lr_result r = Some "v"%string.
Proof.
  destruct (get_finds_leader 3 (fun t i => if (i =? 2)%Z then Some (mkGetReply false OK "v")
    else Some (mkGetReply true ErrFail "")) (MakeClerk 3 77) "k" 2 "v") as (r & E & H & _).
  - vm_compute. split; congruence.
  - lia.
  - intros k Hk. destruct k as [|[|k]]; [vm_compute; split; reflexivity..|lia].
  - vm_compute. reflexivity.
  - exists r. split; [exact E|exact H].
Defined.
