(* ===== verification/KVCluster.v ===== *)
(** * The key/value service on top of the Raft cluster

    A replica's data is what its apply loop makes of the messages on its
    applyCh.  Replicas that have applied equally much hold the same data, unless
    a snapshot notification is overtaken by the commands after it. *)

From stdpp Require Import base functions list list_numbers gmap strings relations sorting.
From S2P Require Import Prelude Gob RaftNode RaftNodeFacts RaftSpec RaftSystem RaftRefine RaftLead RaftSim RaftSafety RaftApply RaftTrace RaftOrigin KVServer KVFacts.
Open Scope Z_scope.

(** ** Replicas *)
Section Sent.
Context {Cmd : Type} `{GC : Gob Cmd} (n : Z).
Implicit Types s : sys Cmd.

(** The commands on an applyCh with their indices. *)
Definition command_of (m : ApplyMsg Cmd) : option (Z * option Cmd) :=
  match m with CommandMsg i c => Some (i, c) | SnapshotMsg _ => None end.
Definition commands (ms : list (ApplyMsg Cmd)) : list (Z * option Cmd) := omap command_of ms.

Lemma commands_indices ms : (commands ms).*1 = indices ms.
Proof.
  induction ms as [|[i c|] ms IH]; [done| |exact IH]. simpl. f_equal. exact IH.
Qed.

Lemma commands_elem ms i c : (i, c) ∈ commands ms <-> CommandMsg i c ∈ ms.
Proof.
  unfold commands. rewrite list_elem_of_omap. split.
  - intros ([j d|] & Hm & E); simpl in E; by simplify_eq.
  - intros Hm. by exists (CommandMsg i c).
Qed.

(** Two gap-free lists of numbered commands that agree index by index. *)
Lemma numbered_prefix {A} (p q : list (Z * A)) m1 m2 :
  p.*1 = seqZ 1 m1 -> q.*1 = seqZ 1 m2 -> m1 <= m2 ->
  (forall i c d, (i, c) ∈ p -> (i, d) ∈ q -> c = d) -> p `prefix_of` q.
Proof.
  intros Hp Hq Hm Hag. assert (p = take (length p) q) as ->; [|apply take_prefix].
  assert (Hlp : length p = Z.to_nat m1) by (rewrite <- (length_fmap fst), Hp; apply length_seqZ).
  assert (Hlq : length q = Z.to_nat m2) by (rewrite <- (length_fmap fst), Hq; apply length_seqZ).
  apply list_eq. intros k. destruct (decide (k < length p)%nat) as [Hk|Hk].
  2:{ rewrite !lookup_ge_None_2; [done| |lia]. rewrite length_take. lia. }
  rewrite lookup_take_lt by done.
  destruct (lookup_lt_is_Some_2 p k Hk) as [[i c] Hc].
  destruct (lookup_lt_is_Some_2 q k ltac:(lia)) as [[j d] Hd]. rewrite Hc, Hd.
  assert (i = 1 + Z.of_nat k).
  { pose proof (f_equal (fun l => l !! k) Hp) as E. rewrite list_lookup_fmap, Hc in E.
    simpl in E. rewrite lookup_seqZ_lt in E by lia. naive_solver. }
  assert (j = 1 + Z.of_nat k).
  { pose proof (f_equal (fun l => l !! k) Hq) as E. rewrite list_lookup_fmap, Hd in E.
    simpl in E. rewrite lookup_seqZ_lt in E by lia. naive_solver. }
  subst i j. do 2 f_equal. eapply Hag; by eapply list_elem_of_lookup_2.
Qed.

Lemma replica_commands s i j :
  reach n no_compaction s -> 0 <= i < n -> 0 <= j < n ->
  lastApplied (raft_of s i) <= lastApplied (raft_of s j) ->
  commands (nd_applyCh (sys_nodes s i)) `prefix_of` commands (nd_applyCh (sys_nodes s j)).
Proof.
  intros Hr Hi Hj Hle. assert (Hr' : reachable n s) by (by eapply reach_weaken; [|exact Hr]).
  assert (Hgap : forall k, 0 <= k < n ->
    indices (nd_applyCh (sys_nodes s k)) = seqZ 1 (lastApplied (raft_of s k))).
  { intros k Hk. destruct (reach_applied n s Hr' k) as [_ _ _ _ Hg].
    apply Hg. by apply (reach_no_compaction_snap n). }
  eapply numbered_prefix; [rewrite commands_indices; by apply Hgap..|exact Hle|].
  intros idx c d Hc%commands_elem Hd%commands_elem.
  eapply (safe_logs_agree n s); [by apply no_compaction_no_overshoot|..];
    by eapply (reach_sent_logged n no_compaction).
Qed.

(** Replicas apply the same commands.  Without compaction, the commands a
    replica has applied are a prefix of those of any replica that has applied at
    least as many, in every execution. *)
Theorem replicas_prefix s i j :
  reach n no_compaction s -> 0 <= i < n -> 0 <= j < n ->
  lastApplied (raft_of s i) <= lastApplied (raft_of s j) ->
  commands (nd_applyCh (sys_nodes s i)) `prefix_of` commands (nd_applyCh (sys_nodes s j)).
Proof. apply replica_commands. Qed.
End Sent.

(** ** The data of a replica *)
Section Data.
Context {GD : Gob (gmap string string)} {GM : Gob (gmap Z Z)} (n : Z).

Lemma data_commands st ms :
  Forall (fun m => is_command m = true) ms ->
  foldl data_step st ms =
  foldl (fun st c => match c.2 with Some o => applyOp st.1 st.2 o | None => st end) st (commands ms).
Proof.
  intros H. revert st. induction H as [|[i c|] ms Hm _ IH]; intros st; [done| |done].
  cbn [foldl data_step commands omap list_omap command_of]. rewrite IH. by destruct c.
Qed.

(** Replicas agree.  Two servers of a cluster whose log was never compacted,
    each having processed every message of its peer's applyCh, hold the same map
    and the same duplicate record whenever their peers have applied equally
    many commands. *)
Theorem replicas_agree (s : sys Op) i j ki kj kvi kvj szi szj :
  reach n no_compaction s -> 0 <= i < n -> 0 <= j < n ->
  lastApplied (raft_of s i) = lastApplied (raft_of s j) ->
  data ki = data kj ->
  enactDaemon ki szi (nd_applyCh (sys_nodes s i)) = Ret kvi ->
  enactDaemon kj szj (nd_applyCh (sys_nodes s j)) = Ret kvj ->
  data kvi = data kvj.
Proof.
  intros Hr Hi Hj Hl E0 Ei Ej. pose proof (pl_sent _ _ (reach_all_plain n s Hr)) as Hc.
  rewrite (enact_data _ _ _ _ Ei), (enact_data _ _ _ _ Ej), E0, !data_commands by done.
  f_equal. pose proof (replica_commands n s i j Hr Hi Hj ltac:(lia)) as H1.
  pose proof (replica_commands n s j i Hr Hj Hi ltac:(lia)) as H2.
  apply prefix_length_eq; [done|]. by apply prefix_length.
Qed.
End Data.

(** ** Executions of the service *)
Definition put_a : Op := mkOp PUT "k" "a" 7 0.
Definition append_b : Op := mkOp APPEND "k" "b" 7 1.

Definition kv_demo_events : list (event Op) :=
  [EvTimeout 1; EvDeliver 0; EvReply 0; EvStart 1 put_a; EvSync 1 0; EvDeliver 1; EvReply 1;
   EvWake 1; EvApply 1; EvSync 1 0; EvDeliver 1; EvReply 1; EvWake 0; EvApply 0].

Definition kv_demo : sys Op := ran 3 (fun _ e => negb (compactsb e)) kv_demo_events.

Lemma kv_demo_no_compaction : reach 3 no_compaction kv_demo.
Proof. apply ran_reach. intros s e H Hc. by destruct e. Qed.

Lemma replicas_prefix_witness :
  commands (nd_applyCh (sys_nodes kv_demo 2)) `prefix_of` commands (nd_applyCh (sys_nodes kv_demo 1)).
Proof.
  apply (replicas_prefix 3 kv_demo 2 1 kv_demo_no_compaction); try lia. vm_compute. discriminate.
Defined.

Lemma replicas_agree_witness :
  data (served (StartKVServer 0 (-1)) (nd_applyCh (sys_nodes kv_demo 0))) =
  data (served (StartKVServer 1 (-1)) (nd_applyCh (sys_nodes kv_demo 1))).
Proof.
  apply (replicas_agree 3 kv_demo 0 1 (StartKVServer 0 (-1)) (StartKVServer 1 (-1))
    _ _ (fun _ => 0) (fun _ => 0) kv_demo_no_compaction); try lia; vm_compute; reflexivity.
Defined.

(** ** The snapshot notification that comes too late *)

(** Peer 1 compacts after the first command and sends its snapshot twice, as it does
    while it has no reply.  Peer 2 installs it, answers the second request, which is
    stale then, receives and applies the second command, and only then does the
    handler of the first request get to send the snapshot on applyCh and return. *)
Definition late_snapshot_events : list (event Op) :=
  [EvTimeout 1; EvDeliver 0; EvReply 0; EvStart 1 put_a; EvSync 1 0; EvDeliver 1; EvReply 1;
   EvWake 1; EvApply 1;
   EvCompact 1 1 (encodeSnapshot (served (StartKVServer 1 100) [CommandMsg 1 (Some put_a)]));
   EvDrop 0; EvSync 1 2; EvSync 1 2; EvDeliver 0; EvDeliver 0; EvReply 0; EvStart 1 append_b; EvSync 1 2; EvDeliver 0;
   EvReply 0; EvWake 1; EvApply 1; EvSync 1 2; EvDeliver 0; EvReply 0; EvWake 2; EvApply 2;
   EvNotify 2 0].

Definition late_snapshot : sys Op := ran 3 (fun s e => negb (overshootsb s e)) late_snapshot_events.

(** A late snapshot notification loses a committed command.  There is an
    execution, without any overshooting request, in which two peers have applied
    up to index 2, yet one server's value is "ab" and the other's is "a": the
    snapshot of index 1 reached it after the command of index 2, overwrote its
    effect and its entry in the duplicate record, and the command is not applied
    again. *)
Theorem late_snapshot_loses_command :
  reach 3 no_overshoot late_snapshot /\
  lastApplied (raft_of late_snapshot 1) = 2 /\ lastApplied (raft_of late_snapshot 2) = 2 /\
  Kvdb (served (StartKVServer 1 100) (nd_applyCh (sys_nodes late_snapshot 1))) !! "k"%string
    = Some "ab"%string /\
  Kvdb (served (StartKVServer 2 100) (nd_applyCh (sys_nodes late_snapshot 2))) !! "k"%string
    = Some "a"%string /\
  seenCmd (served (StartKVServer 2 100) (nd_applyCh (sys_nodes late_snapshot 2))) 7 1 = false.
Proof.
  split; [apply ran_reach; intros s e H Ho%overshootsb_spec; by rewrite Ho in H|].
  vm_compute. split_and!; reflexivity.
Qed.
