(* ===== verification/LabRpc.v ===== *)
(** * The simulated network: labrpc/labrpc.go

    Client ends, named servers and the goroutines that carry one request each.
    [ProcessReq] is cut where it waits: after it has read the state of its end,
    while the handler runs, before it checks that the server is still there, and
    before its single send on the reply channel.  The random draws and the
    timers are arguments of the events.

    The methods of a service are functions from encoded arguments to an encoded
    reply over the state [St] behind the receivers; labgob and reflection are
    inside them. *)

From Stdlib Require Import Strings.Ascii.
From stdpp Require Import base list list_numbers gmap strings.
From S2P Require Import Prelude Gob.
Open Scope Z_scope.

Definition int32 (x : Z) : Z := (x + 2 ^ 31) mod 2 ^ 32 - 2 ^ 31.

Record replyMsg : Type := mkReplyMsg { rm_ok : bool; rm_reply : bytes }.

Record reqMsg : Type := mkReqMsg { endname : Z; svcMeth : string; rq_args : bytes }.

(** ** Services and servers *)

(** What reflection tells about a method of the receiver. *)
Record Method (St : Type) : Type := mkMethod {
  mt_Name : string; mt_PkgPath : string; mt_NumIn : Z; mt_In2Ptr : bool; mt_NumOut : Z;
  mt_Func : bytes -> St -> St * bytes
}.
Arguments mkMethod {St} _ _ _ _ _ _.
Arguments mt_Name {St} _.
Arguments mt_PkgPath {St} _.
Arguments mt_NumIn {St} _.
Arguments mt_In2Ptr {St} _.
Arguments mt_NumOut {St} _.
Arguments mt_Func {St} _ _ _.

Record Service (St : Type) : Type := mkService {
  svc_name : string; methods : gmap string (bytes -> St -> St * bytes)
}.
Arguments mkService {St} _ _.
Arguments svc_name {St} _.
Arguments methods {St} _.

Record Server (St : Type) : Type := mkServer {
  services : gmap string (Service St); srv_count : Z
}.
Arguments mkServer {St} _ _.
Arguments services {St} _.
Arguments srv_count {St} _.

(** [strings.LastIndex(s, ".")]. *)
Fixpoint lastDot (s : string) : Z :=
  match s with
  | EmptyString => -1
  | String c s' =>
      let i := lastDot s' in
      if 0 <=? i then i + 1
      else if decide (c = "."%char) then 0 else -1
  end.

(** [s[:i]] and [s[i:]] of a string. *)
Definition str_to (s : string) (i : Z) : outcome string :=
  if decide (0 <= i <= Z.of_nat (String.length s)) then Ret (String.substring 0 (Z.to_nat i) s)
  else Panic.
Definition str_from (s : string) (i : Z) : outcome string :=
  if decide (0 <= i <= Z.of_nat (String.length s)) then
    Ret (String.substring (Z.to_nat i) (String.length s - Z.to_nat i) s)
  else Panic.

Section Labrpc.
Context {St : Type}.

Definition handlerLike (m : Method St) : bool :=
  negb (bool_decide (mt_PkgPath m <> ""%string) || negb (mt_NumIn m =? 3) || negb (mt_In2Ptr m)
        || negb (mt_NumOut m =? 0)).

Definition MakeService (name : string) (ms : list (Method St)) : Service St :=
  mkService name (foldl (fun t m => if handlerLike m then <[mt_Name m := mt_Func m]> t else t) ∅ ms).

(** [log.Fatalf] ends the process: [Panic]. *)
Definition Service_dispatch (svc : Service St) (methname : string) (req : reqMsg) (st : St)
    : outcome (St * replyMsg) :=
  match methods svc !! methname with
  | Some f => let '(st', r) := f (rq_args req) st in Ret (st', mkReplyMsg true r)
  | None => Panic
  end.

Definition MakeServer : Server St := mkServer ∅ 0.

Definition AddService (rs : Server St) (svc : Service St) : Server St :=
  mkServer (<[svc_name svc := svc]> (services rs)) (srv_count rs).

Definition splitMeth (s : string) : outcome (string * string) :=
  let dot := lastDot s in
  serviceName ← str_to s dot;
  methodName ← str_from s (dot + 1);
  Ret (serviceName, methodName).

Definition Server_dispatch (rs : Server St) (req : reqMsg) (st : St)
    : outcome (Server St * St * replyMsg) :=
  let rs1 := mkServer (services rs) (srv_count rs + 1) in
  '(serviceName, methodName) ← splitMeth (svcMeth req);
  match services rs1 !! serviceName with
  | Some service =>
      '(st', r) ← Service_dispatch service methodName req st;
      Ret (rs1, st', r)
  | None => Panic
  end.

Definition Server_GetCount (rs : Server St) : Z := srv_count rs.

(** ** The network *)

(** Servers are pointers: [servers] maps a name to a reference, [None] being
    nil. *)
Record Network : Type := mkNetwork {
  reliable : bool; longDelays : bool; longReordering : bool;
  ends : gset Z; enabled : gmap Z bool;
  servers : gmap Z (option nat); connections : gmap Z (option Z);
  net_count : Z; net_done : bool
}.

Definition MakeNetwork : Network := mkNetwork true false false ∅ ∅ ∅ ∅ 0 false.

Definition Cleanup (rn : Network) : outcome Network :=
  if net_done rn then Panic
  else Ret (mkNetwork (reliable rn) (longDelays rn) (longReordering rn) (ends rn) (enabled rn)
              (servers rn) (connections rn) (net_count rn) true).

Definition Reliable (yes : bool) (rn : Network) : Network :=
  mkNetwork yes (longDelays rn) (longReordering rn) (ends rn) (enabled rn) (servers rn)
    (connections rn) (net_count rn) (net_done rn).
Definition LongReordering (yes : bool) (rn : Network) : Network :=
  mkNetwork (reliable rn) (longDelays rn) yes (ends rn) (enabled rn) (servers rn)
    (connections rn) (net_count rn) (net_done rn).
Definition LongDelays (yes : bool) (rn : Network) : Network :=
  mkNetwork (reliable rn) yes (longReordering rn) (ends rn) (enabled rn) (servers rn)
    (connections rn) (net_count rn) (net_done rn).

Definition MakeEnd (e : Z) (rn : Network) : outcome Network :=
  if decide (e ∈ ends rn) then Panic
  else Ret (mkNetwork (reliable rn) (longDelays rn) (longReordering rn) ({[e]} ∪ ends rn)
              (<[e := false]> (enabled rn)) (servers rn) (<[e := None]> (connections rn))
              (net_count rn) (net_done rn)).

Definition set_servers (v : gmap Z (option nat)) (rn : Network) : Network :=
  mkNetwork (reliable rn) (longDelays rn) (longReordering rn) (ends rn) (enabled rn) v
    (connections rn) (net_count rn) (net_done rn).
Definition AddServer (servername : Z) (rs : nat) (rn : Network) : Network :=
  set_servers (<[servername := Some rs]> (servers rn)) rn.
Definition DeleteServer (servername : Z) (rn : Network) : Network :=
  set_servers (<[servername := None]> (servers rn)) rn.
Definition Connect (e servername : Z) (rn : Network) : Network :=
  mkNetwork (reliable rn) (longDelays rn) (longReordering rn) (ends rn) (enabled rn) (servers rn)
    (<[e := Some servername]> (connections rn)) (net_count rn) (net_done rn).
Definition Enable (e : Z) (b : bool) (rn : Network) : Network :=
  mkNetwork (reliable rn) (longDelays rn) (longReordering rn) (ends rn) (<[e := b]> (enabled rn))
    (servers rn) (connections rn) (net_count rn) (net_done rn).

(** A missing key of a Go map reads as the zero value. *)
Definition isEnabled (rn : Network) (e : Z) : bool := default false (enabled rn !! e).
Definition serverOf (rn : Network) (name : Z) : option nat := default None (servers rn !! name).

(** enabled, servername, server, reliable, longreordering. *)
Definition ReadEndnameInfo (rn : Network) (e : Z) : bool * option Z * option nat * bool * bool :=
  let servername := default None (connections rn !! e) in
  (isEnabled rn e, servername, servername ≫= serverOf rn, reliable rn, longReordering rn).

Definition IsServerDead (rn : Network) (e servername : Z) (server : nat) : bool :=
  negb (isEnabled rn e) || bool_decide (serverOf rn servername <> Some server).

Definition GetTotalCount (rn : Network) : Z := net_count rn.

Definition fail : replyMsg := mkReplyMsg false [].

(** ** One request *)

(** Where [ProcessReq] stands; [info] is the servername, the server and the two
    flags it read at the start. *)
Record info : Type := mkInfo {
  in_name : Z; in_server : nat; in_reliable : bool; in_reordering : bool
}.
Inductive phase : Type :=
| Accepted
| Waiting (i : info)
| Checking (i : info) (reply : option replyMsg)
| Sending (m : replyMsg)
| Answered (m : replyMsg).

(** The handler goroutine: not started, running, or done with a result on ech. *)
Inductive handler : Type :=
| NotStarted
| Running (server : nat)
| Finished (r : replyMsg).

Record request : Type := mkRequest {
  rq_msg : reqMsg; rq_phase : phase; rq_handler : handler; rq_execs : nat
}.

Record world : Type := mkWorld {
  w_net : Network; w_servers : gmap nat (Server St); w_state : St; w_reqs : list request
}.

(** [GetCount] of a server by name; a name that no server has is a nil pointer. *)
Definition GetCount (w : world) (servername : Z) : outcome Z :=
  match serverOf (w_net w) servername ≫= (fun r => w_servers w !! r) with
  | Some rs => Ret (Server_GetCount rs)
  | None => Panic
  end.

(** ** Events *)
Inductive nevent : Type :=
| NReliable (yes : bool)
| NLongReordering (yes : bool)
| NLongDelays (yes : bool)
| NMakeEnd (e : Z)
| NAddServer (servername : Z) (rs : nat)
| NDeleteServer (servername : Z)
| NConnect (e servername : Z)
| NEnable (e : Z) (b : bool)
| NCleanup
| NCall (req : reqMsg)
| NRead (k : nat) (draw : Z)
| NHandle (k : nat)
| NTake (k : nat)
| NPoll (k : nat)
| NCheck (k : nat) (draw : Z)
| NAnswer (k : nat).

Definition set_net (rn : Network) (w : world) : world :=
  mkWorld rn (w_servers w) (w_state w) (w_reqs w).
Definition set_req (k : nat) (rq : request) (w : world) : world :=
  mkWorld (w_net w) (w_servers w) (w_state w) (<[k := rq]> (w_reqs w)).
Definition set_phase (p : phase) (rq : request) : request :=
  mkRequest (rq_msg rq) p (rq_handler rq) (rq_execs rq).

(** [ProcessReq] up to the start of the handler: the phase and the handler. *)
Definition startReq (rn : Network) (req : reqMsg) (draw : Z) : phase * handler :=
  match ReadEndnameInfo rn (endname req) with
  | (true, Some servername, Some server, rel, reord) =>
      if negb rel && (Z.rem draw 1000 <? 100) then (Sending fail, NotStarted)
      else (Waiting (mkInfo servername server rel reord), Running server)
  | _ => (Sending fail, NotStarted)
  end.

(** [ProcessReq] after the wait.  A reply that is delayed by long reordering is
    the same single send, at a later time. *)
Definition finishReq (rn : Network) (req : reqMsg) (i : info) (reply : option replyMsg) (draw : Z)
    : replyMsg :=
  let serverDead := IsServerDead rn (endname req) (in_name i) (in_server i) in
  match reply with
  | None => fail
  | Some r =>
      if serverDead then fail
      else if negb (in_reliable i) && (Z.rem draw 1000 <? 100) then fail
      else r
  end.

Definition net_exec (w : world) (e : nevent) : outcome world :=
  let rn := w_net w in
  let with_req k (f : request -> outcome world) :=
    match w_reqs w !! k with Some rq => f rq | None => Block end in
  match e with
  | NReliable b => Ret (set_net (Reliable b rn) w)
  | NLongReordering b => Ret (set_net (LongReordering b rn) w)
  | NLongDelays b => Ret (set_net (LongDelays b rn) w)
  | NMakeEnd x => rn' ← MakeEnd x rn; Ret (set_net rn' w)
  | NAddServer x rs => Ret (set_net (AddServer x rs rn) w)
  | NDeleteServer x => Ret (set_net (DeleteServer x rn) w)
  | NConnect x y => Ret (set_net (Connect x y rn) w)
  | NEnable x b => Ret (set_net (Enable x b rn) w)
  | NCleanup => rn' ← Cleanup rn; Ret (set_net rn' w)
  | NCall req =>
      if net_done rn then Block
      else Ret (mkWorld (mkNetwork (reliable rn) (longDelays rn) (longReordering rn) (ends rn)
                  (enabled rn) (servers rn) (connections rn) (int32 (net_count rn + 1)) false)
                  (w_servers w) (w_state w) (w_reqs w ++ [mkRequest req Accepted NotStarted 0]))
  | NRead k draw => with_req k (fun rq =>
      match rq_phase rq with
      | Accepted =>
          let '(p, h) := startReq rn (rq_msg rq) draw in
          Ret (set_req k (mkRequest (rq_msg rq) p h (rq_execs rq)) w)
      | _ => Block
      end)
  | NHandle k => with_req k (fun rq =>
      match rq_handler rq with
      | Running server =>
          match w_servers w !! server with
          | Some rs =>
              '(rs', st', r) ← Server_dispatch rs (rq_msg rq) (w_state w);
              Ret (mkWorld rn (<[server := rs']> (w_servers w)) st'
                     (<[k := mkRequest (rq_msg rq) (rq_phase rq) (Finished r) (S (rq_execs rq))]>
                        (w_reqs w)))
          | None => Block
          end
      | _ => Block
      end)
  | NTake k => with_req k (fun rq =>
      match rq_phase rq, rq_handler rq with
      | Waiting i, Finished r => Ret (set_req k (set_phase (Checking i (Some r)) rq) w)
      | _, _ => Block
      end)
  | NPoll k => with_req k (fun rq =>
      match rq_phase rq with
      | Waiting i =>
          if IsServerDead rn (endname (rq_msg rq)) (in_name i) (in_server i) then
            Ret (set_req k (set_phase (Checking i None) rq) w)
          else Ret w
      | _ => Block
      end)
  | NCheck k draw => with_req k (fun rq =>
      match rq_phase rq with
      | Checking i reply =>
          Ret (set_req k (set_phase (Sending (finishReq rn (rq_msg rq) i reply draw)) rq) w)
      | _ => Block
      end)
  | NAnswer k => with_req k (fun rq =>
      match rq_phase rq with
      | Sending m => Ret (set_req k (set_phase (Answered m) rq) w)
      | _ => Block
      end)
  end.

Definition net_init (srvs : gmap nat (Server St)) (st : St) : world := mkWorld MakeNetwork srvs st [].

Inductive net_reach (srvs : gmap nat (Server St)) (st : St) : world -> Prop :=
| net_reach_init : net_reach srvs st (net_init srvs st)
| net_reach_step w e w' : net_reach srvs st w -> net_exec w e = Ret w' -> net_reach srvs st w'.

(** [Call] after its request was accepted, or refused because the network has
    been cleaned up ([None]): the decoded reply when it returns true. *)
Definition Call_return `{Gob R} (rep : option replyMsg) : outcome (option R) :=
  match rep with
  | None => Ret None
  | Some m =>
      if rm_ok m then
        match Decode (rm_reply m) with Some (r, _) => Ret (Some r) | None => Panic end
      else Ret None
  end.

(** ** The contract of Call *)

(** A handler has run as often as its goroutine has finished. *)
Definition handler_ok (rq : request) : Prop :=
  match rq_handler rq with
  | NotStarted | Running _ => rq_execs rq = 0%nat
  | Finished r => rq_execs rq = 1%nat /\ rm_ok r = true
  end.

Definition phase_ok (rq : request) : Prop :=
  match rq_phase rq with
  | Accepted => rq_handler rq = NotStarted
  | Waiting i => rq_handler rq = Running (in_server i) \/ exists r, rq_handler rq = Finished r
  | Checking i (Some r) => rq_handler rq = Finished r
  | Checking i None => True
  | Sending m | Answered m => rm_ok m = true -> rq_handler rq = Finished m
  end.

Definition req_ok (rq : request) : Prop := handler_ok rq /\ phase_ok rq.

Lemma Server_dispatch_ok rs req st rs' st' r :
  Server_dispatch rs req st = Ret (rs', st', r) -> rm_ok r = true.
Proof.
  unfold Server_dispatch. intros H. apply bind_Ret_inv in H as ([s m] & _ & H).
  case_match; [|done]. apply bind_Ret_inv in H as ([st1 r1] & H1 & H). simplify_eq.
  unfold Service_dispatch in H1. case_match; [|done]. case_match. by simplify_eq.
Qed.

Lemma set_req_ok w k rq :
  Forall req_ok (w_reqs w) -> req_ok rq -> Forall req_ok (w_reqs (set_req k rq w)).
Proof. intros H Hrq. simpl. by apply Forall_insert. Qed.

Lemma startReq_ok rn req draw p h :
  startReq rn req draw = (p, h) -> req_ok (mkRequest req p h 0).
Proof.
  unfold startReq. intros H. destruct (ReadEndnameInfo rn (endname req)) as [[[[en nm] sv] rel] reord].
  destruct en, nm, sv; simplify_eq; try (by split). case_match; simplify_eq; [by split|].
  split; [done|]. by left.
Qed.

Lemma finishReq_ok rn req i h reply draw :
  phase_ok (mkRequest req (Checking i reply) h 0) ->
  rm_ok (finishReq rn req i reply draw) = true -> h = Finished (finishReq rn req i reply draw).
Proof.
  unfold finishReq. intros Hp. destruct reply as [r|]; [|done].
  case_match; [done|]. case_match; [done|]. intros _. exact Hp.
Qed.

Lemma net_reach_reqs srvs st w : net_reach srvs st w -> Forall req_ok (w_reqs w).
Proof.
  induction 1 as [|w e w' _ IH He]; [constructor|].
  destruct e; simpl in He; bind_inv; simplify_eq; try done;
    try (destruct (w_reqs w !! k) as [rq|] eqn:Hk; [|done];
         destruct (Forall_lookup_1 _ _ _ _ IH Hk) as [Hh Hp]).
  - destruct (net_done _); simplify_eq. apply Forall_app. split; [done|]. by repeat constructor.
  - destruct rq as [m p h x]. destruct p; try done. unfold phase_ok in Hp. simpl in *. subst h.
    unfold handler_ok in Hh. simpl in Hh. subst x.
    destruct (startReq (w_net w) m draw) as [p h] eqn:Es. simplify_eq.
    apply set_req_ok; [done|]. by eapply startReq_ok.
  - destruct rq as [m p h x]. simpl in *. destruct h as [|sv|]; try done.
    destruct (w_servers w !! sv) as [rs|]; [|done].
    apply bind_Ret_inv in He as ([[rs' st'] r] & Hd & He). simplify_eq. simpl.
    apply Forall_insert; [done|]. apply Server_dispatch_ok in Hd.
    unfold req_ok, handler_ok, phase_ok in *. simpl in *. subst x. split; [done|].
    destruct p as [|i|i [r'|]|m'|m']; try done; [by right; exists r|..]; intros Hm; by apply Hp in Hm.
  - destruct rq as [m p h x]. destruct p, h; try done. simpl in He. simplify_eq.
    apply set_req_ok; [done|]. by split.
  - destruct rq as [m p h x]. destruct p; try done. simpl in He. case_match; simplify_eq; [|done].
    apply set_req_ok; [done|]. by split.
  - destruct rq as [m p h x]. destruct p as [| |i reply| |]; try done. simpl in He. simplify_eq.
    apply set_req_ok; [done|]. split; [done|]. intros Hm. by eapply finishReq_ok.
  - destruct rq as [m p h x]. destruct p; try done. simpl in He. simplify_eq.
    apply set_req_ok; [done|]. by split.
Qed.

(** C31: at most one execution, and a true answer means one.  The handler of a
    request runs at most once, whatever the network does; and when Call returns
    true, the handler has run exactly once and the reply is the one it
    returned. *)
Theorem call_executes_once srvs st w k rq :
  net_reach srvs st w -> w_reqs w !! k = Some rq ->
  (rq_execs rq <= 1)%nat /\
  forall m, rq_phase rq = Answered m -> rm_ok m = true ->
    rq_execs rq = 1%nat /\ rq_handler rq = Finished m.
Proof.
  intros Hr Hk. destruct (Forall_lookup_1 _ _ _ _ (net_reach_reqs _ _ _ Hr) Hk) as [Hh Hp].
  unfold handler_ok, phase_ok in *. split.
  - destruct (rq_handler rq); [lia|lia|]. destruct Hh. lia.
  - intros m Ep Hm. rewrite Ep in Hp. specialize (Hp Hm). rewrite Hp in Hh. by destruct Hh.
Qed.

(** No positive reply from a dead server.  A request whose end has been
    disabled, or whose server has been deleted or replaced, by the time
    ProcessReq makes its last check is answered false, even if the handler ran. *)
Theorem dead_server_answers_false w k draw rq i reply w' rq' m :
  w_reqs w !! k = Some rq -> rq_phase rq = Checking i reply ->
  net_exec w (NCheck k draw) = Ret w' -> w_reqs w' !! k = Some rq' -> rq_phase rq' = Sending m ->
  isEnabled (w_net w) (endname (rq_msg rq)) = false \/
    serverOf (w_net w) (in_name i) <> Some (in_server i) ->
  rm_ok m = false.
Proof.
  intros Hk Hp He Hk' Hp' Hdead. simpl in He. rewrite Hk, Hp in He. simplify_eq.
  simpl in Hk'. rewrite list_lookup_insert_eq in Hk' by (by eapply lookup_lt_Some). simplify_eq/=.
  unfold finishReq. destruct reply as [r|]; [|done].
  assert (IsServerDead (w_net w) (endname (rq_msg rq)) (in_name i) (in_server i) = true) as ->; [|done].
  unfold IsServerDead. destruct Hdead as [->|Hd]; [done|]. apply orb_true_iff. right.
  by apply bool_decide_eq_true.
Qed.

(** C32: call returns.  In every reachable state, a request that is not answered
    can be moved on by ProcessReq itself, unless it is waiting for a handler
    that has not returned on a server that is still there. *)
Theorem call_progress srvs st w k rq :
  net_reach srvs st w -> w_reqs w !! k = Some rq -> (forall m, rq_phase rq <> Answered m) ->
  (exists e w', net_exec w e = Ret w' /\ (e = NRead k 0 \/ e = NTake k \/ e = NPoll k \/
     e = NCheck k 0 \/ e = NAnswer k) /\
     exists rq', w_reqs w' !! k = Some rq' /\ rq_phase rq' <> rq_phase rq) \/
  (exists i, rq_phase rq = Waiting i /\ rq_handler rq = Running (in_server i) /\
     IsServerDead (w_net w) (endname (rq_msg rq)) (in_name i) (in_server i) = false).
Proof.
  intros Hr Hk Hna. destruct (Forall_lookup_1 _ _ _ _ (net_reach_reqs _ _ _ Hr) Hk) as [_ Hp].
  assert (Hset : forall rq', w_reqs (set_req k rq' w) !! k = Some rq').
  { intros rq'. simpl. apply list_lookup_insert_eq. by eapply lookup_lt_Some. }
  unfold phase_ok in Hp. destruct (rq_phase rq) as [|i|i reply|m|m] eqn:Ep.
  - left. destruct (startReq (w_net w) (rq_msg rq) 0) as [p h] eqn:Es.
    exists (NRead k 0). eexists. split; [simpl; rewrite Hk, Ep, Es; reflexivity|]. split; [auto|].
    eexists. split; [apply Hset|]. simpl. intros ->. unfold startReq in Es.
    repeat case_match; by simplify_eq.
  - destruct Hp as [Hrun|[r Hfin]].
    + destruct (IsServerDead (w_net w) (endname (rq_msg rq)) (in_name i) (in_server i)) eqn:Hd.
      * left. exists (NPoll k). eexists. split; [simpl; rewrite Hk, Ep, Hd; reflexivity|].
        split; [auto|]. eexists. split; [apply Hset|]. done.
      * right. exists i. by split_and!.
    + left. exists (NTake k). eexists. split; [simpl; rewrite Hk, Ep, Hfin; reflexivity|].
      split; [auto|]. eexists. split; [apply Hset|]. done.
  - left. exists (NCheck k 0). eexists. split; [simpl; rewrite Hk, Ep; reflexivity|].
    split; [auto 6|]. eexists. split; [apply Hset|]. done.
  - left. exists (NAnswer k). eexists. split; [simpl; rewrite Hk, Ep; reflexivity|].
    split; [auto 6|]. eexists. split; [apply Hset|]. done.
  - by destruct (Hna m).
Qed.
End Labrpc.
Arguments world : clear implicits.

(** ** Method names *)
Fixpoint has_dot (s : string) : bool :=
  match s with
  | EmptyString => false
  | String c s' => bool_decide (c = "."%char) || has_dot s'
  end.

Lemma lastDot_none s : has_dot s = false -> lastDot s = -1.
Proof.
  induction s as [|c s IH]; simpl; [done|]. intros [Hc Hs]%orb_false_iff.
  rewrite (IH Hs). simpl. apply bool_decide_eq_false in Hc. by rewrite decide_False.
Qed.

Lemma lastDot_app s m :
  has_dot m = false -> lastDot (s +:+ String "." m) = Z.of_nat (String.length s).
Proof.
  intros Hm. induction s as [|c s IH]; simpl; [by rewrite (lastDot_none m Hm)|].
  rewrite IH. rewrite (proj2 (Z.leb_le _ _)) by lia. lia.
Qed.

Lemma substring_prefix s t : String.substring 0 (String.length s) (s +:+ t) = s.
Proof. induction s as [|c s IH]; simpl; [by destruct t|]. by rewrite IH. Qed.

Lemma substring_all s : String.substring 0 (String.length s) s = s.
Proof. induction s as [|c s IH]; simpl; [done|]. by rewrite IH. Qed.

Lemma substring_suffix s t :
  String.substring (String.length s) (String.length t) (s +:+ t) = t.
Proof. induction s as [|c s IH]; simpl; [apply substring_all|done]. Qed.

Lemma length_append s t : String.length (s +:+ t) = (String.length s + String.length t)%nat.
Proof. induction s as [|c s IH]; simpl; [done|]. by rewrite IH. Qed.

Lemma append_assoc (s t u : string) : (s +:+ t) +:+ u = s +:+ (t +:+ u).
Proof. induction s as [|c s IH]; [done|]. exact (f_equal (String c) IH). Qed.

(** Dispatch by name.  A call of svc.meth is split into svc and meth for
    every service name and every method name without a dot. *)
Theorem splitMeth_roundtrip svc meth :
  has_dot meth = false -> splitMeth (svc +:+ "." +:+ meth) = Ret (svc, meth).
Proof.
  intros Hm. unfold splitMeth, str_to, str_from. change ("." +:+ meth) with (String "." meth).
  rewrite (lastDot_app svc meth Hm), length_append. simpl String.length.
  rewrite !decide_True by lia. simpl. rewrite Nat2Z.id, substring_prefix. do 2 f_equal.
  replace (String.length svc + S (String.length meth) - Z.to_nat (Z.of_nat (String.length svc) + 1))%nat
    with (String.length meth) by lia.
  replace (Z.to_nat (Z.of_nat (String.length svc) + 1)) with (String.length (svc +:+ "."))
    by (rewrite length_append; simpl; lia).
  change (svc +:+ String "." meth) with (svc +:+ ("." +:+ meth)). rewrite <- append_assoc.
  apply substring_suffix.
Qed.

Lemma splitMeth_roundtrip_witness :
  splitMeth "Raft.AppendEntries" = Ret ("Raft", "AppendEntries")%string.
Proof. exact (splitMeth_roundtrip "Raft" "AppendEntries" eq_refl). Defined.

(** ** A run *)
Fixpoint net_run {St} (w : world St) (evs : list nevent) : outcome (world St) :=
  match evs with
  | [] => Ret w
  | e :: evs' => w' ← net_exec w e; net_run w' evs'
  end.

Lemma net_run_reach {St} srvs (st : St) w evs w' :
  net_reach srvs st w -> net_run w evs = Ret w' -> net_reach srvs st w'.
Proof.
  revert w. induction evs as [|e evs IH]; simpl; intros w Hr H; [by simplify_eq|].
  apply bind_Ret_inv in H as (w1 & H1 & H). eapply IH; [|exact H]. by eapply net_reach_step.
Qed.

Definition net_ran {St} (srvs : gmap nat (Server St)) (st : St) (evs : list nevent) : world St :=
  match net_run (net_init srvs st) evs with Ret w => w | _ => net_init srvs st end.

Lemma net_ran_reach {St} srvs (st : St) evs : net_reach srvs st (net_ran srvs st evs).
Proof.
  unfold net_ran. destruct (net_run _ _) eqn:E; try apply net_reach_init.
  eapply net_run_reach; [apply net_reach_init|exact E].
Qed.

(** A counter behind the method Counter.Add. *)
Definition counter_server : Server Z :=
  AddService MakeServer (MakeService "Counter"
    [mkMethod "Add" "" 3 true 0 (fun args st => (st + len args, [Byte.x07]));
     mkMethod "helper" "pkg" 3 true 0 (fun _ st => (st, []))]).

Definition counter_call : reqMsg := mkReqMsg 5 "Counter.Add" [Byte.x01; Byte.x02].

Definition counter_events : list nevent :=
  [NMakeEnd 5; NAddServer 9 0; NConnect 5 9; NEnable 5 true; NCall counter_call; NRead 0 0;
   NHandle 0; NTake 0].

Definition counter_world (more : list nevent) : world Z :=
  net_ran {[0%nat := counter_server]} 0 (counter_events ++ more).

Lemma call_executes_once_witness :
  exists rq, w_reqs (counter_world [NCheck 0 0; NAnswer 0]) !! 0%nat = Some rq /\
    w_state (counter_world [NCheck 0 0; NAnswer 0]) = 2 /\ rq_execs rq = 1%nat.
Proof.
  exists (mkRequest counter_call (Answered (mkReplyMsg true [Byte.x07]))
    (Finished (mkReplyMsg true [Byte.x07])) 1).
  assert (Hk : w_reqs (counter_world [NCheck 0 0; NAnswer 0]) !! 0%nat =
    Some (mkRequest counter_call (Answered (mkReplyMsg true [Byte.x07]))
    (Finished (mkReplyMsg true [Byte.x07])) 1)) by (vm_compute; reflexivity).
  split; [exact Hk|]. split; [vm_compute; reflexivity|].
  destruct (call_executes_once _ _ _ _ _ (net_ran_reach _ _ _) Hk) as [_ H].
  apply (H (mkReplyMsg true [Byte.x07])); reflexivity.
Defined.

Lemma dead_server_answers_false_witness :
  exists m w', net_exec (counter_world [NDeleteServer 9]) (NCheck 0 0) = Ret w' /\
    (exists rq', w_reqs w' !! 0%nat = Some rq' /\ rq_phase rq' = Sending m) /\ rm_ok m = false.
Proof.
  exists fail. eexists. split; [vm_compute; reflexivity|].
  split; [eexists; split; [vm_compute; reflexivity|reflexivity]|].
  eapply (dead_server_answers_false (counter_world [NDeleteServer 9]) 0 0);
    [vm_compute; reflexivity|reflexivity|vm_compute; reflexivity|vm_compute; reflexivity
    |reflexivity|right; vm_compute; discriminate].
Defined.

Lemma call_progress_witness :
  exists e w', net_exec (counter_world []) e = Ret w'.
Proof.
  assert (Hk : w_reqs (counter_world []) !! 0%nat = Some (mkRequest counter_call
    (Checking (mkInfo 9 0 true false) (Some (mkReplyMsg true [Byte.x07])))
    (Finished (mkReplyMsg true [Byte.x07])) 1)) by (vm_compute; reflexivity).
  destruct (call_progress _ _ _ _ _ (net_ran_reach _ _ _) Hk) as [(e & w' & He & _)|(i & H & _)].
  - intros m. discriminate.
  - exists e, w'. exact He.
  - discriminate H.
Defined.
