(* ===== verification/Harness.v ===== *)
(** * What the test harnesses share

    The config.go files of raft/, kvraft/, shardmaster/ and shardkv/ drive the
    servers through labrpc: they keep the names of the client ends of every
    server, enable and disable them, and end the test with t.Fatalf or the
    process with log.Fatalf.  A [verdict] is what a harness function comes to;
    the rest of the file is the bookkeeping of ends. *)

From stdpp Require Import base list list_numbers gmap.
From S2P Require Import Prelude Gob LabRpc.
Open Scope Z_scope.

(** ** Verdicts *)

(** [Fatal]: t.Fatalf or log.Fatalf; [Crash]: a run-time panic of the harness. *)
Inductive verdict (E A : Type) : Type :=
| Pass (a : A)
| Fatal (e : E)
| Crash.
Arguments Pass {E A} _.
Arguments Fatal {E A} _.
Arguments Crash {E A}.

#[export] Instance verdict_ret {E} : MRet (verdict E) := fun A a => Pass a.
#[export] Instance verdict_bind {E} : MBind (verdict E) := fun A B f m =>
  match m with Pass a => f a | Fatal e => Fatal e | Crash => Crash end.

Lemma bind_Pass_inv {E A B} (m : verdict E A) (f : A -> verdict E B) b :
  (m ≫= f) = Pass b -> exists a, m = Pass a /\ f a = Pass b.
Proof. destruct m; cbn; intros H; [eauto | discriminate | discriminate]. Qed.

Lemma bind_Fatal_inv {E A B} (m : verdict E A) (f : A -> verdict E B) e :
  (m ≫= f) = Fatal e -> m = Fatal e \/ exists a, m = Pass a /\ f a = Fatal e.
Proof. destruct m; cbn; intros H; [eauto | left; congruence | discriminate]. Qed.

(** A slice access of the harness. *)
Definition lift {E A} (o : outcome A) : verdict E A :=
  match o with Ret a => Pass a | _ => Crash end.

Lemma lift_Pass {E A} (o : outcome A) a : lift (E := E) o = Pass a <-> o = Ret a.
Proof. destruct o; naive_solver. Qed.

Lemma lift_not_Fatal {E A} (o : outcome A) (e : E) : lift o <> Fatal e.
Proof. by destruct o. Qed.

(** ** Loops *)

(** [for _, x := range l { ... }] over a state. *)
Fixpoint for_each {A S} (body : A -> S -> outcome S) (l : list A) (s : S) : outcome S :=
  match l with
  | [] => Ret s
  | x :: l' => s' ← body x s; for_each body l' s'
  end.

Lemma for_each_app {A S} (body : A -> S -> outcome S) l k s :
  for_each body (l ++ k) s = (s' ← for_each body l s; for_each body k s').
Proof.
  revert s. induction l as [|x l IH]; intros s; [done|]. cbn [app for_each].
  destruct (body x s) as [s'| |]; [apply IH|done|done].
Qed.

(** A loop keeps what its body keeps. *)
Lemma for_each_inv {A S} (I : S -> Prop) (body : A -> S -> outcome S) l s s' :
  (forall x t t', x ∈ l -> I t -> body x t = Ret t' -> I t') ->
  I s -> for_each body l s = Ret s' -> I s'.
Proof.
  revert s. induction l as [|x l IH]; intros s Hb Hs H; cbn [for_each] in H; [by simplify_eq|].
  apply bind_Ret_inv in H as (t & Ht & H).
  apply (IH t); [intros y u u' Hy; apply Hb; by right|eapply Hb; [by left|exact Hs|exact Ht]|exact H].
Qed.

(** ** Client ends *)

(** Enabling or disabling a list of ends, one after the other. *)
Definition enableAll (es : list Z) (b : bool) (rn : Network) : Network :=
  foldl (fun rn e => Enable e b rn) rn es.

Lemma isEnabled_Enable rn e b e' :
  isEnabled (Enable e b rn) e' = if decide (e = e') then b else isEnabled rn e'.
Proof.
  unfold isEnabled. simpl. case_decide as H; [subst; by rewrite lookup_insert_eq|].
  by rewrite lookup_insert_ne.
Qed.

Lemma isEnabled_enableAll es b rn e :
  isEnabled (enableAll es b rn) e = if decide (e ∈ es) then b else isEnabled rn e.
Proof.
  revert rn. unfold enableAll. induction es as [|x es IH]; intros rn; cbn [foldl].
  - case_decide as H; [by apply not_elem_of_nil in H|done].
  - rewrite IH, isEnabled_Enable. repeat case_decide; try done; set_solver.
Qed.

(** What enabling leaves alone. *)
Definition same_wiring (rn rn' : Network) : Prop :=
  ends rn' = ends rn /\ servers rn' = servers rn /\ connections rn' = connections rn /\
  reliable rn' = reliable rn /\ net_count rn' = net_count rn /\ net_done rn' = net_done rn.

#[export] Instance same_wiring_preorder : PreOrder same_wiring.
Proof.
  split; [by intros rn; split_and!|].
  intros a b c (? & ? & ? & ? & ? & ?) (? & ? & ? & ? & ? & ?). split_and!; congruence.
Qed.

Lemma Enable_wiring e b rn : same_wiring rn (Enable e b rn).
Proof. by split_and!. Qed.

Lemma enableAll_wiring es b rn : same_wiring rn (enableAll es b rn).
Proof.
  revert rn. induction es as [|e es IH]; intros rn; simpl; [reflexivity|].
  etrans; [apply Enable_wiring|apply IH].
Qed.

(** The ends a tester makes, one (name, server) pair at a time. *)
Fixpoint makeAll (ps : list (Z * Z)) (rn : Network) : outcome Network :=
  match ps with
  | [] => Ret rn
  | (e, j) :: ps' => rn' ← MakeEnd e rn; makeAll ps' (Connect e j rn')
  end.

Lemma makeAll_spec ps rn rn' :
  makeAll ps rn = Ret rn' ->
  NoDup ps.*1 /\ (forall e, e ∈ ps.*1 -> e ∉ ends rn) /\
  (forall e, e ∈ ends rn' <-> e ∈ ends rn \/ e ∈ ps.*1) /\
  (forall e, isEnabled rn' e = if decide (e ∈ ps.*1) then false else isEnabled rn e) /\
  (forall e j, (e, j) ∈ ps -> connections rn' !! e = Some (Some j)) /\
  (forall e, e ∉ ps.*1 -> connections rn' !! e = connections rn !! e).
Proof.
  revert rn. induction ps as [|[e j] ps IH]; intros rn H; cbn [makeAll] in H.
  { injection H as <-. cbn [fmap list_fmap]. split; [constructor|]. split; [set_solver|].
    split; [set_solver|]. split; [|split; [set_solver|done]]. intros e.
    case_decide as Hin; [by apply not_elem_of_nil in Hin|done]. }
  apply bind_Ret_inv in H as (rn1 & H1 & H). unfold MakeEnd in H1. case_decide as Hin; [done|].
  injection H1 as <-. apply IH in H as (Hnd & Hfr & Hends & Hen & Hcon & Hoth).
  simpl in Hfr, Hends, Hoth. rewrite fmap_cons. cbn [fst].
  assert (He : e ∉ ps.*1) by (intros He; apply (Hfr e He); set_solver).
  split_and!.
  - by constructor.
  - intros x [->|Hx]%elem_of_cons; [done|]. specialize (Hfr x Hx). set_solver.
  - intros x. rewrite Hends. set_solver.
  - intros x. rewrite Hen. unfold isEnabled. simpl.
    destruct (decide (x = e)) as [->|Hx].
    + rewrite lookup_insert_eq, (decide_False (P := e ∈ ps.*1)) by done. by rewrite decide_True by by left.
    + rewrite lookup_insert_ne by done. destruct (decide (x ∈ ps.*1)) as [Hp|Hp].
      * by rewrite decide_True by by right.
      * rewrite decide_False; [done|]. by intros [?|?]%elem_of_cons.
  - intros x k [E|Hx]%elem_of_cons; [|by apply Hcon]. injection E as -> ->.
    rewrite Hoth by done. by rewrite lookup_insert_eq.
  - intros x [Hx1 Hx2]%not_elem_of_cons. rewrite Hoth by done. by rewrite !lookup_insert_ne.
Qed.

Lemma makeAll_total ps rn :
  NoDup ps.*1 -> (forall e, e ∈ ps.*1 -> e ∉ ends rn) -> exists rn', makeAll ps rn = Ret rn'.
Proof.
  revert rn. induction ps as [|[e j] ps IH]; intros rn Hnd Hfr; [by exists rn|].
  rewrite fmap_cons in *. cbn [fst makeAll] in *. apply NoDup_cons in Hnd as [He Hnd].
  unfold MakeEnd. rewrite decide_False by (apply Hfr; by left). cbn [mbind outcome_bind].
  apply IH; [done|]. intros x Hx. simpl. specialize (Hfr x ltac:(by right)). set_solver.
Qed.
