(* ===== verification/RaftConfig.v ===== *)
(** * The tester of the Raft peers: raft/config.go

    The record [config] has the fields of the Go struct (the mutex, the test
    handle and the clocks apart).  [cfg.rafts] holds the running peers; while
    peer [i] runs, [cfg.saved[i]] and the peer's persister are one object, so
    [saved_now] reads it through the peer.  The operations that start, crash,
    connect and disconnect peers are functions on the state; the checks, which
    read the peers one after the other while they keep running, take the state
    at each of their reads as an argument. *)

From stdpp Require Import base list list_numbers gmap.
From S2P Require Import Prelude Gob RaftNode LabRpc Harness.
Open Scope Z_scope.

(** What a reader of applyCh reports. *)
Inductive apply_error : Type :=
| CommitDiffers (index server v other old : Z)
| ApplyOutOfOrder (server index : Z)
| NotAnInt (index : Z).

Inductive failure : Type :=
| ApplyError (e : apply_error)
| ManyLeaders (term count : Z)
| ExpectedOneLeader
| TermsDisagree
| ClaimsToBeLeader (server : Z)
| ValuesDoNotMatch (index v w : Z)
| TooFewDecided (nd index wanted : Z)
| NoAgreement (cmd : Z).

Record config : Type := mkConfig {
  cfg_net : Network;
  cfg_n : Z;
  rafts : list (option (Raft Z));
  applyErr : list (option apply_error);
  connected : list bool;
  saved : list (option Persister);
  endnames : list (option (list Z));
  logs : list (gmap Z Z);
  rpcs0 : Z;
  cmds0 : Z;
  maxIndex : Z;
  maxIndex0 : Z;
  nextServer : nat
}.

Implicit Types cfg : config.

(** ** Field assignments *)
Definition set_net (v : Network) cfg : config :=
  mkConfig v (cfg_n cfg) (rafts cfg) (applyErr cfg) (connected cfg) (saved cfg) (endnames cfg)
    (logs cfg) (rpcs0 cfg) (cmds0 cfg) (maxIndex cfg) (maxIndex0 cfg) (nextServer cfg).
Definition set_rafts (v : list (option (Raft Z))) cfg : config :=
  mkConfig (cfg_net cfg) (cfg_n cfg) v (applyErr cfg) (connected cfg) (saved cfg) (endnames cfg)
    (logs cfg) (rpcs0 cfg) (cmds0 cfg) (maxIndex cfg) (maxIndex0 cfg) (nextServer cfg).
Definition set_connected (v : list bool) cfg : config :=
  mkConfig (cfg_net cfg) (cfg_n cfg) (rafts cfg) (applyErr cfg) v (saved cfg) (endnames cfg)
    (logs cfg) (rpcs0 cfg) (cmds0 cfg) (maxIndex cfg) (maxIndex0 cfg) (nextServer cfg).
Definition set_saved (v : list (option Persister)) cfg : config :=
  mkConfig (cfg_net cfg) (cfg_n cfg) (rafts cfg) (applyErr cfg) (connected cfg) v (endnames cfg)
    (logs cfg) (rpcs0 cfg) (cmds0 cfg) (maxIndex cfg) (maxIndex0 cfg) (nextServer cfg).
Definition set_endnames (v : list (option (list Z))) cfg : config :=
  mkConfig (cfg_net cfg) (cfg_n cfg) (rafts cfg) (applyErr cfg) (connected cfg) (saved cfg) v
    (logs cfg) (rpcs0 cfg) (cmds0 cfg) (maxIndex cfg) (maxIndex0 cfg) (nextServer cfg).
Definition set_logs (v : list (gmap Z Z)) (m : Z) cfg : config :=
  mkConfig (cfg_net cfg) (cfg_n cfg) (rafts cfg) (applyErr cfg) (connected cfg) (saved cfg)
    (endnames cfg) v (rpcs0 cfg) (cmds0 cfg) m (maxIndex0 cfg) (nextServer cfg).
Definition set_nextServer (v : nat) cfg : config :=
  mkConfig (cfg_net cfg) (cfg_n cfg) (rafts cfg) (applyErr cfg) (connected cfg) (saved cfg)
    (endnames cfg) (logs cfg) (rpcs0 cfg) (cmds0 cfg) (maxIndex cfg) (maxIndex0 cfg) v.

Definition on_net (f : Network -> Network) cfg : config := set_net (f (cfg_net cfg)) cfg.

(** ** Connecting and disconnecting *)

(** [cfg.endnames[i][j]]; a nil row has no elements. *)
Definition endname_at cfg (i j : Z) : outcome Z :=
  row ← slice_get (endnames cfg) i;
  slice_get (default [] row) j.

(** [if cfg.connected[j] { cfg.net.Enable(cfg.endnames[..][..], true) }] *)
Definition enable_if_connected (j : Z) (end_of : config -> outcome Z) cfg : outcome config :=
  c ← slice_get (connected cfg) j;
  if c : bool then e ← end_of cfg; Ret (on_net (Enable e true) cfg) else Ret cfg.

Definition connect (i : Z) cfg : outcome config :=
  conn ← slice_set (connected cfg) i true;
  cfg1 ← for_each (fun j cfg => enable_if_connected j (fun cfg => endname_at cfg i j) cfg)
           (seqZ 0 (cfg_n cfg)) (set_connected conn cfg);
  for_each (fun j cfg => enable_if_connected j (fun cfg => endname_at cfg j i) cfg)
    (seqZ 0 (cfg_n cfg)) cfg1.

(** [if cfg.endnames[r] != nil { cfg.net.Enable(cfg.endnames[r][c], false) }] *)
Definition disable_if_named (r c : Z) cfg : outcome config :=
  row ← slice_get (endnames cfg) r;
  match row with
  | Some names => e ← slice_get names c; Ret (on_net (Enable e false) cfg)
  | None => Ret cfg
  end.

Definition disconnect (i : Z) cfg : outcome config :=
  conn ← slice_set (connected cfg) i false;
  cfg1 ← for_each (fun j cfg => disable_if_named i j cfg) (seqZ 0 (cfg_n cfg))
           (set_connected conn cfg);
  for_each (fun j cfg => disable_if_named j i cfg) (seqZ 0 (cfg_n cfg)) cfg1.

(** ** Crashing and starting a peer *)

(** The object [cfg.saved[i]] points at. *)
Definition saved_now cfg (i : Z) : outcome (option Persister) :=
  sv ← slice_get (saved cfg) i;
  rf ← slice_get (rafts cfg) i;
  Ret (match sv, rf with
       | Some _, Some rf => Some (persister rf)
       | _, _ => sv
       end).

(** [crash1]: the peer is cut off, the persister is copied away from it, and of
    the copy only the Raft state is kept.  The killed peer is not referenced
    any more. *)
Definition crash1 (i : Z) cfg : outcome config :=
  cfg1 ← disconnect i cfg;
  let cfg2 := on_net (DeleteServer i) cfg1 in
  sv ← saved_now cfg2 i;
  let copied := Copy <$> sv in
  rfs ← slice_set (rafts cfg2) i None;
  let raftlog_only := (fun ps => SaveRaftState MakePersister (ReadRaftState ps)) <$> copied in
  svs ← slice_set (saved cfg2) i raftlog_only;
  Ret (set_saved svs (set_rafts rfs cfg2)).

(** The ends of a new peer: a fresh name per server, made and connected. *)
Definition make_end (i j : Z) cfg : outcome config :=
  e ← endname_at cfg i j;
  rn ← MakeEnd e (cfg_net cfg);
  Ret (set_net (Connect e j rn) cfg).
Definition make_ends (i : Z) (randstring : Z -> Z) cfg : outcome config :=
  rows ← slice_set (endnames cfg) i (Some (randstring <$> seqZ 0 (cfg_n cfg)));
  for_each (make_end i) (seqZ 0 (cfg_n cfg)) (set_endnames rows cfg).

(** [start1]; [randstring j] is the [j]-th random name it draws.  A name that is
    already taken ends the process in MakeEnd. *)
Definition start1 (i : Z) (randstring : Z -> Z) cfg : outcome config :=
  cfg1 ← crash1 i cfg;
  cfg2 ← make_ends i randstring cfg1;
  sv ← slice_get (saved cfg2) i;
  let ps := match sv with Some ps => Copy ps | None => MakePersister end in
  svs ← slice_set (saved cfg2) i (Some ps);
  let '(rf, _) := Make (Cmd := Z) (cfg_n cfg2) i ps in
  rfs ← slice_set (rafts cfg2) i (Some rf);
  let cfg3 := set_rafts rfs (set_saved svs cfg2) in
  Ret (set_nextServer (S (nextServer cfg3)) (on_net (AddServer i (nextServer cfg3)) cfg3)).

Definition setunreliable (unrel : bool) cfg : config := on_net (Reliable (negb unrel)) cfg.
Definition setlongreordering (longrel : bool) cfg : config := on_net (LongReordering longrel) cfg.
Definition rpcTotal cfg : Z := GetTotalCount (cfg_net cfg).

(** The slices and maps [make_config] makes before the first peer is started. *)
Definition fresh_config (n : Z) : config :=
  let k := Z.to_nat n in
  mkConfig MakeNetwork n (replicate k None) (replicate k None) (replicate k false)
    (replicate k None) (replicate k None) (replicate k ∅) 0 0 0 0 0.

(** [make_config]; [randstring i j] is the name drawn for the end from [i] to
    [j]. *)
Definition make_config (n : Z) (unreliable : bool) (randstring : Z -> Z -> Z) : outcome config :=
  let cfg1 := on_net (LongDelays true) (setunreliable unreliable (fresh_config n)) in
  cfg2 ← for_each (fun i cfg => start1 i (randstring i) cfg) (seqZ 0 n) cfg1;
  for_each (fun i cfg => connect i cfg) (seqZ 0 n) cfg2.

(** [cleanup]: the peers are killed and the network is stopped. *)
Definition cleanup cfg : outcome config :=
  let cfg1 := set_rafts (map (option_map Kill) (rafts cfg)) cfg in
  rn ← Cleanup (cfg_net cfg1);
  Ret (set_net rn cfg1).

(** [begin] and the numbers [end] prints: peers, RPCs, agreements. *)
Definition begin cfg : config :=
  mkConfig (cfg_net cfg) (cfg_n cfg) (rafts cfg) (applyErr cfg) (connected cfg) (saved cfg)
    (endnames cfg) (logs cfg) (rpcTotal cfg) 0 (maxIndex cfg) (maxIndex cfg) (nextServer cfg).
Definition end_stats cfg : Z * Z * Z :=
  (cfg_n cfg, rpcTotal cfg - rpcs0 cfg, maxIndex cfg - maxIndex0 cfg).

(** ** The reader of applyCh *)

(** The comparison with every server's log; the last difference is reported. *)
Fixpoint differs (i index v : Z) (j : Z) (ls : list (gmap Z Z)) (err : option apply_error)
    : option apply_error :=
  match ls with
  | [] => err
  | l :: ls' =>
      differs i index v (j + 1) ls'
        (match l !! index with
         | Some old => if negb (old =? v) then Some (CommitDiffers index i v j old) else err
         | None => err
         end)
  end.

(** One round of the goroutine [start1] starts for server [i].  log.Fatalf ends
    the process on the first error. *)
Definition applier (i : Z) (m : ApplyMsg Z) cfg : verdict failure config :=
  match m with
  | SnapshotMsg _ => Pass cfg
  | CommandMsg index (Some v) =>
      let err := differs i index v 0 (logs cfg) None in
      mine ← lift (slice_get (logs cfg) i);
      let prevok := bool_decide (is_Some (mine !! (index - 1))) in
      ls ← lift (slice_set (logs cfg) i (<[index := v]> mine));
      let cfg1 := set_logs ls (if maxIndex cfg <? index then index else maxIndex cfg) cfg in
      let err1 := if (1 <? index) && negb prevok then Some (ApplyOutOfOrder i index) else err in
      match err1 with Some e => Fatal (ApplyError e) | None => Pass cfg1 end
  | CommandMsg index None => Fatal (ApplyError (NotAnInt index))
  end.

(** ** Checks that read the running peers *)

(** [cfg.rafts[i].GetState()]; a nil peer is a nil dereference. *)
Definition getState cfg (i : Z) : verdict failure (Z * bool) :=
  rf ← lift (slice_get (rafts cfg) i);
  match rf with Some rf => Pass (GetState rf) | None => Crash end.

(** The leaders seen by one scan; [view i] is the state when [i] is read. *)
Fixpoint scanLeaders (view : Z -> config) (srvs : list Z) (leaders : gmap Z (list Z))
    : verdict failure (gmap Z (list Z)) :=
  match srvs with
  | [] => Pass leaders
  | i :: srvs' =>
      c ← lift (slice_get (connected (view i)) i);
      if c : bool then
        '(term, leader) ← getState (view i) i;
        scanLeaders view srvs'
          (if leader : bool then <[term := default [] (leaders !! term) ++ [i]]> leaders else leaders)
      else scanLeaders view srvs' leaders
  end.

(** [for term, leaders := range leaders { ... }] *)
Fixpoint lastTerm (ts : list (Z * list Z)) (last : Z) : verdict failure Z :=
  match ts with
  | [] => Pass last
  | (term, ls) :: ts' =>
      if 1 <? len ls then Fatal (ManyLeaders term (len ls))
      else lastTerm ts' (if last <? term then term else last)
  end.

(** [checkOneLeader]: the remaining iterations; iteration [k] scans [view k]. *)
Fixpoint oneLeader (iters : nat) (k n : Z) (view : Z -> Z -> config) : verdict failure Z :=
  match iters with
  | O => Fatal ExpectedOneLeader
  | S iters' =>
      leaders ← scanLeaders (view k) (seqZ 0 n) ∅;
      lastTermWithLeader ← lastTerm (map_to_list leaders) (-1);
      if negb (Z.of_nat (size leaders) =? 0) then
        lift (slice_get (default [] (leaders !! lastTermWithLeader)) 0)
      else oneLeader iters' (k + 1) n view
  end.
Definition checkOneLeader (n : Z) (view : Z -> Z -> config) : verdict failure Z :=
  oneLeader 10 0 n view.

Fixpoint scanTerms (view : Z -> config) (srvs : list Z) (term : Z) : verdict failure Z :=
  match srvs with
  | [] => Pass term
  | i :: srvs' =>
      c ← lift (slice_get (connected (view i)) i);
      if c : bool then
        '(xterm, _) ← getState (view i) i;
        if term =? -1 then scanTerms view srvs' xterm
        else if negb (term =? xterm) then Fatal TermsDisagree
        else scanTerms view srvs' term
      else scanTerms view srvs' term
  end.
Definition checkTerms (n : Z) (view : Z -> config) : verdict failure Z :=
  scanTerms view (seqZ 0 n) (-1).

Fixpoint checkNoLeader (view : Z -> config) (srvs : list Z) : verdict failure unit :=
  match srvs with
  | [] => Pass tt
  | i :: srvs' =>
      c ← lift (slice_get (connected (view i)) i);
      if c : bool then
        '(_, is_leader) ← getState (view i) i;
        if is_leader : bool then Fatal (ClaimsToBeLeader i) else checkNoLeader view srvs'
      else checkNoLeader view srvs'
  end.

(** ** Agreement *)

(** The loop of [nCommitted]; [view i] is the state when [i] is read. *)
Fixpoint countCommitted (view : Z -> config) (index : Z) (srvs : list Z) (count cmd : Z)
    : verdict failure (Z * Z) :=
  match srvs with
  | [] => Pass (count, cmd)
  | i :: srvs' =>
      err ← lift (slice_get (applyErr (view i)) i);
      match err with
      | Some e => Fatal (ApplyError e)
      | None =>
          l ← lift (slice_get (logs (view i)) i);
          match l !! index with
          | Some cmd1 =>
              if (0 <? count) && negb (cmd =? cmd1) then Fatal (ValuesDoNotMatch index cmd cmd1)
              else countCommitted view index srvs' (count + 1) cmd1
          | None => countCommitted view index srvs' count cmd
          end
      end
  end.
Definition nCommitted (n : Z) (view : Z -> config) (index : Z) : verdict failure (Z * Z) :=
  countCommitted view index (seqZ 0 n) 0 (-1).

(** [for _, r := range cfg.rafts { if t, _ := r.GetState(); t > startTerm ... }] *)
Fixpoint someoneMovedOn (view : Z -> config) (startTerm : Z) (srvs : list Z) : verdict failure bool :=
  match srvs with
  | [] => Pass false
  | i :: srvs' =>
      '(t, _) ← getState (view i) i;
      if startTerm <? t then Pass true else someoneMovedOn view startTerm srvs'
  end.

(** [wait]; iteration [k] polls with [polls k] and reads the terms with
    [terms k], and the last count is [polls 30]. *)
Fixpoint waitLoop (iters : nat) (k n index wanted startTerm : Z) (polls terms : Z -> Z -> config)
    : verdict failure Z :=
  let finish :=
    '(nd, cmd) ← nCommitted n (polls 30) index;
    if nd <? wanted then Fatal (TooFewDecided nd index wanted) else Pass cmd in
  match iters with
  | O => finish
  | S iters' =>
      '(nd, _) ← nCommitted n (polls k) index;
      if wanted <=? nd then finish
      else
        moved ← (if -1 <? startTerm then someoneMovedOn (terms k) startTerm (seqZ 0 n)
                 else Pass false);
        if moved : bool then Pass (-1)
        else waitLoop iters' (k + 1) n index wanted startTerm polls terms
  end.
Definition wait (n index wanted startTerm : Z) (polls terms : Z -> Z -> config) : verdict failure Z :=
  waitLoop 30 0 n index wanted startTerm polls terms.

(** One round of [one]: the state when each server is tried, and the states read
    by the polls that fit into two seconds. *)
Record round : Type := mkRound { r_try : Z -> config; r_polls : list (Z -> config) }.

(** [for si := 0; si < cfg.n; si++ {...}]: the index the command was given, and
    where the rotation stopped. *)
Fixpoint tryServers (fuel : nat) (n cmd starts : Z) (try : Z -> config)
    : verdict failure (Z * Z) :=
  match fuel with
  | O => Pass (-1, starts)
  | S fuel' =>
      let starts := Z.rem (starts + 1) n in
      c ← lift (slice_get (connected (try starts)) starts);
      rf ← (if c : bool then lift (slice_get (rafts (try starts)) starts) else Pass None);
      match rf with
      | Some rf =>
          '(_, (index1, _, ok), _) ← lift (Start rf cmd);
          if ok : bool then Pass (index1, starts) else tryServers fuel' n cmd starts try
      | None => tryServers fuel' n cmd starts try
      end
  end.

Fixpoint pollAgreement (n cmd expectedServers index : Z) (polls : list (Z -> config))
    : verdict failure bool :=
  match polls with
  | [] => Pass false
  | view :: polls' =>
      '(nd, cmd1) ← nCommitted n view index;
      if (0 <? nd) && (expectedServers <=? nd) && (cmd1 =? cmd) then Pass true
      else pollAgreement n cmd expectedServers index polls'
  end.

(** [one]: the rounds that start within ten seconds. *)
Fixpoint oneLoop (rounds : list round) (n cmd expectedServers starts : Z) (retry : bool)
    : verdict failure Z :=
  match rounds with
  | [] => Fatal (NoAgreement cmd)
  | r :: rounds' =>
      '(index, starts) ← tryServers (Z.to_nat n) n cmd starts (r_try r);
      if negb (index =? -1) then
        agreed ← pollAgreement n cmd expectedServers index (r_polls r);
        if agreed : bool then Pass index
        else if negb retry then Fatal (NoAgreement cmd)
        else oneLoop rounds' n cmd expectedServers starts retry
      else oneLoop rounds' n cmd expectedServers starts retry
  end.
Definition one (n cmd expectedServers : Z) (retry : bool) (rounds : list round)
    : verdict failure Z := oneLoop rounds n cmd expectedServers 0 retry.
