(* ===== verification/RaftWiring.v ===== *)
(** * The tester's network follows its servers

    raft/config.go names the client ends of every server and enables and
    disables them one by one.  [wired] is the invariant of that bookkeeping:
    after any sequence of starts, crashes, connects and disconnects an end is
    enabled exactly when it is the current end between two connected servers. *)

From stdpp Require Import base list list_numbers gmap.
From S2P Require Import Prelude Gob RaftNode LabRpc Harness RaftConfig.
Open Scope Z_scope.

Implicit Types cfg : config.

(** ** The ends stay wired *)

(** The current end from server [i] to server [j]. *)
Definition name_of cfg (i j : nat) : option Z :=
  row ← endnames cfg !! i; names ← row; names !! j.

Definition online cfg (i : nat) : Prop := connected cfg !! i = Some true.

(** An end is enabled exactly when it is a current end between two connected
    servers; the ends of crashed peers stay disabled. *)
Record wired cfg : Prop := {
  wi_conn : len (connected cfg) = cfg_n cfg;
  wi_rows : len (endnames cfg) = cfg_n cfg;
  wi_row i names : endnames cfg !! i = Some (Some names) -> len names = cfg_n cfg;
  wi_made i j e : name_of cfg i j = Some e -> e ∈ ends (cfg_net cfg);
  wi_inj i j i' j' e : name_of cfg i j = Some e -> name_of cfg i' j' = Some e -> i = i' /\ j = j';
  wi_to i j e : name_of cfg i j = Some e -> connections (cfg_net cfg) !! e = Some (Some (Z.of_nat j));
  wi_enabled e : isEnabled (cfg_net cfg) e = true <->
    exists i j, name_of cfg i j = Some e /\ online cfg i /\ online cfg j;
  wi_named i : online cfg i -> exists names, endnames cfg !! i = Some (Some names)
}.

(** A loop that enables or disables the ends [sel] picks. *)
Lemma loop_enable (sel : Z -> option Z) b body (l : list Z) cfg :
  (forall j rn, j ∈ l -> body j (set_net rn cfg) =
     Ret (match sel j with Some e => set_net (Enable e b rn) cfg | None => set_net rn cfg end)) ->
  for_each body l cfg = Ret (set_net (enableAll (omap sel l) b (cfg_net cfg)) cfg).
Proof.
  intros Hb. replace cfg with (set_net (cfg_net cfg) cfg) at 1 by by destruct cfg.
  generalize (cfg_net cfg) as rn. induction l as [|j l IH]; intros rn; cbn [for_each]; [done|].
  rewrite Hb by by left. cbn [omap list_omap].
  destruct (sel j) as [e|]; cbn [mbind outcome_bind];
    rewrite IH by (intros; apply Hb; by right); done.
Qed.

Lemma name_of_lookup cfg (i j : Z) names :
  0 <= j -> endnames cfg !! Z.to_nat i = Some (Some names) ->
  slice_get names j =
    match name_of cfg (Z.to_nat i) (Z.to_nat j) with Some e => Ret e | None => Panic end.
Proof.
  intros Hj Hrow. unfold name_of, slice_get. rewrite Hrow. cbn. by rewrite decide_True.
Qed.

(** The ends of server [i] and to server [i], as the loops pick them. *)
Definition outgoing cfg (i j : Z) : option Z := name_of cfg (Z.to_nat i) (Z.to_nat j).
Definition incoming cfg (i j : Z) : option Z := name_of cfg (Z.to_nat j) (Z.to_nat i).

Lemma elem_ends (sel : Z -> option Z) n e :
  e ∈ omap sel (seqZ 0 n) <-> exists j, 0 <= j < n /\ sel j = Some e.
Proof.
  rewrite list_elem_of_omap. split.
  - intros (j & Hj%elem_of_seqZ & E). exists j. split; [lia|done].
  - intros (j & Hj & E). exists j. split; [apply elem_of_seqZ; lia|done].
Qed.

Lemma wired_name cfg i j names :
  wired cfg -> endnames cfg !! i = Some (Some names) -> (j < Z.to_nat (cfg_n cfg))%nat ->
  exists e, name_of cfg i j = Some e.
Proof.
  intros W Hr Hj. pose proof (wi_row _ W _ _ Hr) as Hl. unfold len in Hl.
  destruct (lookup_lt_is_Some_2 names j) as [e He]; [lia|]. exists e.
  unfold name_of. rewrite Hr. exact He.
Qed.

Lemma name_of_range cfg i j e :
  wired cfg -> name_of cfg i j = Some e ->
  (i < Z.to_nat (cfg_n cfg))%nat /\ (j < Z.to_nat (cfg_n cfg))%nat.
Proof.
  intros W H. unfold name_of in H.
  destruct (endnames cfg !! i) as [[names|]|] eqn:Er; try done. simpl in H.
  pose proof (wi_row _ W _ _ Er). pose proof (wi_rows _ W).
  apply lookup_lt_Some in Er, H. unfold len in *. lia.
Qed.

(** *** disconnect *)

(** The loops change the net of a state [c0] with the ends of [cfg]. *)
Lemma disable_spec cfg c0 (r c : Z) rn :
  wired cfg -> endnames c0 = endnames cfg -> 0 <= r < cfg_n cfg -> 0 <= c < cfg_n cfg ->
  disable_if_named r c (set_net rn c0) =
    Ret (match name_of cfg (Z.to_nat r) (Z.to_nat c) with
         | Some e => set_net (Enable e false rn) c0 | None => set_net rn c0 end).
Proof.
  intros W E0 Hr Hc. unfold disable_if_named. simpl. rewrite E0.
  destruct (slice_get_in (endnames cfg) r) as [row Hrow]; [rewrite (wi_rows _ W); lia|].
  rewrite Hrow. apply slice_get_Ret in Hrow as [_ Hrow]. simpl. destruct row as [names|].
  - destruct (wired_name cfg _ (Z.to_nat c) names W Hrow) as [e He]; [lia|].
    rewrite (name_of_lookup cfg r) by (done || lia). by rewrite He.
  - unfold name_of. by rewrite Hrow.
Qed.

Lemma disconnect_spec cfg i :
  wired cfg -> 0 <= i < cfg_n cfg ->
  disconnect i cfg = Ret (set_net
    (enableAll (omap (incoming cfg i) (seqZ 0 (cfg_n cfg))) false
      (enableAll (omap (outgoing cfg i) (seqZ 0 (cfg_n cfg))) false (cfg_net cfg)))
    (set_connected (<[Z.to_nat i := false]> (connected cfg)) cfg)).
Proof.
  intros W Hi. unfold disconnect, slice_set. rewrite (wi_conn _ W), decide_True by lia.
  cbn [mbind outcome_bind].
  rewrite (loop_enable (outgoing cfg i) false)
    by (intros j rn Hj%elem_of_seqZ; by apply disable_spec; try lia).
  cbn [mbind outcome_bind]. by rewrite (loop_enable (incoming cfg i) false)
    by (intros j rn Hj%elem_of_seqZ; by apply disable_spec; try lia).
Qed.

(** The ends of a state whose net and connections changed. *)
Lemma wired_update cfg rn conn :
  wired cfg -> length conn = length (connected cfg) -> same_wiring (cfg_net cfg) rn ->
  (forall e, isEnabled rn e = true <->
     exists i j, name_of cfg i j = Some e /\ conn !! i = Some true /\ conn !! j = Some true) ->
  (forall i, conn !! i = Some true -> exists names, endnames cfg !! i = Some (Some names)) ->
  wired (set_net rn (set_connected conn cfg)).
Proof.
  intros [] Hl (E1 & E2 & E3 & _) Hen Hnm. split; simpl; auto.
  - unfold len in *. by rewrite Hl.
  - intros i j e He. rewrite E1. by eapply wi_made0.
  - intros i j e He. rewrite E3. by eapply wi_to0.
Qed.

Lemma disconnect_wired cfg i cfg' :
  wired cfg -> 0 <= i < cfg_n cfg -> disconnect i cfg = Ret cfg' -> wired cfg'.
Proof.
  intros W Hi H. rewrite (disconnect_spec cfg i W Hi) in H. injection H as <-.
  apply wired_update; [done|by rewrite length_insert|etrans; apply enableAll_wiring| |].
  2:{ intros j [(_ & ? & _)|[_ Hj]]%list_lookup_insert_Some; [done|by apply (wi_named _ W)]. }
  intros e. rewrite !isEnabled_enableAll. split.
  - case_decide as Hin; [done|]. case_decide as Hout; [done|]. intros (i0 & j0 & Hn & Hi0 & Hj0)%(wi_enabled _ W).
    destruct (name_of_range _ _ _ _ W Hn).
    exists i0, j0. split; [done|].
    assert (Z.to_nat i <> i0 /\ Z.to_nat i <> j0) as [Hni Hnj].
    { split; intros <-; [apply Hout|apply Hin]; apply elem_ends;
        [exists (Z.of_nat j0)|exists (Z.of_nat i0)]; unfold outgoing, incoming;
        rewrite Nat2Z.id; (split; [lia|done]). }
    by rewrite !list_lookup_insert_ne.
  - intros (i0 & j0 & Hn & Hi0 & Hj0).
    assert (i0 <> Z.to_nat i /\ j0 <> Z.to_nat i) as [Hni Hnj].
    { split; intros ->; rewrite list_lookup_insert_eq in *; try done; pose proof (wi_conn _ W);
        unfold len in *; lia. }
    rewrite list_lookup_insert_ne in Hi0, Hj0 by done.
    case_decide as Hin; [|case_decide as Hout].
    + apply elem_ends in Hin as (j & _ & Hj). unfold incoming in Hj.
      by destruct (wi_inj _ W _ _ _ _ _ Hn Hj).
    + apply elem_ends in Hout as (j & _ & Hj). unfold outgoing in Hj.
      by destruct (wi_inj _ W _ _ _ _ _ Hn Hj).
    + apply (wi_enabled _ W). by exists i0, j0.
Qed.

(** *** connect *)
Lemma enable_spec cfg c0 (j r c : Z) rn (b : bool) :
  wired cfg -> endnames c0 = endnames cfg -> connected c0 !! Z.to_nat j = Some b -> 0 <= j ->
  0 <= r < cfg_n cfg -> 0 <= c < cfg_n cfg ->
  (b = true -> exists names, endnames cfg !! Z.to_nat r = Some (Some names)) ->
  enable_if_connected j (fun cfg => endname_at cfg r c) (set_net rn c0) =
    Ret (match (if b then name_of cfg (Z.to_nat r) (Z.to_nat c) else None) with
         | Some e => set_net (Enable e true rn) c0 | None => set_net rn c0 end).
Proof.
  intros W E0 Hb Hj Hr Hc Hnm. unfold enable_if_connected. simpl.
  assert (slice_get (connected c0) j = Ret b) as -> by (by apply slice_get_Ret).
  simpl. destruct b; [|done]. destruct (Hnm eq_refl) as [names Hrow].
  unfold endname_at. simpl. rewrite E0.
  assert (slice_get (endnames cfg) r = Ret (Some names)) as -> by (apply slice_get_Ret; split; [lia|done]).
  simpl. destruct (wired_name cfg _ (Z.to_nat c) names W Hrow) as [e He]; [lia|].
  rewrite (name_of_lookup cfg r) by (done || lia). by rewrite He.
Qed.

(** The ends between [i] and the servers that [conn] connects. *)
Definition linked (conn : list bool) (sel : Z -> option Z) (j : Z) : option Z :=
  if default false (conn !! Z.to_nat j) then sel j else None.

Lemma connect_spec cfg i names :
  wired cfg -> 0 <= i < cfg_n cfg -> endnames cfg !! Z.to_nat i = Some (Some names) ->
  let conn := <[Z.to_nat i := true]> (connected cfg) in
  connect i cfg = Ret (set_net
    (enableAll (omap (linked conn (incoming cfg i)) (seqZ 0 (cfg_n cfg))) true
      (enableAll (omap (linked conn (outgoing cfg i)) (seqZ 0 (cfg_n cfg))) true (cfg_net cfg)))
    (set_connected conn cfg)).
Proof.
  intros W Hi Hrow conn. unfold connect, slice_set. rewrite (wi_conn _ W), decide_True by lia.
  cbn [mbind outcome_bind]. fold conn.
  assert (Hconn : forall j, 0 <= j < cfg_n cfg -> exists b, conn !! Z.to_nat j = Some b /\
    default false (conn !! Z.to_nat j) = b /\
    (b = true -> exists names, endnames cfg !! Z.to_nat j = Some (Some names))).
  { intros j Hj. pose proof (wi_conn _ W) as Hl. unfold len in Hl.
    destruct (lookup_lt_is_Some_2 conn (Z.to_nat j)) as [b Hb]; [subst conn; rewrite length_insert; lia|].
    exists b. rewrite Hb. split_and!; [done|done|]. intros ->.
    apply list_lookup_insert_Some in Hb as [(<- & _)|[_ Hb]]; [by exists names|by apply (wi_named _ W)]. }
  rewrite (loop_enable (linked conn (outgoing cfg i)) true).
  2:{ intros j rn Hj%elem_of_seqZ. destruct (Hconn j) as (b & Hb & Ed & _); [lia|].
      unfold linked. rewrite Ed. apply enable_spec; try done; try lia. intros _. by exists names. }
  cbn [mbind outcome_bind]. rewrite (loop_enable (linked conn (incoming cfg i)) true); [done|].
  intros j rn Hj%elem_of_seqZ. destruct (Hconn j) as (b & Hb & Ed & Hnm); [lia|].
  unfold linked. rewrite Ed. apply enable_spec; try done; lia.
Qed.

(** A server without ends cannot be connected: [cfg.endnames[i][i]] panics. *)
Lemma connect_named cfg i cfg' :
  wired cfg -> 0 <= i < cfg_n cfg -> connect i cfg = Ret cfg' ->
  exists names, endnames cfg !! Z.to_nat i = Some (Some names).
Proof.
  intros W Hi H. pose proof (wi_rows _ W) as Hl. pose proof (wi_conn _ W) as Hc. unfold len in Hl, Hc.
  destruct (lookup_lt_is_Some_2 (endnames cfg) (Z.to_nat i)) as [[names|] Hrow]; [lia|by exists names|].
  exfalso. unfold connect, slice_set in H. rewrite decide_True in H by (unfold len; lia).
  cbn [mbind outcome_bind] in H. apply bind_Ret_inv in H as (c1 & H & _).
  set (c0 := set_connected _ cfg) in H.
  assert (Hinv : forall l c c', endnames c = endnames cfg -> connected c = connected c0 -> i ∈ l ->
    for_each (fun j cfg => enable_if_connected j (fun cfg => endname_at cfg i j) cfg) l c <> Ret c').
  { induction l as [|j l IH]; intros c c' E1 E2 Hin E; [by apply not_elem_of_nil in Hin|].
    cbn [for_each] in E. apply bind_Ret_inv in E as (t & Ht & E). unfold enable_if_connected in Ht.
    apply bind_Ret_inv in Ht as (b & Hb & Ht). rewrite E2 in Hb.
    apply elem_of_cons in Hin as [<-|Hin].
    - apply slice_get_Ret in Hb as [_ Hb]. unfold c0 in Hb. simpl in Hb.
      rewrite list_lookup_insert_eq in Hb by lia. injection Hb as <-.
      apply bind_Ret_inv in Ht as (e & He & _). unfold endname_at in He. rewrite E1 in He.
      apply bind_Ret_inv in He as (row & [_ Hr]%slice_get_Ret & He). rewrite Hrow in Hr. injection Hr as <-.
      by apply slice_get_Ret in He as [_ He].
    - apply (IH t c'); try done; destruct b; bind_inv; by simplify_eq. }
  eapply Hinv; [..|exact H]; try done. apply elem_of_seqZ. lia.
Qed.

Lemma connect_wired cfg i cfg' :
  wired cfg -> 0 <= i < cfg_n cfg -> connect i cfg = Ret cfg' -> wired cfg'.
Proof.
  intros W Hi H. destruct (connect_named cfg i cfg' W Hi H) as [names Hrow].
  rewrite (connect_spec cfg i names W Hi Hrow) in H. injection H as <-.
  pose proof (wi_conn _ W) as Hl. unfold len in Hl.
  set (conn := <[Z.to_nat i := true]> (connected cfg)).
  assert (Hci : conn !! Z.to_nat i = Some true) by (apply list_lookup_insert_eq; lia).
  assert (Hmono : forall j, online cfg j -> conn !! j = Some true).
  { intros j Hj. destruct (decide (j = Z.to_nat i)) as [->|]; [done|].
    unfold conn. by rewrite list_lookup_insert_ne. }
  assert (Hback : forall j, conn !! j = Some true -> j = Z.to_nat i \/ online cfg j).
  { intros j [(<- & _)|[_ Hj]]%list_lookup_insert_Some; auto. }
  apply wired_update; [done|by unfold conn; rewrite length_insert|etrans; apply enableAll_wiring| |].
  2:{ intros j [->|Hj]%Hback; [by exists names|by apply (wi_named _ W)]. }
  intros e. rewrite !isEnabled_enableAll. split.
  - assert (Hlk : forall sel j, linked conn sel j = Some e -> conn !! Z.to_nat j = Some true /\ sel j = Some e).
    { intros sel j. unfold linked. destruct (conn !! Z.to_nat j) as [[]|]; naive_solver. }
    case_decide as Hin; [|case_decide as Hout].
    + intros _. apply elem_ends in Hin as (j & _ & [Hj Hn]%Hlk). eexists _, _. split; [exact Hn|done].
    + intros _. apply elem_ends in Hout as (j & _ & [Hj Hn]%Hlk). eexists _, _. split; [exact Hn|done].
    + intros (i0 & j0 & Hn & ? & ?)%(wi_enabled _ W). exists i0, j0. auto.
  - intros (i0 & j0 & Hn & Hi0 & Hj0). destruct (name_of_range _ _ _ _ W Hn).
    case_decide as Hin; [done|]. case_decide as Hout; [done|]. apply (wi_enabled _ W).
    exists i0, j0. split; [done|]. split.
    + destruct (Hback _ Hi0) as [->|]; [|done]. destruct Hout. apply elem_ends.
      exists (Z.of_nat j0). unfold linked, outgoing. rewrite Nat2Z.id, Hj0. split; [lia|done].
    + destruct (Hback _ Hj0) as [->|]; [|done]. destruct Hin. apply elem_ends.
      exists (Z.of_nat i0). unfold linked, incoming. rewrite Nat2Z.id, Hi0. split; [lia|done].
Qed.

(** *** crash1 and start1 *)

(** The wiring depends on four fields of the state and on the net's ends. *)
Lemma wired_ext cfg cfg' :
  cfg_n cfg' = cfg_n cfg -> connected cfg' = connected cfg -> endnames cfg' = endnames cfg ->
  ends (cfg_net cfg') = ends (cfg_net cfg) -> enabled (cfg_net cfg') = enabled (cfg_net cfg) ->
  connections (cfg_net cfg') = connections (cfg_net cfg) -> wired cfg -> wired cfg'.
Proof.
  intros E1 E2 E3 E4 E5 E6 []. unfold name_of, online, isEnabled in *.
  split; unfold name_of, online, isEnabled; rewrite ?E1, ?E2, ?E3, ?E4, ?E5, ?E6; done.
Qed.

Lemma crash1_fields cfg i cfg' :
  crash1 i cfg = Ret cfg' -> exists c1, disconnect i cfg = Ret c1 /\
    cfg_n cfg' = cfg_n c1 /\ connected cfg' = connected c1 /\ endnames cfg' = endnames c1 /\
    cfg_net cfg' = DeleteServer i (cfg_net c1) /\ logs cfg' = logs c1.
Proof.
  unfold crash1. intros H. apply bind_Ret_inv in H as (c1 & H1 & H).
  apply bind_Ret_inv in H as (sv & _ & H). bind_inv. simplify_eq. by exists c1.
Qed.

Lemma crash1_wired cfg i cfg' :
  wired cfg -> 0 <= i < cfg_n cfg -> crash1 i cfg = Ret cfg' ->
  wired cfg' /\ cfg_n cfg' = cfg_n cfg /\ connected cfg' = <[Z.to_nat i := false]> (connected cfg) /\
  endnames cfg' = endnames cfg.
Proof.
  intros W Hi H. destruct (crash1_fields _ _ _ H) as (c1 & H1 & En & Ec & Ee & Et & _).
  pose proof (disconnect_wired _ _ _ W Hi H1) as W1.
  rewrite (disconnect_spec _ _ W Hi) in H1. injection H1 as <-. simpl in *.
  split_and!; try done. eapply wired_ext; [..|exact W1]; simpl; by rewrite ?Et.
Qed.

(** The row of names a new peer gets. *)
Definition drawn (randstring : Z -> Z) (n : Z) : list Z := randstring <$> seqZ 0 n.

Lemma drawn_lookup randstring n (j : nat) :
  (j < Z.to_nat n)%nat -> drawn randstring n !! j = Some (randstring (Z.of_nat j)).
Proof.
  intros Hj. unfold drawn. rewrite list_lookup_fmap, lookup_seqZ_lt by lia. done.
Qed.

Lemma new_endname cfg i j randstring rn :
  0 <= i < len (endnames cfg) -> 0 <= j < cfg_n cfg ->
  endname_at (set_net rn (set_endnames
    (<[Z.to_nat i := Some (drawn randstring (cfg_n cfg))]> (endnames cfg)) cfg)) i j = Ret (randstring j).
Proof.
  intros Hi Hj. unfold endname_at. simpl.
  assert (slice_get (<[Z.to_nat i := Some (drawn randstring (cfg_n cfg))]> (endnames cfg)) i =
    Ret (Some (drawn randstring (cfg_n cfg)))) as ->.
  { apply slice_get_Ret. split; [lia|]. apply list_lookup_insert_eq. unfold len in Hi. lia. }
  simpl. apply slice_get_Ret. split; [lia|]. rewrite drawn_lookup by lia. f_equal. f_equal. lia.
Qed.

(** The loop of [make_ends] is [makeAll] on the net. *)
Lemma make_ends_eq cfg i randstring :
  0 <= i < len (endnames cfg) ->
  make_ends i randstring cfg =
    (rn ← makeAll ((fun j => (randstring j, j)) <$> seqZ 0 (cfg_n cfg)) (cfg_net cfg);
     Ret (set_net rn (set_endnames
       (<[Z.to_nat i := Some (drawn randstring (cfg_n cfg))]> (endnames cfg)) cfg))).
Proof.
  intros Hi. unfold make_ends, slice_set. rewrite decide_True by done. cbn [mbind outcome_bind].
  fold (drawn randstring (cfg_n cfg)).
  assert (Hname := fun j rn => new_endname cfg i j randstring rn Hi).
  set (c0 := set_endnames _ cfg) in *.
  assert (Hloop : forall l rn, (forall j, j ∈ l -> 0 <= j < cfg_n cfg) ->
    for_each (make_end i) l (set_net rn c0) =
      (rn' ← makeAll ((fun j => (randstring j, j)) <$> l) rn; Ret (set_net rn' c0))).
  { induction l as [|j l IH]; intros rn Hsub; [done|]. cbn [for_each fmap list_fmap makeAll].
    assert (make_end i j (set_net rn c0) =
      (rn1 ← MakeEnd (randstring j) rn; Ret (set_net (Connect (randstring j) j rn1) c0))) as ->.
    { unfold make_end. by rewrite Hname by (apply Hsub; by left). }
    destruct (MakeEnd (randstring j) rn) as [rn1| |]; [|done|done]. cbn [mbind outcome_bind].
    apply (IH (Connect (randstring j) j rn1)). intros x Hx. apply Hsub. by right. }
  apply (Hloop _ (cfg_net cfg)). intros j Hj%elem_of_seqZ. lia.
Qed.

Lemma make_ends_spec cfg i randstring cfg' :
  0 <= i < len (endnames cfg) -> make_ends i randstring cfg = Ret cfg' ->
  exists rn, makeAll ((fun j => (randstring j, j)) <$> seqZ 0 (cfg_n cfg)) (cfg_net cfg) = Ret rn /\
    cfg' = set_net rn (set_endnames
      (<[Z.to_nat i := Some (drawn randstring (cfg_n cfg))]> (endnames cfg)) cfg).
Proof.
  intros Hi H. rewrite (make_ends_eq _ _ _ Hi) in H.
  apply bind_Ret_inv in H as (rn & Hrn & H). injection H as <-. by exists rn.
Qed.

Lemma start1_fields cfg i randstring cfg' :
  start1 i randstring cfg = Ret cfg' -> exists c1 c2, crash1 i cfg = Ret c1 /\
    make_ends i randstring c1 = Ret c2 /\
    cfg_n cfg' = cfg_n c2 /\ connected cfg' = connected c2 /\ endnames cfg' = endnames c2 /\
    logs cfg' = logs c2 /\ ends (cfg_net cfg') = ends (cfg_net c2) /\
    enabled (cfg_net cfg') = enabled (cfg_net c2) /\
    connections (cfg_net cfg') = connections (cfg_net c2).
Proof.
  unfold start1. intros H. apply bind_Ret_inv in H as (c1 & H1 & H).
  apply bind_Ret_inv in H as (c2 & H2 & H). bind_inv. simplify_eq. by exists c1, c2.
Qed.

(** The names of a state after row [i] was replaced. *)
Lemma name_of_new cfg i randstring rn i0 j0 :
  0 <= i < len (endnames cfg) ->
  name_of (set_net rn (set_endnames
    (<[Z.to_nat i := Some (drawn randstring (cfg_n cfg))]> (endnames cfg)) cfg)) i0 j0 =
  if decide (i0 = Z.to_nat i) then drawn randstring (cfg_n cfg) !! j0 else name_of cfg i0 j0.
Proof.
  intros Hi. unfold name_of. simpl. case_decide as E.
  - subst. rewrite list_lookup_insert_eq by (unfold len in Hi; lia). done.
  - by rewrite list_lookup_insert_ne.
Qed.

Lemma start1_wired cfg i randstring cfg' :
  wired cfg -> 0 <= i < cfg_n cfg -> start1 i randstring cfg = Ret cfg' ->
  wired cfg' /\ cfg_n cfg' = cfg_n cfg.
Proof.
  intros W Hi H. destruct (start1_fields _ _ _ _ H) as (c1 & c2 & H1 & H2 & En & Ec & Ee & _ & E4 & E5 & E6).
  destruct (crash1_wired _ _ _ W Hi H1) as (W1 & En1 & Ec1 & Ee1).
  assert (Hi1 : 0 <= i < len (endnames c1)) by (rewrite (wi_rows _ W1); lia).
  destruct (make_ends_spec _ _ _ _ Hi1 H2) as (rn & Hrn & ->).
  split; [|by simpl in En; congruence]. apply (wired_ext _ _ En Ec Ee E4 E5 E6). clear H H1 H2 En Ec Ee E4 E5 E6.
  destruct (makeAll_spec _ _ _ Hrn) as (Hnd & Hfr & Hends & Hen & Hcon & Hoth).
  rewrite <- list_fmap_compose in Hnd, Hfr, Hends, Hen, Hoth.
  change (fst ∘ (fun j => (randstring j, j))) with randstring in *.
  fold (drawn randstring (cfg_n c1)) in *. set (c2 := set_net rn _).
  assert (Hoff : ~ online c1 (Z.to_nat i)).
  { unfold online. rewrite Ec1, list_lookup_insert_eq by (pose proof (wi_conn _ W); unfold len in *; lia). done. }
  assert (Hnm : forall i0 j0, name_of c2 i0 j0 =
    if decide (i0 = Z.to_nat i) then drawn randstring (cfg_n c1) !! j0 else name_of c1 i0 j0)
    by (intros; by apply name_of_new).
  assert (Hlen : length (drawn randstring (cfg_n c1)) = Z.to_nat (cfg_n c1))
    by (unfold drawn; by rewrite length_fmap, length_seqZ).
  split; simpl.
  - apply (wi_conn _ W1).
  - unfold len. rewrite length_insert. apply (wi_rows _ W1).
  - intros i0 names [(_ & E & _)|[_ E]]%list_lookup_insert_Some; [|by eapply (wi_row _ W1)].
    injection E as <-. unfold len. lia.
  - intros i0 j0 e. rewrite Hnm, Hends. case_decide; intros He; [right; by eapply list_elem_of_lookup_2|].
    left. by eapply (wi_made _ W1).
  - intros i0 j0 i' j' e. rewrite !Hnm. repeat case_decide; subst; intros He He'.
    + split; [done|]. by eapply NoDup_lookup.
    + apply list_elem_of_lookup_2 in He. destruct (Hfr e He). by eapply (wi_made _ W1).
    + apply list_elem_of_lookup_2 in He'. destruct (Hfr e He'). by eapply (wi_made _ W1).
    + by eapply (wi_inj _ W1).
  - intros i0 j0 e. rewrite Hnm. case_decide as Ei; intros He.
    + pose proof (lookup_lt_Some _ _ _ He). rewrite drawn_lookup in He by lia. injection He as <-.
      apply Hcon, list_elem_of_fmap. exists (Z.of_nat j0). split; [done|]. apply elem_of_seqZ. lia.
    + rewrite Hoth; [by eapply (wi_to _ W1)|]. intros Hd. apply (Hfr e Hd). by eapply (wi_made _ W1).
  - intros e. rewrite Hen. split.
    + case_decide as Hd; [done|]. intros (i0 & j0 & Hn & Hi0 & Hj0)%(wi_enabled _ W1).
      exists i0, j0. rewrite Hnm, decide_False by by intros ->. done.
    + intros (i0 & j0 & Hn & Hi0 & Hj0). rewrite Hnm, decide_False in Hn by by intros ->.
      rewrite decide_False; [|intros Hd; apply (Hfr e Hd); by eapply (wi_made _ W1)].
      apply (wi_enabled _ W1). by exists i0, j0.
  - intros i0 Hi0. destruct (wi_named _ W1 i0 Hi0) as [names Hrow]. exists names.
    rewrite list_lookup_insert_ne; [done|]. intros <-. by apply Hoff.
Qed.

(** ** Sequences of operations *)
Inductive cfg_op : Type :=
| OpStart (i : Z) (randstring : Z -> Z)
| OpCrash (i : Z)
| OpConnect (i : Z)
| OpDisconnect (i : Z)
| OpUnreliable (b : bool)
| OpLongReordering (b : bool)
| OpBegin.

Definition op_exec (o : cfg_op) cfg : outcome config :=
  match o with
  | OpStart i randstring => start1 i randstring cfg
  | OpCrash i => crash1 i cfg
  | OpConnect i => connect i cfg
  | OpDisconnect i => disconnect i cfg
  | OpUnreliable b => Ret (setunreliable b cfg)
  | OpLongReordering b => Ret (setlongreordering b cfg)
  | OpBegin => Ret (begin cfg)
  end.

(** An index outside the servers panics in [connected[i] = ...]. *)
Lemma op_range cfg i b conn : wired cfg -> slice_set (connected cfg) i b = Ret conn -> 0 <= i < cfg_n cfg.
Proof. intros W [Hi _]%slice_set_Ret. by rewrite (wi_conn _ W) in Hi. Qed.

Lemma disconnect_range cfg i cfg' : wired cfg -> disconnect i cfg = Ret cfg' -> 0 <= i < cfg_n cfg.
Proof. intros W H. unfold disconnect in H. apply bind_Ret_inv in H as (c & H & _). by eapply op_range. Qed.

Lemma crash1_range cfg i cfg' : wired cfg -> crash1 i cfg = Ret cfg' -> 0 <= i < cfg_n cfg.
Proof. intros W (c1 & H1 & _)%crash1_fields. by eapply disconnect_range. Qed.

Lemma op_wired o cfg cfg' : wired cfg -> op_exec o cfg = Ret cfg' -> wired cfg'.
Proof.
  intros W H. destruct o as [i rs|i|i|i|b|b|]; simpl in H.
  - assert (0 <= i < cfg_n cfg).
    { destruct (start1_fields _ _ _ _ H) as (c1 & c2 & H1 & _). by eapply crash1_range. }
    by eapply start1_wired.
  - pose proof (crash1_range _ _ _ W H). by eapply crash1_wired.
  - assert (0 <= i < cfg_n cfg).
    { unfold connect in H. apply bind_Ret_inv in H as (c & H & _). by eapply op_range. }
    by eapply connect_wired.
  - pose proof (disconnect_range _ _ _ W H). by eapply disconnect_wired.
  - injection H as <-. by eapply wired_ext; [..|exact W].
  - injection H as <-. by eapply wired_ext; [..|exact W].
  - injection H as <-. by eapply wired_ext; [..|exact W].
Qed.

Lemma ops_wired os cfg cfg' : wired cfg -> for_each op_exec os cfg = Ret cfg' -> wired cfg'.
Proof. intros W. apply for_each_inv; [|done]. intros o t t' _. apply op_wired. Qed.

(** ** make_config *)

Lemma fresh_wired n : 0 <= n -> wired (fresh_config n).
Proof.
  intros Hn.
  assert (Hrow : forall i names, replicate (Z.to_nat n) (None : option (list Z)) !! i <> Some (Some names)).
  { intros i names [? _]%lookup_replicate. done. }
  assert (Hno : forall i j e, name_of (fresh_config n) i j <> Some e).
  { intros i j e. unfold name_of. simpl. destruct (replicate _ _ !! i) as [[names|]|] eqn:E; try done.
    by apply Hrow in E. }
  split; simpl; try (unfold len; rewrite length_replicate; lia).
  - intros i names H. by apply Hrow in H.
  - intros i j e H. by apply Hno in H.
  - intros i j i' j' e H. by apply Hno in H.
  - intros i j e H. by apply Hno in H.
  - intros e. split; [done|]. intros (i & j & H & _). by apply Hno in H.
  - intros i [? _]%lookup_replicate. done.
Qed.

Lemma make_ends_total cfg i randstring :
  0 <= i < len (endnames cfg) -> NoDup (drawn randstring (cfg_n cfg)) ->
  (forall e, e ∈ drawn randstring (cfg_n cfg) -> e ∉ ends (cfg_net cfg)) ->
  exists cfg', make_ends i randstring cfg = Ret cfg'.
Proof.
  intros Hi Hnd Hfr. rewrite make_ends_eq by done.
  destruct (makeAll_total ((fun j => (randstring j, j)) <$> seqZ 0 (cfg_n cfg)) (cfg_net cfg)) as [rn ->];
    rewrite <- ?list_fmap_compose; [done|done|]. by eexists.
Qed.

(** The slices a server index points into. *)
Definition sized cfg : Prop := len (rafts cfg) = cfg_n cfg /\ len (saved cfg) = cfg_n cfg.

(** A peer that never ran has no persister to copy. *)
Lemma crash1_first cfg i :
  wired cfg -> sized cfg -> 0 <= i < cfg_n cfg -> saved cfg !! Z.to_nat i = Some None ->
  exists cfg', crash1 i cfg = Ret cfg' /\ sized cfg' /\ cfg_net cfg' = DeleteServer i
    (enableAll (omap (incoming cfg i) (seqZ 0 (cfg_n cfg))) false
      (enableAll (omap (outgoing cfg i) (seqZ 0 (cfg_n cfg))) false (cfg_net cfg))) /\
    rafts cfg' = <[Z.to_nat i := None]> (rafts cfg) /\ saved cfg' = <[Z.to_nat i := None]> (saved cfg).
Proof.
  intros W [Hr Hs] Hi Hsv. unfold crash1. rewrite (disconnect_spec _ _ W Hi). cbn [mbind outcome_bind].
  unfold saved_now. simpl.
  assert (slice_get (saved cfg) i = Ret None) as -> by (apply slice_get_Ret; split; [lia|done]).
  simpl. destruct (slice_get_in (rafts cfg) i) as [rfo ->]; [lia|]. simpl.
  unfold slice_set. rewrite !decide_True by lia. simpl. eexists. split; [done|].
  unfold sized, len in *. simpl. rewrite !length_insert. done.
Qed.

(** The state after peers 0, ..., k-1 were started for the first time. *)
Record started (n : Z) (rs : Z -> Z -> Z) (k : nat) cfg : Prop := {
  st_n : cfg_n cfg = n;
  st_wired : wired cfg;
  st_sized : sized cfg;
  st_off : connected cfg = replicate (Z.to_nat n) false;
  st_ends e : e ∈ ends (cfg_net cfg) -> exists i j, 0 <= i < Z.of_nat k /\ 0 <= j < n /\ e = rs i j;
  st_rows i : endnames cfg !! i = if decide (i < k)%nat then Some (Some (drawn (rs (Z.of_nat i)) n))
    else replicate (Z.to_nat n) None !! i;
  st_saved i : (k <= i < Z.to_nat n)%nat -> saved cfg !! i = Some None;
  st_rafts i : (i < k)%nat -> rafts cfg !! i = Some (Some (Make n (Z.of_nat i) MakePersister).1);
  st_logs : logs cfg = replicate (Z.to_nat n) ∅
}.

Definition distinct_names (n : Z) (rs : Z -> Z -> Z) : Prop :=
  forall i j i' j', 0 <= i < n -> 0 <= j < n -> 0 <= i' < n -> 0 <= j' < n ->
    rs i j = rs i' j' -> i = i' /\ j = j'.

Lemma drawn_elem randstring n e :
  e ∈ drawn randstring n <-> exists j, 0 <= j < n /\ e = randstring j.
Proof.
  unfold drawn. rewrite list_elem_of_fmap. split.
  - intros (j & -> & Hj%elem_of_seqZ). exists j. split; [lia|done].
  - intros (j & Hj & ->). exists j. split; [done|]. apply elem_of_seqZ. lia.
Qed.

Lemma crash1_ends cfg i cfg' :
  wired cfg -> 0 <= i < cfg_n cfg -> crash1 i cfg = Ret cfg' ->
  ends (cfg_net cfg') = ends (cfg_net cfg) /\ logs cfg' = logs cfg.
Proof.
  intros W Hi H. destruct (crash1_fields _ _ _ H) as (c1 & H1 & _ & _ & _ & -> & ->).
  rewrite (disconnect_spec _ _ W Hi) in H1. injection H1 as <-. simpl. split; [|done].
  etrans; apply enableAll_wiring.
Qed.

(** The first start of a peer, when its names are fresh. *)
Lemma start1_first cfg i randstring :
  wired cfg -> sized cfg -> 0 <= i < cfg_n cfg -> saved cfg !! Z.to_nat i = Some None ->
  NoDup (drawn randstring (cfg_n cfg)) ->
  (forall e, e ∈ drawn randstring (cfg_n cfg) -> e ∉ ends (cfg_net cfg)) ->
  exists cfg', start1 i randstring cfg = Ret cfg' /\ sized cfg' /\
    connected cfg' = <[Z.to_nat i := false]> (connected cfg) /\
    endnames cfg' = <[Z.to_nat i := Some (drawn randstring (cfg_n cfg))]> (endnames cfg) /\
    rafts cfg' = <[Z.to_nat i := Some (Make (cfg_n cfg) i MakePersister).1]> (rafts cfg) /\
    saved cfg' = <[Z.to_nat i := Some MakePersister]> (saved cfg) /\ logs cfg' = logs cfg /\
    (forall e, e ∈ ends (cfg_net cfg') <-> e ∈ ends (cfg_net cfg) \/ e ∈ drawn randstring (cfg_n cfg)).
Proof.
  intros W Sz Hi Hsv Hnd Hfr.
  destruct (crash1_first cfg i W Sz Hi Hsv) as (c1 & Hc & [Sr Ss] & _ & Er & Es).
  destruct (crash1_wired _ _ _ W Hi Hc) as (W1 & En1 & Ec1 & Ee1).
  destruct (crash1_ends _ _ _ W Hi Hc) as [Eends El].
  assert (Hi1 : 0 <= i < len (endnames c1)) by (rewrite (wi_rows _ W1); lia).
  destruct (make_ends_total c1 i randstring) as [c2 Hm]; [done|by rewrite En1|by rewrite En1, Eends|].
  destruct (make_ends_spec _ _ _ _ Hi1 Hm) as (rn & Hrn & E2). rewrite En1 in *.
  destruct (makeAll_spec _ _ _ Hrn) as (_ & _ & Hends2 & _).
  rewrite <- list_fmap_compose in Hends2. change (fst ∘ _) with randstring in Hends2.
  fold (drawn randstring (cfg_n cfg)) in Hends2.
  unfold start1. rewrite Hc. cbn [mbind outcome_bind]. rewrite Hm, E2. cbn [mbind outcome_bind]. simpl.
  assert (slice_get (saved c1) i = Ret None) as ->.
  { apply slice_get_Ret. split; [lia|]. rewrite Es. apply list_lookup_insert_eq.
    unfold sized, len in Sz. lia. }
  cbn [mbind outcome_bind]. unfold slice_set. rewrite Ss, Sr, !decide_True by lia. cbn [mbind outcome_bind].
  eexists. split; [reflexivity|].
  split; [unfold sized, len in *; simpl; rewrite !length_insert; lia|].
  simpl. rewrite En1, Er, Es, Ec1, Ee1, El, !list_insert_insert_eq.
  do 5 (split; [done|]). intros e. by rewrite Hends2, Eends.
Qed.

Lemma start1_started n rs (k : nat) cfg :
  distinct_names n rs -> (k < Z.to_nat n)%nat -> started n rs k cfg ->
  exists cfg', start1 (Z.of_nat k) (rs (Z.of_nat k)) cfg = Ret cfg' /\ started n rs (S k) cfg'.
Proof.
  intros Hd Hk [En W Sz Hoff Hends Hrows Hsaved Hrafts Hlogs].
  assert (Hi : 0 <= Z.of_nat k < cfg_n cfg) by lia.
  destruct (start1_first cfg (Z.of_nat k) (rs (Z.of_nat k))) as
    (cfg' & Hst & Sz' & Ec & Ee & Er & Es & El & Eend); try done; rewrite ?En, ?Nat2Z.id in *.
  - apply Hsaved. lia.
  - apply NoDup_fmap_2_strong; [|apply NoDup_seqZ].
    intros x y ?%elem_of_seqZ ?%elem_of_seqZ E. apply Hd in E; [by destruct E|lia..].
  - intros e (j & Hj & ->)%drawn_elem He. apply Hends in He as (i' & j' & ? & ? & E). apply Hd in E; lia.
  - destruct (start1_wired _ _ _ _ W ltac:(by rewrite En) Hst) as [W' En'].
    exists cfg'. split; [done|]. split; [congruence|done|done|..].
    + rewrite Ec, Hoff. by apply insert_replicate.
    + intros e. rewrite Eend. intros [He|(j & Hj & ->)%drawn_elem].
      * apply Hends in He as (i & j & ? & ? & ->). exists i, j. split; [lia|]. by split.
      * exists (Z.of_nat k), j. split; [lia|]. by split.
    + intros i. rewrite Ee. destruct (decide (i = k)) as [->|Hne].
      * rewrite list_lookup_insert_eq by (pose proof (wi_rows _ W); unfold len in *; lia).
        by rewrite decide_True by lia.
      * rewrite list_lookup_insert_ne by done. rewrite Hrows. repeat case_decide; try done; lia.
    + intros i Hik. rewrite Es, list_lookup_insert_ne by lia. apply Hsaved. lia.
    + intros i Hik. rewrite Er. destruct (decide (i = k)) as [->|Hne].
      * by rewrite list_lookup_insert_eq by (unfold sized, len in Sz; lia).
      * rewrite list_lookup_insert_ne by done. apply Hrafts. lia.
    + by rewrite El.
Qed.

Lemma starts_all n rs unreliable (k : nat) :
  distinct_names n rs -> 0 <= n -> (k <= Z.to_nat n)%nat ->
  exists cfg, for_each (fun i cfg => start1 i (rs i) cfg) (seqZ 0 (Z.of_nat k))
    (on_net (LongDelays true) (setunreliable unreliable (fresh_config n))) = Ret cfg /\
    started n rs k cfg.
Proof.
  intros Hd Hn. induction k as [|k IH]; intros Hk.
  - eexists. split; [done|]. split; try done.
    + by eapply wired_ext; [..|apply (fresh_wired n Hn)].
    + unfold sized, len. simpl. rewrite !length_replicate. lia.
    + intros i Hi. simpl. by rewrite lookup_replicate_2 by lia.
    + lia.
  - destruct IH as (cfg & Hf & St); [lia|].
    destruct (start1_started n rs k cfg Hd) as (cfg' & Hst & St'); [lia|done|].
    exists cfg'. split; [|done]. replace (Z.of_nat (S k)) with (Z.of_nat k + 1) by lia.
    rewrite seqZ_app, for_each_app, Hf by lia. cbn [mbind outcome_bind seqZ seq fmap list_fmap].
    change (seqZ (0 + Z.of_nat k) 1) with [Z.of_nat 0 + (0 + Z.of_nat k)].
    cbn [for_each]. rewrite !Z.add_0_l, Hst. done.
Qed.

(** Connecting the servers one after the other. *)
Lemma connects_all n cfg0 (k : nat) :
  wired cfg0 -> cfg_n cfg0 = n -> 0 <= n -> (k <= Z.to_nat n)%nat ->
  (forall i, (i < Z.to_nat n)%nat -> exists names, endnames cfg0 !! i = Some (Some names)) ->
  exists cfg, for_each (fun i cfg => connect i cfg) (seqZ 0 (Z.of_nat k)) cfg0 = Ret cfg /\
    wired cfg /\ cfg_n cfg = n /\ endnames cfg = endnames cfg0 /\ rafts cfg = rafts cfg0 /\
    logs cfg = logs cfg0 /\ (forall i, (i < k)%nat -> online cfg i).
Proof.
  intros W0 En0 Hn. induction k as [|k IH]; intros Hk Hnm.
  { exists cfg0. split_and!; try done. lia. }
  destruct IH as (cfg & Hf & W & En & Ee & Er & El & Hon); [lia|done|].
  assert (Hi : 0 <= Z.of_nat k < cfg_n cfg) by lia.
  destruct (Hnm k) as [names Hrow]; [lia|].
  rewrite <- Ee, <- (Nat2Z.id k) in Hrow.
  pose proof (connect_spec cfg (Z.of_nat k) names W Hi Hrow) as Hc. cbn zeta in Hc.
  pose proof (connect_wired _ _ _ W Hi Hc) as W'.
  eexists. split.
  - replace (Z.of_nat (S k)) with (Z.of_nat k + 1) by lia.
    rewrite seqZ_app, for_each_app, Hf by lia. cbn [mbind outcome_bind].
    change (seqZ (0 + Z.of_nat k) 1) with [Z.of_nat 0 + (0 + Z.of_nat k)].
    cbn [for_each]. rewrite !Z.add_0_l, Hc. reflexivity.
  - split; [exact W'|]. simpl. do 4 (split; [done|]). intros i Hik. unfold online. simpl.
    rewrite Nat2Z.id. destruct (decide (i = k)) as [->|Hne].
    + apply list_lookup_insert_eq. pose proof (wi_conn _ W). unfold len in *. lia.
    + rewrite list_lookup_insert_ne by done. apply Hon. lia.
Qed.

(** A new cluster is fully connected.  When the random end names do not
    collide, make_config succeeds, every peer starts from an empty persister, and
    every end from a server to a server is enabled. *)
Theorem make_config_connects n unreliable rs :
  0 <= n -> distinct_names n rs ->
  exists cfg, make_config n unreliable rs = Ret cfg /\
    (forall i, (i < Z.to_nat n)%nat ->
       rafts cfg !! i = Some (Some (Make n (Z.of_nat i) MakePersister).1)) /\
    (forall i j, 0 <= i < n -> 0 <= j < n ->
       name_of cfg (Z.to_nat i) (Z.to_nat j) = Some (rs i j) /\
       isEnabled (cfg_net cfg) (rs i j) = true /\
       connections (cfg_net cfg) !! rs i j = Some (Some j)).
Proof.
  intros Hn Hd. destruct (starts_all n rs unreliable (Z.to_nat n) Hd Hn) as (c1 & Hf & St); [done|].
  rewrite Z2Nat.id in Hf by done.
  destruct (connects_all n c1 (Z.to_nat n)) as (cfg & Hc & W & _ & Ee & Er & _ & Hon); try apply St; try done.
  { intros i Hi. rewrite (st_rows _ _ _ _ St), decide_True by done. by eexists. }
  rewrite Z2Nat.id in Hc by done.
  exists cfg. split; [unfold make_config; rewrite Hf; exact Hc|]. split.
  - intros i Hi. rewrite Er. by apply (st_rafts _ _ _ _ St).
  - intros i j Hi Hj.
    assert (Hname : name_of cfg (Z.to_nat i) (Z.to_nat j) = Some (rs i j)).
    { unfold name_of. rewrite Ee, (st_rows _ _ _ _ St), decide_True by lia. simpl.
      rewrite drawn_lookup, !Z2Nat.id by lia. done. }
    split; [done|]. split.
    + apply (wi_enabled _ W). eexists _, _. split; [exact Hname|]. split; apply Hon; lia.
    + rewrite (wi_to _ W _ _ _ Hname). by rewrite Z2Nat.id by lia.
Qed.

(** C24: the network follows the tester.  After any sequence of starts,
    restarts, crashes, connects and disconnects, a client end is enabled exactly
    when it is the current end between two connected servers, and it then leads
    to the server it is named for: the ends of every earlier incarnation stay
    disabled. *)
Theorem ends_follow_connected n os cfg e :
  0 <= n -> for_each op_exec os (fresh_config n) = Ret cfg ->
  isEnabled (cfg_net cfg) e = true <->
  exists i j, name_of cfg i j = Some e /\ online cfg i /\ online cfg j /\
    connections (cfg_net cfg) !! e = Some (Some (Z.of_nat j)).
Proof.
  intros Hn H. pose proof (ops_wired _ _ _ (fresh_wired n Hn) H) as W. rewrite (wi_enabled _ W). split.
  - intros (i & j & Hname & Hi & Hj). exists i, j. split_and!; try done. by eapply (wi_to _ W).
  - intros (i & j & Hname & Hi & Hj & _). by exists i, j.
Qed.

(** ** Witnesses *)
Lemma make_config_connects_witness :
  exists cfg, make_config 3 false (fun i j => 10 * i + j) = Ret cfg /\
    isEnabled (cfg_net cfg) 21 = true.
Proof.
  destruct (make_config_connects 3 false (fun i j => 10 * i + j)) as (cfg & H & _ & He).
  - lia.
  - intros i j i' j' Hi Hj Hi' Hj' E. lia.
  - exists cfg. split; [exact H|]. apply (He 2 1); lia.
Defined.

(** Server 1 is restarted and reconnected: its first end to 0 is disabled. *)
Definition restart_ops : list cfg_op :=
  [OpStart 0 (fun j => j); OpStart 1 (fun j => 10 + j); OpConnect 0; OpConnect 1; OpCrash 1;
   OpStart 1 (fun j => 20 + j); OpConnect 1].

Lemma ends_follow_connected_witness :
  exists cfg, for_each op_exec restart_ops (fresh_config 2) = Ret cfg /\
    isEnabled (cfg_net cfg) 10 = false /\
    exists i j, name_of cfg i j = Some 20 /\ online cfg i /\ online cfg j /\
      connections (cfg_net cfg) !! 20 = Some (Some (Z.of_nat j)).
Proof.
  destruct (for_each op_exec restart_ops (fresh_config 2)) as [cfg| |] eqn:E;
    [|vm_compute in E; discriminate E|vm_compute in E; discriminate E].
  exists cfg. split; [reflexivity|].
  assert (isEnabled (cfg_net cfg) 10 = false /\ isEnabled (cfg_net cfg) 20 = true) as [H1 H2].
  { vm_compute in E. injection E as <-. split; vm_compute; reflexivity. }
  split; [exact H1|]. apply (ends_follow_connected 2 restart_ops cfg 20); [lia|exact E|exact H2].
Defined.
