(* ===== verification/RaftHarness.v ===== *)
(** * The tester never finds fault with the peers

    The tester of raft/config.go (RaftConfig.v) composed with the cluster
    (RaftSystem.v): the peers run, the tester starts, crashes, connects and
    disconnects them, and one goroutine per incarnation reads applyCh and
    compares what it reads with the logs of all servers.  A crashed peer keeps
    running in the program, cut off from the network; what it still sends on its
    applyCh is read by its own goroutine, which the model keeps with its unread
    messages.  The Raft tests do not compact. *)

From stdpp Require Import base functions list list_numbers gmap relations.
From S2P Require Import Prelude Gob RaftNode RaftNodeFacts RaftSpec RaftSystem RaftRefine RaftLead RaftSim RaftSafety RaftApply RaftBounds RaftTrace RaftOrigin LabRpc Harness RaftConfig.
Open Scope Z_scope.

(** ** The composed system *)

(** [h_read i]: how many messages of the current incarnation of [i] were read;
    [h_old]: the readers of earlier incarnations with what they have not read. *)
Record harness : Type := mkHarness {
  h_cfg : config;
  h_sys : sys Z;
  h_read : Z -> nat;
  h_old : list (Z * list (ApplyMsg Z))
}.

Inductive hevent : Type :=
| HRaft (e : event Z)
| HStart (i : Z) (randstring : Z -> Z)
| HCrash (i : Z)
| HConnect (i : Z)
| HDisconnect (i : Z)
| HUnreliable (b : bool)
| HLongReordering (b : bool)
| HRead (i : Z)
| HReadOld (k : nat).

Section Harness.
Context (n : Z).
Implicit Types cfg : config.
Implicit Types s : sys Z.
Implicit Types h : harness.

(** The tester sees the running peers through [cfg.rafts]. *)
Definition refresh s cfg : config :=
  set_rafts (imap (fun i o => (fun _ => raft_of s (Z.of_nat i)) <$> o) (rafts cfg)) cfg.

Definition running cfg (i : Z) : bool :=
  match rafts cfg !! Z.to_nat i with Some (Some _) => true | _ => false end.

(** The events the peers and the network take by themselves. *)
Definition allowed cfg s (e : event Z) : bool :=
  match e with EvCompact _ _ _ | EvCrash _ => false | _ => true end &&
  match actor s e with Some i => running cfg i | None => true end.

(** The peer [start1] made, from the persister it was given. *)
Definition restarted s cfg (i : Z) : sys Z :=
  let ps := default MakePersister (mjoin (saved cfg !! Z.to_nat i)) in
  mkSys (<[i := boot n i ps]> (sys_nodes s)) (sys_calls s) (sys_logs s).

Definition of_outcome (o : outcome harness) : option (verdict failure harness) :=
  match o with Ret h => Some (Pass h) | Panic => Some Crash | Block => None end.

Definition with_cfg h cfg : harness := mkHarness cfg (h_sys h) (h_read h) (h_old h).

Definition h_exec h (e : hevent) : option (verdict failure harness) :=
  let '(mkHarness cfg s rd old) := h in
  match e with
  | HRaft e =>
      if allowed cfg s e then
        if panics n s e then Some Crash
        else s' ← exec n s e; Some (Pass (mkHarness (refresh s' cfg) s' rd old))
      else None
  | HStart i randstring =>
      of_outcome (cfg' ← start1 i randstring cfg;
        Ret (mkHarness cfg' (restarted s cfg' i) (<[i := O]> rd)
               (old ++ [(i, drop (rd i) (nd_applyCh (sys_nodes s i)))])))
  | HCrash i => of_outcome (cfg' ← crash1 i cfg; Ret (with_cfg h cfg'))
  | HConnect i => of_outcome (cfg' ← connect i cfg; Ret (with_cfg h cfg'))
  | HDisconnect i => of_outcome (cfg' ← disconnect i cfg; Ret (with_cfg h cfg'))
  | HUnreliable b => Some (Pass (with_cfg h (setunreliable b cfg)))
  | HLongReordering b => Some (Pass (with_cfg h (setlongreordering b cfg)))
  | HRead i =>
      if is_peer n i then
        m ← nd_applyCh (sys_nodes s i) !! rd i;
        Some (cfg' ← applier i m cfg; Pass (mkHarness cfg' s (<[i := S (rd i)]> rd) old))
      else None
  | HReadOld k =>
      match old !! k with
      | Some (i, m :: ms) =>
          Some (cfg' ← applier i m cfg; Pass (mkHarness cfg' s rd (<[k := (i, ms)]> old)))
      | _ => None
      end
  end.

Definition h_init : harness := mkHarness (fresh_config n) (sys_init n) (fun _ => O) [].

Definition h_step h h' : Prop := exists e, h_exec h e = Some (Pass h').
Definition h_reach : harness -> Prop := rtc h_step h_init.

(** ** The invariant *)

(** The log of server [i] as its readers wrote it. *)
Definition log_of cfg (i : Z) : gmap Z Z := default ∅ (logs cfg !! Z.to_nat i).

(** Unread messages follow each other or what was read before. *)
Definition chained (L : gmap Z Z) (ms : list (ApplyMsg Z)) : Prop :=
  forall k idx, indices ms !! k = Some idx -> 1 < idx ->
    is_Some (L !! (idx - 1)) \/ idx - 1 ∈ take k (indices ms).

(** Peer [i] and the tester's pointers to it. *)
Definition peer_ok cfg s (i : Z) : Prop :=
  (exists ps, rafts cfg !! Z.to_nat i = Some (Some (raft_of s i)) /\ saved cfg !! Z.to_nat i = Some (Some ps)) \/
  (rafts cfg !! Z.to_nat i = Some None /\
   exists sv, saved cfg !! Z.to_nat i = Some sv /\
     raftstate (default MakePersister sv) = raftstate (persister (raft_of s i)) /\
     snapshot (default MakePersister sv) = []).

Record h_ok h : Prop := {
  ho_reach : reach n no_compaction (h_sys h);
  ho_n : cfg_n (h_cfg h) = n;
  ho_rafts : len (rafts (h_cfg h)) = n;
  ho_logs : len (logs (h_cfg h)) = n;
  ho_err : applyErr (h_cfg h) = replicate (Z.to_nat n) None;
  ho_peer i : 0 <= i < n -> peer_ok (h_cfg h) (h_sys h) i;
  ho_log i idx v : 0 <= i < n -> log_of (h_cfg h) i !! idx = Some v ->
    (i, idx, Some v) ∈ sys_logs (h_sys h);
  ho_count i : 0 <= i < n -> (h_read h i <= length (nd_applyCh (sys_nodes (h_sys h) i)))%nat;
  ho_read i k idx c : 0 <= i < n -> (k < h_read h i)%nat ->
    nd_applyCh (sys_nodes (h_sys h) i) !! k = Some (CommandMsg idx c) ->
    is_Some (log_of (h_cfg h) i !! idx);
  ho_old i ms : (i, ms) ∈ h_old h -> 0 <= i < n /\ chained (log_of (h_cfg h) i) ms /\
    forall idx c, CommandMsg idx c ∈ ms -> (i, idx, c) ∈ sys_logs (h_sys h)
}.

(** ** Readers *)
Lemma differs_none i index v j (ls : list (gmap Z Z)) :
  (forall L old, L ∈ ls -> L !! index = Some old -> old = v) -> differs i index v j ls None = None.
Proof.
  revert j. induction ls as [|L ls IH]; intros j H; [done|]. cbn [differs].
  destruct (L !! index) as [old|] eqn:E; [|apply IH; intros; eapply H; [by right|done]].
  rewrite (H L old) by (by left || done). rewrite Z.eqb_refl. cbn [negb].
  apply IH. intros; eapply H; [by right|done].
Qed.

(** The state after a reader of [i] noted command [v] at [index]. *)
Definition noted cfg (i index v : Z) : config :=
  set_logs (<[Z.to_nat i := <[index := v]> (log_of cfg i)]> (logs cfg))
    (if maxIndex cfg <? index then index else maxIndex cfg) cfg.

Lemma applier_noted cfg i index v :
  0 <= i < len (logs cfg) ->
  (forall j old, log_of cfg j !! index = Some old -> old = v) ->
  (1 < index -> is_Some (log_of cfg i !! (index - 1))) ->
  applier i (CommandMsg index (Some v)) cfg = Pass (noted cfg i index v).
Proof.
  intros Hi Hsame Hprev. unfold applier. rewrite differs_none.
  2:{ intros L old [j Hj]%list_elem_of_lookup Hold. apply (Hsame (Z.of_nat j)).
      unfold log_of. by rewrite Nat2Z.id, Hj. }
  destruct (slice_get_in (logs cfg) i Hi) as [L HL]. rewrite HL. cbn [lift mbind verdict_bind].
  apply slice_get_Ret in HL as [_ HL].
  assert (EL : log_of cfg i = L) by (unfold log_of; by rewrite HL).
  unfold slice_set. rewrite decide_True by done. cbn [lift mbind verdict_bind].
  unfold noted. rewrite EL in *. destruct (Z.ltb_spec 1 index) as [H1|H1]; [|done]. cbn [andb].
  by rewrite bool_decide_eq_true_2 by auto.
Qed.

Lemma log_of_noted cfg i index v j :
  0 <= i < len (logs cfg) -> 0 <= j ->
  log_of (noted cfg i index v) j = if decide (i = j) then <[index := v]> (log_of cfg i) else log_of cfg j.
Proof.
  intros Hi Hj. unfold log_of. simpl. unfold len in Hi. case_decide as E.
  - subst j. by rewrite list_lookup_insert_eq by lia.
  - by rewrite list_lookup_insert_ne by lia.
Qed.

Lemma chained_mono L L' ms :
  (forall k, is_Some (L !! k) -> is_Some (L' !! k)) -> chained L ms -> chained L' ms.
Proof. intros HL H k idx Hk H1. destruct (H k idx Hk H1); auto. Qed.

Lemma chained_pop_command L idx v c ms :
  chained L (CommandMsg idx c :: ms) -> chained (<[idx := v]> L) ms.
Proof.
  intros H k i Hk H1. destruct (H (S k) i Hk H1) as [HL|Hin].
  - left. destruct (decide (i - 1 = idx)) as [->|]; [rewrite lookup_insert_eq; eauto|].
    by rewrite lookup_insert_ne.
  - cbn in Hin. apply elem_of_cons in Hin as [->|Hin]; [left|by right].
    rewrite lookup_insert_eq. eauto.
Qed.

Lemma chained_pop_snapshot L snap ms : chained L (SnapshotMsg snap :: ms) -> chained L ms.
Proof. intros H k i Hk H1. exact (H k i Hk H1). Qed.

Lemma chained_head L idx c ms :
  chained L (CommandMsg idx c :: ms) -> 1 < idx -> is_Some (L !! (idx - 1)).
Proof. intros H H1. destruct (H 0%nat idx eq_refl H1) as [?|Hin]; [done|by apply not_elem_of_nil in Hin]. Qed.

(** In 1, 2, 3, ... cut in two, the predecessor of an element of the second part
    is in the first part or right before it. *)
Lemma seqZ_prev N A B k idx :
  seqZ 1 N = A ++ B -> B !! k = Some idx -> 1 < idx -> idx - 1 ∈ A \/ idx - 1 ∈ take k B.
Proof.
  intros E Hk H1.
  assert (Hat : forall m x, (A ++ B) !! m = Some x -> x = 1 + Z.of_nat m).
  { intros m x. rewrite <- E, lookup_seqZ. intros [<- _]. lia. }
  assert (Ex : idx = 1 + Z.of_nat (length A + k)).
  { apply Hat. rewrite lookup_app_r by lia. rewrite <- Hk. f_equal. lia. }
  destruct k as [|k].
  - left. destruct (lookup_lt_is_Some_2 A (length A - 1)) as [x Hx]; [lia|].
    assert (x = 1 + Z.of_nat (length A - 1)) by (apply Hat; by rewrite lookup_app_l by lia).
    replace (idx - 1) with x by lia. by eapply list_elem_of_lookup_2.
  - right. destruct (lookup_lt_is_Some_2 B k) as [x Hx]; [apply lookup_lt_Some in Hk; lia|].
    assert (x = 1 + Z.of_nat (length A + k)).
    { apply Hat. rewrite lookup_app_r by lia. rewrite <- Hx. f_equal. lia. }
    replace (idx - 1) with x by lia. apply (list_elem_of_lookup_2 _ k). by rewrite lookup_take_lt by lia.
Qed.

(** The unread messages of the current incarnation. *)
Lemma unread_chained h i :
  h_ok h -> 0 <= i < n ->
  chained (log_of (h_cfg h) i) (drop (h_read h i) (nd_applyCh (sys_nodes (h_sys h) i))).
Proof.
  intros H Hi k idx Hk H1.
  pose proof (gap_free_indices n (h_sys h) i (ho_reach _ H) Hi) as Hg.
  rewrite <- (take_drop (h_read h i) (nd_applyCh (sys_nodes (h_sys h) i))) in Hg.
  unfold indices in *. rewrite omap_app in Hg. symmetry in Hg.
  destruct (seqZ_prev _ _ _ _ _ Hg Hk H1) as [Hin|Hin]; [left|by right].
  apply list_elem_of_omap in Hin as (m & Hm & Ex). destruct m as [x c|]; [|done]. simpl in Ex. simplify_eq.
  apply list_elem_of_lookup in Hm as [j Hj]. apply lookup_take_Some in Hj as [Hj Hlt].
  by eapply (ho_read _ H).
Qed.

Lemma log_of_range cfg j idx v :
  log_of cfg j !! idx = Some v -> exists j', 0 <= j' < len (logs cfg) /\ log_of cfg j' = log_of cfg j.
Proof.
  intros H. exists (Z.of_nat (Z.to_nat j)). unfold log_of in *. rewrite Nat2Z.id. split; [|done].
  destruct (logs cfg !! Z.to_nat j) as [L|] eqn:E.
  - apply lookup_lt_Some in E. unfold len. lia.
  - cbn [default from_option] in H. by rewrite lookup_empty in H.
Qed.

(** A reader's next message raises no error. *)
Lemma read_ok h i m ms :
  h_ok h -> 0 <= i < n -> chained (log_of (h_cfg h) i) (m :: ms) ->
  (forall idx c, m = CommandMsg idx c -> (i, idx, c) ∈ sys_logs (h_sys h)) ->
  exists cfg', applier i m (h_cfg h) = Pass cfg' /\
    ((exists snap, m = SnapshotMsg snap /\ cfg' = h_cfg h) \/
     exists idx v, m = CommandMsg idx (Some v) /\ (i, idx, Some v) ∈ sys_logs (h_sys h) /\
       cfg' = noted (h_cfg h) i idx v).
Proof.
  intros H Hi Hch Hin. destruct m as [idx c|snap]; [|exists (h_cfg h); split; [done|left; by eexists]].
  specialize (Hin idx c eq_refl).
  pose proof (no_compaction_no_overshoot n _ (ho_reach _ H)) as Hr.
  destruct (logged_command n _ _ _ _ Hr Hin) as [v ->].
  exists (noted (h_cfg h) i idx v). split; [|right; by exists idx, v].
  apply applier_noted; [by rewrite (ho_logs _ H)| |by eapply chained_head].
  intros j old Hold. destruct (log_of_range _ _ _ _ Hold) as (j' & Hj' & E). rewrite <- E in Hold.
  rewrite (ho_logs _ H) in Hj'. pose proof (ho_log _ H j' idx old Hj' Hold) as Hl.
  pose proof (safe_logs_agree n _ _ _ _ _ _ Hr Hl Hin). congruence.
Qed.

(** The state after a message of [i] was read, whichever reader read it. *)
Lemma noted_ok h i idx v rd old :
  h_ok h -> 0 <= i < n -> (i, idx, Some v) ∈ sys_logs (h_sys h) ->
  (forall j, 0 <= j < n -> (rd j <= length (nd_applyCh (sys_nodes (h_sys h) j)))%nat) ->
  (forall j k idx' c, 0 <= j < n -> (k < rd j)%nat ->
     nd_applyCh (sys_nodes (h_sys h) j) !! k = Some (CommandMsg idx' c) ->
     is_Some (log_of (noted (h_cfg h) i idx v) j !! idx')) ->
  (forall j ms, (j, ms) ∈ old -> 0 <= j < n /\ chained (log_of (noted (h_cfg h) i idx v) j) ms /\
     forall x c, CommandMsg x c ∈ ms -> (j, x, c) ∈ sys_logs (h_sys h)) ->
  h_ok (mkHarness (noted (h_cfg h) i idx v) (h_sys h) rd old).
Proof.
  intros [] Hi Hin Hc Hr Ho. split; simpl in *; auto.
  - unfold len in *. by rewrite length_insert.
  - intros j x w Hj. rewrite log_of_noted by (rewrite ?ho_logs0; lia).
    case_decide as E; [subst j|by apply ho_log0].
    destruct (decide (x = idx)) as [->|Hx]; [rewrite lookup_insert_eq; by intros [= <-]|].
    rewrite lookup_insert_ne by done. by apply ho_log0.
Qed.

Lemma noted_mono h i idx v j k :
  h_ok h -> 0 <= i < n -> 0 <= j -> is_Some (log_of (h_cfg h) j !! k) ->
  is_Some (log_of (noted (h_cfg h) i idx v) j !! k).
Proof.
  intros H Hi Hj HL. rewrite log_of_noted by (rewrite ?(ho_logs _ H); lia).
  case_decide as E; [subst j|done]. destruct (decide (k = idx)) as [->|]; [rewrite lookup_insert_eq; eauto|].
  by rewrite lookup_insert_ne.
Qed.

Lemma HRead_ok h i m :
  h_ok h -> 0 <= i < n -> nd_applyCh (sys_nodes (h_sys h) i) !! h_read h i = Some m ->
  exists cfg', applier i m (h_cfg h) = Pass cfg' /\
    h_ok (mkHarness cfg' (h_sys h) (<[i := S (h_read h i)]> (h_read h)) (h_old h)).
Proof.
  intros H Hi Hm. pose proof (unread_chained h i H Hi) as Hch.
  erewrite drop_S in Hch by exact Hm.
  destruct (read_ok h i m _ H Hi Hch) as (cfg' & Ha & Hc).
  { intros idx c ->. eapply (reach_sent_logged n), list_elem_of_lookup_2; [apply (ho_reach _ H)|done]. }
  exists cfg'. split; [done|].
  assert (Hcount : forall j, 0 <= j < n ->
    (<[i := S (h_read h i)]> (h_read h) j <= length (nd_applyCh (sys_nodes (h_sys h) j)))%nat).
  { intros j Hj. fn_cases; [apply lookup_lt_Some in Hm; lia|by apply (ho_count _ H)]. }
  destruct Hc as [(snap & -> & ->)|(idx & v & -> & Hin & ->)].
  - destruct H. split; simpl in *; auto. intros j k idx c Hj. fn_cases; [|by apply ho_read0].
    intros Hk Hl. destruct (decide (k = h_read h j)) as [->|]; [congruence|].
    eapply ho_read0; [done| |done]. lia.
  - apply noted_ok; try done.
    + intros j k x c Hj. fn_cases.
      * intros Hk Hl. destruct (decide (k = h_read h j)) as [->|].
        -- rewrite log_of_noted, decide_True by (rewrite ?(ho_logs _ H); (lia || done)).
           rewrite Hm in Hl. injection Hl as <- _. rewrite lookup_insert_eq. eauto.
        -- apply noted_mono; [done|done|lia|]. eapply (ho_read _ H); [done| |done]. lia.
      * intros Hk Hl. apply noted_mono; [done|done|lia|]. by eapply (ho_read _ H).
    + intros j ms Hj. destruct (ho_old _ H j ms Hj) as (Hjr & Hjc & Hjs). split; [done|]. split; [|done].
      eapply chained_mono; [|exact Hjc]. intros k. apply noted_mono; try done. lia.
Qed.

Lemma HReadOld_ok h k i m ms :
  h_ok h -> h_old h !! k = Some (i, m :: ms) ->
  exists cfg', applier i m (h_cfg h) = Pass cfg' /\
    h_ok (mkHarness cfg' (h_sys h) (h_read h) (<[k := (i, ms)]> (h_old h))).
Proof.
  intros H Hk. destruct (ho_old _ H i (m :: ms)) as (Hi & Hch & Hs); [by eapply list_elem_of_lookup_2|].
  destruct (read_ok h i m ms H Hi Hch) as (cfg' & Ha & Hc).
  { intros idx c ->. apply Hs. by left. }
  exists cfg'. split; [done|]. destruct Hc as [(snap & -> & ->)|(idx & v & -> & Hin & ->)].
  - destruct H. split; simpl in *; auto. intros j ms' Hj. apply list_elem_of_lookup in Hj as [x Hx].
    apply list_lookup_insert_Some in Hx as [(_ & E & _)|[_ Hx]].
    + injection E as <- <-. split; [done|]. split; [by eapply chained_pop_snapshot|].
      intros y c Hy. apply Hs. by right.
    + apply ho_old0. by eapply list_elem_of_lookup_2.
  - apply noted_ok; try done; [apply (ho_count _ H)| |].
    + intros j x y c Hj Hx Hl. apply noted_mono; [done|done|lia|]. by eapply (ho_read _ H).
    + intros j ms' Hj. apply list_elem_of_lookup in Hj as [x Hx].
      apply list_lookup_insert_Some in Hx as [(_ & E & _)|[_ Hx]].
      * injection E as <- <-. split; [done|]. split.
        -- rewrite log_of_noted, decide_True by (rewrite ?(ho_logs _ H); (lia || done)).
           by eapply chained_pop_command.
        -- intros y c Hy. apply Hs. by right.
      * destruct (ho_old _ H j ms') as (Hjr & Hjc & Hjs); [by eapply list_elem_of_lookup_2|].
        split; [done|]. split; [|done]. eapply chained_mono; [|exact Hjc]. intros y.
        apply noted_mono; try done. lia.
Qed.

(** ** The tester's operations *)

(** What connecting and disconnecting leave alone. *)
Definition same_core cfg cfg' : Prop :=
  cfg_n cfg' = cfg_n cfg /\ rafts cfg' = rafts cfg /\ saved cfg' = saved cfg /\
  logs cfg' = logs cfg /\ applyErr cfg' = applyErr cfg.

Lemma same_core_trans c1 c2 c3 : same_core c1 c2 -> same_core c2 c3 -> same_core c1 c3.
Proof. intros (? & ? & ? & ? & ?) (? & ? & ? & ? & ?). split_and!; congruence. Qed.

Lemma for_each_core {A} (body : A -> config -> outcome config) l cfg cfg' :
  (forall x c c', body x c = Ret c' -> same_core c c') -> for_each body l cfg = Ret cfg' ->
  same_core cfg cfg'.
Proof.
  intros Hb. apply (for_each_inv (same_core cfg)); [|by split_and!].
  intros x t t' _ Ht Hx. eapply same_core_trans; [exact Ht|by eapply Hb].
Qed.

Lemma connect_core i cfg cfg' : connect i cfg = Ret cfg' -> same_core cfg cfg'.
Proof.
  unfold connect. intros H. apply bind_Ret_inv in H as (conn & _ & H).
  apply bind_Ret_inv in H as (c1 & H1 & H).
  assert (Hb : forall x c c' (f : config -> outcome Z), enable_if_connected x f c = Ret c' -> same_core c c').
  { intros x c c' f E. unfold enable_if_connected in E. apply bind_Ret_inv in E as ([] & _ & E);
      bind_inv; simplify_eq; by split_and!. }
  eapply same_core_trans; [|eapply for_each_core; [|exact H]; intros x c c' E; exact (Hb _ _ _ _ E)].
  eapply (same_core_trans _ (set_connected conn cfg)); [by split_and!|].
  eapply for_each_core; [|exact H1]. intros x c c' E. exact (Hb _ _ _ _ E).
Qed.

Lemma disconnect_core i cfg cfg' : disconnect i cfg = Ret cfg' -> same_core cfg cfg'.
Proof.
  unfold disconnect. intros H. apply bind_Ret_inv in H as (conn & _ & H).
  apply bind_Ret_inv in H as (c1 & H1 & H).
  assert (Hb : forall r x c c', disable_if_named r x c = Ret c' -> same_core c c').
  { intros r x c c' E. unfold disable_if_named in E. apply bind_Ret_inv in E as ([] & _ & E);
      bind_inv; simplify_eq; by split_and!. }
  eapply same_core_trans; [|eapply for_each_core; [|exact H]; intros x c c' E; exact (Hb _ _ _ _ E)].
  eapply (same_core_trans _ (set_connected conn cfg)); [by split_and!|].
  eapply for_each_core; [|exact H1]. intros x c c' E. exact (Hb _ _ _ _ E).
Qed.

(** What is left of the persister of a crashed peer. *)
Definition kept (sv : option Persister) : option Persister :=
  (fun ps => SaveRaftState MakePersister (ReadRaftState ps)) <$> (Copy <$> sv).

Lemma crash1_core i cfg cfg' :
  crash1 i cfg = Ret cfg' -> exists sv, saved_now cfg i = Ret sv /\ 0 <= i < len (rafts cfg) /\
    cfg_n cfg' = cfg_n cfg /\ logs cfg' = logs cfg /\ applyErr cfg' = applyErr cfg /\
    rafts cfg' = <[Z.to_nat i := None]> (rafts cfg) /\ saved cfg' = <[Z.to_nat i := kept sv]> (saved cfg).
Proof.
  unfold crash1. intros H. apply bind_Ret_inv in H as (c1 & H1 & H).
  apply disconnect_core in H1 as (En & Er & Es & El & Ea).
  apply bind_Ret_inv in H as (sv & Hsv & H).
  apply bind_Ret_inv in H as (rfs & [Hi ->]%slice_set_Ret & H).
  apply bind_Ret_inv in H as (svs & [_ ->]%slice_set_Ret & H). injection H as <-.
  exists sv. unfold saved_now in *. simpl in *. rewrite Er in Hi. rewrite Er, Es in Hsv.
  rewrite Er, Es. by do 6 (split; [done|]).
Qed.

Lemma make_ends_core i rs cfg cfg' : make_ends i rs cfg = Ret cfg' -> same_core cfg cfg'.
Proof.
  unfold make_ends. intros H. apply bind_Ret_inv in H as (rows & _ & H).
  eapply (same_core_trans _ (set_endnames rows cfg)); [by split_and!|].
  eapply for_each_core; [|exact H]. intros x c c' E. unfold make_end in E. bind_inv. simplify_eq.
  by split_and!.
Qed.

(** The persister a restarted peer is given. *)
Definition given (sv : option Persister) : Persister :=
  match kept sv with Some ps => Copy ps | None => MakePersister end.

Lemma start1_core i rs cfg cfg' :
  start1 i rs cfg = Ret cfg' -> exists sv, saved_now cfg i = Ret sv /\ 0 <= i < len (rafts cfg) /\
    (Z.to_nat i < length (saved cfg))%nat /\
    cfg_n cfg' = cfg_n cfg /\ logs cfg' = logs cfg /\ applyErr cfg' = applyErr cfg /\
    rafts cfg' = <[Z.to_nat i := Some (Make (cfg_n cfg) i (given sv)).1]> (rafts cfg) /\
    saved cfg' = <[Z.to_nat i := Some (given sv)]> (saved cfg).
Proof.
  unfold start1. intros H. apply bind_Ret_inv in H as (c1 & H1 & H).
  apply crash1_core in H1 as (sv & Hsv & Hi & En & El & Ea & Er & Es).
  apply bind_Ret_inv in H as (c2 & H2 & H). apply make_ends_core in H2 as (En2 & Er2 & Es2 & El2 & Ea2).
  apply bind_Ret_inv in H as (sv' & Hsv' & H).
  apply bind_Ret_inv in H as (svs & [Hs ->]%slice_set_Ret & H).
  apply bind_Ret_inv in H as (rfs & [_ ->]%slice_set_Ret & H). injection H as <-.
  assert (Hlt : (Z.to_nat i < length (saved cfg))%nat).
  { rewrite Es2, Es in Hs. unfold len in Hs. rewrite length_insert in Hs. lia. }
  assert (sv' = kept sv) as ->.
  { rewrite Es2, Es in Hsv'. apply slice_get_Ret in Hsv' as [_ Hsv'].
    rewrite list_lookup_insert_eq in Hsv' by done. by injection Hsv'. }
  exists sv. simpl. rewrite Er2, Es2, Er, Es, !list_insert_insert_eq, En2, En.
  split_and!; try done; try lia; congruence.
Qed.

(** ** The peers' own events *)
Lemma handle_actor s cs t o s' i :
  handle n (with_calls s cs) t o = Some s' -> i <> t -> sys_nodes s' i = sys_nodes s i.
Proof.
  intros H Hi. destruct o as [[rf effs]| |]; simpl in H; simplify_eq; simpl; by rewrite fn_lookup_insert_ne.
Qed.

Lemma exec_actor s e s' i :
  exec n s e = Some s' -> actor s e <> Some i -> sys_nodes s' i = sys_nodes s i.
Proof.
  intros H Ha.
  destruct e as [t|k|k|k|t j|t c|t|t|t k|t idx snap|t]; unfold exec in H; simpl in Ha;
    try (match type of H with (if ?b then _ else _) = _ => destruct b eqn:Hb; [|done] end);
    try (by (eapply (handle_actor s (sys_calls s)); [exact H|congruence])).
  - destruct (sys_calls s !! k) as [c|] eqn:Hk; [|done]. simpl in Ha. cbn [mbind option_bind] in H.
    unfold deliver in H. destruct (c_rpc c); try done.
    + destruct (RequestVote _ _) as [[[? ?] ?]| |]; simplify_eq; simpl; rewrite fn_lookup_insert_ne; congruence.
    + destruct (AppendEntries _ _) as [[[? ?] ?]| |]; simplify_eq; simpl; rewrite fn_lookup_insert_ne; congruence.
    + destruct (InstallSnapShot _ _) as [[[rf r] effs]| |]; simplify_eq; [|simpl; rewrite fn_lookup_insert_ne; congruence].
      destruct (put_install_spec s k rf effs (mkCall (c_from c) (c_to c) (RetSnap args r))) as [[-> _]| ->];
        simpl; rewrite fn_lookup_insert_ne; congruence.
  - destruct (sys_calls s !! k) as [c|] eqn:Hk; [|done]. simpl in Ha. cbn [mbind option_bind] in H.
    rewrite reply_section_spec in H. eapply handle_actor; [exact H|congruence].
  - destruct (sys_calls s !! k) as [c|] eqn:Hk; [|done]. simpl in H. by simplify_eq.
  - case_match; [done|]. simplify_eq. simpl. rewrite fn_lookup_insert_ne; congruence.
  - destruct (applyLogEntryDaemon _) as [[rf msgs]| |]; simplify_eq; simpl; rewrite fn_lookup_insert_ne; congruence.
  - destruct (nd_notify (sys_nodes s t) !! k) as [[snap c]|]; [|done]. simpl in H. simplify_eq. simpl.
    rewrite fn_lookup_insert_ne; congruence.
  - simplify_eq. simpl. rewrite fn_lookup_insert_ne; congruence.
Qed.

(** A section that does not panic only adds to what its peer sent. *)
Lemma put_prefix s cs t rf effs i :
  nd_applyCh (sys_nodes s i) `prefix_of` nd_applyCh (sys_nodes (put_raft (with_calls s cs) t rf effs) i).
Proof. simpl. by fn_cases. Qed.

Lemma handle_prefix s cs t o s' i :
  is_panic o = false -> handle n (with_calls s cs) t o = Some s' ->
  nd_applyCh (sys_nodes s i) `prefix_of` nd_applyCh (sys_nodes s' i).
Proof.
  intros Hp H. destruct o as [[rf effs]| |]; simpl in H; simplify_eq/=. apply (put_prefix s cs t rf effs i).
Qed.

Lemma is_panic_bind_Ret {A B} (o : outcome A) (f : A -> B) :
  is_panic (x ← o; Ret (f x)) = is_panic o.
Proof. by destruct o. Qed.

Lemma exec_prefix s e s' i :
  panics n s e = false -> (forall t, e <> EvCrash t) -> exec n s e = Some s' ->
  nd_applyCh (sys_nodes s i) `prefix_of` nd_applyCh (sys_nodes s' i).
Proof.
  intros Hp Hc H.
  destruct e as [t|k|k|k|t j|t c|t|t|t k|t idx snap|t]; unfold exec in H; simpl in Hp;
    try (match type of H with (if ?b then _ else _) = _ => destruct b eqn:Hb; [|done] end).
  - by eapply (handle_prefix s (sys_calls s)).
  - destruct (sys_calls s !! k) as [c|] eqn:Hk; [|done]. cbn [mbind option_bind] in H.
    unfold deliver in H. destruct (c_rpc c); try done.
    + destruct (RequestVote _ _) as [[[? ?] ?]| |]; simplify_eq/=; by fn_cases.
    + destruct (AppendEntries _ _) as [[[? ?] ?]| |]; simplify_eq/=; by fn_cases.
    + destruct (InstallSnapShot _ _) as [[[rf r] effs]| |]; [|done..]. simplify_eq.
      destruct (put_install_spec s k rf effs (mkCall (c_from c) (c_to c) (RetSnap args r))) as [[-> _]| ->]; simpl; by fn_cases.
  - destruct (sys_calls s !! k) as [c|] eqn:Hk; [|done]. cbn [mbind option_bind] in H.
    rewrite reply_section_spec in H. by eapply handle_prefix.
  - destruct (sys_calls s !! k) as [c|] eqn:Hk; [|done]. simpl in H. by simplify_eq.
  - apply andb_true_iff in Hb as [Hb _]. try rewrite Hb in Hp. simpl in Hp.
    eapply (handle_prefix s (sys_calls s)); [|exact H]. by rewrite is_panic_bind_Ret.
  - try rewrite Hb in Hp. simpl in Hp. eapply (handle_prefix s (sys_calls s)); [|exact H].
    by destruct (Start _ _) as [[[? ?] ?]| |].
  - case_match; [done|]. simplify_eq. simpl. by fn_cases.
  - apply andb_true_iff in Hb as [Hb _]. try rewrite Hb in Hp. simpl in Hp. unfold raft_of in Hp.
    destruct (applyLogEntryDaemon _) as [[rf msgs]| |]; simplify_eq. simpl. fn_cases; [by eexists|done].
  - destruct (nd_notify (sys_nodes s t) !! k) as [[snap c]|]; [|done]. simpl in H. simplify_eq. simpl.
    fn_cases; [by eexists|done].
  - apply andb_true_iff in Hb as [Hb _]. try rewrite Hb in Hp. simpl in Hp.
    eapply (handle_prefix s (sys_calls s)); [|exact H]. by rewrite is_panic_bind_Ret.
  - by destruct (Hc t).
Qed.

(** ** Every step keeps the invariant *)
Lemma refresh_lookup s cfg i :
  rafts (refresh s cfg) !! i = (fun o => (fun _ => raft_of s (Z.of_nat i)) <$> o) <$> rafts cfg !! i.
Proof. unfold refresh. simpl. by rewrite list_lookup_imap. Qed.

Lemma log_of_same cfg cfg' i : logs cfg' = logs cfg -> log_of cfg' i = log_of cfg i.
Proof. unfold log_of. by intros ->. Qed.

Lemma HRaft_ok h e s' :
  h_ok h -> allowed (h_cfg h) (h_sys h) e = true -> panics n (h_sys h) e = false ->
  exec n (h_sys h) e = Some s' -> h_ok (mkHarness (refresh s' (h_cfg h)) s' (h_read h) (h_old h)).
Proof.
  intros H Hal Hp He. unfold allowed in Hal. apply andb_true_iff in Hal as [Hal Hact].
  destruct (exec_sends n _ _ _ He) as [[rs El] _].
  assert (Hpre : forall i, nd_applyCh (sys_nodes (h_sys h) i) `prefix_of` nd_applyCh (sys_nodes s' i)).
  { intros i. eapply exec_prefix; [exact Hp| |exact He]. intros t ->. done. }
  destruct H as [Hr Hn Hlr Hll Herr Hpeer Hlog Hcnt Hrd Hold]. split; simpl in *.
  - eapply reach_step; [exact Hr| |exact He]. intros Hc. by destruct e.
  - done.
  - unfold len in *. by rewrite length_imap.
  - done.
  - done.
  - intros i Hi. destruct (Hpeer i Hi) as [(ps & E1 & E2)|(E1 & sv & E2 & E3)].
    + left. exists ps. rewrite refresh_lookup, E1. simpl. by rewrite Z2Nat.id by lia.
    + right. rewrite refresh_lookup, E1. split; [done|]. exists sv. split; [done|].
      assert (sys_nodes s' i = sys_nodes (h_sys h) i) as En.
      { eapply exec_actor; [exact He|]. intros Ha. rewrite Ha in Hact. unfold running in Hact.
        by rewrite E1 in Hact. }
      unfold raft_of in *. by rewrite En.
  - intros i idx v Hi HL. rewrite El. apply elem_of_app. left. by apply Hlog.
  - intros i Hi. etrans; [by apply Hcnt|]. by apply prefix_length.
  - intros i k idx c Hi Hk Hl. eapply (Hrd i k idx c Hi Hk). specialize (Hcnt i Hi).
    destruct (Hpre i) as [tl Etl]. rewrite Etl, lookup_app_l in Hl by lia. done.
  - intros i ms Hin. destruct (Hold i ms Hin) as (? & ? & Hs). split; [done|]. split; [done|].
    intros idx c Hc. rewrite El. apply elem_of_app. left. by apply Hs.
Qed.

(** The tester hands a restarted peer what the old one had persisted. *)
Lemma given_persister h i sv :
  h_ok h -> 0 <= i < n -> saved_now (h_cfg h) i = Ret sv -> given sv = persister (raft_of (h_sys h) i).
Proof.
  intros H Hi Hsv. pose proof (reach_snapless n _ (ho_reach _ H) i) as Hsn. unfold snap_of in Hsn.
  assert (given sv = mkPersister (raftstate (persister (raft_of (h_sys h) i))) []) as ->.
  2:{ by destruct (persister (raft_of (h_sys h) i)); simpl in *; subst. }
  unfold saved_now in Hsv. apply bind_Ret_inv in Hsv as (sv0 & [_ H0]%slice_get_Ret & Hsv).
  apply bind_Ret_inv in Hsv as (rf & [_ H1]%slice_get_Ret & Hsv). injection Hsv as <-.
  destruct (ho_peer _ H i Hi) as [(ps & E1 & E2)|(E1 & sv1 & E2 & E3 & E4)].
  - rewrite E1 in H1. rewrite E2 in H0. by simplify_eq.
  - rewrite E1 in H1. rewrite E2 in H0. simplify_eq. destruct sv0 as [ps|]; simpl in *; unfold given; simpl.
    + by rewrite <- E3.
    + by rewrite <- E3.
Qed.

Lemma boot_given i ps : boot (Cmd := Z) n i ps = mkNode (Make n i ps).1 (Make n i ps).2 [] false.
Proof. unfold boot, Copy. by destruct ps. Qed.

(** A restart is a crash and a restart from the persister. *)
Lemma restarted_crash h i rs cfg' :
  h_ok h -> start1 i rs (h_cfg h) = Ret cfg' ->
  0 <= i < n /\ restarted (h_sys h) cfg' i = crash n (h_sys h) i.
Proof.
  intros H Hst. destruct (start1_core _ _ _ _ Hst) as (sv & Hsv & Hi & Hlt & _ & _ & _ & _ & Es).
  rewrite (ho_rafts _ H) in Hi. split; [done|]. pose proof (given_persister _ _ _ H Hi Hsv) as Hg.
  unfold restarted, crash. rewrite Es, list_lookup_insert_eq by done. cbn [mjoin option_join default].
  by rewrite Hg.
Qed.

Lemma crash_exec s i : 0 <= i < n -> exec n s (EvCrash i) = Some (crash n s i).
Proof.
  intros Hi. unfold exec, is_peer. by rewrite (proj2 (Z.leb_le _ _)), (proj2 (Z.ltb_lt _ _)) by lia.
Qed.

Lemma HStart_ok h i rs cfg' :
  h_ok h -> start1 i rs (h_cfg h) = Ret cfg' ->
  h_ok (mkHarness cfg' (restarted (h_sys h) cfg' i) (<[i := O]> (h_read h))
    (h_old h ++ [(i, drop (h_read h i) (nd_applyCh (sys_nodes (h_sys h) i)))])).
Proof.
  intros H Hst. destruct (start1_core _ _ _ _ Hst) as (sv & Hsv & Hi & Hlt & En & El & Ea & Er & Es).
  rewrite (ho_rafts _ H) in Hi. rewrite (ho_n _ H) in En, Er. pose proof (given_persister _ _ _ H Hi Hsv) as Hg.
  destruct (restarted_crash _ _ _ _ H Hst) as [_ Hs'].
  pose proof (unread_chained h i H Hi) as Hch.
  assert (Hrec := reach_sent_logged n _ _ (ho_reach _ H)).
  destruct H as [Hr Hn Hlr Hll Herr Hpeer Hlog Hcnt Hrd Hold]. rewrite Hs'. split; simpl in *.
  - eapply (reach_step n _ _ (EvCrash i)); [exact Hr|by intros ?|by apply crash_exec].
  - done.
  - rewrite Er. unfold len in *. by rewrite length_insert.
  - by rewrite El.
  - by rewrite Ea.
  - intros j Hj. unfold peer_ok. rewrite Er, Es. unfold raft_of. simpl.
    destruct (decide (j = i)) as [->|Hne].
    + left. exists (given sv). unfold len in *. rewrite !list_lookup_insert_eq by lia.
      rewrite fn_lookup_insert. rewrite boot_given. simpl. by rewrite <- Hg.
    + rewrite !list_lookup_insert_ne by lia. rewrite fn_lookup_insert_ne by done. by apply Hpeer.
  - intros j idx v Hj. rewrite (log_of_same _ _ _ El). by apply Hlog.
  - intros j Hj. fn_cases; [lia|by apply Hcnt].
  - intros j k idx c Hj. rewrite (log_of_same _ _ _ El). fn_cases; [lia|by apply Hrd].
  - intros j ms [Hin|Hin%list_elem_of_singleton]%elem_of_app; rewrite (log_of_same _ _ _ El).
    + by apply Hold.
    + injection Hin as -> ->. split; [done|]. split; [done|]. intros idx c Hc.
      apply Hrec. exact (subseteq_drop _ _ _ Hc).
Qed.

Lemma kept_given sv : default MakePersister (kept sv) = given sv.
Proof. unfold given. destruct (kept sv) as [[]|]; done. Qed.

Lemma HCrash_ok h i cfg' : h_ok h -> crash1 i (h_cfg h) = Ret cfg' -> h_ok (with_cfg h cfg').
Proof.
  intros H Hc. destruct (crash1_core _ _ _ Hc) as (sv & Hsv & Hi & En & El & Ea & Er & Es).
  rewrite (ho_rafts _ H) in Hi. pose proof (given_persister _ _ _ H Hi Hsv) as Hg.
  pose proof (reach_snapless n _ (ho_reach _ H) i) as Hsn. unfold snap_of in Hsn.
  destruct H as [Hr Hn Hlr Hll Herr Hpeer Hlog Hcnt Hrd Hold].
  split; simpl in *; rewrite ?En, ?El, ?Ea; try done.
  - rewrite Er. unfold len in *. by rewrite length_insert.
  - intros j Hj. unfold peer_ok. rewrite Er, Es. destruct (decide (j = i)) as [->|Hne].
    + right. unfold len in *. assert (Z.to_nat i < length (saved (h_cfg h)))%nat.
      { destruct (Hpeer i Hi) as [(? & _ & E)|(_ & ? & E & _)]; by apply lookup_lt_Some in E. }
      rewrite !list_lookup_insert_eq by lia. split; [done|]. exists (kept sv). split; [done|].
      by rewrite kept_given, Hg.
    + rewrite !list_lookup_insert_ne by lia. by apply Hpeer.
  - intros j idx v Hj. rewrite (log_of_same _ _ _ El). by apply Hlog.
  - intros j k idx c Hj. rewrite (log_of_same _ _ _ El). by apply Hrd.
  - intros j ms Hin. rewrite (log_of_same _ _ _ El). by apply Hold.
Qed.

Lemma core_ok h cfg' : h_ok h -> same_core (h_cfg h) cfg' -> h_ok (with_cfg h cfg').
Proof.
  intros [Hr Hn Hlr Hll Herr Hpeer Hlog Hcnt Hrd Hold] (En & Er & Es & El & Ea).
  split; simpl in *; rewrite ?En, ?Er, ?El, ?Ea; try done.
  - intros j Hj. unfold peer_ok. rewrite Er, Es. by apply Hpeer.
  - intros j idx v Hj. rewrite (log_of_same _ _ _ El). by apply Hlog.
  - intros j k idx c Hj. rewrite (log_of_same _ _ _ El). by apply Hrd.
  - intros j ms Hin. rewrite (log_of_same _ _ _ El). by apply Hold.
Qed.

(** The steps that run an operation of the tester itself. *)
Definition tester_op (e : hevent) : bool :=
  match e with HStart _ _ | HCrash _ | HConnect _ | HDisconnect _ => true | _ => false end.

Lemma of_outcome_cases (o : outcome harness) v :
  of_outcome o = Some v -> (exists h, o = Ret h /\ v = Pass h) \/ v = Crash.
Proof. destruct o; simpl; intros E; simplify_eq; eauto. Qed.

Lemma h_exec_cases h e v :
  h_ok h -> h_exec h e = Some v ->
  (exists h', v = Pass h' /\ h_ok h') \/ (v = Crash /\ tester_op e = true).
Proof.
  intros H Hv. destruct h as [cfg s rd old]. unfold h_exec in Hv.
  assert (Hop : forall o (f : config -> harness), of_outcome (c ← o; Ret (f c)) = Some v ->
    (forall c, o = Ret c -> h_ok (f c)) -> (exists h', v = Pass h' /\ h_ok h') \/ v = Crash).
  { intros o f Ho Hf. apply of_outcome_cases in Ho as [(h' & Ho & ->) | -> ]; [left|by right].
    apply bind_Ret_inv in Ho as (c & Hc & E). injection E as <-. eauto. }
  destruct e as [e|i rs|i|i|i|b|b|i|k].
  - destruct (allowed cfg s e) eqn:Hal; [|done].
    assert (Hp : panics n s e = false).
    { apply reach_no_panic, no_compaction_no_overshoot, (ho_reach _ H). }
    rewrite Hp in Hv. destruct (exec n s e) as [s'|] eqn:He; [|done]. simpl in Hv. injection Hv as <-.
    left. eexists. split; [done|]. by apply (HRaft_ok _ e _ H).
  - destruct (Hop _ _ Hv) as [?|?]; [|by left|by right]. intros c Hc. by apply (HStart_ok _ _ _ _ H Hc).
  - destruct (Hop _ _ Hv) as [?|?]; [|by left|by right]. intros c Hc. by apply (HCrash_ok _ _ _ H Hc).
  - destruct (Hop _ _ Hv) as [?|?]; [|by left|by right]. intros c Hc.
    by apply (core_ok _ _ H), (connect_core _ _ _ Hc).
  - destruct (Hop _ _ Hv) as [?|?]; [|by left|by right]. intros c Hc.
    by apply (core_ok _ _ H), (disconnect_core _ _ _ Hc).
  - injection Hv as <-. left. eexists. split; [done|]. by apply (core_ok _ _ H).
  - injection Hv as <-. left. eexists. split; [done|]. by apply (core_ok _ _ H).
  - destruct (is_peer n i) eqn:Hb; [|done]. unfold is_peer in Hb. zbool.
    destruct (nd_applyCh (sys_nodes s i) !! rd i) as [m|] eqn:Hm; [|done].
    destruct (HRead_ok _ i m H ltac:(lia) Hm) as (cfg' & Ha & Hok). simpl in Ha.
    cbn [mbind option_bind] in Hv. rewrite Ha in Hv. injection Hv as <-. left. by eexists.
  - destruct (old !! k) as [[i [|m ms]]|] eqn:Hk; try done.
    destruct (HReadOld_ok _ k i m ms H Hk) as (cfg' & Ha & Hok). simpl in Ha.
    rewrite Ha in Hv. injection Hv as <-. left. by eexists.
Qed.

Lemma init_ok : 0 <= n -> h_ok h_init.
Proof.
  intros Hn.
  assert (Hl : forall i, log_of (fresh_config n) i = ∅).
  { intros i. unfold log_of. simpl. destruct (replicate _ _ !! _) as [L|] eqn:E; [|done].
    by apply lookup_replicate in E as [-> _]. }
  split; simpl; try done.
  - apply reach_init.
  - unfold len. rewrite length_replicate. lia.
  - unfold len. rewrite length_replicate. lia.
  - intros i Hi. right. simpl. split; [by apply lookup_replicate_2; lia|]. exists None.
    split; [by apply lookup_replicate_2; lia|]. done.
  - intros i idx v _. by rewrite Hl, lookup_empty.
  - intros i ms Hin. by apply not_elem_of_nil in Hin.
Qed.

Lemma reach_ok h : 0 <= n -> h_reach h -> h_ok h.
Proof.
  intros Hn. unfold h_reach. generalize (init_ok Hn). generalize h_init as h0.
  intros h0 H0 Hr. revert H0. induction Hr as [|h1 h2 h3 [e He] _ IH]; intros H1; [done|].
  apply IH. destruct (h_exec_cases _ _ _ H1 He) as [(h' & [= ->] & Hok)|[? _]]; done.
Qed.

(** C21: the tester accepts every run.  However the peers run (none compacts its
    log, which only a service above Raft asks for), and however the tester
    starts, crashes, restarts, connects and disconnects them, no reader of
    applyCh reports an error (a different value at an index, an index out of
    order, a command that is not an int), no peer panics, and only an operation
    of the tester itself can panic. *)
Theorem tester_accepts h e :
  0 <= n -> h_reach h ->
  (forall err, h_exec h e <> Some (Fatal err)) /\ (h_exec h e = Some Crash -> tester_op e = true).
Proof.
  intros Hn Hr. pose proof (reach_ok h Hn Hr) as H. split.
  - intros err He. destruct (h_exec_cases _ _ _ H He) as [(? & ? & _)|[? _]]; done.
  - intros He. destruct (h_exec_cases _ _ _ H He) as [(? & ? & _)|[_ ?]]; done.
Qed.
End Harness.
