(* ===== verification/RaftChecks.v ===== *)
(** * What the checks of the Raft tester establish

    checkOneLeader, nCommitted and one of raft/config.go read the peers and the
    logs one after the other while everything keeps running.  Over the runs of
    RaftHarness.v: a scan never sees two leaders of a term, the leader it returns
    led the latest term seen, a count never finds two values at an index, and an
    agreement reported by [one] is one. *)

From stdpp Require Import base functions list list_numbers gmap relations.
From S2P Require Import Prelude Gob RaftNode RaftNodeFacts RaftSpec RaftSystem RaftRefine RaftLead RaftSim RaftSafety RaftApply RaftBounds RaftTrace LabRpc Harness RaftConfig RaftHarness.
Open Scope Z_scope.

Section Checks.
Context (n : Z).
Implicit Types cfg : config.
Implicit Types h : harness.

(** ** Steps of the harness are steps of the cluster *)
Lemma h_step_sys h h' : h_ok n h -> h_step n h h' -> rtc (sys_step n) (h_sys h) (h_sys h').
Proof.
  intros H [e He]. destruct h as [cfg s rd old]. unfold h_exec in He.
  assert (Hop : forall o (f : config -> harness), of_outcome (c ← o; Ret (f c)) = Some (Pass h') ->
    exists c, o = Ret c /\ h' = f c).
  { intros o f Ho. apply of_outcome_cases in Ho as [(x & Ho & E)|E]; [|done]. injection E as <-.
    apply bind_Ret_inv in Ho as (c & Hc & E). injection E as <-. by exists c. }
  destruct e as [e|i rs|i|i|i|b|b|i|k].
  - destruct (allowed cfg s e); [|done]. destruct (panics n s e); [done|].
    destruct (exec n s e) as [s'|] eqn:Hx; [|done]. simpl in He. injection He as <-.
    apply rtc_once. by exists e.
  - destruct (Hop _ _ He) as (c & Hc & ->). simpl.
    destruct (restarted_crash n _ _ _ _ H Hc) as [Hi E]. simpl in E. rewrite E.
    apply rtc_once. exists (EvCrash i). by apply crash_exec.
  - by destruct (Hop _ _ He) as (c & _ & ->).
  - by destruct (Hop _ _ He) as (c & _ & ->).
  - by destruct (Hop _ _ He) as (c & _ & ->).
  - by injection He as <-.
  - by injection He as <-.
  - destruct (is_peer n i); [|done]. destruct (nd_applyCh (sys_nodes s i) !! rd i) as [m|]; [|done].
    cbn [mbind option_bind] in He. destruct (applier i m cfg); simpl in He; by simplify_eq.
  - destruct (old !! k) as [[i [|m ms]]|]; try done.
    destruct (applier i m cfg); simpl in He; by simplify_eq.
Qed.

Lemma h_step_ok h h' : h_ok n h -> h_step n h h' -> h_ok n h'.
Proof.
  intros H [e He]. destruct (h_exec_cases n _ _ _ H He) as [(x & E & Hok)|[E _]]; [|done].
  by injection E as <-.
Qed.

Lemma h_steps_sys h h' : h_ok n h -> rtc (h_step n) h h' ->
  h_ok n h' /\ rtc (sys_step n) (h_sys h) (h_sys h').
Proof.
  intros H Hs. induction Hs as [|h1 h2 h3 Hs _ IH]; [done|].
  destruct (IH (h_step_ok _ _ H Hs)) as [? ?]. split; [done|]. etrans; [by apply h_step_sys|done].
Qed.

Lemma sys_logs_grow s s' (r : Z * Z * option Z) : rtc (sys_step n) s s' -> r ∈ sys_logs s -> r ∈ sys_logs s'.
Proof.
  induction 1 as [|s1 s2 s3 [e He] _ IH]; intros Hr; [done|]. apply IH.
  destruct (exec_sends n _ _ _ He) as [[rs ->] _]. apply elem_of_app. by left.
Qed.

(** ** checkOneLeader *)
Section Scan.
(** [st i] is the state in which the scan reads server [i]. *)
Context (st : Z -> harness).
Hypothesis Hst : forall i, 0 <= i < n -> h_ok n (st i).
Hypothesis Hord : forall i j, 0 <= i <= j -> j < n -> rtc (h_step n) (st i) (st j).

(** The scan sees server [i] connected and leading term [T]. *)
Definition seen_leader (i T : Z) : Prop :=
  exists rf, connected (h_cfg (st i)) !! Z.to_nat i = Some true /\
    rafts (h_cfg (st i)) !! Z.to_nat i = Some (Some rf) /\ state rf = LEADER /\ CurrentTerm rf = T.

Lemma seen_leader_sys i T : 0 <= i < n -> seen_leader i T ->
  state (raft_of (h_sys (st i)) i) = LEADER /\ CurrentTerm (raft_of (h_sys (st i)) i) = T.
Proof.
  intros Hi (rf & _ & Hr & Hl & HT).
  destruct (ho_peer _ _ (Hst i Hi) i Hi) as [(ps & E & _)|(E & _)]; rewrite E in Hr; by simplify_eq.
Qed.

Lemma seen_unique i j T : 0 <= i < n -> 0 <= j < n -> seen_leader i T -> seen_leader j T -> i = j.
Proof.
  assert (Hle : forall i j, 0 <= i <= j -> j < n -> seen_leader i T -> seen_leader j T -> i = j).
  { clear i j. intros i j Hij Hj Si Sj.
    destruct (seen_leader_sys i T) as [Li Ti]; [lia|done|].
    destruct (seen_leader_sys j T) as [Lj Tj]; [lia|done|].
    destruct (h_steps_sys (st i) (st j)) as [_ Hs]; [apply Hst; lia|by apply Hord|].
    eapply (one_leader_per_term n (h_sys (st i)) (h_sys (st j))); try done; try lia.
    eapply (reach_weaken n no_compaction); [done|]. apply (ho_reach n), Hst. lia. }
  intros Hi Hj Si Sj. destruct (decide (i <= j)); [apply Hle; (done || lia)|]. symmetry. apply Hle; (done || lia).
Qed.

Lemma seen_term i T : 0 <= i < n -> seen_leader i T -> 0 <= T.
Proof.
  intros Hi S. destruct (seen_leader_sys i T Hi S) as [_ <-].
  assert (Hr : reachable n (h_sys (st i))).
  { eapply (reach_weaken n no_compaction); [done|]. apply (ho_reach n), Hst. lia. }
  destruct (reach_basic n _ Hr) as (a & _ & I & R). destruct (rel_node R i Hi) as [C _].
  rewrite (nr_term C). apply I.
Qed.

(** What [leaders] holds after a scan. *)
Lemma scan_spec srvs leaders m :
  NoDup srvs -> (forall i T, i ∈ default [] (leaders !! T) -> i ∉ srvs) ->
  (forall T, NoDup (default [] (leaders !! T))) -> (forall T, leaders !! T <> Some []) ->
  scanLeaders (fun i => h_cfg (st i)) srvs leaders = Pass m -> (forall i, i ∈ srvs -> 0 <= i) ->
  (forall T, NoDup (default [] (m !! T))) /\ (forall T, m !! T <> Some []) /\
  forall i T, i ∈ default [] (m !! T) <-> i ∈ default [] (leaders !! T) \/ (i ∈ srvs /\ seen_leader i T).
Proof.
  revert leaders. induction srvs as [|i srvs IH]; intros leaders Hnd Hdis Hndl Hne Hm Hpos.
  { injection Hm as <-. split; [done|]. split; [done|]. intros i T. set_solver. }
  apply NoDup_cons in Hnd as [Hi Hnd]. cbn [scanLeaders] in Hm.
  apply bind_Pass_inv in Hm as (c & Hc & Hm). apply lift_Pass in Hc. apply slice_get_Ret in Hc as [_ Hc].
  assert (Hskip : (forall T, ~ seen_leader i T) ->
    scanLeaders (fun i => h_cfg (st i)) srvs leaders = Pass m ->
    (forall T, NoDup (default [] (m !! T))) /\ (forall T, m !! T <> Some []) /\
    forall j T, j ∈ default [] (m !! T) <-> j ∈ default [] (leaders !! T) \/ (j ∈ i :: srvs /\ seen_leader j T)).
  { intros Hno Hm'. destruct (IH leaders) as (H1 & H2 & H3); try done.
    - intros j T Hj Hin. apply (Hdis j T Hj). by right.
    - intros j Hj. apply Hpos. by right.
    - split; [done|]. split; [done|]. intros j T. rewrite H3, elem_of_cons.
      assert (j = i -> ~ seen_leader j T) by (intros ->; done). naive_solver. }
  destruct c; [|apply Hskip; [|done]; intros T (rf & Hc' & _); congruence].
  apply bind_Pass_inv in Hm as ([term leader] & Hg & Hm). unfold getState in Hg.
  apply bind_Pass_inv in Hg as (rfo & Hrf & Hg). apply lift_Pass in Hrf. apply slice_get_Ret in Hrf as [_ Hrf].
  destruct rfo as [rf|]; [|done]. injection Hg as <- <-.
  case_bool_decide as Hl; [|apply Hskip; [|done]; intros T (rf' & _ & Hrf' & Hl' & _); congruence].
  assert (Hseen : forall T, seen_leader i T <-> T = CurrentTerm rf).
  { intros T. split; [intros (rf' & _ & Hrf' & _ & <-); congruence|]. intros ->. by exists rf. }
  set (ls := default [] (leaders !! CurrentTerm rf)) in *.
  assert (Hins : forall T, default [] (<[CurrentTerm rf := ls ++ [i]]> leaders !! T) =
    if decide (T = CurrentTerm rf) then ls ++ [i] else default [] (leaders !! T)).
  { intros T. case_decide as E; [subst T; by rewrite lookup_insert_eq|by rewrite lookup_insert_ne]. }
  destruct (IH (<[CurrentTerm rf := ls ++ [i]]> leaders)) as (H1 & H2 & H3); try done.
  - intros j T. rewrite Hins. case_decide as E.
    + intros [Hj| ->%list_elem_of_singleton]%elem_of_app; [|done]. intros Hin. apply (Hdis j (CurrentTerm rf) Hj). by right.
    + intros Hj Hin. apply (Hdis j T Hj). by right.
  - intros T. rewrite Hins. case_decide; [|done]. apply NoDup_app. split; [apply Hndl|].
    split; [|apply NoDup_singleton]. intros x Hx ->%list_elem_of_singleton.
    apply (Hdis i (CurrentTerm rf) Hx). by left.
  - intros T. destruct (decide (T = CurrentTerm rf)) as [->|E]; [rewrite lookup_insert_eq; by destruct ls|].
    by rewrite lookup_insert_ne.
  - intros j Hj. apply Hpos. by right.
  - split; [done|]. split; [done|]. intros j T. rewrite H3, Hins, elem_of_cons. case_decide as E.
    + subst T. rewrite elem_of_app, list_elem_of_singleton. fold ls.
      assert (j = i -> seen_leader j (CurrentTerm rf)) by (intros ->; by apply Hseen). naive_solver.
    + assert (j = i -> ~ seen_leader j T) by (intros ->; by rewrite Hseen). naive_solver.
Qed.

Lemma scan_from_empty m :
  scanLeaders (fun i => h_cfg (st i)) (seqZ 0 n) ∅ = Pass m ->
  (forall T, m !! T <> Some []) /\ (forall T ls, m !! T = Some ls -> len ls <= 1) /\
  (forall i T, 0 <= i < n -> seen_leader i T -> is_Some (m !! T)) /\
  (forall i T ls, m !! T = Some ls -> i ∈ ls -> 0 <= i < n /\ seen_leader i T).
Proof.
  intros Hm. destruct (scan_spec (seqZ 0 n) ∅ m) as (H1 & H2 & H3); try done.
  - apply NoDup_seqZ.
  - intros i T. rewrite lookup_empty. by intros ?%not_elem_of_nil.
  - intros T. rewrite lookup_empty. apply NoDup_nil_2.
  - intros i ?%elem_of_seqZ. lia.
  - assert (Hin : forall i T ls, m !! T = Some ls -> i ∈ ls -> 0 <= i < n /\ seen_leader i T).
    { intros i T ls HT Hi. destruct (H3 i T) as [H3' _]. rewrite HT in H3'.
      destruct (H3' Hi) as [Hno|[?%elem_of_seqZ ?]]; [|split; [lia|done]].
      rewrite lookup_empty in Hno. by apply not_elem_of_nil in Hno. }
    split; [done|]. split; [|split; [|exact Hin]].
    + intros T ls HT. specialize (H1 T). rewrite HT in H1. simpl in H1.
      destruct ls as [|x [|y ls]]; unfold len; simpl; try lia.
      destruct (Hin x T _ HT) as [Hx Sx]; [by left|].
      destruct (Hin y T _ HT) as [Hy Sy]; [by right; left|].
      apply NoDup_cons in H1 as [Hxy _]. rewrite (seen_unique x y T Hx Hy Sx Sy) in Hxy. set_solver.
    + intros i T Hi S. destruct (H3 i T) as [_ H3'].
      destruct (m !! T) as [ls|]; [by eexists|]. exfalso. simpl in H3'.
      eapply (not_elem_of_nil i), H3'. right. split; [apply elem_of_seqZ; lia|done].
Qed.
End Scan.

(** The greatest term of a list in which no term has two leaders. *)
Lemma lastTerm_spec ts lst r :
  (forall T ls, (T, ls) ∈ ts -> len ls <= 1) ->
  lastTerm ts lst = r -> exists L, r = Pass L /\ lst <= L /\ (L = lst \/ L ∈ ts.*1) /\
    forall T, T ∈ ts.*1 -> T <= L.
Proof.
  revert lst. induction ts as [|[T ls] ts IH]; intros lst Hone H; cbn [lastTerm] in H.
  { exists lst. split; [done|]. split; [lia|]. split; [by left|]. intros T HT. by apply not_elem_of_nil in HT. }
  pose proof (Hone T ls ltac:(by left)). destruct (Z.ltb_spec 1 (len ls)); [lia|].
  destruct (IH (if lst <? T then T else lst)) as (L & -> & Hle & Hin & Hall); [|done|].
  { intros T' ls' Hin. apply (Hone T' ls'). by right. }
  exists L. rewrite fmap_cons. cbn [fst]. destruct (Z.ltb_spec lst T).
  - split; [done|]. split; [lia|]. split; [right; destruct Hin as [->|?]; [by left|by right]|].
    intros T' [->|HT']%elem_of_cons; [done|by apply Hall].
  - split; [done|]. split; [lia|]. split; [destruct Hin as [->|?]; [by left|right; by right]|].
    intros T' [->|HT']%elem_of_cons; [lia|by apply Hall].
Qed.

(** The states a run of checkOneLeader reads: iteration [k] reads server [i] in
    [st k i], and within an iteration time goes forward. *)
Definition scanned (st : Z -> Z -> harness) : Prop :=
  (forall k i, 0 <= i < n -> h_reach n (st k i)) /\
  forall k i j, 0 <= i <= j -> j < n -> rtc (h_step n) (st k i) (st k j).

Lemma oneLeader_spec st iters k r :
  0 <= n -> scanned st -> oneLeader iters k n (fun k i => h_cfg (st k i)) = r ->
  r = Crash \/ r = Fatal ExpectedOneLeader \/
  exists k' l T, r = Pass l /\ k <= k' < k + Z.of_nat iters /\ 0 <= l < n /\ seen_leader (st k') l T /\
    forall i T', 0 <= i < n -> seen_leader (st k') i T' -> T' <= T.
Proof.
  intros Hn [Hreach Hord]. revert k. induction iters as [|iters IH]; intros k H; cbn [oneLeader] in H.
  { right; left. done. }
  assert (Hok : forall i, 0 <= i < n -> h_ok n (st k i)) by (intros; by apply reach_ok, Hreach).
  destruct (scanLeaders _ _ _) as [m|e|] eqn:Hm; cbn [mbind verdict_bind] in H.
  2:{ exfalso. clear -Hm. revert Hm. generalize (∅ : gmap Z (list Z)). induction (seqZ 0 n) as [|i l IHl];
        intros m Hm; [done|]. cbn [scanLeaders] in Hm.
      apply bind_Fatal_inv in Hm as [Hm|([] & _ & Hm)]; [by apply lift_not_Fatal in Hm| |by eapply IHl].
      apply bind_Fatal_inv in Hm as [Hm|([t b] & _ & Hm)]; [|by eapply IHl].
      unfold getState in Hm. apply bind_Fatal_inv in Hm as [Hm|([rf|] & _ & Hm)]; try done.
      by apply lift_not_Fatal in Hm. }
  2:{ by left. }
  destruct (scan_from_empty (st k) Hok (Hord k) m Hm) as (Hne & Hone & Hall & Hin).
  destruct (lastTerm_spec (map_to_list m) (-1) _ (fun T ls HT => Hone T ls (proj1 (elem_of_map_to_list _ _ _) HT)) eq_refl)
    as (L & EL & _ & HL & Hmax). rewrite EL in H. cbn [mbind verdict_bind] in H.
  destruct (Z.eqb_spec (Z.of_nat (size m)) 0) as [E0|E0]; cbn [negb] in H.
  { destruct (IH (k + 1) H) as [?|[?|(k' & l & T & ? & ? & ? & ? & ?)]]; [by left|by right; left|].
    right; right. exists k', l, T. split; [done|]. split; [lia|done]. }
  assert (Hkeys : forall T, T ∈ (map_to_list m).*1 <-> is_Some (m !! T)).
  { intros T. rewrite list_elem_of_fmap. split.
    - intros ([T' ls] & -> & HT%elem_of_map_to_list). by eexists.
    - intros [ls HT]. exists (T, ls). split; [done|]. by apply elem_of_map_to_list. }
  assert (HLin : is_Some (m !! L)).
  { destruct HL as [->|HL]; [|by apply Hkeys]. exfalso. apply E0.
    assert (Hemp : m = ∅); [|by rewrite Hemp, map_size_empty].
    apply map_eq. intros T. rewrite lookup_empty. destruct (m !! T) as [ls|] eqn:HT; [|done].
    destruct ls as [|x ls]; [by apply Hne in HT|]. destruct (Hin x T _ HT) as [Hx Sx]; [by left|].
    pose proof (seen_term (st k) Hok x T Hx Sx). assert (T <= -1); [|lia].
    apply Hmax, Hkeys. by eexists. }
  destruct HLin as [ls HLs]. rewrite HLs in H. cbn [default from_option] in H.
  destruct ls as [|l ls]; [by apply Hne in HLs|]. cbn in H. right; right.
  destruct (Hin l L _ HLs) as [Hl Sl]; [by left|]. exists k, l, L. split; [done|]. split; [lia|].
  split; [done|]. split; [done|]. intros i T' Hi Si. apply Hmax, Hkeys. by eapply Hall.
Qed.

(** C23: the leader check.  checkOneLeader never reports two leaders of a term,
    although it reads the peers at different times, and the peer it returns was
    connected and led the greatest term of all the leaders its scan saw. *)
Theorem checkOneLeader_sound st r :
  0 <= n -> scanned st -> checkOneLeader n (fun k i => h_cfg (st k i)) = r ->
  (forall T c, r <> Fatal (ManyLeaders T c)) /\
  forall l, r = Pass l -> exists k T, 0 <= k < 10 /\ 0 <= l < n /\ seen_leader (st k) l T /\
    forall i T', 0 <= i < n -> seen_leader (st k) i T' -> T' <= T.
Proof.
  intros Hn Hs H. destruct (oneLeader_spec st 10 0 r Hn Hs H) as [->|[->|(k & l & T & -> & Hk & Hl & S & Hmax)]].
  - split; done.
  - split; done.
  - split; [done|]. intros l' [= <-]. exists k, T. split; [lia|done].
Qed.

(** ** nCommitted and one *)

(** The states a count reads: server [i] in [st i], all before [hend]. *)
Definition counted_in (st : Z -> harness) (hend : harness) : Prop :=
  forall i, 0 <= i < n -> h_reach n (st i) /\ rtc (h_step n) (st i) hend.

(** The log of server [i] when it is read. *)
Definition read_log (st : Z -> harness) (i : Z) : gmap Z Z := log_of (h_cfg (st i)) i.

(** The servers that hold an entry at [index]. *)
Definition holders (st : Z -> harness) (index : Z) (srvs : list Z) : list Z :=
  filter (fun i => is_Some (read_log st i !! index)) srvs.

Lemma read_logged st hend i index v :
  0 <= n -> counted_in st hend -> 0 <= i < n -> read_log st i !! index = Some v ->
  h_ok n hend /\ (i, index, Some v) ∈ sys_logs (h_sys hend).
Proof.
  intros Hn Hc Hi Hv. destruct (Hc i Hi) as [Hr Hs]. pose proof (reach_ok n _ Hn Hr) as H.
  destruct (h_steps_sys _ _ H Hs) as [He Hsys]. split; [done|].
  eapply sys_logs_grow; [exact Hsys|]. by eapply (ho_log n).
Qed.

Lemma read_agree st hend i j index v w :
  0 <= n -> counted_in st hend -> 0 <= i < n -> 0 <= j < n ->
  read_log st i !! index = Some v -> read_log st j !! index = Some w -> v = w.
Proof.
  intros Hn Hc Hi Hj Hv Hw. destruct (read_logged st hend i index v) as [He Hl]; try done.
  destruct (read_logged st hend j index w) as [_ Hl']; try done.
  pose proof (no_compaction_no_overshoot n _ (ho_reach _ _ He)) as Hr.
  pose proof (safe_logs_agree n _ _ _ _ _ _ Hr Hl Hl'). congruence.
Qed.

Lemma countCommitted_spec st hend index srvs count cmd :
  0 <= n -> counted_in st hend -> (forall i, i ∈ srvs -> 0 <= i < n) -> 0 <= count ->
  (0 < count -> exists i, 0 <= i < n /\ read_log st i !! index = Some cmd) ->
  exists cmd', countCommitted (fun i => h_cfg (st i)) index srvs count cmd =
    Pass (count + len (holders st index srvs), cmd') /\
    (0 < count + len (holders st index srvs) -> exists i, 0 <= i < n /\ read_log st i !! index = Some cmd').
Proof.
  intros Hn Hc. revert count cmd. induction srvs as [|i srvs IH]; intros count cmd Hsrv H0 Hcmd.
  { exists cmd. unfold holders, len. simpl. rewrite Z.add_0_r. done. }
  assert (Hi : 0 <= i < n) by (apply Hsrv; by left). destruct (Hc i Hi) as [Hr _].
  pose proof (reach_ok n _ Hn Hr) as Hok. cbn [countCommitted].
  assert (slice_get (applyErr (h_cfg (st i))) i = Ret None) as ->.
  { apply slice_get_Ret. split; [lia|]. rewrite (ho_err _ _ Hok). apply lookup_replicate_2. lia. }
  cbn [lift mbind verdict_bind].
  destruct (slice_get_in (logs (h_cfg (st i))) i) as [L HL]; [by rewrite (ho_logs _ _ Hok)|].
  rewrite HL. cbn [lift mbind verdict_bind]. apply slice_get_Ret in HL as [_ HL].
  assert (EL : read_log st i = L) by (unfold read_log, log_of; by rewrite HL).
  unfold holders. rewrite filter_cons. rewrite EL. fold (holders st index srvs).
  destruct (L !! index) as [v|] eqn:Hv.
  - rewrite decide_True by eauto. rewrite <- EL in Hv.
    assert (((0 <? count) && negb (cmd =? v)) = false) as ->.
    { destruct (Z.ltb_spec 0 count) as [Hpos|]; [|done]. destruct (Hcmd Hpos) as (j & Hj & Hw).
      rewrite (read_agree st hend j i index cmd v) by done. by rewrite Z.eqb_refl. }
    destruct (IH (count + 1) v) as (cmd' & E & Hex); [intros; apply Hsrv; by right|lia|by exists i|].
    exists cmd'. unfold len in *. simpl. rewrite E.
    replace (count + Z.of_nat (S (length (holders st index srvs))))
      with (count + 1 + Z.of_nat (length (holders st index srvs))) by lia. done.
  - rewrite decide_False by (by intros [? ?]). apply IH; try done. intros; apply Hsrv; by right.
Qed.

(** Counting commits.  nCommitted never fails on a run of the harness: it
    returns the number of servers whose log held the index when it was read, and,
    when there is one, the value that every one of them held. *)
Theorem nCommitted_counts st hend index :
  0 <= n -> counted_in st hend ->
  exists cmd, nCommitted n (fun i => h_cfg (st i)) index =
    Pass (len (holders st index (seqZ 0 n)), cmd) /\
    forall i v, 0 <= i < n -> read_log st i !! index = Some v -> v = cmd.
Proof.
  intros Hn Hc. destruct (countCommitted_spec st hend index (seqZ 0 n) 0 (-1)) as (cmd & E & Hex); try done.
  - intros i ?%elem_of_seqZ. lia.
  - exists cmd. split; [exact E|]. intros i v Hi Hv. destruct Hex as (j & Hj & Hw).
    + rewrite Z.add_0_l. assert (i ∈ holders st index (seqZ 0 n)) as Hin.
      { apply list_elem_of_filter. split; [by eexists|]. apply elem_of_seqZ. lia. }
      destruct (holders st index (seqZ 0 n)); [by apply not_elem_of_nil in Hin|]. unfold len. simpl. lia.
    + by eapply (read_agree st hend i j).
Qed.

(** The polls of a round of [one], each a count over a run. *)
Definition round_ok (rst : Z -> harness) (polls : list (Z -> harness)) (r : round) : Prop :=
  r_try r = (fun i => h_cfg (rst i)) /\ r_polls r = (fun st i => h_cfg (st i)) <$> polls /\
  forall st, st ∈ polls -> exists hend, counted_in st hend.

Lemma pollAgreement_spec cmd expected index (polls : list (Z -> harness)) :
  0 <= n -> (forall st, st ∈ polls -> exists hend, counted_in st hend) ->
  exists b, pollAgreement n cmd expected index ((fun st i => h_cfg (st i)) <$> polls) = Pass b /\
    (b = true -> exists st, st ∈ polls /\ 0 < len (holders st index (seqZ 0 n)) /\
       expected <= len (holders st index (seqZ 0 n)) /\
       forall i v, 0 <= i < n -> read_log st i !! index = Some v -> v = cmd).
Proof.
  intros Hn. induction polls as [|st polls IH]; intros Hp; cbn [fmap list_fmap pollAgreement].
  { by exists false. }
  destruct (Hp st) as [hend Hc]; [by left|].
  destruct (countCommitted_spec st hend index (seqZ 0 n) 0 (-1)) as (cmd1 & E & Hex); try done;
    [intros i ?%elem_of_seqZ; lia|].
  rewrite Z.add_0_l in E, Hex. unfold nCommitted. rewrite E. cbn [mbind verdict_bind].
  destruct ((0 <? len (holders st index (seqZ 0 n))) && (expected <=? len (holders st index (seqZ 0 n)))
    && (cmd1 =? cmd)) eqn:Hb; zbool.
  - exists true. split; [done|]. intros _. exists st. split; [by left|]. split; [done|]. split; [done|].
    intros i v Hi Hv. subst cmd1. destruct (Hex ltac:(done)) as (j & Hj & Hw).
    by eapply (read_agree st hend i j).
  - destruct IH as (b & Eb & Hb'); [intros; apply Hp; by right|]. exists b. split; [done|].
    intros Ht. destruct (Hb' Ht) as (st' & Hin & ?). exists st'. split; [by right|done].
Qed.

(** A server that holds the index has applied what it holds there. *)
Lemma holders_applied st hend index cmd j :
  0 <= n -> counted_in st hend -> j ∈ holders st index (seqZ 0 n) ->
  (forall i v, 0 <= i < n -> read_log st i !! index = Some v -> v = cmd) ->
  read_log st j !! index = Some cmd /\ (j, index, Some cmd) ∈ sys_logs (h_sys (st j)).
Proof.
  intros Hn Hc ([v Hv] & Hj%elem_of_seqZ)%list_elem_of_filter Hall. assert (Hr : 0 <= j < n) by lia.
  pose proof (Hall j v Hr Hv) as ->. split; [done|]. destruct (Hc j Hr) as [Hreach _].
  by apply (ho_log n _ (reach_ok n _ Hn Hreach)).
Qed.

(** A command is given an index by a connected leader, at the end of its log. *)
Lemma tryServers_spec fuel cmd starts try index starts' :
  0 < n -> tryServers fuel n cmd starts try = Pass (index, starts') -> index <> -1 ->
  exists i rf, connected (try i) !! Z.to_nat i = Some true /\
    rafts (try i) !! Z.to_nat i = Some (Some rf) /\ state rf = LEADER /\
    index = SnapshotIndex rf + len (Logs rf).
Proof.
  intros Hn. revert starts. induction fuel as [|fuel IH]; intros starts H Hne; cbn [tryServers] in H.
  { by injection H as <-. }
  set (i := Z.rem (starts + 1) n) in *. cbn zeta in H.
  apply bind_Pass_inv in H as (c & Hc & H). apply lift_Pass in Hc. apply slice_get_Ret in Hc as [_ Hc].
  apply bind_Pass_inv in H as (rfo & Hrf & H). destruct rfo as [rf|]; [|by eapply IH].
  destruct c; [|done]. apply lift_Pass in Hrf. apply slice_get_Ret in Hrf as [_ Hrf].
  apply bind_Pass_inv in H as ([[rf' [[index1 T] ok]] effs] & Hs & H). apply lift_Pass in Hs.
  unfold Start in Hs. case_decide as Hl; [|injection Hs as <- <- <- <- <-; by eapply IH].
  apply bind_Ret_inv in Hs as (next & _ & Hs). apply bind_Ret_inv in Hs as (mtch & _ & Hs).
  injection Hs as _ <- _ <- _. injection H as <- _. exists i, rf. split_and!; try done.
  unfold logIdxLocal2Global. simpl. rewrite len_app. unfold len at 2. simpl. lia.
Qed.

(** Only loops and slice accesses: no failure of [tryServers] is a t.Fatalf. *)
Lemma tryServers_no_Fatal fuel cmd starts try e : tryServers fuel n cmd starts try <> Fatal e.
Proof.
  revert starts. induction fuel as [|f IH]; intros starts Ht; [done|].
  cbn [tryServers] in Ht. apply bind_Fatal_inv in Ht as [Ht|(c & _ & Ht)]; [by apply lift_not_Fatal in Ht|].
  apply bind_Fatal_inv in Ht as [Ht|(rfo & _ & Ht)].
  - destruct c; [by apply lift_not_Fatal in Ht|done].
  - destruct rfo as [rf|]; [|by eapply IH].
    apply bind_Fatal_inv in Ht as [Ht|([[? [[? ?] []]] ?] & _ & Ht)];
      [by apply lift_not_Fatal in Ht|done|by eapply IH].
Qed.

(** A poll of the round, one that it read in states [st] of a run, found at least
    [expected] servers that hold the index, and each of them had applied the command
    at the index. *)
Definition poll_agrees (rd : round) (cmd expected index : Z) : Prop :=
  exists st hend, (fun j => h_cfg (st j)) ∈ r_polls rd /\ counted_in st hend /\
    expected <= len (holders st index (seqZ 0 n)) /\ 0 < len (holders st index (seqZ 0 n)) /\
    forall j, j ∈ holders st index (seqZ 0 n) ->
      read_log st j !! index = Some cmd /\ (j, index, Some cmd) ∈ sys_logs (h_sys (st j)).

(** In one round the index was given to the command by a connected leader and a
    poll agreed on it. *)
Definition agreed_on (rounds : list round) (cmd expected index : Z) : Prop :=
  exists rd i rf, rd ∈ rounds /\ connected (r_try rd i) !! Z.to_nat i = Some true /\
    rafts (r_try rd i) !! Z.to_nat i = Some (Some rf) /\ state rf = LEADER /\
    index = SnapshotIndex rf + len (Logs rf) /\ poll_agrees rd cmd expected index.

Lemma agreed_on_cons rd rounds cmd expected index :
  agreed_on rounds cmd expected index -> agreed_on (rd :: rounds) cmd expected index.
Proof. intros (rd' & i & rf & Hin & H). exists rd', i, rf. split; [by right|done]. Qed.

Lemma oneLoop_spec cmd expected retry (rounds : list round) starts :
  0 < n -> (forall rd, rd ∈ rounds -> exists rst polls, round_ok rst polls rd) ->
  let r := oneLoop rounds n cmd expected starts retry in
  (forall e, r = Fatal e -> e = NoAgreement cmd) /\
  forall index, r = Pass index -> agreed_on rounds cmd expected index.
Proof.
  intros Hn. revert starts. induction rounds as [|rd rounds IH]; intros starts Hrounds; cbn [oneLoop].
  { by split; [intros e [= <-]|]. }
  assert (Hskip : forall starts', let r := oneLoop rounds n cmd expected starts' retry in
    (forall e, r = Fatal e -> e = NoAgreement cmd) /\
    forall index, r = Pass index -> agreed_on (rd :: rounds) cmd expected index).
  { intros starts'. destruct (IH starts') as [H1 H2]; [intros; apply Hrounds; by right|].
    split; [done|]. intros index Hr. by apply agreed_on_cons, H2. }
  destruct (Hrounds rd) as (rst & polls & Etry & Epolls & Hpolls); [by left|].
  destruct (tryServers _ _ _ _ _) as [[index starts']|e|] eqn:Ht; cbn [mbind verdict_bind];
    [|by apply tryServers_no_Fatal in Ht|done].
  destruct (Z.eqb_spec index (-1)) as [_|Hne]; cbn [negb]; [apply Hskip|].
  rewrite Epolls. destruct (pollAgreement_spec cmd expected index polls) as (b & -> & Hb); [lia|done|].
  cbn [mbind verdict_bind]. destruct b.
  - split; [done|]. intros index' [= <-].
    destruct (tryServers_spec _ _ _ _ _ _ Hn Ht Hne) as (i & rf & Hcon & Hrf & Hl & Ei).
    destruct (Hb eq_refl) as (st & Hst & Hpos & Hexp & Hv). destruct (Hpolls st Hst) as [hend Hc].
    exists rd, i, rf. split_and!; [by left|done..|]. exists st, hend. split_and!; try done.
    + rewrite Epolls. apply list_elem_of_fmap. by exists st.
    + intros j Hj. apply (holders_applied st hend); [lia|done..].
  - destruct retry; cbn [negb]; [apply Hskip|]. split; [by intros e [= <-]|done].
Qed.

(** C22: agreement.  When the polls read states of runs of the tester, an index returned
    by one(cmd, expectedServers) was given to the command by a connected leader in
    one of the rounds, and one of the polls of this round read a state in which at
    least expectedServers servers held the index in their logs, each with this
    command, which its peer had applied at the index.  No round fails with a
    mismatch: one fails only by giving up. *)
Theorem one_agrees cmd expected retry (rounds : list round) :
  0 < n -> (forall rd, rd ∈ rounds -> exists rst polls, round_ok rst polls rd) ->
  (forall e, one n cmd expected retry rounds = Fatal e -> e = NoAgreement cmd) /\
  forall index, one n cmd expected retry rounds = Pass index -> agreed_on rounds cmd expected index.
Proof. intros Hn Hr. exact (oneLoop_spec cmd expected retry rounds 0 Hn Hr). Qed.
End Checks.

(** ** Witnesses *)

(** A run of the harness, or the initial state when it gets stuck. *)
Fixpoint h_run (n : Z) (es : list hevent) (h : harness) : option harness :=
  match es with
  | [] => Some h
  | e :: es' => match h_exec n h e with Some (Pass h') => h_run n es' h' | _ => None end
  end.

Lemma h_run_steps n es h h' : h_run n es h = Some h' -> rtc (h_step n) h h'.
Proof.
  revert h. induction es as [|e es IH]; intros h H; cbn [h_run] in H; [by injection H as ->|].
  destruct (h_exec n h e) as [[h1|err|]|] eqn:E; try done. apply (rtc_l _ _ h1); [by exists e|by apply IH].
Qed.

Definition h_ran (n : Z) (es : list hevent) : harness := default (h_init n) (h_run n es (h_init n)).

Lemma h_ran_reach n es : h_reach n (h_ran n es).
Proof.
  unfold h_ran. destruct (h_run n es (h_init n)) as [h|] eqn:E; simpl; [by eapply h_run_steps|apply rtc_refl].
Qed.

(** Three peers are started and connected; peer 1 is elected and commits 10 with
    peer 0; peer 0 is restarted after its reader has fallen behind. *)
Definition tester_events : list hevent :=
  [HStart 0 (fun j => j); HStart 1 (fun j => 10 + j); HStart 2 (fun j => 20 + j);
   HConnect 0; HConnect 1; HConnect 2] ++ (HRaft <$> demo_events) ++ [HRead 1; HStart 0 (fun j => 30 + j)].

Definition tested : harness := h_ran 3 tester_events.

Lemma tester_accepts_witness :
  h_exec 3 tested (HReadOld 3) <> None /\ (forall err, h_exec 3 tested (HReadOld 3) <> Some (Fatal err)).
Proof.
  split; [vm_compute; discriminate|].
  apply (tester_accepts 3 tested (HReadOld 3)); [lia|apply h_ran_reach].
Defined.

(** All reads of a scan in one state. *)
Lemma scanned_tested : scanned 3 (fun _ _ => tested).
Proof. split; intros; [apply h_ran_reach|apply rtc_refl]. Qed.

Lemma counted_tested : counted_in 3 (fun _ => tested) tested.
Proof. intros i Hi. split; [apply h_ran_reach|apply rtc_refl]. Qed.

Lemma checkOneLeader_sound_witness :
  checkOneLeader 3 (fun _ _ => h_cfg tested) = Pass 1 /\
  exists k T, 0 <= k < 10 /\ 0 <= 1 < 3 /\ seen_leader (fun _ => tested) 1 T.
Proof.
  assert (H : checkOneLeader 3 (fun _ _ => h_cfg tested) = Pass 1) by (vm_compute; reflexivity).
  split; [exact H|].
  destruct (checkOneLeader_sound 3 (fun _ _ => tested) _ ltac:(lia) scanned_tested H) as [_ Hp].
  destruct (Hp 1 eq_refl) as (k & T & Hk & Hl & S & _). exists k, T. exact (conj Hk (conj Hl S)).
Defined.

Lemma nCommitted_counts_witness :
  exists cmd, nCommitted 3 (fun _ => h_cfg tested) 1 =
    Pass (len (holders (fun _ => tested) 1 (seqZ 0 3)), cmd) /\ 10 = cmd.
Proof.
  destruct (nCommitted_counts 3 (fun _ => tested) tested 1 ltac:(lia) counted_tested) as (cmd & E & H).
  exists cmd. split; [exact E|]. apply (H 1 10); [lia|vm_compute; reflexivity].
Defined.

(** The command is started in [before], and polled for in [after]. *)
Definition before : harness := h_ran 3 (take 9 tester_events).
Definition after : harness :=
  h_ran 3 (take 20 tester_events ++ [HRead 0; HRead 1]).

Definition one_round : round := mkRound (fun _ => h_cfg before) [fun _ => h_cfg after].

Lemma one_agrees_witness :
  one 3 10 2 true [one_round] = Pass 1 /\ agreed_on 3 [one_round] 10 2 1.
Proof.
  assert (H : one 3 10 2 true [one_round] = Pass 1) by (vm_compute; reflexivity).
  split; [exact H|]. apply (one_agrees 3 10 2 true [one_round]); [lia| |exact H].
  intros rd Hrd. apply list_elem_of_singleton in Hrd as ->.
  exists (fun _ => before), [fun _ => after]. split; [reflexivity|]. split; [reflexivity|].
  intros st Hst. apply list_elem_of_singleton in Hst as ->. exists after.
  intros i Hi. split; [apply h_ran_reach|apply rtc_refl].
Defined.
