(* ===== verification/Bitset.v ===== *)
(** * The bit set of the linearizability checker: linearizability/bitset.go

    A bit set is a slice of 64-bit words, here a list of integers below 2^64
    with the word operations written out.  The slice is shared by reference in
    Go; [set] and [clear] are the in-place updates, [clone] the copy. *)

From stdpp Require Import base list list_numbers.
From S2P Require Import Prelude.
Open Scope Z_scope.

Abbreviation bitset := (list Z).

Definition u64 (x : Z) : Z := x mod 2 ^ 64.

Definition newBitset (bits : Z) : bitset :=
  let extra := if bits mod 64 =? 0 then 0 else 1 in
  replicate (Z.to_nat (bits / 64 + extra)) 0.

Definition clone (b : bitset) : bitset := b.

Definition bitsetIndex (pos : Z) : Z * Z := (pos / 64, pos mod 64).

Definition set (b : bitset) (pos : Z) : outcome bitset :=
  let '(major, minor) := bitsetIndex pos in
  v ← slice_get b major;
  slice_set b major (Z.lor v (u64 (Z.shiftl 1 minor))).

Definition clear (b : bitset) (pos : Z) : outcome bitset :=
  let '(major, minor) := bitsetIndex pos in
  v ← slice_get b major;
  slice_set b major (Z.ldiff v (u64 (Z.shiftl 1 minor))).

Definition get (b : bitset) (pos : Z) : outcome bool :=
  let '(major, minor) := bitsetIndex pos in
  v ← slice_get b major;
  Ret (negb (Z.land v (u64 (Z.shiftl 1 minor)) =? 0)).

(** One word of [popcnt]. *)
Definition popcnt64 (v0 : Z) : Z :=
  let v1 := u64 (Z.land v0 0x5555555555555555 + Z.shiftr (Z.land v0 0xAAAAAAAAAAAAAAAA) 1) in
  let v2 := u64 (Z.land v1 0x3333333333333333 + Z.shiftr (Z.land v1 0xCCCCCCCCCCCCCCCC) 2) in
  let v3 := u64 (Z.land v2 0x0F0F0F0F0F0F0F0F + Z.shiftr (Z.land v2 0xF0F0F0F0F0F0F0F0) 4) in
  let v4 := u64 (v3 * 0x0101010101010101) in
  Z.land (Z.shiftr v4 56) 0xFF.

Definition popcnt (b : bitset) : Z := foldl (fun total v => u64 (total + popcnt64 v)) 0 b.

Definition hash (b : bitset) : Z := foldl (fun h v => Z.lxor h v) (popcnt b) b.

Fixpoint equalsFrom (b b2 : bitset) : bool :=
  match b, b2 with
  | x :: b', y :: b2' => if negb (x =? y) then false else equalsFrom b' b2'
  | _, _ => true
  end.
Definition equals (b b2 : bitset) : bool :=
  if negb (len b =? len b2) then false else equalsFrom b b2.

(** ** Specification: sets of positions *)

(** The abstract view: is position [pos] in the set? *)
Definition bit (b : bitset) (pos : Z) : bool :=
  match b !! Z.to_nat (pos / 64) with Some v => Z.testbit v (pos mod 64) | None => false end.

Definition word (v : Z) : Prop := 0 <= v < 2 ^ 64.
Definition capacity (b : bitset) : Z := 64 * len b.

Lemma pow64_minor pos : u64 (Z.shiftl 1 (pos mod 64)) = 2 ^ (pos mod 64).
Proof.
  pose proof (Z.mod_pos_bound pos 64). unfold u64. rewrite Z.shiftl_1_l. apply Z.mod_small.
  split; [apply Z.pow_nonneg; lia|]. apply Z.pow_lt_mono_r; lia.
Qed.

Lemma major_range b pos : 0 <= pos < capacity b -> 0 <= pos / 64 < len b.
Proof.
  unfold capacity. intros. split; [apply Z.div_pos; lia|]. apply Z.div_lt_upper_bound; lia.
Qed.

Lemma bit_word b pos : 0 <= pos < capacity b ->
  exists v, slice_get b (pos / 64) = Ret v /\ b !! Z.to_nat (pos / 64) = Some v /\
    bit b pos = Z.testbit v (pos mod 64).
Proof.
  intros H. apply major_range in H. destruct (slice_get_in b (pos / 64) H) as [v Hv].
  exists v. split; [done|]. apply slice_get_Ret in Hv as [_ Hv]. split; [done|].
  unfold bit. by rewrite Hv.
Qed.

(** The bits of a set in which one word was replaced. *)
Lemma bit_insert b pos q v v' f :
  0 <= pos < capacity b -> 0 <= q -> b !! Z.to_nat (pos / 64) = Some v ->
  (forall i, 0 <= i < 64 -> Z.testbit v' i = if i =? pos mod 64 then f else Z.testbit v i) ->
  bit (<[Z.to_nat (pos / 64) := v']> b) q = if q =? pos then f else bit b q.
Proof.
  intros Hp Hq Hv Hb. pose proof (major_range b pos Hp).
  pose proof (Z.div_mod q 64). pose proof (Z.div_mod pos 64).
  pose proof (Z.mod_pos_bound q 64). pose proof (Z.mod_pos_bound pos 64).
  assert (0 <= q / 64) by (apply Z.div_pos; lia).
  unfold bit. destruct (decide (q / 64 = pos / 64)) as [E|E].
  - rewrite E, list_lookup_insert_eq by (by eapply lookup_lt_Some). rewrite Hv, Hb by lia.
    destruct (Z.eqb_spec (q mod 64) (pos mod 64)), (Z.eqb_spec q pos); try done; lia.
  - rewrite list_lookup_insert_ne by lia. destruct (Z.eqb_spec q pos); [congruence|done].
Qed.

(** A word is a number without bits from 64 on. *)
Lemma word_bits v : word v <-> 0 <= v /\ forall i, 64 <= i -> Z.testbit v i = false.
Proof.
  split.
  - intros [H0 H1]. split; [done|]. intros i Hi. rewrite <- (Z.mod_small v (2 ^ 64)) by lia.
    apply Z.mod_pow2_bits_high. lia.
  - intros [H0 H1]. assert (v = v mod 2 ^ 64) as ->; [|apply Z.mod_pos_bound; lia].
    apply Z.bits_inj'. intros i Hi. destruct (decide (i < 64)).
    + by rewrite Z.mod_pow2_bits_low by lia.
    + rewrite Z.mod_pow2_bits_high by lia. apply H1. lia.
Qed.

Lemma set_word v i : word v -> 0 <= i < 64 -> word (Z.lor v (2 ^ i)).
Proof.
  rewrite !word_bits. intros [H0 H1] Hi. split; [apply Z.lor_nonneg; split; [done|apply Z.pow_nonneg; lia]|].
  intros j Hj. rewrite Z.lor_spec, H1, Z.pow2_bits_eqb by lia. apply Z.eqb_neq. lia.
Qed.

Lemma clear_word v m : word v -> word (Z.ldiff v m).
Proof.
  rewrite !word_bits. intros [H0 H1]. split; [apply Z.ldiff_nonneg; by left|].
  intros j Hj. by rewrite Z.ldiff_spec, H1.
Qed.

Lemma set_spec b pos :
  0 <= pos < capacity b -> Forall word b ->
  exists b', set b pos = Ret b' /\ Forall word b' /\ len b' = len b /\
    forall q, 0 <= q -> bit b' q = if q =? pos then true else bit b q.
Proof.
  intros Hp Hw. destruct (bit_word b pos Hp) as (v & Hv & Hl & _).
  pose proof (major_range b pos Hp). pose proof (Z.mod_pos_bound pos 64).
  unfold set. simpl. rewrite Hv. simpl. rewrite pow64_minor. unfold slice_set. rewrite decide_True by lia.
  eexists. split; [reflexivity|]. split; [|split].
  - apply Forall_insert; [done|]. apply set_word; [|lia]. by eapply Forall_lookup_1.
  - unfold len. by rewrite length_insert.
  - intros q Hq. apply (bit_insert b pos q v); try done.
    intros i Hi. rewrite Z.lor_spec, Z.pow2_bits_eqb by lia. rewrite Z.eqb_sym.
    destruct (i =? pos mod 64); [apply orb_true_r|apply orb_false_r].
Qed.

Lemma clear_spec b pos :
  0 <= pos < capacity b -> Forall word b ->
  exists b', clear b pos = Ret b' /\ Forall word b' /\ len b' = len b /\
    forall q, 0 <= q -> bit b' q = if q =? pos then false else bit b q.
Proof.
  intros Hp Hw. destruct (bit_word b pos Hp) as (v & Hv & Hl & _).
  pose proof (major_range b pos Hp). pose proof (Z.mod_pos_bound pos 64).
  assert (word v) by (by eapply Forall_lookup_1).
  unfold clear. simpl. rewrite Hv. simpl. rewrite pow64_minor. unfold slice_set. rewrite decide_True by lia.
  eexists. split; [reflexivity|]. split; [|split].
  - apply Forall_insert; [done|]. by apply clear_word.
  - unfold len. by rewrite length_insert.
  - intros q Hq. apply (bit_insert b pos q v); try done.
    intros i Hi. rewrite Z.ldiff_spec, Z.pow2_bits_eqb by lia. rewrite Z.eqb_sym.
    destruct (i =? pos mod 64); [apply andb_false_r|apply andb_true_r].
Qed.

Lemma get_spec b pos : 0 <= pos < capacity b -> get b pos = Ret (bit b pos).
Proof.
  intros Hp. destruct (bit_word b pos Hp) as (v & Hv & Hl & ->).
  pose proof (Z.mod_pos_bound pos 64).
  unfold get. simpl. rewrite Hv. simpl. rewrite pow64_minor. f_equal.
  destruct (Z.testbit v (pos mod 64)) eqn:E.
  - apply negb_true_iff, Z.eqb_neq. intros H0. apply (f_equal (fun x => Z.testbit x (pos mod 64))) in H0.
    rewrite Z.land_spec, E, Z.pow2_bits_true, Z.bits_0 in H0 by lia. done.
  - apply negb_false_iff, Z.eqb_eq. apply Z.bits_inj'. intros i Hi.
    rewrite Z.land_spec, Z.pow2_bits_eqb, Z.bits_0 by lia.
    destruct (Z.eqb_spec (pos mod 64) i) as [<-|]; [by rewrite E|apply andb_false_r].
Qed.

Lemma newBitset_spec n : 0 <= n ->
  n <= capacity (newBitset n) /\ Forall word (newBitset n) /\ forall q, bit (newBitset n) q = false.
Proof.
  intros Hn. unfold newBitset. split; [|split].
  - unfold capacity, len. rewrite length_replicate.
    pose proof (Z.div_mod n 64). pose proof (Z.mod_pos_bound n 64).
    assert (0 <= n / 64) by (apply Z.div_pos; lia). destruct (Z.eqb_spec (n mod 64) 0); lia.
  - apply Forall_replicate. split; lia.
  - intros q. unfold bit. destruct (replicate _ _ !! _) as [v|] eqn:E; [|done].
    apply lookup_replicate_1 in E as [-> _]. apply Z.bits_0.
Qed.

Lemma equals_spec b b2 : equals b b2 = true <-> b = b2.
Proof.
  unfold equals. split.
  - intros H. destruct (Z.eqb_spec (len b) (len b2)) as [E|]; [|done]. simpl in H.
    revert b2 E H. induction b as [|x b IH]; intros [|y b2]; simpl; intros E H; try done;
      unfold len in *; simpl in E; try lia.
    destruct (Z.eqb_spec x y) as [->|]; [|done]. simpl in H. f_equal. apply IH; [lia|done].
  - intros ->. rewrite Z.eqb_refl. simpl. induction b2 as [|x b2 IH]; [done|].
    simpl. by rewrite Z.eqb_refl.
Qed.

(** ** popcnt counts *)

(** The number of set bits among the lowest [n], one by one. *)
Fixpoint ones (n : nat) (v : Z) : Z :=
  match n with
  | O => 0
  | S n' => Z.b2z (Z.odd v) + ones n' (Z.div2 v)
  end.

(** Numbers written in base 256, least significant byte first. *)
Fixpoint val (bs : list Z) : Z :=
  match bs with [] => 0 | b :: bs' => b + 256 * val bs' end.

Definition byte (b : Z) : Prop := 0 <= b < 256.

Lemma val_nonneg bs : Forall byte bs -> 0 <= val bs.
Proof. induction 1 as [|b bs [? ?] _ IH]; simpl; lia. Qed.

Lemma land_val b r m M : byte b -> byte m -> 0 <= r -> 0 <= M ->
  Z.land (b + 256 * r) (m + 256 * M) = Z.land b m + 256 * Z.land r M /\ byte (Z.land b m).
Proof.
  intros Hb Hm Hr HM.
  assert (Hlow : forall x y, byte x -> x + 256 * y = Z.lor x (Z.shiftl y 8)).
  { intros x y Hx. rewrite Z.shiftl_mul_pow2 by lia. change (2 ^ 8) with 256.
    pose proof (Z.add_lor_land x (y * 256)) as E.
    assert (Z.land x (y * 256) = 0) as E0; [|rewrite E0 in E; lia].
    apply Z.bits_inj'. intros i Hi. rewrite Z.land_spec, Z.bits_0. change 256 with (2 ^ 8).
    destruct (decide (i < 8)).
    - rewrite (Z.mul_pow2_bits_low y 8 i) by lia. apply andb_false_r.
    - rewrite <- (Z.mod_small x (2 ^ 8)) by (destruct Hx; lia).
      by rewrite Z.mod_pow2_bits_high by lia. }
  assert (Hlb : byte (Z.land b m)).
  { split; [apply Z.land_nonneg; left; apply Hb|].
    assert (Z.land b m = Z.land b m mod 2 ^ 8) as ->; [|apply Z.mod_pos_bound; lia].
    apply Z.bits_inj'. intros i Hi. destruct (decide (i < 8)).
    - by rewrite Z.mod_pow2_bits_low by lia.
    - rewrite Z.mod_pow2_bits_high, Z.land_spec by lia.
      rewrite <- (Z.mod_small b (2 ^ 8)) by (destruct Hb; lia).
      by rewrite Z.mod_pow2_bits_high by lia. }
  split; [|done]. rewrite (Hlow _ _ Hb), (Hlow _ _ Hm), (Hlow _ _ Hlb).
  apply Z.bits_inj'. intros i Hi.
  rewrite !Z.land_spec, !Z.lor_spec, !Z.land_spec, !Z.shiftl_spec by lia.
  destruct (decide (i < 8)).
  - rewrite !(Z.testbit_neg_r _ (i - 8)) by lia. by rewrite !orb_false_r.
  - assert (Hhi : forall x, byte x -> Z.testbit x i = false).
    { intros x Hx. rewrite <- (Z.mod_small x (2 ^ 8)) by (destruct Hx; lia).
      by rewrite Z.mod_pow2_bits_high by lia. }
    rewrite (Hhi b Hb), (Hhi m Hm). simpl. by rewrite Z.land_spec.
Qed.

(** One step of the parallel count on a byte. *)
Definition step8 (m mh s b : Z) : Z := Z.land b m + Z.shiftr (Z.land b mh) s.

Lemma div_split a r d : 0 <= a -> 0 <= r -> 0 < d -> (d | r) -> (a + 256 * r) / d = a / d + 256 * (r / d).
Proof.
  intros Ha Hr Hd [q ->]. rewrite Z.div_mul by lia.
  replace (a + 256 * (q * d)) with (a + (256 * q) * d) by lia. rewrite Z.div_add by lia. lia.
Qed.

(** A step works on every byte separately when the masked half is a multiple of
    its distance. *)
Lemma step_val (m mh s : Z) bs :
  byte m -> byte mh -> 0 <= s -> (forall b, byte b -> (2 ^ s | Z.land b mh)) ->
  Forall byte bs ->
  Z.land (val bs) (val (replicate (length bs) m)) +
    Z.shiftr (Z.land (val bs) (val (replicate (length bs) mh))) s = val (step8 m mh s <$> bs) /\
  (2 ^ s | Z.land (val bs) (val (replicate (length bs) mh))).
Proof.
  intros Hm Hmh Hs Hdiv. induction 1 as [|b bs Hb Hbs [IH1 IH2]]; simpl.
  { split; [by rewrite Z.shiftr_0_l|apply Z.divide_0_r]. }
  pose proof (val_nonneg bs Hbs).
  assert (Hrep : forall x, byte x -> 0 <= val (replicate (length bs) x))
    by (intros x Hx; apply val_nonneg, Forall_replicate, Hx).
  destruct (land_val b (val bs) m (val (replicate (length bs) m))) as [-> _]; auto.
  destruct (land_val b (val bs) mh (val (replicate (length bs) mh))) as [-> [Hl0 _]]; auto.
  assert (0 < 2 ^ s) by (apply Z.pow_pos_nonneg; lia).
  split.
  - rewrite Z.shiftr_div_pow2 in * by lia. rewrite div_split; try done.
    + change (list_fmap _ _ (step8 m mh s) bs) with (step8 m mh s <$> bs). rewrite <- IH1.
      unfold step8. rewrite Z.shiftr_div_pow2 by lia. lia.
    + apply Z.land_nonneg. left. lia.
  - apply Z.divide_add_r; [by apply Hdiv|]. by apply Z.divide_mul_r.
Qed.

(** A property of all bytes, by enumeration. *)
Lemma all_bytes (P : Z -> bool) : forallb P (seqZ 0 256) = true -> forall b, byte b -> P b = true.
Proof.
  intros H b [H0 H1]. eapply forallb_forall in H; [exact H|]. apply list_elem_of_In, elem_of_seqZ. lia.
Qed.

Definition count8 (b : Z) : Z := step8 0x0F 0xF0 4 (step8 0x33 0xCC 2 (step8 0x55 0xAA 1 b)).

Lemma byte_steps b : byte b ->
  byte (step8 0x55 0xAA 1 b) /\ byte (step8 0x33 0xCC 2 b) /\ byte (step8 0x0F 0xF0 4 b) /\
  Z.land b 0xAA mod 2 ^ 1 = 0 /\ Z.land b 0xCC mod 2 ^ 2 = 0 /\ Z.land b 0xF0 mod 2 ^ 4 = 0 /\
  count8 b = ones 8 b /\ 0 <= count8 b <= 8.
Proof.
  intros Hb.
  pose proof (all_bytes (fun b =>
    let in_byte x := (0 <=? x) && (x <? 256) in
    in_byte (step8 0x55 0xAA 1 b) && in_byte (step8 0x33 0xCC 2 b) && in_byte (step8 0x0F 0xF0 4 b) &&
    (Z.land b 0xAA mod 2 ^ 1 =? 0) && (Z.land b 0xCC mod 2 ^ 2 =? 0) && (Z.land b 0xF0 mod 2 ^ 4 =? 0) &&
    (count8 b =? ones 8 b) && (0 <=? count8 b) && (count8 b <=? 8))) as H.
  specialize (H ltac:(vm_compute; reflexivity) b Hb). cbv beta zeta in H. zbool.
  by split_and!.
Qed.

Fixpoint bytes_of (n : nat) (v : Z) : list Z :=
  match n with O => [] | S n' => v mod 256 :: bytes_of n' (v / 256) end.

Lemma bytes_of_spec n v : 0 <= v < 256 ^ Z.of_nat n ->
  val (bytes_of n v) = v /\ Forall byte (bytes_of n v) /\ length (bytes_of n v) = n.
Proof.
  revert v. induction n as [|n IH]; intros v Hv; simpl.
  { simpl in Hv. split_and!; [lia|constructor|done]. }
  rewrite Nat2Z.inj_succ, Z.pow_succ_r in Hv by lia.
  pose proof (Z.div_mod v 256). pose proof (Z.mod_pos_bound v 256).
  assert (0 <= v / 256 < 256 ^ Z.of_nat n) as Hq.
  { split; [apply Z.div_pos; lia|]. apply Z.div_lt_upper_bound; lia. }
  destruct (IH _ Hq) as (E & Hf & Hl). split_and!; [lia| |by rewrite Hl].
  constructor; [split; lia|done].
Qed.

Lemma val_bound bs : Forall byte bs -> val bs < 256 ^ Z.of_nat (length bs).
Proof.
  induction 1 as [|b bs [? ?] _ IH]; simpl length; [simpl; lia|].
  rewrite Nat2Z.inj_succ, Z.pow_succ_r by lia. simpl. lia.
Qed.

Lemma u64_val bs : Forall byte bs -> length bs = 8%nat -> u64 (val bs) = val bs.
Proof.
  intros Hb Hl. apply Z.mod_small. pose proof (val_bound bs Hb) as H. rewrite Hl in H.
  split; [by apply val_nonneg|]. exact H.
Qed.

(** A step on eight bytes. *)
Lemma step_word m mh s bs :
  byte m -> byte mh -> 0 <= s -> length bs = 8%nat -> Forall byte bs ->
  (forall b, byte b -> byte (step8 m mh s b) /\ Z.land b mh mod 2 ^ s = 0) ->
  u64 (Z.land (val bs) (val (replicate 8 m)) + Z.shiftr (Z.land (val bs) (val (replicate 8 mh))) s)
    = val (step8 m mh s <$> bs) /\ Forall byte (step8 m mh s <$> bs).
Proof.
  intros Hm Hmh Hs Hl Hb Hst.
  assert (Hf : Forall byte (step8 m mh s <$> bs)).
  { apply Forall_fmap. eapply Forall_impl; [exact Hb|]. intros b Hbb. by apply Hst. }
  split; [|done]. destruct (step_val m mh s bs Hm Hmh Hs) as [E _]; [|done|].
  - intros b Hbb. apply Z.mod_divide; [apply Z.pow_nonzero; lia|]. by apply Hst.
  - rewrite Hl in E. rewrite E. apply u64_val; [done|]. by rewrite length_fmap.
Qed.

(** The multiplication adds the eight bytes up. *)
Lemma sum_bytes cs : length cs = 8%nat -> Forall (fun c => 0 <= c <= 8) cs ->
  Z.land (Z.shiftr (u64 (val cs * 0x0101010101010101)) 56) 0xFF = foldr Z.add 0 cs.
Proof.
  intros Hl Hc. do 9 (destruct cs as [|? cs]; try discriminate Hl).
  repeat match goal with H : Forall _ (_ :: _) |- _ => apply Forall_cons in H as [? H] end.
  simpl val. simpl foldr. change 0xFF with (Z.ones 8). rewrite Z.land_ones, Z.shiftr_div_pow2 by lia.
  set (x := _ * 0x0101010101010101). set (S := z + _).
  assert (Hx : u64 x = S * 2 ^ 56 + (z + (z + z0) * 2 ^ 8 + (z + z0 + z1) * 2 ^ 16
    + (z + z0 + z1 + z2) * 2 ^ 24 + (z + z0 + z1 + z2 + z3) * 2 ^ 32
    + (z + z0 + z1 + z2 + z3 + z4) * 2 ^ 40 + (z + z0 + z1 + z2 + z3 + z4 + z5) * 2 ^ 48)).
  { symmetry. apply Z.mod_unique with (z0 + z1 + z2 + z3 + z4 + z5 + z6
      + (z1 + z2 + z3 + z4 + z5 + z6) * 2 ^ 8 + (z2 + z3 + z4 + z5 + z6) * 2 ^ 16
      + (z3 + z4 + z5 + z6) * 2 ^ 24 + (z4 + z5 + z6) * 2 ^ 32 + (z5 + z6) * 2 ^ 40 + z6 * 2 ^ 48);
      subst x S; lia. }
  rewrite Hx, Z.div_add_l by lia. rewrite Z.div_small by (subst S; lia).
  rewrite Z.mod_small; subst S; lia.
Qed.

Lemma ones_split j k b r : 0 <= b < 2 ^ Z.of_nat j -> 0 <= r ->
  ones (j + k) (b + 2 ^ Z.of_nat j * r) = ones j b + ones k r.
Proof.
  revert b. induction j as [|j IH]; intros b Hb Hr.
  { change (2 ^ Z.of_nat 0) with 1 in *. replace (b + 1 * r) with r by lia. done. }
  rewrite Nat2Z.inj_succ, Z.pow_succ_r in * by lia. simpl.
  replace (b + 2 * 2 ^ Z.of_nat j * r) with (b + 2 * (2 ^ Z.of_nat j * r)) by lia.
  rewrite Z.odd_add_mul_2. rewrite !Z.div2_div.
  replace ((b + 2 * (2 ^ Z.of_nat j * r)) / 2) with (b / 2 + 2 ^ Z.of_nat j * r).
  2:{ rewrite (Z.mul_comm 2), Z.div_add by lia. done. }
  rewrite <- Z.div2_div, IH; [lia| |done]. rewrite Z.div2_div.
  split; [apply Z.div_pos; lia|]. apply Z.div_lt_upper_bound; lia.
Qed.

Lemma ones_val bs : Forall byte bs ->
  ones (8 * length bs) (val bs) = foldr Z.add 0 (ones 8 <$> bs).
Proof.
  induction 1 as [|b bs Hb Hbs IH]; [done|]. simpl val. simpl length.
  replace (8 * S (length bs))%nat with (8 + 8 * length bs)%nat by lia.
  change 256 with (2 ^ Z.of_nat 8). rewrite ones_split; [|exact Hb|by apply val_nonneg].
  rewrite IH. done.
Qed.

Lemma popcnt64_spec v : word v -> popcnt64 v = ones 64 v.
Proof.
  intros Hv. destruct (bytes_of_spec 8 v) as (E & Hb & Hl); [exact Hv|].
  rewrite <- E. set (bs := bytes_of 8 v) in *. unfold popcnt64.
  change 0x5555555555555555 with (val (replicate 8 0x55)).
  change 0xAAAAAAAAAAAAAAAA with (val (replicate 8 0xAA)).
  change 0x3333333333333333 with (val (replicate 8 0x33)).
  change 0xCCCCCCCCCCCCCCCC with (val (replicate 8 0xCC)).
  change 0x0F0F0F0F0F0F0F0F with (val (replicate 8 0x0F)).
  change 0xF0F0F0F0F0F0F0F0 with (val (replicate 8 0xF0)).
  destruct (step_word 0x55 0xAA 1 bs) as [-> H1]; try done;
    [intros b Hbb; by destruct (byte_steps b Hbb) as (? & ? & ? & ? & _)|].
  destruct (step_word 0x33 0xCC 2 (step8 0x55 0xAA 1 <$> bs)) as [-> H2];
    try done; [intros b Hbb; by destruct (byte_steps b Hbb) as (? & ? & ? & ? & ? & _)|].
  destruct (step_word 0x0F 0xF0 4 (step8 0x33 0xCC 2 <$> (step8 0x55 0xAA 1 <$> bs))) as [-> H3];
    try done; [intros b Hbb; by destruct (byte_steps b Hbb) as (? & ? & ? & ? & ? & ? & _)|].
  assert (Heq : step8 0x0F 0xF0 4 <$> (step8 0x33 0xCC 2 <$> (step8 0x55 0xAA 1 <$> bs)) = ones 8 <$> bs).
  { rewrite <- !list_fmap_compose. apply list_fmap_ext. intros i b Hi.
    destruct (byte_steps b (Forall_lookup_1 byte bs i b Hb Hi)) as (_ & _ & _ & _ & _ & _ & E8 & _).
    exact E8. }
  rewrite Heq, sum_bytes; [|done|].
  - rewrite <- ones_val by done. by rewrite Hl.
  - apply Forall_fmap. eapply Forall_impl; [exact Hb|]. intros b Hbb.
    destruct (byte_steps b Hbb) as (_ & _ & _ & _ & _ & _ & E8 & Hr). rewrite E8 in Hr. exact Hr.
Qed.

(** The number of the positions [i], ..., [i+n-1] that satisfy [f]. *)
Fixpoint count_from (f : Z -> bool) (i : Z) (n : nat) : Z :=
  match n with
  | O => 0
  | S n' => Z.b2z (f i) + count_from f (i + 1) n'
  end.

Lemma count_from_ext f g i j n :
  (forall k, 0 <= k < Z.of_nat n -> f (i + k) = g (j + k)) -> count_from f i n = count_from g j n.
Proof.
  revert i j. induction n as [|n IH]; intros i j H; [done|]. simpl. f_equal.
  - f_equal. pose proof (H 0 ltac:(lia)) as H0. by rewrite !Z.add_0_r in H0.
  - apply IH. intros k Hk. pose proof (H (k + 1) ltac:(lia)) as H1.
    by replace (i + 1 + k) with (i + (k + 1)) by lia; replace (j + 1 + k) with (j + (k + 1)) by lia.
Qed.

Lemma count_from_app f i n m :
  count_from f i (n + m) = count_from f i n + count_from f (i + Z.of_nat n) m.
Proof.
  revert i. induction n as [|n IH]; intros i; simpl; [by rewrite Z.add_0_r|].
  rewrite IH. replace (i + 1 + Z.of_nat n) with (i + Z.of_nat (S n)) by lia. lia.
Qed.

Lemma count_from_range f i n : 0 <= count_from f i n <= Z.of_nat n.
Proof. revert i. induction n as [|n IH]; intros i; simpl; [lia|]. specialize (IH (i + 1)). destruct (f i); simpl; lia. Qed.

Lemma ones_count v i n : 0 <= i -> ones n (Z.shiftr v i) = count_from (Z.testbit v) i n.
Proof.
  revert i. induction n as [|n IH]; intros i Hi; [done|]. simpl. f_equal.
  - f_equal. by rewrite <- Z.bit0_odd, Z.shiftr_spec by lia.
  - rewrite <- IH by lia. by rewrite Z.div2_spec, Z.shiftr_shiftr by lia.
Qed.

Lemma bit_head w b q : 0 <= q < 64 -> bit (w :: b) q = Z.testbit w q.
Proof. intros. unfold bit. rewrite Z.div_small, Z.mod_small by lia. done. Qed.

Lemma bit_tail w b q : 0 <= q -> bit (w :: b) (64 + q) = bit b q.
Proof.
  intros. unfold bit. replace (64 + q) with (q + 1 * 64) by lia.
  rewrite Z.div_add, Z.mod_add by lia. assert (0 <= q / 64) by (apply Z.div_pos; lia).
  replace (Z.to_nat (q / 64 + 1)) with (S (Z.to_nat (q / 64))) by lia. done.
Qed.

Lemma count_words w b m :
  count_from (bit (w :: b)) 0 (64 + m) = ones 64 w + count_from (bit b) 0 m.
Proof.
  rewrite count_from_app. f_equal.
  - pose proof (ones_count w 0 64 ltac:(lia)) as H. rewrite Z.shiftr_0_r in H. rewrite H.
    apply count_from_ext. intros k Hk. rewrite Z.add_0_l. apply bit_head. lia.
  - apply count_from_ext. intros k Hk. rewrite !Z.add_0_l. apply bit_tail. lia.
Qed.

Lemma popcnt_fold b t : Forall word b -> 0 <= t -> t + 64 * len b < 2 ^ 64 ->
  foldl (fun total v => u64 (total + popcnt64 v)) t b =
  t + count_from (bit b) 0 (64 * length b).
Proof.
  intros Hw. revert t. induction Hw as [|w b Hw Hb IH]; intros t Ht Hl; simpl foldl; [simpl; lia|].
  replace (64 * length (w :: b))%nat with (64 + 64 * length b)%nat by (simpl length; lia).
  rewrite count_words, (popcnt64_spec w Hw).
  assert (Hr : 0 <= ones 64 w <= 64).
  { pose proof (ones_count w 0 64 ltac:(lia)) as H. rewrite Z.shiftr_0_r in H. rewrite H.
    pose proof (count_from_range (Z.testbit w) 0 64). lia. }
  unfold len in *. simpl length in Hl. rewrite Nat2Z.inj_succ in Hl.
  rewrite IH; unfold u64; rewrite Z.mod_small by lia; lia.
Qed.

(** C33: the bit set is a set of positions.  A new set of [n] bits is empty and
    has room for [n]; set and clear never leave the slice for a position of the
    set and change that position only; get reads it; equals decides equality of
    the representation. *)
Theorem bitset_refines_set b pos :
  0 <= pos < capacity b -> Forall word b ->
  (exists b', set b pos = Ret b' /\ Forall word b' /\ len b' = len b /\
     forall q, 0 <= q -> bit b' q = if q =? pos then true else bit b q) /\
  (exists b', clear b pos = Ret b' /\ Forall word b' /\ len b' = len b /\
     forall q, 0 <= q -> bit b' q = if q =? pos then false else bit b q) /\
  get b pos = Ret (bit b pos) /\
  (forall b2, equals b b2 = true <-> b = b2).
Proof.
  intros Hp Hw. split_and!; [by apply set_spec|by apply clear_spec|by apply get_spec|].
  intros b2. apply equals_spec.
Qed.

(** Popcnt counts.  The parallel bit count of bitset.go, with its masks, its
    multiplication and 64-bit wrap-around, is the number of positions in the
    set. *)
Theorem popcnt_counts b :
  Forall word b -> 64 * len b < 2 ^ 64 -> popcnt b = count_from (bit b) 0 (64 * length b).
Proof. intros Hw Hl. unfold popcnt. rewrite popcnt_fold by (done || lia). lia. Qed.

Lemma bitset_refines_set_witness :
  exists b', set (newBitset 70) 69 = Ret b' /\ get b' 69 = Ret true.
Proof.
  destruct (bitset_refines_set (newBitset 70) 69) as ((b' & E & _ & _ & _) & _).
  - vm_compute. split; congruence.
  - repeat (constructor; [vm_compute; split; congruence|]). constructor.
  - exists b'. split; [exact E|]. vm_compute in E. injection E as <-. vm_compute. reflexivity.
Defined.

Lemma popcnt_counts_witness : popcnt [2 ^ 64 - 1; 5] = 66.
Proof.
  rewrite (popcnt_counts [2 ^ 64 - 1; 5]); [vm_compute; reflexivity| |vm_compute; reflexivity].
  repeat (constructor; [vm_compute; split; congruence|]). constructor.
Defined.
