(* ===== verification/LinCheck.v ===== *)
(** * The linearizability checker: linearizability/{linearizability,model,models}.go

    Histories, the doubly linked list of call and return entries, and the search
    of [checkSingle], which lifts linearized operations out of the list and puts
    them back when it backtracks.  The list lives in a heap of nodes whose
    [next] and [prev] fields are maps from addresses to addresses, nil being a
    missing key; a nil dereference panics.

    [sort.Sort] is an argument: the standard library promises a permutation in
    which no entry comes before one of smaller time, and not that the order of
    entries of equal time is kept. *)

From stdpp Require Import base list list_numbers gmap strings sorting.
From S2P Require Import Prelude Bitset.
Open Scope Z_scope.

(** ** Histories and models (model.go) *)
Record Operation (V : Type) : Type := mkOperation {
  Input : V; CallTime : Z; Output : V; ReturnTime : Z
}.
Arguments mkOperation {V} _ _ _ _.
Arguments Input {V} _.
Arguments CallTime {V} _.
Arguments Output {V} _.
Arguments ReturnTime {V} _.

(** [EventKind] and [entryKind]. *)
Inductive EventKind : Type := CallEvent | ReturnEvent.

#[export] Instance EventKind_eq_dec : EqDecision EventKind.
Proof. solve_decision. Defined.

Record Event (V : Type) : Type := mkEvent { ev_Kind : EventKind; ev_Value : V; ev_Id : Z }.
Arguments mkEvent {V} _ _ _.
Arguments ev_Kind {V} _.
Arguments ev_Value {V} _.
Arguments ev_Id {V} _.

(** Optional functions of a model are [option]s; a function that asserts the
    dynamic type of a value may panic. *)
Record Model (V St : Type) : Type := mkModel {
  Partition : option (list (Operation V) -> outcome (list (list (Operation V))));
  PartitionEvent : option (list (Event V) -> outcome (list (list (Event V))));
  Init : St;
  Step : St -> V -> V -> outcome (bool * St);
  Equal : option (St -> St -> bool)
}.
Arguments mkModel {V St} _ _ _ _ _.
Arguments Partition {V St} _.
Arguments PartitionEvent {V St} _.
Arguments Init {V St} _.
Arguments Step {V St} _ _ _ _.
Arguments Equal {V St} _.

Definition NoPartition {V} (history : list (Operation V)) : outcome (list (list (Operation V))) :=
  Ret [history].
Definition NoPartitionEvent {V} (history : list (Event V)) : outcome (list (list (Event V))) :=
  Ret [history].
Definition ShallowEqual `{EqDecision St} (state1 state2 : St) : bool := bool_decide (state1 = state2).

Definition fillDefault {V} `{EqDecision St} (model : Model V St) : Model V St :=
  mkModel (Some (default NoPartition (Partition model)))
    (Some (default NoPartitionEvent (PartitionEvent model)))
    (Init model) (Step model) (Some (default ShallowEqual (Equal model))).

(** ** Entries *)
Record entry (V : Type) : Type := mkEntry {
  e_kind : EventKind; e_value : V; e_id : Z; e_time : Z
}.
Arguments mkEntry {V} _ _ _ _.
Arguments e_kind {V} _.
Arguments e_value {V} _.
Arguments e_id {V} _.
Arguments e_time {V} _.

(** The order of [byTime]. *)
Definition Less {V} (a b : entry V) : bool := e_time a <? e_time b.

(** The loop of [makeEntries]. *)
Fixpoint rawEntries {V} (id : Z) (history : list (Operation V)) : list (entry V) :=
  match history with
  | [] => []
  | elem :: history' =>
      mkEntry CallEvent (Input elem) id (CallTime elem)
        :: mkEntry ReturnEvent (Output elem) id (ReturnTime elem)
        :: rawEntries (id + 1) history'
  end.

Definition makeEntries {V} (sort : list (entry V) -> list (entry V)) (history : list (Operation V))
    : list (entry V) := sort (rawEntries 0 history).

Fixpoint renumberLoop {V} (events : list (Event V)) (m : gmap Z Z) (id : Z) : list (Event V) :=
  match events with
  | [] => []
  | v :: events' =>
      match m !! ev_Id v with
      | Some r => mkEvent (ev_Kind v) (ev_Value v) r :: renumberLoop events' m id
      | None => mkEvent (ev_Kind v) (ev_Value v) id
                  :: renumberLoop events' (<[ev_Id v := id]> m) (id + 1)
      end
  end.
Definition renumber {V} (events : list (Event V)) : list (Event V) := renumberLoop events ∅ 0.

Definition convertEntries {V} (events : list (Event V)) : list (entry V) :=
  (fun elem => mkEntry (ev_Kind elem) (ev_Value elem) (ev_Id elem) (-1)) <$> events.

(** ** The linked list *)

(** The fields of a node that never change; [n_match] is nil for a return. *)
Record node (V : Type) : Type := mkNode { n_value : option V; n_match : option nat; n_id : Z }.
Arguments mkNode {V} _ _ _.
Arguments n_value {V} _.
Arguments n_match {V} _.
Arguments n_id {V} _.

Record links : Type := mkLinks { nexts : gmap nat nat; prevs : gmap nat nat }.

Definition set_next (x : nat) (y : option nat) (h : links) : links :=
  mkLinks (partial_alter (fun _ => y) x (nexts h)) (prevs h).
Definition set_prev (x : nat) (y : option nat) (h : links) : links :=
  mkLinks (nexts h) (partial_alter (fun _ => y) x (prevs h)).

(** [p.f] of a pointer that may be nil. *)
Definition deref {A} (p : option A) : outcome A :=
  match p with Some a => Ret a | None => Panic end.

Definition insertBefore (n : nat) (mark : option nat) (h : links) : links :=
  match mark with
  | None => h
  | Some mk =>
      let beforeMark := prevs h !! mk in
      let h1 := set_next n (Some mk) (set_prev mk (Some n) h) in
      match beforeMark with
      | None => h1
      | Some bm => set_next bm (Some n) (set_prev n (Some bm) h1)
      end
  end.

(** The fuel is the number of nodes. *)
Fixpoint lengthLoop (fuel : nat) (h : links) (n : option nat) : Z :=
  match fuel, n with
  | S fuel', Some x => 1 + lengthLoop fuel' h (nexts h !! x)
  | _, _ => 0
  end.

(** [makeLinkedEntries], whose loop runs from the last entry to the first: a
    node's address is the number of the nodes made before it. *)
Fixpoint makeLinkedEntries {V} (entries : list (entry V))
    : list (node V) * links * option nat * gmap Z nat :=
  match entries with
  | [] => ([], mkLinks ∅ ∅, None, ∅)
  | elem :: entries' =>
      let '(nodes, h, root, matches) := makeLinkedEntries entries' in
      let a := length nodes in
      if decide (e_kind elem = ReturnEvent) then
        (nodes ++ [mkNode (Some (e_value elem)) None (e_id elem)], insertBefore a root h, Some a,
         <[e_id elem := a]> matches)
      else
        (nodes ++ [mkNode (Some (e_value elem)) (matches !! e_id elem) (e_id elem)],
         insertBefore a root h, Some a, matches)
  end.

(** [entry.prev.next = entry.next; entry.next.prev = entry.prev], with nil
    checked for where the code does. *)
Definition lift (match_ : option nat) (e : nat) (h : links) : outcome links :=
  p ← deref (prevs h !! e);
  let h1 := set_next p (nexts h !! e) h in
  q ← deref (nexts h1 !! e);
  let h2 := set_prev q (prevs h1 !! e) h1 in
  m ← deref match_;
  pm ← deref (prevs h2 !! m);
  let h3 := set_next pm (nexts h2 !! m) h2 in
  match nexts h3 !! m with
  | Some qm => Ret (set_prev qm (prevs h3 !! m) h3)
  | None => Ret h3
  end.

Definition unlift (match_ : option nat) (e : nat) (h : links) : outcome links :=
  m ← deref match_;
  pm ← deref (prevs h !! m);
  let h1 := set_next pm (Some m) h in
  let h2 := match nexts h1 !! m with Some qm => set_prev qm (Some m) h1 | None => h1 end in
  p ← deref (prevs h2 !! e);
  let h3 := set_next p (Some e) h2 in
  q ← deref (nexts h3 !! e);
  Ret (set_prev q (Some e) h3).

(** ** The search *)
Section Check.
Context {V St : Type}.

Definition cacheContains (equal : St -> St -> bool) (cache : gmap Z (list (bitset * St)))
    (linearized : bitset) (state : St) : bool :=
  existsb (fun elem => equals linearized elem.1 && equal state elem.2)
    (default [] (cache !! hash linearized)).

Record search : Type := mkSearch {
  s_links : links;
  s_entry : option nat;
  s_linearized : bitset;
  s_cache : gmap Z (list (bitset * St));
  s_calls : list (nat * St);
  s_state : St
}.

(** The body of the loop of [checkSingle]: the next state of the search, or the
    result of a return statement. *)
Definition checkBody (model : Model V St) (equal : St -> St -> bool) (nodes : list (node V))
    (head : nat) (c : search) : outcome (search + bool) :=
  e ← deref (s_entry c);
  n ← deref (nodes !! e);
  match n_match n with
  | Some m =>
      mn ← deref (nodes !! m);
      v ← deref (n_value n);
      o ← deref (n_value mn);
      '(ok, newState) ← Step model (s_state c) v o;
      let skip := mkSearch (s_links c) (nexts (s_links c) !! e) (s_linearized c) (s_cache c)
                    (s_calls c) (s_state c) in
      if ok : bool then
        newLinearized ← set (clone (s_linearized c)) (n_id n);
        if cacheContains equal (s_cache c) newLinearized newState then Ret (inl skip)
        else
          let h := hash newLinearized in
          let cache := <[h := default [] (s_cache c !! h) ++ [(newLinearized, newState)]]> (s_cache c) in
          linearized ← set (s_linearized c) (n_id n);
          l ← lift (n_match n) e (s_links c);
          Ret (inl (mkSearch l (nexts l !! head) linearized cache ((e, s_state c) :: s_calls c) newState))
      else Ret (inl skip)
  | None =>
      match s_calls c with
      | [] => Ret (inr false)
      | (e', st) :: calls =>
          n' ← deref (nodes !! e');
          linearized ← clear (s_linearized c) (n_id n');
          l ← unlift (n_match n') e' (s_links c);
          Ret (inl (mkSearch l (nexts l !! e') linearized (s_cache c) calls st))
      end
  end.

(** The loop; [kill] is what each iteration reads from the flag, and the fuel
    bounds the number of iterations: [None] when it runs out. *)
Fixpoint checkLoop (fuel : nat) (kill : nat -> Z) (model : Model V St) (equal : St -> St -> bool)
    (nodes : list (node V)) (head : nat) (c : search) : outcome (option bool) :=
  match fuel with
  | O => Ret None
  | S fuel' =>
      match nexts (s_links c) !! head with
      | None => Ret (Some true)
      | Some _ =>
          if negb (kill fuel =? 0) then Ret (Some false)
          else
            r ← checkBody model equal nodes head c;
            match r with
            | inl c' => checkLoop fuel' kill model equal nodes head c'
            | inr b => Ret (Some b)
            end
      end
  end.

Definition checkSingle (fuel : nat) (kill : nat -> Z) (model : Model V St) (equal : St -> St -> bool)
    (subhistory : list (node V) * links * option nat) : outcome (option bool) :=
  let '(nodes, h, root) := subhistory in
  let n := Z.quot (lengthLoop (length nodes) h root) 2 in
  let head := length nodes in
  let h1 := insertBefore head root h in
  checkLoop fuel kill model equal (nodes ++ [mkNode None None (2 ^ 64 - 1)]) head
    (mkSearch h1 root (newBitset n) ∅ [] (Init model)).
End Check.
Arguments search : clear implicits.

(** ** The key/value model (models.go) *)
Record KvInput : Type := mkKvInput { ki_Op : Z; ki_Key : string; ki_Value : string }.
Record KvOutput : Type := mkKvOutput { ko_Value : string }.

(** An [interface{}] that holds a KvInput or a KvOutput. *)
Inductive KvValue : Type := KvIn (i : KvInput) | KvOut (o : KvOutput).

Definition KvStep (state : string) (input output : KvValue) : outcome (bool * string) :=
  match input, output with
  | KvIn inp, KvOut out =>
      if ki_Op inp =? 0 then Ret (bool_decide (ko_Value out = state), state)
      else if ki_Op inp =? 1 then Ret (true, ki_Value inp)
      else Ret (true, state +:+ ki_Value inp)
  | _, _ => Panic
  end.

(** The loop of the partition function. *)
Fixpoint KvPartitionLoop (history : list (Operation KvValue))
    (m : gmap string (list (Operation KvValue))) : outcome (gmap string (list (Operation KvValue))) :=
  match history with
  | [] => Ret m
  | v :: history' =>
      match Input v with
      | KvIn i => KvPartitionLoop history' (<[ki_Key i := default [] (m !! ki_Key i) ++ [v]]> m)
      | KvOut _ => Panic
      end
  end.

(** One history per key; Go ranges over the map in any order. *)
Definition KvPartition (history : list (Operation KvValue))
    : outcome (list (list (Operation KvValue))) :=
  m ← KvPartitionLoop history ∅;
  Ret ((map_to_list m).*2).

Definition KvModel : Model KvValue string :=
  mkModel (Some KvPartition) None "" KvStep (Some ShallowEqual).

(** ** Collecting the results of the partitions *)

(** What the [select] of CheckOperationsTimeout receives: the result of a
    partition, or the timeout. *)
Inductive arrival : Type := Result (b : bool) | TimedOut.

(** The loop of CheckOperationsTimeout and CheckEventsTimeout; it blocks when
    nothing arrives any more. *)
Fixpoint collect (partitions : Z) (count : Z) (ok : bool) (arrivals : list arrival) : outcome bool :=
  match arrivals with
  | [] => Block
  | TimedOut :: _ => Ret ok
  | Result r :: arrivals' =>
      let ok' := ok && r in
      if negb ok' then Ret ok'
      else if partitions <=? count + 1 then Ret ok'
      else collect partitions (count + 1) ok' arrivals'
  end.

Section CheckAll.
Context {V St : Type} `{EqDecision St} (sort : list (entry V) -> list (entry V)).
Context (fuel : nat) (kill : nat -> Z).

(** The goroutine of one partition. *)
Definition checkPartition (model : Model V St) (entries : list (entry V)) : outcome (option bool) :=
  checkSingle fuel kill model (default ShallowEqual (Equal model)) (makeLinkedEntries entries).1.

(** The results in the order [schedule] in which the partitions finish, [None]
    being the timeout; a partition without a result does not send one. *)
Definition arrivals_of (results : list (outcome (option bool))) (schedule : list (option nat))
    : list arrival :=
  omap (fun k => match k with
    | None => Some TimedOut
    | Some k => match results !! k with Some (Ret (Some b)) => Some (Result b) | _ => None end
    end) schedule.

Definition CheckOperationsTimeout (model0 : Model V St) (history : list (Operation V))
    (schedule : list (option nat)) : outcome bool :=
  let model := fillDefault model0 in
  partitions ← (default NoPartition (Partition model)) history;
  let results := (fun sub => checkPartition model (makeEntries sort sub)) <$> partitions in
  collect (len partitions) 0 true (arrivals_of results schedule).

(** No timeout: the schedule has none. *)
Definition CheckOperations (model : Model V St) (history : list (Operation V)) (order : list nat)
    : outcome bool := CheckOperationsTimeout model history (Some <$> order).

Definition CheckEventsTimeout (model0 : Model V St) (history : list (Event V))
    (schedule : list (option nat)) : outcome bool :=
  let model := fillDefault model0 in
  partitions ← (default NoPartitionEvent (PartitionEvent model)) history;
  let results := (fun sub => checkPartition model (convertEntries (renumber sub))) <$> partitions in
  collect (len partitions) 0 true (arrivals_of results schedule).

Definition CheckEvents (model : Model V St) (history : list (Event V)) (order : list nat)
    : outcome bool := CheckEventsTimeout model history (Some <$> order).
End CheckAll.
