(* ===== verification/LinList.v ===== *)
(** * The linked list of the linearizability checker

    [linked h x l]: following [next] from the node [x] visits the nodes of [l],
    with [prev] leading back.  Unlinking a node and linking it again restores
    the heap exactly, hence so do [lift] and [unlift]; [makeLinkedEntries]
    builds the list of the entries, with calls matched to their returns. *)

From stdpp Require Import base list list_numbers gmap.
From S2P Require Import Prelude Bitset LinCheck.
Open Scope Z_scope.

(** ** Linked lists *)
Fixpoint linked (h : links) (x : nat) (l : list nat) : Prop :=
  match l with
  | [] => nexts h !! x = None
  | y :: l' => nexts h !! x = Some y /\ prevs h !! y = Some x /\ linked h y l'
  end.

(** A stretch of a list: what comes after its last node is left open. *)
Fixpoint path (h : links) (x : nat) (l : list nat) : Prop :=
  match l with
  | [] => True
  | y :: l' => nexts h !! x = Some y /\ prevs h !! y = Some x /\ path h y l'
  end.

(** The last node of the path. *)
Definition final (x : nat) (l : list nat) : nat := default x (last l).

Lemma final_cons x y l : final x (y :: l) = final y l.
Proof. unfold final. rewrite last_cons. by destruct (last l). Qed.

Lemma final_elem x l : final x l ∈ x :: l.
Proof.
  revert x. induction l as [|y l IH]; intros x; [left|]. rewrite final_cons. right. apply IH.
Qed.

Lemma linked_app h x l1 l2 : linked h x (l1 ++ l2) <-> path h x l1 /\ linked h (final x l1) l2.
Proof.
  revert x. induction l1 as [|y l1 IH]; intros x; simpl; [naive_solver|].
  rewrite final_cons, IH. naive_solver.
Qed.

Lemma linked_head h x l : linked h x l -> nexts h !! x = head l.
Proof. destruct l; simpl; naive_solver. Qed.

(** Frames: only the nodes on the way matter. *)
Lemma path_frame h h' x l :
  NoDup (x :: l) ->
  (forall y, y ∈ x :: l -> y <> final x l -> nexts h' !! y = nexts h !! y) ->
  (forall y, y ∈ l -> prevs h' !! y = prevs h !! y) ->
  path h x l -> path h' x l.
Proof.
  revert x. induction l as [|y l IH]; intros x Hnd Hn Hp Hl; simpl in *; [done|].
  destruct Hl as (H1 & H2 & H3). apply NoDup_cons in Hnd as [Hx Hnd]. rewrite final_cons in Hn.
  split_and!.
  - rewrite Hn; [done|left|]. intros ->. by apply Hx, final_elem.
  - rewrite Hp; [done|left].
  - apply IH; auto; intros z Hz; [intros; apply Hn|apply Hp]; auto; by right.
Qed.

Lemma linked_frame h h' x l :
  (forall y, y ∈ x :: l -> nexts h' !! y = nexts h !! y) ->
  (forall y, y ∈ l -> prevs h' !! y = prevs h !! y) ->
  linked h x l -> linked h' x l.
Proof.
  revert x. induction l as [|y l IH]; intros x Hn Hp Hl; simpl in *.
  - by rewrite Hn by left.
  - destruct Hl as (H1 & H2 & H3). rewrite Hn, Hp by left. split_and!; [done..|].
    apply IH; [intros z Hz; apply Hn; by right|intros z Hz; apply Hp; by right|done].
Qed.

(** ** Unlinking a node *)
Definition unlink (x : nat) (h : links) : outcome links :=
  p ← deref (prevs h !! x);
  let h1 := set_next p (nexts h !! x) h in
  match nexts h1 !! x with
  | Some q => Ret (set_prev q (prevs h1 !! x) h1)
  | None => Ret h1
  end.

Definition relink (x : nat) (h : links) : outcome links :=
  p ← deref (prevs h !! x);
  let h1 := set_next p (Some x) h in
  match nexts h1 !! x with
  | Some q => Ret (set_prev q (Some x) h1)
  | None => Ret h1
  end.

Lemma next_set x y v h : nexts (set_next x v h) !! y = if decide (x = y) then v else nexts h !! y.
Proof.
  simpl. case_decide as E; [rewrite E; apply lookup_partial_alter_eq|by apply lookup_partial_alter_ne].
Qed.

Lemma prev_set x y v h : prevs (set_prev x v h) !! y = if decide (x = y) then v else prevs h !! y.
Proof.
  simpl. case_decide as E; [rewrite E; apply lookup_partial_alter_eq|by apply lookup_partial_alter_ne].
Qed.

Lemma links_ext h h' :
  (forall y, nexts h !! y = nexts h' !! y) -> (forall y, prevs h !! y = prevs h' !! y) -> h = h'.
Proof. destruct h, h'; simpl; intros. f_equal; by apply map_eq. Qed.

(** What unlinking the node between [p] and the rest does. *)
Definition unlinked (x p : nat) (h : links) : links :=
  match nexts h !! x with
  | Some q => set_prev q (Some p) (set_next p (nexts h !! x) h)
  | None => set_next p (nexts h !! x) h
  end.

Lemma unlinked_next x p h y :
  nexts (unlinked x p h) !! y = if decide (p = y) then nexts h !! x else nexts h !! y.
Proof. unfold unlinked. destruct (nexts h !! x) eqn:E; [|rewrite <- E]; apply next_set. Qed.

Lemma unlinked_prev x p h y :
  prevs (unlinked x p h) !! y = if decide (nexts h !! x = Some y) then Some p else prevs h !! y.
Proof.
  unfold unlinked. destruct (nexts h !! x) as [q|] eqn:E; [|done].
  rewrite prev_set. repeat case_decide; naive_solver.
Qed.

Lemma unlink_eq x p h : x <> p -> prevs h !! x = Some p -> unlink x h = Ret (unlinked x p h).
Proof.
  intros Hxp Hp. unfold unlink, unlinked. rewrite Hp. simpl deref. cbn [mbind outcome_bind].
  rewrite next_set, decide_False by done. destruct (nexts h !! x); [|done].
  by replace (prevs (set_next p (Some n) h) !! x) with (Some p) by done.
Qed.

Lemma relink_unlinked x p h :
  x <> p -> prevs h !! x = Some p -> nexts h !! p = Some x -> nexts h !! x <> Some x ->
  (forall q, nexts h !! x = Some q -> prevs h !! q = Some x) ->
  relink x (unlinked x p h) = Ret h.
Proof.
  intros Hxp Hp Hn Hxx Hq. unfold relink. rewrite unlinked_prev, decide_False, Hp by done.
  cbn [deref mbind outcome_bind]. rewrite next_set, decide_False, unlinked_next, decide_False by done.
  destruct (nexts h !! x) as [q|] eqn:E; f_equal; apply links_ext; intros y.
  - cbn [nexts set_prev]. rewrite next_set, unlinked_next. by repeat case_decide; subst.
  - rewrite prev_set. cbn [prevs set_next]. rewrite unlinked_prev, E. specialize (Hq q eq_refl).
    repeat case_decide; naive_solver.
  - rewrite next_set, unlinked_next. by repeat case_decide; subst.
  - cbn [prevs set_next]. rewrite unlinked_prev, E. done.
Qed.

(** A node of the list can be taken out and put back. *)
Lemma unlink_linked h y l1 x l2 :
  linked h y (l1 ++ x :: l2) -> NoDup (y :: l1 ++ x :: l2) ->
  exists h', unlink x h = Ret h' /\ linked h' y (l1 ++ l2) /\ relink x h' = Ret h /\
    nexts h' !! x = nexts h !! x /\ prevs h' !! x = prevs h !! x.
Proof.
  intros Hl Hnd. apply linked_app in Hl as [Hpath (Hn & Hp & Hl2)].
  change (y :: l1 ++ x :: l2) with ((y :: l1) ++ x :: l2) in Hnd.
  apply NoDup_app in Hnd as (Hnd1 & Hdis & Hnd2). apply NoDup_cons in Hnd2 as [Hx Hnd2].
  pose proof (final_elem y l1) as Hf. set (p := final y l1) in *.
  assert (Hxp : x <> p) by (intros ->; apply (Hdis _ Hf); left).
  assert (Hq : forall q, nexts h !! x = Some q -> prevs h !! q = Some x /\ q ∈ l2).
  { intros q E. pose proof (linked_head _ _ _ Hl2) as E'. destruct l2 as [|z l2]; [naive_solver|].
    destruct Hl2 as (? & ? & ?). simplify_eq. split; [done|left]. }
  exists (unlinked x p h). split_and!.
  - by apply unlink_eq.
  - apply linked_app. split.
    + eapply path_frame; [done| | |exact Hpath]; intros z Hz; [intros Hzf|].
      * rewrite unlinked_next, decide_False by done. done.
      * rewrite unlinked_prev, decide_False; [done|]. intros [_ Hz2]%Hq.
        eapply Hdis; [right; exact Hz|]. by right.
    + fold p. destruct l2 as [|z l2].
      * simpl. by rewrite unlinked_next, decide_True.
      * destruct Hl2 as (Hxz & Hzx & Hl2). simpl.
        assert (p ∉ z :: l2) by (intros ?; apply (Hdis _ Hf); by right).
        rewrite unlinked_next, decide_True, unlinked_prev, decide_True by done. split_and!; [done..|].
        apply NoDup_cons in Hnd2 as [Hz2 Hnd2].
        eapply linked_frame; [| |exact Hl2]; intros w Hw.
        -- rewrite unlinked_next, decide_False; [done|]. by intros ->.
        -- rewrite unlinked_prev, decide_False; [done|]. rewrite Hxz. by intros [= ->].
  - apply relink_unlinked; try done; [|naive_solver].
    intros E. destruct (Hq x E) as [_ ?]. done.
  - by rewrite unlinked_next, decide_False.
  - rewrite unlinked_prev, decide_False; [done|]. intros E. destruct (Hq x E) as [_ ?]. done.
Qed.

(** [lift] takes a call and its return out of the list; [unlift] undoes it. *)
Lemma lift_unlift h y l1 e l2 m l3 :
  linked h y (l1 ++ e :: l2 ++ m :: l3) -> NoDup (y :: l1 ++ e :: l2 ++ m :: l3) ->
  exists h', lift (Some m) e h = Ret h' /\ linked h' y (l1 ++ l2 ++ l3) /\ unlift (Some m) e h' = Ret h.
Proof.
  intros Hl Hnd. destruct (unlink_linked _ _ _ _ _ Hl Hnd) as (h1 & U1 & Hl1 & R1 & Hn1 & Hp1).
  assert (Hnd' : NoDup (y :: (l1 ++ l2) ++ m :: l3)).
  { eapply sublist_NoDup; [exact Hnd|]. apply sublist_skip. rewrite <- app_assoc.
    apply sublist_app; [done|]. by apply sublist_cons. }
  rewrite app_assoc in Hl1. destruct (unlink_linked _ _ _ _ _ Hl1 Hnd') as (h2 & U2 & Hl2 & R2 & _).
  exists h2. rewrite <- app_assoc in Hl2. split_and!; [|done|].
  - unfold lift. unfold unlink in U1, U2. destruct (prevs h !! e); [|done]. cbn [deref mbind outcome_bind] in *.
    assert (is_Some (nexts (set_next n (nexts h !! e) h) !! e)) as [q Hq].
    { rewrite next_set. apply linked_app in Hl as [_ (? & ? & Hh)]. apply linked_head in Hh.
      rewrite Hh. case_decide; destruct l2; eauto. }
    rewrite Hq in *. cbn [deref mbind outcome_bind].
    match goal with |- context [set_prev q ?a ?b] => replace (set_prev q a b) with h1 by (by injection U1) end.
    exact U2.
  - unfold unlift. unfold relink in R1, R2. cbn [deref mbind outcome_bind].
    destruct (prevs h2 !! m); [|done]. cbn [deref mbind outcome_bind] in *.
    match goal with |- context [match ?x with Some _ => _ | None => _ end] =>
      assert (match x with Some qm => set_prev qm (Some m) (set_next n (Some m) h2)
              | None => set_next n (Some m) h2 end = h1) as -> by (destruct x; congruence) end.
    destruct (prevs h1 !! e); [|done]. cbn [deref mbind outcome_bind] in *.
    assert (is_Some (nexts (set_next n0 (Some e) h1) !! e)) as [q Hq].
    { rewrite next_set. case_decide; [eauto|]. rewrite Hn1.
      apply linked_app in Hl as [_ (? & ? & Hh)]. apply linked_head in Hh. rewrite Hh. destruct l2; eauto. }
    rewrite Hq in *. cbn [deref mbind outcome_bind]. done.
Qed.

(** ** Building the list *)

(** The entries with the addresses [makeLinkedEntries] gives them. *)
Fixpoint addressed {V} (es : list (entry V)) : list (nat * entry V) :=
  match es with
  | [] => []
  | e :: es' => (length es', e) :: addressed es'
  end.

(** The first return of operation [id]. *)
Fixpoint findReturn {V} (id : Z) (al : list (nat * entry V)) : option nat :=
  match al with
  | [] => None
  | (a, e) :: al' =>
      if decide (e_kind e = ReturnEvent /\ e_id e = id) then Some a else findReturn id al'
  end.

(** The node of an entry that is followed by [al]. *)
Definition nodeOf {V} (e : entry V) (al : list (nat * entry V)) : node V :=
  mkNode (Some (e_value e))
    (if decide (e_kind e = ReturnEvent) then None else findReturn (e_id e) al) (e_id e).

Lemma length_addressed {V} (es : list (entry V)) : length (addressed es) = length es.
Proof. induction es; simpl; auto. Qed.

Lemma addressed_snd {V} (es : list (entry V)) : (addressed es).*2 = es.
Proof. induction es as [|e es IH]; simpl; [done|]. by f_equal. Qed.

Lemma addressed_lt {V} (es : list (entry V)) a : a ∈ (addressed es).*1 -> (a < length es)%nat.
Proof.
  induction es as [|e es IH]; simpl; [by intros ?%elem_of_nil|].
  intros [->|H]%elem_of_cons; [lia|]. specialize (IH H). lia.
Qed.

Lemma addressed_NoDup {V} (es : list (entry V)) : NoDup (addressed es).*1.
Proof.
  induction es as [|e es IH]; simpl; [constructor|]. constructor; [|done].
  intros H%addressed_lt. lia.
Qed.

(** Linking a new node before the first one. *)
Lemma insertBefore_linked a h x l :
  a ∉ x :: l -> NoDup (x :: l) -> linked h x l -> prevs h !! x = None ->
  linked (insertBefore a (Some x) h) a (x :: l) /\ prevs (insertBefore a (Some x) h) !! a = prevs h !! a.
Proof.
  intros Ha Hnd Hl Hx. apply not_elem_of_cons in Ha as [Hax Ha]. apply NoDup_cons in Hnd as [Hxl _].
  unfold insertBefore. rewrite Hx. split.
  - cbn [linked]. rewrite next_set, decide_True by done. split; [done|].
    split; [cbn [prevs set_next]; by rewrite prev_set, decide_True|].
    eapply linked_frame; [| |exact Hl]; intros y Hy.
    + rewrite next_set, decide_False by (intros ->; set_solver). done.
    + cbn [prevs set_next]. rewrite prev_set, decide_False by (intros ->; done). done.
  - cbn [prevs set_next]. by rewrite prev_set, decide_False.
Qed.

Lemma makeLinkedEntries_spec {V} (es : list (entry V)) : forall ns h root ms,
  makeLinkedEntries es = (ns, h, root, ms) ->
  length ns = length es /\ root = head (addressed es).*1 /\
  (forall id, ms !! id = findReturn id (addressed es)) /\
  (forall l1 a e l2, addressed es = l1 ++ (a, e) :: l2 -> ns !! a = Some (nodeOf e l2)) /\
  (forall a, (length es <= a)%nat -> nexts h !! a = None /\ prevs h !! a = None) /\
  match (addressed es).*1 with [] => True | x :: l => linked h x l /\ prevs h !! x = None end.
Proof.
  induction es as [|e es IH]; intros ns h root ms; cbn [makeLinkedEntries].
  { intros [= <- <- <- <-]. cbn. split_and!; try done. by intros [|??]. }
  destruct (makeLinkedEntries es) as [[[ns0 h0] root0] ms0].
  destruct (IH _ _ _ _ eq_refl) as (Hlen & Hroot & Hms & Hns & Hfresh & Hl). clear IH.
  intros Heq.
  assert (ns = ns0 ++ [nodeOf e (addressed es)] /\ h = insertBefore (length ns0) root0 h0 /\
    root = Some (length ns0) /\
    ms = if decide (e_kind e = ReturnEvent) then <[e_id e := length ns0]> ms0 else ms0) as (-> & -> & -> & ->).
  { unfold nodeOf. rewrite <- Hms. case_decide; by injection Heq as <- <- <- <-. }
  clear Heq. rewrite length_app, Hlen. cbn [length addressed fmap list_fmap head findReturn fst].
  split; [lia|]. split; [done|]. split; [|split; [|split]].
  - intros id. case_decide as E1.
    + destruct (decide (e_id e = id)) as [<-|Hid].
      * by rewrite lookup_insert_eq, decide_True.
      * rewrite lookup_insert_ne, decide_False by naive_solver. apply Hms.
    + rewrite decide_False by naive_solver. apply Hms.
  - intros [|p l1] a e' l2 Heq; injection Heq as Ha Hrest; subst.
    + rewrite lookup_app_r, Hlen, Nat.sub_diag by lia. by f_equal.
    + rewrite lookup_app_l; [by eapply Hns|]. rewrite Hlen. apply addressed_lt. rewrite Hrest.
      rewrite fmap_app. set_solver.
  - intros a Ha. destruct (Hfresh a ltac:(lia)) as [Hna Hpa]. rewrite Hroot.
    destruct (addressed es) as [|[x ex] al] eqn:Eal; simpl; [done|].
    simpl in Hl. destruct Hl as [Hl Hx]. rewrite Hx.
    assert (x < length es)%nat by (apply addressed_lt; rewrite Eal; left).
    split; [rewrite next_set, decide_False by lia; done|].
    cbn [prevs set_next]. rewrite prev_set, decide_False by lia. done.
  - rewrite Hroot. pose proof (addressed_NoDup es) as Hnd. pose proof (addressed_lt es) as Hlt.
    destruct (Hfresh (length es) ltac:(lia)) as [Hna Hpa].
    destruct ((addressed es).*1) as [|x l] eqn:Eal; [simpl; done|].
    destruct Hl as [Hl Hx]. destruct (insertBefore_linked (length es) h0 x l) as [H1 H2]; try done.
    + intros Hin%Hlt. lia.
    + cbn [head hd_error]. split; [exact H1|]. by rewrite H2.
Qed.

(** [length] counts the nodes. *)
Lemma lengthLoop_linked h x l : linked h x l ->
  forall fuel, (length l < fuel)%nat -> lengthLoop fuel h (Some x) = 1 + len l.
Proof.
  revert x. induction l as [|y l IH]; intros x Hl [|fuel] Hf; try (simpl in Hf; lia); simpl in *.
  - rewrite Hl. destruct fuel; done.
  - destruct Hl as (-> & _ & Hl). rewrite (IH _ Hl) by lia. unfold len. simpl. lia.
Qed.
