(* ===== verification/LinSearch.v ===== *)
(** * The search of the linearizability checker decides linearizability

    [linearizes l s]: the operations of the entry list [l] can be ordered so that
    every step is legal from the state [s] and no operation is put before one
    that returned before its call.  [checkSingle] terminates, never panics and
    answers whether the whole list linearizes: the memo of visited
    configurations only cuts branches that were searched in vain. *)

From stdpp Require Import base list list_numbers gmap.
From S2P Require Import Prelude Bitset LinCheck LinList.
Open Scope Z_scope.

(** ** What is searched for *)
Section Linearizes.
Context {V St : Type} (model : Model V St).

Inductive linearizes : list (entry V) -> St -> Prop :=
| linearizes_nil s : linearizes [] s
| linearizes_step l1 c l2 r s s' :
    Forall (fun e => e_kind e = CallEvent) l1 -> e_kind c = CallEvent ->
    r ∈ l2 -> e_kind r = ReturnEvent -> e_id r = e_id c ->
    Step model s (e_value c) (e_value r) = Ret (true, s') ->
    linearizes (filter (fun e => e_id e <> e_id c) (l1 ++ c :: l2)) s' ->
    linearizes (l1 ++ c :: l2) s.
End Linearizes.

(** Kind and operation of an entry: what identifies it in a history. *)
Definition ekey {V} (e : entry V) : EventKind * Z := (e_kind e, e_id e).

(** Every call is followed by its return, and no entry occurs twice. *)
Record wf_entries {V} (l : list (entry V)) : Prop := {
  wf_return : forall l1 c l2, l = l1 ++ c :: l2 -> e_kind c = CallEvent ->
    exists r, r ∈ l2 /\ e_kind r = ReturnEvent /\ e_id r = e_id c;
  wf_unique : NoDup (ekey <$> l)
}.

Lemma wf_entries_filter {V} (P : Z -> Prop) `{!forall x, Decision (P x)} (l : list (entry V)) :
  wf_entries l -> wf_entries (filter (fun e => P (e_id e)) l).
Proof.
  intros [Hr Hu]. split.
  - intros l1 c l2 E Hc. assert (Hp : P (e_id c)).
    { assert (Hin : c ∈ filter (fun e => P (e_id e)) l) by (rewrite E; set_solver).
      by apply list_elem_of_filter in Hin as [? _]. }
    apply filter_split in E as (k1 & k2 & -> & _ & <-).
    destruct (Hr k1 c k2 eq_refl Hc) as (r & Hin & Hk & Hid). exists r. split_and!; [|done..].
    apply list_elem_of_filter. by rewrite Hid.
  - eapply sublist_NoDup; [exact Hu|]. apply fmap_sublist, sublist_filter.
Qed.

Lemma wf_entries_key {V} (l : list (entry V)) x y :
  wf_entries l -> x ∈ l -> y ∈ l -> ekey x = ekey y -> x = y.
Proof. intros [_ Hu]. by apply NoDup_fmap_elem. Qed.

Lemma findReturn_spec {V} (al : list (nat * entry V)) id r :
  r ∈ al.*2 -> e_kind r = ReturnEvent -> e_id r = id ->
  exists m r', findReturn id al = Some m /\ (m, r') ∈ al /\ e_kind r' = ReturnEvent /\ e_id r' = id.
Proof.
  induction al as [|[a e] al IH]; intros Hin Hk Hid; [by apply elem_of_nil in Hin|].
  cbn [findReturn]. case_decide as E.
  - exists a, e. split_and!; [done|left|apply E|apply E].
  - simpl in Hin. apply elem_of_cons in Hin as [->|Hin]; [naive_solver|].
    destruct (IH Hin Hk Hid) as (m & r' & ? & ? & ?). exists m, r'. split_and!; try naive_solver. by right.
Qed.

(** Setting a bit that is not set, and clearing it again. *)
Lemma clear_set b pos b' :
  0 <= pos < capacity b -> bit b pos = false -> set b pos = Ret b' -> clear b' pos = Ret b.
Proof.
  intros Hp Hb Hs. destruct (bit_word b pos Hp) as (v & Hv & Hl & Hbit). rewrite Hb in Hbit.
  pose proof (major_range b pos Hp). pose proof (Z.mod_pos_bound pos 64).
  unfold set in Hs. simpl in Hs. rewrite Hv in Hs. simpl in Hs.
  apply slice_set_Ret in Hs as [_ ->]. rewrite pow64_minor in *.
  set (w := Z.lor v (2 ^ (pos mod 64))).
  assert (Hw : slice_get (<[Z.to_nat (pos / 64) := w]> b) (pos / 64) = Ret w).
  { apply slice_get_Ret. split; [lia|]. apply list_lookup_insert_eq. by eapply lookup_lt_Some. }
  unfold clear. simpl. rewrite Hw. simpl. apply slice_set_Ret. unfold len in *. rewrite length_insert.
  split; [lia|]. rewrite list_insert_insert_eq. symmetry. apply list_insert_id.
  rewrite Hl. f_equal. rewrite pow64_minor. apply Z.bits_inj'. intros i Hi. subst w.
  rewrite Z.ldiff_spec, Z.lor_spec, Z.pow2_bits_eqb by lia.
  destruct (Z.eqb_spec (pos mod 64) i) as [<-|]; simpl; [|by rewrite orb_false_r, andb_true_r].
  by rewrite <- Hbit, andb_false_r.
Qed.

(** ** The search *)
Section Search.
Context {V St : Type} (model : Model V St) (equal : St -> St -> bool).
Context (es : list (entry V)) (n : Z) (ns : list (node V)) (hd : nat).

(** [Step] answers in every state for the values of an operation of the history,
    and states that [Equal] identifies are the same. *)
Hypothesis Step_total : forall s c r, c ∈ es -> r ∈ es ->
  e_kind c = CallEvent -> e_kind r = ReturnEvent -> e_id r = e_id c ->
  exists ok s', Step model s (e_value c) (e_value r) = Ret (ok, s').
Hypothesis equal_eq : forall s s', equal s s' = true -> s = s'.
Hypothesis Hwf : wf_entries es.
Hypothesis Hids : forall e, e ∈ es -> 0 <= e_id e < n.
Hypothesis Hns : forall l1 a e l2, addressed es = l1 ++ (a, e) :: l2 -> ns !! a = Some (nodeOf e l2).
Hypothesis Hhd : hd ∉ (addressed es).*1.

Abbreviation loop fuel c := (checkLoop fuel (fun _ => 0) model equal ns hd c).
Abbreviation body c := (checkBody model equal ns hd c).

(** The entries whose operation is not linearized yet, with their addresses. *)
Definition pending (b : bitset) : list (nat * entry V) :=
  filter (fun p => bit b (e_id p.2) = false) (addressed es).

Lemma pending_entries b : (pending b).*2 = filter (fun e => bit b (e_id e) = false) es.
Proof. rewrite <- (addressed_snd es). exact (filter_snd (fun e => bit b (e_id e) = false) (addressed es)). Qed.

Lemma pending_wf b : wf_entries (pending b).*2.
Proof. rewrite pending_entries. exact (wf_entries_filter (fun i => bit b i = false) es Hwf). Qed.

Lemma pending_in b p : p ∈ pending b -> p ∈ addressed es /\ p.2 ∈ es /\ bit b (e_id p.2) = false.
Proof.
  intros [Hb Hp]%list_elem_of_filter. split_and!; [done| |done].
  rewrite <- (addressed_snd es). by apply list_elem_of_fmap_2.
Qed.

Lemma pending_NoDup b : NoDup (hd :: (pending b).*1).
Proof.
  assert (Hsub : (pending b).*1 `sublist_of` (addressed es).*1) by apply fmap_sublist, sublist_filter.
  constructor; [|exact (sublist_NoDup _ _ (addressed_NoDup es) Hsub)].
  intros Hin. apply Hhd. by eapply elem_of_sublist.
Qed.

(** The node of a pending call and of its return. *)
Lemma pending_call b l1 a c l2 :
  pending b = l1 ++ (a, c) :: l2 -> e_kind c = CallEvent ->
  exists m r k1 k2, l2 = k1 ++ (m, r) :: k2 /\ e_kind r = ReturnEvent /\ e_id r = e_id c /\
    ns !! a = Some (mkNode (Some (e_value c)) (Some m) (e_id c)) /\
    ns !! m = Some (mkNode (Some (e_value r)) None (e_id r)).
Proof.
  intros E Hc. destruct (pending_in b (a, c)) as (_ & _ & Hb); [rewrite E; set_solver|]. simpl in Hb.
  pose proof E as E'. apply filter_split in E' as (L1 & L2 & HL & _ & HL2).
  destruct (wf_return _ Hwf L1.*2 c L2.*2) as (r0 & Hin & Hk & Hid).
  { by rewrite <- (addressed_snd es), HL, fmap_app. } { done. }
  destruct (findReturn_spec L2 (e_id c) r0 Hin Hk Hid) as (m & r & Hf & Hm & Hkr & Hidr).
  assert (Hm2 : (m, r) ∈ l2).
  { rewrite <- HL2. apply list_elem_of_filter. simpl. by rewrite Hidr. }
  apply list_elem_of_split in Hm2 as (k1 & k2 & ->). exists m, r, k1, k2. split_and!; try done.
  - rewrite (Hns _ _ _ _ HL). unfold nodeOf. rewrite decide_False, Hf by congruence. done.
  - apply list_elem_of_split in Hm as (j1 & j2 & ->).
    rewrite (Hns (L1 ++ (a, c) :: j1) m r j2) by (by rewrite HL, <- app_assoc).
    unfold nodeOf. by rewrite decide_True.
Qed.

Lemma pending_return b a r :
  (a, r) ∈ pending b -> e_kind r = ReturnEvent -> exists nd, ns !! a = Some nd /\ n_match nd = None.
Proof.
  intros [Hin _]%pending_in Hk. apply list_elem_of_split in Hin as (L1 & L2 & HL).
  eexists. split; [by eapply Hns|]. unfold nodeOf. by rewrite decide_True.
Qed.

(** Linearizing one more operation. *)
Lemma pending_set b b' id :
  (forall q, 0 <= q -> bit b' q = if q =? id then true else bit b q) ->
  pending b' = filter (fun p => e_id p.2 <> id) (pending b).
Proof.
  intros Hb. unfold pending. rewrite list_filter_filter. apply filter_agree. intros p Hp.
  assert (p.2 ∈ es) by (rewrite <- (addressed_snd es); by apply list_elem_of_fmap_2).
  rewrite Hb by (by apply Hids). destruct (Z.eqb_spec (e_id p.2) id); naive_solver.
Qed.

(** Taking a call and its return out of a list of distinct entries. *)
Lemma remove_op l1 (a : nat) (c : entry V) k1 (m : nat) r k2 :
  wf_entries (l1 ++ (a, c) :: k1 ++ (m, r) :: k2).*2 ->
  e_kind c = CallEvent -> e_kind r = ReturnEvent -> e_id r = e_id c ->
  filter (fun p => e_id p.2 <> e_id c) (l1 ++ (a, c) :: k1 ++ (m, r) :: k2) = l1 ++ k1 ++ k2.
Proof.
  intros [_ Hu] Hc Hr Hid.
  rewrite filter_app, filter_cons_False, filter_app, filter_cons_False by (simpl; tauto || congruence).
  rewrite !fmap_app, !fmap_cons, !fmap_app, !fmap_cons in Hu. cbn [snd] in Hu.
  assert (Hoth : forall e : entry V, ekey e <> ekey c -> ekey e <> ekey r -> e_id e <> e_id c).
  { unfold ekey. intros e H1 H2 E. destruct (e_kind e) eqn:Ek; [apply H1|apply H2]; congruence. }
  assert (Hall : forall l : list (nat * entry V), (forall p, p ∈ l -> ekey p.2 <> ekey c /\ ekey p.2 <> ekey r) ->
    filter (fun p : nat * entry V => e_id p.2 <> e_id c) l = l).
  { intros l Hl. induction l as [|p l IH]; [done|].
    rewrite filter_cons_True by (apply Hoth; apply Hl; left).
    f_equal. apply IH. intros q Hq. apply Hl. by right. }
  rewrite NoDup_app, NoDup_cons, NoDup_app, NoDup_cons in Hu.
  assert (Hkey : forall (l : list (nat * entry V)) p, p ∈ l -> ekey p.2 ∈ ekey <$> l.*2).
  { intros l p Hp. by do 2 apply list_elem_of_fmap_2. }
  destruct Hu as (_ & Hd1 & Hc1 & _ & Hd2 & Hr1 & _).
  rewrite !Hall; [done| | |]; intros p Hp%Hkey; split; intros E; rewrite E in Hp.
  - apply Hc1, elem_of_app. do 2 right. done.
  - by apply Hr1.
  - apply Hc1, elem_of_app. by left.
  - apply (Hd2 _ Hp). left.
  - apply (Hd1 _ Hp). left.
  - apply (Hd1 _ Hp). right. apply elem_of_app. right. left.
Qed.

(** ** Configurations that lead nowhere *)
Definition hopeless (s : St) (l : list (nat * entry V)) (p : nat * entry V) : Prop :=
  forall r s', r ∈ l.*2 -> e_kind r = ReturnEvent -> e_id r = e_id p.2 ->
    Step model s (e_value p.2) (e_value r) = Ret (true, s') ->
    ~ linearizes model (filter (fun e => e_id e <> e_id p.2) l.*2) s'.

Lemma all_hopeless s pre a r suf :
  Forall (hopeless s (pre ++ (a, r) :: suf)) pre -> e_kind r = ReturnEvent ->
  ~ linearizes model (pre ++ (a, r) :: suf).*2 s.
Proof.
  intros Hh Hr Hlin. inversion Hlin as [? E|l1 c l2 r' s0 s' Hl1 Hc Hin Hk Hid Hst Hrec El Es]; subst.
  { rewrite fmap_app in E. simpl in E. by destruct (pre.*2). }
  assert (Hcp : c ∈ pre.*2).
  { rewrite fmap_app, fmap_cons in El. cbn [snd] in El.
    destruct (decide (length l1 < length pre.*2)%nat) as [Hlt|Hge].
    - apply list_elem_of_lookup_2 with (length l1).
      rewrite <- (lookup_app_l _ (r :: suf.*2)) by done. rewrite <- El.
      by rewrite lookup_app_r, Nat.sub_diag.
    - assert (Hat : (l1 ++ c :: l2) !! length pre.*2 = Some r)
        by (rewrite El, lookup_app_r, Nat.sub_diag by done; done).
      destruct (decide (length pre.*2 = length l1)) as [E|NE].
      + rewrite E, lookup_app_r, Nat.sub_diag in Hat by done. injection Hat as <-. congruence.
      + rewrite lookup_app_l in Hat by lia. eapply Forall_lookup_1 in Hl1; [|exact Hat].
        simpl in Hl1. congruence. }
  apply list_elem_of_fmap in Hcp as ([x c'] & -> & Hp). simpl in *.
  rewrite Forall_forall in Hh. specialize (Hh _ Hp). eapply (Hh r' s'); simpl; try done.
  - rewrite <- El. set_solver.
  - by rewrite <- El.
Qed.

(** ** The memo *)
Definition cached (cache : gmap Z (list (bitset * St))) (b : bitset) (s : St) : Prop :=
  exists k L, cache !! k = Some L /\ (b, s) ∈ L.

(** Remembered configurations with fewer than [k] entries left lead nowhere. *)
Definition cache_ok (k : nat) (cache : gmap Z (list (bitset * St))) : Prop :=
  forall b s, cached cache b s -> (length (pending b) < k)%nat -> ~ linearizes model (pending b).*2 s.

Lemma cached_add cache b s b' s' :
  cached (<[hash b := default [] (cache !! hash b) ++ [(b, s)]]> cache) b' s' ->
  cached cache b' s' \/ (b' = b /\ s' = s).
Proof.
  intros (k & L & Hk & Hin). destruct (decide (hash b = k)) as [<-|Hne].
  - rewrite lookup_insert_eq in Hk. injection Hk as <-. apply elem_of_app in Hin as [Hin|Hin].
    + destruct (cache !! hash b) as [L|] eqn:E; [|by apply elem_of_nil in Hin]. left. by exists (hash b), L.
    + apply list_elem_of_singleton in Hin. naive_solver.
  - rewrite lookup_insert_ne in Hk by done. left. by exists k, L.
Qed.

Lemma cacheContains_cached cache b s :
  cacheContains equal cache b s = true -> cached cache b s.
Proof.
  unfold cacheContains. intros ([b' s'] & Hin & Ht)%existsb_exists. simpl in Ht.
  apply andb_true_iff in Ht as [->%equals_spec ->%equal_eq].
  destruct (cache !! hash b') as [L|] eqn:E; [|done]. exists (hash b'), L.
  split; [done|]. by apply list_elem_of_In.
Qed.

(** ** One iteration *)
Ltac run := cbn [s_links s_entry s_linearized s_cache s_calls s_state n_match n_value n_id
  deref mbind outcome_bind].

Lemma loop_step f c c' x :
  nexts (s_links c) !! hd = Some x -> body c = Ret (inl c') -> loop (S f) c = loop f c'.
Proof. intros Hx Hb. cbn [checkLoop]. rewrite Hx. simpl. rewrite Hb. done. Qed.

(** The call is not legal now, or leads to a configuration seen before. *)
Lemma body_skip h a c m r b cache calls s ok s' :
  ns !! a = Some (mkNode (Some (e_value c)) (Some m) (e_id c)) ->
  ns !! m = Some (mkNode (Some (e_value r)) None (e_id r)) ->
  Step model s (e_value c) (e_value r) = Ret (ok, s') ->
  ok = false \/ (exists b', set b (e_id c) = Ret b' /\ cacheContains equal cache b' s' = true) ->
  body (mkSearch h (Some a) b cache calls s) = Ret (inl (mkSearch h (nexts h !! a) b cache calls s)).
Proof.
  intros Ha Hm Hst Hok. unfold checkBody. run.
  rewrite Ha. run. rewrite Hm. run. rewrite Hst. run.
  destruct Hok as [->|(b' & Hb & Hc)]; [done|]. destruct ok; [|done].
  unfold clone. rewrite Hb. run. by rewrite Hc.
Qed.

(** The call is linearized. *)
Lemma body_lift h h' a c m r b b' cache calls s s' :
  ns !! a = Some (mkNode (Some (e_value c)) (Some m) (e_id c)) ->
  ns !! m = Some (mkNode (Some (e_value r)) None (e_id r)) ->
  Step model s (e_value c) (e_value r) = Ret (true, s') ->
  set b (e_id c) = Ret b' -> cacheContains equal cache b' s' = false -> lift (Some m) a h = Ret h' ->
  body (mkSearch h (Some a) b cache calls s) =
    Ret (inl (mkSearch h' (nexts h' !! hd) b'
      (<[hash b' := default [] (cache !! hash b') ++ [(b', s')]]> cache) ((a, s) :: calls) s')).
Proof.
  intros Ha Hm Hst Hb Hc Hl. unfold checkBody. run.
  rewrite Ha. run. rewrite Hm. run. rewrite Hst. run. unfold clone. rewrite Hb. run. rewrite Hc, Hl. done.
Qed.

(** A return that is not linearized: the last call is undone. *)
Lemma body_backtrack h h' a a' nd c m b b' cache calls s s' :
  ns !! a' = Some nd -> n_match nd = None ->
  ns !! a = Some (mkNode (Some (e_value c)) (Some m) (e_id c)) ->
  clear b' (e_id c) = Ret b -> unlift (Some m) a h' = Ret h ->
  body (mkSearch h' (Some a') b' cache ((a, s) :: calls) s') =
    Ret (inl (mkSearch h (nexts h !! a) b cache calls s)).
Proof.
  intros Ha' Hm Ha Hb Hu. unfold checkBody. run.
  rewrite Ha'. run. rewrite Hm, Ha. run. rewrite Hb. run. by rewrite Hu.
Qed.

(** ** The search explores every configuration *)

(** What the search does from a configuration with the entries [l] left: it
    either succeeds, or comes to a return with the list, the bits, the calls and
    the state it started from and a memo grown by hopeless configurations. *)
Definition explored (c : search St) (l : list (nat * entry V)) (s : St) : Prop :=
  exists i,
    (linearizes model l.*2 s /\ forall fuel, loop (i + S fuel)%nat c = Ret (Some true)) \/
    (~ linearizes model l.*2 s /\ l <> [] /\ exists a nd cache',
      ns !! a = Some nd /\ n_match nd = None /\
      (forall b s', cached cache' b s' -> cached (s_cache c) b s' \/ ~ linearizes model (pending b).*2 s') /\
      forall fuel, loop (i + fuel)%nat c =
        loop fuel (mkSearch (s_links c) (Some a) (s_linearized c) cache' (s_calls c) s)).

(** An iteration leads to what the next configuration does. *)
Lemma explored_step c c' x l s :
  nexts (s_links c) !! hd = Some x -> body c = Ret (inl c') ->
  s_links c' = s_links c -> s_linearized c' = s_linearized c -> s_calls c' = s_calls c ->
  s_cache c' = s_cache c -> explored c' l s -> explored c l s.
Proof.
  intros Hx Hb E1 E2 E3 E4 (i & [[Hlin Hl]|(Hlin & Hne & a & nd & cache' & Ha & Hm & Hc & Hl)]); exists (S i).
  - left. split; [done|]. intros fuel. cbn [Nat.add]. by rewrite (loop_step _ _ _ _ Hx Hb).
  - right. split; [done|]. split; [done|]. exists a, nd, cache'. rewrite <- E1, <- E2, <- E3, <- E4.
    split_and!; try done. intros fuel. cbn [Nat.add]. by rewrite (loop_step _ _ _ _ Hx Hb).
Qed.


(** Linearizing the call [c] of the list [pre ++ (a, c) :: k1 ++ (m, r) :: k2]. *)
Section Candidate.
Context (b : bitset) (h : links) (s : St).
Context (pre k1 k2 : list (nat * entry V)) (a m : nat) (c r : entry V).
Let l := pre ++ (a, c) :: k1 ++ (m, r) :: k2.
Hypothesis Hl : l = pending b.
Hypothesis Hw : Forall word b.
Hypothesis Hcap : n <= capacity b.
Hypothesis Hlinked : linked h hd l.*1.
Hypothesis Hc : e_kind c = CallEvent.
Hypothesis Hr : e_kind r = ReturnEvent.
Hypothesis Hid : e_id r = e_id c.

Lemma candidate_wf : wf_entries l.*2.
Proof. rewrite Hl. apply pending_wf. Qed.

Lemma candidate_fst : l.*1 = pre.*1 ++ a :: k1.*1 ++ m :: k2.*1.
Proof. unfold l. by rewrite fmap_app, fmap_cons, fmap_app, fmap_cons. Qed.

Lemma candidate_set : exists b', set b (e_id c) = Ret b' /\ clear b' (e_id c) = Ret b /\
  Forall word b' /\ n <= capacity b' /\ pending b' = pre ++ k1 ++ k2 /\
  (pending b').*2 = filter (fun e => e_id e <> e_id c) l.*2 /\ (length (pending b') < length l)%nat.
Proof.
  clear Hlinked. assert (Hin : (a, c) ∈ pending b) by (rewrite <- Hl; unfold l; set_solver).
  destruct (pending_in _ _ Hin) as (_ & Hces%Hids & Hbit). cbn [snd] in *.
  destruct (set_spec b (e_id c)) as (b' & Hset & Hw' & Hlen' & Hbits); [lia|done|].
  pose proof (pending_set b b' (e_id c) Hbits) as Hp. rewrite <- Hl in Hp.
  assert (Hp' : pending b' = pre ++ k1 ++ k2).
  { rewrite Hp. apply remove_op; try done. apply candidate_wf. }
  exists b'. split_and!; try done.
  - apply clear_set; [lia|done|done].
  - unfold capacity in *. by rewrite Hlen'.
  - rewrite Hp. exact (filter_snd (fun e => e_id e <> e_id c) l).
  - rewrite Hp'. unfold l. rewrite !length_app. simpl. rewrite length_app. simpl. lia.
Qed.

Lemma candidate_lift : exists h', lift (Some m) a h = Ret h' /\ unlift (Some m) a h' = Ret h /\
  linked h' hd (pre ++ k1 ++ k2).*1.
Proof.
  pose proof (pending_NoDup b) as Hnd. rewrite <- Hl, candidate_fst in Hnd.
  pose proof Hlinked as Hlk. rewrite candidate_fst in Hlk.
  destruct (lift_unlift h hd _ _ _ _ _ Hlk Hnd) as (h' & ? & ? & ?). exists h'.
  by rewrite !fmap_app.
Qed.

Lemma candidate_next :
  (exists x, nexts h !! hd = Some x) /\ nexts h !! a = head (k1 ++ (m, r) :: k2).*1.
Proof.
  pose proof Hlinked as Hlk. rewrite candidate_fst in Hlk. split.
  - rewrite (linked_head _ _ _ Hlk). destruct (pre.*1); eauto.
  - apply linked_app in Hlk as [_ (_ & _ & Hla)]. rewrite (linked_head _ _ _ Hla).
    by rewrite fmap_app, fmap_cons.
Qed.

Lemma candidate_linearizes s' :
  Forall (fun p => e_kind p.2 = CallEvent) pre ->
  Step model s (e_value c) (e_value r) = Ret (true, s') ->
  linearizes model (filter (fun e => e_id e <> e_id c) l.*2) s' -> linearizes model l.*2 s.
Proof.
  intros Hpre Hst. unfold l. rewrite fmap_app, fmap_cons. cbn [snd]. intros Hlin.
  eapply linearizes_step; try done; [by apply Forall_fmap|].
  rewrite fmap_app, fmap_cons. cbn [snd]. set_solver.
Qed.

Lemma candidate_hopeless ok s' :
  Step model s (e_value c) (e_value r) = Ret (ok, s') ->
  (ok = true -> ~ linearizes model (filter (fun e => e_id e <> e_id c) l.*2) s') -> hopeless s l (a, c).
Proof.
  intros Hst Hno r2 s2 Hr2 Hk2 Hid2 Hst2. cbn [snd] in *.
  assert (r2 = r) as ->; [|rewrite Hst in Hst2; injection Hst2 as -> ->; auto].
  eapply wf_entries_key; [exact candidate_wf|done| |unfold ekey; congruence].
  unfold l. rewrite fmap_app, fmap_cons, fmap_app, fmap_cons. cbn [snd]. set_solver.
Qed.
End Candidate.

(** The runs of the subtree of a candidate and of the candidates after it. *)
Lemma explored_join c c1 c2 l l' x s s' :
  nexts (s_links c) !! hd = Some x -> body c = Ret (inl c1) -> explored c1 l' s' ->
  (linearizes model l'.*2 s' -> linearizes model l.*2 s) ->
  (forall a nd cache', ns !! a = Some nd -> n_match nd = None -> l' <> [] ->
    ~ linearizes model l'.*2 s' ->
    (forall b s2, cached cache' b s2 -> cached (s_cache c1) b s2 \/ ~ linearizes model (pending b).*2 s2) ->
    nexts (s_links c1) !! hd <> None /\
    body (mkSearch (s_links c1) (Some a) (s_linearized c1) cache' (s_calls c1) s') = Ret (inl (c2 cache')) /\
    s_links (c2 cache') = s_links c /\ s_linearized (c2 cache') = s_linearized c /\
    s_calls (c2 cache') = s_calls c /\
    (forall b s2, cached (s_cache (c2 cache')) b s2 ->
      cached (s_cache c) b s2 \/ ~ linearizes model (pending b).*2 s2) /\
    explored (c2 cache') l s) ->
  explored c l s.
Proof.
  intros Hx Hb (i & [[Hlin Hrun]|(Hlin & Hne & a & nd & cache' & Ha & Hm & Hc & Hrun)]) Hup Hback.
  { exists (S i). left. split; [by apply Hup|]. intros fuel.
    cbn [Nat.add]. by rewrite (loop_step _ _ _ x Hx Hb). }
  destruct (Hback a nd cache' Ha Hm Hne Hlin Hc) as (Hx' & Hb' & E1 & E2 & E3 & Hc2 & (j & Hj)).
  destruct (nexts (s_links c1) !! hd) as [x'|] eqn:Ex'; [clear Hx'|done].
  assert (Hall : forall fuel, loop (S (i + S fuel)) c = loop fuel (c2 cache')).
  { intros fuel. rewrite (loop_step _ _ _ x Hx Hb), Hrun.
    by apply (loop_step _ (mkSearch _ _ _ _ _ _) _ x'). }
  exists (S (i + S j)). destruct Hj as [[Hlin' Hrun']|(Hlin' & Hne' & a2 & nd2 & cache2 & Ha2 & Hm2 & Hc2' & Hrun')].
  - left. split; [done|]. intros fuel. replace (S (i + S j) + S fuel)%nat with (S (i + S (j + S fuel))) by lia.
    by rewrite Hall.
  - right. split; [done|]. split; [done|]. exists a2, nd2, cache2. split_and!; try done.
    + intros b2 s2 [?|?]%Hc2'; [by apply Hc2|by right].
    + intros fuel. replace (S (i + S j) + fuel)%nat with (S (i + S (j + fuel))) by lia.
      rewrite Hall, Hrun'. by rewrite E1, E2, E3.
Qed.

(** A search that starts with the candidates [suf], those before being hopeless. *)
Definition searches (k : nat) : Prop := forall l b h cache calls s pre suf,
  (length l < k)%nat -> l = pending b -> l = pre ++ suf -> Forall word b -> n <= capacity b ->
  linked h hd l.*1 -> Forall (fun p => e_kind p.2 = CallEvent) pre -> Forall (hopeless s l) pre ->
  cache_ok (length l) cache ->
  explored (mkSearch h (head suf.*1) b cache calls s) l s.

(** A candidate that is legal and leads to a new configuration: [Hnext] is the
    search from the next candidate on. *)
Lemma explore_lift k l b h cache calls s pre a c m r k1 k2 s' :
  searches k -> (length l < S k)%nat -> l = pending b -> l = pre ++ (a, c) :: k1 ++ (m, r) :: k2 ->
  Forall word b -> n <= capacity b -> linked h hd l.*1 -> cache_ok (length l) cache ->
  e_kind c = CallEvent -> e_kind r = ReturnEvent -> e_id r = e_id c ->
  ns !! a = Some (mkNode (Some (e_value c)) (Some m) (e_id c)) ->
  ns !! m = Some (mkNode (Some (e_value r)) None (e_id r)) ->
  Forall (fun p => e_kind p.2 = CallEvent) pre ->
  Step model s (e_value c) (e_value r) = Ret (true, s') ->
  (forall b', set b (e_id c) = Ret b' -> cacheContains equal cache b' s' = false) ->
  (forall cache', cache_ok (length l) cache' -> hopeless s l (a, c) ->
    explored (mkSearch h (head (k1 ++ (m, r) :: k2).*1) b cache' calls s) l s) ->
  explored (mkSearch h (Some a) b cache calls s) l s.
Proof.
  intros IHk Hk Hl -> Hw Hcap Hlinked Hcache Hc Hr Hid Ha Hm Hpre Hst Hnc Hnext.
  destruct (candidate_set b pre k1 k2 a m c r) as (b' & Hset & Hclear & Hw' & Hcap' & Hp & Hp2 & Hll); try done.
  destruct (candidate_lift b h pre k1 k2 a m c r) as (h' & Hlift & Hunlift & Hlk'); try done.
  destruct (candidate_next h pre k1 k2 a m c r) as [[x Hx] Hna]; try done.
  pose proof (body_lift h h' a c m r b b' cache calls s s' Ha Hm Hst Hset (Hnc _ Hset) Hlift) as Hbody.
  rewrite <- Hp in Hlk'. rewrite (linked_head _ _ _ Hlk') in Hbody.
  eapply (explored_join (mkSearch h (Some a) b cache calls s) _
    (fun cache' => mkSearch h _ b cache' calls s) _ (pending b') x s s' Hx Hbody).
  - apply (IHk _ b' h' _ _ s' []); try done; [lia|].
    intros b2 s2 [Hc2|[-> ->]]%cached_add Hlt; [|lia]. apply Hcache; [done|lia].
  - rewrite Hp2. by eapply candidate_linearizes.
  - intros a' nd cache' Ha' Hnd Hne Hlin Hc'. cbn [s_links s_linearized s_calls s_cache] in *.
    assert (Hhope : hopeless s (pre ++ (a, c) :: k1 ++ (m, r) :: k2) (a, c)).
    { eapply candidate_hopeless; try done. intros _. by rewrite <- Hp2. }
    assert (Hpost : forall b2 s2, cached cache' b2 s2 ->
      cached cache b2 s2 \/ ~ linearizes model (pending b2).*2 s2).
    { intros b2 s2 [[?|[-> ->]]%cached_add|?]%Hc'; auto. }
    split_and!; try done.
    + rewrite (linked_head _ _ _ Hlk'). by destruct (pending b').
    + rewrite (body_backtrack h h' a a' nd c m b b' cache' calls s s' Ha' Hnd Ha Hclear Hunlift).
      by rewrite Hna.
    + apply Hnext; [|done]. intros b2 s2 [?|?]%Hpost Hlt; [by apply Hcache|done].
Qed.

Lemma explore k : searches k.
Proof.
  induction k as [|k IHk]; intros l b h cache calls s pre suf Hk Hl Hsplit Hw Hcap Hlk Hpre Hhope Hcache; [lia|].
  revert pre cache Hsplit Hpre Hhope Hcache.
  induction suf as [|[a e] suf IHs]; intros pre cache Hsplit Hpre Hhope Hcache.
  { rewrite app_nil_r in Hsplit. destruct (decide (l = [])) as [->|Hne].
    - exists O. left. split; [constructor|]. intros fuel. cbn [Nat.add checkLoop s_links].
      by rewrite (linked_head _ _ _ Hlk).
    - destruct (exists_last Hne) as (l' & [a c] & ->). rewrite <- Hsplit in Hpre.
      apply Forall_app in Hpre as [_ [Hc _]%Forall_cons].
      destruct (pending_call b l' a c []) as (m & r & k1 & k2 & E & _); [done..|]. by destruct k1. }
  cbn [fmap list_fmap head fst]. destruct (e_kind e) eqn:Hkind.
  2:{ exists O. right. split_and!; [rewrite Hsplit in *; by apply all_hopeless|intros E; rewrite E in Hsplit; by destruct pre|].
      destruct (pending_return b a e) as (nd & Ha & Hnd); [rewrite <- Hl, Hsplit; set_solver|done|].
      exists a, nd, cache. split_and!; try done. intros b2 s2 ?. by left. }
  destruct (pending_call b pre a e suf) as (m & r & k1 & k2 & -> & Hr & Hid & Ha & Hm); [by rewrite <- Hl|done|].
  assert (Hnext : forall cache', cache_ok (length l) cache' -> hopeless s l (a, e) ->
    explored (mkSearch h (head (k1 ++ (m, r) :: k2).*1) b cache' calls s) l s).
  { intros cache' Hc' Hh. apply (IHs (pre ++ [(a, e)])); [by rewrite <- app_assoc| | |done].
    - apply Forall_app. split; [done|]. by repeat constructor.
    - apply Forall_app. split; [done|]. by repeat constructor. }
  assert (He : forall p, p ∈ l -> p.2 ∈ es) by (intros p Hp; rewrite Hl in Hp; by apply pending_in in Hp as (_ & ? & _)).
  destruct (Step_total s e r) as (ok & s' & Hst); try done.
  { apply (He (a, e)). rewrite Hsplit. set_solver. } { apply (He (m, r)). rewrite Hsplit. set_solver. }
  destruct (candidate_set b pre k1 k2 a m e r) as (b' & Hset & _ & _ & _ & _ & Hp2 & Hll); try done; [by rewrite <- Hsplit|].
  rewrite <- Hsplit in Hp2, Hll.
  destruct (candidate_next h pre k1 k2 a m e r) as [[x Hx] Hna]; [by rewrite <- Hsplit|].
  destruct (decide (ok = true /\ cacheContains equal cache b' s' = false)) as [[-> Hnc]|Hskip].
  { eapply explore_lift; try done. intros b2 Hb2. by replace b2 with b' by congruence. }
  eapply (explored_step (mkSearch h (Some a) b cache calls s) _ x l s Hx (body_skip h a e m r b cache calls s ok s' Ha Hm Hst _)); try done.
  rewrite Hna. apply Hnext; [done|]. rewrite Hsplit.
  eapply (candidate_hopeless b h s pre k1 k2 a m e r); try done; [by rewrite <- Hsplit|by rewrite <- Hsplit|].
  intros ->. rewrite <- Hsplit, <- Hp2. apply Hcache; [|done]. apply cacheContains_cached.
  destruct (cacheContains equal cache b' s'); [done|]. naive_solver.
  Unshelve. destruct ok; [|by left]. right. exists b'. split; [done|].
  destruct (cacheContains equal cache b' s'); [done|]. naive_solver.
Qed.
End Search.

(** ** Fuel and the kill flag *)
Section Loop.
Context {V St : Type} (model : Model V St) (equal : St -> St -> bool) (ns : list (node V)) (hd : nat).

(** More fuel does not change an answer. *)
Lemma checkLoop_fuel fuel fuel' c b :
  checkLoop fuel (fun _ => 0) model equal ns hd c = Ret (Some b) -> (fuel <= fuel')%nat ->
  checkLoop fuel' (fun _ => 0) model equal ns hd c = Ret (Some b).
Proof.
  revert fuel' c. induction fuel as [|fuel IH]; intros [|fuel'] c Hr Hle; try done; [lia|].
  cbn [checkLoop] in *. destruct (_ !! hd); [|done]. simpl negb in *. cbn iota in *.
  destruct (checkBody _ _ _ _ c) as [[c'|b']| |]; try done. apply IH; [done|lia].
Qed.

(** A killed search answers false; otherwise the flag does not matter. *)
Lemma checkLoop_kill fuel kill c :
  checkLoop fuel kill model equal ns hd c = Ret (Some true) ->
  checkLoop fuel (fun _ => 0) model equal ns hd c = Ret (Some true).
Proof.
  revert c. induction fuel as [|fuel IH]; intros c Hr; [done|].
  cbn [checkLoop] in *. destruct (_ !! hd); [|done]. destruct (kill (S fuel) =? 0); [|done].
  simpl negb in *. cbn iota in *. destruct (checkBody _ _ _ _ c) as [[c'|b']| |]; try done. by apply IH.
Qed.
End Loop.

(** ** [checkSingle] *)
Section CheckSingle.
Context {V St : Type} (model : Model V St) (equal : St -> St -> bool) (es : list (entry V)).
Hypothesis Step_total : forall s c r, c ∈ es -> r ∈ es ->
  e_kind c = CallEvent -> e_kind r = ReturnEvent -> e_id r = e_id c ->
  exists ok s', Step model s (e_value c) (e_value r) = Ret (ok, s').
Hypothesis equal_eq : forall s s', equal s s' = true -> s = s'.
Hypothesis Hwf : wf_entries es.
Hypothesis Hids : forall e, e ∈ es -> 0 <= e_id e < Z.quot (len es) 2.

Lemma checkSingle_start ns h root ms :
  makeLinkedEntries es = (ns, h, root, ms) ->
  lengthLoop (length ns) h root = len es /\
  linked (insertBefore (length ns) root h) (length ns) (addressed es).*1.
Proof.
  intros E. destruct (makeLinkedEntries_spec es _ _ _ _ E) as (Hlen & -> & _ & _ & Hfresh & Hl).
  destruct (Hfresh (length ns) ltac:(lia)) as [Hna Hpa].
  pose proof (addressed_NoDup es) as Hnd. pose proof (addressed_lt es) as Hlt.
  assert (Hla : length (addressed es).*1 = length es) by (rewrite length_fmap; apply length_addressed).
  unfold len. rewrite <- Hla. destruct (addressed es).*1 as [|x l] eqn:Eal; [by destruct (length ns)|].
  destruct Hl as [Hl Hx]. simpl in Hla. cbn [head hd_error]. split.
  - rewrite (lengthLoop_linked _ _ _ Hl) by lia. unfold len. simpl. lia.
  - apply insertBefore_linked; try done. intros Hin%Hlt. lia.
Qed.

Lemma checkSingle_correct : exists fuel0 res,
  (res = true <-> linearizes model es (Init model)) /\
  forall fuel, (fuel0 <= fuel)%nat ->
    checkSingle fuel (fun _ => 0) model equal (makeLinkedEntries es).1 = Ret (Some res).
Proof.
  unfold checkSingle. destruct (makeLinkedEntries es) as [[[ns h] root] ms] eqn:E. cbn [fst].
  destruct (checkSingle_start _ _ _ _ E) as [Hlen Hlk]. rewrite Hlen.
  destruct (makeLinkedEntries_spec es _ _ _ _ E) as (Hn & Hroot & _ & Hns & _ & _).
  set (ns' := ns ++ [_]). set (n := Z.quot (len es) 2) in *.
  assert (0 <= n) by (apply Z.quot_pos; [apply len_nonneg|lia]).
  destruct (newBitset_spec n) as (Hcap & Hw & Hbits); [done|].
  assert (Hp : pending es (newBitset n) = addressed es).
  { unfold pending. generalize (addressed es) as l. induction l as [|p l IH]; [done|].
    by rewrite filter_cons_True, IH by apply Hbits. }
  destruct (explore model equal es n ns' (length ns) Step_total equal_eq Hwf Hids) with
    (k := S (length (addressed es))) (l := addressed es) (b := newBitset n) (h := insertBefore (length ns) root h)
    (cache := ∅ : gmap Z (list (bitset * St))) (calls := [] : list (nat * St)) (s := Init model)
    (pre := [] : list (nat * entry V)) (suf := addressed es)
    as (i & [[Hlin Hrun]|(Hlin & Hne & a & nd & cache' & Ha & Hm & _ & Hrun)]); try done.
  - intros l1 a e l2 He. apply lookup_app_l_Some. by eapply Hns.
  - intros Hin%addressed_lt. lia.
  - lia.
  - intros b s (k & L & Hk & _). by rewrite lookup_empty in Hk.
  - exists (i + 1)%nat, true. rewrite addressed_snd in Hlin. split; [done|]. intros fuel Hf.
    eapply checkLoop_fuel; [|exact Hf]. rewrite Hroot in *. apply Hrun.
  - exists (i + 1)%nat, false. rewrite addressed_snd in Hlin. split; [done|]. intros fuel Hf.
    eapply checkLoop_fuel; [|exact Hf]. rewrite <- Hroot in Hrun. rewrite Hrun.
    cbn [checkLoop s_links]. rewrite (linked_head _ _ _ Hlk).
    destruct (addressed es) as [|p l] eqn:Eal; [done|]. cbn. rewrite Ha. cbn. by rewrite Hm.
Qed.

(** Whatever the flag, an answer true is right. *)
Lemma checkSingle_sound fuel kill :
  checkSingle fuel kill model equal (makeLinkedEntries es).1 = Ret (Some true) ->
  linearizes model es (Init model).
Proof.
  intros Hk. destruct checkSingle_correct as (f0 & res & Hres & Hrun). apply Hres.
  specialize (Hrun (Nat.max fuel f0) ltac:(lia)). unfold checkSingle in *.
  destruct (makeLinkedEntries es) as [[[ns h] root] ms]. cbn [fst] in *. apply checkLoop_kill in Hk.
  eapply checkLoop_fuel in Hk; [|apply (Nat.le_max_l fuel f0)]. rewrite Hk in Hrun. congruence.
Qed.
End CheckSingle.
