(* ===== verification/LinHistory.v ===== *)
(** * The linearizability checker on histories of operations

    A history is linearizable when its operations can be ordered so that every
    step is legal and no operation comes before one that had returned when it
    was called.  The search on the sorted entries decides it, partition by
    partition; for the key/value model the partitions by key are linearizable
    exactly when the whole history is, as a history of a key/value store. *)

From stdpp Require Import base list list_numbers gmap strings sorting.
From S2P Require Import Prelude Bitset LinCheck LinList LinSearch.
Open Scope Z_scope.

(** ** Specification *)
Section Linearizable.
Context {V St : Type} (model : Model V St).

Fixpoint legal (s : St) (ops : list (Operation V)) : Prop :=
  match ops with
  | [] => True
  | o :: ops' => exists s', Step model s (Input o) (Output o) = Ret (true, s') /\ legal s' ops'
  end.

(** [a] may come before [b]: [b] has not returned before [a] is called. *)
Definition may_precede (a b : Operation V) : Prop := CallTime a <= ReturnTime b.

Definition linearizable (history : list (Operation V)) : Prop :=
  exists ops, ops ≡ₚ history /\ legal (Init model) ops /\ StronglySorted may_precede ops.
End Linearizable.

(** What [sort.Sort] promises for [byTime]: a permutation in which no entry is
    less than one before it. *)
Definition sorts {V} (sort : list (entry V) -> list (entry V)) : Prop :=
  forall l, sort l ≡ₚ l /\ StronglySorted (fun a b => Less b a = false) (sort l).

(** ** Numbered operations and their entries *)
Section Entries.
Context {V : Type}.
Implicit Types p : Z * Operation V.

Definition callE p : entry V := mkEntry CallEvent (Input p.2) p.1 (CallTime p.2).
Definition retE p : entry V := mkEntry ReturnEvent (Output p.2) p.1 (ReturnTime p.2).

Fixpoint number (id : Z) (history : list (Operation V)) : list (Z * Operation V) :=
  match history with [] => [] | o :: history' => (id, o) :: number (id + 1) history' end.

Fixpoint entriesOf (ops : list (Z * Operation V)) : list (entry V) :=
  match ops with [] => [] | p :: ops' => callE p :: retE p :: entriesOf ops' end.

Lemma rawEntries_number id history : rawEntries id history = entriesOf (number id history).
Proof. revert id. induction history as [|o history IH]; intros id; simpl; [done|]. by rewrite IH. Qed.

Lemma number_snd id history : (number id history).*2 = history.
Proof. revert id. induction history as [|o history IH]; intros id; simpl; [done|]. by f_equal. Qed.

Lemma number_range id history i : i ∈ (number id history).*1 -> id <= i < id + len history.
Proof.
  revert id. induction history as [|o history IH]; intros id; simpl; [by intros ?%elem_of_nil|].
  unfold len in *. simpl. intros [->|H]%elem_of_cons; [lia|]. apply IH in H. lia.
Qed.

Lemma number_NoDup id history : NoDup (number id history).*1.
Proof.
  revert id. induction history as [|o history IH]; intros id; simpl; [constructor|].
  constructor; [|done]. intros H%number_range. lia.
Qed.

Lemma length_entriesOf ops : length (entriesOf ops) = (2 * length ops)%nat.
Proof. induction ops; simpl; lia. Qed.

Lemma elem_of_entriesOf ops e : e ∈ entriesOf ops <-> exists p, p ∈ ops /\ (e = callE p \/ e = retE p).
Proof.
  induction ops as [|p ops IH]; simpl; [split; [by intros ?%elem_of_nil|]; intros (p & []%elem_of_nil & _)|].
  rewrite !elem_of_cons, IH. setoid_rewrite elem_of_cons. naive_solver.
Qed.

Lemma entriesOf_call ops e : e ∈ entriesOf ops -> e_kind e = CallEvent -> exists p, p ∈ ops /\ e = callE p.
Proof. intros (p & Hp & [->| ->])%elem_of_entriesOf Hk; [by exists p|done]. Qed.

Lemma entriesOf_return ops e : e ∈ entriesOf ops -> e_kind e = ReturnEvent -> exists p, p ∈ ops /\ e = retE p.
Proof. intros (p & Hp & [->| ->])%elem_of_entriesOf Hk; [done|by exists p]. Qed.

Lemma entriesOf_in ops p : p ∈ ops -> callE p ∈ entriesOf ops /\ retE p ∈ entriesOf ops.
Proof. intros Hp. split; apply elem_of_entriesOf; eauto. Qed.

Lemma entriesOf_keys ops : NoDup ops.*1 -> NoDup (ekey <$> entriesOf ops).
Proof.
  induction ops as [|p ops IH]; simpl; [constructor|]. intros [Hp Hnd]%NoDup_cons.
  assert (Hk : forall k, (k, p.1) ∉ ekey <$> entriesOf ops).
  { intros k (e & E & (q & Hq & [->| ->])%elem_of_entriesOf)%list_elem_of_fmap; apply Hp;
      injection E as _ ->; by apply list_elem_of_fmap_2. }
  constructor; [|constructor; [apply Hk|by apply IH]]. intros [E|?]%elem_of_cons; [done|]. by apply (Hk CallEvent).
Qed.

(** The entries of the other operations. *)
Lemma entriesOf_filter p ops : p.1 ∉ ops.*1 ->
  filter (fun e => e_id e <> p.1) (entriesOf (p :: ops)) = entriesOf ops.
Proof.
  intros Hp. simpl. rewrite !filter_cons_False by (simpl; tauto).
  revert Hp. induction ops as [|q ops IH]; simpl; [done|]. intros [Hq Hp]%not_elem_of_cons.
  rewrite !filter_cons_True by (simpl; congruence). by rewrite IH.
Qed.

Lemma entriesOf_perm ops ops' : ops ≡ₚ ops' -> entriesOf ops ≡ₚ entriesOf ops'.
Proof.
  induction 1 as [|p ops ops' _ IH|p q ops|ops1 ops2 ops3 _ IH1 _ IH2]; simpl; [done| | |by rewrite IH1].
  - by rewrite IH.
  - exact (Permutation_app_swap_app [_; _] [_; _] (entriesOf ops)).
Qed.
End Entries.

Lemma StronglySorted_filter {A} (R : relation A) (P : A -> Prop) `{!forall x, Decision (P x)} l :
  StronglySorted R l -> StronglySorted R (filter P l).
Proof.
  induction 1 as [|x l Hl IH Hx]; [constructor|]. rewrite filter_cons. case_decide; [|done].
  constructor; [done|]. rewrite Forall_forall in *. intros y [_ Hy]%list_elem_of_filter. by apply Hx.
Qed.

(** ** Sorted entries of a history whose operations return after their call *)
Section Sorted.
Context {V : Type}.
Implicit Types (p : Z * Operation V) (l : list (entry V)).

Definition entries_for l (ops : list (Z * Operation V)) : Prop :=
  l ≡ₚ entriesOf ops /\ StronglySorted (fun a b => e_time a <= e_time b) l /\ NoDup ops.*1 /\
  forall p, p ∈ ops -> CallTime p.2 < ReturnTime p.2.

Lemma sorted_split l1 c l2 x y :
  StronglySorted (fun a b : entry V => e_time a <= e_time b) (l1 ++ c :: l2) ->
  x ∈ l1 ++ [c] -> y ∈ c :: l2 -> e_time x <= e_time y.
Proof.
  intros Hs Hx Hy. apply elem_of_app in Hx as [Hx|Hx].
  - exact (StronglySorted_app_1_elem_of _ _ _ x y Hs Hx Hy).
  - apply list_elem_of_singleton in Hx as ->. apply elem_of_cons in Hy as [->|Hy]; [lia|].
    apply StronglySorted_app_1_r in Hs. apply StronglySorted_inv in Hs as [_ Hs].
    rewrite Forall_forall in Hs. by apply Hs.
Qed.

(** A return that does not come before a call is listed after it. *)
Lemma return_after ops l1 l2 p q :
  entries_for (l1 ++ callE p :: l2) ops -> p ∈ ops -> q ∈ ops ->
  (CallTime p.2 < ReturnTime q.2 \/ Forall (fun e => e_kind e = CallEvent) l1) -> retE q ∈ l2.
Proof.
  intros (Hperm & Hs & _ & _) Hp Hq Hor.
  assert (Hin : retE q ∈ l1 ++ callE p :: l2) by (rewrite Hperm; by apply entriesOf_in).
  apply elem_of_app in Hin as [Hin|[E|?]%elem_of_cons]; [|done|done]. exfalso.
  destruct Hor as [Hlt|Hf].
  - pose proof (sorted_split _ _ _ (retE q) (callE p) Hs) as H.
    specialize (H ltac:(apply elem_of_app; by left) ltac:(left)). simpl in H. lia.
  - rewrite Forall_forall in Hf. by specialize (Hf _ Hin).
Qed.

Lemma entries_for_wf l ops : entries_for l ops -> wf_entries l.
Proof.
  intros Hl. pose proof Hl as (Hperm & Hs & Hnd & Hlt). split.
  - intros l1 c l2 -> Hc. assert (Hin : c ∈ entriesOf ops) by (rewrite <- Hperm; set_solver).
    destruct (entriesOf_call _ _ Hin Hc) as (p & Hp & ->). exists (retE p). split_and!; [|done..].
    eapply return_after; eauto.
  - rewrite Hperm. by apply entriesOf_keys.
Qed.

(** The entries left when an operation is taken out. *)
Lemma entries_for_remove l p ops :
  entries_for l (p :: ops) -> entries_for (filter (fun e => e_id e <> p.1) l) ops.
Proof.
  intros (Hperm & Hs & Hnd & Hlt). apply NoDup_cons in Hnd as [Hp Hnd]. split_and!.
  - rewrite Hperm. by rewrite entriesOf_filter.
  - by apply StronglySorted_filter.
  - done.
  - intros q Hq. apply Hlt. by right.
Qed.
End Sorted.

Lemma entries_for_perm {V} (l : list (entry V)) ops ops' :
  ops ≡ₚ ops' -> entries_for l ops -> entries_for l ops'.
Proof.
  intros Hp (Hperm & Hs & Hnd & Hlt). split_and!; [|done| |].
  - rewrite Hperm. by apply entriesOf_perm.
  - by rewrite <- Hp.
  - intros p. rewrite <- Hp. apply Hlt.
Qed.

(** ** Entries linearize exactly when the operations do *)
Section Equivalence.
Context {V St : Type} (model : Model V St).
Implicit Types (p : Z * Operation V) (l : list (entry V)).

Lemma linearizes_legal l s : linearizes model l s -> forall ops, entries_for l ops ->
  exists ops', ops' ≡ₚ ops /\ legal model s ops'.*2 /\ StronglySorted may_precede ops'.*2.
Proof.
  induction 1 as [s|l1 c l2 r s s' Hl1 Hc Hr Hk Hid Hst _ IH]; intros ops Hl.
  { destruct Hl as (Hperm & _). destruct ops as [|p ops]; [|by apply Permutation_nil_l in Hperm].
    exists []. repeat constructor. }
  pose proof Hl as (Hperm & Hs & Hnd & _).
  destruct (entriesOf_call ops c) as (p & Hp & ->); [rewrite <- Hperm; set_solver|done|].
  destruct (entriesOf_return ops r) as (q & Hq & ->); [rewrite <- Hperm; set_solver|done|].
  assert (q = p) as -> by (by apply (NoDup_fmap_elem fst ops)).
  apply elem_of_Permutation in Hp as [ops1 Hops].
  pose proof (entries_for_perm _ _ _ Hops Hl) as Hl'. apply entries_for_remove in Hl'.
  destruct (IH _ Hl') as (ops2 & Hp2 & Hleg & Hss). exists (p :: ops2). split_and!.
  - by rewrite Hp2.
  - exists s'. done.
  - rewrite fmap_cons. constructor; [done|]. rewrite Forall_forall.
    intros o ([i b] & -> & Hb)%list_elem_of_fmap. rewrite Hp2 in Hb.
    assert (Hret : retE (i, b) ∈ l2) 
      by (eapply return_after; [exact Hl|rewrite Hops; by left|rewrite Hops; by right|by right]).
    unfold may_precede. apply (sorted_split l1 (callE p) l2 (callE p) (retE (i, b)) Hs); set_solver.
Qed.

Lemma legal_linearizes ops : forall l s, entries_for l ops ->
  (forall p q, p ∈ ops -> q ∈ ops -> ReturnTime q.2 <> CallTime p.2) ->
  legal model s ops.*2 -> StronglySorted may_precede ops.*2 -> linearizes model l s.
Proof.
  induction ops as [|p ops IH]; intros l s Hl Hties Hleg Hss.
  { destruct Hl as (Hperm & _). apply Permutation_nil_r in Hperm as ->. constructor. }
  pose proof Hl as (Hperm & Hs & Hnd & Hlt).
  destruct Hleg as (s' & Hst & Hleg). apply StronglySorted_inv in Hss as [Hss Hmay].
  assert (Hc : callE p ∈ l) by (rewrite Hperm; apply entriesOf_in; left).
  apply list_elem_of_split in Hc as (l1 & l2 & ->).
  eapply (linearizes_step model l1 (callE p) l2 (retE p)); try done.
  - rewrite Forall_forall. intros e He. destruct (e_kind e) eqn:Hk; [done|exfalso].
    destruct (entriesOf_return (p :: ops) e) as (q & Hq & ->); [rewrite <- Hperm; set_solver|done|].
    pose proof (sorted_split l1 (callE p) l2 (retE q) (callE p) Hs) as Hle.
    specialize (Hle ltac:(set_solver) ltac:(left)). simpl in Hle.
    specialize (Hties p q ltac:(left) Hq). apply elem_of_cons in Hq as [->|Hq].
    + specialize (Hlt p ltac:(left)). lia.
    + rewrite Forall_forall in Hmay. specialize (Hmay q.2 ltac:(by apply list_elem_of_fmap_2)).
      unfold may_precede in Hmay. lia.
  - eapply return_after; [exact Hl|left|left|]. left. apply Hlt. left.
  - apply IH; [by apply entries_for_remove| |done|done].
    intros q1 q2 H1 H2. apply Hties; by right.
Qed.

(** Operations return after their call. *)
Definition proper_times (history : list (Operation V)) : Prop :=
  forall o, o ∈ history -> CallTime o < ReturnTime o.

(** No operation returns at the very moment at which one is called. *)
Definition no_ties (history : list (Operation V)) : Prop :=
  forall a b, a ∈ history -> b ∈ history -> ReturnTime b <> CallTime a.

Lemma makeEntries_for sort history : sorts sort -> proper_times history ->
  entries_for (makeEntries sort history) (number 0 history).
Proof.
  intros Hsort Ht. unfold makeEntries. destruct (Hsort (rawEntries 0 history)) as [Hp Hs]. split_and!.
  - by rewrite Hp, rawEntries_number.
  - clear -Hs. induction Hs as [|a l _ IH Ha]; constructor; [done|].
    eapply Forall_impl; [exact Ha|]. intros b Hb. by apply Z.ltb_ge in Hb.
  - apply number_NoDup.
  - intros p Hp'. apply Ht. rewrite <- (number_snd 0 history). by apply list_elem_of_fmap_2.
Qed.

Lemma makeEntries_sound sort history : sorts sort -> proper_times history ->
  linearizes model (makeEntries sort history) (Init model) -> linearizable model history.
Proof.
  intros Hsort Ht Hlin. destruct (linearizes_legal _ _ Hlin _ (makeEntries_for _ _ Hsort Ht)) as (ops & Hp & ? & ?).
  exists ops.*2. split_and!; try done. by rewrite Hp, number_snd.
Qed.

Lemma makeEntries_complete sort history : sorts sort -> proper_times history -> no_ties history ->
  linearizable model history -> linearizes model (makeEntries sort history) (Init model).
Proof.
  intros Hsort Ht Hties (ops & Hp & Hleg & Hss).
  rewrite <- (number_snd 0 history) in Hp.
  destruct (Permutation_map_inv snd (number 0 history) Hp) as (ops' & -> & Hp').
  assert (Hin : forall p, p ∈ ops' -> p.2 ∈ history).
  { intros p. rewrite <- Hp'. rewrite <- (number_snd 0 history) at 2. apply list_elem_of_fmap_2. }
  apply (legal_linearizes ops'); try done.
  - by apply (entries_for_perm _ _ _ Hp'), makeEntries_for.
  - intros p q Hp1 Hq1. apply Hties; by apply Hin.
Qed.
End Equivalence.

(** ** One partition *)
Section Decide.
Context {V St : Type} `{EqDecision St} (sort : list (entry V) -> list (entry V)).
Context (model : Model V St).
Hypothesis Hsort : sorts sort.

(** What the checker needs of the model: [Step] answers for every operation in
    every state, and states that [Equal] identifies are the same. *)
Record lawful (history : list (Operation V)) : Prop := {
  step_total : forall s o, o ∈ history -> exists ok s', Step model s (Input o) (Output o) = Ret (ok, s');
  equal_same : forall s s', default ShallowEqual (Equal model) s s' = true -> s = s'
}.

Lemma makeEntries_ready history : lawful history -> proper_times history ->
  let es := makeEntries sort history in
  wf_entries es /\ (forall e, e ∈ es -> 0 <= e_id e < Z.quot (len es) 2) /\
  (forall s c r, c ∈ es -> r ∈ es -> e_kind c = CallEvent -> e_kind r = ReturnEvent -> e_id r = e_id c ->
    exists ok s', Step model s (e_value c) (e_value r) = Ret (ok, s')).
Proof.
  intros [Htot _] Ht es. pose proof (makeEntries_for sort history Hsort Ht) as Hes. fold es in Hes.
  split; [by eapply entries_for_wf|]. destruct Hes as (Hp & _ & Hnd & _). split.
  - intros e He. rewrite Hp in He.
    assert (len es = 2 * len history) as ->.
    { unfold len. rewrite Hp, length_entriesOf, <- (length_fmap snd), number_snd. lia. }
    rewrite Z.mul_comm, Z.quot_mul by lia.
    apply elem_of_entriesOf in He as (p & Hin & [->| ->]); simpl; apply (number_range 0);
      by apply list_elem_of_fmap_2.
  - intros s c r Hc Hr Hkc Hkr Hid. rewrite Hp in Hc, Hr.
    destruct (entriesOf_call _ _ Hc Hkc) as (p & Hpin & ->).
    destruct (entriesOf_return _ _ Hr Hkr) as (q & Hqin & ->).
    assert (q = p) as -> by (by apply (NoDup_fmap_elem fst (number 0 history))).
    apply Htot. rewrite <- (number_snd 0 history). by apply list_elem_of_fmap_2.
Qed.

Lemma checkPartition_decides history : lawful history -> proper_times history -> no_ties history ->
  exists fuel0 res, (res = true <-> linearizable model history) /\
  forall fuel, (fuel0 <= fuel)%nat ->
    checkPartition fuel (fun _ => 0) model (makeEntries sort history) = Ret (Some res).
Proof.
  intros Hlaw Ht Hties. destruct (makeEntries_ready history Hlaw Ht) as (Hwf & Hids & Htot).
  destruct (checkSingle_correct model (default ShallowEqual (Equal model)) (makeEntries sort history))
    as (f0 & res & Hres & Hrun); try done; [apply Hlaw|].
  exists f0, res. split; [|done]. rewrite Hres. split; [by apply makeEntries_sound|by apply makeEntries_complete].
Qed.

Lemma checkPartition_sound history fuel kill : lawful history -> proper_times history ->
  checkPartition fuel kill model (makeEntries sort history) = Ret (Some true) -> linearizable model history.
Proof.
  intros Hlaw Ht Hrun. destruct (makeEntries_ready history Hlaw Ht) as (Hwf & Hids & Htot).
  apply (makeEntries_sound model sort); try done.
  eapply checkSingle_sound; try done. apply Hlaw.
Qed.
End Decide.

(** ** Collecting the answers *)
Lemma collect_results bs : forall total count, count + len bs = total -> 0 <= count -> bs <> [] ->
  collect total count true (Result <$> bs) = Ret (forallb id bs).
Proof.
  induction bs as [|b bs IH]; intros total count Hlen Hc Hne; [done|].
  rewrite fmap_cons. cbn [collect]. cbn [andb forallb]. destruct b; [|done]. cbn [negb id].
  unfold len in *. simpl in Hlen. destruct (Z.leb_spec total (count + 1)) as [Hle|Hlt].
  - destruct bs; [done|]. simpl in *. lia.
  - apply IH; [lia|lia|]. intros ->. simpl in *. lia.
Qed.

(** Collecting answers false only when a partition did. *)
Lemma collect_false total count arrivals : collect total count true arrivals = Ret false ->
  Result false ∈ arrivals.
Proof.
  revert count. induction arrivals as [|[b|] arrivals IH]; intros count Hc; simpl in Hc; try done.
  destruct b; [|left]. simpl in Hc. destruct (total <=? count + 1); [done|]. right. by eapply IH.
Qed.

Lemma omap_lookup_seq {A} (bs : list A) : omap (fun k => bs !! k) (seq 0 (length bs)) = bs.
Proof.
  assert (Hgen : forall pre, omap (fun k => (pre ++ bs) !! k) (seq (length pre) (length bs)) = bs); [|exact (Hgen [])].
  induction bs as [|b bs IH]; intros pre; [done|]. cbn [length seq omap list_omap].
  rewrite lookup_app_r, Nat.sub_diag by lia. cbn. f_equal.
  specialize (IH (pre ++ [b])). rewrite <- app_assoc, length_app, Nat.add_comm in IH. exact IH.
Qed.

Lemma arrivals_of_order bs order : order ≡ₚ seq 0 (length bs) ->
  exists bs', bs' ≡ₚ bs /\
    arrivals_of ((fun b => Ret (Some b)) <$> bs) (Some <$> order) = Result <$> bs'.
Proof.
  intros Hord. exists (omap (fun k => bs !! k) order). split.
  - rewrite Hord. by rewrite omap_lookup_seq.
  - clear Hord. unfold arrivals_of. induction order as [|k order IH]; [done|].
    rewrite fmap_cons. cbn [omap list_omap]. rewrite list_lookup_fmap.
    destruct (bs !! k) as [b|]; cbn [fmap option_fmap option_map]; [|exact IH].
    rewrite fmap_cons. by f_equal.
Qed.

(** The answers of all partitions, with fuel that is enough for each. *)
Section Partitions.
Context {A : Type} (run : nat -> A -> outcome (option bool)) (Q : A -> Prop).

Definition decides (sub : A) : Prop := exists fuel0 res, (res = true <-> Q sub) /\
  forall fuel, (fuel0 <= fuel)%nat -> run fuel sub = Ret (Some res).

Lemma partitions_decided parts : (forall sub, sub ∈ parts -> decides sub) ->
  exists fuel0 bs, Forall2 (fun sub b => b = true <-> Q sub) parts bs /\
  forall fuel, (fuel0 <= fuel)%nat -> run fuel <$> parts = (fun b => Ret (Some b)) <$> bs.
Proof.
  induction parts as [|sub parts IH]; intros Hok; [by exists O, []|].
  destruct IH as (f1 & bs & Hbs & Hrun); [intros; apply Hok; by right|].
  destruct (Hok sub) as (f2 & b & Hb & Hrun2); [left|].
  exists (Nat.max f1 f2), (b :: bs). split; [by constructor|]. intros fuel Hf.
  rewrite !fmap_cons, Hrun, Hrun2 by lia. done.
Qed.

Lemma collect_decides parts order :
  (forall sub, sub ∈ parts -> decides sub) -> parts <> [] -> order ≡ₚ seq 0 (length parts) ->
  exists fuel0 res, (res = true <-> forall sub, sub ∈ parts -> Q sub) /\
  forall fuel, (fuel0 <= fuel)%nat ->
    collect (len parts) 0 true (arrivals_of (run fuel <$> parts) (Some <$> order)) = Ret res.
Proof.
  intros Hok Hne Hord. destruct (partitions_decided parts Hok) as (f0 & bs & Hbs & Hrun).
  pose proof (Forall2_length _ _ _ Hbs) as Hlen. rewrite Hlen in Hord.
  destruct (arrivals_of_order bs order Hord) as (bs' & Hp & Harr).
  exists f0, (forallb id bs'). split.
  - rewrite forallb_forall. split.
    + intros Hall sub [i Hi]%list_elem_of_lookup. destruct (Forall2_lookup_l _ _ _ _ _ Hbs Hi) as (b & Hb & Hiff).
      apply Hiff, (Hall b), list_elem_of_In. rewrite Hp. by eapply list_elem_of_lookup_2.
    + intros Hall b Hb. apply list_elem_of_In in Hb. rewrite Hp in Hb. apply list_elem_of_lookup in Hb as [i Hi].
      destruct (Forall2_lookup_r _ _ _ _ _ Hbs Hi) as (sub & Hsub & Hiff).
      apply Hiff, Hall. by eapply list_elem_of_lookup_2.
  - intros fuel Hf. rewrite Hrun, Harr by done. apply collect_results; [|lia|].
    + unfold len. rewrite (Permutation_length Hp). lia.
    + intros ->. apply Permutation_length in Hp. simpl in Hp. apply Hne, nil_length_inv. lia.
Qed.
End Partitions.

(** [fillDefault] leaves the search as it is. *)
Lemma checkPartition_fillDefault {V} `{EqDecision St} fuel kill (model : Model V St) es :
  checkPartition fuel kill (fillDefault model) es = checkPartition fuel kill model es.
Proof.
  unfold checkPartition, checkSingle. destruct (makeLinkedEntries es) as [[[ns h] root] ms]. cbn [fst].
  change (default ShallowEqual (Equal (fillDefault model))) with (default ShallowEqual (Equal model)).
  change (Init (fillDefault model)) with (Init model).
  generalize (mkSearch (insertBefore (length ns) root h) root
    (newBitset (Z.quot (lengthLoop (length ns) h root) 2)) ∅ [] (Init model)) as c.
  induction fuel as [|fuel IH]; intros c; [done|]. cbn [checkLoop].
  destruct (_ !! length ns); [|done]. destruct (negb _); [done|].
  change (checkBody (fillDefault model)) with (checkBody model).
  destruct (checkBody model _ _ _ c) as [[c'|]| |]; [apply IH|done..].
Qed.

(** ** All partitions *)
Section Operations.
Context {V St : Type} `{EqDecision St} (sort : list (entry V) -> list (entry V)).
Context (model : Model V St) (history : list (Operation V)) (parts : list (list (Operation V))).
Hypothesis Hsort : sorts sort.
Hypothesis Hparts : default NoPartition (Partition model) history = Ret parts.
Hypothesis Hok : forall sub, sub ∈ parts -> lawful model sub /\ proper_times sub /\ no_ties sub.

Lemma CheckOperations_eq fuel kill schedule :
  CheckOperationsTimeout sort fuel kill model history schedule =
  collect (len parts) 0 true (arrivals_of
    ((fun sub => checkPartition fuel kill model (makeEntries sort sub)) <$> parts) schedule).
Proof.
  unfold CheckOperationsTimeout.
  replace (default NoPartition (Partition (fillDefault model)) history) with (Ret parts)
    by (symmetry; exact Hparts).
  cbn [mbind outcome_bind]. do 2 f_equal. apply list_fmap_ext. intros i sub _.
  apply checkPartition_fillDefault.
Qed.

Lemma CheckOperations_correct order : parts <> [] -> order ≡ₚ seq 0 (length parts) ->
  exists fuel0 res, (res = true <-> forall sub, sub ∈ parts -> linearizable model sub) /\
  forall fuel, (fuel0 <= fuel)%nat -> CheckOperations sort fuel (fun _ => 0) model history order = Ret res.
Proof.
  intros Hne Hord. destruct (collect_decides
    (fun fuel sub => checkPartition fuel (fun _ => 0) model (makeEntries sort sub)) (linearizable model)
    parts order) as (f0 & res & Hres & Hrun); try done.
  - intros sub (Hl & Ht & Hn)%Hok. by apply checkPartition_decides.
  - exists f0, res. split; [done|]. intros fuel Hf. unfold CheckOperations.
    rewrite CheckOperations_eq. by apply Hrun.
Qed.

(** An answer false is definite, also with a timeout. *)
Lemma CheckOperationsTimeout_refutes fuel schedule :
  CheckOperationsTimeout sort fuel (fun _ => 0) model history schedule = Ret false ->
  exists sub, sub ∈ parts /\ ~ linearizable model sub.
Proof.
  rewrite CheckOperations_eq. intros Hin%collect_false.
  apply list_elem_of_omap in Hin as ([k|] & _ & Hk); [|done].
  rewrite list_lookup_fmap in Hk. destruct (parts !! k) as [sub|] eqn:E; [|done]. simpl in Hk.
  assert (Hsub : sub ∈ parts) by (by eapply list_elem_of_lookup_2). exists sub. split; [done|].
  destruct (Hok sub Hsub) as (Hl & Ht & Hn).
  destruct (checkPartition_decides sort model Hsort sub Hl Ht Hn) as (f0 & res & Hres & Hrun).
  destruct (checkPartition fuel (fun _ => 0) model (makeEntries sort sub)) as [[b|]| |] eqn:Ec; try done.
  injection Hk as ->. specialize (Hrun (Nat.max fuel f0) ltac:(lia)).
  assert (Hmono : checkPartition (Nat.max fuel f0) (fun _ => 0) model (makeEntries sort sub) = Ret (Some false)).
  { unfold checkPartition, checkSingle in *. destruct (makeLinkedEntries _) as [[[ns h] root] ms]. cbn [fst] in *.
    eapply checkLoop_fuel; [exact Ec|lia]. }
  rewrite Hmono in Hrun. injection Hrun as <-. rewrite <- Hres. done.
Qed.
End Operations.
