(* ===== verification/LinKV.v ===== *)
(** * The checker on key/value histories, and its theorems

    The key/value model checks every key by itself.  Its answer is that of the
    whole history as a history of a store that maps keys to strings: histories
    of single keys can be interleaved, because an operation that returns first
    never has to wait for an operation on another key. *)

From stdpp Require Import base functions list list_numbers gmap strings sorting.
From S2P Require Import Prelude Bitset LinCheck LinList LinSearch LinHistory.
Open Scope Z_scope.

(** ** A store of all keys *)
Definition op_key (o : Operation KvValue) : string :=
  match Input o with KvIn i => ki_Key i | KvOut _ => "" end.

(** The dynamic types of a key/value history. *)
Definition kv_typed (o : Operation KvValue) : Prop :=
  exists i out, Input o = KvIn i /\ Output o = KvOut out.

Definition store_get (m : gmap string string) (k : string) : string := default "" (m !! k).

Definition StoreStep (m : gmap string string) (input output : KvValue)
    : outcome (bool * gmap string string) :=
  match input with
  | KvIn i => '(ok, s) ← KvStep (store_get m (ki_Key i)) input output; Ret (ok, <[ki_Key i := s]> m)
  | KvOut _ => Panic
  end.

Definition StoreModel : Model KvValue (gmap string string) := mkModel None None ∅ StoreStep None.

Lemma StoreStep_legal m o m' : StoreStep m (Input o) (Output o) = Ret (true, m') <->
  kv_typed o /\ exists s, KvStep (store_get m (op_key o)) (Input o) (Output o) = Ret (true, s) /\
    m' = <[op_key o := s]> m.
Proof.
  unfold StoreStep, op_key, kv_typed. destruct (Input o) as [i|]; [|naive_solver].
  destruct (Output o) as [|out]; [naive_solver|].
  destruct (KvStep _ _ _) as [[ok s]| |]; cbn; naive_solver.
Qed.

(** ** Histories of one key *)
Definition of_key (k : string) (history : list (Operation KvValue)) : list (Operation KvValue) :=
  filter (fun o => op_key o = k) history.

#[export] Instance of_key_Permutation k : Proper ((≡ₚ) ==> (≡ₚ)) (of_key k).
Proof. intros l1 l2 Hp. unfold of_key. by rewrite Hp. Qed.

(** A legal order of all operations is legal for every key. *)
Lemma legal_of_key k ops : forall m, legal StoreModel m ops -> legal KvModel (store_get m k) (of_key k ops).
Proof.
  induction ops as [|o ops IH]; intros m; [done|]. intros (m' & (_ & s & Hst & ->)%StoreStep_legal & Hleg).
  apply IH in Hleg. unfold of_key in *. rewrite filter_cons. case_decide as E.
  - exists s. subst k. unfold store_get in *. rewrite lookup_insert_eq in Hleg. done.
  - unfold store_get in *. by rewrite lookup_insert_ne in Hleg.
Qed.

Lemma exists_min {A} (f : A -> Z) (l : list A) : l <> [] -> exists x, x ∈ l /\ forall y, y ∈ l -> f x <= f y.
Proof.
  induction l as [|a l IH]; [done|]. intros _. destruct l as [|b l].
  { exists a. split; [left|]. intros y ->%list_elem_of_singleton. lia. }
  destruct IH as (x & Hx & Hmin); [done|]. destruct (decide (f a <= f x)).
  - exists a. split; [left|]. intros y [->|Hy]%elem_of_cons; [lia|]. specialize (Hmin y Hy). lia.
  - exists x. split; [by right|]. intros y [->|Hy]%elem_of_cons; [lia|]. by apply Hmin.
Qed.

(** Orders for every key can be merged: the next operation is the first one of
    the key whose operation returns first. *)
Lemma merge_keys n : forall history (order : string -> list (Operation KvValue)) m,
  length history = n -> proper_times history -> (forall o, o ∈ history -> kv_typed o) ->
  (forall k, order k ≡ₚ of_key k history /\ legal KvModel (store_get m k) (order k) /\
    StronglySorted may_precede (order k)) ->
  exists ops, ops ≡ₚ history /\ legal StoreModel m ops /\ StronglySorted may_precede ops.
Proof.
  induction n as [|n IH]; intros history order m Hn Ht Hty Hord.
  { apply nil_length_inv in Hn as ->. exists []. repeat constructor. }
  destruct (exists_min ReturnTime history) as (o & Ho & Hmin); [by intros ->|].
  destruct (Hord (op_key o)) as (Hp & Hleg & Hss).
  assert (Hin : forall x, x ∈ order (op_key o) <-> op_key x = op_key o /\ x ∈ history)
    by (intros x; rewrite Hp; unfold of_key; by rewrite list_elem_of_filter).
  assert (Hoin : o ∈ order (op_key o)) by (by apply Hin).
  destruct (order (op_key o)) as [|f rest] eqn:Eo; [by apply elem_of_nil in Hoin|].
  destruct Hleg as (s & Hst & Hleg). apply StronglySorted_inv in Hss as [Hss Hf].
  destruct (proj1 (Hin f) ltac:(left)) as [Hkf Hfh].
  apply elem_of_Permutation in Hfh as [history' Hh].
  assert (Hsub : forall x, x ∈ history' -> x ∈ history) by (intros x Hx; rewrite Hh; by right).
  assert (Hfh : f ∈ history) by (rewrite Hh; left).
  destruct (IH history' (<[op_key o := rest]> order) (<[op_key o := s]> m)) as (ops & Hops & Hlegal & Hsorted).
  - rewrite Hh in Hn. simpl in Hn. lia.
  - intros x Hx. by apply Ht, Hsub.
  - intros x Hx. by apply Hty, Hsub.
  - intros k. destruct (decide (op_key o = k)) as [<-|Hne].
    + rewrite fn_lookup_insert. unfold store_get in *. rewrite lookup_insert_eq. split_and!; [|done..].
      apply (Permutation_cons_inv (a := f)). rewrite Hp, Hh. unfold of_key. by rewrite filter_cons_True.
    + rewrite fn_lookup_insert_ne by done. unfold store_get in *. rewrite lookup_insert_ne by done.
      destruct (Hord k) as (Hpk & ? & ?). split_and!; [|done..]. rewrite Hpk, Hh. unfold of_key.
      by rewrite filter_cons_False by congruence.
  - exists (f :: ops). split_and!.
    + by rewrite Hops, Hh.
    + exists (<[op_key o := s]> m). split; [|done]. apply StoreStep_legal. split; [by apply Hty|].
      exists s. by rewrite Hkf.
    + constructor; [done|]. rewrite Forall_forall. intros b Hb. rewrite Hops in Hb. apply Hsub in Hb.
      specialize (Hmin b Hb). unfold may_precede. specialize (Ht f Hfh).
      apply elem_of_cons in Hoin as [->|Hoin]; [lia|].
      rewrite Forall_forall in Hf. specialize (Hf o Hoin). unfold may_precede in Hf. lia.
Qed.

Lemma kv_local history : proper_times history -> (forall o, o ∈ history -> kv_typed o) ->
  linearizable StoreModel history <-> forall k, linearizable KvModel (of_key k history).
Proof.
  intros Ht Hty. split.
  - intros (ops & Hp & Hleg & Hss) k. exists (of_key k ops). split_and!.
    + by rewrite Hp.
    + exact (legal_of_key k ops ∅ Hleg).
    + by apply StronglySorted_filter.
  - intros Hall. (* choose an order for the keys that occur *)
    assert (Hfin : forall ks : list string, exists order : string -> list (Operation KvValue), forall k, k ∈ ks ->
      order k ≡ₚ of_key k history /\ legal KvModel "" (order k) /\ StronglySorted may_precede (order k)).
    { induction ks as [|k ks (order & IH)]; [exists (fun _ => []); by intros k ?%elem_of_nil|].
      destruct (Hall k) as (ops & Hops). exists (<[k := ops]> order). intros k' Hk'.
      destruct (decide (k = k')) as [<-|Hne]; [by rewrite fn_lookup_insert|].
      rewrite fn_lookup_insert_ne by done. apply IH. set_solver. }
    destruct (Hfin (op_key <$> history)) as (order & Hord).
    apply (merge_keys (length history) history
      (fun k => if decide (k ∈ op_key <$> history) then order k else [])); try done.
    intros k. case_decide as E; [by apply Hord|]. split_and!; [|done|constructor].
    unfold of_key. destruct (filter _ history) as [|o l] eqn:Ef; [done|]. exfalso. apply E.
    assert (Ho : o ∈ filter (fun o => op_key o = k) history) by (rewrite Ef; left).
    apply list_elem_of_filter in Ho as [<- Ho]. by apply list_elem_of_fmap_2.
Qed.

(** ** The partition by key *)
Lemma KvPartitionLoop_spec history : (forall o, o ∈ history -> kv_typed o) -> forall m,
  exists m', KvPartitionLoop history m = Ret m' /\
    forall k, default [] (m' !! k) = default [] (m !! k) ++ of_key k history.
Proof.
  induction history as [|o history IH]; intros Hty m.
  { exists m. split; [done|]. intros k. unfold of_key. by rewrite filter_nil, app_nil_r. }
  destruct (Hty o ltac:(left)) as (i & out & Hi & Ho). cbn [KvPartitionLoop]. rewrite Hi.
  destruct (IH ltac:(intros; apply Hty; by right) (<[ki_Key i := default [] (m !! ki_Key i) ++ [o]]> m))
    as (m' & Hrun & Hm'). exists m'. split; [done|]. intros k. rewrite Hm'. unfold of_key. rewrite filter_cons.
  assert (op_key o = ki_Key i) as E by (unfold op_key; by rewrite Hi). rewrite E. case_decide as Ek.
  - subst k. rewrite lookup_insert_eq. cbn. by rewrite <- app_assoc.
  - by rewrite lookup_insert_ne.
Qed.

Lemma KvPartition_spec history : (forall o, o ∈ history -> kv_typed o) ->
  exists parts, KvPartition history = Ret parts /\ (history <> [] -> parts <> []) /\
    (forall sub, sub ∈ parts -> exists k, sub = of_key k history) /\
    forall k, of_key k history ∈ parts \/ of_key k history = [].
Proof.
  intros Hty. destruct (KvPartitionLoop_spec history Hty ∅) as (m & Hrun & Hm).
  assert (Hlook : forall k sub, m !! k = Some sub -> sub = of_key k history).
  { intros k sub Hk. specialize (Hm k). by rewrite Hk, lookup_empty in Hm. }
  exists (map_to_list m).*2. unfold KvPartition. rewrite Hrun. split; [done|]. split_and!.
  - intros Hne. destruct history as [|o history]; [done|]. specialize (Hm (op_key o)).
    unfold of_key in Hm. rewrite filter_cons_True, lookup_empty in Hm by done. intros E.
    destruct (m !! op_key o) as [sub|] eqn:Ek; [|done]. apply elem_of_map_to_list in Ek.
    apply (list_elem_of_fmap_2 snd) in Ek. rewrite E in Ek. by apply elem_of_nil in Ek.
  - intros sub ([k sub'] & -> & Hin)%list_elem_of_fmap. apply elem_of_map_to_list in Hin. eauto.
  - intros k. destruct (m !! k) as [sub|] eqn:Ek.
    + left. rewrite <- (Hlook _ _ Ek). apply elem_of_map_to_list in Ek. by apply (list_elem_of_fmap_2 snd) in Ek.
    + right. specialize (Hm k). by rewrite Ek, lookup_empty in Hm.
Qed.

Lemma linearizable_nil {V St} (model : Model V St) : linearizable model [].
Proof. exists []. repeat constructor. Qed.

Lemma kv_lawful history : (forall o, o ∈ history -> kv_typed o) -> lawful KvModel history.
Proof.
  intros Hty. split.
  - intros s o (i & out & Hi & Ho)%Hty. cbn. rewrite Hi, Ho. unfold KvStep.
    destruct (ki_Op i =? 0); [eauto|]. destruct (ki_Op i =? 1); eauto.
  - intros s s'. cbn. unfold ShallowEqual. apply bool_decide_eq_true_1.
Qed.

(** ** A sort and histories for the witnesses *)
Definition le_time {V} (a b : entry V) : Prop := Less b a = false.
#[export] Instance le_time_dec {V} : RelDecision (@le_time V).
Proof. intros a b. unfold le_time. apply _. Defined.
#[export] Instance le_time_trans {V} : Transitive (@le_time V).
Proof. intros a b c. unfold le_time, Less. rewrite !Z.ltb_ge. lia. Qed.
#[export] Instance le_time_total {V} : Total (@le_time V).
Proof. intros a b. unfold le_time, Less. rewrite !Z.ltb_ge. lia. Qed.

Definition time_sort {V} : list (entry V) -> list (entry V) := merge_sort le_time.

Lemma time_sort_sorts {V} : sorts (@time_sort V).
Proof. intros l. split; [apply merge_sort_Permutation|]. by apply StronglySorted_merge_sort; apply _. Qed.

Definition put (k v : string) (call ret : Z) : Operation KvValue :=
  mkOperation (KvIn (mkKvInput 1 k v)) call (KvOut (mkKvOutput "")) ret.
Definition got (k v : string) (call ret : Z) : Operation KvValue :=
  mkOperation (KvIn (mkKvInput 0 k "")) call (KvOut (mkKvOutput v)) ret.

(** The second read of "x" overlaps the write of "2"; the read of "y" starts
    before and ends after everything else. *)
Definition good_history : list (Operation KvValue) :=
  [put "x" "1" 1 4; got "y" "" 0 20; put "x" "2" 5 12; got "x" "2" 6 8; got "x" "2" 9 15].

(** Its operations on "x". *)
Definition x_history : list (Operation KvValue) :=
  [put "x" "1" 1 4; put "x" "2" 5 12; got "x" "2" 6 8; got "x" "2" 9 15].

(** The same with a read that goes back. *)
Definition stale_history : list (Operation KvValue) :=
  [put "x" "1" 1 4; put "x" "2" 5 12; got "x" "2" 6 8; got "x" "1" 9 15].

(** Facts about all elements of a concrete list. *)
Ltac each_op :=
  unfold good_history, stale_history, x_history in *; repeat match goal with
  | |- forall _, _ ∈ _ -> _ => intros ? ?
  | H : _ ∈ _ :: _ |- _ => apply elem_of_cons in H as [->|H]
  | H : _ ∈ [] |- _ => by apply elem_of_nil in H
  end.

(** The answer of the partitions is the answer for the whole history. *)
Lemma kv_decides (sort : list (entry KvValue) -> list (entry KvValue))
    (history : list (Operation KvValue)) :
  sorts sort -> (forall o, o ∈ history -> kv_typed o) -> proper_times history -> no_ties history ->
  history <> [] ->
  exists parts, KvPartition history = Ret parts /\ forall order, order ≡ₚ seq 0 (length parts) ->
  exists fuel0 res, (res = true <-> linearizable StoreModel history) /\
    forall fuel, (fuel0 <= fuel)%nat ->
      CheckOperations sort fuel (fun _ => 0) KvModel history order = Ret res.
Proof.
  intros Hsort Hty Ht Hties Hne. destruct (KvPartition_spec history Hty) as (parts & Hparts & Hpne & Hsub & Hall).
  exists parts. split; [done|]. intros order Hord.
  assert (Hin : forall k o, o ∈ of_key k history -> o ∈ history)
    by (intros k o; unfold of_key; rewrite list_elem_of_filter; tauto).
  destruct (CheckOperations_correct sort KvModel history parts Hsort Hparts) with (order := order)
    as (f0 & res & Hres & Hrun); [|by apply Hpne|done|].
  - intros sub (k & ->)%Hsub. split_and!.
    + apply kv_lawful. intros o Ho. by eapply Hty, Hin.
    + intros o Ho. by eapply Ht, Hin.
    + intros a b Ha Hb. by eapply Hties; eapply Hin.
  - exists f0, res. split; [|done]. rewrite Hres, kv_local by done. split.
    + intros Hl k. destruct (Hall k) as [?|E]; [by apply Hl|]. rewrite E. apply linearizable_nil.
    + intros Hl sub (k & ->)%Hsub. apply Hl.
Qed.

(** ** Theorems *)

(** On any history whose operations return after their call, with no return
    at the moment of a call, the search terminates without a panic and answers
    whether the history is linearizable. *)
Theorem single_history_decided {V St} `{EqDecision St} (sort : list (entry V) -> list (entry V))
    (model : Model V St) (history : list (Operation V)) :
  sorts sort -> lawful model history -> proper_times history -> no_ties history ->
  exists fuel0 res, (res = true <-> linearizable model history) /\
    forall fuel, (fuel0 <= fuel)%nat ->
      checkPartition fuel (fun _ => 0) model (makeEntries sort history) = Ret (Some res).
Proof. intros Hs. by apply checkPartition_decides. Qed.

Lemma single_history_decided_witness :
  exists fuel0, linearizable KvModel x_history /\
    forall fuel, (fuel0 <= fuel)%nat -> checkPartition fuel (fun _ => 0) KvModel
      (makeEntries time_sort x_history) = Ret (Some true).
Proof.
  destruct (single_history_decided time_sort KvModel x_history) as (f0 & res & Hres & Hrun).
  - apply time_sort_sorts.
  - apply kv_lawful. each_op; repeat eexists.
  - unfold proper_times. each_op; cbn; lia.
  - intros a b Ha Hb. each_op; cbn; lia.
  - exists f0. assert (res = true) as ->.
    { specialize (Hrun (f0 + 60)%nat ltac:(lia)).
      assert (Hc : checkPartition 60 (fun _ => 0) KvModel (makeEntries time_sort x_history)
        = Ret (Some true)) by (vm_compute; reflexivity).
      unfold checkPartition, checkSingle in *. destruct (makeLinkedEntries _) as [[[ns h] root] ms].
      cbn [fst] in *. eapply (checkLoop_fuel _ _ _ _ 60 (f0 + 60)) in Hc; [|lia]. rewrite Hc in Hrun. congruence. }
    split; [by apply Hres|done].
Defined.

(** Whatever the kill flag and however long the search ran, a history it
    accepts is linearizable; operations may share their times. *)
Theorem accepted_is_linearizable {V St} `{EqDecision St} (sort : list (entry V) -> list (entry V))
    (model : Model V St) (history : list (Operation V)) fuel kill :
  sorts sort -> lawful model history -> proper_times history ->
  checkPartition fuel kill model (makeEntries sort history) = Ret (Some true) ->
  linearizable model history.
Proof. intros Hs. by apply checkPartition_sound. Qed.

Lemma accepted_is_linearizable_witness :
  linearizable KvModel [put "x" "1" 0 5; got "x" "1" 5 9].
Proof.
  apply (accepted_is_linearizable time_sort KvModel _ 20 (fun _ => 0)).
  - apply time_sort_sorts.
  - apply kv_lawful. each_op; repeat eexists.
  - unfold proper_times. each_op; cbn; lia.
  - vm_compute. reflexivity.
Defined.

(** C34: [CheckOperations] with the key/value model terminates and answers, for
    a history of key/value operations that is not empty, in which every operation
    returns after its call and none returns at the very moment of a call, and in
    whatever order the partitions finish, whether the whole history is one of a
    store of all keys. *)
Theorem kv_history_decided (sort : list (entry KvValue) -> list (entry KvValue))
    (history : list (Operation KvValue)) :
  sorts sort -> (forall o, o ∈ history -> kv_typed o) -> proper_times history -> no_ties history ->
  history <> [] ->
  exists parts, KvPartition history = Ret parts /\ forall order, order ≡ₚ seq 0 (length parts) ->
  exists fuel0 res, (res = true <-> linearizable StoreModel history) /\
    forall fuel, (fuel0 <= fuel)%nat ->
      CheckOperations sort fuel (fun _ => 0) KvModel history order = Ret res.
Proof. apply kv_decides. Qed.

Lemma kv_history_decided_witness :
  (exists parts, KvPartition good_history = Ret parts /\ forall order, order ≡ₚ seq 0 (length parts) ->
    exists fuel0 res, (res = true <-> linearizable StoreModel good_history) /\
      forall fuel, (fuel0 <= fuel)%nat ->
        CheckOperations time_sort fuel (fun _ => 0) KvModel good_history order = Ret res) /\
  CheckOperations time_sort 60 (fun _ => 0) KvModel good_history [1%nat; 0%nat] = Ret true /\
  CheckOperations time_sort 60 (fun _ => 0) KvModel stale_history [0%nat] = Ret false.
Proof.
  split; [|split; vm_compute; reflexivity].
  apply (kv_history_decided time_sort good_history).
  - apply time_sort_sorts.
  - each_op; repeat eexists.
  - unfold proper_times. each_op; cbn; lia.
  - intros a b Ha Hb. each_op; cbn; lia.
  - done.
Defined.

(** A timeout can hide a violation but not make one up: when the check with
    a timeout answers false, some partition is not linearizable. *)
Theorem timeout_refutes {V St} `{EqDecision St} (sort : list (entry V) -> list (entry V))
    (model : Model V St) (history : list (Operation V)) parts fuel schedule :
  sorts sort -> default NoPartition (Partition model) history = Ret parts ->
  (forall sub, sub ∈ parts -> lawful model sub /\ proper_times sub /\ no_ties sub) ->
  CheckOperationsTimeout sort fuel (fun _ => 0) model history schedule = Ret false ->
  exists sub, sub ∈ parts /\ ~ linearizable model sub.
Proof. intros Hs Hp Hok. by apply CheckOperationsTimeout_refutes. Qed.

Lemma timeout_refutes_witness :
  exists sub, sub ∈ [stale_history] /\ ~ linearizable KvModel sub.
Proof.
  apply (timeout_refutes time_sort KvModel stale_history [stale_history] 60 [Some 0%nat; None]).
  - apply time_sort_sorts.
  - vm_compute. reflexivity.
  - intros sub ->%list_elem_of_singleton. split_and!.
    + apply kv_lawful. each_op; repeat eexists.
    + unfold proper_times. each_op; cbn; lia.
    + intros a b Ha Hb. each_op; cbn; lia.
  - vm_compute. reflexivity.
Defined.

(** On the empty history the key/value check has no partition to wait for
    and waits for ever, while the check of the default partition accepts it. *)
Theorem empty_history_blocks (sort : list (entry KvValue) -> list (entry KvValue)) fuel kill order :
  CheckOperations sort fuel kill KvModel [] order = Block /\
  (sorts sort -> CheckOperations sort (S fuel) kill StoreModel [] [0%nat] = Ret true).
Proof.
  split.
  - unfold CheckOperations, CheckOperationsTimeout, arrivals_of. cbn.
    induction order as [|k order IH]; [done|]. cbn. exact IH.
  - intros Hs. destruct (Hs []) as [Hp _]. apply Permutation_nil_r in Hp.
    unfold CheckOperations, CheckOperationsTimeout, makeEntries, checkPartition. cbn.
    by rewrite Hp.
Qed.

Lemma empty_history_blocks_witness :
  CheckOperations time_sort 9 (fun _ => 0) KvModel [] [] = Block /\
  CheckOperations time_sort 10 (fun _ => 0) StoreModel [] [0%nat] = Ret true.
Proof.
  split; [apply (empty_history_blocks time_sort)|].
  apply (empty_history_blocks time_sort 9 (fun _ => 0) []). apply time_sort_sorts.
Defined.
