(* ===== verification/LinEvents.v ===== *)
(** * The linearizability checker on histories of events

    [CheckEvents] takes the order of the events as it is and renumbers the
    operations so that their numbers are positions of the bit set.  The
    renumbering keeps which events belong together, so the answer is that of the
    history as it was given. *)

From stdpp Require Import base list list_numbers gmap sorting.
From S2P Require Import Prelude Bitset LinCheck LinList LinSearch LinHistory.
Open Scope Z_scope.

(** ** Histories that differ in the numbers of their operations only *)
Section Rename.
Context {V St : Type} (model : Model V St).

(** Pairs of entries that correspond. *)
Definition same_up_to_ids (z : list (entry V * entry V)) : Prop :=
  (forall p, p ∈ z -> e_kind p.1 = e_kind p.2 /\ e_value p.1 = e_value p.2) /\
  (forall p q, p ∈ z -> q ∈ z -> e_id p.1 = e_id q.1 <-> e_id p.2 = e_id q.2).

Lemma same_up_to_ids_filter (P : entry V * entry V -> Prop) `{!forall x, Decision (P x)} z :
  same_up_to_ids z -> same_up_to_ids (filter P z).
Proof.
  intros [Hk Hid]. split; [intros p [_ Hp]%list_elem_of_filter; by apply Hk|].
  intros p q [_ Hp]%list_elem_of_filter [_ Hq]%list_elem_of_filter. by apply Hid.
Qed.

Lemma linearizes_rename l s : linearizes model l s -> forall z, z.*1 = l -> same_up_to_ids z ->
  linearizes model z.*2 s.
Proof.
  induction 1 as [s|l1 c l2 r s s' Hl1 Hc Hr Hk Hid Hst _ IH]; intros z Hz Hsame.
  { apply fmap_nil_inv in Hz as ->. constructor. }
  apply fmap_app_inv in Hz as (z1 & z2' & Hz1 & Hz2 & ->).
  symmetry in Hz2. apply fmap_cons_inv in Hz2 as ([c0 c'] & z2 & Hc0 & Hz2 & ->). simpl in Hc0. subst c0.
  rewrite fmap_app, fmap_cons. cbn [snd].
  rewrite Hz2 in Hr. apply list_elem_of_fmap in Hr as ([r0 r'] & E & Hr). simpl in E. subst r0.
  assert (Hcin : (c, c') ∈ z1 ++ (c, c') :: z2) by set_solver.
  assert (Hrin : (r, r') ∈ z1 ++ (c, c') :: z2) by set_solver.
  destruct Hsame as [Hkv Hids]. destruct (Hkv _ Hcin) as [Hk1 Hv1]. destruct (Hkv _ Hrin) as [Hk2 Hv2].
  cbn [fst snd] in *. apply (linearizes_step model z1.*2 c' z2.*2 r' s s').
  - rewrite Forall_fmap, Forall_forall. intros p Hp. rewrite Hz1 in Hl1.
    rewrite Forall_fmap, Forall_forall in Hl1. specialize (Hl1 p Hp). cbn in *.
    destruct (Hkv p) as [E _]; [set_solver|]. congruence.
  - congruence.
  - by apply (list_elem_of_fmap_2 snd) in Hr.
  - congruence.
  - by apply (Hids (r, r') (c, c')).
  - congruence.
  - set (zz := z1 ++ (c, c') :: z2) in *.
    assert (Hf : filter (fun e => e_id e <> e_id c') zz.*2 = (filter (fun p => e_id p.1 <> e_id c) zz).*2).
    { rewrite <- (filter_snd (fun e => e_id e <> e_id c')). f_equal. apply filter_agree. intros p Hp.
      by rewrite (Hids p (c, c') Hp Hcin). }
    replace (z1.*2 ++ c' :: z2.*2) with zz.*2 by (unfold zz; by rewrite fmap_app, fmap_cons).
    rewrite Hf. apply IH; [|by apply same_up_to_ids_filter].
    etrans; [exact (filter_fst (fun e => e_id e <> e_id c) zz)|]. unfold zz. rewrite fmap_app, fmap_cons. cbn [fst].
    by rewrite Hz1, Hz2.
Qed.

Lemma linearizes_same z s : same_up_to_ids z -> linearizes model z.*1 s <-> linearizes model z.*2 s.
Proof.
  intros Hz. split; [intros Hlin; by apply (linearizes_rename _ _ Hlin)|]. intros Hlin.
  pose (swap := fun p : entry V * entry V => (p.2, p.1)).
  assert (H1 : (swap <$> z).*1 = z.*2) by (by rewrite <- list_fmap_compose).
  assert (H2 : (swap <$> z).*2 = z.*1) by (by rewrite <- list_fmap_compose).
  rewrite <- H2. apply (linearizes_rename _ _ Hlin); [done|]. destruct Hz as [Hk Hid]. split.
  - intros p (q & -> & Hq)%list_elem_of_fmap. cbn. by destruct (Hk q Hq).
  - intros p q (p' & -> & Hp)%list_elem_of_fmap (q' & -> & Hq)%list_elem_of_fmap. cbn. symmetry. by apply Hid.
Qed.
End Rename.

(** ** Renumbering *)
Section Renumber.
Context {V : Type}.

Definition ids (events : list (Event V)) : gset Z := list_to_set (ev_Id <$> events).

(** The numbering so far: distinct numbers below the next one. *)
Definition numbering (m : gmap Z Z) (next : Z) : Prop :=
  next = Z.of_nat (size m) /\ (forall i x, m !! i = Some x -> 0 <= x < next) /\
  (forall i j x, m !! i = Some x -> m !! j = Some x -> i = j).

Lemma numbering_insert m next i : numbering m next -> m !! i = None -> numbering (<[i := next]> m) (next + 1).
Proof.
  intros (Hn & Hr & Hinj) Hi. split_and!.
  - rewrite map_size_insert_None by done. lia.
  - intros j x. rewrite lookup_insert_Some. intros [[_ <-]|[_ Hx]]; [lia|]. specialize (Hr j x Hx). lia.
  - intros j k x. rewrite !lookup_insert_Some. intros [[<- <-]|[Hj Hx]] [[<- E]|[Hk Hy]]; try done.
    + specialize (Hr k next Hy). lia.
    + subst x. specialize (Hr j next Hx). lia.
    + by eapply Hinj.
Qed.

Lemma renumberLoop_spec events : forall m next, numbering m next ->
  exists m' next', numbering m' next' /\ m ⊆ m' /\ dom m' = dom m ∪ ids events /\
    renumberLoop events m next =
    (fun e => mkEvent (ev_Kind e) (ev_Value e) (m' !!! ev_Id e)) <$> events.
Proof.
  induction events as [|e events IH]; intros m next Hm.
  { exists m, next. split_and!; [done|done|unfold ids; set_solver|done]. }
  cbn [renumberLoop]. destruct (m !! ev_Id e) as [r|] eqn:E.
  - destruct (IH m next Hm) as (m' & next' & Hm' & Hsub & Hdom & Hrun). exists m', next'. split_and!; try done.
    + rewrite Hdom. unfold ids. rewrite fmap_cons. apply elem_of_dom_2 in E. set_solver.
    + rewrite fmap_cons, Hrun. f_equal. f_equal.
      by rewrite (lookup_total_correct m' _ r) by (by eapply lookup_weaken).
  - destruct (IH _ _ (numbering_insert _ _ _ Hm E)) as (m' & next' & Hm' & Hsub & Hdom & Hrun).
    exists m', next'. split_and!; try done.
    + etrans; [|exact Hsub]. by apply insert_subseteq.
    + rewrite Hdom, dom_insert_L. unfold ids. rewrite fmap_cons. set_solver.
    + rewrite fmap_cons, Hrun. f_equal. f_equal.
      rewrite (lookup_total_correct m' _ next); [done|]. eapply lookup_weaken; [|exact Hsub].
      apply lookup_insert_eq.
Qed.

(** The numbers of the operations: different for different ones, below their count. *)
Lemma renumber_spec events : exists f : Z -> Z,
  renumber events = (fun e => mkEvent (ev_Kind e) (ev_Value e) (f (ev_Id e))) <$> events /\
  (forall i j, i ∈ ids events -> j ∈ ids events -> f i = f j -> i = j) /\
  (forall i, i ∈ ids events -> 0 <= f i < Z.of_nat (size (ids events))).
Proof.
  destruct (renumberLoop_spec events ∅ 0) as (m & next & (Hn & Hr & Hinj) & _ & Hdom & Hrun).
  { split_and!; [by rewrite map_size_empty|intros i x; by rewrite lookup_empty|].
    intros i j x. by rewrite lookup_empty. }
  rewrite dom_empty_L, (left_id_L ∅ (∪)) in Hdom. exists (fun i => m !!! i). split; [done|].
  assert (Hlook : forall i, i ∈ ids events -> m !! i = Some (m !!! i)).
  { intros i Hi. rewrite <- Hdom in Hi. apply elem_of_dom in Hi as [x Hx]. by rewrite (lookup_total_correct _ _ _ Hx). }
  split.
  - intros i j Hi%Hlook Hj%Hlook E. rewrite E in Hi. by eapply Hinj.
  - intros i Hi%Hlook%Hr. rewrite <- Hdom, size_dom. lia.
Qed.
End Renumber.

(** ** Histories of events *)
Section Events.
Context {V St : Type} `{EqDecision St} (model : Model V St).

(** Every call is followed by its return, every return has a call, and no event
    occurs twice. *)
Record wf_events (events : list (Event V)) : Prop := {
  wfe_entries : wf_entries (convertEntries events);
  wfe_call : forall r, r ∈ events -> ev_Kind r = ReturnEvent ->
    exists c, c ∈ events /\ ev_Kind c = CallEvent /\ ev_Id c = ev_Id r
}.

(** The entries as given and as renumbered, side by side. *)
Definition renamed (f : Z -> Z) (e : Event V) : entry V * entry V :=
  (mkEntry (ev_Kind e) (ev_Value e) (ev_Id e) (-1), mkEntry (ev_Kind e) (ev_Value e) (f (ev_Id e)) (-1)).

Lemma wf_entries_rename (z : list (entry V * entry V)) :
  same_up_to_ids z -> wf_entries z.*1 -> wf_entries z.*2.
Proof.
  intros [Hkv Hids] [Hret Hu]. split.
  - intros l1 c' l2 E Hc. symmetry in E. apply symmetry, fmap_app_inv in E as (z1 & z2' & -> & E2 & Ez).
    symmetry in E2. apply fmap_cons_inv in E2 as ([c c0] & z2 & E3 & -> & ->). simpl in E3. subst c0 z.
    assert (Hcin : (c, c') ∈ z1 ++ (c, c') :: z2) by set_solver. destruct (Hkv _ Hcin) as [Hk _]. cbn in Hk.
    destruct (Hret z1.*1 c z2.*1) as (r & Hr & Hkr & Hid); [by rewrite fmap_app, fmap_cons|congruence|].
    apply list_elem_of_fmap in Hr as ([r0 r'] & E & Hr). simpl in E. subst r0.
    assert (Hrin : (r, r') ∈ z1 ++ (c, c') :: z2) by set_solver. destruct (Hkv _ Hrin) as [Hk' _]. cbn in Hk'.
    exists r'. split_and!; [by apply (list_elem_of_fmap_2 snd) in Hr|congruence|].
    by apply (Hids (r, r') (c, c')).
  - apply NoDup_alt. intros i j x Hi Hj. rewrite !list_lookup_fmap in Hi, Hj.
    destruct (z !! i) as [p|] eqn:Ei; [|done]. destruct (z !! j) as [q|] eqn:Ej; [|done].
    simpl in Hi, Hj. injection Hi as Hi. injection Hj as Hj. rewrite <- Hj in Hi. clear Hj.
    apply list_elem_of_lookup_2 in Ei as Hp. apply list_elem_of_lookup_2 in Ej as Hq.
    unfold ekey in Hi. injection Hi as Hk Hid. apply (Hids p q Hp Hq) in Hid.
    destruct (Hkv p Hp) as [Hk1 _]. destruct (Hkv q Hq) as [Hk2 _].
    eapply (NoDup_lookup _ i j (ekey p.1) Hu); rewrite !list_lookup_fmap, ?Ei, ?Ej; [done|].
    simpl. unfold ekey. congruence.
Qed.

Lemma elem_of_ids (events : list (Event V)) i : i ∈ ids events <-> exists e, e ∈ events /\ ev_Id e = i.
Proof. unfold ids. rewrite elem_of_list_to_set, list_elem_of_fmap. naive_solver. Qed.

Lemma convertEntries_elem (events : list (Event V)) e : e ∈ convertEntries events <->
  exists v, v ∈ events /\ e = mkEntry (ev_Kind v) (ev_Value v) (ev_Id v) (-1).
Proof. unfold convertEntries. rewrite list_elem_of_fmap. naive_solver. Qed.

(** Two events per operation. *)
Lemma wf_events_count events : wf_events events -> 2 * Z.of_nat (size (ids events)) <= len events.
Proof.
  intros [[Hret _] Hcall].
  set (keys := (fun i => (CallEvent, i)) <$> elements (ids events)).
  set (keys' := (fun i => (ReturnEvent, i)) <$> elements (ids events)).
  assert (Hsub : keys ++ keys' ⊆+ (fun e => (ev_Kind e, ev_Id e)) <$> events).
  { apply NoDup_submseteq.
    - apply NoDup_app. split_and!; [apply NoDup_fmap_2, NoDup_elements; congruence| |
        apply NoDup_fmap_2, NoDup_elements; congruence].
      intros x (i & -> & _)%list_elem_of_fmap (j & E & _)%list_elem_of_fmap. done.
    - assert (Hboth : forall i, i ∈ ids events -> (exists c, c ∈ events /\ ev_Kind c = CallEvent /\ ev_Id c = i) /\
        exists r, r ∈ events /\ ev_Kind r = ReturnEvent /\ ev_Id r = i).
      { assert (Hc : forall i, i ∈ ids events -> exists c, c ∈ events /\ ev_Kind c = CallEvent /\ ev_Id c = i).
        { intros i (e & He & <-)%elem_of_ids. destruct (ev_Kind e) eqn:Hk; [by exists e|]. by apply Hcall. }
        intros i Hi. split; [by apply Hc|]. destruct (Hc i Hi) as (c & Hcin & Hk & <-).
        apply list_elem_of_split in Hcin as (l1 & l2 & ->). unfold convertEntries in Hret.
        rewrite fmap_app, fmap_cons in Hret. destruct (Hret _ _ _ eq_refl Hk) as (r & Hr & Hkr & Hid).
        apply list_elem_of_fmap in Hr as (v & -> & Hv). exists v. split_and!; [|done..]. set_solver. }
      intros x [(i & -> & Hi)%list_elem_of_fmap|(i & -> & Hi)%list_elem_of_fmap]%elem_of_app;
        apply elem_of_elements, Hboth in Hi as [(c & Hc & Hk & Hid) (r & Hr & Hkr & Hidr)];
        apply list_elem_of_fmap; [exists c|exists r]; by rewrite ?Hk, ?Hid, ?Hkr, ?Hidr. }
  apply submseteq_length in Hsub. unfold keys, keys' in Hsub.
  rewrite length_app, !length_fmap in Hsub. unfold size, set_size, len. simpl. lia.
Qed.

(** What the checker needs of the model. *)
Record lawful_events (events : list (Event V)) : Prop := {
  events_step : forall s c r, c ∈ events -> r ∈ events -> ev_Kind c = CallEvent -> ev_Kind r = ReturnEvent ->
    ev_Id r = ev_Id c -> exists ok s', Step model s (ev_Value c) (ev_Value r) = Ret (ok, s');
  events_equal : forall s s', default ShallowEqual (Equal model) s s' = true -> s = s'
}.

Lemma renumber_entries events : exists f,
  convertEntries (renumber events) = (renamed f <$> events).*2 /\
  convertEntries events = (renamed f <$> events).*1 /\
  same_up_to_ids (renamed f <$> events) /\
  forall i, i ∈ ids events -> 0 <= f i < Z.of_nat (size (ids events)).
Proof.
  destruct (renumber_spec events) as (f & Hf & Hinj & Hr). exists f. rewrite Hf. unfold convertEntries.
  rewrite <- !list_fmap_compose. split_and!; try done. split.
  - by intros p (e & -> & _)%list_elem_of_fmap.
  - intros p q (e & -> & He)%list_elem_of_fmap (e' & -> & He')%list_elem_of_fmap. cbn. split; [congruence|].
    apply Hinj; apply elem_of_ids; eauto.
Qed.

Lemma checkEvents_decides events : wf_events events -> lawful_events events ->
  decides (fun fuel sub => checkPartition fuel (fun _ => 0) model (convertEntries (renumber sub)))
    (fun sub => linearizes model (convertEntries sub) (Init model)) events.
Proof.
  intros Hwf [Hstep Heq]. destruct (renumber_entries events) as (f & Hes & Hes0 & Hsame & Hr).
  pose proof (wf_events_count events Hwf) as Hcount.
  destruct (checkSingle_correct model (default ShallowEqual (Equal model)) (convertEntries (renumber events)))
    as (f0 & res & Hres & Hrun).
  - intros s c r Hc Hr' Hkc Hkr Hid. rewrite Hes in Hc, Hr'.
    apply list_elem_of_fmap in Hc as (p & -> & Hp), Hr' as (q & -> & Hq). apply Hsame in Hid; [|done..].
    apply list_elem_of_fmap in Hp as (c & -> & Hc), Hq as (r & -> & Hr'). by apply Hstep.
  - apply Heq.
  - rewrite Hes. apply wf_entries_rename; [done|]. rewrite <- Hes0. apply Hwf.
  - intros e He. rewrite Hes in He. unfold len. rewrite Hes, !length_fmap.
    apply list_elem_of_fmap in He as (p & -> & (v & -> & Hv)%list_elem_of_fmap). cbn.
    specialize (Hr (ev_Id v) ltac:(apply elem_of_ids; eauto)). split; [lia|].
    apply Z.lt_le_trans with (Z.of_nat (size (ids events))); [lia|].
    apply Z.quot_le_lower_bound; [lia|]. unfold len in Hcount. lia.
  - exists f0, res. split; [|done]. rewrite Hres, Hes, Hes0. symmetry. by apply linearizes_same.
Qed.
End Events.

(** ** Theorem *)

(** C35: when the model splits the events into at least one partition, of
    well-formed events on which the model is lawful, [CheckEvents] terminates and
    answers, in whatever order the partitions finish, whether the events of every partition linearize in the order and with
    the operation numbers they were given. *)
Theorem event_history_decided {V St} `{EqDecision St} (model : Model V St) (history : list (Event V))
    parts order :
  default NoPartitionEvent (PartitionEvent model) history = Ret parts -> parts <> [] ->
  (forall sub, sub ∈ parts -> wf_events sub /\ lawful_events model sub) ->
  order ≡ₚ seq 0 (length parts) ->
  exists fuel0 res,
    (res = true <-> forall sub, sub ∈ parts -> linearizes model (convertEntries sub) (Init model)) /\
    forall fuel, (fuel0 <= fuel)%nat -> CheckEvents fuel (fun _ => 0) model history order = Ret res.
Proof.
  intros Hparts Hne Hok Hord. destruct (collect_decides
    (fun fuel sub => checkPartition fuel (fun _ => 0) model (convertEntries (renumber sub)))
    (fun sub => linearizes model (convertEntries sub) (Init model)) parts order) as (f0 & res & Hres & Hrun); try done.
  - intros sub [Hwf Hlaw]%Hok. by apply checkEvents_decides.
  - exists f0, res. split; [done|]. intros fuel Hf. rewrite <- (Hrun fuel Hf). unfold CheckEvents, CheckEventsTimeout.
    replace (default NoPartitionEvent (PartitionEvent (fillDefault model)) history) with (Ret parts)
      by (symmetry; exact Hparts).
    cbn [mbind outcome_bind]. do 2 f_equal. apply list_fmap_ext. intros i sub _. apply checkPartition_fillDefault.
Qed.

(** A register: a write of 7 that overlaps a read of 7. *)
Definition register_model : Model Z Z :=
  mkModel None None 0 (fun s input output =>
    Ret (if input =? 0 then (output =? s, s) else (true, input))) None.
Definition register_events : list (Event Z) :=
  [mkEvent CallEvent 7 31; mkEvent CallEvent 0 12; mkEvent ReturnEvent 7 12; mkEvent ReturnEvent 0 31].

Lemma register_events_wf : wf_events register_events.
Proof.
  split.
  - split.
    + intros l1 c l2 E Hc. cbn in E.
      destruct l1 as [|? [|? [|? [|? [|? ?]]]]]; simplify_eq/=;
        [exists (mkEntry ReturnEvent 0 31 (-1))|exists (mkEntry ReturnEvent 7 12 (-1))]; split_and!; try done; set_solver.
    + vm_compute. apply NoDup_ListNoDup. repeat constructor; vm_compute; naive_solver.
  - intros r Hr Hk. repeat (apply elem_of_cons in Hr as [->|Hr]); try discriminate Hk;
      [exists (mkEvent CallEvent 0 12)|exists (mkEvent CallEvent 7 31)|by apply elem_of_nil in Hr]; split_and!; try done; set_solver.
Qed.

Lemma event_history_decided_witness :
  (exists fuel0 res,
    (res = true <-> forall sub, sub ∈ [register_events] ->
      linearizes register_model (convertEntries sub) (Init register_model)) /\
    forall fuel, (fuel0 <= fuel)%nat ->
      CheckEvents fuel (fun _ => 0) register_model register_events [0%nat] = Ret res) /\
  CheckEvents 20 (fun _ => 0) register_model register_events [0%nat] = Ret true.
Proof.
  split; [|vm_compute; reflexivity].
  apply (event_history_decided register_model register_events [register_events] [0%nat]); try done.
  intros sub ->%list_elem_of_singleton. split; [apply register_events_wf|]. split.
  - intros s c r _ _ _ _ _. cbn. destruct (_ =? 0); eauto.
  - intros s s'. cbn. unfold ShallowEqual. apply bool_decide_eq_true_1.
Defined.
