(* ===== verification/KVService.v ===== *)
(** * The whole key/value service

    Clerks, key/value servers and the Raft cluster under them, composed: the
    clerks' calls are in flight or run a handler at a server, section by section;
    a server's apply loop takes the messages of its own peer's applyCh; Start is
    called by the handlers only and Compact by what the apply loop starts.  An
    event is one critical section, one channel operation, or one action of the
    network, so every interleaving of goroutines, of any number of clerks, is an
    execution.  The clerks' operations are recorded with their times the way
    GenericTestLinearizability (kvraft/test_test.go) records them.

    Clerks are numbered by their ClientID: ids drawn by different clerks are
    taken to be distinct, and not 0, the id in the zero DoneMsg of a closed
    channel.  A section that panics ends the process of its server; that is the
    event [SCrash], which may happen at any time. *)

From stdpp Require Import base functions list list_numbers gmap strings.
From S2P Require Import Prelude Gob RaftNode RaftSystem RaftBounds KVServer KVClient LinCheck.
Open Scope Z_scope.

(** ** Requests and replies *)
Inductive request : Type := ReqGet (args : GetArgs) | ReqPut (args : PutAppendArgs).
Inductive response : Type := ResGet (reply : GetReply) | ResPut (reply : PutAppendReply).

Definition req_client (r : request) : Z :=
  match r with ReqGet a => ga_ClientID a | ReqPut a => pa_ClientID a end.
Definition req_cmd (r : request) : Z :=
  match r with ReqGet a => ga_CmdID a | ReqPut a => pa_CmdID a end.
Definition req_op (r : request) : Op :=
  match r with ReqGet a => getOp a | ReqPut a => putAppendOp a end.

(** The handlers [Get] and [PutAppend] around [enterOperation]. *)
Definition req_enter (kv : KVServer) (isLeader : bool) (r : request) : bool * option Op :=
  match r with
  | ReqGet a => Get_enter kv isLeader a
  | ReqPut a => PutAppend_enter kv isLeader a
  end.
Definition req_reply (kv : KVServer) (isLeader opDone : bool) (r : request) : response :=
  match r with
  | ReqGet a => ResGet (Get_reply kv isLeader opDone a)
  | ReqPut a => ResPut (PutAppend_reply isLeader opDone)
  end.

(** What the loops of the clerk make of a reply: the result they return, or
    whether they turn to the next server. *)
Definition accepted (r : response) : option string :=
  match r with
  | ResGet reply => decisive (Some reply)
  | ResPut reply => if decide (par_Err reply = OK) then Some ""%string else None
  end.
Definition wrong_leader (r : response) : bool :=
  match r with ResGet reply => gr_WrongLeader reply | ResPut reply => par_WrongLeader reply end.

(** An operation a client asks of its clerk, the request it becomes, and what the
    test records of it. *)
Inductive kvop : Type := OpGet (key : string) | OpPut (key value : string) | OpAppend (key value : string).

Definition request_of (o : kvop) (client seq : Z) : request :=
  match o with
  | OpGet key => ReqGet (mkGetArgs key client seq)
  | OpPut key value => ReqPut (mkPutAppendArgs key value "Put" client seq)
  | OpAppend key value => ReqPut (mkPutAppendArgs key value "Append" client seq)
  end.

Definition req_input (r : request) : KvInput :=
  match r with
  | ReqGet a => mkKvInput 0 (ga_Key a) ""
  | ReqPut a => mkKvInput (if decide (pa_Op a = PUT) then 1 else 2) (pa_Key a) (pa_Value a)
  end.

(** ** Handlers *)

(** Where a handler is: the section or channel operation it runs next. *)
Inductive pc : Type :=
| PState
| PSeen (isLeader : bool)
| PStart (isLeader : bool) (operation : Op)
| PStub (isLeader : bool) (operation : Op) (raftIdx : Z)
| PSelect (isLeader : bool) (operation : Op) (raftIdx : Z) (doneCh : nat)
| PGot (isLeader : bool) (operation : Op) (raftIdx : Z) (doneCh : nat) (doneMsg : DoneMsg)
| PDelete (isLeader : bool) (raftIdx : Z)
| PReply (isLeader opDone : bool).

(** A call: in flight, running its handler, or answered. *)
Inductive stage : Type := Requested | Running (p : pc) | Replied (r : response).

Record kvcall : Type := mkKvcall {
  kc_server : Z; kc_client : Z; kc_num : Z; kc_req : request; kc_stage : stage
}.

Definition at_stage (c : kvcall) (st : stage) : kvcall :=
  mkKvcall (kc_server c) (kc_client c) (kc_num c) (kc_req c) st.

(** ** Clerks *)

(** A clerk with the request it works on, since when, and the number of the call
    it waits for. *)
Record clerkst : Type := mkClerkst {
  cl_clerk : Clerk; cl_req : option (request * Z); cl_wait : option Z
}.

(** ** The service *)
Record service : Type := mkService {
  sv_raft : sys Op;
  sv_kv : Z -> KVServer;
  sv_taken : Z -> nat;
  sv_compact : list (Z * Z * bytes);
  sv_clerks : Z -> clerkst;
  sv_calls : list kvcall;
  sv_hist : list (request * Operation KvValue);
  sv_time : Z
}.

Inductive sevent : Type :=
| SInvoke (c : Z) (o : kvop)
| SSend (c : Z)
| SFail (c : Z)
| SReturn (k : nat)
| SRun (k : nat)
| STimeout (k : nat)
| STake (i : Z)
| SCompact (k : nat)
| SRaft (e : event Op)
| SCrash (i : Z).

Section Service.
Context {GO : Gob Op} {GD : Gob (gmap string string)} {GM : Gob (gmap Z Z)} (n mx : Z).
Implicit Types sv : service.

Definition set_raft (r : sys Op) sv : service :=
  mkService r (sv_kv sv) (sv_taken sv) (sv_compact sv) (sv_clerks sv) (sv_calls sv) (sv_hist sv) (sv_time sv).
Definition set_kv (i : Z) (kv : KVServer) sv : service :=
  mkService (sv_raft sv) (<[i := kv]> (sv_kv sv)) (sv_taken sv) (sv_compact sv) (sv_clerks sv)
    (sv_calls sv) (sv_hist sv) (sv_time sv).
Definition set_clerk (c : Z) (cl : clerkst) sv : service :=
  mkService (sv_raft sv) (sv_kv sv) (sv_taken sv) (sv_compact sv) (<[c := cl]> (sv_clerks sv))
    (sv_calls sv) (sv_hist sv) (sv_time sv).
Definition set_calls (cs : list kvcall) sv : service :=
  mkService (sv_raft sv) (sv_kv sv) (sv_taken sv) (sv_compact sv) (sv_clerks sv) cs (sv_hist sv) (sv_time sv).
Definition add_hist (h : request * Operation KvValue) sv : service :=
  mkService (sv_raft sv) (sv_kv sv) (sv_taken sv) (sv_compact sv) (sv_clerks sv) (sv_calls sv)
    (sv_hist sv ++ [h]) (sv_time sv).
Definition tick sv : service :=
  mkService (sv_raft sv) (sv_kv sv) (sv_taken sv) (sv_compact sv) (sv_clerks sv) (sv_calls sv)
    (sv_hist sv) (sv_time sv + 1).

Definition sv_init : service :=
  mkService (sys_init n) (fun i => StartKVServer i mx) (fun _ => 0%nat) []
    (fun c => mkClerkst (MakeClerk n c) None None) [] [] 0.

(** The next section of the handler of [c], a call at stage [p]. *)
Definition run_section sv (k : nat) (c : kvcall) (p : pc) : option service :=
  let i := kc_server c in
  let kv := sv_kv sv i in
  let rf := raft_of (sv_raft sv) i in
  let next sv' p' := Some (set_calls (<[k := at_stage c (Running p')]> (sv_calls sv)) sv') in
  match p with
  | PState => next sv (PSeen (GetState rf).2)
  | PSeen isLeader =>
      match req_enter kv isLeader (kc_req c) with
      | (_, Some operation) => next sv (PStart isLeader operation)
      | (opDone, None) => next sv (PReply isLeader opDone)
      end
  | PStart isLeader operation =>
      match Start rf operation with
      | Ret (rf', (raftIdx, _, true), effs) =>
          next (set_raft (put_raft (sv_raft sv) i rf' effs) sv) (PStub isLeader operation raftIdx)
      | Ret (rf', (_, _, false), effs) =>
          next (set_raft (put_raft (sv_raft sv) i rf' effs) sv) (PReply isLeader false)
      | _ => None
      end
  | PStub isLeader operation raftIdx =>
      let '(kv', doneCh) := enterStub kv raftIdx in
      next (set_kv i kv' sv) (PSelect isLeader operation raftIdx doneCh)
  | PSelect isLeader operation raftIdx doneCh =>
      match receive kv doneCh with
      | Ret (kv', doneMsg) => next (set_kv i kv' sv) (PGot isLeader operation raftIdx doneCh doneMsg)
      | _ => None
      end
  | PGot isLeader operation raftIdx doneCh doneMsg =>
      if (dm_ClientID doneMsg =? ClientID operation) && (dm_CmdID doneMsg =? CmdID operation) then
        match close kv doneCh with
        | Ret kv' => next (set_kv i kv' sv) (PDelete isLeader raftIdx)
        | _ => None
        end
      else
        match send kv doneCh doneMsg with
        | Ret kv' => next (set_kv i kv' sv) (PReply isLeader false)
        | _ => None
        end
  | PDelete isLeader raftIdx =>
      next (set_kv i (enterDelete kv raftIdx) sv) (PReply isLeader true)
  | PReply isLeader opDone =>
      Some (set_calls (<[k := at_stage c (Replied (req_reply kv isLeader opDone (kc_req c)))]> (sv_calls sv)) sv)
  end.

(** The reply of call [k] reaches the clerk that waits for it. *)
Definition clerk_return sv (c : kvcall) (r : response) : option service :=
  let cl := sv_clerks sv (kc_client c) in
  match cl_req cl, cl_wait cl with
  | Some (req, t), Some num =>
      if num =? kc_num c then
        match accepted r with
        | Some v =>
            Some (add_hist (req, mkOperation (KvIn (req_input req)) t (KvOut (mkKvOutput v)) (sv_time sv))
                    (set_clerk (kc_client c) (mkClerkst (cl_clerk cl) None None) sv))
        | None =>
            let ck := if wrong_leader r then nextServer (cl_clerk cl) else cl_clerk cl in
            Some (set_clerk (kc_client c) (mkClerkst ck (Some (req, t)) None) sv)
        end
      else None
  | _, _ => None
  end.

(** The apply loop of server [i] takes the next message. *)
Definition take_msg sv (i : Z) : option service :=
  m ← nd_applyCh (sys_nodes (sv_raft sv) i) !! sv_taken sv i;
  match dealWithApplyMsg (sv_kv sv i) (GetStateSize (raft_of (sv_raft sv) i)) m with
  | Ret (kv', comp) =>
      Some (mkService (sv_raft sv) (<[i := kv']> (sv_kv sv)) (<[i := S (sv_taken sv i)]> (sv_taken sv))
        (sv_compact sv ++ match comp with Some (idx, snap) => [(i, idx, snap)] | None => [] end)
        (sv_clerks sv) (sv_calls sv) (sv_hist sv) (sv_time sv))
  | _ => None
  end.

(** A call that a crash of server [i] leaves alone: its handler does not run
    there. *)
Definition survives (i : Z) (c : kvcall) : Prop :=
  kc_server c <> i \/ match kc_stage c with Running _ => False | _ => True end.
#[export] Instance survives_dec i c : Decision (survives i c).
Proof. unfold survives. destruct (kc_stage c); apply _. Defined.

Definition sv_crash sv (i : Z) : option service :=
  r ← exec n (sv_raft sv) (EvCrash i);
  Some (mkService r (<[i := StartKVServer i mx]> (sv_kv sv)) (<[i := 0%nat]> (sv_taken sv))
    (filter (fun x => x.1.1 <> i) (sv_compact sv)) (sv_clerks sv)
    (filter (survives i) (sv_calls sv)) (sv_hist sv) (sv_time sv)).

(** The events of the cluster that are not calls of the service or the end of a
    process. *)
Definition internal (e : event Op) : bool :=
  match e with EvStart _ _ | EvCompact _ _ _ | EvCrash _ => false | _ => true end.

Definition sv_exec1 sv (e : sevent) : option service :=
  match e with
  | SInvoke c o =>
      let cl := sv_clerks sv c in
      match cl_req cl with
      | Some _ => None
      | None =>
          if (0 <? c) && (c <? 2 ^ 62) && (nextSeq (cl_clerk cl) <? 2 ^ 64 - 1) then
            let '(ck, seq) := takeSeq (cl_clerk cl) in
            Some (set_clerk c (mkClerkst ck (Some (request_of o (clientID ck) seq, sv_time sv)) None) sv)
          else None
      end
  | SSend c =>
      let cl := sv_clerks sv c in
      match cl_req cl, cl_wait cl, target (cl_clerk cl) with
      | Some (req, t), None, Ret i =>
          Some (set_calls (sv_calls sv ++ [mkKvcall i c (sv_time sv) req Requested])
                 (set_clerk c (mkClerkst (cl_clerk cl) (Some (req, t)) (Some (sv_time sv))) sv))
      | _, _, _ => None
      end
  | SFail c =>
      let cl := sv_clerks sv c in
      match cl_wait cl with
      | Some _ => Some (set_clerk c (mkClerkst (nextServer (cl_clerk cl)) (cl_req cl) None) sv)
      | None => None
      end
  | SReturn k =>
      c ← sv_calls sv !! k;
      match kc_stage c with Replied r => clerk_return sv c r | _ => None end
  | SRun k =>
      c ← sv_calls sv !! k;
      match kc_stage c with
      | Requested => Some (set_calls (<[k := at_stage c (Running PState)]> (sv_calls sv)) sv)
      | Running p => run_section sv k c p
      | Replied _ => None
      end
  | STimeout k =>
      c ← sv_calls sv !! k;
      match kc_stage c with
      | Running (PSelect isLeader _ _ _) =>
          Some (set_calls (<[k := at_stage c (Running (PReply isLeader false))]> (sv_calls sv)) sv)
      | _ => None
      end
  | STake i => if is_peer n i then take_msg sv i else None
  | SCompact k =>
      x ← sv_compact sv !! k;
      let e := EvCompact x.1.1 x.1.2 x.2 in
      if panics n (sv_raft sv) e then None else
        r ← exec n (sv_raft sv) e;
        Some (mkService r (sv_kv sv) (sv_taken sv) (delete k (sv_compact sv)) (sv_clerks sv) (sv_calls sv)
          (sv_hist sv) (sv_time sv))
  | SRaft e =>
      if internal e && negb (panics n (sv_raft sv) e) then
        r ← exec n (sv_raft sv) e; Some (set_raft r sv)
      else None
  | SCrash i => sv_crash sv i
  end.

Definition sv_exec sv (e : sevent) : option service := tick <$> sv_exec1 sv e.

Fixpoint sv_run sv (evs : list sevent) : option service :=
  match evs with
  | [] => Some sv
  | e :: evs' => sv' ← sv_exec sv e; sv_run sv' evs'
  end.

(** Executions whose events all satisfy [ok] in the state they are taken in. *)
Inductive sv_reach_if (ok : service -> sevent -> Prop) : service -> Prop :=
| sv_reach_init : sv_reach_if ok sv_init
| sv_reach_step sv e sv' :
    sv_reach_if ok sv -> ok sv e -> sv_exec sv e = Some sv' -> sv_reach_if ok sv'.

Definition sv_reach : service -> Prop := sv_reach_if (fun _ _ => True).

(** The events of the cluster are in order: no replication request overshoots the
    leader's log, and every peer hands its snapshots over in order. *)
Definition sv_in_order sv (e : sevent) : Prop :=
  match e with SRaft e' => in_order (sv_raft sv) e' | _ => True end.

Lemma sv_run_reach sv evs sv' : sv_reach sv -> sv_run sv evs = Some sv' -> sv_reach sv'.
Proof.
  revert sv. induction evs as [|e evs IH]; simpl; intros sv Hr H; [by simplify_eq|].
  destruct (sv_exec sv e) as [sv1|] eqn:E; [|done]. simpl in H. eapply IH; [|done]. by eapply sv_reach_step.
Qed.

(** A run from the initial state, or the initial state when it gets stuck. *)
Definition sv_ran (evs : list sevent) : service := default sv_init (sv_run sv_init evs).

Lemma sv_ran_reach evs : sv_reach (sv_ran evs).
Proof.
  unfold sv_ran. destruct (sv_run sv_init evs) eqn:E; simpl; [|constructor].
  eapply sv_run_reach; [constructor|done].
Qed.

(** The operations the test hands to the checker. *)
Definition history sv : list (Operation KvValue) := (sv_hist sv).*2.
End Service.
