(* ===== verification/KVSession.v ===== *)
(** * The clerks' sessions

    What the clerks guarantee whatever the servers and the network do: a clerk
    works on one request at a time, its requests have ids 0, 1, 2, ... in the
    order of their calls, and the recorded operations have the times of these
    sessions. *)

From stdpp Require Import base functions list list_numbers gmap strings.
From S2P Require Import Prelude Gob RaftNode RaftSystem RaftBounds KVServer KVClient LinCheck KVService.
Open Scope Z_scope.

Definition req_id (r : request) : Z * Z := (req_client r, req_cmd r).
Definition op_id (o : Op) : Z * Z := (ClientID o, CmdID o).

Lemma op_id_req r : op_id (req_op r) = req_id r.
Proof. by destruct r. Qed.

Lemma request_of_id o c k : req_id (request_of o c k) = (c, k).
Proof. by destruct o. Qed.

Lemma uint64_nrand c : 0 < c < 2 ^ 62 -> uint64 (nrand c) = c.
Proof. intros Hc. unfold nrand, uint64. rewrite (Z.mod_small c), Z.mod_small; lia. Qed.

Section Session.
Implicit Types cls : Z -> clerkst.
Implicit Types hist : list (request * Operation KvValue).

(** [r] was called at time [t]. *)
Definition issued cls hist (r : request) (t : Z) : Prop :=
  (exists op, (r, op) ∈ hist /\ CallTime op = t) \/
  (exists c, cl_req (cls c) = Some (r, t)).

Record clients_ok (n : Z) cls hist (now : Z) : Prop := {
  co_clerk c : servers (cl_clerk (cls c)) = n /\ clientID (cl_clerk (cls c)) = uint64 (nrand c) /\
    0 <= nextSeq (cl_clerk (cls c));
  co_pending c r t : cl_req (cls c) = Some (r, t) ->
    0 < c < 2 ^ 62 /\ req_client r = c /\ req_cmd r = nextSeq (cl_clerk (cls c)) - 1 /\ 0 <= req_cmd r /\ t < now;
  co_done r op : (r, op) ∈ hist ->
    0 < req_client r < 2 ^ 62 /\ 0 <= req_cmd r < nextSeq (cl_clerk (cls (req_client r))) /\
    CallTime op < ReturnTime op < now /\ Input op = KvIn (req_input r);
  co_past r op r' t' : (r, op) ∈ hist -> cl_req (cls (req_client r)) = Some (r', t') ->
    req_cmd r < req_cmd r' /\ ReturnTime op < t';
  co_order r op r' op' : (r, op) ∈ hist -> (r', op') ∈ hist -> req_client r = req_client r' ->
    req_cmd r < req_cmd r' -> ReturnTime op < CallTime op';
  co_once : NoDup (req_id <$> hist.*1);
  co_ties r op r' t' : (r, op) ∈ hist -> issued cls hist r' t' -> ReturnTime op <> t';
  co_wait c num : cl_wait (cls c) = Some num -> num < now
}.

Lemma issued_unique n cls hist now r t r' t' :
  clients_ok n cls hist now -> issued cls hist r t -> issued cls hist r' t' -> req_id r = req_id r' ->
  r = r' /\ t = t'.
Proof.
  intros [] H H' [= E1 E2].
  assert (Hhp : forall r op r' t' c, (r, op) ∈ hist -> cl_req (cls c) = Some (r', t') ->
    req_client r = req_client r' -> req_cmd r = req_cmd r' -> False).
  { intros x op x' y c Hin Hc Ec Ek. destruct (co_pending0 c x' y Hc) as (_ & <- & _).
    rewrite <- Ec in Hc. destruct (co_past0 _ _ _ _ Hin Hc). lia. }
  destruct H as [(op & Hin & <-)|(c & Hc)], H' as [(op' & Hin' & <-)|(c' & Hc')].
  - assert ((r, op) = (r', op')) as [= -> ->]; [|done].
    apply (NoDup_fmap_elem (fun x => req_id x.1) hist); try done.
    + rewrite <- list_fmap_compose in co_once0. exact co_once0.
    + unfold req_id. simpl. congruence.
  - by destruct (Hhp r op r' t' c').
  - by destruct (Hhp r' op' r t c).
  - destruct (co_pending0 c r t Hc) as (_ & <- & _). destruct (co_pending0 c' r' t' Hc') as (_ & <- & _).
    rewrite E1 in Hc. rewrite Hc in Hc'. by simplify_eq.
Qed.

(** A clerk's earlier request returned before its later one was called. *)
Lemma issued_order n cls hist now r t r' t' :
  clients_ok n cls hist now -> issued cls hist r t -> issued cls hist r' t' ->
  req_client r = req_client r' -> req_cmd r < req_cmd r' ->
  exists op, (r, op) ∈ hist /\ CallTime op = t /\ ReturnTime op < t'.
Proof.
  intros [] H H' Ec Hlt.
  destruct H as [(op & Hin & <-)|(c & Hc)], H' as [(op' & Hin' & <-)|(c' & Hc')].
  - exists op. eauto.
  - exists op. destruct (co_pending0 _ _ _ Hc') as (_ & <- & _). rewrite <- Ec in Hc'.
    destruct (co_past0 _ _ _ _ Hin Hc'). done.
  - exfalso. destruct (co_pending0 _ _ _ Hc) as (_ & <- & _). rewrite Ec in Hc.
    destruct (co_past0 _ _ _ _ Hin' Hc). lia.
  - exfalso. destruct (co_pending0 _ _ _ Hc) as (_ & <- & _ & _). destruct (co_pending0 _ _ _ Hc') as (_ & <- & _).
    rewrite Ec in Hc. rewrite Hc in Hc'. simplify_eq. lia.
Qed.

Lemma issued_client n cls hist now r t : clients_ok n cls hist now -> issued cls hist r t ->
  0 < req_client r < 2 ^ 62 /\ req_cmd r <= nextSeq (cl_clerk (cls (req_client r))) - 1 /\ t < now.
Proof.
  intros [] [(op & Hin & <-)|(c & Hc)].
  - destruct (co_done0 r op Hin) as (? & ? & ? & _). lia.
  - destruct (co_pending0 c r t Hc) as (? & <- & ? & ? & ?). lia.
Qed.

(** ** What the clerks do *)
Lemma clients_time n cls hist now now' :
  clients_ok n cls hist now -> now <= now' -> clients_ok n cls hist now'.
Proof.
  intros [] Hle. split; try done.
  - intros c r t Hc. destruct (co_pending0 c r t Hc) as (? & ? & ? & ? & ?). split_and!; done || lia.
  - intros r op Hin. destruct (co_done0 r op Hin) as (? & ? & ? & ?). split_and!; try done; lia.
  - intros c num Hw%co_wait0. lia.
Qed.

(** A clerk turns to a server, calls it, or gives up a call. *)
Lemma clients_touch n cls hist now c ck' w :
  clients_ok n cls hist now ->
  servers ck' = servers (cl_clerk (cls c)) -> clientID ck' = clientID (cl_clerk (cls c)) ->
  nextSeq ck' = nextSeq (cl_clerk (cls c)) -> (forall num, w = Some num -> num <= now) ->
  clients_ok n (<[c := mkClerkst ck' (cl_req (cls c)) w]> cls) hist (now + 1) /\
  forall r t, issued (<[c := mkClerkst ck' (cl_req (cls c)) w]> cls) hist r t <-> issued cls hist r t.
Proof.
  intros Hok E1 E2 E3 Hw. apply (clients_time _ _ _ _ (now + 1)) in Hok as []; [|lia].
  set (cls' := <[c := mkClerkst ck' (cl_req (cls c)) w]> cls).
  assert (Hreq : forall d, cl_req (cls' d) = cl_req (cls d)) by (intros d; unfold cls'; by fn_cases).
  assert (Hseq : forall d, nextSeq (cl_clerk (cls' d)) = nextSeq (cl_clerk (cls d)))
    by (intros d; unfold cls'; by fn_cases).
  assert (Hiss : forall r t, issued cls' hist r t <-> issued cls hist r t)
    by (intros r t; unfold issued; by setoid_rewrite Hreq).
  split; [|done]. split; try done.
  - intros d. unfold cls'. fn_cases; [|apply co_clerk0]. rewrite E1, E2, E3. apply co_clerk0.
  - intros d r t. rewrite Hreq, Hseq. apply co_pending0.
  - intros r op. rewrite Hseq. apply co_done0.
  - intros r op r' t'. rewrite Hreq. apply co_past0.
  - intros r op r' t'. rewrite Hiss. apply co_ties0.
  - intros d num. unfold cls'. fn_cases; [|apply co_wait0]. intros H%Hw. lia.
Qed.

(** The next request of a clerk. *)
Lemma clients_invoke n cls hist now c o ck seq :
  clients_ok n cls hist now -> cl_req (cls c) = None -> 0 < c < 2 ^ 62 ->
  nextSeq (cl_clerk (cls c)) < 2 ^ 64 - 1 -> takeSeq (cl_clerk (cls c)) = (ck, seq) ->
  let r := request_of o (clientID ck) seq in
  let cls' := <[c := mkClerkst ck (Some (r, now)) None]> cls in
  clients_ok n cls' hist (now + 1) /\
  forall r' t', issued cls' hist r' t' <-> issued cls hist r' t' \/ (r' = r /\ t' = now).
Proof.
  intros Hok Hnone Hc Hseq Htake r cls'. unfold takeSeq in Htake. simplify_eq.
  apply (clients_time _ _ _ _ (now + 1)) in Hok as Hok'; [|lia]. destruct Hok' as [].
  destruct (co_clerk0 c) as (Es & Eid & Hpos). rewrite uint64_nrand in Eid by done.
  assert (Hid : req_client r = c /\ req_cmd r = nextSeq (cl_clerk (cls c)))
    by (unfold r; simpl; rewrite Eid; by destruct o).
  assert (Hnext : uint64 (nextSeq (cl_clerk (cls c)) + 1) = nextSeq (cl_clerk (cls c)) + 1)
    by (unfold uint64; rewrite Z.mod_small; lia).
  assert (Hiss : forall r' t', issued cls' hist r' t' <-> issued cls hist r' t' \/ (r' = r /\ t' = now)).
  { intros r' t'. unfold issued, cls'. split.
    - intros [?|[d Hd]]; [tauto|]. revert Hd. fn_cases; simpl; [intros [= <- <-]; tauto|]. eauto.
    - intros [[?|[d Hd]]|[-> ->]]; [tauto| |].
      + right. exists d. fn_cases; congruence || done.
      + right. exists c. by rewrite fn_lookup_insert. }
  split; [|done]. split; try done.
  - intros d. unfold cls'. fn_cases; [|apply co_clerk0]. cbn [cl_clerk nextSeq clientID servers]. rewrite Hnext. split_and!; [done| |lia].
    by rewrite Eid, uint64_nrand.
  - intros d r' t'. unfold cls'. fn_cases; [|apply co_pending0]. simpl. intros [= <- <-].
    rewrite Hnext. destruct Hid as [-> ->]. split_and!; done || lia.
  - intros r' op Hin. destruct (co_done0 r' op Hin) as (? & ? & ? & ?). split_and!; try done; try lia.
    unfold cls'. fn_cases; simpl; [rewrite Hnext|]; lia.
  - intros r' op r'' t'' Hin. unfold cls'. fn_cases; [|by apply co_past0].
    destruct (co_done _ _ _ _ Hok r' op Hin) as (? & Hlt & ? & ?). simpl. intros [= <- <-].
    destruct Hid as [_ ->]. lia.
  - intros r' op r'' t'' Hin. rewrite Hiss. intros [?|[-> ->]]; [by eapply co_ties0|].
    destruct (co_done _ _ _ _ Hok r' op Hin) as (_ & _ & ? & _). lia.
  - intros d num. unfold cls'. fn_cases; [done|apply co_wait0].
Qed.

(** A clerk's request returns. *)
Lemma clients_return n cls hist now c r t v :
  clients_ok n cls hist now -> cl_req (cls c) = Some (r, t) ->
  let op := mkOperation (KvIn (req_input r)) t (KvOut (mkKvOutput v)) now in
  let cls' := <[c := mkClerkst (cl_clerk (cls c)) None None]> cls in
  clients_ok n cls' (hist ++ [(r, op)]) (now + 1) /\
  forall r' t', issued cls' (hist ++ [(r, op)]) r' t' <-> issued cls hist r' t'.
Proof.
  intros Hok Hreq op cls'. pose proof Hok as [].
  destruct (co_pending0 c r t Hreq) as (Hc & Ec & Ek & Hk & Ht).
  assert (Hin : forall x y, (x, y) ∈ hist ++ [(r, op)] <-> (x, y) ∈ hist \/ (x = r /\ y = op))
    by (intros x y; rewrite elem_of_app, list_elem_of_singleton; naive_solver).
  assert (Hnew : forall x y, (x, y) ∈ hist -> req_client x = c -> req_cmd x < req_cmd r /\ ReturnTime y < t).
  { intros x y Hx E. eapply co_past0; [done|]. by rewrite E. }
  assert (Hiss : forall r' t', issued cls' (hist ++ [(r, op)]) r' t' <-> issued cls hist r' t').
  { intros r' t'. unfold issued, cls'. setoid_rewrite Hin. split.
    - intros [(y & [?|[-> ->]] & E)|[d Hd]]; [eauto|right; exists c; by rewrite Hreq, <- E|].
      revert Hd. fn_cases; [done|eauto].
    - intros [(y & ? & ?)|[d Hd]]; [left; eauto|]. destruct (decide (d = c)) as [->|Hne].
      + left. exists op. rewrite Hreq in Hd. simplify_eq. split; [by right|done].
      + right. exists d. by rewrite fn_lookup_insert_ne. }
  assert (Hseq : forall d, nextSeq (cl_clerk (cls' d)) = nextSeq (cl_clerk (cls d)))
    by (intros d; unfold cls'; by fn_cases).
  split; [|done]. split.
  - intros d. unfold cls'. fn_cases; apply co_clerk0.
  - intros d r' t'. unfold cls'. fn_cases; [done|]. intros (? & ? & ? & ? & ?)%co_pending0. split_and!; done || lia.
  - intros x y. rewrite Hin, Hseq. intros [H|[-> ->]].
    + destruct (co_done0 x y H) as (? & ? & ? & ?). split_and!; done || lia.
    + rewrite Ec. destruct (co_clerk0 c) as (_ & _ & ?). simpl.
      split_and!; try done; lia.
  - intros x y x' t'. rewrite Hin. unfold cls'. fn_cases; [done|]. intros [?|[-> ->]] Hq; [by eapply co_past0|congruence].
  - intros x y x' y'. rewrite !Hin. intros [H|[-> ->]] [H'|[-> ->]] E; try lia; [by apply co_order0| |].
    + intros _. simpl. apply (Hnew x y H). congruence.
    + intros ?. destruct (Hnew x' y' H'); [congruence|lia].
  - rewrite !fmap_app. apply NoDup_app. split_and!; [done| |apply NoDup_singleton].
    intros x (x' & -> & ([x1 y1] & -> & Hx)%list_elem_of_fmap)%list_elem_of_fmap [= E1 E2]%list_elem_of_singleton.
    simpl in *. destruct (Hnew x1 y1 Hx); [congruence|lia].
  - intros x y x' t'. rewrite Hin, Hiss. intros [?|[-> ->]] Hq; [by eapply co_ties0|].
    destruct (issued_client n cls hist now x' t' Hok Hq) as (_ & _ & ?). simpl. lia.
  - intros d num. unfold cls'. fn_cases; [done|]. intros ?%co_wait0. lia.
Qed.
End Session.
