(* ===== verification/KVReplica.v ===== *)
(** * A key/value server inside the service

    The invariant of one server of the service of KVService.v: its data is what
    the log makes of a prefix of its commands, whether it took them one by one
    from applyCh or the first of them inside a snapshot, and every message in one
    of its channels belongs to a request its duplicate record covers. *)

From stdpp Require Import base functions list list_numbers gmap strings relations.
From S2P Require Import Prelude Gob RaftNode RaftNodeFacts RaftSpec RaftSystem RaftRefine RaftLead RaftSim RaftSafety RaftApply RaftBounds RaftTrace RaftOrigin RaftSnap KVServer KVFacts KVClient LinCheck KVService KVSession.
Open Scope Z_scope.

(** ** The duplicate record *)
Lemma seen_applyOp kv kv' o :
  data kv' = applyOp (DupMap kv) (Kvdb kv) o ->
  seenCmd kv' (ClientID o) (CmdID o) = true /\
  forall c k, seenCmd kv c k = true -> seenCmd kv' c k = true.
Proof.
  unfold data, applyOp, seenCmd. intros E.
  destruct (DupMap kv !! ClientID o) as [m|] eqn:Em; [destruct (Z.ltb_spec m (CmdID o))|]; injection E as E _.
  - rewrite E. split; [rewrite lookup_insert_eq; apply Z.leb_refl|]. intros c k.
    destruct (decide (ClientID o = c)) as [<-|]; [|by rewrite lookup_insert_ne].
    rewrite lookup_insert_eq, Em. intros. zbool. apply Z.leb_le. lia.
  - rewrite E, Em. split; [apply Z.leb_le; lia|]. done.
  - rewrite E. split; [rewrite lookup_insert_eq; apply Z.leb_refl|]. intros c k.
    destruct (decide (ClientID o = c)) as [<-|]; [|by rewrite lookup_insert_ne]. by rewrite Em.
Qed.

Lemma applyOps_snoc st l o : applyOps st (l ++ [o]) = applyOp (applyOps st l).1 (applyOps st l).2 o.
Proof. unfold applyOps. by rewrite foldl_app. Qed.

(** The record holds requests of the log. *)
Lemma dup_in_log l c k : (applyOps (∅, ∅) l).1 !! c = Some k -> (c, k) ∈ op_id <$> l.
Proof.
  induction l as [|o l IH] using rev_ind; [done|]. rewrite applyOps_snoc, fmap_app. intros H.
  apply elem_of_app. destruct (applyOps (∅, ∅) l) as [dup db]. unfold applyOp in H. simpl in *.
  match type of H with context [if ?b then _ else _] => destruct b end; [|auto].
  simpl in H. apply lookup_insert_Some in H as [[<- <-]|[_ ?]]; [right; by left|auto].
Qed.

(** A longer log records no less. *)
Lemma dup_grows l l' c k : l `prefix_of` l' -> (applyOps (∅, ∅) l).1 !! c = Some k ->
  exists k', (applyOps (∅, ∅) l').1 !! c = Some k' /\ k <= k'.
Proof.
  intros [m ->]. induction m as [|o m IH] using rev_ind; intros Hk.
  { rewrite app_nil_r. exists k. by split. }
  destruct (IH Hk) as (k' & Hk' & Hle). rewrite app_assoc, applyOps_snoc.
  destruct (applyOps (∅, ∅) (l ++ m)) as [dup db]. simpl in *. unfold applyOp.
  destruct (decide (ClientID o = c)) as [<-|Hne].
  - rewrite Hk'. destruct (Z.ltb_spec k' (CmdID o)); simpl; [|by exists k'].
    exists (CmdID o). rewrite lookup_insert_eq. split; [done|lia].
  - exists k'. split; [|done]. case_match; [case_match|]; simpl; rewrite ?lookup_insert_ne by done; done.
Qed.

(** Requests stay covered. *)
Definition covers_more (kv kv' : KVServer) : Prop :=
  forall c k, seenCmd kv c k = true -> seenCmd kv' c k = true.

Lemma covers_refl kv : covers_more kv kv.
Proof. by intros c k. Qed.

(** ** The invariant *)
Definition msg_ok (kv : KVServer) (d : DoneMsg) : Prop :=
  dm_ClientID d = 0 \/ seenCmd kv (dm_ClientID d) (dm_CmdID d) = true.

Record server_ok (kv : KVServer) (l : list Op) : Prop := {
  so_data : data kv = applyOps (∅, ∅) l;
  so_heap c x d : heap kv !! c = Some x -> buffer x = Some d -> msg_ok kv d
}.

(** What the handlers do to a server: its data stays, and a channel's message was
    in a channel before. *)
Record touches (kv kv' : KVServer) : Prop := {
  to_max : maxraftstate kv' = maxraftstate kv;
  to_data : data kv' = data kv;
  to_heap c x d : heap kv' !! c = Some x -> buffer x = Some d ->
    msg_ok kv d \/ exists c' x', heap kv !! c' = Some x' /\ buffer x' = Some d
}.

Lemma seenCmd_data kv kv' c k : data kv' = data kv -> seenCmd kv' c k = seenCmd kv c k.
Proof. unfold data, seenCmd. by intros [= -> _]. Qed.

Lemma server_touch kv kv' l : server_ok kv l -> touches kv kv' -> server_ok kv' l.
Proof.
  intros [] []. split; [congruence|]. intros c x d Hc Hd.
  unfold msg_ok. rewrite (seenCmd_data _ _ _ _ to_data0).
  destruct (to_heap0 c x d Hc Hd) as [?|(c' & x' & ? & ?)]; [done|]. by eapply so_heap0.
Qed.

(** Replacing a channel by one whose message is known. *)
Lemma touches_insert kv c y :
  (forall d, buffer y = Some d -> msg_ok kv d \/ exists c' x', heap kv !! c' = Some x' /\ buffer x' = Some d) ->
  touches kv (set_heap (<[c := y]> (heap kv)) kv).
Proof.
  intros Hy. split; [done|done|]. simpl. intros c' x d [[_ <-]|[_ Hc]]%lookup_insert_Some Hd; [by apply Hy|].
  right. eauto.
Qed.

Lemma touches_stub kv i : touches kv (stubFor kv i).1.
Proof.
  unfold stubFor. destruct (applyStub kv !! i); simpl; (split; [done|done|]); simpl; [right; eauto|].
  intros c x d [[_ <-]|[_ Hc]]%lookup_insert_Some Hd; [done|]. right. eauto.
Qed.

Lemma touches_receive kv c kv' d : receive kv c = Ret (kv', d) -> touches kv kv' /\
  (d = mkDoneMsg 0 0 \/ exists x, heap kv !! c = Some x /\ buffer x = Some d).
Proof.
  unfold receive. intros H. destruct (heap kv !! c) as [x|] eqn:Hc; [|done].
  destruct (buffer x) as [m|] eqn:Hb; simplify_eq.
  - split; [by apply touches_insert|]. right. eauto.
  - destruct (closed x); simplify_eq. split; [|by left]. split; [done|done|]. right. eauto.
Qed.

Lemma touches_close kv c kv' : close kv c = Ret kv' -> touches kv kv'.
Proof.
  unfold close. intros H. destruct (heap kv !! c) as [x|] eqn:Hc; [|done].
  destruct (closed x); simplify_eq. apply touches_insert. simpl. right. eauto.
Qed.

Lemma touches_send kv c d kv' : send kv c d = Ret kv' -> msg_ok kv d -> touches kv kv'.
Proof.
  unfold send. intros H Hd. destruct (heap kv !! c) as [x|] eqn:Hc; [|done].
  destruct (closed x); [done|]. destruct (buffer x); simplify_eq. apply touches_insert.
  simpl. intros ? [= <-]. by left.
Qed.

Lemma touches_drain kv c : touches kv (drain kv c).
Proof.
  unfold drain. assert (touches kv kv) by (split; [done|done|right; eauto]).
  destruct (heap kv !! c) as [x|]; [|done]. destruct (closed x); [done|]. by apply touches_insert.
Qed.

Lemma touches_delete kv i : touches kv (enterDelete kv i).
Proof. split; [done|done|]. right. eauto. Qed.

Lemma touches_trans kv1 kv2 kv3 : touches kv1 kv2 -> touches kv2 kv3 -> touches kv1 kv3.
Proof.
  intros [M1 D1 H1] [M2 D2 H2]. split; [congruence|congruence|]. intros c x d Hc Hd.
  destruct (H2 c x d Hc Hd) as [?|(c' & x' & ? & ?)]; [|by eapply H1]. left.
  unfold msg_ok in *. by rewrite (seenCmd_data _ _ _ _ D1) in *.
Qed.

(** ** The apply loop *)
Section Take.
Context {GD : Gob (gmap string string)} {GM : Gob (gmap Z Z)}.

(** Snapshot [b] holds the effect of the commands [l]. *)
Definition snap_good (l : list Op) (b : bytes) : Prop :=
  decodeSnapshot b = ((applyOps (∅, ∅) l).2, (applyOps (∅, ∅) l).1).

Lemma encode_good kv l : data kv = applyOps (∅, ∅) l -> snap_good l (encodeSnapshot kv).
Proof. intros E. unfold snap_good. by rewrite decode_encodeSnapshot, <- E. Qed.

(** The apply loop's section is the effect of the operation followed by channel
    operations that leave it its own message; it may start a compaction. *)
Lemma take_command kv sz idx o kv' r :
  dealWithApplyMsg kv sz (CommandMsg idx (Some o)) = Ret (kv', r) ->
  (let '(dup, db) := applyOp (DupMap kv) (Kvdb kv) o in touches (set_db dup db kv) kv') /\
  (r = None \/ (maxraftstate kv <> -1 /\ r = Some (idx, encodeSnapshot kv'))).
Proof.
  intros H. cbn [dealWithApplyMsg] in H.
  destruct (applyOp (DupMap kv) (Kvdb kv) o) as [dup db] eqn:Ea.
  pose proof (touches_stub (set_db dup db kv) idx) as Hs.
  destruct (stubFor (set_db dup db kv) idx) as [kv2 c] eqn:Es. cbn [fst] in Hs.
  apply bind_Ret_inv in H as (kv3 & H3 & H).
  assert (Ht : touches (set_db dup db kv) kv3).
  { eapply touches_trans; [exact Hs|]. eapply touches_trans; [apply touches_drain|].
    eapply touches_send; [exact H3|]. right.
    rewrite (seenCmd_data kv2), (seenCmd_data _ _ _ _ (to_data _ _ Hs)) by (apply (to_data _ _ (touches_drain _ _))).
    apply (seen_applyOp kv). by rewrite Ea. }
  pose proof (to_max _ _ Ht) as Hm. simpl in Hm.
  destruct (negb _ && _) eqn:Hc; simplify_eq; (split; [exact Ht|]); [right|by left].
  split; [|done]. zbool. congruence.
Qed.

(** A command. *)
Lemma server_command kv l sz idx o kv' r :
  server_ok kv l -> dealWithApplyMsg kv sz (CommandMsg idx (Some o)) = Ret (kv', r) ->
  server_ok kv' (l ++ [o]) /\ covers_more kv kv' /\
  (r = None \/ exists b, r = Some (idx, b) /\ snap_good (l ++ [o]) b /\ 1 <= len b).
Proof.
  intros Hok H. pose proof Hok as []. destruct (take_command kv sz _ o kv' r H) as [Ht Hr].
  destruct (applyOp (DupMap kv) (Kvdb kv) o) as [dup db] eqn:Ea.
  assert (Hdata : data (set_db dup db kv) = applyOp (DupMap kv) (Kvdb kv) o) by (by rewrite Ea).
  destruct (seen_applyOp kv (set_db dup db kv) o Hdata) as [_ Hmono].
  assert (Hok' : server_ok kv' (l ++ [o])).
  { apply (server_touch (set_db dup db kv)); [|done]. split.
    - rewrite Hdata, applyOps_snoc, <- so_data0. done.
    - intros c x d Hc Hd. destruct (so_heap0 c x d Hc Hd) as [?|?]; [by left|right; by apply Hmono]. }
  split; [done|]. split.
  - intros c k Hs. rewrite (seenCmd_data _ _ _ _ (to_data _ _ Ht)). by apply Hmono.
  - destruct Hr as [->|[_ ->]]; [by left|right]. eexists. split; [done|]. split.
    + by apply encode_good, Hok'.
    + pose proof (encodeSnapshot_nonempty kv'). lia.
Qed.

(** A snapshot of a longer prefix of the log. *)
Lemma server_snapshot kv l l' sz b kv' r :
  server_ok kv l -> l `prefix_of` l' -> snap_good l' b ->
  dealWithApplyMsg kv sz (SnapshotMsg b) = Ret (kv', r) ->
  r = None /\ server_ok kv' l' /\ covers_more kv kv'.
Proof.
  intros [Hd Hh] Hp Hb H. unfold dealWithApplyMsg in H. rewrite Hb in H. simplify_eq. split; [done|].
  set (kv' := set_db _ _ kv).
  assert (Hcov : covers_more kv kv').
  { intros c k. unfold seenCmd. simpl. destruct (DupMap kv !! c) as [m|] eqn:Em; [|done]. intros Hk. zbool.
    destruct (dup_grows l l' c m Hp) as (m' & -> & ?); [by rewrite <- Hd|]. apply Z.leb_le. lia. }
  split; [|done]. split; [unfold data; simpl; by destruct (applyOps (∅, ∅) l')|].
  intros c x d Hc Hx. destruct (Hh c x d Hc Hx) as [?|?]; [by left|right; by apply Hcov].
Qed.
End Take.
