(* ===== verification/KVServiceInv.v ===== *)
(** * The invariant of the service

    For every execution of the service of KVService.v whose cluster events are in
    order: which requests the log, the servers, the snapshots, the calls in flight
    and the recorded operations speak of.  A server's data is the effect of a
    prefix of the log, and what it has yet to take from applyCh continues that
    prefix; a server that answers a request covers it, that is, has applied it or a
    later one of the same clerk; what a clerk accepted was read from a prefix of
    the log that contains its request; and every command of that prefix was called
    before the request returned ([sealed]). *)

From stdpp Require Import base functions list list_numbers gmap strings relations.
From S2P Require Import Prelude Gob RaftNode RaftNodeFacts RaftSpec RaftSystem RaftRefine RaftLead RaftSim RaftSafety RaftApply RaftBounds RaftTrace RaftOrigin RaftSnap KVServer KVFacts KVClient LinCheck KVService KVSession KVReplica.
Open Scope Z_scope.

(** What request [r] answers when the commands [l] have been applied. *)
Definition result (l : list Op) (r : request) : string :=
  match r with
  | ReqGet a => default ""%string ((applyOps (∅, ∅) l).2 !! ga_Key a)
  | ReqPut _ => ""
  end.

Definition answered (s : sys Op) (r : request) (v : string) : Prop :=
  exists l, gprefix s l /\ (exists k, req_cmd r <= k /\ (req_client r, k) ∈ op_id <$> l) /\ v = result l r.

(** ** Handlers *)
Definition covered (kv : KVServer) (r : request) : Prop := seenCmd kv (req_client r) (req_cmd r) = true.

Definition pc_ok (kv : KVServer) (r : request) (p : pc) : Prop :=
  match p with
  | PStart _ o | PStub _ o _ | PSelect _ o _ _ => o = req_op r
  | PGot _ o _ _ d => o = req_op r /\ msg_ok kv d
  | PDelete _ _ | PReply _ true => covered kv r
  | _ => True
  end.

Definition stage_ok (s : sys Op) (kvs : Z -> KVServer) (c : kvcall) : Prop :=
  match kc_stage c with
  | Requested => True
  | Running p => pc_ok (kvs (kc_server c)) (kc_req c) p
  | Replied resp => forall v, accepted resp = Some v -> answered s (kc_req c) v
  end.

Lemma pc_ok_mono kv kv' r p : covers_more kv kv' -> pc_ok kv r p -> pc_ok kv' r p.
Proof.
  intros H. destruct p as [| | | | |? ? ? ? d| |? []]; simpl; try done; unfold covered; auto.
  intros [? [?|?]]; (split; [done|]); [by left|right; auto].
Qed.

Section Invariant.
Context {GO : Gob Op} {GD : Gob (gmap string string)} {GM : Gob (gmap Z Z)} (n mx : Z).
Implicit Types sv : service.

Definition sv_issued sv : request -> Z -> Prop := issued (sv_clerks sv) (sv_hist sv).
Definition issued_op sv (o : Op) : Prop := exists r t, sv_issued sv r t /\ o = req_op r.

(** The commands [l] were all called before time [t]. *)
Definition sealed sv (l : list Op) (t : Z) : Prop :=
  forall o, o ∈ l -> exists r t', sv_issued sv r t' /\ t' < t /\ o = req_op r.

Definition hist_ok sv (h : request * Operation KvValue) : Prop :=
  exists l, gprefix (sv_raft sv) l /\ req_id h.1 ∈ op_id <$> l /\
    Output h.2 = KvOut (mkKvOutput (result l h.1)) /\ sealed sv l (ReturnTime h.2).

Record call_ok sv (c : kvcall) : Prop := {
  cc_server : 0 <= kc_server c < n;
  cc_issued : exists t, sv_issued sv (kc_req c) t;
  cc_client : kc_client c = req_client (kc_req c);
  cc_num : kc_num c < sv_time sv;
  cc_stage : stage_ok (sv_raft sv) (sv_kv sv) c
}.

(** A server that has taken [k] messages: its data is the effect of a prefix of the
    log that the messages to come continue. *)
Definition replica_at (s : sys Op) (kv : KVServer) (k : nat) (i : Z) : Prop :=
  exists l, gprefix s l /\ server_ok kv l /\ (k <= length (feed s i))%nat /\
    stream snap_good s (len l) (drop k (feed s i)) (top s i).

Definition sv_orderly sv : sys Op -> event Op -> Prop := orderly (issued_op sv) snap_good.

Record sv_inv sv : Prop := {
  si_clients : clients_ok n (sv_clerks sv) (sv_hist sv) (sv_time sv);
  si_reach : reach n (sv_orderly sv) (sv_raft sv);
  si_compact x : x ∈ sv_compact sv -> snap_at snap_good (sv_raft sv) x.1.2 x.2;
  si_server i : 0 <= i < n -> replica_at (sv_raft sv) (sv_kv sv i) (sv_taken sv i) i;
  si_calls c : c ∈ sv_calls sv -> call_ok sv c;
  si_wait c num r t x : cl_wait (sv_clerks sv c) = Some num -> cl_req (sv_clerks sv c) = Some (r, t) ->
    x ∈ sv_calls sv -> kc_client x = c -> kc_num x = num -> kc_req x = r;
  si_hist h : h ∈ sv_hist sv -> hist_ok sv h
}.

(** ** Later states *)
Record later sv sv' : Prop := {
  la_issued r t : sv_issued sv r t -> sv_issued sv' r t;
  la_raft : sys_logs (sv_raft sv) ⊆ sys_logs (sv_raft sv');
  la_time : sv_time sv <= sv_time sv'
}.

Lemma answered_mono s s' r v : sys_logs s ⊆ sys_logs s' -> answered s r v -> answered s' r v.
Proof. intros Hs (l & Hl & ? & ?). exists l. split; [by eapply gprefix_mono|done]. Qed.

Lemma hist_ok_mono sv sv' h : later sv sv' -> hist_ok sv h -> hist_ok sv' h.
Proof.
  intros [] (l & ? & ? & ? & Hse). exists l. split_and!; try done.
  - by eapply gprefix_mono.
  - intros o (r & t & ? & ? & ?)%Hse. eauto 6.
Qed.

Lemma call_ok_mono sv sv' c : later sv sv' ->
  (match kc_stage c with Running _ => covers_more (sv_kv sv (kc_server c)) (sv_kv sv' (kc_server c)) | _ => True end) ->
  call_ok sv c -> call_ok sv' c.
Proof.
  intros [] Hkv [? (t & ?) ? ? Hst]. split; try done; [eauto|lia|].
  unfold stage_ok in *. destruct (kc_stage c); [done|by eapply pc_ok_mono|].
  intros v Hv. eapply answered_mono; [done|]. by apply Hst.
Qed.

Lemma reach_issued sv sv' s : (forall r t, sv_issued sv r t -> sv_issued sv' r t) ->
  reach n (sv_orderly sv) s -> reach n (sv_orderly sv') s.
Proof.
  intros H. apply reach_weaken. intros s' e [? He]. split; [done|]. destruct e; try done.
  destruct He as (r & t & ? & ?). exists r, t. auto.
Qed.

Lemma inv_later sv sv' : sv_inv sv -> later sv sv' ->
  clients_ok n (sv_clerks sv') (sv_hist sv') (sv_time sv') ->
  reach n (sv_orderly sv') (sv_raft sv') ->
  (forall x, x ∈ sv_compact sv' -> x ∈ sv_compact sv \/ snap_at snap_good (sv_raft sv') x.1.2 x.2) ->
  (forall i, 0 <= i < n -> replica_at (sv_raft sv') (sv_kv sv' i) (sv_taken sv' i) i) ->
  (forall x, x ∈ sv_calls sv' -> call_ok sv' x \/ (x ∈ sv_calls sv /\
     match kc_stage x with Running _ => covers_more (sv_kv sv (kc_server x)) (sv_kv sv' (kc_server x)) | _ => True end)) ->
  (forall c num r t x, cl_wait (sv_clerks sv' c) = Some num -> cl_req (sv_clerks sv' c) = Some (r, t) ->
    x ∈ sv_calls sv' -> kc_client x = c -> kc_num x = num -> kc_req x = r) ->
  (forall h, h ∈ sv_hist sv' -> hist_ok sv' h \/ h ∈ sv_hist sv) -> sv_inv sv'.
Proof.
  intros [] Hla Hc Hr Hcomp Hs Hcalls Hw Hh. split; try done.
  - intros x [?|?]%Hcomp; [|done]. eapply snap_at_mono; [exact (la_raft _ _ Hla)|auto].
  - intros x Hx. destruct (Hcalls x Hx) as [?|[? ?]]; [done|]. eapply call_ok_mono; eauto.
  - intros h Hin. destruct (Hh h Hin) as [?|?]; [done|]. eapply hist_ok_mono; eauto.
Qed.

(** ** The clerks' events *)

(** Only clerks change, and a call may start. *)
Lemma clerk_event sv cls' new :
  let sv' := mkService (sv_raft sv) (sv_kv sv) (sv_taken sv) (sv_compact sv) cls' (sv_calls sv ++ new)
    (sv_hist sv) (sv_time sv + 1) in
  sv_inv sv -> clients_ok n cls' (sv_hist sv) (sv_time sv + 1) ->
  (forall r t, sv_issued sv r t -> sv_issued sv' r t) ->
  (forall x, x ∈ new -> call_ok sv' x) ->
  (forall c num r t x, cl_wait (cls' c) = Some num -> cl_req (cls' c) = Some (r, t) ->
    x ∈ sv_calls sv ++ new -> kc_client x = c -> kc_num x = num -> kc_req x = r) ->
  sv_inv sv'.
Proof.
  intros sv' I Hc Hiss Hnew Hw. eapply (inv_later sv); try done.
  - split; [done|reflexivity|]. simpl. lia.
  - eapply reach_issued; [exact Hiss|exact (si_reach _ I)].
  - intros y Hy. by left.
  - exact (si_server _ I).
  - intros x [Hx|Hx]%elem_of_app; [|by left; apply Hnew]. right. split; [done|]. case_match; done || apply covers_refl.
  - intros h Hh. by right.
Qed.

Lemma invoke_inv sv c o sv' :
  sv_inv sv -> sv_exec1 n mx sv (SInvoke c o) = Some sv' -> sv_inv (tick sv').
Proof.
  intros I H. simpl in H. destruct (cl_req (sv_clerks sv c)) eqn:Hreq; [done|].
  destruct ((0 <? c) && (c <? 2 ^ 62) && _) eqn:Hg; [|done]. zbool. simplify_eq.
  destruct (clients_invoke n _ _ _ c o _ _ (si_clients _ I) Hreq ltac:(lia) ltac:(lia) eq_refl) as [Hok Hiss].
  unfold tick, set_clerk. simpl. rewrite <- (app_nil_r (sv_calls sv)). apply clerk_event; try done.
  - intros r t Hr. apply Hiss. by left.
  - set_solver.
  - intros d num r t x. rewrite app_nil_r. fn_cases; [done|]. apply (si_wait _ I).
Qed.

Lemma send_inv sv c sv' :
  sv_inv sv -> sv_exec1 n mx sv (SSend c) = Some sv' -> sv_inv (tick sv').
Proof.
  intros I H. simpl in H. destruct (cl_req (sv_clerks sv c)) as [[r t]|] eqn:Hreq; [|done].
  destruct (cl_wait (sv_clerks sv c)) eqn:Hwait; [done|].
  destruct (target (cl_clerk (sv_clerks sv c))) as [i| |] eqn:Ht; [|done..]. simplify_eq.
  destruct (clients_touch n _ _ _ c (cl_clerk (sv_clerks sv c)) (Some (sv_time sv)) (si_clients _ I))
    as [Hok Hiss]; try done. { by intros num [= <-]. }
  rewrite Hreq in Hok, Hiss. pose proof (si_clients _ I) as C.
  destruct (co_pending _ _ _ _ C c r t Hreq) as (? & Ec & _). unfold tick, set_calls, set_clerk. simpl.
  apply clerk_event; try done.
  - intros x y. apply Hiss.
  - intros x ->%list_elem_of_singleton. unfold target in Ht. case_decide; [|done]. simplify_eq.
    destruct (co_clerk _ _ _ _ C (req_client r)) as [Es _]. rewrite Es in *.
    split; simpl; [done| |done|lia|done]. exists t. apply Hiss. right. by exists (req_client r).
  - intros d num r' t' x. fn_cases.
    + intros [= <-] [= <- <-] [Hx|Hx]%elem_of_app Ex En; [|by apply list_elem_of_singleton in Hx as ->].
      pose proof (cc_num _ _ (si_calls _ I x Hx)). lia.
    + intros Hw Hr [Hx|Hx]%elem_of_app; [by eapply (si_wait _ I)|].
      apply list_elem_of_singleton in Hx as ->. simpl. congruence.
Qed.

(** The clerk forgets the call it waited for. *)
Lemma forget_inv sv c ck' :
  sv_inv sv -> servers ck' = servers (cl_clerk (sv_clerks sv c)) ->
  clientID ck' = clientID (cl_clerk (sv_clerks sv c)) ->
  nextSeq ck' = nextSeq (cl_clerk (sv_clerks sv c)) ->
  sv_inv (tick (set_clerk c (mkClerkst ck' (cl_req (sv_clerks sv c)) None) sv)).
Proof.
  intros I E1 E2 E3.
  destruct (clients_touch n _ _ _ c ck' None (si_clients _ I) E1 E2 E3) as [Hok Hiss]; [done|].
  unfold tick, set_clerk. simpl. rewrite <- (app_nil_r (sv_calls sv)). apply clerk_event; try done.
  - intros r t. apply Hiss.
  - set_solver.
  - intros d num r t x. rewrite app_nil_r. fn_cases; [done|]. apply (si_wait _ I).
Qed.

Lemma fail_inv sv c sv' :
  sv_inv sv -> sv_exec1 n mx sv (SFail c) = Some sv' -> sv_inv (tick sv').
Proof.
  intros I H. simpl in H. destruct (cl_wait (sv_clerks sv c)); [|done]. simplify_eq. by apply forget_inv.
Qed.

(** ** A request returns *)

(** A logged operation was issued. *)
Lemma logged_issued sv idx o : sv_inv sv -> logged (sv_raft sv) idx o ->
  exists r t, sv_issued sv r t /\ o = req_op r.
Proof. intros I Hp. exact (proj1 (applied_in_P n _ _ _ _ _ (si_reach _ I) Hp)). Qed.

Lemma gprefix_issued sv l c k : sv_inv sv -> gprefix (sv_raft sv) l -> (c, k) ∈ op_id <$> l ->
  exists r t, sv_issued sv r t /\ req_id r = (c, k).
Proof.
  intros I Hl (o & E & Ho)%list_elem_of_fmap. apply list_elem_of_lookup_1 in Ho as [j Hj].
  destruct (logged_issued sv _ o I (Hl j o Hj)) as (r & t & ? & ->). exists r, t. split; [done|].
  by rewrite <- op_id_req.
Qed.

(** The commands of a log prefix were called before now. *)
Lemma seal_now sv l : sv_inv sv -> gprefix (sv_raft sv) l -> sealed sv l (sv_time sv).
Proof.
  intros I Hl o [j Hj]%list_elem_of_lookup_1. destruct (logged_issued sv _ o I (Hl j o Hj)) as (r & t & Hr & ->).
  exists r, t. split_and!; try done. by destruct (issued_client _ _ _ _ _ _ (si_clients _ I) Hr) as (_ & _ & ?).
Qed.

Lemma return_inv sv x resp sv' :
  sv_inv sv -> x ∈ sv_calls sv -> kc_stage x = Replied resp ->
  clerk_return sv x resp = Some sv' -> sv_inv (tick sv').
Proof.
  intros I Hx Hst H. unfold clerk_return in H.
  destruct (cl_req (sv_clerks sv (kc_client x))) as [[r t]|] eqn:Hreq; [|done].
  destruct (cl_wait (sv_clerks sv (kc_client x))) as [num|] eqn:Hw; [|done].
  destruct (Z.eqb_spec num (kc_num x)) as [->|]; [|done].
  destruct (accepted resp) as [v|] eqn:Hacc; simplify_eq.
  2:{ rewrite <- Hreq. apply forget_inv; [done|by destruct (wrong_leader resp)..]. }
  pose proof (si_wait _ I _ _ _ _ x Hw Hreq Hx eq_refl eq_refl) as Er.
  destruct (clients_return n _ _ _ _ r t v (si_clients _ I) Hreq) as [Hok Hiss].
  destruct (co_pending _ _ _ _ (si_clients _ I) _ _ _ Hreq) as (_ & Ec & Ek & _).
  pose proof (cc_stage _ _ (si_calls _ I x Hx)) as Hans. unfold stage_ok in Hans. rewrite Hst, Er in Hans.
  destruct (Hans v Hacc) as (l & Hl & (k & Hk & Hin) & ->).
  assert (k = req_cmd r) as ->.
  { destruct (gprefix_issued sv l _ _ I Hl Hin) as (r' & t' & Hr' & [= E1 E2]).
    destruct (issued_client _ _ _ _ _ _ (si_clients _ I) Hr') as (_ & Hle & _).
    rewrite E1, E2, Ec in Hle. lia. }
  set (sv' := tick _). assert (Hla : later sv sv').
  { split; [|reflexivity|unfold sv'; simpl; lia]. intros r' t' Hr'. by apply Hiss. }
  eapply (inv_later sv); try done.
  - eapply reach_issued; [exact (la_issued _ _ Hla)|exact (si_reach _ I)].
  - intros y Hy. by left.
  - exact (si_server _ I).
  - intros y Hy. right. split; [done|]. case_match; done || apply covers_refl.
  - intros d num r' t' y. unfold sv'. simpl. fn_cases; [done|]. apply (si_wait _ I).
  - intros h [Hh| ->%list_elem_of_singleton]%elem_of_app; [by right|left].
    exists l. split_and!; try done. intros o (r' & t' & Hr' & ? & ->)%(seal_now sv l I Hl). exists r', t'.
    split_and!; [|done..]. by apply Hiss.
Qed.

(** ** The handlers' events *)

(** An event of the cluster leaves a server that it does not restart where it is. *)
Lemma replica_exec sv e r kv k i :
  reach n (sv_orderly sv) (sv_raft sv) -> sv_orderly sv (sv_raft sv) e -> exec n (sv_raft sv) e = Some r ->
  e <> EvCrash i -> replica_at (sv_raft sv) kv k i -> replica_at r kv k i.
Proof.
  intros Hr Hok He Hne (l & Hl & Hkv & Hk & Hst). exists l.
  split; [by eapply gprefix_mono; [eapply exec_logs_grow|]|]. split; [done|]. by eapply exec_rest.
Qed.

Lemma advance_inv sv k x st r' kvs' :
  sv_inv sv -> sv_calls sv !! k = Some x -> sys_logs (sv_raft sv) ⊆ sys_logs r' ->
  reach n (sv_orderly sv) r' -> (forall i, covers_more (sv_kv sv i) (kvs' i)) ->
  (forall i, 0 <= i < n -> replica_at r' (kvs' i) (sv_taken sv i) i) ->
  stage_ok r' kvs' (at_stage x st) ->
  sv_inv (mkService r' kvs' (sv_taken sv) (sv_compact sv) (sv_clerks sv)
    (<[k := at_stage x st]> (sv_calls sv)) (sv_hist sv) (sv_time sv + 1)).
Proof.
  intros I Hk Hstep Hreach Hcov Hsrv Hst. set (sv' := mkService _ _ _ _ _ _ _ _).
  assert (Hx : x ∈ sv_calls sv) by (by eapply list_elem_of_lookup_2).
  assert (Hin : forall y, y ∈ sv_calls sv' -> y = at_stage x st \/ y ∈ sv_calls sv).
  { intros y (j & Hj)%list_elem_of_lookup_1. unfold sv' in Hj. simpl in Hj.
    apply list_lookup_insert_Some in Hj as [(_ & <- & _)|[_ ?]]; [by left|right; by eapply list_elem_of_lookup_2]. }
  assert (Hla : later sv sv') by (split; [done|done|simpl; lia]).
  eapply (inv_later sv); try done.
  - eapply clients_time; [exact (si_clients _ I)|simpl; lia].
  - intros y Hy. by left.
  - intros y [->|Hy]%Hin; [left|right; split; [done|by case_match]].
    destruct (si_calls _ I x Hx). by split; try done; simpl; lia.
  - intros c num r t y Hw Hr [->|Hy]%Hin; [|by eapply (si_wait _ I)]. simpl.
    intros. by eapply (si_wait _ I c num r t x).
  - intros h Hh. by right.
Qed.

(** A section of a handler that only moves on. *)
Lemma move_inv sv k x st :
  sv_inv sv -> sv_calls sv !! k = Some x -> stage_ok (sv_raft sv) (sv_kv sv) (at_stage x st) ->
  sv_inv (tick (set_calls (<[k := at_stage x st]> (sv_calls sv)) sv)).
Proof.
  intros I Hk Hst. apply (advance_inv sv); try done; [apply (si_reach _ I)|intros i; apply covers_refl|apply (si_server _ I)].
Qed.

(** A section of a handler that touches its server's channels. *)
Lemma touch_inv sv k x p kv' :
  sv_inv sv -> sv_calls sv !! k = Some x -> touches (sv_kv sv (kc_server x)) kv' ->
  pc_ok kv' (kc_req x) p ->
  sv_inv (tick (set_calls (<[k := at_stage x (Running p)]> (sv_calls sv)) (set_kv (kc_server x) kv' sv))).
Proof.
  intros I Hk Ht Hp. apply (advance_inv sv); try done; [apply (si_reach _ I)| | |].
  - intros i c' k'. simpl. fn_cases; try done. by rewrite (seenCmd_data _ _ _ _ (to_data _ _ Ht)).
  - intros i Hi. destruct (si_server _ I i Hi) as (l & Hl & Hok & Hrest). exists l. split_and!; try apply Hrest; [done|].
    simpl. fn_cases; [by eapply server_touch|done].
  - unfold stage_ok. simpl. by rewrite fn_lookup_insert.
Qed.

(** Start. *)
Lemma start_inv sv k x o rf' ret effs p :
  sv_inv sv -> sv_calls sv !! k = Some x -> o = req_op (kc_req x) ->
  Start (raft_of (sv_raft sv) (kc_server x)) o = Ret (rf', ret, effs) ->
  pc_ok (sv_kv sv (kc_server x)) (kc_req x) p ->
  sv_inv (tick (set_calls (<[k := at_stage x (Running p)]> (sv_calls sv))
    (set_raft (put_raft (sv_raft sv) (kc_server x) rf' effs) sv))).
Proof.
  intros I Hk -> Hs Hp. assert (Hx : x ∈ sv_calls sv) by (by eapply list_elem_of_lookup_2).
  destruct (si_calls _ I x Hx) as [Hi (t & Hiss) _ _ _].
  assert (Hex : exec n (sv_raft sv) (EvStart (kc_server x) (req_op (kc_req x))) =
    Some (put_raft (sv_raft sv) (kc_server x) rf' effs)).
  { unfold exec, is_peer. rewrite (proj2 (Z.leb_le _ _)), (proj2 (Z.ltb_lt _ _)) by lia.
    cbn [andb]. by rewrite Hs. }
  assert (Hok : sv_orderly sv (sv_raft sv) (EvStart (kc_server x) (req_op (kc_req x))))
    by (split; [by split; [intros []|]|by exists (kc_req x), t]).
  apply (advance_inv sv); try done.
  - eapply reach_step; [apply (si_reach _ I)|exact Hok|exact Hex].
  - intros i. apply covers_refl.
  - intros i Hi'. eapply replica_exec; [exact (si_reach _ I)|exact Hok|exact Hex|done|]. by apply (si_server _ I).
Qed.

(** A covered request is answered from a prefix of the log that contains it or a
    later one. *)
Lemma covered_answered sv i r isLeader opDone v :
  sv_inv sv -> 0 <= i < n -> (opDone = true -> covered (sv_kv sv i) r) ->
  accepted (req_reply (sv_kv sv i) isLeader opDone r) = Some v -> answered (sv_raft sv) r v.
Proof.
  intros I Hi Hcov Hv. destruct (si_server _ I i Hi) as (l & Hl & [Hdata _] & _).
  assert (opDone = true) as ->.
  { destruct opDone; [done|]. by destruct r. }
  exists l. split_and!.
  - done.
  - specialize (Hcov eq_refl). unfold covered, seenCmd in Hcov.
    destruct (DupMap (sv_kv sv i) !! req_client r) as [k|] eqn:Ek; [|done]. zbool. exists k.
    split; [done|]. apply dup_in_log. rewrite <- Hdata. done.
  - destruct r as [a|a]; simpl in *; [|by simplify_eq].
    rewrite <- Hdata. simpl. destruct (Kvdb (sv_kv sv i) !! ga_Key a); simpl in *; by simplify_eq.
Qed.

Lemma section_inv sv k x p sv' :
  sv_inv sv -> sv_calls sv !! k = Some x -> kc_stage x = Running p ->
  run_section sv k x p = Some sv' -> sv_inv (tick sv').
Proof.
  intros I Hk Hst H. assert (Hx : x ∈ sv_calls sv) by (by eapply list_elem_of_lookup_2).
  destruct (si_calls _ I x Hx) as [Hi (t & Hiss) _ _ Hp]. unfold stage_ok in Hp. rewrite Hst in Hp.
  destruct (issued_client _ _ _ _ _ _ (si_clients _ I) Hiss) as (Hid & _).
  destruct p as [|isl|isl o|isl o idx|isl o idx ch|isl o idx ch d|isl idx|isl done]; unfold run_section in H.
  - simplify_eq. by apply move_inv.
  - assert (Hsec : match req_enter (sv_kv sv (kc_server x)) isl (kc_req x) with
      | (_, Some o) => o = req_op (kc_req x)
      | (d, None) => d = true -> covered (sv_kv sv (kc_server x)) (kc_req x) end).
    { unfold req_enter, Get_enter, PutAppend_enter, covered. by destruct (kc_req x); simpl; destruct (negb _ && _). }
    destruct (req_enter _ _ _) as [d [o|]]; simplify_eq; (apply move_inv; [done..|]); [done|].
    unfold stage_ok. simpl. destruct d; [by apply Hsec|done].
  - destruct (Start _ o) as [[[rf' [[idx tm] [|]]] effs]| |] eqn:E; simplify_eq; by eapply start_inv.
  - destruct (enterStub _ idx) as [kv' ch] eqn:E. simplify_eq. apply touch_inv; [done..| |done].
    unfold enterStub in E. change kv' with (kv', ch).1. rewrite <- E. apply touches_stub.
  - destruct (receive _ ch) as [[kv' d]| |] eqn:E; simplify_eq. apply touches_receive in E as [Ht Hd].
    apply touch_inv; [done..|]. split; [done|]. unfold msg_ok. rewrite (seenCmd_data _ _ _ _ (to_data _ _ Ht)).
    destruct Hd as [->|(y & Hy & Hb)]; [by left|].
    destruct (si_server _ I _ Hi) as (l & _ & Hl & _). by eapply (so_heap _ _ Hl).
  - destruct Hp as [-> Hd].
    destruct ((dm_ClientID d =? _) && _) eqn:Em.
    + destruct (close _ ch) as [kv'| |] eqn:E; simplify_eq. apply touches_close in E as Ht.
      apply andb_true_iff in Em as [E1%Z.eqb_eq E2%Z.eqb_eq]. apply touch_inv; [done..|]. simpl. unfold covered. rewrite (seenCmd_data _ _ _ _ (to_data _ _ Ht)).
      destruct Hd as [Hd|Hd]; [destruct (kc_req x); simpl in *; lia|]. rewrite E1, E2 in Hd.
      by destruct (kc_req x).
    + destruct (send _ ch d) as [kv'| |] eqn:E; simplify_eq. apply touches_send in E as Ht; [|done].
      by apply touch_inv.
  - simplify_eq. apply touch_inv; [done|done|apply touches_delete|exact Hp].
  - simplify_eq. apply move_inv; [done|done|]. intros v Hv. simpl in *.
    eapply (covered_answered sv (kc_server x)); [done|done| |exact Hv]. by intros ->.
Qed.

(** ** The apply loop, the cluster and crashes *)
Lemma raft_inv sv e r cs :
  sv_inv sv -> sv_orderly sv (sv_raft sv) e -> (forall i, e <> EvCrash i) -> exec n (sv_raft sv) e = Some r ->
  cs ⊆ sv_compact sv ->
  sv_inv (mkService r (sv_kv sv) (sv_taken sv) cs (sv_clerks sv) (sv_calls sv) (sv_hist sv) (sv_time sv + 1)).
Proof.
  intros I Hok Hne He Hcs.
  eapply (inv_later sv); try done.
  - split; [done|by eapply exec_logs_grow|simpl; lia].
  - eapply clients_time; [exact (si_clients _ I)|simpl; lia].
  - eapply reach_step; [exact (si_reach _ I)|exact Hok|exact He].
  - intros x Hx. left. by apply Hcs.
  - intros i Hi. eapply replica_exec; [exact (si_reach _ I)|exact Hok|exact He|apply Hne|]. by apply (si_server _ I).
  - intros x Hx. right. split; [done|]. case_match; done || apply covers_refl.
  - exact (si_wait _ I).
  - intros h Hh. by right.
Qed.

(** The apply loop takes a command, or a snapshot of what it has applied and
    more. *)
Lemma replica_take sv i m kv' comp :
  sv_inv sv -> 0 <= i < n -> nd_applyCh (sys_nodes (sv_raft sv) i) !! sv_taken sv i = Some m ->
  dealWithApplyMsg (sv_kv sv i) (GetStateSize (raft_of (sv_raft sv) i)) m = Ret (kv', comp) ->
  replica_at (sv_raft sv) kv' (S (sv_taken sv i)) i /\ covers_more (sv_kv sv i) kv' /\
  (forall idx b, comp = Some (idx, b) -> snap_at snap_good (sv_raft sv) idx b).
Proof.
  intros I Hi Hm E. destruct (si_server _ I i Hi) as (l & Hl & Hok & Hk & Hst).
  assert (Hm' : feed (sv_raft sv) i !! sv_taken sv i = Some m) by (by apply lookup_app_l_Some).
  rewrite (drop_S _ _ _ Hm') in Hst. pose proof (lookup_lt_Some _ _ _ Hm') as Hlt.
  inversion Hst as [|p o ms q Hlog Hrest|p q b ms q' Hle Hsnap Hrest]; subst.
  - destruct (server_command _ _ _ _ _ _ _ Hok E) as (Hok' & Hcov & Hcomp).
    assert (Hl' : gprefix (sv_raft sv) (l ++ [o])) by (by apply gprefix_snoc).
    split_and!; [|done|].
    + exists (l ++ [o]). rewrite len_snoc. by split_and!.
    + intros idx b ->. destruct Hcomp as [|(b' & [= -> ->] & ? & ?)]; [done|]. exists (l ++ [o]).
      rewrite len_snoc. by split_and!.
  - destruct Hsnap as (l' & Hl' & <- & Hgood & _).
    assert (Hp : l `prefix_of` l').
    { eapply (gprefix_agree n); [|done..]. eapply reach_orderly, (si_reach _ I). }
    destruct (server_snapshot _ _ _ _ _ _ _ Hok Hp Hgood E) as (-> & Hok' & Hcov).
    split_and!; [|done|done]. exists l'. by split_and!.
Qed.

Lemma take_inv sv i sv' :
  sv_inv sv -> 0 <= i < n -> take_msg sv i = Some sv' -> sv_inv (tick sv').
Proof.
  intros I Hi H. unfold take_msg in H.
  destruct (nd_applyCh _ !! sv_taken sv i) as [m|] eqn:Hm; [|done]. cbn [mbind option_bind] in H.
  destruct (dealWithApplyMsg _ _ m) as [[kv' comp]| |] eqn:E; [|done..]. simplify_eq.
  destruct (replica_take sv i m kv' comp I Hi Hm E) as (Hrep & Hcov & Hcomp).
  eapply (inv_later sv); try done.
  - split; [done|done|simpl; lia].
  - eapply clients_time; [exact (si_clients _ I)|simpl; lia].
  - exact (si_reach _ I).
  - intros x [?|Hx]%elem_of_app; [by left|right]. destruct comp as [[idx b]|]; [|by apply elem_of_nil in Hx].
    apply list_elem_of_singleton in Hx as ->. by apply Hcomp.
  - intros j Hj. simpl. destruct (decide (j = i)) as [->|Hne]; [by rewrite !fn_lookup_insert|].
    rewrite !fn_lookup_insert_ne by done. by apply (si_server _ I).
  - intros x Hx. right. split; [done|]. destruct (kc_stage x); try done. simpl. fn_cases; [exact Hcov|apply covers_refl].
  - exact (si_wait _ I).
  - intros h Hh. by right.
Qed.

Lemma crash_inv sv i sv' :
  sv_inv sv -> sv_crash n mx sv i = Some sv' -> sv_inv (tick sv').
Proof.
  intros I H. unfold sv_crash in H. destruct (exec n (sv_raft sv) (EvCrash i)) as [r|] eqn:E; [|done].
  simpl in H. simplify_eq.
  assert (Hok : sv_orderly sv (sv_raft sv) (EvCrash i)) by (by split; [split; [intros []|]|]).
  assert (Hr : reach n (sv_orderly sv) r) by (eapply reach_step; [exact (si_reach _ I)|exact Hok|exact E]).
  eapply (inv_later sv); try done.
  - split; [done|by eapply exec_logs_grow|simpl; lia].
  - eapply clients_time; [exact (si_clients _ I)|simpl; lia].
  - intros x [_ Hx]%list_elem_of_filter. by left.
  - intros j Hj. simpl. destruct (decide (j = i)) as [->|Hne].
    + rewrite !fn_lookup_insert. exists []. split; [apply gprefix_nil|]. split; [by split|]. split; [lia|].
      rewrite drop_0. exact (sn_feed _ _ _ (reach_snapped _ _ _ _ Hr) i).
    + rewrite !fn_lookup_insert_ne by done. eapply replica_exec; [exact (si_reach _ I)|exact Hok|exact E|congruence|].
      by apply (si_server _ I).
  - intros x [Hs Hx]%list_elem_of_filter. right. split; [done|]. case_match eqn:Est; try done. simpl.
    rewrite fn_lookup_insert_ne; [apply covers_refl|]. intros ->. destruct Hs as [Hs|Hs]; [done|by rewrite Est in Hs].
  - intros c num rq t x Hw Hrq [_ Hx]%list_elem_of_filter. by eapply (si_wait _ I).
  - intros h Hh. by right.
Qed.

Lemma exec_inv sv e sv' :
  sv_inv sv -> sv_in_order sv e -> sv_exec n mx sv e = Some sv' -> sv_inv sv'.
Proof.
  intros I Hord H. unfold sv_exec in H. apply fmap_Some in H as (sv1 & H & ->).
  destruct e as [c o|c|c|k|k|k|i|k|e|i].
  - by eapply invoke_inv.
  - by eapply send_inv.
  - by eapply fail_inv.
  - simpl in H. destruct (sv_calls sv !! k) as [x|] eqn:Hk; [|done]. cbn [mbind option_bind] in H.
    destruct (kc_stage x) eqn:Hst; try done. eapply return_inv; [done|by eapply list_elem_of_lookup_2|done..].
  - simpl in H. destruct (sv_calls sv !! k) as [x|] eqn:Hk; [|done]. cbn [mbind option_bind] in H.
    destruct (kc_stage x) eqn:Hst; simplify_eq; [by apply move_inv|by eapply section_inv].
  - simpl in H. destruct (sv_calls sv !! k) as [x|] eqn:Hk; [|done]. cbn [mbind option_bind] in H.
    destruct (kc_stage x) as [|[]|] eqn:Hst; simplify_eq. by apply move_inv.
  - simpl in H. destruct (is_peer n i) eqn:Hi; [|done]. unfold is_peer in Hi. zbool.
    eapply take_inv; [done| |done]. lia.
  - simpl in H. destruct (sv_compact sv !! k) as [x|] eqn:Hk; [|done]. cbn [mbind option_bind] in H.
    case_match; [done|]. apply bind_Some in H as (r & E & H). simplify_eq. apply (raft_inv sv (EvCompact x.1.1 x.1.2 x.2));
      [done| |done|exact E|].
    + split; [by split; [intros []|]|]. apply (si_compact _ I). by eapply list_elem_of_lookup_2.
    + intros y Hy. rewrite delete_take_drop in Hy. by apply elem_of_app in Hy as [?%take_elem|?%drop_elem].
  - simpl in H. destruct (internal e && _) eqn:Hg; [|done]. apply andb_true_iff in Hg as [Hint _].
    destruct (exec n (sv_raft sv) e) eqn:E; [|done]. simpl in H. simplify_eq.
    apply (raft_inv sv e); [done| |intros i ->; done|exact E|done]. split; [exact Hord|by destruct e].
  - by eapply crash_inv.
Qed.

Lemma init_inv : sv_inv (sv_init n mx).
Proof.
  split; simpl; try (set_solver); try done.
  - split; simpl; try done; try (intros; by apply elem_of_nil in H); try (constructor).
  - apply reach_init.
  - intros i Hi. exists []. split; [apply gprefix_nil|]. split; [by split|]. split; [lia|]. constructor.
Qed.

Lemma reach_inv sv : sv_reach_if n mx sv_in_order sv -> sv_inv sv.
Proof. induction 1 as [|sv e sv' _ IH Hok He]; [apply init_inv|by eapply exec_inv]. Qed.
End Invariant.

(** ** Servers started with maxraftstate = -1 *)
Section Quiet.
Context {GO : Gob Op} {GD : Gob (gmap string string)} {GM : Gob (gmap Z Z)} (n : Z).
Implicit Types sv : service.

(** They never compact. *)
Record sv_quiet sv : Prop := {
  sq_reach : reach n no_compaction (sv_raft sv);
  sq_compact : sv_compact sv = [];
  sq_max i : maxraftstate (sv_kv sv i) = -1
}.

Lemma quiet_kv sv i kv' cs : sv_quiet sv -> maxraftstate kv' = maxraftstate (sv_kv sv i) ->
  sv_quiet (set_calls cs (set_kv i kv' sv)).
Proof. intros [] E. split; [done..|]. intros j. simpl. fn_cases; congruence. Qed.

Lemma section_quiet sv k x p sv' :
  0 <= kc_server x < n -> sv_quiet sv -> run_section sv k x p = Some sv' -> sv_quiet sv'.
Proof.
  intros Hi Hq H. destruct p as [|isl|isl o|isl o idx|isl o idx ch|isl o idx ch d|isl idx|isl done]; unfold run_section in H.
  - simplify_eq. by destruct Hq.
  - destruct (req_enter _ _ _) as [d [o|]]; simplify_eq; by destruct Hq.
  - destruct Hq. destruct (Start _ o) as [[[rf' [[idx tm] isl']] effs]| |] eqn:E; [|done..].
    assert (Hst : reach n no_compaction (put_raft (sv_raft sv) (kc_server x) rf' effs)).
    { eapply (reach_step n _ _ (EvStart (kc_server x) o)); [done|by intros []|]. unfold exec, is_peer.
      rewrite (proj2 (Z.leb_le _ _)), (proj2 (Z.ltb_lt _ _)) by lia. cbn [andb]. by rewrite E. }
    destruct isl'; simplify_eq; by split.
  - destruct (enterStub _ idx) as [kv' ch] eqn:E. simplify_eq. apply quiet_kv; [done|].
    change kv' with (kv', ch).1. rewrite <- E. apply touches_stub.
  - destruct (receive _ ch) as [[kv' d]| |] eqn:E; simplify_eq. apply quiet_kv; [done|].
    by apply touches_receive in E as [[] _].
  - destruct ((dm_ClientID d =? _) && _).
    + destruct (close _ ch) as [kv'| |] eqn:E; simplify_eq. apply quiet_kv; [done|]. by apply touches_close in E as [].
    + destruct (send _ ch d) as [kv'| |] eqn:E; simplify_eq. apply quiet_kv; [done|].
      unfold send in E. repeat case_match; by simplify_eq.
  - simplify_eq. by apply quiet_kv.
  - simplify_eq. by destruct Hq.
Qed.

(** Without compaction every event of the cluster is in order. *)
Lemma quiet_in_order (s : sys Op) e s' : reach n no_compaction s -> exec n s e = Some s' -> in_order s e.
Proof.
  intros Hr He. split; [by eapply no_compaction_step|]. pose proof (pl_notify _ _ (reach_all_plain n s Hr)) as Hn.
  destruct e as [| | | | | | |i|i k| |]; try done; [apply Hn|]. simpl in He.
  destruct (is_peer n i); [|done]. by rewrite Hn in He.
Qed.

Lemma exec_quiet sv e sv' : sv_inv n sv -> sv_quiet sv -> sv_exec n (-1) sv e = Some sv' ->
  sv_in_order sv e /\ sv_quiet sv'.
Proof.
  intros I Hq H. unfold sv_exec in H. apply fmap_Some in H as (sv1 & H & ->).
  assert (Htick : sv_quiet sv1 -> sv_quiet (tick sv1)) by (by intros []).
  destruct e as [c o|c|c|k|k|k|i|k|e|i]; simpl in H;
    try (destruct (sv_calls sv !! k) as [x|] eqn:Hk; [|done]; cbn [mbind option_bind] in H).
  - split; [done|]. apply Htick. destruct Hq. repeat case_match; by simplify_eq.
  - split; [done|]. apply Htick. destruct Hq. repeat case_match; by simplify_eq.
  - split; [done|]. apply Htick. destruct Hq. repeat case_match; by simplify_eq.
  - split; [done|]. apply Htick. unfold clerk_return in H. destruct Hq. repeat case_match; by simplify_eq.
  - split; [done|]. apply Htick. destruct (kc_stage x) as [|p|]; simplify_eq; [by destruct Hq|].
    eapply section_quiet; [|done|exact H]. eapply (cc_server n), (si_calls _ _ I). by eapply list_elem_of_lookup_2.
  - split; [done|]. apply Htick. destruct Hq. repeat case_match; by simplify_eq.
  - split; [done|]. apply Htick. destruct (is_peer n i); [|done]. unfold take_msg in H.
    destruct (nd_applyCh _ !! _) as [[idx [o|]|b]|]; try done; cbn [mbind option_bind] in H.
    + destruct (dealWithApplyMsg _ _ _) as [[kv' r]| |] eqn:E; [|done..]. simplify_eq.
      destruct (take_command _ _ _ _ _ _ E) as [Ht Hr]. destruct Hq as [Hre Hco Hmx].
      destruct (applyOp _ _ o) as [dup db]. pose proof (to_max _ _ Ht) as Hm. simpl in Hm.
      destruct Hr as [->|[Hne _]]; [|by destruct (Hne (Hmx i))].
      split; simpl; [done|by rewrite Hco|]. intros j. fn_cases; [congruence|done].
    + destruct (dealWithApplyMsg _ _ _) as [[kv' r]| |] eqn:E; [|done..]. simplify_eq. simpl in E.
      destruct (decodeSnapshot b). simplify_eq. destruct Hq as [Hre Hco Hmx].
      split; simpl; [done|by rewrite Hco|]. intros j. fn_cases; done.
  - by rewrite (sq_compact _ Hq) in H.
  - destruct (internal e && _) eqn:Hg; [|done]. apply andb_true_iff in Hg as [Hint _].
    apply bind_Some in H as (r & E & H). simplify_eq. destruct Hq. split; [by eapply quiet_in_order|].
    split; try done. eapply reach_step; [done| |exact E]. intros Hc. by destruct e.
  - split; [done|]. apply Htick. unfold sv_crash in H. apply bind_Some in H as (r & E & H). simplify_eq.
    destruct Hq. split; simpl.
    + eapply reach_step; [done| |exact E]. by intros [].
    + by rewrite sq_compact0.
    + intros j. fn_cases; done.
Qed.

Lemma quiet_reach_in_order sv : sv_reach n (-1) sv -> sv_reach_if n (-1) sv_in_order sv.
Proof.
  intros Hr. enough (sv_reach_if n (-1) sv_in_order sv /\ sv_quiet sv) as [? _] by done.
  induction Hr as [|sv e sv' _ [IH Hq] _ He].
  - split; [constructor|]. split; [apply reach_init|done|done].
  - destruct (exec_quiet sv e sv') as [Hord Hq']; [by eapply reach_inv|done|done|].
    split; [by eapply sv_reach_step|done].
Qed.
End Quiet.
