(* ===== verification/KVReplay.v ===== *)
(** * Replaying the log as operations of a store

    A log in which every client's requests come in the order of their ids is a
    sequence of writes, the first occurrences of the requests, and a read of the
    state after any number of commands fits in between: operations placed by their
    positions in the log are a legal history of a store of all keys. *)

From stdpp Require Import base functions list list_numbers gmap strings sorting.
From S2P Require Import Prelude Gob RaftNode KVServer KVFacts LinCheck LinHistory LinKV KVService KVSession KVReplica.
Open Scope Z_scope.

Section Replay.
Variable G : list Op.

Definition ids (k : nat) : list (Z * Z) := op_id <$> take k G.

(** The map after the first [k] commands. *)
Definition db (k : nat) : gmap string string := (applyOps (∅, ∅) (take k G)).2.

(** Every client's requests enter in the order of their ids, retries apart. *)
Definition ordered : Prop := forall i o, G !! i = Some o ->
  op_id o ∈ ids i \/ forall k, (ClientID o, k) ∈ ids i -> k < CmdID o.

Lemma records_ext dup seen seen' :
  (forall x, x ∈ seen <-> x ∈ seen') -> records dup seen -> records dup seen'.
Proof. intros E Hr c. specialize (Hr c). destruct (dup !! c); setoid_rewrite <- E; done. Qed.

Lemma ids_S i o : G !! i = Some o -> forall x, x ∈ ids (S i) <-> x ∈ op_id o :: ids i.
Proof.
  intros Hi x. unfold ids. rewrite (take_S_r _ _ _ Hi), fmap_app, elem_of_app, elem_of_cons.
  change (op_id <$> [o]) with [op_id o]. rewrite list_elem_of_singleton. tauto.
Qed.

Lemma log_step i o : ordered -> G !! i = Some o -> records (applyOps (∅, ∅) (take i G)).1 (ids i) ->
  db (S i) = (if decide (op_id o ∈ ids i) then db i else effect_of (db i) o) /\
  records (applyOps (∅, ∅) (take (S i) G)).1 (ids (S i)).
Proof.
  intros Hord Hi Hr. unfold db. rewrite (take_S_r _ _ _ Hi), applyOps_snoc.
  destruct (applyOps (∅, ∅) (take i G)) as [dup m]. simpl in *.
  case_decide as Hin.
  - rewrite (applyOp_seen dup m (ids i) o Hr Hin). split; [done|].
    eapply records_ext; [|by apply (records_again _ _ _ Hin Hr)]. intros x. by rewrite (ids_S i o Hi).
  - destruct (Hord i o Hi) as [?|Hlt]; [done|].
    destruct (applyOp_fresh dup m (ids i) o Hr Hlt) as [-> Hr']. split; [done|].
    eapply records_ext; [|exact Hr']. intros x. by rewrite (ids_S i o Hi).
Qed.

Lemma log_records i : ordered -> records (applyOps (∅, ∅) (take i G)).1 (ids i).
Proof.
  intros Hord. induction i as [|i IH].
  - intros c. unfold ids. simpl. rewrite lookup_empty. intros k. apply not_elem_of_nil.
  - destruct (G !! i) as [o|] eqn:Hi; [by apply (log_step i o)|].
    apply lookup_ge_None in Hi. unfold ids in *. rewrite take_ge in * by lia. done.
Qed.

Definition fresh_at (i : nat) (o : Op) : Prop := G !! i = Some o /\ op_id o ∉ ids i.

Lemma db_fresh i o : ordered -> fresh_at i o -> db (S i) = effect_of (db i) o.
Proof.
  intros Hord [Hi Hf]. destruct (log_step i o Hord Hi (log_records i Hord)) as [-> _].
  by rewrite decide_False.
Qed.

Lemma db_still q j : ordered -> (q <= j <= length G)%nat ->
  (forall i o, (q <= i < j)%nat -> fresh_at i o -> CmdType o = GET) -> db j = db q.
Proof.
  intros Hord [Hle Hlen]. induction Hle as [|j Hle IH]; intros Hno; [done|].
  rewrite <- IH; [|lia|intros i o Hi; apply Hno; lia].
  destruct (lookup_lt_is_Some_2 G j ltac:(lia)) as [o Ho].
  destruct (log_step j o Hord Ho (log_records j Hord)) as [-> _].
  case_decide as Hin; [done|]. unfold effect_of. by rewrite (Hno j o ltac:(lia) (conj Ho Hin)).
Qed.

(** ** Operations with their places *)

(** A write takes place with the first occurrence of its request, at [2 * i + 1]
    when that is command [i]; a read between two commands. *)
Definition placed (x : request * Operation KvValue) (z : Z) : Prop :=
  Input x.2 = KvIn (req_input x.1) /\
  match x.1 with
  | ReqGet a => exists j : nat, z = 2 * Z.of_nat j /\ (j <= length G)%nat /\
      Output x.2 = KvOut (mkKvOutput (default ""%string (db j !! ga_Key a)))
  | ReqPut a => exists i : nat, z = 2 * Z.of_nat i + 1 /\ fresh_at i (putAppendOp a) /\
      exists v, Output x.2 = KvOut v
  end.

(** Writes have places of their own. *)
Definition before (a b : (request * Operation KvValue) * Z) : Prop :=
  a.2 < b.2 \/ (a.2 = b.2 /\ Z.even a.2 = true).

Definition same_store (m m' : gmap string string) : Prop :=
  forall k, store_get m k = default ""%string (m' !! k).

Lemma store_read m q j (x : request * Operation KvValue) a :
  same_store m (db q) -> db j = db q -> Input x.2 = KvIn (req_input (ReqGet a)) ->
  Output x.2 = KvOut (mkKvOutput (default ""%string (db j !! ga_Key a))) ->
  exists m', StoreStep m (Input x.2) (Output x.2) = Ret (true, m') /\ same_store m' (db j).
Proof.
  intros Hm E Hin Hout. rewrite Hin, Hout, E. simpl. rewrite (Hm (ga_Key a)).
  rewrite bool_decide_eq_true_2 by done. simpl. eexists. split; [done|].
  intros k. unfold store_get. destruct (decide (ga_Key a = k)) as [<-|].
  - by rewrite lookup_insert_eq.
  - rewrite lookup_insert_ne by done. apply Hm.
Qed.

Lemma store_write m q i (x : request * Operation KvValue) a v :
  ordered -> same_store m (db q) -> db i = db q -> fresh_at i (putAppendOp a) ->
  Input x.2 = KvIn (req_input (ReqPut a)) -> Output x.2 = KvOut v ->
  exists m', StoreStep m (Input x.2) (Output x.2) = Ret (true, m') /\ same_store m' (db (S i)).
Proof.
  intros Hord Hm E Hf Hin Hout. rewrite (db_fresh i _ Hord Hf), E, Hin, Hout.
  assert (Hstep : exists s, KvStep (store_get m (pa_Key a)) (KvIn (req_input (ReqPut a))) (KvOut v) = Ret (true, s) /\
    effect_of (db q) (putAppendOp a) = <[pa_Key a := s]> (db q)).
  { unfold effect_of, putAppendOp. simpl. rewrite Hm. destruct (decide (pa_Op a = PUT)); eauto. }
  destruct Hstep as (s & Hs & ->).
  exists (<[pa_Key a := s]> m). split.
  { unfold StoreStep. change (ki_Key (req_input (ReqPut a))) with (pa_Key a). by rewrite Hs. } intros k. unfold store_get. destruct (decide (pa_Key a = k)) as [<-|].
  - by rewrite !lookup_insert_eq.
  - rewrite !lookup_insert_ne by done. apply Hm.
Qed.

Lemma putAppendOp_write a : CmdType (putAppendOp a) <> GET.
Proof. unfold putAppendOp. simpl. by case_decide. Qed.

Lemma replay_legal items : forall q m,
  ordered -> (q <= length G)%nat -> same_store m (db q) -> StronglySorted before items ->
  (forall y, y ∈ items -> placed y.1 y.2 /\ 2 * Z.of_nat q <= y.2) ->
  (forall i o, (q <= i)%nat -> fresh_at i o -> CmdType o <> GET ->
     exists y, y ∈ items /\ y.2 = 2 * Z.of_nat i + 1) ->
  legal StoreModel m items.*1.*2.
Proof.
  induction items as [|[x z] items IH]; intros q m Hord Hq Hm Hss Hpl Hall; [done|].
  apply StronglySorted_inv in Hss as [Hss Hz]. rewrite Forall_forall in Hz.
  destruct (Hpl (x, z) ltac:(left)) as [[Hin Hp] Hqz]. simpl in Hin, Hp, Hqz.
  assert (Hstill : forall j, (q <= j <= length G)%nat -> 2 * Z.of_nat j <= z <= 2 * Z.of_nat j + 1 -> db j = db q).
  { intros j Hj Hzj. apply db_still; [done|done|]. intros i o Hi Hf.
    destruct (decide (CmdType o = GET)) as [|Ht]; [done|]. exfalso.
    destruct (Hall i o ltac:(lia) Hf Ht) as (y & [->|Hy]%elem_of_cons & Ey); [simpl in Ey; lia|].
    destruct (Hz y Hy) as [Hlt|[Hlt _]]; simpl in Hlt; lia. }
  assert (Hnext : forall j m', (j <= length G)%nat -> (forall y, y ∈ items -> 2 * Z.of_nat j <= y.2) ->
    (forall i : nat, (j <= i)%nat -> 2 * Z.of_nat i + 1 <> z) -> (q <= j)%nat ->
    StoreStep m (Input x.2) (Output x.2) = Ret (true, m') -> same_store m' (db j) ->
    legal StoreModel m ((x, z) :: items).*1.*2).
  { intros j m' Hj Hge Hne Hqj Hst Hm'. exists m'. split; [done|]. apply (IH j); try done.
    - intros y Hy. split; [apply Hpl; by right|by apply Hge].
    - intros i o Hi Hf Ht. destruct (Hall i o ltac:(lia) Hf Ht) as (y & [->|Hy]%elem_of_cons & Ey); [|by exists y].
      by destruct (Hne i Hi). }
  destruct (x.1) as [a|a].
  - destruct Hp as (j & -> & Hj & Hout).
    destruct (store_read m q j x a Hm) as (m' & Hst & Hm'); [apply Hstill; lia|done|done|].
    apply (Hnext j m'); try done; try lia. intros y Hy. destruct (Hz y Hy) as [Hlt|[Hlt _]]; simpl in Hlt; lia.
  - destruct Hp as (i & -> & Hf & v & Hout). pose proof (lookup_lt_Some _ _ _ (proj1 Hf)).
    destruct (store_write m q i x a v Hord Hm) as (m' & Hst & Hm'); [apply Hstill; lia|done|done|done|].
    apply (Hnext (S i) m'); try done; try lia. intros y Hy. destruct (Hz y Hy) as [Hlt|[_ He]]; simpl in *; [lia|].
    rewrite Z.even_add, Z.even_mul in He. done.
Qed.
End Replay.
