(* ===== verification/KVLinear.v ===== *)
(** * The key/value service is linearizable

    Every execution of the service of KVService.v whose cluster events are in
    order, with any maxraftstate, and whatever is lost, delayed, retried,
    partitioned or crashed, yields a linearizable history of the clerks'
    operations; so the checker the tests run accepts it.  Without compaction every
    execution is in order. *)

From stdpp Require Import base functions list list_numbers gmap strings sorting relations.
From S2P Require Import Prelude Gob RaftNode RaftSystem RaftSafety RaftBounds RaftTrace RaftOrigin RaftSnap KVServer KVFacts KVClient Bitset LinCheck LinList LinSearch LinHistory LinKV KVService KVSession KVReplica KVServiceInv KVReplay.
Open Scope Z_scope.

(** ** Lists *)
Lemma choose_each {A B} (P : A -> B -> Prop) (l : list A) :
  (forall x, x ∈ l -> exists y, P x y) -> exists k : list (A * B), k.*1 = l /\ forall y, y ∈ k -> P y.1 y.2.
Proof.
  induction l as [|x l IH]; intros H; [exists []; split; [done|]; by intros y ?%elem_of_nil|].
  destruct IH as (k & <- & Hk); [intros; apply H; by right|]. destruct (H x ltac:(left)) as [y Hy].
  exists ((x, y) :: k). split; [done|]. intros z [->|Hz]%elem_of_cons; [done|by apply Hk].
Qed.

Lemma StronglySorted_map {A B} (R : relation A) (S : relation B) (f : A -> B) (l : list A) :
  StronglySorted R l -> (forall x y, x ∈ l -> y ∈ l -> R x y -> S (f x) (f y)) -> StronglySorted S (f <$> l).
Proof.
  induction 1 as [|x l Hl IH Hx]; intros H; [constructor|]. rewrite Forall_forall in Hx. constructor.
  - apply IH. intros. apply H; [by right..|done].
  - apply Forall_fmap, Forall_forall. intros y Hy. apply H; [by left|by right|by apply Hx].
Qed.

(** A sorted list without repetitions among its odd elements. *)
Lemma sorted_before (l : list ((request * Operation KvValue) * Z)) :
  StronglySorted (fun a b => a.2 <= b.2) l -> NoDup (req_id <$> l.*1.*1) ->
  (forall a b, a ∈ l -> b ∈ l -> a.2 = b.2 -> Z.even a.2 = false -> req_id a.1.1 = req_id b.1.1) ->
  StronglySorted before l.
Proof.
  induction 1 as [|x l Hl IH Hx]; intros Hnd Hodd; [constructor|]. apply NoDup_cons in Hnd as [Hnot Hnd].
  rewrite Forall_forall in Hx. constructor.
  - apply IH; [done|]. intros. apply Hodd; [by right..|done|done].
  - apply Forall_forall. intros y Hy. specialize (Hx y Hy). unfold before.
    destruct (decide (x.2 = y.2)) as [E|]; [|left; lia]. right. split; [done|].
    destruct (Z.even x.2) eqn:Ev; [done|]. exfalso. apply Hnot.
    rewrite (Hodd x y ltac:(left) ltac:(by right) E Ev). by do 3 apply list_elem_of_fmap_2.
Qed.

Definition le_place : relation ((request * Operation KvValue) * Z) := fun a b => a.2 <= b.2.
#[local] Instance le_place_dec : RelDecision le_place.
Proof. intros a b. unfold le_place. apply _. Defined.
#[local] Instance le_place_trans : Transitive le_place.
Proof. intros a b c. unfold le_place. lia. Qed.
#[local] Instance le_place_total : Total le_place.
Proof. intros a b. unfold le_place. lia. Qed.

Section Linear.
Context {GO : Gob Op} {GD : Gob (gmap string string)} {GM : Gob (gmap Z Z)} (n : Z).
Implicit Types sv : service.

(** A write that a clerk still works on, as an operation that returns now. *)
Definition pending_entry sv (c : Z) : option (request * Operation KvValue) :=
  match cl_req (sv_clerks sv c) with
  | Some (ReqPut a, t) =>
      Some (ReqPut a, mkOperation (KvIn (req_input (ReqPut a))) t (KvOut (mkKvOutput "")) (sv_time sv))
  | _ => None
  end.
Definition pending_write sv (c : Z) : option (Operation KvValue) := snd <$> pending_entry sv c.

(** ** The log *)
Lemma logged_agree sv idx o o' : sv_inv n sv -> logged (sv_raft sv) idx o -> logged (sv_raft sv) idx o' -> o = o'.
Proof.
  intros I [p Hp] [q Hq].
  pose proof (reach_orderly n _ _ _ (si_reach _ _ I)) as Hr.
  pose proof (safe_logs_agree n _ p q idx _ _ Hr Hp Hq). congruence.
Qed.

Lemma max_index (l : list (Z * Z * option Op)) :
  (forall p idx c, (p, idx, c) ∈ l -> 1 <= idx) ->
  exists N : nat, (forall p idx c, (p, idx, c) ∈ l -> idx <= Z.of_nat N) /\
    (N = 0%nat \/ exists p c, (p, Z.of_nat N, c) ∈ l).
Proof.
  induction l as [|[[p idx] c] l IH]; intros Hpos.
  { exists 0%nat. split; [by intros ? ? ? ?%elem_of_nil|by left]. }
  destruct IH as (N & Hle & HN); [intros; eapply Hpos; by right|].
  pose proof (Hpos p idx c ltac:(left)). exists (Nat.max N (Z.to_nat idx)). split.
  - intros p' idx' c' [[= -> -> ->]|Hin]%elem_of_cons; [lia|]. apply Hle in Hin. lia.
  - right. destruct (decide (N <= Z.to_nat idx)%nat).
    + exists p, c. rewrite Nat.max_r, Z2Nat.id by lia. left.
    + destruct HN as [->|(p' & c' & Hin)]; [lia|]. exists p', c'. rewrite Nat.max_l by lia. by right.
Qed.

(** The commands applied so far, by any peer, form one list. *)
Lemma global_log sv : sv_inv n sv -> exists G : list Op, forall i o,
  G !! i = Some o <-> logged (sv_raft sv) (Z.of_nat i + 1) o.
Proof.
  intros I. pose proof (si_reach _ _ I) as Hr.
  assert (Hrec : forall p idx c, (p, idx, c) ∈ sys_logs (sv_raft sv) ->
    0 < idx /\ reaches (sv_raft sv) idx).
  { intros p idx c Hin. destruct (logged_command n _ p idx c (reach_orderly n _ _ _ Hr) Hin) as [o ->].
    apply (applied_in_P n _ _ _ idx o Hr). by exists p. }
  destruct (max_index (sys_logs (sv_raft sv))) as (N & Hle & HN).
  { intros p idx c [? _]%Hrec. lia. }
  assert (reaches (sv_raft sv) (Z.of_nat N)) as (G & HG & HlG).
  { destruct HN as [->|(p & c & [_ Hin]%Hrec)]; [|done]. exists []. split; [apply gprefix_nil|done]. }
  exists G. intros i o. split; [apply HG|]. intros Ho. pose proof Ho as [p Hp]. apply Hle in Hp. unfold len in HlG.
  destruct (lookup_lt_is_Some_2 G i ltac:(lia)) as [o' Ho']. rewrite Ho'. f_equal.
  eapply logged_agree; [exact I|by apply HG|done].
Qed.

Section Log.
Context sv (I : sv_inv n sv) (G : list Op).
Hypothesis HG : forall i o, G !! i = Some o <-> logged (sv_raft sv) (Z.of_nat i + 1) o.

Lemma log_prefix_take l : gprefix (sv_raft sv) l -> l = take (length l) G.
Proof.
  intros Hl. apply list_eq. intros j. destruct (l !! j) as [o|] eqn:Hj.
  - rewrite lookup_take_lt by (by eapply lookup_lt_Some). symmetry. apply HG. by apply Hl.
  - symmetry. apply lookup_ge_None_2. apply lookup_ge_None in Hj. rewrite length_take. lia.
Qed.

(** What is in the log was issued. *)
Lemma log_issued i o : G !! i = Some o -> exists r t, sv_issued sv r t /\ o = req_op r.
Proof. intros Hi%HG. by eapply logged_issued. Qed.

(** The commands of a request that was called after the first [length l] ones were
    come later. *)
Lemma sealed_before l t r t' i : gprefix (sv_raft sv) l -> sealed sv l t -> sv_issued sv r t' -> t < t' ->
  G !! i = Some (req_op r) -> Z.of_nat (length l) < Z.of_nat i + 1.
Proof.
  intros Hl Hse Hiss Hlt Hi. destruct (decide (i < length l)%nat) as [Hil|]; [exfalso|lia].
  rewrite <- (lookup_take_lt _ (length l)), <- (log_prefix_take l Hl) in Hi by done.
  destruct (Hse (req_op r)) as (r' & t'' & Hr' & ? & E); [by eapply list_elem_of_lookup_2|].
  destruct (issued_unique _ _ _ _ _ _ _ _ (si_clients _ _ I) Hiss Hr') as [_ ->]; [|lia].
  by rewrite <- !op_id_req, E.
Qed.

(** The first occurrence of a request that is in the log. *)
Lemma first_place r t : sv_issued sv r t -> req_id r ∈ op_id <$> G ->
  exists i, fresh_at G i (req_op r) /\ forall k, req_id r ∈ op_id <$> take k G -> (i < k)%nat.
Proof.
  intros Hiss Hin.
  assert (Hk : forall k, req_id r ∈ op_id <$> take k G <-> exists j o, (j < k)%nat /\ G !! j = Some o /\ op_id o = req_id r).
  { intros k. rewrite list_elem_of_fmap. split.
    - intros (o & E & (j & Hj & ?)%elem_of_take). exists j, o. by rewrite E.
    - intros (j & o & ? & Hj & E). exists o. split; [done|]. apply elem_of_take. eauto. }
  assert (Hlt : forall i, (forall j o, (j < i)%nat -> G !! j = Some o -> op_id o <> req_id r) \/
    exists j o, G !! j = Some o /\ op_id o = req_id r /\ forall j' o', (j' < j)%nat -> G !! j' = Some o' -> op_id o' <> req_id r).
  { induction i as [|i [IH|IH]]; [left; intros; lia| |by right].
    destruct (G !! i) as [o|] eqn:Hi; [destruct (decide (op_id o = req_id r))|].
    - right. eauto.
    - left. intros j o' Hj Ho'. destruct (decide (j = i)) as [->|]; [congruence|]. apply (IH j); [lia|done].
    - left. intros j o' Hj Ho'. destruct (decide (j = i)) as [->|]; [congruence|]. apply (IH j); [lia|done]. }
  destruct (Hlt (length G)) as [Hno|(i & o & Hi & E & Hmin)].
  { exfalso. rewrite <- (take_ge G (length G)) in Hin by lia. apply Hk in Hin as (j & o & ? & ? & ?). by eapply Hno. }
  destruct (log_issued i o Hi) as (r' & t' & Hr' & ->). rewrite op_id_req in E.
  destruct (issued_unique _ _ _ _ _ _ _ _ (si_clients _ _ I) Hr' Hiss E) as [-> _].
  exists i. split.
  - split; [done|]. unfold ids. rewrite op_id_req. intros (j & o & ? & ? & ?)%Hk. by eapply Hmin.
  - intros k (j & o & ? & Hj & Ej)%Hk. destruct (decide (j < i)%nat); [by destruct (Hmin j o)|lia].
Qed.

Lemma log_ordered : ordered G.
Proof.
  intros i o Hi. destruct (decide (op_id o ∈ ids G i)) as [?|Hnot]; [by left|right].
  intros k (o' & E & (j & Hj & Hji)%elem_of_take)%list_elem_of_fmap.
  destruct (log_issued i o Hi) as (r & t & Hr & ->). destruct (log_issued j o' Hj) as (r' & t' & Hr' & ->).
  rewrite op_id_req in E. injection E as Ec ->.
  assert (Ecl : ClientID (req_op r) = req_client r /\ CmdID (req_op r) = req_cmd r) by (by destruct r).
  destruct Ecl as [E1 E2]. rewrite E1 in Ec. rewrite E2. destruct (decide (req_cmd r' < req_cmd r)) as [|Hge]; [done|].
  exfalso. apply Hnot. rewrite op_id_req. apply list_elem_of_fmap.
  destruct (decide (req_cmd r' = req_cmd r)) as [Ek|Hne].
  { exists (req_op r'). split; [rewrite op_id_req; unfold req_id; congruence|]. apply elem_of_take. eauto. }
  destruct (issued_order _ _ _ _ _ _ _ _ (si_clients _ _ I) Hr Hr') as (op & Hin & _ & Hret); [done|lia|].
  destruct (si_hist _ _ I _ Hin) as (l & Hl & Hid & _ & Hseal). rewrite (log_prefix_take l Hl) in Hid.
  assert (Hlt : Z.of_nat (length l) < Z.of_nat j + 1).
  { eapply sealed_before; [exact Hl|exact Hseal|exact Hr'|exact Hret|exact Hj]. }
  apply list_elem_of_fmap in Hid as (o & Eo & (j' & Hj' & ?)%elem_of_take). exists o. split; [done|].
  apply elem_of_take. exists j'. split; [done|lia].
Qed.

(** ** The place of an operation *)
Record at_place (x : request * Operation KvValue) (z : Z) : Prop := {
  ap_placed : placed G x z;
  ap_after : exists i, G !! i = Some (req_op x.1) /\ 2 * Z.of_nat i + 1 <= z;
  ap_before : (exists l, gprefix (sv_raft sv) l /\ sealed sv l (ReturnTime x.2) /\ z <= 2 * Z.of_nat (length l)) \/
    ReturnTime x.2 = sv_time sv;
  ap_issued : sv_issued sv x.1 (CallTime x.2)
}.

Lemma done_place x : x ∈ sv_hist sv -> exists z, at_place x z.
Proof.
  destruct x as [r op]. intros Hx. destruct (si_hist _ _ I _ Hx) as (l & Hl & Hid & Hout & Hseal). simpl in *.
  destruct (co_done _ _ _ _ (si_clients _ _ I) r op Hx) as (_ & _ & _ & Hin).
  assert (Hiss : sv_issued sv r (CallTime op)) by (left; by exists op).
  rewrite (log_prefix_take l Hl) in Hid, Hout.
  destruct (first_place r _ Hiss) as (i & Hf & Hfirst).
  { apply list_elem_of_fmap in Hid as (o & Eo & Ho%take_elem). apply list_elem_of_fmap. eauto. }
  specialize (Hfirst _ Hid). pose proof (f_equal length (log_prefix_take l Hl)) as Hlen. rewrite length_take in Hlen.
  exists (match r with ReqGet _ => 2 * Z.of_nat (length l) | ReqPut _ => 2 * Z.of_nat i + 1 end).
  split; simpl; try done.
  - split; [done|]. simpl. destruct r as [a|a]; simpl.
    + exists (length l). split_and!; [done|lia|exact Hout].
    + exists i. split_and!; [done|exact Hf|by eexists].
  - exists i. split; [apply Hf|]. destruct r; lia.
  - left. exists l. split_and!; [done..|]. destruct r; lia.
Qed.

Lemma pending_place c x : pending_entry sv c = Some x -> req_id x.1 ∈ op_id <$> G -> exists z, at_place x z.
Proof.
  unfold pending_entry. intros H Hid. destruct (cl_req (sv_clerks sv c)) as [[[a|a] t]|] eqn:Hreq; simplify_eq.
  assert (Hiss : sv_issued sv (ReqPut a) t) by (right; by exists c).
  destruct (first_place _ _ Hiss Hid) as (i & Hf & _). exists (2 * Z.of_nat i + 1). split; simpl; try done.
  - split; [done|]. simpl. exists i. split_and!; [done|exact Hf|by eexists].
  - exists i. split; [apply Hf|lia].
  - by right.
Qed.

(** An operation that returned before another was called has the smaller place. *)
Lemma place_order x y z z' : at_place x z -> at_place y z' -> ReturnTime x.2 < CallTime y.2 -> z < z'.
Proof.
  intros [_ _ Hb _] [_ (i & Hi & Hz') _ Hiss] Hlt. destruct Hb as [(l & Hl & Hseal & ?)|Hr].
  - pose proof (sealed_before _ _ _ _ _ Hl Hseal Hiss Hlt Hi). lia.
  - destruct (issued_client _ _ _ _ _ _ (si_clients _ _ I) Hiss) as (_ & _ & ?). lia.
Qed.

Lemma fresh_unique i i' o o' : fresh_at G i o -> fresh_at G i' o' -> op_id o = op_id o' -> i = i'.
Proof.
  assert (Hlt : forall i i' o o', fresh_at G i o -> fresh_at G i' o' -> op_id o = op_id o' -> ~ (i < i')%nat).
  { intros j j' p p' [Hj _] [_ Hj'] E Hjj. apply Hj'. rewrite <- E. apply list_elem_of_fmap. exists p.
    split; [done|]. apply elem_of_take. eauto. }
  intros H H' E. pose proof (Hlt i i' o o' H H' E). pose proof (Hlt i' i o' o H' H (eq_sym E)). lia.
Qed.

(** ** The operations and their order *)

(** The clerks whose pending write is in the log. *)
Definition took_effect (c : Z) : bool :=
  match pending_entry sv c with Some x => bool_decide (req_id x.1 ∈ op_id <$> G) | None => false end.
Definition effective : list Z := filter (fun c => took_effect c = true) (remove_dups (ClientID <$> G)).

Definition entries (cs : list Z) : list (request * Operation KvValue) :=
  sv_hist sv ++ omap (pending_entry sv) cs.

Lemma pending_entry_req c x : pending_entry sv c = Some x ->
  exists a t, x.1 = ReqPut a /\ cl_req (sv_clerks sv c) = Some (x.1, t) /\ req_client x.1 = c.
Proof.
  unfold pending_entry. intros H. destruct (cl_req (sv_clerks sv c)) as [[[a|a] t]|] eqn:Hreq; simplify_eq.
  exists a, t. split_and!; try done. by apply (co_pending _ _ _ _ (si_clients _ _ I) c (ReqPut a) t).
Qed.

Lemma entries_once cs : NoDup cs -> NoDup (req_id <$> (entries cs).*1).
Proof.
  intros Hcs. unfold entries. rewrite !fmap_app. apply NoDup_app. split_and!.
  - apply (co_once _ _ _ _ (si_clients _ _ I)).
  - intros id (r & -> & ([r' op] & -> & Hh)%list_elem_of_fmap)%list_elem_of_fmap
      (r2 & E & (x & -> & (c & _ & Hc)%list_elem_of_omap)%list_elem_of_fmap)%list_elem_of_fmap.
    destruct (pending_entry_req c x Hc) as (a & t & _ & Hreq & Ec). simpl in E. injection E as E1 E2.
    rewrite <- Ec, <- E1 in Hreq. destruct (co_past _ _ _ _ (si_clients _ _ I) _ _ _ _ Hh Hreq). lia.
  - induction Hcs as [|c cs Hc _ IH]; [constructor|]. simpl.
    destruct (pending_entry sv c) as [x|] eqn:Ex; [|done]. simpl. constructor; [|done].
    intros (r & E & (y & -> & (d & Hd & Ey)%list_elem_of_omap)%list_elem_of_fmap)%list_elem_of_fmap.
    destruct (pending_entry_req c x Ex) as (_ & _ & _ & _ & E1).
    destruct (pending_entry_req d y Ey) as (_ & _ & _ & _ & E2). injection E as E _. congruence.
Qed.

Lemma entries_placed x : x ∈ entries effective -> exists z, at_place x z.
Proof.
  intros [Hx|(c & Hc & Hx)%list_elem_of_omap]%elem_of_app; [by apply done_place|].
  apply list_elem_of_filter in Hc as [Hc _]. unfold took_effect in Hc. rewrite Hx in Hc.
  apply bool_decide_eq_true in Hc. by eapply pending_place.
Qed.

(** Every write of the log is one of the operations. *)
Lemma entries_complete i o : fresh_at G i o -> CmdType o <> GET ->
  exists x a, x ∈ entries effective /\ x.1 = ReqPut a /\ putAppendOp a = o.
Proof.
  intros [Hi Hf] Ht. destruct (log_issued i o Hi) as (r & t & Hr & ->). destruct r as [a|a]; [done|].
  assert (Hin : req_op (ReqPut a) ∈ G) by (by eapply list_elem_of_lookup_2).
  destruct Hr as [(op & Hh & _)|(c & Hc)].
  - exists (ReqPut a, op), a. split_and!; try done. apply elem_of_app. by left.
  - destruct (pending_entry sv c) as [x|] eqn:Ex; [|unfold pending_entry in Ex; by rewrite Hc in Ex].
    destruct (pending_entry_req c x Ex) as (a' & t' & E' & Hreq & Ec). rewrite Hc in Hreq.
    injection Hreq as E _. exists x, a. split_and!; [|done..]. apply elem_of_app. right.
    apply list_elem_of_omap. exists c. split; [|done]. apply list_elem_of_filter. split.
    + unfold took_effect. rewrite Ex. apply bool_decide_eq_true. rewrite <- E, <- op_id_req.
      by apply list_elem_of_fmap_2.
    + apply elem_of_remove_dups. apply list_elem_of_fmap. exists (req_op (ReqPut a)). split; [|done].
      rewrite <- Ec, <- E. done.
Qed.

(** Two operations at the same odd place are the same. *)
Lemma odd_place x y z : at_place x z -> at_place y z -> Z.even z = false -> req_id x.1 = req_id y.1.
Proof.
  intros [Hx _ _ _] [Hy _ _ _] Hodd. destruct Hx as [_ Hx], Hy as [_ Hy].
  destruct (x.1) as [a|a], (y.1) as [b|b]; try (by destruct Hx as (j & -> & _); rewrite Z.even_mul in Hodd);
    try (by destruct Hy as (j & -> & _); rewrite Z.even_mul in Hodd).
  destruct Hx as (i & -> & [Hi _] & _), Hy as (j & E & [Hj _] & _). assert (i = j) as -> by lia.
  rewrite Hi in Hj. injection Hj as E1 E2 E3 E4 E5. unfold req_id. simpl. congruence.
Qed.

Lemma entries_linearizable : linearizable StoreModel (entries effective).*2.
Proof.
  destruct (choose_each at_place (entries effective) entries_placed) as (K & HK & Hpl).
  set (K' := merge_sort le_place K). assert (Hp : K' ≡ₚ K) by apply merge_sort_Permutation.
  assert (Hpl' : forall y, y ∈ K' -> at_place y.1 y.2) by (intros y; rewrite Hp; apply Hpl).
  assert (Hsort : StronglySorted le_place K') by (apply StronglySorted_merge_sort; apply _).
  exists K'.*1.*2. split_and!.
  - by rewrite Hp, HK.
  - apply (replay_legal G K' 0); [apply log_ordered|lia|done| | |].
    + apply sorted_before; [done| |].
      * rewrite Hp, HK. apply entries_once. apply NoDup_filter, NoDup_remove_dups.
      * intros a b Ha Hb E Ev. eapply odd_place; [by apply Hpl'|rewrite E; by apply Hpl'|done].
    + intros y Hy. pose proof (Hpl' y Hy) as [H1 (i & _ & H2) _ _]. split; [done|]. lia.
    + intros i o _ Hf Ht. destruct (entries_complete i o Hf Ht) as (x & a & Hx & Ex & Ea).
      rewrite <- HK in Hx. apply list_elem_of_fmap in Hx as (y & -> & Hy). exists y. split; [by rewrite Hp|].
      destruct (Hpl y Hy) as [[_ Hplaced] _ _ _]. rewrite Ex in Hplaced. destruct Hplaced as (i' & -> & Hf' & _).
      rewrite Ea in Hf'. by rewrite (fresh_unique i' i o o Hf' Hf eq_refl).
  - rewrite <- list_fmap_compose. apply (StronglySorted_map _ _ _ _ Hsort). intros a b Ha Hb Hle.
    unfold may_precede. simpl. destruct (decide (CallTime a.1.2 <= ReturnTime b.1.2)) as [|Hlt]; [done|].
    pose proof (place_order b.1 a.1 b.2 a.2 (Hpl' b Hb) (Hpl' a Ha) ltac:(lia)). unfold le_place in Hle. lia.
Qed.
End Log.

Lemma omap_snd sv cs : (omap (pending_entry sv) cs).*2 = omap (pending_write sv) cs.
Proof.
  unfold pending_write. induction cs as [|c cs IH]; [done|]. simpl.
  destruct (pending_entry sv c); simpl; [f_equal|]; exact IH.
Qed.

Lemma history_linearizable mx sv : sv_reach_if n mx sv_in_order sv ->
  exists cs, NoDup cs /\ linearizable StoreModel (history sv ++ omap (pending_write sv) cs).
Proof.
  intros I%reach_inv. destruct (global_log sv I) as (G & HG). exists (effective sv G). split.
  - apply NoDup_filter, NoDup_remove_dups.
  - pose proof (entries_linearizable sv I G HG) as H. unfold entries in H. by rewrite fmap_app, omap_snd in H.
Qed.

(** What the test records is a history for the checker. *)
Lemma history_times mx sv : sv_reach_if n mx sv_in_order sv ->
  (forall o, o ∈ history sv -> kv_typed o) /\ proper_times (history sv) /\ no_ties (history sv).
Proof.
  intros I%reach_inv. pose proof (si_clients _ _ I) as C.
  assert (Hin : forall o, o ∈ history sv -> exists r, (r, o) ∈ sv_hist sv).
  { intros o ([r o'] & -> & Hr)%list_elem_of_fmap. by exists r. }
  split_and!.
  - intros o [r Hr]%Hin. destruct (co_done _ _ _ _ C r o Hr) as (_ & _ & _ & Ei).
    destruct (si_hist _ _ I _ Hr) as (l & _ & _ & Eo & _). by do 2 eexists.
  - intros o [r Hr]%Hin. destruct (co_done _ _ _ _ C r o Hr) as (_ & _ & ? & _). lia.
  - intros a b [r Hr]%Hin [r' Hr']%Hin. eapply (co_ties _ _ _ _ C); [exact Hr'|]. left. by exists a.
Qed.

(** C1: the service is linearizable.  In every execution of clerks, servers and the
    Raft cluster without compaction, over any loss, delay and reordering of
    messages, retries, crashes and restarts, the operations the clerks completed,
    together with some of the writes that are still in progress, are
    linearizable as operations of one store of all keys. *)
Theorem service_linearizable sv : sv_reach n (-1) sv ->
  exists cs, NoDup cs /\ linearizable StoreModel (history sv ++ omap (pending_write sv) cs).
Proof. intros Hr. by apply (history_linearizable (-1)), quiet_reach_in_order. Qed.

(** C2: the service with compaction is linearizable, its two flaws apart.  Whatever the
    servers' maxraftstate, in an execution of clerks, servers and the Raft cluster
    in which no replication request overshoots the leader's log and every peer
    hands its installed snapshots to its server before it applies further entries,
    the operations the clerks completed, together with some of the writes that are
    still in progress, are linearizable, over compaction, snapshot transfer,
    message loss, delay and reordering, retries, crashes and restarts. *)
Theorem service_linearizable_in_order mx sv : sv_reach_if n mx sv_in_order sv ->
  exists cs, NoDup cs /\ linearizable StoreModel (history sv ++ omap (pending_write sv) cs).
Proof. apply history_linearizable. Qed.

(** No clerk is in the middle of a request. *)
Definition quiescent sv : Prop := forall c, cl_req (sv_clerks sv c) = None.

Lemma checker_accepts (sort : list (entry KvValue) -> list (entry KvValue)) mx sv :
  sorts sort -> sv_reach_if n mx sv_in_order sv -> quiescent sv -> history sv <> [] ->
  exists parts, KvPartition (history sv) = Ret parts /\ forall order, order ≡ₚ seq 0 (length parts) ->
  exists fuel0, forall fuel, (fuel0 <= fuel)%nat ->
    CheckOperations sort fuel (fun _ => 0) KvModel (history sv) order = Ret true.
Proof.
  intros Hsort Hr Hq Hne. destruct (history_linearizable mx sv Hr) as (cs & _ & Hlin).
  assert (omap (pending_write sv) cs = []) as E.
  { clear Hlin. induction cs as [|c cs IH]; [done|]. simpl. unfold pending_write at 1, pending_entry at 1.
    by rewrite (Hq c). }
  rewrite E, app_nil_r in Hlin. destruct (history_times mx sv Hr) as (Hty & Ht & Hties).
  destruct (kv_decides sort (history sv) Hsort Hty Ht Hties Hne) as (parts & Hparts & Hdec).
  exists parts. split; [done|]. intros order Hord. destruct (Hdec order Hord) as (f0 & res & Hres & Hrun).
  exists f0. by rewrite (proj2 Hres Hlin) in Hrun.
Qed.

(** C8: the checker accepts the service.  When all clerks have returned, what the
    test has recorded of a service without compaction, one operation at least, is
    accepted by CheckOperations with the key/value model, in whatever order the
    partitions finish, once the search has run long enough. *)
Theorem checker_accepts_service (sort : list (entry KvValue) -> list (entry KvValue)) sv :
  sorts sort -> sv_reach n (-1) sv -> quiescent sv -> history sv <> [] ->
  exists parts, KvPartition (history sv) = Ret parts /\ forall order, order ≡ₚ seq 0 (length parts) ->
  exists fuel0, forall fuel, (fuel0 <= fuel)%nat ->
    CheckOperations sort fuel (fun _ => 0) KvModel (history sv) order = Ret true.
Proof. intros ? Hr. apply (checker_accepts sort (-1) sv); [done|by apply quiet_reach_in_order]. Qed.
End Linear.
