(* ===== verification/KVLinearRuns.v ===== *)
(** * Runs of the service: linearizable, and not with late snapshots

    Three concrete executions of the whole service.  In the first, without
    compaction, a server crashes and clerks retry.  In the second, with
    compaction, a peer hands its snapshot over late and a read returns a value that
    an acknowledged append had already changed.  The third is the second with the
    snapshot handed over in order. *)

From stdpp Require Import base functions list list_numbers gmap strings sorting relations.
From S2P Require Import Prelude Gob RaftNode RaftSystem RaftSafety RaftBounds RaftSnap KVServer KVFacts KVClient Bitset LinCheck LinList LinSearch LinHistory LinKV KVService KVSession KVReplica KVServiceInv KVReplay KVLinear.
Open Scope Z_scope.

(** ** Idle clerks *)
Section Idle.
Context {GO : Gob Op} {GD : Gob (gmap string string)} {GM : Gob (gmap Z Z)} (n mx : Z).
Implicit Types sv : service.

Definition invoked (e : sevent) : option Z := match e with SInvoke c _ => Some c | _ => None end.

Lemma section_clerks sv k x p sv' : run_section sv k x p = Some sv' -> sv_clerks sv' = sv_clerks sv.
Proof.
  unfold run_section. intros H. destruct p; repeat case_match; simplify_eq; done.
Qed.

(** A clerk that was not asked for anything has no request. *)
Lemma exec_idle sv e sv' c : sv_exec n mx sv e = Some sv' -> invoked e <> Some c ->
  cl_req (sv_clerks sv c) = None -> cl_req (sv_clerks sv' c) = None.
Proof.
  intros H Hne Hc. unfold sv_exec in H. apply fmap_Some in H as (sv1 & H & ->). simpl.
  assert (Hsame : sv_clerks sv1 = sv_clerks sv -> cl_req (sv_clerks sv1 c) = None) by (by intros ->).
  assert (Htouch : forall d cl', sv_clerks sv1 = <[d := cl']> (sv_clerks sv) -> (d = c -> cl_req cl' = None) ->
    cl_req (sv_clerks sv1 c) = None) by (intros d cl' -> Hd; fn_cases; auto).
  destruct e as [d o|d|d|k|k|k|i|k|e|i]; simpl in H;
    try (destruct (sv_calls sv !! k) as [x|] eqn:Hk; [|done]; cbn [mbind option_bind] in H).
  - repeat case_match; simplify_eq. eapply Htouch; [done|]. simpl in *. congruence.
  - repeat case_match; simplify_eq. eapply Htouch; [done|]. intros ->. congruence.
  - repeat case_match; simplify_eq. eapply Htouch; [done|]. by intros ->.
  - destruct (kc_stage x) as [| |resp]; [done..|]. unfold clerk_return in H.
    destruct (cl_req (sv_clerks sv (kc_client x))) as [[r t]|] eqn:Hreq; [|done].
    repeat case_match; simplify_eq; (eapply Htouch; [done|]); done || (intros <-; congruence).
  - destruct (kc_stage x); simplify_eq; [by apply Hsame|]. apply Hsame. by eapply section_clerks.
  - repeat case_match; simplify_eq; by apply Hsame.
  - unfold take_msg in H. destruct (is_peer n i); [|done]. destruct (_ !! _); [|done]. simpl in H.
    repeat case_match; simplify_eq; by apply Hsame.
  - destruct (sv_compact sv !! k) as [y|]; [|done]. cbn [mbind option_bind] in H. case_match; [done|].
    apply bind_Some in H as (r & _ & H). simplify_eq. by apply Hsame.
  - case_match; [|done]. apply bind_Some in H as (r & _ & H). simplify_eq. by apply Hsame.
  - unfold sv_crash in H. apply bind_Some in H as (r & _ & H). simplify_eq. by apply Hsame.
Qed.

Lemma run_idle sv evs sv' c : sv_run n mx sv evs = Some sv' -> c ∉ omap invoked evs ->
  cl_req (sv_clerks sv c) = None -> cl_req (sv_clerks sv' c) = None.
Proof.
  revert sv. induction evs as [|e evs IH]; simpl; intros sv H Hin Hc; [by simplify_eq|].
  destruct (sv_exec n mx sv e) as [sv1|] eqn:E; [|done]. simpl in H.
  assert (invoked e <> Some c) by (intros Ee; rewrite Ee in Hin; set_solver).
  eapply (IH sv1); [done| |by eapply exec_idle]. destruct (invoked e); set_solver.
Qed.

Lemma ran_quiescent evs :
  Forall (fun c => cl_req (sv_clerks (sv_ran n mx evs) c) = None) (omap invoked evs) ->
  quiescent (sv_ran n mx evs).
Proof.
  intros Hf c. unfold sv_ran in *. destruct (sv_run n mx (sv_init n mx) evs) as [sv|] eqn:E; [|done].
  destruct (decide (c ∈ omap invoked evs)) as [Hin|Hin].
  - rewrite Forall_forall in Hf. by apply Hf.
  - simpl. by eapply run_idle.
Qed.
End Idle.

(** ** Operations that do not overlap *)
Definition returned_first {V} (a b : Operation V) : Prop := ReturnTime a < CallTime b.

(** A sequential history has one order. *)
Lemma sequential_legal {V St} (model : Model V St) (h : list (Operation V)) :
  StronglySorted returned_first h -> linearizable model h -> legal model (Init model) h.
Proof.
  intros Hseq (ops & Hp & Hleg & Hss). replace h with ops; [done|]. clear Hleg.
  revert ops Hp Hss. induction Hseq as [|a h Hh IH Ha]; intros ops Hp Hss; [by apply Permutation_nil_r|].
  destruct ops as [|b ops]; [by apply Permutation_nil_l in Hp|].
  apply StronglySorted_inv in Hss as [Hss Hb]. rewrite Forall_forall in Ha, Hb.
  assert (b = a) as ->.
  { assert (Hin : b ∈ a :: h) by (rewrite <- Hp; left). apply elem_of_cons in Hin as [|Hin]; [done|].
    assert (Hin' : a ∈ b :: ops) by (rewrite Hp; left). apply elem_of_cons in Hin' as [|Hin']; [done|].
    specialize (Ha b Hin). specialize (Hb a Hin'). unfold returned_first, may_precede in *. lia. }
  f_equal. apply IH; [|done]. by apply Permutation_cons_inv in Hp.
Qed.

(** ** Executions of three servers *)
Definition runs (k m : nat) : list sevent := replicate m (SRun k).
Definition cluster (evs : list (event Op)) : list sevent := SRaft <$> evs.
(** A call of clerk [c] that gets no answer. *)
Definition lost (c : Z) : list sevent := [SSend c; SFail c].

(** Clerk 7 stores "a" through server 1; server 0 crashes; clerk 8 reads while
    clerk 7 appends and its first call times out. *)
Definition steady_events : list sevent :=
  cluster [EvTimeout 1; EvDeliver 0; EvReply 0; EvDrop 0] ++
  [SInvoke 7 (OpPut "k" "a")] ++ lost 7 ++ [SSend 7] ++ runs 1 5 ++
  cluster [EvSync 1 0; EvDeliver 0; EvReply 0; EvWake 1; EvApply 1] ++ [STake 1] ++ runs 1 4 ++ [SReturn 1] ++
  [SCrash 0; SInvoke 8 (OpGet "k"); SInvoke 7 (OpAppend "k" "b"); SSend 7] ++ runs 2 5 ++
  [STimeout 2; SRun 2; SReturn 2; SSend 7] ++ runs 3 5 ++
  cluster [EvSync 1 2; EvDeliver 0; EvReply 0; EvSync 1 2; EvDeliver 0; EvReply 0; EvWake 1; EvApply 1] ++ [STake 1; STake 1] ++
  runs 3 4 ++ [SReturn 3] ++ lost 8 ++ [SSend 8] ++ runs 5 5 ++
  cluster [EvSync 1 2; EvDeliver 0; EvReply 0; EvWake 1; EvApply 1] ++ [STake 1] ++ runs 5 4 ++ [SReturn 5].

Definition steady : service := sv_ran 3 (-1) steady_events.

(** Peer 1 compacts after the first command and sends its snapshot twice, as the
    replication daemon does while there is no reply.  Peer 2 installs the snapshot;
    before the handler has sent it on applyCh, peer 2 answers the second request,
    which is stale then, receives the second command and applies it.  Then the
    handler of the first request hands the snapshot to the server and returns;
    peer 2 is elected and answers clerk 8. *)
Definition compacting_events : list sevent :=
  cluster [EvTimeout 1; EvDeliver 0; EvReply 0; EvDrop 0] ++
  [SInvoke 7 (OpPut "k" "a")] ++ lost 7 ++ [SSend 7] ++ runs 1 5 ++
  cluster [EvSync 1 0; EvDeliver 0; EvReply 0; EvWake 1; EvApply 1] ++ [STake 1] ++ runs 1 4 ++
  [SReturn 1; SCompact 0] ++ cluster [EvSync 1 2; EvSync 1 2; EvDeliver 0; EvDeliver 0; EvReply 0] ++
  [SInvoke 7 (OpAppend "k" "b"); SSend 7] ++ runs 2 5 ++
  cluster [EvSync 1 2; EvDeliver 0; EvReply 0; EvWake 1; EvApply 1] ++ [STake 1] ++ runs 2 4 ++ [SReturn 2] ++
  cluster [EvSync 1 2; EvDeliver 0; EvReply 0; EvWake 2; EvApply 2] ++ [STake 2] ++
  cluster [EvNotify 2 0; EvReply 0] ++ [STake 2] ++ cluster [EvTimeout 2; EvDeliver 0; EvReply 0; EvDrop 0] ++
  [SInvoke 8 (OpGet "k")] ++ lost 8 ++ lost 8 ++ [SSend 8] ++ runs 5 5 ++
  cluster [EvSync 2 0; EvDeliver 0; EvReply 0; EvSync 2 0; EvDeliver 0; EvReply 0; EvSync 2 0; EvDeliver 0;
           EvReply 0; EvWake 2; EvApply 2] ++ [STake 2] ++ runs 5 4 ++ [SReturn 5].

Definition compacting : service := sv_ran 3 1 compacting_events.

(** The same requests; peer 2 hands the snapshot over as soon as it is installed. *)
Definition handing_events : list sevent :=
  cluster [EvTimeout 1; EvDeliver 0; EvReply 0; EvDrop 0] ++
  [SInvoke 7 (OpPut "k" "a")] ++ lost 7 ++ [SSend 7] ++ runs 1 5 ++
  cluster [EvSync 1 0; EvDeliver 0; EvReply 0; EvWake 1; EvApply 1] ++ [STake 1] ++ runs 1 4 ++
  [SReturn 1; SCompact 0] ++ cluster [EvSync 1 2; EvDeliver 0; EvNotify 2 0; EvReply 0] ++ [STake 2] ++
  [SInvoke 7 (OpAppend "k" "b"); SSend 7] ++ runs 2 5 ++
  cluster [EvSync 1 2; EvDeliver 0; EvReply 0; EvWake 1; EvApply 1] ++ [STake 1] ++ runs 2 4 ++ [SReturn 2] ++
  cluster [EvSync 1 2; EvDeliver 0; EvReply 0; EvWake 2; EvApply 2] ++ [STake 2] ++
  cluster [EvTimeout 2; EvDeliver 0; EvReply 0; EvDrop 0] ++
  [SInvoke 8 (OpGet "k")] ++ lost 8 ++ lost 8 ++ [SSend 8] ++ runs 5 5 ++
  cluster [EvSync 2 0; EvDeliver 0; EvReply 0; EvSync 2 0; EvDeliver 0; EvReply 0; EvSync 2 0; EvDeliver 0;
           EvReply 0; EvWake 2; EvApply 2] ++ [STake 2] ++ runs 5 4 ++ [SReturn 5].

(** A run every event of which is in order. *)
Fixpoint sv_run_in_order (n mx : Z) (sv : service) (evs : list sevent) : option service :=
  match evs with
  | [] => Some sv
  | e :: evs' =>
      if match e with SRaft e' => in_orderb (sv_raft sv) e' | _ => true end
      then sv' ← sv_exec n mx sv e; sv_run_in_order n mx sv' evs' else None
  end.

Lemma run_in_order_reach n mx sv evs sv' :
  sv_reach_if n mx sv_in_order sv -> sv_run_in_order n mx sv evs = Some sv' -> sv_reach_if n mx sv_in_order sv'.
Proof.
  revert sv. induction evs as [|e evs IH]; simpl; intros sv Hr H; [by simplify_eq|].
  destruct (match e with SRaft e' => in_orderb (sv_raft sv) e' | _ => true end) eqn:Ho; [|done].
  destruct (sv_exec n mx sv e) as [sv1|] eqn:E; [|done]. simpl in H. eapply IH; [|done].
  eapply sv_reach_step; [done| |done]. destruct e; try done. by apply in_orderb_spec.
Qed.

Definition handing : service := default (sv_init 3 1) (sv_run_in_order 3 1 (sv_init 3 1) handing_events).

Lemma handing_in_order : sv_reach_if 3 1 sv_in_order handing.
Proof.
  unfold handing. destruct (sv_run_in_order _ _ _ _) as [sv|] eqn:E; simpl; [|constructor].
  by eapply run_in_order_reach; [constructor|].
Qed.

Lemma service_linearizable_witness :
  length (history steady) = 3%nat /\
  exists cs, NoDup cs /\ linearizable StoreModel (history steady ++ omap (pending_write steady) cs).
Proof.
  split; [vm_compute; reflexivity|]. apply (service_linearizable 3 steady). apply sv_ran_reach.
Defined.

Lemma service_linearizable_in_order_witness :
  (Output <$> history handing) = [KvOut (mkKvOutput ""); KvOut (mkKvOutput ""); KvOut (mkKvOutput "ab")] /\
  SnapshotIndex (raft_of (sv_raft handing) 2) = 1 /\
  exists cs, NoDup cs /\ linearizable StoreModel (history handing ++ omap (pending_write handing) cs).
Proof.
  split; [vm_compute; reflexivity|]. split; [vm_compute; reflexivity|].
  apply (service_linearizable_in_order 3 1 handing handing_in_order).
Defined.

Lemma steady_quiescent : quiescent steady.
Proof. apply ran_quiescent. repeat constructor. Qed.

Lemma checker_accepts_service_witness :
  exists parts, KvPartition (history steady) = Ret parts /\ forall order, order ≡ₚ seq 0 (length parts) ->
  exists fuel0, forall fuel, (fuel0 <= fuel)%nat ->
    CheckOperations time_sort fuel (fun _ => 0) KvModel (history steady) order = Ret true.
Proof.
  apply (checker_accepts_service 3 time_sort steady).
  - apply time_sort_sorts.
  - apply sv_ran_reach.
  - apply steady_quiescent.
  - intros E. assert (length (history steady) = 3%nat) as El by (vm_compute; reflexivity).
    rewrite E in El. discriminate El.
Defined.

(** C9: the late snapshot breaks linearizability.  With compaction there is an
    execution of the service that ends with every clerk's request answered and
    whose history is not linearizable: the append of "b" to "a" returned before
    a read was called that returned "a".  The snapshot is late because its handler
    sends it after it has left the critical section. *)
Theorem compaction_breaks_linearizability :
  exists sv, sv_reach 3 1 sv /\ quiescent sv /\ ~ linearizable StoreModel (history sv) /\
    history sv = [put "k" "a" 4 23;
      mkOperation (KvIn (mkKvInput 2 "k" "b")) 30 (KvOut (mkKvOutput "")) 47; got "k" "a" 61 88].
Proof.
  exists compacting.
  assert (Hh : history compacting = [put "k" "a" 4 23;
    mkOperation (KvIn (mkKvInput 2 "k" "b")) 30 (KvOut (mkKvOutput "")) 47; got "k" "a" 61 88])
    by (vm_compute; reflexivity).
  split_and!; [apply sv_ran_reach|apply ran_quiescent; repeat constructor| |exact Hh].
  rewrite Hh. intros Hlin. apply sequential_legal in Hlin.
  - destruct Hlin as (m1 & [= <-] & m2 & [= <-] & m3 & H3 & _). vm_compute in H3. discriminate H3.
  - unfold returned_first. repeat constructor; simpl; lia.
Qed.
