(* ===== verification/ShardMaster.v ===== *)
(** * The shard master's clerk: shardmaster/{common,client}.go

    Configurations assign shards to groups of servers.  The clerk asks the
    masters in turn, round after round, until one answers that is the leader.
    The network and the masters are functions: the reply to the call number [t]
    at an end, [None] when the call fails. *)

From stdpp Require Import base list list_numbers gmap strings.
From S2P Require Import Prelude.
Open Scope Z_scope.

Definition NShards : Z := 10.

Record Config : Type := mkConfig {
  Num : Z; Shards : list Z; Groups : gmap Z (list string)
}.

(** The zero value, with a nil map. *)
Definition zeroConfig : Config := mkConfig 0 (replicate (Z.to_nat NShards) 0) ∅.

Record JoinArgs : Type := mkJoinArgs { ja_Servers : gmap Z (list string) }.
Record LeaveArgs : Type := mkLeaveArgs { la_GIDs : list Z }.
Record MoveArgs : Type := mkMoveArgs { ma_Shard : Z; ma_GID : Z }.
Record QueryArgs : Type := mkQueryArgs { qa_Num : Z }.

(** [JoinReply], [LeaveReply] and [MoveReply]. *)
Record MasterReply : Type := mkMasterReply { mr_WrongLeader : bool; mr_Err : string }.
Record QueryReply : Type := mkQueryReply { qr_WrongLeader : bool; qr_Err : string; qr_Config : Config }.

Record MasterClerk : Type := mkMasterClerk { mc_servers : list Z }.
Definition MakeMasterClerk (servers : list Z) : MasterClerk := mkMasterClerk servers.

(** [for _, srv := range ck.servers { ... if good { return } }]: the number of
    calls made so far, and the reply that ended the round. *)
Fixpoint tryServers {R} (call : nat -> Z -> option R) (good : R -> bool) (servers : list Z) (t : nat)
    : nat * option R :=
  match servers with
  | [] => (t, None)
  | srv :: servers' =>
      match call t srv with
      | Some reply => if good reply then (S t, Some reply) else tryServers call good servers' (S t)
      | None => tryServers call good servers' (S t)
      end
  end.

(** [for { ... time.Sleep }]: one round per unit of fuel. *)
Fixpoint retry {R} (fuel : nat) (call : nat -> Z -> option R) (good : R -> bool) (servers : list Z)
    (t : nat) : nat * option R :=
  match fuel with
  | O => (t, None)
  | S fuel' =>
      match tryServers call good servers t with
      | (t', Some reply) => (t', Some reply)
      | (t', None) => retry fuel' call good servers t'
      end
  end.

Definition Query (fuel : nat) (net : nat -> Z -> QueryArgs -> option QueryReply) (t : nat)
    (ck : MasterClerk) (num : Z) : nat * option Config :=
  let args := mkQueryArgs num in
  let '(t', r) := retry fuel (fun t srv => net t srv args)
    (fun reply => bool_decide (qr_WrongLeader reply = false)) (mc_servers ck) t in
  (t', qr_Config <$> r).

Definition Join (fuel : nat) (net : nat -> Z -> JoinArgs -> option MasterReply) (t : nat)
    (ck : MasterClerk) (servers : gmap Z (list string)) : nat * option unit :=
  let args := mkJoinArgs servers in
  let '(t', r) := retry fuel (fun t srv => net t srv args)
    (fun reply => bool_decide (mr_WrongLeader reply = false)) (mc_servers ck) t in
  (t', (fun _ => ()) <$> r).

Definition Leave (fuel : nat) (net : nat -> Z -> LeaveArgs -> option MasterReply) (t : nat)
    (ck : MasterClerk) (gids : list Z) : nat * option unit :=
  let args := mkLeaveArgs gids in
  let '(t', r) := retry fuel (fun t srv => net t srv args)
    (fun reply => bool_decide (mr_WrongLeader reply = false)) (mc_servers ck) t in
  (t', (fun _ => ()) <$> r).

Definition Move (fuel : nat) (net : nat -> Z -> MoveArgs -> option MasterReply) (t : nat)
    (ck : MasterClerk) (shard gid : Z) : nat * option unit :=
  let args := mkMoveArgs shard gid in
  let '(t', r) := retry fuel (fun t srv => net t srv args)
    (fun reply => bool_decide (mr_WrongLeader reply = false)) (mc_servers ck) t in
  (t', (fun _ => ()) <$> r).

(** ** Which call is answered first *)
Section Rounds.
Context {R : Type} (call : nat -> Z -> option R) (good : R -> bool).

Definition rejected (t : nat) (srv : Z) : Prop := forall r, call t srv = Some r -> good r = false.

Lemma tryServers_none servers : forall t,
  (forall i srv, servers !! i = Some srv -> rejected (t + i) srv) ->
  tryServers call good servers t = ((t + length servers)%nat, None).
Proof.
  induction servers as [|srv servers IH]; intros t Hrej; simpl; [by rewrite Nat.add_0_r|].
  pose proof (Hrej O srv eq_refl) as H0. rewrite Nat.add_0_r in H0.
  rewrite IH; [|intros i s Hi; rewrite Nat.add_succ_l, <- Nat.add_succ_r; by apply (Hrej (S i))].
  rewrite Nat.add_succ_l, <- Nat.add_succ_r. destruct (call t srv) as [r|] eqn:E; [|done].
  by rewrite (H0 r E).
Qed.

Lemma tryServers_some servers : forall t i srv r,
  servers !! i = Some srv -> call (t + i) srv = Some r -> good r = true ->
  (forall j s, (j < i)%nat -> servers !! j = Some s -> rejected (t + j) s) ->
  tryServers call good servers t = (S (t + i), Some r).
Proof.
  induction servers as [|s0 servers IH]; intros t i srv r Hi Hc Hg Hrej; [done|].
  destruct i as [|i]; simpl in *.
  - injection Hi as ->. rewrite Nat.add_0_r in *. by rewrite Hc, Hg.
  - pose proof (Hrej O s0 ltac:(lia) eq_refl) as H0. rewrite Nat.add_0_r in H0.
    rewrite <- Nat.add_succ_l in *. assert (Hrest : tryServers call good servers (S t) = (S (S t + i), Some r)).
    { rewrite Nat.add_succ_r, <- Nat.add_succ_l in Hc. eapply IH; [done|exact Hc|done|].
      intros j s Hj Hs. rewrite Nat.add_succ_l, <- Nat.add_succ_r. apply (Hrej (S j)); [lia|done]. }
    rewrite Hrest. replace (S t + S i)%nat with (S (S t + i)) by lia.
    destruct (call t s0) as [r0|] eqn:E; [|done]. by rewrite (H0 r0 E).
Qed.

(** Call number [t0 + q * len + i] is the first that is answered well. *)
Lemma retry_first servers srv r : forall q t0 i fuel,
  servers !! i = Some srv -> call (t0 + q * length servers + i) srv = Some r -> good r = true ->
  (forall p j s, (p * length servers + j < q * length servers + i)%nat -> servers !! j = Some s ->
    rejected (t0 + p * length servers + j) s) ->
  (q < fuel)%nat ->
  retry fuel call good servers t0 = (S (t0 + q * length servers + i), Some r).
Proof.
  induction q as [|q IH]; intros t0 i fuel Hi Hc Hg Hrej Hf; (destruct fuel as [|fuel]; [lia|]); cbn [retry].
  - simpl in Hc. rewrite Nat.add_0_r in *. rewrite (tryServers_some _ _ _ _ _ Hi Hc Hg); [done|].
    intros j s Hj Hs. specialize (Hrej O j s). simpl in Hrej. rewrite Nat.add_0_r in Hrej. by apply Hrej.
  - rewrite tryServers_none.
    + rewrite (IH (t0 + length servers)%nat i fuel Hi); [do 2 f_equal; simpl; lia| |done| |lia].
      * replace (t0 + length servers + q * length servers + i)%nat
          with (t0 + S q * length servers + i)%nat by (simpl; lia). done.
      * intros p j s Hlt Hs. replace (t0 + length servers + p * length servers + j)%nat
          with (t0 + S p * length servers + j)%nat by (simpl; lia). apply Hrej; [simpl; lia|done].
    + intros j s Hs. specialize (Hrej O j s). simpl in Hrej. rewrite Nat.add_0_r in Hrej.
      apply Hrej; [|done]. apply lookup_lt_Some in Hs. lia.
Qed.
End Rounds.
