(* ===== verification/ShardClient.v ===== *)
(** * The sharded store's clerk: shardkv/{common,client}.go

    The clerk sends a request to the servers of the group that its configuration
    assigns to the key's shard, and asks the shard master for a new
    configuration when none of them serves it.  [make_end], the servers and the
    masters are arguments. *)

From stdpp Require Import base list list_numbers gmap strings.
From S2P Require Import Prelude ShardMaster.
Open Scope Z_scope.

(** The constants of common.go. *)
Definition shardOK : string := "OK".
Definition shardErrNoKey : string := "ErrNoKey".
Definition ErrWrongGroup : string := "ErrWrongGroup".

Record ShardPutAppendArgs : Type := mkShardPutAppendArgs { spa_Key : string; spa_Value : string; spa_Op : string }.
Record ShardPutAppendReply : Type := mkShardPutAppendReply { spr_WrongLeader : bool; spr_Err : string }.
Record ShardGetArgs : Type := mkShardGetArgs { sga_Key : string }.
Record ShardGetReply : Type := mkShardGetReply { sgr_WrongLeader : bool; sgr_Err : string; sgr_Value : string }.

(** [key[0]] is a byte. *)
Definition key2shard (key : string) : Z :=
  let shard := match key with EmptyString => 0 | String c _ => Z.of_N (Ascii.N_of_ascii c) end in
  Z.rem shard NShards.

Record ShardClerk : Type := mkShardClerk { sc_sm : MasterClerk; sc_config : Config }.
Definition MakeShardClerk (masters : list Z) : ShardClerk :=
  mkShardClerk (MakeMasterClerk masters) zeroConfig.

(** The inner loop over the servers of a group: the number of calls made so far,
    the servers called, and the reply that ends the request; [wrong] breaks. *)
Fixpoint askGroup {R} (call : nat -> string -> option R) (good wrong : R -> bool)
    (servers : list string) (t : nat) : nat * list string * option R :=
  match servers with
  | [] => (t, [], None)
  | s :: servers' =>
      let next := let '(t', asked, r) := askGroup call good wrong servers' (S t) in (t', s :: asked, r) in
      match call t s with
      | Some reply =>
          if good reply then (S t, [s], Some reply)
          else if wrong reply then (S t, [s], None)
          else next
      | None => next
      end
  end.

(** The outer loop: the clerk, the calls made, each with the configuration it was
    made under, and the reply.  No reply when [fuel], the number of
    configurations tried, or [mfuel], the rounds of a query, runs out. *)
Fixpoint shardLoop {R} (fuel mfuel : nat) (qnet : nat -> Z -> QueryArgs -> option QueryReply)
    (call : nat -> string -> option R) (good wrong : R -> bool) (key : string)
    (ck : ShardClerk) (t tm : nat) : outcome (ShardClerk * list (Config * string) * option R) :=
  match fuel with
  | O => Ret (ck, [], None)
  | S fuel' =>
      let shard := key2shard key in
      gid ← slice_get (Shards (sc_config ck)) shard;
      let '(t', asked, r) :=
        match Groups (sc_config ck) !! gid with
        | Some servers => askGroup call good wrong servers t
        | None => (t, [], None)
        end in
      let calls := pair (sc_config ck) <$> asked in
      match r with
      | Some reply => Ret (ck, calls, Some reply)
      | None =>
          match Query mfuel qnet tm (sc_sm ck) (-1) with
          | (tm', Some config) =>
              '(ck', rest, r') ← shardLoop fuel' mfuel qnet call good wrong key
                                   (mkShardClerk (sc_sm ck) config) t' tm';
              Ret (ck', calls ++ rest, r')
          | (_, None) => Ret (ck, calls, None)
          end
      end
  end.

Definition getGood (reply : ShardGetReply) : bool :=
  bool_decide (sgr_WrongLeader reply = false)
    && (bool_decide (sgr_Err reply = shardOK) || bool_decide (sgr_Err reply = shardErrNoKey)).
Definition getWrong (reply : ShardGetReply) : bool := bool_decide (sgr_Err reply = ErrWrongGroup).
Definition putGood (reply : ShardPutAppendReply) : bool :=
  bool_decide (spr_WrongLeader reply = false) && bool_decide (spr_Err reply = shardOK).
Definition putWrong (reply : ShardPutAppendReply) : bool := bool_decide (spr_Err reply = ErrWrongGroup).

Section Clerk.
Context (make_end : string -> Z) (qnet : nat -> Z -> QueryArgs -> option QueryReply).

Definition shard_Get (fuel mfuel : nat) (net : nat -> Z -> ShardGetArgs -> option ShardGetReply)
    (ck : ShardClerk) (t tm : nat) (key : string)
    : outcome (ShardClerk * list (Config * string) * option string) :=
  let args := mkShardGetArgs key in
  res ← shardLoop fuel mfuel qnet (fun t s => net t (make_end s) args) getGood getWrong key ck t tm;
  Ret (res.1, option_map sgr_Value res.2).

Definition shard_PutAppend (fuel mfuel : nat)
    (net : nat -> Z -> ShardPutAppendArgs -> option ShardPutAppendReply)
    (ck : ShardClerk) (t tm : nat) (key value op : string)
    : outcome (ShardClerk * list (Config * string) * option unit) :=
  let args := mkShardPutAppendArgs key value op in
  res ← shardLoop fuel mfuel qnet (fun t s => net t (make_end s) args) putGood putWrong key ck t tm;
  Ret (res.1, option_map (fun _ => ()) res.2).

Definition shard_Put fuel mfuel net ck t tm key value :=
  shard_PutAppend fuel mfuel net ck t tm key value "Put".
Definition shard_Append fuel mfuel net ck t tm key value :=
  shard_PutAppend fuel mfuel net ck t tm key value "Append".
End Clerk.

(** ** Routing *)
Lemma key2shard_range key : 0 <= key2shard key < NShards.
Proof.
  unfold key2shard, NShards. destruct key as [|c key]; [done|]. apply Z.rem_bound_pos; lia.
Qed.

(** A configuration for all shards. *)
Definition full (c : Config) : Prop := len (Shards c) = NShards.

(** The servers a configuration assigns to a key. *)
Definition owners (c : Config) (key : string) : list string :=
  match Shards c !! Z.to_nat (key2shard key) with
  | Some gid => default [] (Groups c !! gid)
  | None => []
  end.

Section Routing.
Context {R : Type} (qnet : nat -> Z -> QueryArgs -> option QueryReply).
Context (call : nat -> string -> option R) (good wrong : R -> bool) (key : string).
Hypothesis Hfull : forall t srv args reply, qnet t srv args = Some reply -> full (qr_Config reply).

Lemma askGroup_spec servers : forall t t' asked r, askGroup call good wrong servers t = (t', asked, r) ->
  asked `prefix_of` servers /\
  forall reply, r = Some reply -> good reply = true /\ exists i s, s ∈ asked /\ call i s = Some reply.
Proof.
  induction servers as [|s servers IH]; intros t t' asked r; cbn [askGroup].
  { intros [= <- <- <-]. split; [apply prefix_nil|done]. }
  destruct (askGroup call good wrong servers (S t)) as [[t1 asked1] r1] eqn:E. apply IH in E as [Hp Hr].
  assert (Hnext : s :: asked1 `prefix_of` s :: servers /\ forall reply, r1 = Some reply ->
    good reply = true /\ exists i s0, s0 ∈ s :: asked1 /\ call i s0 = Some reply).
  { split; [by apply prefix_cons|]. intros reply (Hg & i & s0 & Hs & Hc)%Hr. split; [done|].
    exists i, s0. split; [by right|done]. }
  assert (Hone : [s] `prefix_of` s :: servers) by (apply prefix_cons, prefix_nil).
  destruct (call t s) as [reply|] eqn:Ec; [|by intros [= <- <- <-]].
  destruct (good reply) eqn:Eg; [|destruct (wrong reply); [|by intros [= <- <- <-]]].
  - intros [= <- <- <-]. split; [done|]. intros r' [= <-]. split; [done|]. exists t, s. split; [left|done].
  - intros [= <- <- <-]. done.
Qed.

(** Answers that the masters gave: the configuration is one of theirs. *)
Lemma retry_some {Q} (c : nat -> Z -> option Q) g servers fuel : forall t t' r,
  retry fuel c g servers t = (t', Some r) -> exists i srv, c i srv = Some r /\ g r = true.
Proof.
  assert (Htry : forall l t t' r, tryServers c g l t = (t', Some r) -> exists i srv, c i srv = Some r /\ g r = true).
  { induction l as [|s l IH]; intros t t' r; simpl; [done|]. destruct (c t s) as [q|] eqn:E; [|apply IH].
    destruct (g q) eqn:Eg; [|apply IH]. intros [= _ <-]. eauto. }
  induction fuel as [|fuel IH]; intros t t' r; simpl; [done|].
  destruct (tryServers c g servers t) as [t1 [q|]] eqn:E; [|apply IH]. intros [= _ <-]. by eapply Htry.
Qed.

Lemma Query_full mfuel tm ck tm' config :
  Query mfuel qnet tm ck (-1) = (tm', Some config) -> full config.
Proof.
  unfold Query. destruct (retry _ _ _ _ _) as [t1 [q|]] eqn:E; [|done]. intros [= _ <-].
  apply retry_some in E as (i & srv & Hc & _). by eapply Hfull.
Qed.

Lemma shardLoop_routed fuel mfuel : forall ck t tm, full (sc_config ck) ->
  exists ck' calls r, shardLoop fuel mfuel qnet call good wrong key ck t tm = Ret (ck', calls, r) /\
    full (sc_config ck') /\ (forall c s, (c, s) ∈ calls -> s ∈ owners c key) /\
    forall reply, r = Some reply -> good reply = true /\
      exists i s, (sc_config ck', s) ∈ calls /\ call i s = Some reply.
Proof.
  induction fuel as [|fuel IH]; intros ck t tm Hck; cbn [shardLoop].
  { exists ck, [], None. split_and!; try done. by intros c s ?%elem_of_nil. }
  pose proof (key2shard_range key) as Hk.
  destruct (slice_get_in (Shards (sc_config ck)) (key2shard key)) as [gid Hgid]; [unfold full in Hck; lia|].
  rewrite Hgid. cbn [mbind outcome_bind]. apply slice_get_Ret in Hgid as [_ Hgid].
  set (ask := match Groups (sc_config ck) !! gid with Some servers => _ | None => _ end).
  assert (Hask : forall t' asked r, ask = (t', asked, r) ->
    (forall s, s ∈ asked -> s ∈ owners (sc_config ck) key) /\
    forall reply, r = Some reply -> good reply = true /\ exists i s, s ∈ asked /\ call i s = Some reply).
  { intros t' asked r. unfold ask, owners. rewrite Hgid. destruct (Groups _ !! gid) as [servers|].
    - intros (Hp & Hr)%askGroup_spec. split; [|done]. intros s Hs. by eapply prefix_elem.
    - intros [= <- <- <-]. split; [by intros s ?%elem_of_nil|done]. }
  destruct ask as [[t' asked] r]. destruct (Hask _ _ _ eq_refl) as [Hown Hrep]. clear Hask.
  assert (Hcalls : forall c s, (c, s) ∈ pair (sc_config ck) <$> asked -> s ∈ owners c key).
  { intros c s (s' & [= -> ->] & Hs)%list_elem_of_fmap. by apply Hown. }
  destruct r as [reply|].
  { exists ck, (pair (sc_config ck) <$> asked), (Some reply). split_and!; try done.
    intros q [= <-]. destruct (Hrep reply eq_refl) as (Hg & i & s & Hs & Hc). split; [done|]. exists i, s.
    split; [by apply list_elem_of_fmap_2|done]. }
  destruct (Query mfuel qnet tm (sc_sm ck) (-1)) as [tm' [config|]] eqn:Eq.
  - destruct (IH (mkShardClerk (sc_sm ck) config) t' tm') as (ck' & rest & r & -> & Hf & Hr & Hrep');
      [by eapply Query_full|]. cbn [mbind outcome_bind].
    exists ck', ((pair (sc_config ck) <$> asked) ++ rest), r. split_and!; try done.
    + intros c s [?|?]%elem_of_app; auto.
    + intros reply (Hg & i & s & Hs & Hc)%Hrep'. split; [done|]. exists i, s. split; [|done].
      apply elem_of_app. by right.
  - exists ck, (pair (sc_config ck) <$> asked), None. split_and!; done.
Qed.
End Routing.

(** ** A group that answers *)
Lemma askGroup_answers {R} (call : nat -> string -> option R) (good wrong : R -> bool) servers : forall t i s reply,
  servers !! i = Some s -> call (t + i)%nat s = Some reply -> good reply = true ->
  (forall j s', (j < i)%nat -> servers !! j = Some s' -> forall r, call (t + j)%nat s' = Some r ->
    good r = false /\ wrong r = false) ->
  askGroup call good wrong servers t = (S (t + i), take (S i) servers, Some reply).
Proof.
  induction servers as [|s0 servers IH]; intros t i s reply Hi Hc Hg Hbad; [done|]. cbn [askGroup].
  destruct i as [|i]; simpl in Hi.
  - injection Hi as ->. rewrite Nat.add_0_r in *. by rewrite Hc, Hg.
  - rewrite (IH (S t) i s reply Hi).
    + replace (t + S i)%nat with (S t + i)%nat by lia.
      destruct (call t s0) as [r|] eqn:E; [|done]. specialize (Hbad O s0 ltac:(lia) eq_refl r).
      rewrite Nat.add_0_r in Hbad. by destruct (Hbad E) as [-> ->].
    + by replace (S t + i)%nat with (t + S i)%nat by lia.
    + done.
    + intros j s' Hj Hs r Hr. apply (Hbad (S j) s'); [lia|done|].
      by replace (t + S j)%nat with (S t + j)%nat by lia.
Qed.

(** One turn of the outer loop, in terms of the owners of the key. *)
Lemma shardLoop_turn {R} fuel mfuel qnet (call : nat -> string -> option R) good wrong key ck t tm :
  full (sc_config ck) ->
  shardLoop (S fuel) mfuel qnet call good wrong key ck t tm =
  let '(t', asked, r) := askGroup call good wrong (owners (sc_config ck) key) t in
  let calls := pair (sc_config ck) <$> asked in
  match r with
  | Some reply => Ret (ck, calls, Some reply)
  | None =>
      match Query mfuel qnet tm (sc_sm ck) (-1) with
      | (tm', Some config) =>
          '(ck', rest, r') ← shardLoop fuel mfuel qnet call good wrong key
                               (mkShardClerk (sc_sm ck) config) t' tm';
          Ret (ck', calls ++ rest, r')
      | (_, None) => Ret (ck, calls, None)
      end
  end.
Proof.
  intros Hf. cbn [shardLoop]. pose proof (key2shard_range key) as Hk.
  destruct (slice_get_in (Shards (sc_config ck)) (key2shard key)) as [gid Hgid]; [unfold full in Hf; lia|].
  rewrite Hgid. cbn [mbind outcome_bind]. apply slice_get_Ret in Hgid as [_ Hgid]. unfold owners. rewrite Hgid.
  by destruct (Groups (sc_config ck) !! gid).
Qed.

(** ** Theorems *)

(** C36: the clerk of the sharded store never indexes out of range, calls only
    servers of the group that its configuration at the time assigns to the key's
    shard, and returns only what such a server answered as leader; the same for
    writes.  This holds for every number of turns, also unfinished ones. *)
Theorem shard_requests_routed make_end qnet ck t tm key fuel mfuel :
  (forall i srv args reply, qnet i srv args = Some reply -> full (qr_Config reply)) ->
  full (sc_config ck) ->
  (forall gnet, exists ck' calls v, shard_Get make_end qnet fuel mfuel gnet ck t tm key = Ret (ck', calls, v) /\
    (forall c s, (c, s) ∈ calls -> s ∈ owners c key) /\
    forall x, v = Some x -> exists i s reply, (sc_config ck', s) ∈ calls /\
      gnet i (make_end s) (mkShardGetArgs key) = Some reply /\ sgr_WrongLeader reply = false /\
      (sgr_Err reply = shardOK \/ sgr_Err reply = shardErrNoKey) /\ x = sgr_Value reply) /\
  (forall pnet value op, exists ck' calls v,
    shard_PutAppend make_end qnet fuel mfuel pnet ck t tm key value op = Ret (ck', calls, v) /\
    (forall c s, (c, s) ∈ calls -> s ∈ owners c key) /\
    (v = Some () -> exists i s reply, (sc_config ck', s) ∈ calls /\
      pnet i (make_end s) (mkShardPutAppendArgs key value op) = Some reply /\
      spr_WrongLeader reply = false /\ spr_Err reply = shardOK)).
Proof.
  intros Hq Hck. split.
  - intros gnet. unfold shard_Get.
    destruct (shardLoop_routed qnet (fun t s => gnet t (make_end s) (mkShardGetArgs key)) getGood getWrong key
      Hq fuel mfuel ck t tm Hck) as (ck' & calls & r & -> & _ & Hown & Hr). cbn.
    exists ck', calls, (option_map sgr_Value r). split_and!; try done.
    intros x Hx. destruct r as [reply|]; [|done]. injection Hx as <-.
    destruct (Hr reply eq_refl) as (Hg & i & s & Hs & Hc). exists i, s, reply. unfold getGood in Hg.
    apply andb_true_iff in Hg as [Hl He]. apply bool_decide_eq_true_1 in Hl. split_and!; try done.
    apply orb_true_iff in He as [He|He]; apply bool_decide_eq_true_1 in He; auto.
  - intros pnet value op. unfold shard_PutAppend.
    destruct (shardLoop_routed qnet (fun t s => pnet t (make_end s) (mkShardPutAppendArgs key value op))
      putGood putWrong key Hq fuel mfuel ck t tm Hck) as (ck' & calls & r & -> & _ & Hown & Hr). cbn.
    exists ck', calls, (option_map (fun _ => ()) r). split_and!; try done.
    intros Hx. destruct r as [reply|]; [|done].
    destruct (Hr reply eq_refl) as (Hg & i & s & Hs & Hc). exists i, s, reply. unfold putGood in Hg.
    apply andb_true_iff in Hg as [Hl He]. by apply bool_decide_eq_true_1 in Hl, He.
Qed.

(** A clerk whose configuration is out of date finds the new group.  When no
    server of the old group serves the key, the masters answer in the end with a
    configuration [c1], and some server of the group it assigns answers as leader
    before any of them refuses the group, [Get] returns that answer in its second
    turn and keeps [c1]. *)
Theorem get_follows_new_configuration make_end qnet gnet ck t tm key t1 asked q i srv reply c1 k s ans fuel mfuel :
  let call t s := gnet t (make_end s) (mkShardGetArgs key) in
  let query t srv := qnet t srv (mkQueryArgs (-1)) in
  let masters := mc_servers (sc_sm ck) in
  full (sc_config ck) ->
  askGroup call getGood getWrong (owners (sc_config ck) key) t = (t1, asked, None) ->
  masters !! i = Some srv -> query (tm + q * length masters + i)%nat srv = Some reply ->
  qr_WrongLeader reply = false -> qr_Config reply = c1 -> full c1 ->
  (forall p j m, (p * length masters + j < q * length masters + i)%nat -> masters !! j = Some m ->
    forall r, query (tm + p * length masters + j)%nat m = Some r -> qr_WrongLeader r = true) ->
  owners c1 key !! k = Some s -> call (t1 + k)%nat s = Some ans -> getGood ans = true ->
  (forall j s', (j < k)%nat -> owners c1 key !! j = Some s' -> forall r, call (t1 + j)%nat s' = Some r ->
    getGood r = false /\ getWrong r = false) ->
  (2 <= fuel)%nat -> (q < mfuel)%nat ->
  exists calls, shard_Get make_end qnet fuel mfuel gnet ck t tm key =
    Ret (mkShardClerk (sc_sm ck) c1, calls, Some (sgr_Value ans)).
Proof.
  intros call query masters Hf Hask Hi Hq Hl Hc1 Hf1 Hrej Hk Hans Hgood Hbad Hfuel Hmf.
  destruct fuel as [|[|fuel]]; [lia|lia|].
  assert (HQ : exists tm', Query mfuel qnet tm (sc_sm ck) (-1) = (tm', Some c1)).
  { unfold Query. rewrite (retry_first _ _ _ srv reply q tm i mfuel Hi Hq); [rewrite <- Hc1; eauto| | |done].
    - by rewrite bool_decide_true.
    - intros p j m Hlt Hm r Hr. rewrite bool_decide_false; [done|]. by rewrite (Hrej p j m Hlt Hm r Hr). }
  destruct HQ as [tm' HQ]. eexists. unfold shard_Get. rewrite shardLoop_turn by done.
  fold call. rewrite Hask, HQ. rewrite shardLoop_turn by done. cbn [sc_config sc_sm].
  rewrite (askGroup_answers call getGood getWrong _ t1 k s ans Hk Hans Hgood Hbad). reflexivity.
Qed.

(** A fresh clerk, a master that is not the leader and one that is, and a group
    whose second server is the leader. *)
Definition example_config : Config :=
  mkConfig 1 (replicate 10 7) {[ 7 := ["a"; "b"]%string ]}.
Definition example_masters (t : nat) (srv : Z) (args : QueryArgs) : option QueryReply :=
  Some (mkQueryReply (srv =? 0) "" example_config).
Definition example_servers (t : nat) (srv : Z) (args : ShardGetArgs) : option ShardGetReply :=
  Some (mkShardGetReply (srv =? 1) shardOK "v").
Definition example_end (s : string) : Z := if decide (s = "a"%string) then 1 else 2.

Lemma shard_requests_routed_witness :
  exists ck' calls v, shard_Get example_end example_masters 2 1 example_servers (MakeShardClerk [0; 1]) 0 0 "key"
      = Ret (ck', calls, v) /\
    (forall c s, (c, s) ∈ calls -> s ∈ owners c "key") /\ v = Some "v"%string /\
    calls = [(example_config, "a"); (example_config, "b")]%string.
Proof.
  destruct (shard_requests_routed example_end example_masters (MakeShardClerk [0; 1]) 0 0 "key" 2 1)
    as [Hget _]; [by intros i srv args reply [= <-]|done|].
  destruct (Hget example_servers) as (ck' & calls & v & Hrun & Hown & _).
  exists ck', calls, v. split; [exact Hrun|]. split; [exact Hown|].
  assert (E : shard_Get example_end example_masters 2 1 example_servers (MakeShardClerk [0; 1]) 0 0 "key"
    = Ret (mkShardClerk (mkMasterClerk [0; 1]) example_config,
           [(example_config, "a"); (example_config, "b")]%string, Some "v"%string)) by (vm_compute; reflexivity).
  rewrite E in Hrun. injection Hrun as _ <- <-. done.
Defined.

Lemma get_follows_new_configuration_witness :
  exists calls, shard_Get example_end example_masters 2 1 example_servers (MakeShardClerk [0; 1]) 0 0 "key"
    = Ret (mkShardClerk (mkMasterClerk [0; 1]) example_config, calls, Some "v"%string).
Proof.
  apply (get_follows_new_configuration example_end example_masters example_servers (MakeShardClerk [0; 1]) 0 0
    "key" 0 [] 0 1 1 (mkQueryReply false "" example_config) example_config 1 "b"
    (mkShardGetReply false shardOK "v") 2 1); try reflexivity; try lia.
  - intros p j m Hlt Hm r Hr. assert (p = 0%nat /\ j = 0%nat) as [-> ->] by (simpl in Hlt; lia).
    injection Hm as <-. by injection Hr as <-.
  - intros j s' Hj Hs r Hr. assert (j = 0%nat) as -> by lia. vm_compute in Hs. injection Hs as <-.
    vm_compute in Hr. by injection Hr as <-.
Defined.
