(* ===== verification/ShardServers.v ===== *)
(** * The servers of the sharded store: shardmaster/server.go, shardkv/server.go

    Both servers hold a Raft peer, start it and stop it.  Their handlers have no
    body at this commit: a request leaves the server as it is and the reply at its
    zero value.  The theorems say what that means for the clerks of ShardMaster.v
    and ShardClient.v. *)

From stdpp Require Import base list list_numbers gmap strings.
From S2P Require Import Prelude Gob RaftNode ShardMaster ShardClient.
Open Scope Z_scope.

(** ** The shard master *)
Module MasterServer.

Inductive Op : Type := mkOp.

Lemma retract_master_Op_ok (o : Op) : (fun _ : Z => Some mkOp) ((fun _ : Op => 0) o) = Some o.
Proof. by destruct o. Qed.
#[export] Instance Gob_Op : Gob Op := Gob_retract (fun _ : Op => 0) (fun _ => Some mkOp) retract_master_Op_ok.

Record ShardMaster : Type := mkShardMaster { sm_me : Z; sm_rf : Raft Op; sm_configs : list Config }.

(** [JoinReply] and the like, before a handler fills them in. *)
Definition zeroReply : MasterReply := mkMasterReply false "".
Definition zeroQueryReply : QueryReply := mkQueryReply false "" zeroConfig.

Definition Join (sm : ShardMaster) (args : JoinArgs) (reply : MasterReply) : ShardMaster * MasterReply :=
  (sm, reply).
Definition Leave (sm : ShardMaster) (args : LeaveArgs) (reply : MasterReply) : ShardMaster * MasterReply :=
  (sm, reply).
Definition Move (sm : ShardMaster) (args : MoveArgs) (reply : MasterReply) : ShardMaster * MasterReply :=
  (sm, reply).
Definition Query (sm : ShardMaster) (args : QueryArgs) (reply : QueryReply) : ShardMaster * QueryReply :=
  (sm, reply).

Definition Kill (sm : ShardMaster) : ShardMaster :=
  mkShardMaster (sm_me sm) (RaftNode.Kill (sm_rf sm)) (sm_configs sm).
Definition getRaft (sm : ShardMaster) : Raft Op := sm_rf sm.

(** [StartServer]: the master, and what its Raft peer puts on applyCh. *)
Definition StartServer (npeers me : Z) (persister : Persister) : ShardMaster * list (ApplyMsg Op) :=
  let configs := [mkConfig 0 (replicate (Z.to_nat NShards) 0) ∅] in
  let '(rf, msgs) := Make npeers me persister in
  (mkShardMaster me rf configs, msgs).
End MasterServer.

(** ** A server of a replica group *)
Module GroupServer.

Inductive Op : Type := mkOp.

Lemma retract_group_Op_ok (o : Op) : (fun _ : Z => Some mkOp) ((fun _ : Op => 0) o) = Some o.
Proof. by destruct o. Qed.
#[export] Instance Gob_Op : Gob Op := Gob_retract (fun _ : Op => 0) (fun _ => Some mkOp) retract_group_Op_ok.

(** [make_end], a closure over the tester's network, is not kept. *)
Record ShardKV : Type := mkShardKV {
  kv_me : Z; kv_rf : Raft Op; kv_gid : Z; kv_masters : list Z; kv_maxraftstate : Z
}.

Definition Get (kv : ShardKV) (args : ShardGetArgs) (reply : ShardGetReply) : ShardKV * ShardGetReply :=
  (kv, reply).
Definition PutAppend (kv : ShardKV) (args : ShardPutAppendArgs) (reply : ShardPutAppendReply)
    : ShardKV * ShardPutAppendReply := (kv, reply).

Definition Kill (kv : ShardKV) : ShardKV :=
  mkShardKV (kv_me kv) (RaftNode.Kill (kv_rf kv)) (kv_gid kv) (kv_masters kv) (kv_maxraftstate kv).

Definition StartServer (npeers me : Z) (persister : Persister) (maxraftstate gid : Z) (masters : list Z)
    : ShardKV * list (ApplyMsg Op) :=
  let '(rf, msgs) := Make npeers me persister in
  (mkShardKV me rf gid masters maxraftstate, msgs).
End GroupServer.

(** ** The clerks against these servers *)

(** Every call that is answered was answered by a master of this package. *)
Definition served_by_masters (qnet : nat -> Z -> QueryArgs -> option QueryReply) : Prop :=
  forall t srv args reply, qnet t srv args = Some reply ->
    exists sm, reply = (MasterServer.Query sm args MasterServer.zeroQueryReply).2.

Lemma Query_zero mfuel qnet tm ck num tm' c :
  served_by_masters qnet -> Query mfuel qnet tm ck num = (tm', Some c) -> c = zeroConfig.
Proof.
  intros Hs. unfold Query. destruct (retry _ _ _ _ _) as [t [q|]] eqn:E; [|done]. intros [= _ <-].
  apply retry_some in E as (i & srv & Hq & _). by destruct (Hs _ _ _ _ Hq) as [sm ->].
Qed.

Lemma shardLoop_idle {R} fuel mfuel qnet (call : nat -> string -> option R) good wrong key : forall ck t tm,
  served_by_masters qnet -> sc_config ck = zeroConfig ->
  exists ck', shardLoop fuel mfuel qnet call good wrong key ck t tm = Ret (ck', [], None) /\
    sc_config ck' = zeroConfig.
Proof.
  induction fuel as [|fuel IH]; intros ck t tm Hs Hc; cbn [shardLoop]; [by exists ck|].
  rewrite Hc. pose proof (key2shard_range key) as Hk.
  destruct (slice_get_in (Shards zeroConfig) (key2shard key)) as [gid ->];
    [unfold zeroConfig, len; simpl; unfold NShards in Hk; lia|].
  cbn [mbind outcome_bind]. unfold zeroConfig at 1. simpl Groups. rewrite lookup_empty.
  destruct (Query mfuel qnet tm (sc_sm ck) (-1)) as [tm' [c|]] eqn:Eq; [|by exists ck].
  apply Query_zero in Eq as ->; [|done].
  destruct (IH (mkShardClerk (sc_sm ck) zeroConfig) t tm') as (ck' & -> & Hc'); [done|done|].
  by exists ck'.
Qed.

(** At this commit the sharded store answers no request.  Whatever the
    network and the replica groups do, as long as the masters are those of
    shardmaster/server.go, a clerk's Get, Put or Append never returns and never
    calls a group: every configuration it is given is the empty one. *)
Theorem sharded_store_never_answers make_end qnet masters fuel mfuel t tm key :
  served_by_masters qnet ->
  (forall gnet, exists ck', shard_Get make_end qnet fuel mfuel gnet (MakeShardClerk masters) t tm key =
    Ret (ck', [], None)) /\
  (forall pnet value op, exists ck',
    shard_PutAppend make_end qnet fuel mfuel pnet (MakeShardClerk masters) t tm key value op =
      Ret (ck', [], None)).
Proof.
  intros Hs. split.
  - intros gnet. unfold shard_Get.
    destruct (shardLoop_idle fuel mfuel qnet (fun t s => gnet t (make_end s) (mkShardGetArgs key))
      getGood getWrong key (MakeShardClerk masters) t tm) as (ck' & -> & _); [done|done|]. by exists ck'.
  - intros pnet value op. unfold shard_PutAppend.
    destruct (shardLoop_idle fuel mfuel qnet (fun t s => pnet t (make_end s) (mkShardPutAppendArgs key value op))
      putGood putWrong key (MakeShardClerk masters) t tm) as (ck' & -> & _); [done|done|]. by exists ck'.
Qed.

(** A master that is reached makes the clerk's loop return. *)
Lemma reached_master_returns {R} (call : nat -> Z -> option R) good servers t fuel i srv r :
  servers !! i = Some srv -> call (t + i)%nat srv = Some r -> good r = true ->
  (forall j s, (j < i)%nat -> servers !! j = Some s -> call (t + j)%nat s = None) -> (0 < fuel)%nat ->
  retry fuel call good servers t = (S (t + i), Some r).
Proof.
  intros Hi Hc Hg Hdown Hf. destruct fuel as [|fuel]; [lia|]. cbn [retry].
  rewrite (tryServers_some _ _ _ t i srv r Hi Hc Hg); [done|].
  intros j s Hj Hs r' E. by rewrite (Hdown j s Hj Hs) in E.
Qed.

(** The first master that is reached ends a request of the shard master's
    clerk in its first round: Join, Leave and Move report success although the
    master recorded nothing, and Query returns configuration 0, which assigns no
    shard. *)
Theorem first_master_accepts ck t i srv sm fuel :
  mc_servers ck !! i = Some srv -> (0 < fuel)%nat ->
  let reach {A R} (h : A -> R) (t' : nat) (s : Z) (args : A) : option R :=
    if decide (t' = t + i)%nat then Some (h args) else None in
  (forall servers, Join fuel (reach (fun a => (MasterServer.Join sm a MasterServer.zeroReply).2)) t ck servers =
     (S (t + i), Some ())) /\
  (forall gids, Leave fuel (reach (fun a => (MasterServer.Leave sm a MasterServer.zeroReply).2)) t ck gids =
     (S (t + i), Some ())) /\
  (forall shard gid, Move fuel (reach (fun a => (MasterServer.Move sm a MasterServer.zeroReply).2)) t ck shard gid =
     (S (t + i), Some ())) /\
  (forall num, Query fuel (reach (fun a => (MasterServer.Query sm a MasterServer.zeroQueryReply).2)) t ck num =
     (S (t + i), Some zeroConfig)).
Proof.
  intros Hi Hf reach.
  split_and!; intros; unfold Join, Leave, Move, Query;
    (erewrite (reached_master_returns _ _ (mc_servers ck) t fuel i srv); cycle 1;
      [done|unfold reach; by rewrite decide_True|done
      |intros j s Hj _; unfold reach; by rewrite decide_False by lia|done|done]).
Qed.

(** ** Witnesses *)
Definition one_master : MasterServer.ShardMaster := (MasterServer.StartServer 1 0 MakePersister).1.

Lemma sharded_store_never_answers_witness :
  exists ck', shard_Get (fun _ => 0)
    (fun _ _ args => Some (MasterServer.Query one_master args MasterServer.zeroQueryReply).2)
    5 3 (fun _ _ _ => None) (MakeShardClerk [0]) 0 0 "k" = Ret (ck', [], None).
Proof.
  apply (sharded_store_never_answers (fun _ => 0)
    (fun _ _ args => Some (MasterServer.Query one_master args MasterServer.zeroQueryReply).2) [0] 5 3 0 0 "k").
  intros t srv args reply E. exists one_master. by injection E as <-.
Defined.

Lemma first_master_accepts_witness :
  Query 1 (fun t _ args => if decide (t = 1)%nat
    then Some (MasterServer.Query one_master args MasterServer.zeroQueryReply).2 else None)
    0 (MakeMasterClerk [7; 8; 9]) (-1) = (2%nat, Some zeroConfig).
Proof.
  destruct (first_master_accepts (MakeMasterClerk [7; 8; 9]) 0 1 8 one_master 1) as (_ & _ & _ & H);
    [reflexivity|lia|]. exact (H (-1)).
Defined.
