(* ===== verification/ServiceConfig.v ===== *)
(** * The testers of the replicated services: kvraft/config.go, shardmaster/config.go

    The two files are the same program over a different server type, so the model
    is one section over a [TestedServer]: what the tester needs of the server it
    starts, kills and asks for its leader.  The last part of the file is the
    instance for kvraft; ShardMasterConfig.v has the one for shardmaster.

    While server [i] runs, [cfg.saved[i]] and the persister of its Raft peer are
    one object.  Clerks are pointers: [clerks] maps a reference to the names of
    the clerk's ends.  The random choices are arguments. *)

From stdpp Require Import base list list_numbers gmap strings.
From S2P Require Import Prelude Gob RaftNode RaftNodeFacts LabRpc Harness KVServer.
Open Scope Z_scope.

(** ** The server under test *)
Class TestedServer (Srv : Type) : Type := {
  ts_start : Z -> Z -> Persister -> Z -> Srv;
  ts_kill : Srv -> Srv;
  ts_GetState : Srv -> Z * bool;
  ts_persister : Srv -> Persister;
  ts_start_persister n i ps m : ts_persister (ts_start n i ps m) = ps
}.

Record config (Srv : Type) : Type := mkConfig {
  net : Network;
  n : Z;
  srvs : list (option Srv);
  saved : list (option Persister);
  endnames : list (option (list Z));
  clerks : gmap nat (list Z);
  nextClientId : Z;
  maxraftstate : Z;
  rpcs0 : Z;
  ops : Z;
  nextRef : nat
}.
Arguments mkConfig {Srv} _ _ _ _ _ _ _ _ _ _ _.
Arguments net {Srv} _.
Arguments n {Srv} _.
Arguments srvs {Srv} _.
Arguments saved {Srv} _.
Arguments endnames {Srv} _.
Arguments clerks {Srv} _.
Arguments nextClientId {Srv} _.
Arguments maxraftstate {Srv} _.
Arguments rpcs0 {Srv} _.
Arguments ops {Srv} _.
Arguments nextRef {Srv} _.

(** [random_handles]; [draw i] is rand.Intn(i + 1). *)
Fixpoint shuffle {A} (draw : Z -> Z) (idxs : list Z) (sa : list A) : outcome (list A) :=
  match idxs with
  | [] => Ret sa
  | i :: idxs' =>
      x ← slice_get sa i;
      y ← slice_get sa (draw i);
      sa1 ← slice_set sa i y;
      sa2 ← slice_set sa1 (draw i) x;
      shuffle draw idxs' sa2
  end.
Definition random_handles {A} (draw : Z -> Z) (kvh : list A) : outcome (list A) :=
  shuffle draw (seqZ 0 (len kvh)) kvh.

Section Config.
Context {Srv : Type} `{TS : TestedServer Srv}.
Implicit Types cfg : config Srv.

(** ** Field assignments *)
Definition set_net (v : Network) cfg : config Srv :=
  mkConfig v (n cfg) (srvs cfg) (saved cfg) (endnames cfg) (clerks cfg) (nextClientId cfg)
    (maxraftstate cfg) (rpcs0 cfg) (ops cfg) (nextRef cfg).
Definition set_srvs (v : list (option Srv)) cfg : config Srv :=
  mkConfig (net cfg) (n cfg) v (saved cfg) (endnames cfg) (clerks cfg) (nextClientId cfg)
    (maxraftstate cfg) (rpcs0 cfg) (ops cfg) (nextRef cfg).
Definition set_saved (v : list (option Persister)) cfg : config Srv :=
  mkConfig (net cfg) (n cfg) (srvs cfg) v (endnames cfg) (clerks cfg) (nextClientId cfg)
    (maxraftstate cfg) (rpcs0 cfg) (ops cfg) (nextRef cfg).
Definition set_endnames (v : list (option (list Z))) cfg : config Srv :=
  mkConfig (net cfg) (n cfg) (srvs cfg) (saved cfg) v (clerks cfg) (nextClientId cfg)
    (maxraftstate cfg) (rpcs0 cfg) (ops cfg) (nextRef cfg).
Definition set_clerks (v : gmap nat (list Z)) cfg : config Srv :=
  mkConfig (net cfg) (n cfg) (srvs cfg) (saved cfg) (endnames cfg) v (nextClientId cfg)
    (maxraftstate cfg) (rpcs0 cfg) (ops cfg) (nextRef cfg).
Definition set_nextClientId (v : Z) cfg : config Srv :=
  mkConfig (net cfg) (n cfg) (srvs cfg) (saved cfg) (endnames cfg) (clerks cfg) v
    (maxraftstate cfg) (rpcs0 cfg) (ops cfg) (nextRef cfg).
Definition set_stats (r o : Z) cfg : config Srv :=
  mkConfig (net cfg) (n cfg) (srvs cfg) (saved cfg) (endnames cfg) (clerks cfg) (nextClientId cfg)
    (maxraftstate cfg) r o (nextRef cfg).
Definition set_nextRef (v : nat) cfg : config Srv :=
  mkConfig (net cfg) (n cfg) (srvs cfg) (saved cfg) (endnames cfg) (clerks cfg) (nextClientId cfg)
    (maxraftstate cfg) (rpcs0 cfg) (ops cfg) v.

Definition on_net (f : Network -> Network) cfg : config Srv := set_net (f (net cfg)) cfg.

(** ** Sizes *)

(** The object [cfg.saved[i]] points at. *)
Definition saved_now cfg (i : Z) : outcome (option Persister) :=
  sv ← slice_get (saved cfg) i;
  srv ← slice_get (srvs cfg) i;
  Ret (match sv, srv with
       | Some _, Some srv => Some (ts_persister srv)
       | _, _ => sv
       end).

(** The greatest size over the servers; a nil persister is a nil dereference. *)
Fixpoint maxSize (size : Persister -> Z) cfg (idxs : list Z) (m : Z) : outcome Z :=
  match idxs with
  | [] => Ret m
  | i :: idxs' =>
      sv ← saved_now cfg i;
      match sv with
      | Some ps => maxSize size cfg idxs' (if m <? size ps then size ps else m)
      | None => Panic
      end
  end.
Definition LogSize cfg : outcome Z := maxSize RaftStateSize cfg (seqZ 0 (n cfg)) 0.
Definition SnapshotSize cfg : outcome Z := maxSize RaftNode.SnapshotSize cfg (seqZ 0 (n cfg)) 0.

(** ** Connecting servers *)

(** [cfg.endnames[i][j]]; a nil row has no elements. *)
Definition endname_at cfg (i j : Z) : outcome Z :=
  row ← slice_get (endnames cfg) i;
  slice_get (default [] row) j.

Definition enable_at (i j : Z) (b : bool) cfg : outcome (config Srv) :=
  e ← endname_at cfg i j;
  Ret (on_net (Enable e b) cfg).

Definition connectUnlocked (i : Z) (to : list Z) cfg : outcome (config Srv) :=
  cfg1 ← for_each (fun t cfg => enable_at i t true cfg) to cfg;
  for_each (fun t cfg => enable_at t i true cfg) to cfg1.

(** [if cfg.endnames[g] != nil { cfg.net.Enable(cfg.endnames[r][c], false) }] *)
Definition disable_if (g r c : Z) cfg : outcome (config Srv) :=
  row ← slice_get (endnames cfg) g;
  match row with Some _ => enable_at r c false cfg | None => Ret cfg end.

(** The second loop tests the row of the loop index, not that of the server. *)
Definition disconnectUnlocked (i : Z) (from : list Z) cfg : outcome (config Srv) :=
  cfg1 ← for_each (fun f cfg => disable_if i i f cfg) from cfg;
  for_each (fun '(j, f) cfg => disable_if j f i cfg) (zip (seqZ 0 (len from)) from) cfg1.

(** Under the mutex. *)
Definition connect (i : Z) (to : list Z) cfg : outcome (config Srv) := connectUnlocked i to cfg.
Definition disconnect (i : Z) (from : list Z) cfg : outcome (config Srv) := disconnectUnlocked i from cfg.

Definition All cfg : list Z := seqZ 0 (n cfg).

Definition ConnectAll cfg : outcome (config Srv) :=
  for_each (fun i cfg => connectUnlocked i (All cfg) cfg) (seqZ 0 (n cfg)) cfg.

Definition partition (p1 p2 : list Z) cfg : outcome (config Srv) :=
  cfg1 ← for_each (fun i cfg => c ← disconnectUnlocked i p2 cfg; connectUnlocked i p1 c) p1 cfg;
  for_each (fun i cfg => c ← disconnectUnlocked i p1 cfg; connectUnlocked i p2 c) p2 cfg1.

(** ** Clerks *)

(** The names of a clerk's ends; a deleted clerk has none. *)
Definition clerkNames cfg (ck : nat) : list Z := default [] (clerks cfg !! ck).

Definition ConnectClientUnlocked (ck : nat) (to : list Z) cfg : outcome (config Srv) :=
  for_each (fun t cfg => e ← slice_get (clerkNames cfg ck) t; Ret (on_net (Enable e true) cfg)) to cfg.
Definition DisconnectClientUnlocked (ck : nat) (from : list Z) cfg : outcome (config Srv) :=
  for_each (fun f cfg => e ← slice_get (clerkNames cfg ck) f; Ret (on_net (Enable e false) cfg)) from cfg.

Definition ConnectClient (ck : nat) (to : list Z) cfg : outcome (config Srv) := ConnectClientUnlocked ck to cfg.
Definition DisconnectClient (ck : nat) (from : list Z) cfg : outcome (config Srv) :=
  DisconnectClientUnlocked ck from cfg.

(** A fresh end to every server. *)
Definition make_end (name_of : Z -> Z) (j : Z) cfg : outcome (config Srv) :=
  rn ← MakeEnd (name_of j) (net cfg);
  Ret (set_net (Connect (name_of j) j rn) cfg).

(** [makeClient]: the new clerk and the handles MakeClerk is given. *)
Definition makeClient (to : list Z) (randstring draw : Z -> Z) cfg
    : outcome (config Srv * nat * list Z) :=
  let names := randstring <$> seqZ 0 (n cfg) in
  cfg1 ← for_each (make_end randstring) (seqZ 0 (n cfg)) cfg;
  handles ← random_handles draw names;
  let ck := nextRef cfg1 in
  let cfg2 := set_nextRef (S ck) (set_clerks (<[ck := names]> (clerks cfg1)) cfg1) in
  cfg3 ← ConnectClientUnlocked ck to (set_nextClientId (nextClientId cfg2 + 1) cfg2);
  Ret (cfg3, ck, handles).

(** [deleteClient]; the files it removes are named after the ends and do not
    exist. *)
Definition deleteClient (ck : nat) cfg : config Srv := set_clerks (delete ck (clerks cfg)) cfg.

(** ** Servers *)
Definition ShutdownServer (i : Z) cfg : outcome (config Srv) :=
  cfg1 ← disconnectUnlocked i (All cfg) cfg;
  let cfg2 := on_net (DeleteServer i) cfg1 in
  sv ← saved_now cfg2 i;
  svs ← slice_set (saved cfg2) i (Copy <$> sv);
  srv ← slice_get (srvs cfg2) i;
  match srv with
  | Some _ => ss ← slice_set (srvs cfg2) i None; Ret (set_srvs ss (set_saved svs cfg2))
  | None => Ret (set_saved svs cfg2)
  end.

Definition StartServer (i : Z) (randstring : Z -> Z) cfg : outcome (config Srv) :=
  rows ← slice_set (endnames cfg) i (Some (randstring <$> seqZ 0 (n cfg)));
  cfg1 ← for_each (make_end randstring) (seqZ 0 (n cfg)) (set_endnames rows cfg);
  sv ← saved_now cfg1 i;
  let ps := match sv with Some ps => Copy ps | None => MakePersister end in
  svs ← slice_set (saved cfg1) i (Some ps);
  ss ← slice_set (srvs cfg1) i (Some (ts_start (n cfg1) i ps (maxraftstate cfg1)));
  let cfg2 := set_srvs ss (set_saved svs cfg1) in
  Ret (set_nextRef (S (nextRef cfg2)) (on_net (AddServer i (nextRef cfg2)) cfg2)).

(** [Leader]: the first server that claims to lead. *)
Fixpoint firstLeader cfg (idxs : list Z) : outcome (bool * Z) :=
  match idxs with
  | [] => Ret (false, 0)
  | i :: idxs' =>
      srv ← slice_get (srvs cfg) i;
      match srv with
      | Some srv => if (ts_GetState srv).2 then Ret (true, i) else firstLeader cfg idxs'
      | None => Panic
      end
  end.
Definition Leader cfg : outcome (bool * Z) := firstLeader cfg (seqZ 0 (n cfg)).

(** The loop of [make_partition]. *)
Fixpoint fillPartition (l : Z) (idxs : list Z) (j : Z) (p1 p2 : list Z) : outcome (list Z * list Z) :=
  match idxs with
  | [] => Ret (p1, p2)
  | i :: idxs' =>
      if negb (i =? l) then
        '(q1, q2) ← (if j <? len p1 then q1 ← slice_set p1 j i; Ret (q1, p2)
                     else q2 ← slice_set p2 (j - len p1) i; Ret (p1, q2));
        fillPartition l idxs' (j + 1) q1 q2
      else fillPartition l idxs' j p1 p2
  end.

(** [make_partition] once the leader is known. *)
Definition partitionAround (l m : Z) : outcome (list Z * list Z) :=
  let p1 := replicate (Z.to_nat (Z.quot m 2 + 1)) 0 in
  let p2 := replicate (Z.to_nat (Z.quot m 2)) 0 in
  '(q1, q2) ← fillPartition l (seqZ 0 m) 0 p1 p2;
  q2' ← slice_set q2 (len q2 - 1) l;
  Ret (q1, q2').
Definition make_partition cfg : outcome (list Z * list Z) :=
  '(_, l) ← Leader cfg;
  partitionAround l (n cfg).

(** ** The life of a test *)
Definition fresh_config (m mx : Z) : config Srv :=
  let k := Z.to_nat m in
  mkConfig MakeNetwork m (replicate k None) (replicate k None) (replicate k None) ∅ (m + 1000) mx 0 0 0.

Definition make_config (m : Z) (unreliable : bool) (mx : Z) (randstring : Z -> Z -> Z)
    : outcome (config Srv) :=
  cfg1 ← for_each (fun i cfg => StartServer i (randstring i) cfg) (seqZ 0 m) (fresh_config m mx);
  cfg2 ← ConnectAll cfg1;
  Ret (on_net (Reliable (negb unreliable)) cfg2).

Definition rpcTotal cfg : Z := GetTotalCount (net cfg).
Definition begin cfg : config Srv := set_stats (rpcTotal cfg) 0 cfg.
Definition op cfg : config Srv := set_stats (rpcs0 cfg) (int32 (ops cfg + 1)) cfg.
(** Peers, RPCs and clerk operations, as [end] prints them. *)
Definition end_stats cfg : Z * Z * Z := (n cfg, rpcTotal cfg - rpcs0 cfg, ops cfg).

Definition cleanup cfg : outcome (config Srv) :=
  let cfg1 := set_srvs (map (option_map ts_kill) (srvs cfg)) cfg in
  rn ← Cleanup (net cfg1);
  Ret (set_net rn cfg1).
End Config.

(** ** A server of kvraft: the key/value state and its Raft peer *)
Record KVPeer : Type := mkKVPeer { kp_kv : KVServer; kp_rf : Raft Op; kp_msgs : list (ApplyMsg Op) }.

(** [StartKVServer]; [kp_msgs] is what the new Raft peer puts on applyCh. *)
Definition startKVPeer (npeers me : Z) (ps : Persister) (mx : Z) : KVPeer :=
  let '(rf, msgs) := Make npeers me ps in
  mkKVPeer (StartKVServer me mx) rf msgs.
Definition killKVPeer (p : KVPeer) : KVPeer := mkKVPeer (kp_kv p) (RaftNode.Kill (kp_rf p)) (kp_msgs p).

Lemma startKVPeer_persister npeers me ps mx : persister (kp_rf (startKVPeer npeers me ps mx)) = ps.
Proof.
  unfold startKVPeer, Make. cbn [kp_rf].
  by destruct (dePersistState_static (initRaft (Cmd := Op) npeers me ps)) as (_ & _ & -> & _).
Qed.

#[export] Instance KVPeer_tested : TestedServer KVPeer := {
  ts_start := startKVPeer;
  ts_kill := killKVPeer;
  ts_GetState p := GetState (kp_rf p);
  ts_persister p := persister (kp_rf p);
  ts_start_persister := startKVPeer_persister
}.
