(* ===== verification/ServiceFacts.v ===== *)
(** * Partitions, restarts and clerks of the service testers

    What the operations of ServiceConfig.v do to the network: a partition cuts
    exactly the ends between its two sides, [make_partition] puts the leader into
    a minority, a restarted server gets what its predecessor persisted, and the
    handles of a new clerk are a permutation of its ends. *)

From stdpp Require Import base list list_numbers gmap strings.
From S2P Require Import Prelude Gob RaftNode RaftNodeFacts LabRpc Harness KVServer ServiceConfig.
Open Scope Z_scope.

Section Facts.
Context {Srv : Type} `{TS : TestedServer Srv}.
Implicit Types cfg : config Srv.

(** ** Configurations in which every server was started *)

(** The end from server [i] to server [j]. *)
Definition name_of cfg (i j : Z) : Z :=
  default 0 (row ← endnames cfg !! Z.to_nat i; names ← row; names !! Z.to_nat j).

Definition in_range cfg (i : Z) : Prop := 0 <= i < n cfg.

Record full cfg : Prop := {
  fu_rows : len (endnames cfg) = n cfg;
  fu_row i : in_range cfg i -> exists names,
    endnames cfg !! Z.to_nat i = Some (Some names) /\ len names = n cfg;
  fu_inj i j i' j' : in_range cfg i -> in_range cfg j -> in_range cfg i' -> in_range cfg j' ->
    name_of cfg i j = name_of cfg i' j' -> i = i' /\ j = j'
}.

Lemma full_ext cfg (c0 : config Srv) : n c0 = n cfg -> endnames c0 = endnames cfg -> full cfg -> full c0.
Proof.
  intros En Ee [F1 F2 F3]. split; unfold in_range, name_of; rewrite ?En, ?Ee; [done|exact F2|exact F3].
Qed.

Lemma endname_at_full cfg (c0 : config Srv) i j :
  full cfg -> endnames c0 = endnames cfg -> in_range cfg i -> in_range cfg j ->
  endname_at c0 i j = Ret (name_of cfg i j).
Proof.
  intros F E Hi Hj. destruct (fu_row _ F i Hi) as (names & Hrow & Hl). unfold endname_at. rewrite E.
  unfold in_range in *. assert (slice_get (endnames cfg) i = Ret (Some names)) as ->.
  { apply slice_get_Ret. split; [lia|done]. }
  simpl. destruct (slice_get_in names j) as [e He]; [lia|]. rewrite He.
  apply slice_get_Ret in He as [_ He]. unfold name_of. rewrite Hrow. simpl. by rewrite He.
Qed.

(** A loop that sets the ends of a list of servers. *)
Lemma enable_loop cfg (f : Z -> Z * Z) b (l : list Z) rn :
  full cfg -> (forall t, t ∈ l -> in_range cfg (f t).1 /\ in_range cfg (f t).2) ->
  for_each (fun t c => enable_at (f t).1 (f t).2 b c) l (set_net rn cfg) =
    Ret (set_net (enableAll ((fun t => name_of cfg (f t).1 (f t).2) <$> l) b rn) cfg).
Proof.
  intros F. revert rn. induction l as [|t l IH]; intros rn Hl; [done|]. cbn [for_each].
  destruct (Hl t) as [H1 H2]; [by left|].
  assert (enable_at (f t).1 (f t).2 b (set_net rn cfg) =
    Ret (set_net (Enable (name_of cfg (f t).1 (f t).2) b rn) cfg)) as ->
    by (unfold enable_at; by rewrite (endname_at_full cfg)).
  cbn [mbind outcome_bind].
  apply (IH (Enable (name_of cfg (f t).1 (f t).2) b rn)). intros x Hx. apply Hl. by right.
Qed.

(** The net after the ends of [i] with the servers [l] were set to [b]. *)
Definition link cfg (i : Z) (b : bool) (l : list Z) (rn : Network) : Network :=
  enableAll ((fun t => name_of cfg t i) <$> l) b (enableAll ((fun t => name_of cfg i t) <$> l) b rn).

Lemma connectUnlocked_spec cfg i to rn :
  full cfg -> in_range cfg i -> (forall t, t ∈ to -> in_range cfg t) ->
  connectUnlocked i to (set_net rn cfg) = Ret (set_net (link cfg i true to rn) cfg).
Proof.
  intros F Hi Hto. unfold connectUnlocked.
  rewrite (enable_loop cfg (fun t => (i, t))) by first [done|intros t Ht; split; [done|by apply Hto]].
  cbn [mbind outcome_bind].
  by rewrite (enable_loop cfg (fun t => (t, i))) by first [done|intros t Ht; split; [by apply Hto|done]].
Qed.

Lemma disable_if_full cfg (c0 : config Srv) g r c :
  full cfg -> endnames c0 = endnames cfg -> in_range cfg g ->
  disable_if g r c c0 = enable_at r c false c0.
Proof.
  intros F E Hg. destruct (fu_row _ F g Hg) as (names & Hrow & _). unfold disable_if. rewrite E.
  unfold in_range in Hg.
  assert (slice_get (endnames cfg) g = Ret (Some names)) as -> by (apply slice_get_Ret; split; [lia|done]).
  done.
Qed.

(** Once every server was started, the wrong index of the second loop is harmless. *)
Lemma disconnectUnlocked_spec cfg i from rn :
  full cfg -> in_range cfg i -> (forall t, t ∈ from -> in_range cfg t) -> len from <= n cfg ->
  disconnectUnlocked i from (set_net rn cfg) = Ret (set_net (link cfg i false from rn) cfg).
Proof.
  intros F Hi Hfrom Hlen. unfold disconnectUnlocked.
  assert (Hext : forall {A} (b1 b2 : A -> config Srv -> outcome (config Srv)) l rn,
    (forall x rn, x ∈ l -> b1 x (set_net rn cfg) = b2 x (set_net rn cfg)) ->
    (forall x rn c, x ∈ l -> b2 x (set_net rn cfg) = Ret c -> exists rn', c = set_net rn' cfg) ->
    for_each b1 l (set_net rn cfg) = for_each b2 l (set_net rn cfg)).
  { intros A b1 b2 l. induction l as [|x l IH]; intros rn' H1 H2; [done|]. cbn [for_each].
    rewrite H1 by by left. destruct (b2 x (set_net rn' cfg)) as [c| |] eqn:E; [|done|done].
    destruct (H2 x rn' c) as [rn'' ->]; [by left|done|]. cbn [mbind outcome_bind].
    apply IH; intros; [apply H1; by right|eapply H2; [by right|done]]. }
  assert (Hform : forall r c rn' c', enable_at r c false (set_net rn' cfg) = Ret c' -> exists rn'', c' = set_net rn'' cfg).
  { intros r c rn' c' H. unfold enable_at in H. bind_inv. simplify_eq. by eexists. }
  rewrite (Hext _ _ (fun t c => enable_at i t false c)).
  2:{ intros x rn' Hx. by apply disable_if_full with cfg. }
  2:{ intros x rn' c _. apply Hform. }
  rewrite (enable_loop cfg (fun t => (i, t))) by first [done|intros t Ht; split; [done|by apply Hfrom]].
  cbn [mbind outcome_bind].
  rewrite (Hext _ _ (fun jf c => enable_at jf.2 i false c)).
  2:{ intros [j t] rn' Hx. apply elem_of_zip_l in Hx as Hj. apply elem_of_seqZ in Hj. cbn.
      apply disable_if_full with cfg; try done. unfold in_range. lia. }
  2:{ intros x rn' c _. apply Hform. }
  assert (Hzip : forall (js l : list Z) rn', length js = length l ->
    for_each (fun jf c => enable_at jf.2 i false c) (zip js l) (set_net rn' cfg) =
    for_each (fun t c => enable_at t i false c) l (set_net rn' cfg)).
  { induction js as [|j js IH]; intros [|t l] rn' Hl; try done. cbn [zip zip_with for_each snd].
    destruct (enable_at t i false (set_net rn' cfg)) as [c| |] eqn:E; [|done|done].
    destruct (Hform _ _ _ _ E) as [rn'' ->]. cbn [mbind outcome_bind]. apply IH. by injection Hl. }
  rewrite Hzip by (rewrite length_seqZ; unfold len; lia).
  by rewrite (enable_loop cfg (fun t => (t, i))) by first [done|intros t Ht; split; [by apply Hfrom|done]].
Qed.

(** ** Partitions *)

(** One server of side [p] is cut off from side [q] and linked to its own. *)
Definition side_step cfg (p q : list Z) (rn : Network) (i : Z) : Network :=
  link cfg i true p (link cfg i false q rn).

Lemma side_loop cfg p q l rn :
  full cfg -> (forall t, t ∈ p -> in_range cfg t) -> (forall t, t ∈ q -> in_range cfg t) ->
  (forall t, t ∈ l -> in_range cfg t) -> len q <= n cfg ->
  for_each (fun i c => c' ← disconnectUnlocked i q c; connectUnlocked i p c') l (set_net rn cfg) =
    Ret (set_net (foldl (side_step cfg p q) rn l) cfg).
Proof.
  intros F Hp Hq Hl Hlen. revert rn. induction l as [|i l IH]; intros rn; [done|]. cbn [for_each foldl].
  assert (Hi : in_range cfg i) by (apply Hl; by left).
  rewrite disconnectUnlocked_spec by done. cbn [mbind outcome_bind].
  rewrite connectUnlocked_spec by done. cbn [mbind outcome_bind].
  apply IH. intros t Ht. apply Hl. by right.
Qed.

(** The ends a link touches. *)
Definition touches cfg (i : Z) (l : list Z) (e : Z) : Prop :=
  exists t, t ∈ l /\ (e = name_of cfg t i \/ e = name_of cfg i t).

Lemma link_touched cfg i b l rn e : touches cfg i l e -> isEnabled (link cfg i b l rn) e = b.
Proof.
  intros (t & Ht & He). unfold link. rewrite !isEnabled_enableAll.
  case_decide as H1; [done|]. case_decide as H2; [done|]. exfalso.
  destruct He as [->| ->]; [apply H1|apply H2]; apply list_elem_of_fmap; by exists t.
Qed.

Lemma link_untouched cfg i b l rn e :
  ~ touches cfg i l e -> isEnabled (link cfg i b l rn) e = isEnabled rn e.
Proof.
  intros H. unfold link. rewrite !isEnabled_enableAll.
  case_decide as H1; [exfalso; apply list_elem_of_fmap in H1 as (t & -> & ?); apply H; exists t; auto|].
  case_decide as H2; [exfalso; apply list_elem_of_fmap in H2 as (t & -> & ?); apply H; exists t; auto|]. done.
Qed.

(** A loop whose steps set an end to [b] or leave it alone. *)
Lemma foldl_sets (step : Network -> Z -> Network) l rn e b :
  (forall rn i, i ∈ l -> isEnabled (step rn i) e = b \/ isEnabled (step rn i) e = isEnabled rn e) ->
  (isEnabled rn e = b \/ exists i, i ∈ l /\ forall rn, isEnabled (step rn i) e = b) ->
  isEnabled (foldl step rn l) e = b.
Proof.
  revert rn. induction l as [|i l IH]; intros rn Hs H; cbn [foldl].
  { destruct H as [?|(i & Hi & _)]; [done|by apply not_elem_of_nil in Hi]. }
  apply IH; [intros; apply Hs; by right|]. destruct H as [H|(j & [->|Hj]%elem_of_cons & Hset)].
  - left. destruct (Hs rn i) as [->| ->]; [by left|done|done].
  - left. apply Hset.
  - right. by exists j.
Qed.

Lemma foldl_keeps (step : Network -> Z -> Network) l rn e :
  (forall rn i, i ∈ l -> isEnabled (step rn i) e = isEnabled rn e) ->
  isEnabled (foldl step rn l) e = isEnabled rn e.
Proof.
  revert rn. induction l as [|i l IH]; intros rn Hs; cbn [foldl]; [done|].
  rewrite IH by (intros; apply Hs; by right). apply Hs. by left.
Qed.

Section Sides.
Context cfg (F : full cfg) (p q : list Z).
Hypothesis Hp : forall t, t ∈ p -> in_range cfg t.
Hypothesis Hq : forall t, t ∈ q -> in_range cfg t.
Hypothesis Hpq : forall t, t ∈ p -> t ∈ q -> False.

Lemma touches_pair i l a b :
  in_range cfg a -> in_range cfg b -> in_range cfg i -> (forall t, t ∈ l -> in_range cfg t) ->
  touches cfg i l (name_of cfg a b) -> (a ∈ l /\ b = i) \/ (b ∈ l /\ a = i).
Proof.
  intros Ha Hb Hi Hl (t & Ht & [E|E]); apply (fu_inj _ F) in E; auto; destruct E as [-> ->]; auto.
Qed.

(** Inside a side: enabled by its own loop. *)
Lemma side_inside l rn a b :
  l = p -> a ∈ p -> b ∈ p -> isEnabled (foldl (side_step cfg p q) rn l) (name_of cfg a b) = true.
Proof.
  intros -> Ha Hb.
  assert (Hno : forall i, i ∈ p -> ~ touches cfg i q (name_of cfg a b)).
  { intros i Hi Ht. apply touches_pair in Ht as [[? _]|[? _]]; eauto. }
  assert (Ht : touches cfg a p (name_of cfg a b)) by (exists b; auto).
  apply foldl_sets.
  - intros rn' i Hi. unfold side_step.
    destruct (decide (i = a \/ i = b)) as [Hd|Hd].
    + left. apply link_touched. destruct Hd as [->| ->]; [done|]. exists a. auto.
    + right. rewrite link_untouched; [by apply link_untouched, Hno|].
      intros Ht'. apply touches_pair in Ht' as [[_ E]|[_ E]]; eauto.
  - right. exists a. split; [done|]. intros rn'. unfold side_step. by apply link_touched.
Qed.

(** Across: disabled. *)
Lemma side_across rn a b :
  (a ∈ p /\ b ∈ q) \/ (a ∈ q /\ b ∈ p) ->
  isEnabled (foldl (side_step cfg p q) rn p) (name_of cfg a b) = false.
Proof.
  intros Hab.
  assert (Hr : in_range cfg a /\ in_range cfg b) by (destruct Hab as [[? ?]|[? ?]]; auto). destruct Hr as [Hra Hrb].
  assert (Hno : forall i, i ∈ p -> ~ touches cfg i p (name_of cfg a b)).
  { intros i Hi Ht. apply touches_pair in Ht as [[? ->]|[? ->]]; auto; destruct Hab as [[? ?]|[? ?]]; eauto. }
  apply foldl_sets.
  - intros rn' i Hi. unfold side_step. rewrite link_untouched by auto.
    destruct (decide (i = a \/ i = b)) as [Hd|Hd].
    + left. apply link_touched. destruct Hab as [[? ?]|[? ?]], Hd as [->| ->];
        try (exfalso; by eauto); [exists b|exists a]; auto.
    + right. apply link_untouched. intros Ht'. apply touches_pair in Ht' as [[_ E]|[_ E]]; auto.
  - right. destruct Hab as [[? ?]|[? ?]]; [exists a|exists b]; (split; [done|]); intros rn';
      unfold side_step; rewrite link_untouched by auto; apply link_touched; [exists b|exists a]; auto.
Qed.

(** The loop of one side leaves alone the ends that have no server of it. *)
Lemma side_outside rn e :
  (forall i t, i ∈ p -> t ∈ p ++ q -> e <> name_of cfg i t /\ e <> name_of cfg t i) ->
  isEnabled (foldl (side_step cfg p q) rn p) e = isEnabled rn e.
Proof.
  intros He. apply foldl_keeps. intros rn' i Hi. unfold side_step.
  assert (Hno : forall l, (forall t, t ∈ l -> t ∈ p ++ q) -> ~ touches cfg i l e).
  { intros l Hl (t & Ht & E). destruct (He i t Hi (Hl t Ht)) as [? ?]. by destruct E. }
  rewrite !link_untouched; [done|apply Hno; set_solver|apply Hno; set_solver].
Qed.
End Sides.

Lemma set_net_same cfg : set_net (net cfg) cfg = cfg.
Proof. by destruct cfg. Qed.

(** What a partition into [p1] and [p2] leaves of the ends between servers. *)
Definition partitioned cfg (p1 p2 : list Z) (rn : Network) : Prop :=
  (forall a b, (a ∈ p1 /\ b ∈ p1) \/ (a ∈ p2 /\ b ∈ p2) -> isEnabled rn (name_of cfg a b) = true) /\
  (forall a b, (a ∈ p1 /\ b ∈ p2) \/ (a ∈ p2 /\ b ∈ p1) -> isEnabled rn (name_of cfg a b) = false) /\
  (forall e, (forall a b, a ∈ p1 ++ p2 -> b ∈ p1 ++ p2 -> e <> name_of cfg a b) ->
     isEnabled rn e = isEnabled (net cfg) e).

Lemma partition_spec cfg p1 p2 :
  full cfg -> (forall t, t ∈ p1 ++ p2 -> in_range cfg t) -> (forall t, t ∈ p1 -> t ∈ p2 -> False) ->
  len p1 <= n cfg -> len p2 <= n cfg ->
  exists rn, partition p1 p2 cfg = Ret (set_net rn cfg) /\ partitioned cfg p1 p2 rn.
Proof.
  intros F Hr Hd Hl1 Hl2.
  assert (H1 : forall t, t ∈ p1 -> in_range cfg t) by (intros; apply Hr, elem_of_app; auto).
  assert (H2 : forall t, t ∈ p2 -> in_range cfg t) by (intros; apply Hr, elem_of_app; auto).
  eexists. split.
  { unfold partition. rewrite <- (set_net_same cfg) at 1. rewrite side_loop by done. cbn [mbind outcome_bind].
    rewrite side_loop by done. done. }
  split_and!.
  - intros a b [[Ha Hb]|[Ha Hb]].
    + rewrite side_outside; [by apply side_inside|done..|eauto|].
      intros i t Hi Ht. split; intros E; apply (fu_inj _ F) in E as [-> ->]; eauto;
        apply elem_of_app in Ht as [?|?]; eauto.
    + apply side_inside; eauto.
  - intros a b Hab. apply side_across; eauto. tauto.
  - assert (Hd' : forall t, t ∈ p2 -> t ∈ p1 -> False) by eauto.
    intros e He. rewrite !side_outside; try done; intros i t Hi Ht;
      rewrite elem_of_app in Ht; split; apply He; apply elem_of_app; tauto.
Qed.
End Facts.

(** ** make_partition: the leader goes to the minority *)

(** The two slices the loop fills behave as one array. *)
Lemma fill_one (p1 p2 : list Z) j i :
  0 <= j < len (p1 ++ p2) -> exists q1 q2,
    (if j <? len p1 then q1 ← slice_set p1 j i; Ret (q1, p2)
     else q2 ← slice_set p2 (j - len p1) i; Ret (p1, q2)) = Ret (q1, q2) /\
    q1 ++ q2 = <[Z.to_nat j := i]> (p1 ++ p2) /\ length q1 = length p1.
Proof.
  intros Hj. rewrite len_app in Hj. unfold slice_set. destruct (Z.ltb_spec j (len p1)) as [H|H];
    rewrite decide_True by lia; cbn [mbind outcome_bind]; eexists _, _; (split; [done|]).
  - rewrite insert_app_l by (unfold len in *; lia). by rewrite length_insert.
  - rewrite insert_app_r_alt by (unfold len in *; lia). split; [|done]. do 2 f_equal. unfold len in *. lia.
Qed.

Lemma insert_step {A} (P : list A) k x :
  (k < length P)%nat -> take (S k) (<[k := x]> P) = take k P ++ [x].
Proof.
  intros Hk. rewrite (take_S_r _ _ x) by (by apply list_lookup_insert_eq).
  by rewrite take_insert_ge by lia.
Qed.

Lemma fillPartition_spec l idxs : forall j p1 p2,
  let others := filter (fun i => i <> l) idxs in
  0 <= j -> j + len others <= len (p1 ++ p2) -> exists q1 q2,
    fillPartition l idxs j p1 p2 = Ret (q1, q2) /\ length q1 = length p1 /\
    q1 ++ q2 = take (Z.to_nat j) (p1 ++ p2) ++ others ++ drop (Z.to_nat (j + len others)) (p1 ++ p2).
Proof.
  induction idxs as [|i idxs IH]; intros j p1 p2 others Hj Hl.
  { exists p1, p2. split_and!; [done|done|]. unfold others, len. simpl. by rewrite Z.add_0_r, take_drop. }
  cbn [fillPartition]. unfold others in *. rewrite filter_cons in *. case_decide as Hd.
  - rewrite (proj2 (Z.eqb_neq i l)) by done. cbn [negb].
    assert (Hlc : forall k : list Z, len (i :: k) = 1 + len k) by (intros; unfold len; simpl; lia).
    rewrite Hlc in *. set (rest := filter _ idxs) in *. pose proof (len_nonneg rest).
    destruct (fill_one p1 p2 j i) as (q1 & q2 & -> & E & Hq); [lia|]. cbn [mbind outcome_bind].
    assert (Hlen : len (q1 ++ q2) = len (p1 ++ p2)) by (unfold len; by rewrite E, length_insert).
    destruct (IH (j + 1) q1 q2) as (r1 & r2 & -> & Hr & Er); [lia|fold rest; lia|].
    exists r1, r2. split_and!; [done|congruence|]. rewrite Er, E. fold rest.
    replace (Z.to_nat (j + 1)) with (S (Z.to_nat j)) by lia.
    rewrite insert_step by (unfold len in *; lia). rewrite drop_insert_lt by (unfold len in *; lia).
    rewrite <- app_assoc. cbn [app]. by replace (j + (1 + len rest)) with (j + 1 + len rest) by lia.
  - destruct (Z.eqb_spec i l) as [_|?]; [|by destruct Hd]. cbn [negb]. by apply IH.
Qed.

Lemma others_perm l m : 0 <= l < m -> filter (fun i => i <> l) (seqZ 0 m) ++ [l] ≡ₚ seqZ 0 m.
Proof.
  intros Hl. apply NoDup_Permutation.
  - apply NoDup_app. split_and!; [apply NoDup_filter, NoDup_seqZ| |apply NoDup_singleton].
    intros x Hx ->%list_elem_of_singleton. by apply list_elem_of_filter in Hx as [? _].
  - apply NoDup_seqZ.
  - intros x. rewrite elem_of_app, list_elem_of_filter, list_elem_of_singleton, elem_of_seqZ.
    destruct (decide (x = l)) as [->|]; [|intuition lia]. intuition lia.
Qed.

(** An odd number of servers, at least three, is split into a majority and the
    leader's minority, each server on one side. *)
Lemma partitionAround_spec l m :
  Z.odd m = true -> 3 <= m -> 0 <= l < m -> exists q1 q2,
    partitionAround l m = Ret (q1, q2) /\ q1 ++ q2 ≡ₚ seqZ 0 m /\
    len q1 = Z.quot m 2 + 1 /\ len q2 = Z.quot m 2 /\ l ∈ q2.
Proof.
  intros Hodd Hm Hl. pose proof (others_perm l m Hl) as Hperm.
  apply Z.odd_spec in Hodd as [h ->]. unfold partitionAround.
  assert (Hq : Z.quot (2 * h + 1) 2 = h) by (symmetry; apply Z.quot_unique with 1; lia). rewrite Hq.
  set (m := 2 * h + 1) in *. set (others := filter (fun i => i <> l) (seqZ 0 m)) in *.
  assert (Ho : len others = 2 * h).
  { apply Permutation_length in Hperm. rewrite length_app, length_seqZ in Hperm. simpl in Hperm. unfold len. lia. }
  set (p1 := replicate (Z.to_nat (h + 1)) 0). set (p2 := replicate (Z.to_nat h) 0).
  assert (Hp : len (p1 ++ p2) = m) by (unfold len, p1, p2; rewrite length_app, !length_replicate; lia).
  destruct (fillPartition_spec l (seqZ 0 m) 0 p1 p2) as (q1 & q2 & -> & Hq1 & E); [done|fold others; lia|].
  fold others in E. cbn [mbind outcome_bind].
  assert (Hlq1 : length q1 = Z.to_nat (h + 1)) by (unfold p1 in Hq1; by rewrite length_replicate in Hq1).
  assert (Hz : exists z, q1 ++ q2 = others ++ [z]).
  { rewrite E, Z.add_0_l. change (take (Z.to_nat 0) (p1 ++ p2)) with (@nil Z). cbn [app]. destruct (drop (Z.to_nat (len others)) (p1 ++ p2)) as [|z [|? ?]] eqn:Ed;
      apply (f_equal length) in Ed; rewrite length_drop in Ed; unfold len in *; simpl in Ed; [lia|by exists z|lia]. }
  destruct Hz as [z Hz].
  assert (Hlq2 : length q2 = Z.to_nat h).
  { apply (f_equal length) in Hz. rewrite !length_app in Hz. simpl in Hz. unfold len in *. lia. }
  destruct q2 as [|w q2 _] using rev_ind; [simpl in Hlq2; lia|].
  rewrite app_assoc in Hz. apply app_inj_tail in Hz as [Hz _]. rewrite length_app in Hlq2. simpl in Hlq2.
  assert (slice_set (q2 ++ [w]) (len (q2 ++ [w]) - 1) l = Ret (q2 ++ [l])) as ->.
  { apply slice_set_Ret. rewrite len_app. unfold len. simpl. split; [lia|].
    replace (Z.to_nat _) with (length q2 + 0)%nat by lia. by rewrite insert_app_r. }
  cbn [mbind outcome_bind]. exists q1, (q2 ++ [l]). rewrite app_assoc, Hz. unfold len. rewrite length_app. simpl.
  split_and!; [done|done|lia|lia|]. apply elem_of_app. right. by left.
Qed.

(** ** Clerk handles *)

(** The swap of two slots. *)
Lemma swap_perm {A} (l : list A) i j x y l1 l2 :
  slice_get l i = Ret x -> slice_get l j = Ret y ->
  slice_set l i y = Ret l1 -> slice_set l1 j x = Ret l2 -> l2 ≡ₚ l.
Proof.
  intros [_ Hx]%slice_get_Ret [_ Hy]%slice_get_Ret [_ ->]%slice_set_Ret [_ ->]%slice_set_Ret.
  by apply Permutation_insert_swap.
Qed.

Lemma shuffle_spec {A} draw (idxs : list Z) : forall l : list A,
  (forall i, i ∈ idxs -> 0 <= i < len l /\ 0 <= draw i <= i) ->
  exists l', shuffle draw idxs l = Ret l' /\ l' ≡ₚ l.
Proof.
  induction idxs as [|i idxs IH]; intros l Hr; [by exists l|]. cbn [shuffle].
  destruct (Hr i) as [Hi Hd]; [by left|].
  destruct (slice_get_in l i) as [x Hx]; [lia|]. destruct (slice_get_in l (draw i)) as [y Hy]; [lia|].
  assert (H1 : slice_set l i y = Ret (<[Z.to_nat i := y]> l)) by (by apply slice_set_Ret).
  set (l1 := <[Z.to_nat i := y]> l) in *.
  assert (H2 : slice_set l1 (draw i) x = Ret (<[Z.to_nat (draw i) := x]> l1)).
  { apply slice_set_Ret. unfold len, l1. rewrite length_insert. unfold len in Hi. split; [lia|done]. }
  rewrite Hx. cbn [mbind outcome_bind]. rewrite Hy. cbn [mbind outcome_bind].
  rewrite H1. cbn [mbind outcome_bind]. rewrite H2. cbn [mbind outcome_bind].
  pose proof (swap_perm _ _ _ _ _ _ _ Hx Hy H1 H2) as Hp.
  destruct (IH (<[Z.to_nat (draw i) := x]> l1)) as (l' & -> & Hl').
  { intros k Hk. unfold len. rewrite (Permutation_length Hp). apply Hr. by right. }
  exists l'. split; [done|]. by rewrite Hl'.
Qed.

(** The range of rand.Intn(i + 1). *)
Definition in_draw (draw : Z -> Z) : Prop := forall i, 0 <= i -> 0 <= draw i <= i.

Lemma random_handles_perm {A} draw (l : list A) :
  in_draw draw -> exists l', random_handles draw l = Ret l' /\ l' ≡ₚ l.
Proof.
  intros Hd. apply shuffle_spec. intros i Hi%elem_of_seqZ. split; [lia|]. apply Hd. lia.
Qed.

(** ** New ends *)
Section Ends.
Context {Srv : Type} `{TS : TestedServer Srv}.
Implicit Types cfg : config Srv.

(** The names drawn for the ends to all servers are new. *)
Definition drawn_fresh cfg (rs : Z -> Z) : Prop :=
  (forall j, in_range cfg j -> rs j ∉ ends (net cfg)) /\
  (forall j k, in_range cfg j -> in_range cfg k -> rs j = rs k -> j = k).

Definition new_ends (rs : Z -> Z) (m : Z) : list (Z * Z) := (fun j => (rs j, j)) <$> seqZ 0 m.

Lemma new_ends_names rs m : (new_ends rs m).*1 = rs <$> seqZ 0 m.
Proof. unfold new_ends. by rewrite <- list_fmap_compose. Qed.

Lemma make_end_loop cfg rs l rn :
  for_each (make_end rs) l (set_net rn cfg) =
    (rn' ← makeAll ((fun j => (rs j, j)) <$> l) rn; Ret (set_net rn' cfg)).
Proof.
  revert rn. induction l as [|j l IH]; intros rn; [done|]. cbn [for_each fmap list_fmap makeAll].
  assert (make_end rs j (set_net rn cfg) =
    (rn1 ← MakeEnd (rs j) rn; Ret (set_net (Connect (rs j) j rn1) cfg))) as -> by done.
  destruct (MakeEnd (rs j) rn) as [rn1| |]; [|done|done]. cbn [mbind outcome_bind].
  apply (IH (Connect (rs j) j rn1)).
Qed.

Lemma service_ends_total cfg rs :
  drawn_fresh cfg rs -> exists rn,
    for_each (make_end rs) (seqZ 0 (n cfg)) cfg = Ret (set_net rn cfg) /\
    makeAll (new_ends rs (n cfg)) (net cfg) = Ret rn.
Proof.
  intros [Hf Hi]. pose proof (make_end_loop cfg rs (seqZ 0 (n cfg)) (net cfg)) as Hloop.
  rewrite set_net_same in Hloop. fold (new_ends rs (n cfg)) in Hloop. rewrite Hloop.
  destruct (makeAll_total (new_ends rs (n cfg)) (net cfg)) as [rn Hrn].
  - rewrite new_ends_names. apply NoDup_fmap_2_strong; [|apply NoDup_seqZ].
    intros j k Hj%elem_of_seqZ Hk%elem_of_seqZ. apply Hi; unfold in_range; lia.
  - rewrite new_ends_names. intros e (j & -> & Hj%elem_of_seqZ)%list_elem_of_fmap. apply Hf.
    unfold in_range. lia.
  - rewrite Hrn. by exists rn.
Qed.
End Ends.

(** ** make_config *)

(** A slice whose first [k] of [m] slots have been filled. *)
Definition table {A} (f : Z -> A) (k m : Z) : list (option A) :=
  (Some ∘ f <$> seqZ 0 k) ++ replicate (Z.to_nat (m - k)) None.

Lemma table_len {A} (f : Z -> A) k m : 0 <= k <= m -> len (table f k m) = m.
Proof. intros Hk. unfold table, len. rewrite length_app, length_fmap, length_seqZ, length_replicate. lia. Qed.

Lemma table_split {A} (f : Z -> A) k m :
  0 <= k < m -> table f k m = (Some ∘ f <$> seqZ 0 k) ++ None :: replicate (Z.to_nat (m - (k + 1))) None.
Proof.
  intros Hk. unfold table. assert (Z.to_nat (m - k) = S (Z.to_nat (m - (k + 1)))) as -> by lia. done.
Qed.

Lemma seqZ_snoc k : 0 <= k -> seqZ 0 (k + 1) = seqZ 0 k ++ [k].
Proof. intros Hk. rewrite seqZ_app by lia. simpl. f_equal. Qed.

Lemma table_set {A} (f : Z -> A) k m :
  0 <= k < m -> slice_set (table f k m) k (Some (f k)) = Ret (table f (k + 1) m).
Proof.
  intros Hk. apply slice_set_Ret. rewrite table_len by lia. split; [lia|]. rewrite (table_split f k) by done.
  replace (Z.to_nat k) with (length (Some ∘ f <$> seqZ 0 k) + 0)%nat
    by (rewrite length_fmap, length_seqZ; lia).
  rewrite insert_app_r. simpl. unfold table. rewrite seqZ_snoc by lia. by rewrite fmap_app, <- app_assoc.
Qed.

Lemma table_next {A} (f : Z -> A) k m : 0 <= k < m -> slice_get (table f k m) k = Ret None.
Proof.
  intros Hk. apply slice_get_Ret. split; [lia|]. rewrite table_split by done.
  rewrite lookup_app_r by (rewrite length_fmap, length_seqZ; lia).
  by rewrite length_fmap, length_seqZ, Nat.sub_diag.
Qed.

Lemma table_full {A} (f : Z -> A) m : table f m m = Some ∘ f <$> seqZ 0 m.
Proof. unfold table. by rewrite Z.sub_diag, app_nil_r. Qed.

Lemma table_lookup {A} (f : Z -> A) m i : 0 <= i < m -> table f m m !! Z.to_nat i = Some (Some (f i)).
Proof.
  intros Hi. rewrite table_full, list_lookup_fmap, lookup_seqZ_lt by lia. simpl. do 2 f_equal. f_equal. lia.
Qed.

Section Start.
Context {Srv : Type} `{TS : TestedServer Srv}.
Implicit Types cfg : config Srv.

(** The slices a server index points into. *)
Definition sized cfg : Prop := len (endnames cfg) = n cfg /\ len (srvs cfg) = n cfg /\ len (saved cfg) = n cfg.

(** The persister a new incarnation is given. *)
Definition next_persister (sv : option Persister) : Persister :=
  match sv with Some ps => Copy ps | None => MakePersister end.

Definition with_server (i : Z) (names : list Z) (ps : Persister) (rn : Network) cfg : config Srv :=
  mkConfig (AddServer i (nextRef cfg) rn) (n cfg)
    (<[Z.to_nat i := Some (ts_start (n cfg) i ps (maxraftstate cfg))]> (srvs cfg))
    (<[Z.to_nat i := Some ps]> (saved cfg)) (<[Z.to_nat i := Some names]> (endnames cfg)) (clerks cfg)
    (nextClientId cfg) (maxraftstate cfg) (rpcs0 cfg) (ops cfg) (S (nextRef cfg)).

Lemma StartServer_spec cfg i rs sv :
  sized cfg -> in_range cfg i -> saved_now cfg i = Ret sv -> drawn_fresh cfg rs ->
  exists rn, makeAll (new_ends rs (n cfg)) (net cfg) = Ret rn /\
    StartServer i rs cfg = Ret (with_server i (rs <$> seqZ 0 (n cfg)) (next_persister sv) rn cfg).
Proof.
  intros (L1 & L2 & L3) Hi Hsv Hfr. unfold in_range in Hi. unfold StartServer, slice_set.
  rewrite (decide_True (P := 0 <= i < len (endnames cfg))) by lia. cbn [mbind outcome_bind].
  set (c0 := set_endnames _ cfg).
  destruct (service_ends_total c0 rs) as (rn & Hloop & Hrn); [exact Hfr|].
  exists rn. split; [exact Hrn|].
  change (for_each (make_end rs) (seqZ 0 (n cfg)) c0) with (for_each (make_end rs) (seqZ 0 (n c0)) c0).
  rewrite Hloop. cbn [mbind outcome_bind].
  assert (saved_now (set_net rn c0) i = Ret sv) as -> by exact Hsv. cbn [mbind outcome_bind].
  rewrite !decide_True by (unfold c0; simpl; lia). done.
Qed.

(** The rows a completed start-up leaves. *)
Lemma full_of_rows cfg (rs : Z -> Z -> Z) :
  0 <= n cfg -> endnames cfg = table (fun i => rs i <$> seqZ 0 (n cfg)) (n cfg) (n cfg) ->
  (forall i j i' j', in_range cfg i -> in_range cfg j -> in_range cfg i' -> in_range cfg j' ->
    rs i j = rs i' j' -> i = i' /\ j = j') ->
  full cfg /\ forall i j, in_range cfg i -> in_range cfg j -> name_of cfg i j = rs i j.
Proof.
  intros Hn E Hinj.
  assert (Hname : forall i j, in_range cfg i -> in_range cfg j -> name_of cfg i j = rs i j).
  { intros i j Hi Hj. unfold in_range in *. unfold name_of. rewrite E, table_lookup by done. simpl.
    rewrite list_lookup_fmap, lookup_seqZ_lt by lia. simpl. f_equal. lia. }
  split; [|done]. split.
  - rewrite E. apply table_len. lia.
  - intros i Hi. unfold in_range in Hi. rewrite E, table_lookup by done. eexists. split; [done|].
    unfold len. rewrite length_fmap, length_seqZ. lia.
  - intros i j i' j' Hi Hj Hi' Hj'. rewrite !Hname by done. by apply Hinj.
Qed.

Section Boot.
Context (m mx : Z) (rs : Z -> Z -> Z).
Hypothesis Hm : 0 <= m.
Hypothesis Hinj : forall i j i' j', 0 <= i < m -> 0 <= j < m -> 0 <= i' < m -> 0 <= j' < m ->
  rs i j = rs i' j' -> i = i' /\ j = j'.

(** The first [k] servers have been started. *)
Record started (k : Z) cfg : Prop := {
  so_n : n cfg = m;
  so_mx : maxraftstate cfg = mx;
  so_rows : endnames cfg = table (fun i => rs i <$> seqZ 0 m) k m;
  so_srvs : srvs cfg = table (fun i => ts_start m i MakePersister mx) k m;
  so_saved : saved cfg = table (fun _ => MakePersister) k m;
  so_ends e : e ∈ ends (net cfg) <-> exists i j, 0 <= i < k /\ 0 <= j < m /\ e = rs i j;
  so_conn i j : 0 <= i < k -> 0 <= j < m -> connections (net cfg) !! rs i j = Some (Some j)
}.

Lemma started_fresh : started 0 (fresh_config m mx).
Proof.
  split; try done; try (unfold table; simpl; by rewrite Z.sub_0_r).
  - intros e. split; [intros H; by apply not_elem_of_empty in H|intros (i & j & ? & _); lia].
  - intros i j ?. lia.
Qed.

Lemma table_insert {A} (f : Z -> A) k :
  0 <= k < m -> <[Z.to_nat k := Some (f k)]> (table f k m) = table f (k + 1) m.
Proof. intros Hk. pose proof (table_set f k m Hk) as [_ E]%slice_set_Ret. by rewrite E. Qed.

Lemma started_step k cfg :
  0 <= k < m -> started k cfg -> exists cfg', StartServer k (rs k) cfg = Ret cfg' /\ started (k + 1) cfg'.
Proof.
  intros Hk [En Emx Er Es Ev He Hc].
  destruct (StartServer_spec cfg k (rs k) None) as (rn & Hrn & ->).
  - unfold sized. by rewrite Er, Es, Ev, !table_len, En by lia.
  - unfold in_range. lia.
  - unfold saved_now. by rewrite Es, Ev, !table_next by done.
  - unfold drawn_fresh, in_range. rewrite En. split.
    + intros j Hj (i & j' & Hi & Hj' & E)%He. apply Hinj in E; lia.
    + intros j j' Hj Hj' E. apply Hinj in E; lia.
  - eexists. split; [done|]. destruct (makeAll_spec _ _ _ Hrn) as (_ & _ & Hends & _ & Hcon & Hoth).
    rewrite new_ends_names in Hends, Hoth. rewrite En in *.
    split; unfold with_server; simpl; rewrite ?En, ?Emx; try done.
    + rewrite Er. by apply (table_insert (fun i => rs i <$> seqZ 0 m)).
    + rewrite Es. by apply (table_insert (fun i => ts_start m i MakePersister mx)).
    + rewrite Ev. by apply (table_insert (fun _ => MakePersister)).
    + intros e. rewrite Hends, He, list_elem_of_fmap. setoid_rewrite elem_of_seqZ. split.
      * intros [(i & j & ? & ? & ->)|(j & -> & ?)]; eexists _, _; (split; [|split; [|done]]); lia.
      * intros (i & j & Hi & Hj & ->). destruct (decide (i = k)) as [->|]; [right; exists j; split; [done|lia]|].
        left. exists i, j. split_and!; lia || done.
    + intros i j Hi Hj. destruct (decide (i = k)) as [->|].
      * apply Hcon. apply list_elem_of_fmap. exists j. split; [done|]. apply elem_of_seqZ. lia.
      * rewrite Hoth; [apply Hc; lia|]. intros (j' & E & Hj'%elem_of_seqZ)%list_elem_of_fmap.
        apply Hinj in E; lia.
Qed.

Lemma started_all (k : nat) : Z.of_nat k <= m -> exists cfg,
  for_each (fun i c => StartServer i (rs i) c) (seqZ 0 (Z.of_nat k)) (fresh_config m mx) = Ret cfg /\
  started (Z.of_nat k) cfg.
Proof.
  induction k as [|k IH]; intros Hk; [eexists; split; [done|apply started_fresh]|].
  destruct IH as (c1 & H1 & S1); [lia|]. destruct (started_step (Z.of_nat k) c1) as (c2 & H2 & S2); [lia|done|].
  exists c2. replace (Z.of_nat (S k)) with (Z.of_nat k + 1) by lia. split; [|done].
  rewrite seqZ_snoc, for_each_app, H1 by lia. cbn [mbind outcome_bind for_each]. by rewrite H2.
Qed.
End Boot.
End Start.
