(* ===== verification/ServiceTests.v ===== *)
(** * What the service testers set up

    The theorems about the operations of ServiceConfig.v: [make_config] builds a
    fully connected service, [make_partition] and [partition] cut the leader off
    with a minority, [ShutdownServer] and [StartServer] give the new server what
    the old one persisted, and [makeClient] reaches the servers it is given. *)

From stdpp Require Import base list list_numbers gmap strings.
From S2P Require Import Prelude Gob RaftNode RaftNodeFacts LabRpc Harness KVServer KVFacts ServiceConfig ServiceFacts.
Open Scope Z_scope.

Section Operations.
Context {Srv : Type} `{TS : TestedServer Srv}.
Implicit Types cfg : config Srv.

(** ** ConnectAll *)
Definition link_all cfg (rn : Network) (i : Z) : Network := link cfg i true (seqZ 0 (n cfg)) rn.

Lemma ConnectAll_spec cfg :
  full cfg -> ConnectAll cfg = Ret (set_net (foldl (link_all cfg) (net cfg) (seqZ 0 (n cfg))) cfg).
Proof.
  intros F. unfold ConnectAll.
  assert (Hl : forall l rn, (forall i, i ∈ l -> in_range cfg i) ->
    for_each (fun i c => connectUnlocked i (All c) c) l (set_net rn cfg) =
      Ret (set_net (foldl (link_all cfg) rn l) cfg)).
  { induction l as [|i l IH]; intros rn Hr; [done|]. cbn [for_each foldl].
    change (All (set_net rn cfg)) with (seqZ 0 (n cfg)).
    rewrite connectUnlocked_spec; [cbn [mbind outcome_bind]; apply IH; intros; apply Hr; by right|done
      |apply Hr; by left|intros t Ht%elem_of_seqZ; unfold in_range; lia]. }
  rewrite <- (Hl (seqZ 0 (n cfg)) (net cfg)); [by rewrite set_net_same|].
  intros i Hi%elem_of_seqZ. unfold in_range. lia.
Qed.

Lemma link_wiring cfg i b l rn : same_wiring rn (link cfg i b l rn).
Proof. unfold link. etrans; apply enableAll_wiring. Qed.

Lemma foldl_wiring (step : Network -> Z -> Network) l rn :
  (forall rn i, same_wiring rn (step rn i)) -> same_wiring rn (foldl step rn l).
Proof.
  intros Hs. revert rn. induction l as [|i l IH]; intros rn; simpl; [reflexivity|]. by etrans; [apply Hs|].
Qed.

Lemma link_all_enabled cfg rn a b :
  in_range cfg a -> in_range cfg b ->
  isEnabled (foldl (link_all cfg) rn (seqZ 0 (n cfg))) (name_of cfg a b) = true.
Proof.
  intros Ha Hb.
  apply foldl_sets.
  - intros rn' i _. unfold link_all. destruct (decide (name_of cfg a b ∈
      (fun t => name_of cfg t i) <$> seqZ 0 (n cfg))) as [H1|H1]; unfold link; rewrite !isEnabled_enableAll;
      [rewrite decide_True by done; by left|]. rewrite (decide_False (P := _ ∈ _)) by done.
    case_decide; auto.
  - right. exists a. split; [apply elem_of_seqZ; unfold in_range in *; lia|]. intros rn'.
    apply link_touched. exists b. split; [apply elem_of_seqZ; unfold in_range in *; lia|auto].
Qed.

(** ** Shutting a server down *)
Definition without_server (i : Z) (sv : option Persister) (rn : Network) cfg : config Srv :=
  mkConfig (DeleteServer i rn) (n cfg) (<[Z.to_nat i := None]> (srvs cfg))
    (<[Z.to_nat i := Copy <$> sv]> (saved cfg)) (endnames cfg) (clerks cfg)
    (nextClientId cfg) (maxraftstate cfg) (rpcs0 cfg) (ops cfg) (nextRef cfg).

Lemma ShutdownServer_spec cfg i sv :
  full cfg -> sized cfg -> in_range cfg i -> saved_now cfg i = Ret sv ->
  ShutdownServer i cfg =
    Ret (without_server i sv (link cfg i false (seqZ 0 (n cfg)) (net cfg)) cfg).
Proof.
  intros F (_ & L2 & L3) Hi Hsv. unfold ShutdownServer, All.
  pose proof (disconnectUnlocked_spec cfg i (seqZ 0 (n cfg)) (net cfg) F Hi) as Hd.
  rewrite set_net_same in Hd. unfold in_range in *.
  rewrite Hd; [|intros t Ht%elem_of_seqZ; lia|unfold len; rewrite length_seqZ; lia]. clear Hd.
  cbn [mbind outcome_bind]. set (c2 := on_net _ _).
  assert (saved_now c2 i = Ret sv) as -> by exact Hsv. cbn [mbind outcome_bind]. unfold slice_set.
  rewrite (decide_True (P := 0 <= i < len (saved c2))) by (unfold c2; simpl; lia). cbn [mbind outcome_bind].
  destruct (slice_get_in (srvs cfg) i) as [srv Hs]; [lia|].
  assert (slice_get (srvs c2) i = Ret srv) as -> by exact Hs. cbn [mbind outcome_bind].
  destruct srv as [srv|].
  - rewrite decide_True by (unfold c2; simpl; lia). done.
  - apply slice_get_Ret in Hs as [_ Hs]. unfold without_server. by rewrite (list_insert_id _ _ _ Hs).
Qed.

Lemma Copy_same ps : Copy ps = ps.
Proof. by destruct ps. Qed.

(** A shutdown and a start: the new server is started on what the old one had
    persisted, and no end from or to it is enabled. *)
Lemma restart_spec cfg i rs srv ps0 :
  full cfg -> sized cfg -> in_range cfg i ->
  srvs cfg !! Z.to_nat i = Some (Some srv) -> saved cfg !! Z.to_nat i = Some (Some ps0) ->
  drawn_fresh cfg rs -> exists c1 rn,
    ShutdownServer i cfg = Ret c1 /\ n c1 = n cfg /\
    StartServer i rs c1 = Ret (with_server i (rs <$> seqZ 0 (n cfg)) (ts_persister srv) rn c1) /\
    srvs c1 = <[Z.to_nat i := None]> (srvs cfg) /\ endnames c1 = endnames cfg /\
    maxraftstate c1 = maxraftstate cfg /\
    (forall a, in_range cfg a -> isEnabled rn (name_of cfg a i) = false) /\
    (forall j, in_range cfg j -> isEnabled rn (rs j) = false) /\
    (forall e, (forall a, in_range cfg a -> e <> name_of cfg a i /\ e <> name_of cfg i a /\ e <> rs a) ->
      isEnabled rn e = isEnabled (net cfg) e).
Proof.
  intros F Sz Hi Hsrv Hps Hfr.
  assert (Hsv : saved_now cfg i = Ret (Some (ts_persister srv))).
  { unfold saved_now, in_range in *.
    assert (slice_get (saved cfg) i = Ret (Some ps0)) as -> by (apply slice_get_Ret; split; [lia|done]).
    assert (slice_get (srvs cfg) i = Ret (Some srv)) as -> by (apply slice_get_Ret; split; [lia|done]). done. }
  set (c1 := without_server i (Some (ts_persister srv)) (link cfg i false (seqZ 0 (n cfg)) (net cfg)) cfg).
  assert (Hwire := link_wiring cfg i false (seqZ 0 (n cfg)) (net cfg)).
  assert (Hfr1 : drawn_fresh c1 rs).
  { destruct Hfr as [Hf Hj]. split; [|exact Hj]. intros j Hr. simpl. destruct Hwire as (-> & _). by apply Hf. }
  destruct Sz as (L1 & L2 & L3).
  destruct (StartServer_spec c1 i rs (Some (Copy (ts_persister srv)))) as (rn & Hrn & Hst); [| |  |exact Hfr1|].
  - unfold sized, c1, len in *. simpl. by rewrite !length_insert.
  - exact Hi.
  - unfold saved_now, c1, in_range, len in *. simpl.
    assert (forall A (l : list A) x, Z.of_nat (length l) = n cfg ->
      slice_get (<[Z.to_nat i := x]> l) i = Ret x) as Hg.
    { intros A l x El. apply slice_get_Ret. split; [lia|]. apply list_lookup_insert_eq. lia. }
    by rewrite !Hg.
  - exists c1, rn. split; [by apply ShutdownServer_spec|]. split; [done|]. split.
    { rewrite Hst. unfold next_persister. by rewrite !Copy_same. }
    destruct (makeAll_spec _ _ _ Hrn) as (_ & _ & _ & Hen & _). rewrite new_ends_names in Hen.
    change (n c1) with (n cfg) in Hen. change (isEnabled (net c1)) with
      (isEnabled (link cfg i false (seqZ 0 (n cfg)) (net cfg))) in Hen.
    assert (Hin : forall a, in_range cfg a -> a ∈ seqZ 0 (n cfg)) by (intros a Ha; apply elem_of_seqZ; unfold in_range in Ha; lia).
    split_and!; try done.
    + intros a Ha. rewrite Hen. case_decide; [done|]. apply link_touched. exists a. auto.
    + intros j Hj. rewrite Hen, decide_True; [done|]. apply list_elem_of_fmap. eauto.
    + intros e He. rewrite Hen, decide_False, link_untouched; [done| |].
      * intros (t & Ht%elem_of_seqZ & E). destruct (He t) as (? & ? & _); [unfold in_range; lia|]. by destruct E.
      * intros (t & E & Ht%elem_of_seqZ)%list_elem_of_fmap. destruct (He t) as (_ & _ & ?); [unfold in_range; lia|done].
Qed.

(** ** Theorems *)

(** [make_config] of the service testers always succeeds when the names
    drawn are distinct.  Every server is started on an empty persister, any two of
    them are joined by an enabled end that leads to the right server, and the
    network is unreliable exactly when asked for. *)
Theorem service_config_connects m unreliable mx (rs : Z -> Z -> Z) :
  0 <= m ->
  (forall i j i' j', 0 <= i < m -> 0 <= j < m -> 0 <= i' < m -> 0 <= j' < m ->
    rs i j = rs i' j' -> i = i' /\ j = j') ->
  exists cfg, make_config m unreliable mx rs = Ret cfg /\ n cfg = m /\ full cfg /\ sized cfg /\
    reliable (net cfg) = negb unreliable /\
    forall i, 0 <= i < m ->
      srvs cfg !! Z.to_nat i = Some (Some (ts_start m i MakePersister mx)) /\
      forall j, 0 <= j < m -> name_of cfg i j = rs i j /\ isEnabled (net cfg) (rs i j) = true /\
        connections (net cfg) !! rs i j = Some (Some j).
Proof.
  intros Hm Hinj. destruct (started_all m mx rs Hinj (Z.to_nat m)) as (c1 & H1 & S1); [lia|].
  rewrite Z2Nat.id in * by done. pose proof (so_n _ _ _ _ _ S1) as En.
  destruct (full_of_rows c1 rs) as [F Hname].
  { by rewrite En. }
  { rewrite (so_rows _ _ _ _ _ S1). by rewrite En. }
  { unfold in_range. rewrite En. exact Hinj. }
  unfold in_range in Hname. rewrite En in Hname.
  set (rn := foldl (link_all c1) (net c1) (seqZ 0 (n c1))).
  assert (Hw : same_wiring (net c1) rn) by (apply foldl_wiring; intros; apply link_wiring).
  exists (on_net (Reliable (negb unreliable)) (set_net rn c1)). split_and!; try done.
  - unfold make_config. rewrite H1. cbn [mbind outcome_bind]. rewrite ConnectAll_spec by done. done.
  - split; apply F.
  - unfold sized. simpl. by rewrite (so_rows _ _ _ _ _ S1), (so_srvs _ _ _ _ _ S1), (so_saved _ _ _ _ _ S1), !table_len by lia.
  - intros i Hi. simpl. rewrite (so_srvs _ _ _ _ _ S1), table_lookup by done. split; [done|].
    intros j Hj. split_and!.
    + by apply Hname.
    + rewrite <- (Hname i j) by done. apply link_all_enabled; unfold in_range; lia.
    + destruct Hw as (_ & _ & -> & _). by apply (so_conn _ _ _ _ _ S1).
Qed.

(** The leader [Leader] found. *)
Lemma firstLeader_spec cfg idxs :
  (forall i, i ∈ idxs -> in_range cfg i) ->
  (forall i, in_range cfg i -> exists srv, srvs cfg !! Z.to_nat i = Some (Some srv)) ->
  exists ok l, firstLeader cfg idxs = Ret (ok, l) /\
    (ok = true -> l ∈ idxs /\ exists srv, srvs cfg !! Z.to_nat l = Some (Some srv) /\ (ts_GetState srv).2 = true) /\
    (ok = false -> l = 0 /\ forall i srv, i ∈ idxs -> srvs cfg !! Z.to_nat i = Some (Some srv) ->
       (ts_GetState srv).2 = false).
Proof.
  intros Hr Hup. induction idxs as [|i idxs IH]; cbn [firstLeader].
  { exists false, 0. split_and!; try done. intros _. split; [done|]. by intros i srv ?%elem_of_nil. }
  destruct (Hup i) as [srv Hs]; [apply Hr; by left|].
  assert (slice_get (srvs cfg) i = Ret (Some srv)) as ->.
  { apply slice_get_Ret. split; [|done]. specialize (Hr i ltac:(by left)). unfold in_range in Hr. lia. }
  cbn [mbind outcome_bind]. destruct ((ts_GetState srv).2) eqn:E.
  - exists true, i. split_and!; try done. intros _. split; [by left|]. by exists srv.
  - destruct IH as (ok & l & -> & H1 & H2); [intros; apply Hr; by right|]. exists ok, l. split_and!; [done| |].
    + intros [Hl Hx]%H1. split; [by right|done].
    + intros [-> Hn]%H2. split; [done|]. intros i' srv' [->|Hi]%elem_of_cons Hs'; [|by eapply Hn].
      rewrite Hs in Hs'. by injection Hs' as <-.
Qed.

(** With an odd number of running servers, at least three, [make_partition]
    splits them into a majority and a minority that holds the current leader, and
    [partition] on the result leaves exactly the ends inside a side enabled:
    nothing passes between the sides, and the ends of clerks are not touched. *)
Theorem leader_cut_off cfg :
  full cfg -> Z.odd (n cfg) = true -> 3 <= n cfg ->
  (forall i, in_range cfg i -> exists srv, srvs cfg !! Z.to_nat i = Some (Some srv)) ->
  exists ok l q1 q2 rn, Leader cfg = Ret (ok, l) /\
    (ok = true -> exists srv, srvs cfg !! Z.to_nat l = Some (Some srv) /\ (ts_GetState srv).2 = true) /\
    (ok = false -> forall i srv, in_range cfg i -> srvs cfg !! Z.to_nat i = Some (Some srv) ->
      (ts_GetState srv).2 = false) /\
    make_partition cfg = Ret (q1, q2) /\ partition q1 q2 cfg = Ret (set_net rn cfg) /\
    q1 ++ q2 ≡ₚ seqZ 0 (n cfg) /\ 2 * len q2 < n cfg < 2 * len q1 /\ l ∈ q2 /\
    partitioned cfg q1 q2 rn.
Proof.
  intros F Hodd Hn Hup.
  destruct (firstLeader_spec cfg (seqZ 0 (n cfg))) as (ok & l & Hl & Hyes & Hno);
    [intros i Hi%elem_of_seqZ; unfold in_range; lia|done|].
  assert (Hr : 0 <= l < n cfg).
  { destruct ok; [destruct (Hyes eq_refl) as [Hi%elem_of_seqZ _]; lia|destruct (Hno eq_refl) as [-> _]; lia]. }
  destruct (partitionAround_spec l (n cfg)) as (q1 & q2 & Hq & Hp & L1 & L2 & Hin); try done.
  assert (Hel : forall t, t ∈ q1 ++ q2 <-> in_range cfg t).
  { intros t. rewrite Hp, elem_of_seqZ. unfold in_range. lia. }
  assert (Hnd : NoDup (q1 ++ q2)) by (rewrite Hp; apply NoDup_seqZ).
  apply NoDup_app in Hnd as (_ & Hdisj & _).
  assert (Hh : 2 * (n cfg ÷ 2) + 1 = n cfg).
  { apply Z.odd_spec in Hodd as [h E]. rewrite E.
    assert (h = (2 * h + 1) ÷ 2) as <- by (apply Z.quot_unique with 1; lia). done. }
  destruct (partition_spec cfg q1 q2) as (rn & Hrn & Hpart); [done|intros; by apply Hel|eauto|lia|lia|].
  exists ok, l, q1, q2, rn. split_and!; try done; try lia.
  - by intros [_ ?]%Hyes.
  - intros [_ H]%Hno i srv Hi. apply H, elem_of_seqZ. unfold in_range in Hi. lia.
  - unfold make_partition, Leader. rewrite Hl. done.
Qed.

Lemma ConnectClientUnlocked_spec cfg ck rs to rn :
  clerks cfg !! ck = Some (rs <$> seqZ 0 (n cfg)) -> (forall t, t ∈ to -> in_range cfg t) ->
  ConnectClientUnlocked ck to (set_net rn cfg) = Ret (set_net (enableAll (rs <$> to) true rn) cfg).
Proof.
  intros Hck. unfold ConnectClientUnlocked. revert rn. induction to as [|t to IH]; intros rn Hr; [done|].
  cbn [for_each]. change (clerkNames (set_net rn cfg) ck) with (clerkNames cfg ck).
  assert (slice_get (clerkNames cfg ck) t = Ret (rs t)) as ->.
  { specialize (Hr t ltac:(by left)). unfold in_range in Hr. apply slice_get_Ret. split; [lia|].
    unfold clerkNames. rewrite Hck. simpl. rewrite list_lookup_fmap, lookup_seqZ_lt by lia. simpl. do 2 f_equal. lia. }
  cbn [mbind outcome_bind]. apply (IH (Enable (rs t) true rn)). intros x Hx. apply Hr. by right.
Qed.

(** [makeClient] gives a new clerk an end to every server, in random order.
    Exactly the ends to the servers it was asked to connect are enabled, each
    leads to the server it was made for, and no other end changes. *)
Theorem client_reaches cfg (to : list Z) rs draw :
  drawn_fresh cfg rs -> in_draw draw -> (forall t, t ∈ to -> in_range cfg t) ->
  exists cfg' handles, makeClient to rs draw cfg = Ret (cfg', nextRef cfg, handles) /\
    clerkNames cfg' (nextRef cfg) = rs <$> seqZ 0 (n cfg) /\ handles ≡ₚ rs <$> seqZ 0 (n cfg) /\
    nextClientId cfg' = nextClientId cfg + 1 /\
    (forall j, in_range cfg j -> isEnabled (net cfg') (rs j) = bool_decide (j ∈ to) /\
       connections (net cfg') !! rs j = Some (Some j)) /\
    (forall e, e ∈ ends (net cfg) -> isEnabled (net cfg') e = isEnabled (net cfg) e).
Proof.
  intros Hfr Hd Hto. destruct (service_ends_total cfg rs Hfr) as (rn & Hloop & Hrn).
  destruct (random_handles_perm draw (rs <$> seqZ 0 (n cfg)) Hd) as (hs & Hhs & Hperm).
  unfold makeClient. rewrite Hloop. cbn [mbind outcome_bind]. rewrite Hhs. cbn [mbind outcome_bind].
  set (c2 := set_nextClientId _ _).
  assert (Hc2 : ConnectClientUnlocked (nextRef cfg) to c2 = Ret (set_net (enableAll (rs <$> to) true rn) c2)).
  { rewrite <- (set_net_same c2) at 1. apply (ConnectClientUnlocked_spec c2 _ rs to rn); [|exact Hto].
    unfold c2. simpl. by rewrite lookup_insert_eq. }
  change (nextRef (set_net rn cfg)) with (nextRef cfg). rewrite Hc2. cbn [mbind outcome_bind].
  eexists _, hs. split; [done|]. destruct (makeAll_spec _ _ _ Hrn) as (_ & Hnew & _ & Hen & Hcon & _).
  rewrite new_ends_names in Hen, Hnew. destruct Hfr as [_ Hinj].
  split_and!; [unfold clerkNames; simpl; by rewrite lookup_insert_eq|done|done| |].
  - intros j Hj. simpl. rewrite isEnabled_enableAll. destruct (enableAll_wiring (rs <$> to) true rn) as (_ & _ & -> & _).
    assert (Hj' : j ∈ seqZ 0 (n cfg)) by (apply elem_of_seqZ; unfold in_range in Hj; lia). split.
    + case_decide as H1.
      * apply list_elem_of_fmap in H1 as (t & E & Ht). symmetry. apply bool_decide_eq_true.
        by rewrite (Hinj j t Hj (Hto t Ht) E).
      * rewrite Hen, decide_True by (apply list_elem_of_fmap; eauto). symmetry. apply bool_decide_eq_false.
        intros Ht. apply H1, list_elem_of_fmap. eauto.
    + apply Hcon. unfold new_ends. apply list_elem_of_fmap. eauto.
  - intros e He. simpl. rewrite isEnabled_enableAll. case_decide as H1.
    + exfalso. apply list_elem_of_fmap in H1 as (t & -> & Ht). refine (Hnew (rs t) _ He).
      apply list_elem_of_fmap. exists t. split; [done|]. specialize (Hto t Ht). apply elem_of_seqZ. unfold in_range in Hto. lia.
    + rewrite Hen, decide_False; [done|]. intros H2. by apply (Hnew e).
Qed.
End Operations.

(** ** A restarted key/value server *)

(** C29: the tester's restart of a key/value server loses nothing that was
    persisted.  [ShutdownServer] and [StartServer] succeed on every complete
    configuration; the new server's Raft peer has the old one's term, vote, log
    and snapshot index; the snapshot it hands to the new key/value server restores
    the map and duplicate record that were encoded in it; and until it is
    reconnected no end leads to it. *)
Theorem kv_restart_recovers (cfg : config KVPeer) i rs p ps0 kv0 sizes :
  full cfg -> sized cfg -> in_range cfg i ->
  srvs cfg !! Z.to_nat i = Some (Some p) -> saved cfg !! Z.to_nat i = Some (Some ps0) ->
  drawn_fresh cfg rs ->
  peers (kp_rf p) = n cfg -> me (kp_rf p) = i -> synced (kp_rf p) ->
  ReadSnapshot (persister (kp_rf p)) = encodeSnapshot kv0 ->
  exists c1 c2 p' kv', ShutdownServer i cfg = Ret c1 /\ StartServer i rs c1 = Ret c2 /\
    srvs c2 !! Z.to_nat i = Some (Some p') /\
    CurrentTerm (kp_rf p') = CurrentTerm (kp_rf p) /\ VotedFor (kp_rf p') = VotedFor (kp_rf p) /\
    Logs (kp_rf p') = Logs (kp_rf p) /\ SnapshotIndex (kp_rf p') = SnapshotIndex (kp_rf p) /\
    enactDaemon (kp_kv p') sizes (kp_msgs p') = Ret kv' /\
    Kvdb kv' = Kvdb kv0 /\ DupMap kv' = DupMap kv0 /\
    (forall a, in_range cfg a -> isEnabled (net c2) (name_of c2 a i) = false).
Proof.
  intros F Sz Hi Hp Hps Hfr En Eme Hsync Hsnap.
  destruct (restart_spec cfg i rs p ps0 F Sz Hi Hp Hps Hfr)
    as (c1 & rn & H1 & Hn & H2 & Es & Ee & Emx & Hto & Hfrom & _).
  pose proof Hi as Hi'. unfold in_range in Hi'. destruct Sz as (L1 & L2 & _).
  eexists c1, _, (startKVPeer (n cfg) i (persister (kp_rf p)) (maxraftstate cfg)), _.
  split; [done|]. split; [exact H2|]. split.
  { simpl. rewrite Es, Hn, Emx, list_insert_insert_eq. apply list_lookup_insert_eq. unfold len in *. lia. }
  destruct Hsync as (S1 & S2 & S3 & S4). rewrite En, Eme in *.
  split_and!; [exact S1|exact S2|exact S4|exact S3| | | |].
  - unfold startKVPeer, Make. cbn [kp_msgs kp_kv].
    destruct (dePersistState_static (initRaft (Cmd := Op) (n cfg) i (persister (kp_rf p)))) as (_ & _ & E & _).
    rewrite E. cbn [persister initRaft]. rewrite Hsnap. unfold notifyAppUseNewSnapShot.
    rewrite decide_False; [cbn [enactDaemon]; rewrite snapshot_restores; done|].
    apply encodeSnapshot_nonempty.
  - done.
  - done.
  - intros a Ha. simpl. unfold isEnabled. simpl. fold (isEnabled rn).
    unfold name_of. simpl. rewrite Ee. destruct (decide (a = i)) as [->|Hne].
    + rewrite list_lookup_insert_eq by (unfold len in *; lia). simpl.
      rewrite list_lookup_fmap, lookup_seqZ_lt by lia. simpl. rewrite Z2Nat.id by lia. apply Hfrom. done.
    + rewrite list_lookup_insert_ne by (unfold in_range in Ha; lia). by apply Hto.
Qed.

(** ** Boundary cases *)

(** A key/value tester with [m] servers; [rs] numbers the ends. *)
Definition kv_tester (m : Z) : outcome (config KVPeer) := make_config m false (-1) (fun i j => 100 * i + j).

(** With an even number of servers the leader is not put into a minority: the
    slices of [make_partition] hold one element too many, and server 0 is on both
    sides.  Of four servers with leader 3, the partition leaves two pairs, and
    nobody has a majority. *)
Definition even_partition : outcome (list Z * list Z * list bool) :=
  cfg ← kv_tester 4;
  '(q1, q2) ← partitionAround 3 (n cfg);
  cfg' ← partition q1 q2 cfg;
  Ret (q1, q2, (fun ab : Z * Z => isEnabled (net cfg') (name_of cfg' ab.1 ab.2))
                 <$> [(0, 1); (0, 2); (0, 3); (1, 2); (1, 3); (2, 3)]).

Lemma even_partition_has_no_majority :
  even_partition = Ret ([0; 1; 2], [0; 3], [false; false; true; true; false; false]).
Proof. vm_compute. reflexivity. Qed.

(** A single server cannot be partitioned: [p2] is empty. *)
Lemma single_partition_panics l : partitionAround l 1 = Panic.
Proof.
  unfold partitionAround. change (seqZ 0 1) with [0]. cbn [fillPartition].
  destruct (0 =? l); vm_compute; reflexivity.
Qed.

(** The guard of the incoming loop of [disconnectUnlocked] looks at the loop
    index: while server 0 has not been started, server 1 stays reachable from 2. *)
Definition half_started : outcome (config KVPeer) :=
  c1 ← StartServer 1 (fun j => 100 + j) (fresh_config 3 (-1));
  c2 ← StartServer 2 (fun j => 200 + j) c1;
  c3 ← connectUnlocked 1 [2] c2;
  disconnectUnlocked 1 [2] c3.

Lemma disconnect_misses_incoming : exists cfg, half_started = Ret cfg /\
  isEnabled (net cfg) 102 = false /\ isEnabled (net cfg) 201 = true.
Proof. eexists. split; [vm_compute; reflexivity|]. split; vm_compute; reflexivity. Qed.

(** ** Witnesses *)
Lemma service_config_connects_witness : exists cfg, kv_tester 3 = Ret cfg /\ isEnabled (net cfg) 201 = true.
Proof.
  destruct (service_config_connects (Srv := KVPeer) 3 false (-1) (fun i j => 100 * i + j))
    as (cfg & H & _ & _ & _ & _ & He).
  - lia.
  - intros i j i' j' Hi Hj Hi' Hj' E. lia.
  - exists cfg. split; [exact H|]. destruct (He 2) as [_ Hj]; [lia|]. destruct (Hj 1) as (_ & E & _); [lia|exact E].
Defined.

(** The state of a tester that was built. *)
Definition built {A} `{TestedServer A} (o : outcome (config A)) : config A :=
  match o with Ret cfg => cfg | _ => fresh_config 0 0 end.

Lemma built_full : full (built (kv_tester 3)) /\ sized (built (kv_tester 3)).
Proof.
  assert (Hn : n (built (kv_tester 3)) = 3) by (vm_compute; reflexivity).
  split; [|split_and!; vm_compute; reflexivity].
  apply (full_of_rows _ (fun i j => 100 * i + j)); [lia|vm_compute; reflexivity|].
  unfold in_range. rewrite Hn. intros i j i' j' Hi Hj Hi' Hj' E. lia.
Qed.

Lemma leader_cut_off_witness : exists rn,
  make_partition (built (kv_tester 3)) = Ret ([1; 2], [0]) /\
  partition [1; 2] [0] (built (kv_tester 3)) = Ret (set_net rn (built (kv_tester 3))) /\
  partitioned (built (kv_tester 3)) [1; 2] [0] rn.
Proof.
  destruct (leader_cut_off (built (kv_tester 3))) as (ok & l & q1 & q2 & rn & _ & _ & _ & Hq & Hp & _ & _ & _ & H).
  - exact (proj1 built_full).
  - vm_compute. reflexivity.
  - vm_compute. discriminate.
  - assert (Hn : n (built (kv_tester 3)) = 3) by (vm_compute; reflexivity).
    unfold in_range. rewrite Hn. intros i Hi. exists (startKVPeer 3 i MakePersister (-1)).
    assert (i = 0 \/ i = 1 \/ i = 2) as [->|[->| ->]] by lia; vm_compute; reflexivity.
  - assert (E : make_partition (built (kv_tester 3)) = Ret ([1; 2], [0])) by (vm_compute; reflexivity).
    rewrite E in Hq. injection Hq as <- <-. exists rn. split_and!; [exact E|exact Hp|apply H..].
Defined.

Lemma client_reaches_witness : exists cfg' handles,
  makeClient [0; 2] (fun j => 1000 + j) (fun i => 0) (built (kv_tester 3)) = Ret (cfg', 3%nat, handles) /\
  isEnabled (net cfg') 1001 = false /\ isEnabled (net cfg') 1002 = true.
Proof.
  assert (Hn : n (built (kv_tester 3)) = 3) by (vm_compute; reflexivity).
  destruct (client_reaches (built (kv_tester 3)) [0; 2] (fun j => 1000 + j) (fun i => 0))
    as (cfg' & handles & H & _ & _ & _ & He & _).
  - unfold drawn_fresh, in_range. rewrite Hn. split; [|intros j k _ _ E; lia].
    intros j Hj. assert (j = 0 \/ j = 1 \/ j = 2) as [->|[->| ->]] by lia; vm_compute; discriminate.
  - intros i Hi. lia.
  - unfold in_range. rewrite Hn. intros t Ht. rewrite !elem_of_cons, elem_of_nil in Ht. lia.
  - exists cfg', handles. split; [exact H|]. unfold in_range in He. rewrite Hn in He.
    split; [destruct (He 1) as [E _]|destruct (He 2) as [E _]]; try lia; exact E.
Defined.

(** Server 1 ran for a while: it is in term 4, has voted for server 2, and its
    snapshot holds one key. *)
Definition old_kv : KVServer := set_db {[7 := 3]} {["k" := "v"]} (StartKVServer 1 (-1)).
Definition old_rf : Raft Op :=
  let rf := (Make 3 1 MakePersister).1 in
  let rf1 := set_VotedFor 2 (set_CurrentTerm 4 rf) in
  set_persister (mkPersister (encodeState rf1) (encodeSnapshot old_kv)) rf1.
Definition old_cfg : config KVPeer :=
  let cfg := built (kv_tester 3) in
  set_srvs (<[1%nat := Some (mkKVPeer old_kv old_rf [])]> (srvs cfg)) cfg.

Lemma kv_restart_recovers_witness : exists c1 c2 p' kv',
  ShutdownServer 1 old_cfg = Ret c1 /\ StartServer 1 (fun j => 1000 + j) c1 = Ret c2 /\
  srvs c2 !! 1%nat = Some (Some p') /\ CurrentTerm (kp_rf p') = 4 /\ VotedFor (kp_rf p') = 2 /\
  enactDaemon (kp_kv p') (fun _ => 0) (kp_msgs p') = Ret kv' /\ Kvdb kv' = {["k" := "v"]}.
Proof.
  assert (Hn : n old_cfg = 3) by (vm_compute; reflexivity).
  destruct (kv_restart_recovers old_cfg 1 (fun j => 1000 + j) (mkKVPeer old_kv old_rf []) MakePersister old_kv (fun _ => 0))
    as (c1 & c2 & p' & kv' & H1 & H2 & H3 & H4 & H5 & _ & _ & H8 & H9 & _).
  - apply (full_ext (built (kv_tester 3))); [vm_compute; reflexivity|vm_compute; reflexivity|].
    exact (proj1 built_full).
  - split_and!; vm_compute; reflexivity.
  - unfold in_range. lia.
  - vm_compute. reflexivity.
  - vm_compute. reflexivity.
  - unfold drawn_fresh, in_range. rewrite Hn. split; [|intros j k _ _ E; lia].
    intros j Hj. assert (j = 0 \/ j = 1 \/ j = 2) as [->|[->| ->]] by lia; vm_compute; discriminate.
  - vm_compute. reflexivity.
  - vm_compute. reflexivity.
  - split_and!; vm_compute; reflexivity.
  - vm_compute. reflexivity.
  - exists c1, c2, p', kv'. split_and!; [exact H1|exact H2|exact H3|exact H4|exact H5|exact H8|exact H9].
Defined.
