(* ===== verification/ShardMasterConfig.v ===== *)
(** * The shard master's tester: shardmaster/config.go

    The same program as kvraft/config.go without the statistics and the snapshot
    size, over the server of shardmaster/server.go: every operation is that of
    ServiceConfig.v at the instance below, so the theorems of ServiceTests.v hold
    for it. *)

From stdpp Require Import base list list_numbers gmap strings.
From S2P Require Import Prelude Gob RaftNode RaftNodeFacts LabRpc Harness ShardServers ServiceConfig.
Import MasterServer.
Open Scope Z_scope.

(** [StartServer] of the package has no bound on the Raft state. *)
Definition startMaster (npeers me : Z) (ps : Persister) (_ : Z) : ShardMaster :=
  (MasterServer.StartServer npeers me ps).1.

Lemma startMaster_persister npeers me ps mx : persister (sm_rf (startMaster npeers me ps mx)) = ps.
Proof.
  unfold startMaster, MasterServer.StartServer, Make. cbn [fst sm_rf].
  by destruct (dePersistState_static (initRaft (Cmd := Op) npeers me ps)) as (_ & _ & -> & _).
Qed.

#[export] Instance ShardMaster_tested : TestedServer ShardMaster := {
  ts_start := startMaster;
  ts_kill := MasterServer.Kill;
  ts_GetState sm := GetState (getRaft sm);
  ts_persister sm := persister (getRaft sm);
  ts_start_persister := startMaster_persister
}.

Definition config : Type := ServiceConfig.config ShardMaster.

Definition random_handles : (Z -> Z) -> list Z -> outcome (list Z) := ServiceConfig.random_handles.
Definition cleanup : config -> outcome config := ServiceConfig.cleanup.
Definition LogSize : config -> outcome Z := ServiceConfig.LogSize.
Definition connectUnlocked : Z -> list Z -> config -> outcome config := ServiceConfig.connectUnlocked.
Definition disconnectUnlocked : Z -> list Z -> config -> outcome config := ServiceConfig.disconnectUnlocked.
Definition connect : Z -> list Z -> config -> outcome config := ServiceConfig.connect.
Definition disconnect : Z -> list Z -> config -> outcome config := ServiceConfig.disconnect.
Definition All : config -> list Z := ServiceConfig.All.
Definition ConnectAll : config -> outcome config := ServiceConfig.ConnectAll.
Definition partition : list Z -> list Z -> config -> outcome config := ServiceConfig.partition.
Definition makeClient : list Z -> (Z -> Z) -> (Z -> Z) -> config -> outcome (config * nat * list Z) :=
  ServiceConfig.makeClient.
Definition deleteClient : nat -> config -> config := ServiceConfig.deleteClient.
Definition ConnectClientUnlocked : nat -> list Z -> config -> outcome config :=
  ServiceConfig.ConnectClientUnlocked.
Definition DisconnectClientUnlocked : nat -> list Z -> config -> outcome config :=
  ServiceConfig.DisconnectClientUnlocked.
Definition ConnectClient : nat -> list Z -> config -> outcome config := ServiceConfig.ConnectClient.
Definition DisconnectClient : nat -> list Z -> config -> outcome config := ServiceConfig.DisconnectClient.
Definition ShutdownServer : Z -> config -> outcome config := ServiceConfig.ShutdownServer.
Definition StartServer : Z -> (Z -> Z) -> config -> outcome config := ServiceConfig.StartServer.
Definition Leader : config -> outcome (bool * Z) := ServiceConfig.Leader.
Definition make_partition : config -> outcome (list Z * list Z) := ServiceConfig.make_partition.
Definition make_config (m : Z) (unreliable : bool) (randstring : Z -> Z -> Z) : outcome config :=
  ServiceConfig.make_config m unreliable (-1) randstring.

(** A run: three masters, the leader of nobody yet (server 0) cut off, and a clerk
    that can reach all of them. *)
Definition session : outcome (list bool * list Z) :=
  cfg ← make_config 3 false (fun i j => 100 * i + j);
  '(p1, p2) ← make_partition cfg;
  cfg1 ← partition p1 p2 cfg;
  '(cfg2, _, handles) ← makeClient (All cfg1) (fun j => 1000 + j) (fun i => 0) cfg1;
  Ret ((fun e => isEnabled (net cfg2) e) <$> [1; 2; 102; 201; 1000], handles).

Example session_runs : session = Ret ([false; false; true; true; true], [1002; 1000; 1001]).
Proof. vm_compute. reflexivity. Qed.
