(* ===== verification/ShardKVConfig.v ===== *)
(** * The sharded store's tester: shardkv/config.go

    Three shard masters, three replica groups of [n] servers each, and clerks, on
    one simulated network.  Servers are named by strings here; LabRpc.v names
    them by integers, and [host] is the injection.  Groups are pointers, each held
    by one slot of [cfg.groups].  The random names are an argument: [randstring]
    gives the name drawn at each place of the code.  While a server runs, its slot
    of [saved] and the persister of its Raft peer are one object. *)

From stdpp Require Import base list list_numbers gmap strings pretty.
From S2P Require Import Prelude Names Gob RaftNode RaftNodeFacts LabRpc Harness ShardMaster ShardClient ShardServers.
Open Scope Z_scope.

Import MasterServer.
Import GroupServer.

Record group : Type := mkGroup {
  gid : Z;
  servers : list (option ShardKV);
  saved : list (option Persister);
  endnames : list (option (list Z));
  mendnames : list (option (list Z))
}.

Record config : Type := mkShardConfig {
  net : Network;
  nmasters : Z;
  masterservers : list (option ShardMaster);
  mck : option MasterClerk;
  ngroups : Z;
  n : Z;
  groups : list (option group);
  clerks : gmap nat (list Z);
  nextClientId : Z;
  maxraftstate : Z;
  nextRef : nat
}.

Definition set_net (v : Network) (cfg : config) : config :=
  mkShardConfig v (nmasters cfg) (masterservers cfg) (mck cfg) (ngroups cfg) (n cfg) (groups cfg)
    (clerks cfg) (nextClientId cfg) (maxraftstate cfg) (nextRef cfg).
Definition set_masterservers (v : list (option ShardMaster)) (cfg : config) : config :=
  mkShardConfig (net cfg) (nmasters cfg) v (mck cfg) (ngroups cfg) (n cfg) (groups cfg)
    (clerks cfg) (nextClientId cfg) (maxraftstate cfg) (nextRef cfg).
Definition set_mck (v : MasterClerk) (cfg : config) : config :=
  mkShardConfig (net cfg) (nmasters cfg) (masterservers cfg) (Some v) (ngroups cfg) (n cfg) (groups cfg)
    (clerks cfg) (nextClientId cfg) (maxraftstate cfg) (nextRef cfg).
Definition set_groups (ng m : Z) (v : list (option group)) (cfg : config) : config :=
  mkShardConfig (net cfg) (nmasters cfg) (masterservers cfg) (mck cfg) ng m v
    (clerks cfg) (nextClientId cfg) (maxraftstate cfg) (nextRef cfg).
Definition set_clerks (v : gmap nat (list Z)) (id : Z) (cfg : config) : config :=
  mkShardConfig (net cfg) (nmasters cfg) (masterservers cfg) (mck cfg) (ngroups cfg) (n cfg) (groups cfg)
    v id (maxraftstate cfg) (nextRef cfg).
Definition set_nextRef (v : nat) (cfg : config) : config :=
  mkShardConfig (net cfg) (nmasters cfg) (masterservers cfg) (mck cfg) (ngroups cfg) (n cfg) (groups cfg)
    (clerks cfg) (nextClientId cfg) (maxraftstate cfg) v.
Definition on_net (f : Network -> Network) (cfg : config) : config := set_net (f (net cfg)) cfg.

(** ** Names *)
Definition host (name : string) : Z := Zpos (encode name).

Definition mastername (i : Z) : string := "master" +:+ Itoa i.
Definition servername (gid i : Z) : string := "server-" +:+ Itoa gid +:+ "-" +:+ Itoa i.

(** Where the code draws a random name. *)
Inductive site : Type :=
| MasterEnd (i j : Z)              (* StartMasterServer(i), end to master j *)
| ShardClerkEnd (j : Z)            (* shardclerk, end to master j *)
| GroupEnd (gi i j : Z)            (* StartServer(gi, i), end to server j of the group *)
| GroupMasterEnd (gi i j : Z)      (* StartServer(gi, i), end to master j *)
| ClientEnd (ck : nat) (j : Z).    (* makeClient, end to master j *)

#[export] Instance site_eq_dec : EqDecision site.
Proof. solve_decision. Defined.

(** ** Client ends *)

(** MakeEnd, Connect and Enable: the body of the loops of this file and of the
    [make_end] closures handed to clerks and servers. *)
Definition openEnd (name server : Z) (rn : Network) : outcome Network :=
  rn' ← MakeEnd name rn;
  Ret (Enable name true (Connect name server rn')).

Definition openEndOf (name server : Z) (cfg : config) : outcome config :=
  rn ← openEnd name server (net cfg);
  Ret (set_net rn cfg).

(** ** Groups *)

(** [gg := cfg.groups[gi]]; a nil group is dereferenced. *)
Definition getGroup (gi : Z) (cfg : config) : outcome group :=
  g ← slice_get (groups cfg) gi;
  match g with Some gg => Ret gg | None => Panic end.
Definition putGroup (gi : Z) (gg : group) (cfg : config) : outcome config :=
  gs ← slice_set (groups cfg) gi (Some gg);
  Ret (set_groups (ngroups cfg) (n cfg) gs cfg).

(** The object [gg.saved[i]] points at. *)
Definition saved_now (gg : group) (i : Z) : outcome (option Persister) :=
  sv ← slice_get (saved gg) i;
  kv ← slice_get (servers gg) i;
  Ret (match sv, kv with
       | Some _, Some kv => Some (persister (kv_rf kv))
       | _, _ => sv
       end).

(** [gg.endnames[i][j]] and the like; a nil row has no elements. *)
Definition name_at (rows : list (option (list Z))) (i j : Z) : outcome Z :=
  row ← slice_get rows i;
  slice_get (default [] row) j.

(** Disabling the named ends of row [i]. *)
Definition disableRow (rows : list (option (list Z))) (i : Z) (js : list Z) (cfg : config) : outcome config :=
  for_each (fun j cfg => e ← name_at rows i j; Ret (on_net (Enable e false) cfg)) js cfg.

Definition ShutdownServer (gi i : Z) (cfg : config) : outcome config :=
  gg ← getGroup gi cfg;
  cfg1 ← disableRow (endnames gg) i (seqZ 0 (len (servers gg))) cfg;
  mrow ← slice_get (mendnames gg) i;
  cfg2 ← disableRow (mendnames gg) i (seqZ 0 (len (default [] mrow))) cfg1;
  let cfg3 := on_net (DeleteServer (host (servername (gid gg) i))) cfg2 in
  sv ← saved_now gg i;
  svs ← slice_set (saved gg) i (Copy <$> sv);
  ss ← slice_set (servers gg) i None;
  putGroup gi (mkGroup (gid gg) ss svs (endnames gg) (mendnames gg)) cfg3.

Definition ShutdownGroup (gi : Z) (cfg : config) : outcome config :=
  for_each (fun i cfg => ShutdownServer gi i cfg) (seqZ 0 (n cfg)) cfg.

Definition StartServer (gi i : Z) (randstring : site -> Z) (cfg : config) : outcome config :=
  gg ← getGroup gi cfg;
  let rs j := randstring (GroupEnd gi i j) in
  let mrs j := randstring (GroupMasterEnd gi i j) in
  rows ← slice_set (endnames gg) i (Some (rs <$> seqZ 0 (n cfg)));
  cfg1 ← for_each (fun j cfg => openEndOf (rs j) (host (servername (gid gg) j)) cfg) (seqZ 0 (n cfg)) cfg;
  mrows ← slice_set (mendnames gg) i (Some (mrs <$> seqZ 0 (nmasters cfg)));
  cfg2 ← for_each (fun j cfg => openEndOf (mrs j) (host (mastername j)) cfg) (seqZ 0 (nmasters cfg)) cfg1;
  sv ← saved_now gg i;
  let ps := match sv with Some ps => Copy ps | None => MakePersister end in
  svs ← slice_set (saved gg) i (Some ps);
  let '(kv, _) := GroupServer.StartServer (n cfg) i ps (maxraftstate cfg) (gid gg) (mrs <$> seqZ 0 (nmasters cfg)) in
  ss ← slice_set (servers gg) i (Some kv);
  cfg3 ← putGroup gi (mkGroup (gid gg) ss svs rows mrows) cfg2;
  Ret (set_nextRef (S (nextRef cfg3)) (on_net (AddServer (host (servername (gid gg) i)) (nextRef cfg3)) cfg3)).

Definition StartGroup (gi : Z) (randstring : site -> Z) (cfg : config) : outcome config :=
  for_each (fun i cfg => StartServer gi i randstring cfg) (seqZ 0 (n cfg)) cfg.

Definition StartMasterServer (i : Z) (randstring : site -> Z) (cfg : config) : outcome config :=
  cfg1 ← for_each (fun j cfg => openEndOf (randstring (MasterEnd i j)) (host (mastername j)) cfg)
           (seqZ 0 (nmasters cfg)) cfg;
  let '(sm, _) := MasterServer.StartServer (nmasters cfg1) i MakePersister in
  ms ← slice_set (masterservers cfg1) i (Some sm);
  let cfg2 := set_masterservers ms cfg1 in
  Ret (set_nextRef (S (nextRef cfg2)) (on_net (AddServer (host (mastername i)) (nextRef cfg2)) cfg2)).

(** ** Clerks *)
Definition shardclerk (randstring : site -> Z) (cfg : config) : outcome (config * MasterClerk) :=
  let rs j := randstring (ShardClerkEnd j) in
  cfg1 ← for_each (fun j cfg => openEndOf (rs j) (host (mastername j)) cfg) (seqZ 0 (nmasters cfg)) cfg;
  Ret (cfg1, MakeMasterClerk (rs <$> seqZ 0 (nmasters cfg))).

(** [endnames] has [cfg.n] elements and is filled in the loop over the masters. *)
Definition makeClient (randstring : site -> Z) (cfg : config) : outcome (config * nat * ShardClerk) :=
  let ck := nextRef cfg in
  let rs j := randstring (ClientEnd ck j) in
  '(cfg1, names) ← for_each (fun j '(cfg, names) =>
      names' ← slice_set names j (rs j);
      cfg' ← openEndOf (rs j) (host (mastername j)) cfg;
      Ret (cfg', names')) (seqZ 0 (nmasters cfg)) (cfg, replicate (Z.to_nat (n cfg)) 0);
  let cfg2 := set_clerks (<[ck := names]> (clerks cfg1)) (nextClientId cfg1 + 1) cfg1 in
  Ret (set_nextRef (S ck) cfg2, ck, MakeShardClerk (rs <$> seqZ 0 (nmasters cfg))).

Definition deleteClient (ck : nat) (cfg : config) : config :=
  set_clerks (delete ck (clerks cfg)) (nextClientId cfg) cfg.

(** ** Joining and leaving *)
Definition servernames (cfg : config) (gid : Z) : list string := servername gid <$> seqZ 0 (n cfg).

(** The map [joinm] sends. *)
Fixpoint joinMap (cfg : config) (gis : list Z) (m : gmap Z (list string)) : outcome (gmap Z (list string)) :=
  match gis with
  | [] => Ret m
  | g :: gis' =>
      gg ← getGroup g cfg;
      joinMap cfg gis' (<[gid gg := servernames cfg (gid gg)]> m)
  end.

(** The clerk's call; a nil clerk is dereferenced. *)
Definition withClerk {A} (cfg : config) (f : MasterClerk -> A) : outcome A :=
  match mck cfg with Some ck => Ret (f ck) | None => Panic end.

Definition joinm (fuel : nat) (mnet : nat -> Z -> JoinArgs -> option MasterReply) (t : nat)
    (gis : list Z) (cfg : config) : outcome (nat * option unit) :=
  m ← joinMap cfg gis ∅;
  withClerk cfg (fun ck => ShardMaster.Join fuel mnet t ck m).
Definition join fuel mnet t (gi : Z) (cfg : config) : outcome (nat * option unit) :=
  joinm fuel mnet t [gi] cfg.

Fixpoint leaveGids (cfg : config) (gis : list Z) : outcome (list Z) :=
  match gis with
  | [] => Ret []
  | g :: gis' => gg ← getGroup g cfg; rest ← leaveGids cfg gis'; Ret (gid gg :: rest)
  end.
Definition leavem (fuel : nat) (mnet : nat -> Z -> LeaveArgs -> option MasterReply) (t : nat)
    (gis : list Z) (cfg : config) : outcome (nat * option unit) :=
  gids ← leaveGids cfg gis;
  withClerk cfg (fun ck => ShardMaster.Leave fuel mnet t ck gids).
Definition leave fuel mnet t (gi : Z) (cfg : config) : outcome (nat * option unit) :=
  leavem fuel mnet t [gi] cfg.

(** ** The life of a test *)
Inductive log_failure : Type :=
| StateTooBig (raft maxraftstate : Z)
| UnwantedSnapshot.

Definition checkServer (gg : group) (mx i : Z) : verdict log_failure unit :=
  sv ← lift (saved_now gg i);
  match sv with
  | None => Crash
  | Some ps =>
      let raft := RaftStateSize ps in
      let snap := len (ReadSnapshot ps) in
      if (0 <=? mx) && (2 * mx <? raft) then Fatal (StateTooBig raft mx)
      else if (mx <? 0) && (0 <? snap) then Fatal UnwantedSnapshot
      else Pass ()
  end.
Fixpoint checkGroup (gg : group) (mx : Z) (idxs : list Z) : verdict log_failure unit :=
  match idxs with [] => Pass () | i :: idxs' => _ ← checkServer gg mx i; checkGroup gg mx idxs' end.
Fixpoint checkGroups (cfg : config) (gis : list Z) : verdict log_failure unit :=
  match gis with
  | [] => Pass ()
  | gi :: gis' =>
      gg ← lift (getGroup gi cfg);
      _ ← checkGroup gg (maxraftstate cfg) (seqZ 0 (n cfg));
      checkGroups cfg gis'
  end.
Definition checklogs (cfg : config) : verdict log_failure unit := checkGroups cfg (seqZ 0 (ngroups cfg)).

Definition cleanup (cfg : config) : outcome config :=
  cfg1 ← for_each (fun gi cfg => ShutdownGroup gi cfg) (seqZ 0 (ngroups cfg)) cfg;
  rn ← Cleanup (net cfg1);
  Ret (set_net rn cfg1).

(** A group before its servers are started. *)
Definition freshGroup (gi m nmasters : Z) : group :=
  let k := Z.to_nat m in
  mkGroup (100 + gi) (replicate k None) (replicate k None) (replicate k None)
    (replicate (Z.to_nat nmasters) None).

Definition fresh_config (mx : Z) : config :=
  mkShardConfig MakeNetwork 3 (replicate 3 None) None 0 0 [] ∅ 0 mx 0.

Definition make_config (m : Z) (unreliable : bool) (mx : Z) (randstring : site -> Z) : outcome config :=
  cfg1 ← for_each (fun i cfg => StartMasterServer i randstring cfg) (seqZ 0 3) (fresh_config mx);
  '(cfg2, ck) ← shardclerk randstring cfg1;
  let cfg3 := set_groups 3 m (replicate 3 None) (set_mck ck cfg2) in
  cfg4 ← for_each (fun gi cfg =>
      cfg' ← putGroup gi (freshGroup gi m (nmasters cfg)) cfg;
      for_each (fun i cfg => StartServer gi i randstring cfg) (seqZ 0 m) cfg') (seqZ 0 3) cfg3;
  Ret (on_net (Reliable (negb unreliable)) (set_clerks ∅ (m + 1000) cfg4)).
