(* ===== verification/ShardKVTests.v ===== *)
(** * What the sharded store's tester sets up

    Server names never clash; [make_config] wires masters, clerk and groups as
    intended for up to three servers per group and panics beyond; [makeClient]
    needs at least three; and every server a joining group announces runs. *)

From stdpp Require Import base list list_numbers gmap strings pretty.
From S2P Require Import Prelude Names Gob RaftNode RaftNodeFacts LabRpc Harness ShardMaster ShardClient ShardServers ShardKVConfig.
Open Scope Z_scope.

(** ** Names *)
Lemma servername_inj g i g' i' :
  0 <= g -> 0 <= g' -> servername g i = servername g' i' -> g = g' /\ i = i'.
Proof.
  intros Hg Hg' E. unfold servername in E. apply (inj (String.append "server-")) in E.
  apply split_dash in E as [E1 E2]; [|by apply Itoa_nodash..].
  by split; [apply (inj pretty) in E1|apply (inj pretty) in E2].
Qed.

Lemma mastername_inj i i' : mastername i = mastername i' -> i = i'.
Proof. unfold mastername. intros E. apply (inj (String.append "master")) in E. by apply (inj pretty). Qed.

Lemma host_inj a b : host a = host b -> a = b.
Proof. unfold host. intros [= E]. by apply (inj encode). Qed.

(** No two servers of the sharded store's tester share a name: the masters
    are told apart by their number, the servers of the replica groups by group and
    number, and no master is called like a server.  This is what keeps AddServer
    from replacing one server by another. *)
Theorem server_names_distinct g i g' i' :
  0 <= g -> 0 <= g' ->
  (host (servername g i) = host (servername g' i') <-> g = g' /\ i = i') /\
  (host (mastername i) = host (mastername i') <-> i = i') /\
  host (mastername i) <> host (servername g' i').
Proof.
  intros Hg Hg'. split_and!.
  - split; [intros E%host_inj; by apply servername_inj|by intros [-> ->]].
  - split; [intros E%host_inj; by apply mastername_inj|by intros ->].
  - by intros E%host_inj.
Qed.

(** ** Wiring *)

(** Where the end drawn at a site leads. *)
Definition target (s : site) : Z :=
  match s with
  | MasterEnd _ j | ShardClerkEnd j | GroupMasterEnd _ _ j | ClientEnd _ j => host (mastername j)
  | GroupEnd gi _ j => host (servername (100 + gi) j)
  end.

Section Wiring.
Context (rs : site -> Z).
Hypothesis Hinj : forall s s', rs s = rs s' -> s = s'.

(** Exactly the sites of [P] have been drawn; their ends are enabled and lead to
    their targets. *)
Record wired (P : site -> Prop) (rn : Network) : Prop := {
  w_ends e : e ∈ ends rn -> exists s, P s /\ e = rs s;
  w_leads s : P s -> connections rn !! rs s = Some (Some (target s)) /\ isEnabled rn (rs s) = true
}.

Lemma wired_iff (P Q : site -> Prop) rn : (forall s, P s <-> Q s) -> wired P rn -> wired Q rn.
Proof.
  intros H [W1 W2]. split; [|intros s Hs; apply W2; by apply H].
  intros e (s & Hs & ->)%W1. exists s. split; [by apply H|done].
Qed.

Lemma wired_openEnd P rn s :
  wired P rn -> ~ P s -> exists rn', openEnd (rs s) (target s) rn = Ret rn' /\
    wired (fun s' => P s' \/ s' = s) rn' /\ LabRpc.servers rn' = LabRpc.servers rn.
Proof.
  intros [W1 W2] Hs. unfold openEnd, MakeEnd. rewrite decide_False.
  2:{ intros (s' & Hs' & E)%W1. apply Hinj in E as ->. done. }
  cbn [mbind outcome_bind]. eexists. split; [done|]. split; [|done]. split; simpl.
  - intros e [->%elem_of_singleton|He]%elem_of_union; [by exists s; auto|].
    destruct (W1 e He) as (s' & ? & ->). eauto.
  - intros s' Hs'. rewrite isEnabled_Enable. destruct (decide (s' = s)) as [->|Hne].
    + by rewrite !lookup_insert_eq, decide_True.
    + assert (rs s <> rs s') by (intros E; by apply Hinj in E). destruct Hs' as [Hs'|?]; [|done].
      rewrite !lookup_insert_ne, decide_False by done. unfold isEnabled. simpl.
      rewrite lookup_insert_ne by done. by apply W2.
Qed.

(** A loop that opens the ends of the sites [f j]. *)
Lemma wired_loop P (f : Z -> site) l rn cfg :
  (forall j k, f j = f k -> j = k) -> NoDup l -> (forall j, j ∈ l -> ~ P (f j)) -> wired P rn ->
  exists rn', for_each (fun j c => openEndOf (rs (f j)) (target (f j)) c) l (set_net rn cfg) = Ret (set_net rn' cfg) /\
    wired (fun s => P s \/ exists j, j ∈ l /\ s = f j) rn' /\ LabRpc.servers rn' = LabRpc.servers rn.
Proof.
  intros Hf. revert P rn. induction l as [|j l IH]; intros P rn Hnd Hnew W; cbn [for_each].
  { exists rn. split; [done|]. split; [|done]. eapply wired_iff; [|done]. intros s. split; [auto|].
    intros [?|(j & ?%elem_of_nil & _)]; done. }
  apply NoDup_cons in Hnd as [Hj Hnd].
  destruct (wired_openEnd P rn (f j)) as (rn1 & H1 & W1 & E1); [done|apply Hnew; by left|].
  assert (openEndOf (rs (f j)) (target (f j)) (set_net rn cfg) = Ret (set_net rn1 cfg)) as ->.
  { unfold openEndOf. cbn [net set_net]. by rewrite H1. }
  cbn [mbind outcome_bind].
  destruct (IH (fun s => P s \/ s = f j) rn1) as (rn2 & H2 & W2 & E2); [done| |done|].
  { intros k Hk [HP|E%Hf]; [by apply (Hnew k); [right|]|by subst]. }
  exists rn2. split; [done|]. split; [|congruence]. eapply wired_iff; [|exact W2].
  intros s. setoid_rewrite elem_of_cons. split.
  - intros [[?| ->]|(k & ? & ->)]; [auto|right; exists j; auto|right; exists k; auto].
  - intros [?|(k & [->|?] & ->)]; [auto|auto|right; exists k; auto].
Qed.

(** ** Masters and their clerk *)

(** What a registered server leaves running. *)
Definition running (rn : Network) (h : Z) : Prop := exists r, LabRpc.servers rn !! h = Some (Some r).

Lemma running_insert rn rn' h h' r :
  LabRpc.servers rn' = <[h := Some r]> (LabRpc.servers rn) -> running rn h' \/ h' = h -> running rn' h'.
Proof.
  intros E H. unfold running. rewrite E. destruct (decide (h' = h)) as [->|Hne].
  - rewrite lookup_insert_eq. by eexists.
  - rewrite lookup_insert_ne by done. by destruct H.
Qed.

Definition masters_drawn (k : Z) (s : site) : Prop :=
  match s with MasterEnd i j => 0 <= i < k /\ 0 <= j < 3 | _ => False end.

Definition masters_up (k : Z) (rn : Network) : Prop := forall i, 0 <= i < k -> running rn (host (mastername i)).

Lemma StartMasterServer_ok cfg k :
  0 <= k < 3 -> nmasters cfg = 3 -> len (masterservers cfg) = 3 -> wired (masters_drawn k) (net cfg) ->
  masters_up k (net cfg) ->
  exists ms rn, StartMasterServer k rs cfg =
      Ret (set_nextRef (S (nextRef cfg)) (set_net rn (set_masterservers ms cfg))) /\
    len ms = 3 /\ wired (masters_drawn (k + 1)) rn /\ masters_up (k + 1) rn.
Proof.
  intros Hk Hm Hl W Up. unfold StartMasterServer.
  destruct (wired_loop (masters_drawn k) (MasterEnd k) (seqZ 0 3) (net cfg) cfg) as (rn & Hloop & W' & Es).
  { by intros j j' [= ->]. } { apply NoDup_seqZ. } { intros j _ [? _]. lia. } { done. }
  assert (Hself : set_net (net cfg) cfg = cfg) by (by destruct cfg). rewrite Hself in Hloop. rewrite Hm.
  cbn [target] in Hloop. rewrite Hloop. cbn [mbind outcome_bind].
  destruct (MasterServer.StartServer _ _ _) as [sm msgs]. unfold slice_set. rewrite decide_True by (simpl; lia).
  cbn [mbind outcome_bind]. 
  exists (<[Z.to_nat k := Some sm]> (masterservers cfg)), (AddServer (host (mastername k)) (nextRef cfg) rn).
  split; [done|]. split_and!.
  - unfold len. by rewrite length_insert.
  - destruct W' as [W1 W2]. eapply wired_iff; [|split; [exact W1|exact W2]].
    intros s. setoid_rewrite elem_of_seqZ. destruct s as [i j| | | |]; simpl; split; intros Hs;
      try (destruct Hs as [Hs|(j' & _ & E)]; done); try done.
    + destruct Hs as [Hs|(j' & Hj & [= -> ->])]; lia.
    + destruct (decide (i = k)) as [->|]; [right; exists j; split; [lia|done]|left; lia].
  - intros i Hi. eapply running_insert; [simpl; by rewrite Es|].
    destruct (decide (i = k)) as [->|]; [by right|left; apply Up; lia].
Qed.

(** ** Replica groups *)

(** Server [k] of group [g] comes before server [i] of group [gi]. *)
Definition earlier (m gi i g k : Z) : Prop := 0 <= g /\ 0 <= k /\ ((g < gi /\ k < m) \/ (g = gi /\ k < i)).

Definition groups_drawn (m gi i : Z) (s : site) : Prop :=
  match s with
  | MasterEnd a b => 0 <= a < 3 /\ 0 <= b < 3
  | ShardClerkEnd b => 0 <= b < 3
  | GroupEnd g k j => earlier m gi i g k /\ 0 <= j < m
  | GroupMasterEnd g k j => earlier m gi i g k /\ 0 <= j < 3
  | ClientEnd _ _ => False
  end.

Definition group_ok (m gi : Z) (gg : group) : Prop :=
  gid gg = 100 + gi /\ len (servers gg) = m /\ len (saved gg) = m /\ len (endnames gg) = m /\
  len (mendnames gg) = 3.

(** The groups before [gi] have been started and the first [i] servers of group
    [gi]; the group records up to [top] exist. *)
Record booting (m gi i top : Z) (cfg : config) : Prop := {
  b_nmasters : nmasters cfg = 3;
  b_n : n cfg = m;
  b_ngroups : ngroups cfg = 3;
  b_groups : len (groups cfg) = 3;
  b_mck : is_Some (mck cfg);
  b_group g : 0 <= g < top -> exists gg, groups cfg !! Z.to_nat g = Some (Some gg) /\ group_ok m g gg;
  b_wired : wired (groups_drawn m gi i) (net cfg);
  b_masters : masters_up 3 (net cfg);
  b_servers g k : earlier m gi i g k -> running (net cfg) (host (servername (100 + g) k))
}.

Lemma getGroup_ok m gi i cfg :
  booting m gi i (gi + 1) cfg -> 0 <= gi < 3 -> exists gg, getGroup gi cfg = Ret gg /\ group_ok m gi gg.
Proof.
  intros B Hg. destruct (b_group _ _ _ _ _ B gi) as (gg & E & Hok); [lia|]. exists gg. split; [|done].
  unfold getGroup. assert (slice_get (groups cfg) gi = Ret (Some gg)) as -> by (apply slice_get_Ret; split; [lia|done]).
  done.
Qed.

Lemma saved_now_total m gi gg i : group_ok m gi gg -> 0 <= i < m -> exists sv, saved_now gg i = Ret sv.
Proof.
  intros (_ & L1 & L2 & _) Hi. unfold saved_now. destruct (slice_get_in (saved gg) i) as [sv ->]; [lia|].
  destruct (slice_get_in (servers gg) i) as [kv ->]; [lia|]. by eexists.
Qed.

(** The ends of a new server: to its group and to the masters. *)
Lemma open_server m gi i cfg :
  booting m gi i (gi + 1) cfg -> 0 <= gi < 3 -> 0 <= i < m -> exists rn1 rn2,
    for_each (fun j c => openEndOf (rs (GroupEnd gi i j)) (host (servername (100 + gi) j)) c) (seqZ 0 m) cfg =
      Ret (set_net rn1 cfg) /\
    for_each (fun j c => openEndOf (rs (GroupMasterEnd gi i j)) (host (mastername j)) c) (seqZ 0 3) (set_net rn1 cfg) =
      Ret (set_net rn2 cfg) /\
    wired (groups_drawn m gi (i + 1)) rn2 /\ LabRpc.servers rn2 = LabRpc.servers (net cfg).
Proof.
  intros B Hg Hi. pose proof (b_wired _ _ _ _ _ B) as W.
  destruct (wired_loop (groups_drawn m gi i) (GroupEnd gi i) (seqZ 0 m) (net cfg) cfg) as (rn1 & H1 & W1 & E1).
  { by intros j k [= ->]. } { apply NoDup_seqZ. } { intros j _ [[_ [_ ?]] _]. lia. } { exact W. }
  set (P1 := fun s : site => groups_drawn m gi i s \/ _) in W1.
  destruct (wired_loop P1 (GroupMasterEnd gi i) (seqZ 0 3) rn1 cfg) as (rn2 & H2 & W2 & E2); [| | |exact W1|].
  { by intros j k [= ->]. } { apply NoDup_seqZ. }
  { intros j _ [[[_ [_ ?]] _]|(k & _ & ?)]; [lia|done]. }
  assert (Hself : set_net (net cfg) cfg = cfg) by (by destruct cfg). rewrite Hself in H1.
  exists rn1, rn2. split_and!; [exact H1|exact H2| |congruence].
  eapply wired_iff; [|exact W2]. intros s. setoid_rewrite elem_of_seqZ. unfold P1, groups_drawn, earlier.
  setoid_rewrite elem_of_seqZ.
  destruct s as [a b|b|g k j|g k j|c j]; split; try done; try tauto;
    try (intros [[?|(x & ? & ?)]|(x & ? & ?)]; done).
  - intros [[H|(x & Hx & [= -> -> ->])]|(x & _ & ?)]; [|split; lia|done]. split; lia.
  - intros H. left. destruct (decide (g = gi /\ k = i)) as [[-> ->]|Hne]; [right; exists j; split; [lia|done]|].
    left. split; lia.
  - intros [[H|(x & _ & ?)]|(x & Hx & [= -> -> ->])]; [split; lia|done|split; lia].
  - intros H. destruct (decide (g = gi /\ k = i)) as [[-> ->]|Hne]; [right; exists j; split; [lia|done]|].
    left. left. split; lia.
Qed.

(** The configuration after server [i] of group [gi] was started. *)
Definition server_started (gi i : Z) (gg : group) (rn : Network) (cfg : config) : config :=
  mkShardConfig (AddServer (host (servername (100 + gi) i)) (nextRef cfg) rn) (nmasters cfg) (masterservers cfg)
    (mck cfg) (ngroups cfg) (n cfg) (<[Z.to_nat gi := Some gg]> (groups cfg)) (clerks cfg)
    (nextClientId cfg) (maxraftstate cfg) (S (nextRef cfg)).

Lemma StartServer_eq m gi i cfg :
  booting m gi i (gi + 1) cfg -> 0 <= gi < 3 -> 0 <= i < m -> i < 3 -> exists gg rn,
    StartServer gi i rs cfg = Ret (server_started gi i gg rn cfg) /\ group_ok m gi gg /\
    wired (groups_drawn m gi (i + 1)) rn /\ LabRpc.servers rn = LabRpc.servers (net cfg).
Proof.
  intros B Hg Hi Hi3. destruct (getGroup_ok _ _ _ _ B Hg) as (gg & Hgg & Hok).
  destruct (open_server _ _ _ _ B Hg Hi) as (rn1 & rn2 & H1 & H2 & W & E).
  destruct (saved_now_total _ _ _ _ Hok Hi) as [sv Hsv]. destruct Hok as (Eg & L1 & L2 & L3 & L4).
  unfold StartServer. rewrite Hgg. cbn [mbind outcome_bind]. rewrite (b_n _ _ _ _ _ B), (b_nmasters _ _ _ _ _ B), Eg.
  pose proof (b_groups _ _ _ _ _ B) as Lg. unfold putGroup.
  rewrite (slice_set_in (endnames gg)) by lia. cbn [mbind outcome_bind]. rewrite H1. cbn [mbind outcome_bind].
  rewrite (slice_set_in (mendnames gg)) by lia. cbn [mbind outcome_bind]. rewrite H2. cbn [mbind outcome_bind].
  rewrite Hsv. cbn [mbind outcome_bind]. rewrite (slice_set_in (saved gg)) by lia. cbn [mbind outcome_bind].
  destruct (GroupServer.StartServer _ _ _ _ _ _) as [kv msgs].
  rewrite (slice_set_in (servers gg)) by lia. cbn [mbind outcome_bind].
  rewrite slice_set_in by (simpl; lia). cbn [mbind outcome_bind]. set (gg' := mkGroup _ _ _ _ _). exists gg', rn2. split; [done|]. split; [|done].
  unfold gg', group_ok, len in *. simpl. by rewrite !length_insert.
Qed.

Lemma StartServer_ok m gi i cfg :
  booting m gi i (gi + 1) cfg -> 0 <= gi < 3 -> 0 <= i < m -> i < 3 ->
  exists cfg', StartServer gi i rs cfg = Ret cfg' /\ booting m gi (i + 1) (gi + 1) cfg'.
Proof.
  intros B Hg Hi Hi3. destruct (StartServer_eq _ _ _ _ B Hg Hi Hi3) as (gg & rn & -> & Hok & W & E).
  eexists. split; [done|]. pose proof (b_groups _ _ _ _ _ B) as Lg. unfold len in Lg.
  assert (Hrun : forall h, running (net cfg) h \/ h = host (servername (100 + gi) i) ->
    running (AddServer (host (servername (100 + gi) i)) (nextRef cfg) rn) h).
  { intros h Hh. eapply running_insert; [simpl; by rewrite E|done]. }
  split; simpl; try apply B.
  - unfold len. by rewrite length_insert.
  - intros g Hgt. destruct (decide (g = gi)) as [->|].
    + exists gg. split; [|done]. apply list_lookup_insert_eq. lia.
    + rewrite list_lookup_insert_ne by lia. by apply (b_group _ _ _ _ _ B).
  - split; apply W.
  - intros k Hk. apply Hrun. left. by apply (b_masters _ _ _ _ _ B).
  - intros g k (H1 & H2 & H3). apply Hrun. destruct (decide (g = gi /\ k = i)) as [[-> ->]|]; [by right|].
    left. apply (b_servers _ _ _ _ _ B). unfold earlier. lia.
Qed.

(** [openEndOf] returns or panics. *)
Lemma open_loop_no_block (f : Z -> Z) h l cfg : for_each (fun j c => openEndOf (f j) (h j) c) l cfg <> Block.
Proof.
  revert cfg. induction l as [|j l IH]; intros cfg; [done|]. cbn [for_each].
  destruct (openEndOf (f j) (h j) cfg) as [c| |] eqn:E; cbn [mbind outcome_bind]; [apply IH|done|].
  unfold openEndOf, openEnd, MakeEnd in E. by case_decide.
Qed.

(** The fourth server of a group has no slot for its ends to the masters. *)
Lemma StartServer_panics m gi i cfg :
  booting m gi i (gi + 1) cfg -> 0 <= gi < 3 -> 3 <= i < m -> StartServer gi i rs cfg = Panic.
Proof.
  intros B Hg Hi. destruct (getGroup_ok _ _ _ _ B Hg) as (gg & Hgg & Eg & L1 & L2 & L3 & L4).
  unfold StartServer. rewrite Hgg. cbn [mbind outcome_bind]. rewrite (b_n _ _ _ _ _ B).
  rewrite (slice_set_in (endnames gg)) by lia. cbn [mbind outcome_bind].
  destruct (for_each _ (seqZ 0 m) cfg) as [c1| |] eqn:E; [|done|by apply open_loop_no_block in E].
  cbn [mbind outcome_bind].
  destruct (slice_set (mendnames gg) i _) as [l| |] eqn:Es; [|done|by apply slice_set_not_Block in Es].
  apply slice_set_Ret in Es as [? _]. lia.
Qed.

(** The servers of one group, as far as there are slots. *)
Lemma StartGroup_ok m gi cfg (k : nat) :
  booting m gi 0 (gi + 1) cfg -> 0 <= gi < 3 -> Z.of_nat k <= m -> Z.of_nat k <= 3 ->
  exists cfg', for_each (fun i c => StartServer gi i rs c) (seqZ 0 (Z.of_nat k)) cfg = Ret cfg' /\
    booting m gi (Z.of_nat k) (gi + 1) cfg'.
Proof.
  intros B Hg. induction k as [|k IH]; intros H1 H2; [by exists cfg|].
  destruct IH as (c1 & E1 & B1); [lia|lia|].
  destruct (StartServer_ok _ _ _ _ B1 Hg) as (c2 & E2 & B2); [lia|lia|]. exists c2.
  replace (Z.of_nat (S k)) with (Z.of_nat k + 1) by lia. split; [|done].
  rewrite seqZ_app, for_each_app, E1 by lia. cbn [mbind outcome_bind].
  change (seqZ (0 + Z.of_nat k) 1) with [0 + Z.of_nat k]. cbn [for_each]. by rewrite Z.add_0_l, E2.
Qed.

(** ** make_config *)
Definition masters_state (rn : Network) (ms : list (option MasterServer.ShardMaster)) (mx : Z) (ref : nat) : config :=
  mkShardConfig rn 3 ms None 0 0 [] ∅ 0 mx ref.

Lemma masters_boot mx (k : nat) : Z.of_nat k <= 3 -> exists rn ms ref,
  for_each (fun i c => StartMasterServer i rs c) (seqZ 0 (Z.of_nat k)) (fresh_config mx) =
    Ret (masters_state rn ms mx ref) /\
  len ms = 3 /\ wired (masters_drawn (Z.of_nat k)) rn /\ masters_up (Z.of_nat k) rn.
Proof.
  induction k as [|k IH]; intros Hk.
  { exists MakeNetwork, (replicate 3 None), 0%nat. split_and!; try done; [|intros i ?; lia].
    split; [intros e He; by apply not_elem_of_empty in He|intros [ | | | | ] ?; simpl in *; lia]. }
  destruct IH as (rn & ms & ref & E & L & W & Up); [lia|].
  destruct (StartMasterServer_ok (masters_state rn ms mx ref) (Z.of_nat k)) as (ms' & rn' & E' & L' & W' & Up');
    try done; [lia|]. exists rn', ms', (S ref). replace (Z.of_nat (S k)) with (Z.of_nat k + 1) by lia.
  split_and!; try done. rewrite seqZ_app, for_each_app, E by lia. cbn [mbind outcome_bind].
  change (seqZ (0 + Z.of_nat k) 1) with [0 + Z.of_nat k]. cbn [for_each]. by rewrite Z.add_0_l, E'.
Qed.

(** The clerk of the masters, and the empty groups. *)
Lemma clerk_boot m mx rn ms ref :
  len ms = 3 -> wired (masters_drawn 3) rn -> masters_up 3 rn -> exists cfg2 ck,
    shardclerk rs (masters_state rn ms mx ref) = Ret (cfg2, ck) /\
    booting m 0 0 0 (set_groups 3 m (replicate 3 None) (set_mck ck cfg2)).
Proof.
  intros L W Up. unfold shardclerk.
  destruct (wired_loop (masters_drawn 3) ShardClerkEnd (seqZ 0 3) rn (masters_state rn ms mx ref))
    as (rn' & H & W' & E); [by intros j k [= ->]|apply NoDup_seqZ|by intros j _ []|done|].
  change (set_net rn (masters_state rn ms mx ref)) with (masters_state rn ms mx ref) in H.
  cbn [target] in H. change (nmasters (masters_state rn ms mx ref)) with 3. rewrite H. cbn [mbind outcome_bind].
  eexists _, _. split; [done|]. split; simpl; try done.
  - intros g ?. lia.
  - eapply wired_iff; [|exact W']. intros s. setoid_rewrite elem_of_seqZ.
    destruct s as [a b|b|g k j|g k j|c j]; simpl; unfold earlier; split; intros Hs; try (left; lia);
      try (destruct Hs as [Hs|(x & Hx & Hs)]; first [lia|done|injection Hs as ->; lia]); try lia.
    right. exists b. split; [lia|done].
  - intros i Hi. destruct (Up i Hi) as [r Hr]. exists r. by rewrite E.
  - intros g k (? & ? & ?). lia.
Qed.

Lemma booting_iff m gi i gi' i' top cfg :
  (forall g k, earlier m gi i g k <-> earlier m gi' i' g k) -> booting m gi i top cfg -> booting m gi' i' top cfg.
Proof.
  intros He B. split; try apply B.
  - eapply wired_iff; [|exact (b_wired _ _ _ _ _ B)]. intros [ | | | | ]; simpl; rewrite ?He; done.
  - intros g k Hg. apply (b_servers _ _ _ _ _ B). by apply He.
Qed.

(** A new group record. *)
Lemma putGroup_ok m gi cfg :
  booting m gi 0 gi cfg -> 0 <= gi < 3 -> 0 <= m -> exists cfg',
    putGroup gi (freshGroup gi m (nmasters cfg)) cfg = Ret cfg' /\ booting m gi 0 (gi + 1) cfg'.
Proof.
  intros B Hg Hm. pose proof (b_groups _ _ _ _ _ B) as L. unfold putGroup. rewrite slice_set_in by lia.
  cbn [mbind outcome_bind]. eexists. split; [done|]. unfold len in L. split; simpl; try apply B.
  - unfold len. by rewrite length_insert.
  - intros g Hgt. destruct (decide (g = gi)) as [->|].
    + eexists. split; [apply list_lookup_insert_eq; lia|]. rewrite (b_nmasters _ _ _ _ _ B).
      unfold group_ok, len. simpl. rewrite !length_replicate. split_and!; done || lia.
    + rewrite list_lookup_insert_ne by lia. apply (b_group _ _ _ _ _ B). lia.
Qed.

(** The body of the loop over the groups. *)
Definition bootGroup (m gi : Z) (cfg : config) : outcome config :=
  cfg' ← putGroup gi (freshGroup gi m (nmasters cfg)) cfg;
  for_each (fun i cfg => StartServer gi i rs cfg) (seqZ 0 m) cfg'.

Lemma bootGroup_ok m gi cfg :
  booting m gi 0 gi cfg -> 0 <= gi < 3 -> 0 <= m <= 3 ->
  exists cfg', bootGroup m gi cfg = Ret cfg' /\ booting m (gi + 1) 0 (gi + 1) cfg'.
Proof.
  intros B Hg Hm. destruct (putGroup_ok _ _ _ B Hg) as (c1 & E1 & B1); [lia|].
  destruct (StartGroup_ok m gi c1 (Z.to_nat m) B1 Hg) as (c2 & E2 & B2); [lia|lia|].
  rewrite Z2Nat.id in * by lia. exists c2. unfold bootGroup. rewrite E1. cbn [mbind outcome_bind].
  split; [done|]. eapply booting_iff; [|exact B2]. intros g k. unfold earlier. lia.
Qed.

Lemma bootGroup_panics m gi cfg :
  booting m gi 0 gi cfg -> 0 <= gi < 3 -> 3 < m -> bootGroup m gi cfg = Panic.
Proof.
  intros B Hg Hm. destruct (putGroup_ok _ _ _ B Hg) as (c1 & E1 & B1); [lia|].
  destruct (StartGroup_ok m gi c1 3 B1 Hg) as (c2 & E2 & B2); [lia|lia|].
  unfold bootGroup. rewrite E1. cbn [mbind outcome_bind].
  replace m with (3 + (1 + (m - 4))) by lia. rewrite seqZ_app, for_each_app by lia.
  change (Z.of_nat 3) with 3 in *. rewrite E2. cbn [mbind outcome_bind].
  rewrite seqZ_cons by lia. cbn [for_each]. by rewrite (StartServer_panics m gi (0 + 3) c2 B2) by lia.
Qed.

Lemma make_config_boot m mx : exists cfg3, booting m 0 0 0 cfg3 /\
  forall unreliable, make_config m unreliable mx rs =
    (cfg4 ← for_each (fun gi cfg => bootGroup m gi cfg) (seqZ 0 3) cfg3;
     Ret (on_net (Reliable (negb unreliable)) (set_clerks ∅ (m + 1000) cfg4))).
Proof.
  destruct (masters_boot mx 3) as (rn & ms & ref & E & L & W & Up); [lia|].
  destruct (clerk_boot m mx rn ms ref L W Up) as (cfg2 & ck & E2 & B). change (Z.of_nat 3) with 3 in *.
  eexists. split; [exact B|]. intros unreliable. unfold make_config. rewrite E. cbn [mbind outcome_bind].
  rewrite E2. done.
Qed.

Lemma groups_boot m cfg3 (k : nat) :
  booting m 0 0 0 cfg3 -> 0 <= m <= 3 -> Z.of_nat k <= 3 -> exists cfg,
    for_each (fun gi cfg => bootGroup m gi cfg) (seqZ 0 (Z.of_nat k)) cfg3 = Ret cfg /\
    booting m (Z.of_nat k) 0 (Z.of_nat k) cfg.
Proof.
  intros B Hm. induction k as [|k IH]; intros Hk; [by exists cfg3|]. destruct IH as (c1 & E1 & B1); [lia|].
  destruct (bootGroup_ok m (Z.of_nat k) c1 B1) as (c2 & E2 & B2); [lia|done|]. exists c2.
  replace (Z.of_nat (S k)) with (Z.of_nat k + 1) by lia. split; [|done].
  rewrite seqZ_app, for_each_app, E1 by lia. cbn [mbind outcome_bind].
  change (seqZ (0 + Z.of_nat k) 1) with [0 + Z.of_nat k]. cbn [for_each]. by rewrite Z.add_0_l, E2.
Qed.

Lemma make_config_ok m unreliable mx :
  0 <= m <= 3 -> exists cfg, make_config m unreliable mx rs = Ret cfg /\ booting m 3 0 3 cfg /\
    reliable (net cfg) = negb unreliable.
Proof.
  intros Hm. destruct (make_config_boot m mx) as (cfg3 & B & E).
  destruct (groups_boot m cfg3 3 B Hm) as (cfg4 & E4 & B4); [lia|]. change (Z.of_nat 3) with 3 in *.
  rewrite E, E4. cbn [mbind outcome_bind]. eexists. split; [done|]. split; [|done].
  split; simpl; try apply B4. split; apply (b_wired _ _ _ _ _ B4).
Qed.

Lemma make_config_big m unreliable mx : 3 < m -> make_config m unreliable mx rs = Panic.
Proof.
  intros Hm. destruct (make_config_boot m mx) as (cfg3 & B & E). rewrite E, seqZ_cons by lia. cbn [for_each].
  by rewrite (bootGroup_panics m 0 cfg3 B) by lia.
Qed.

(** ** Clerks *)
Definition clientBody (ck : nat) (j : Z) (st : config * list Z) : outcome (config * list Z) :=
  let '(cfg, names) := st in
  names' ← slice_set names j (rs (ClientEnd ck j));
  cfg' ← openEndOf (rs (ClientEnd ck j)) (host (mastername j)) cfg;
  Ret (cfg', names').

Lemma client_loop m cfg ck (k : nat) :
  wired (groups_drawn m 3 0) (net cfg) -> Z.of_nat k <= m -> exists rn names,
    for_each (clientBody ck) (seqZ 0 (Z.of_nat k)) (cfg, replicate (Z.to_nat m) 0) = Ret (set_net rn cfg, names) /\
    len names = m /\ wired (fun s => groups_drawn m 3 0 s \/ exists j, 0 <= j < Z.of_nat k /\ s = ClientEnd ck j) rn.
Proof.
  intros W. induction k as [|k IH]; intros Hk.
  { exists (net cfg), (replicate (Z.to_nat m) 0). split_and!.
    - simpl. by destruct cfg.
    - unfold len. rewrite length_replicate. lia.
    - eapply wired_iff; [|exact W]. intros s. split; [auto|]. intros [?|(j & ? & _)]; [done|lia]. }
  destruct IH as (rn & names & E & L & W'); [lia|]. set (P := fun s : site => _) in W'.
  destruct (wired_openEnd P rn (ClientEnd ck (Z.of_nat k))) as (rn' & H1 & W1 & _); [done| |].
  { intros [[]|(j & ? & [= ?])]. lia. }
  exists rn', (<[Z.to_nat (Z.of_nat k) := rs (ClientEnd ck (Z.of_nat k))]> names).
  replace (Z.of_nat (S k)) with (Z.of_nat k + 1) by lia. split_and!.
  - rewrite seqZ_app, for_each_app, E by lia. cbn [mbind outcome_bind].
    change (seqZ (0 + Z.of_nat k) 1) with [0 + Z.of_nat k]. cbn [for_each]. rewrite Z.add_0_l.
    unfold clientBody. rewrite slice_set_in by lia. cbn [mbind outcome_bind]. unfold openEndOf.
    change (net (set_net rn cfg)) with rn. cbn [target] in H1. by rewrite H1.
  - unfold len. by rewrite length_insert.
  - eapply wired_iff; [|exact W1]. intros s. unfold P. split.
    + intros [[?|(j & ? & ->)]| ->]; [auto|right; exists j; split; [lia|done]|right; exists (Z.of_nat k); split; [lia|done]].
    + intros [?|(j & ? & ->)]; [auto|]. destruct (decide (j = Z.of_nat k)) as [->|]; [auto|].
      left. right. exists j. split; [lia|done].
Qed.

Lemma makeClient_eq cfg : nmasters cfg = 3 ->
  makeClient rs cfg =
    ('(cfg1, names) ← for_each (clientBody (nextRef cfg)) (seqZ 0 3) (cfg, replicate (Z.to_nat (n cfg)) 0);
     Ret (set_nextRef (S (nextRef cfg)) (set_clerks (<[nextRef cfg := names]> (clerks cfg1)) (nextClientId cfg1 + 1) cfg1),
          nextRef cfg, MakeShardClerk ((fun j => rs (ClientEnd (nextRef cfg) j)) <$> seqZ 0 3))).
Proof. intros E. unfold makeClient. by rewrite E. Qed.

(** ** Joining *)
Lemma joinMap_spec m cfg gis : forall m0,
  booting m 3 0 3 cfg -> (forall g, g ∈ gis -> 0 <= g < 3) -> exists mp, joinMap cfg gis m0 = Ret mp /\
    forall gd, mp !! gd = if decide (gd - 100 ∈ gis) then Some (servername gd <$> seqZ 0 m) else m0 !! gd.
Proof.
  induction gis as [|g gis IH]; intros m0 B Hr; cbn [joinMap].
  { exists m0. split; [done|]. intros gd. by rewrite decide_False by apply not_elem_of_nil. }
  destruct (b_group _ _ _ _ _ B g) as (gg & Hgg & Eg & _); [apply Hr; by left|].
  assert (getGroup g cfg = Ret gg) as ->.
  { unfold getGroup. assert (slice_get (groups cfg) g = Ret (Some gg)) as ->; [|done].
    apply slice_get_Ret. split; [apply (Hr g); by left|done]. }
  cbn [mbind outcome_bind]. unfold servernames. rewrite (b_n _ _ _ _ _ B), Eg.
  destruct (IH (<[100 + g := servername (100 + g) <$> seqZ 0 m]> m0) B) as (mp & -> & Hmp);
    [intros; apply Hr; by right|]. exists mp. split; [done|]. intros gd. rewrite Hmp.
  destruct (decide (gd - 100 ∈ gis)) as [H1|H1].
  - by rewrite decide_True by (by right).
  - destruct (decide (gd = 100 + g)) as [->|Hne].
    + rewrite lookup_insert_eq, decide_True; [done|]. replace (100 + g - 100) with g by lia. by left.
    + rewrite lookup_insert_ne by done. rewrite decide_False; [done|].
      intros [?|?]%elem_of_cons; [lia|done].
Qed.
End Wiring.

(** ** Theorems *)

(** With up to three servers per group the tester of the sharded store comes
    up as intended: all masters and all servers of the three groups run, every
    server has enabled ends to the servers of its own group and to the masters,
    and the groups that [join] announces are mapped to the names of their running
    servers. *)
Theorem shard_config_reaches rs m unreliable mx :
  (forall s s', rs s = rs s' -> s = s') -> 0 <= m <= 3 ->
  exists cfg, make_config m unreliable mx rs = Ret cfg /\ reliable (net cfg) = negb unreliable /\
    (forall i, 0 <= i < 3 -> running (net cfg) (host (mastername i))) /\
    (forall gi i, 0 <= gi < 3 -> 0 <= i < m ->
      running (net cfg) (host (servername (100 + gi) i)) /\
      (forall j, 0 <= j < m -> isEnabled (net cfg) (rs (GroupEnd gi i j)) = true /\
        connections (net cfg) !! rs (GroupEnd gi i j) = Some (Some (host (servername (100 + gi) j)))) /\
      (forall j, 0 <= j < 3 -> isEnabled (net cfg) (rs (GroupMasterEnd gi i j)) = true /\
        connections (net cfg) !! rs (GroupMasterEnd gi i j) = Some (Some (host (mastername j))))) /\
    (forall gis, (forall g, g ∈ gis -> 0 <= g < 3) -> exists mp, joinMap cfg gis ∅ = Ret mp /\
      (forall g, g ∈ gis -> is_Some (mp !! (100 + g))) /\
      forall gd names s, mp !! gd = Some names -> s ∈ names -> running (net cfg) (host s)).
Proof.
  intros Hinj Hm. destruct (make_config_ok rs Hinj m unreliable mx Hm) as (cfg & E & B & Hrel).
  assert (Hrun : forall gi i, 0 <= gi < 3 -> 0 <= i < m -> running (net cfg) (host (servername (100 + gi) i))).
  { intros gi i Hg Hi. apply (b_servers _ _ _ _ _ _ B). unfold earlier. lia. }
  exists cfg. split_and!; [done|done|apply B| |].
  - intros gi i Hg Hi. split; [by apply Hrun|]. pose proof (w_leads _ _ _ (b_wired _ _ _ _ _ _ B)) as Hl. split; intros j Hj.
    + destruct (Hl (GroupEnd gi i j)) as [-> ->]; [simpl; unfold earlier; lia|done].
    + destruct (Hl (GroupMasterEnd gi i j)) as [-> ->]; [simpl; unfold earlier; lia|done].
  - intros gis Hr. destruct (joinMap_spec rs m cfg gis ∅ B Hr) as (mp & -> & Hmp). exists mp. split_and!; [done| |].
    + intros g Hg. rewrite Hmp, decide_True; [by eexists|]. by replace (100 + g - 100) with g by lia.
    + intros gd names s. rewrite Hmp. case_decide as Hd; [|by rewrite lookup_empty].
      intros [= <-] (j & -> & Hj%elem_of_seqZ)%list_elem_of_fmap. replace gd with (100 + (gd - 100)) by lia.
      apply Hrun; [by apply Hr|lia].
Qed.

(** The tester works for exactly three servers per group.  With more,
    [make_config] panics: a group has a row of ends to the masters per master
    instead of one per server.  With fewer, [makeClient] panics: it stores the
    names of the clerk's ends to the masters in a slice with one slot per server
    of a group. *)
Theorem tester_needs_three_servers rs m unreliable mx :
  (forall s s', rs s = rs s' -> s = s') -> 0 <= m ->
  (3 < m -> make_config m unreliable mx rs = Panic) /\
  (m <= 3 -> exists cfg, make_config m unreliable mx rs = Ret cfg /\
    (m < 3 -> makeClient rs cfg = Panic) /\
    (m = 3 -> exists cfg' ck clerk, makeClient rs cfg = Ret (cfg', ck, clerk))).
Proof.
  intros Hinj Hm. split; [intros ?; by apply make_config_big|]. intros Hm3.
  destruct (make_config_ok rs Hinj m unreliable mx) as (cfg & E & B & _); [lia|]. exists cfg. split; [done|].
  rewrite (makeClient_eq rs cfg (b_nmasters _ _ _ _ _ _ B)), (b_n _ _ _ _ _ _ B).
  destruct (client_loop rs Hinj m cfg (nextRef cfg) (Z.to_nat m)) as (rn & names & Hl & L & _);
    [apply B|lia|]. rewrite Z2Nat.id in Hl by lia. split.
  - intros Hlt. assert (for_each (clientBody rs (nextRef cfg)) (seqZ 0 3) (cfg, replicate (Z.to_nat m) 0) = Panic) as ->; [|done].
    replace 3 with (m + (3 - m)) by lia. rewrite seqZ_app, for_each_app, Hl by lia.
    cbn [mbind outcome_bind]. rewrite seqZ_cons by lia. cbn [for_each].
    assert (clientBody rs (nextRef cfg) (0 + m) (set_net rn cfg, names) = Panic) as ->; [|done].
    unfold clientBody, slice_set. by rewrite decide_False by lia.
  - intros ->. rewrite Hl. cbn [mbind outcome_bind]. by eexists _, _, _.
Qed.

(** ** Witnesses *)

(** Distinct names for distinct sites. *)
Definition site_code (s : site) : nat * Z * Z * Z :=
  match s with
  | MasterEnd i j => (0%nat, i, j, 0)
  | ShardClerkEnd j => (1%nat, j, 0, 0)
  | GroupEnd gi i j => (2%nat, gi, i, j)
  | GroupMasterEnd gi i j => (3%nat, gi, i, j)
  | ClientEnd ck j => (4%nat, Z.of_nat ck, j, 0)
  end.
Definition numbered (s : site) : Z := Zpos (encode (site_code s)).

Lemma numbered_inj s s' : numbered s = numbered s' -> s = s'.
Proof.
  unfold numbered. intros [= E]. apply (inj encode) in E.
  destruct s, s'; simplify_eq/=; try done.
Qed.

Lemma shard_config_reaches_witness : exists cfg, make_config 3 false (-1) numbered = Ret cfg /\
  isEnabled (net cfg) (numbered (GroupMasterEnd 2 1 0)) = true.
Proof.
  destruct (shard_config_reaches numbered 3 false (-1) numbered_inj) as (cfg & E & _ & _ & H & _); [lia|].
  exists cfg. split; [exact E|]. destruct (H 2 1) as (_ & _ & Hj); [lia|lia|]. apply (Hj 0). lia.
Defined.

Lemma tester_needs_three_servers_witness : make_config 4 false (-1) numbered = Panic.
Proof. apply (tester_needs_three_servers numbered 4 false (-1) numbered_inj); lia. Defined.

Lemma server_names_distinct_witness : host (servername 101 11) <> host (servername 1011 1).
Proof.
  destruct (server_names_distinct 101 11 1011 1) as ([H _] & _); [lia|lia|]. intros E. apply H in E. lia.
Defined.
