(* ===== verification/LabGob.v ===== *)
(** * The gob wrapper: labgob/labgob.go

    labgob calls encoding/gob and warns, before, about lower-case fields of the
    types that are sent and about decoding into variables that are not at their
    zero value.  A [reflect.Type] is an identity: types may refer to each other in
    cycles, so a program's types are a finite map from identities to
    descriptions.  The package's global variables are the state; their accesses
    are under a mutex, and one call at a time is modelled.  Field names are
    ASCII identifiers and no field is embedded. *)

From stdpp Require Import base list list_numbers gmap strings.
From S2P Require Import Prelude Gob.
Open Scope Z_scope.

(** ** Types *)
Inductive gotype : Type :=
| Struct (fields : list (string * Z))
| Slice (elem : Z)
| Array (elem : Z)
| Ptr (elem : Z)
| Map (key elem : Z)
| Basic.                     (* the other kinds *)

Abbreviation program := (gmap Z gotype).

(** ** State *)
Record labgob : Type := mkLabgob { errorCount : Z; checked : gset Z; printed : list string }.
Definition initial : labgob := mkLabgob 0 ∅ [].

Definition markChecked (t : Z) (st : labgob) : labgob :=
  mkLabgob (errorCount st) ({[t]} ∪ checked st) (printed st).
(** A lower-case field: one more error, and a line of output. *)
Definition complain (name : string) (st : labgob) : labgob :=
  mkLabgob (errorCount st + 1) (checked st) (printed st ++ [name]).

(** unicode.IsUpper of the first rune. *)
Definition isUpper (name : string) : bool :=
  match name with
  | EmptyString => false
  | String c _ => let b := Ascii.N_of_ascii c in (65 <=? b)%N && (b <=? 90)%N
  end.

(** ** checkType *)
Fixpoint checkFields (check : Z -> labgob -> option labgob) (fields : list (string * Z)) (st : labgob)
    : option labgob :=
  match fields with
  | [] => Some st
  | (name, ft) :: fields' =>
      let st1 := if isUpper name then st else complain name st in
      st2 ← check ft st1;
      checkFields check fields' st2
  end.

(** [fuel] bounds the nesting of the calls; [None] when it runs out. *)
Fixpoint checkType (fuel : nat) (types : program) (t : Z) (st : labgob) : option labgob :=
  match fuel with
  | O => None
  | S fuel' =>
      if decide (t ∈ checked st) then Some st
      else
        let st1 := markChecked t st in
        match types !! t with
        | Some (Struct fields) => checkFields (checkType fuel' types) fields st1
        | Some (Slice elem) | Some (Array elem) | Some (Ptr elem) => checkType fuel' types elem st1
        | Some (Map key elem) => st2 ← checkType fuel' types elem st1; checkType fuel' types key st2
        | _ => Some st1
        end
  end.

(** Enough for every call: one level per type that is not yet checked. *)
Definition depth (types : program) (st : labgob) : nat := S (size (dom types ∖ checked st)).

(** [checkValue(value)]: the type of a nil interface is a nil Type, whose Kind
    method is called. *)
Definition checkValue (types : program) (value : option Z) (st : labgob) : outcome labgob :=
  match value with
  | None => Panic
  | Some t => match checkType (depth types st) types t st with Some st' => Ret st' | None => Block end
  end.

(** ** checkDefault *)

(** What reflection sees of a value: for a basic kind the name of the type and
    whether the value is its zero. *)
Inductive govalue : Type :=
| VStruct (fields : list (string * govalue))
| VPtr (target : option govalue)
| VBasic (tname : string) (iszero : bool)
| VOther.

(** A value that is not zero is an error; the first error of the process is
    printed. *)
Definition warn (what : string) (st : labgob) : labgob :=
  mkLabgob (errorCount st + 1) (checked st) (if errorCount st <? 1 then printed st ++ [what] else printed st).

Definition fieldName (name name1 : string) : string :=
  if decide (name = "") then name1 else name +:+ "." +:+ name1.

(** [levels] is [4 - depth]: the function returns at once when depth exceeds 3.
    [ro]: the value was reached through a lower-case field, and reflection refuses
    its Interface method. *)
Fixpoint checkDefault1 (levels : nat) (ro : bool) (value : govalue) (name : string) (st : labgob)
    : outcome labgob :=
  match levels with
  | O => Ret st
  | S levels' =>
      match value with
      | VStruct fields =>
          foldl (fun r f => st ← r; checkDefault1 levels' (ro || negb (isUpper f.1)) f.2 (fieldName name f.1) st)
            (Ret st) fields
      | VPtr None => Ret st
      | VPtr (Some v) => checkDefault1 levels' ro v name st
      | VBasic tname iszero =>
          if ro then Panic
          else Ret (if iszero then st else warn (if decide (name = "") then tname else name) st)
      | VOther => Ret st
      end
  end.

Definition checkDefault (value : option govalue) (st : labgob) : outcome labgob :=
  match value with None => Ret st | Some v => checkDefault1 3 false v "" st end.

(** ** The wrapped operations *)
Section Wrapped.
Context {A : Type} `{GA : Gob A} (types : program).

(** [Encode] and [EncodeValue]; [t] is the type of [e]. *)
Definition LabEncode (t : option Z) (e : A) (st : labgob) : outcome (labgob * bytes) :=
  st' ← checkValue types t st;
  Ret (st', Encode e).

(** [Decode(e)]: [before] is what reflection sees of the variable. *)
Definition LabDecode (t : option Z) (before : option govalue) (data : bytes) (st : labgob)
    : outcome (labgob * option (A * bytes)) :=
  st1 ← checkValue types t st;
  st2 ← checkDefault before st1;
  Ret (st2, Decode data).
End Wrapped.

(** [Register] and [RegisterName]; [register] is gob's. *)
Definition Register {R} (types : program) (register : R -> R) (t : option Z) (st : labgob) (r : R)
    : outcome (labgob * R) :=
  st' ← checkValue types t st;
  Ret (st', register r).

(** ** The search through the types *)
Section Search.
Context (types : program).

(** What a type refers to, in the order it is visited, and the complaints made
    just before. *)
Definition edges (t : Z) : list (list string * Z) :=
  match types !! t with
  | Some (Struct fields) => (fun f : string * Z => (if isUpper f.1 then [] else [f.1], f.2)) <$> fields
  | Some (Slice elem) | Some (Array elem) | Some (Ptr elem) => [([], elem)]
  | Some (Map key elem) => [([], elem); ([], key)]
  | _ => []
  end.

(** The lower-case fields of a type itself. *)
Definition lowerFields (t : Z) : Z :=
  match types !! t with
  | Some (Struct fields) => len (filter (fun f => isUpper f.1 = false) fields)
  | _ => 0
  end.

Fixpoint visit (check : Z -> labgob -> option labgob) (es : list (list string * Z)) (st : labgob)
    : option labgob :=
  match es with
  | [] => Some st
  | (names, u) :: es' => st' ← check u (foldr complain st names); visit check es' st'
  end.

Lemma checkType_visit fuel t st :
  checkType (S fuel) types t st =
    if decide (t ∈ checked st) then Some st
    else visit (checkType fuel types) (edges t) (markChecked t st).
Proof.
  cbn [checkType]. case_decide; [done|]. unfold edges.
  assert (Hone : forall u st', visit (checkType fuel types) [([], u)] st' = checkType fuel types u st').
  { intros u st'. cbn [visit foldr]. by destruct (checkType fuel types u st'). }
  destruct (types !! t) as [[fields|u|u|u|key elem|]|]; rewrite ?Hone; try done.
  - generalize (markChecked t st). induction fields as [|[name ft] fields IH]; intros st'; [done|].
    cbn [checkFields visit fmap list_fmap fst snd].
    destruct (isUpper name); cbn [foldr]; destruct (checkType fuel types ft _) as [s|]; try done; apply IH.
  - cbn [visit foldr]. destruct (checkType fuel types elem _) as [s|]; [|done].
    cbn [mbind option_bind]. by destruct (checkType fuel types key s).
Qed.

(** The complaints about a set of types. *)
Definition total (X : gset Z) : Z := set_fold (fun u acc => lowerFields u + acc) 0 X.

Lemma total_empty : total ∅ = 0.
Proof. apply set_fold_empty. Qed.

Lemma fold_shift (X : gset Z) a : set_fold (fun u acc => lowerFields u + acc) a X = total X + a.
Proof.
  unfold total, set_fold. simpl. induction (elements X) as [|u l IH]; simpl; lia.
Qed.

Lemma total_union X Y : X ## Y -> total (X ∪ Y) = total X + total Y.
Proof.
  intros H. unfold total. rewrite (set_fold_disj_union_strong (=)); [|solve_proper|intros; lia|done].
  rewrite fold_shift. unfold total. lia.
Qed.

Lemma total_singleton u : total {[u]} = lowerFields u.
Proof. unfold total. rewrite set_fold_singleton. lia. Qed.

(** [st'] comes from [st] by checking types that are reachable from [roots]. *)
Definition succ (t u : Z) : Prop := exists names, (names, u) ∈ edges t.
Definition reachable (t u : Z) : Prop := rtc succ t u.

Record searched (roots : list Z) (st st' : labgob) : Prop := {
  se_mono : checked st ⊆ checked st';
  se_roots u : u ∈ roots -> u ∈ checked st';
  se_count : errorCount st' = errorCount st + total (checked st' ∖ checked st);
  se_new u : u ∈ checked st' -> u ∈ checked st \/ exists r, r ∈ roots /\ reachable r u;
  se_closed u v : u ∈ checked st' -> u ∉ checked st -> succ u v -> v ∈ checked st'
}.

Lemma searched_nil st : searched [] st st.
Proof.
  split; try done; [by intros u ?%elem_of_nil| |auto].
  rewrite difference_diag_L, total_empty. lia.
Qed.

Lemma searched_here t st : t ∈ checked st -> searched [t] st st.
Proof.
  intros Ht. split; try done; [by intros u ->%list_elem_of_singleton| |auto].
  rewrite difference_diag_L, total_empty. lia.
Qed.

Lemma difference_chain (X Y Z : gset Z) : X ⊆ Y -> Y ⊆ Z -> Z ∖ X = (Y ∖ X) ∪ (Z ∖ Y).
Proof.
  intros H1 H2. apply set_eq. intros x. rewrite elem_of_union, !elem_of_difference.
  destruct (decide (x ∈ Y)); naive_solver.
Qed.

Lemma searched_app r1 r2 st1 st2 st3 :
  searched r1 st1 st2 -> searched r2 st2 st3 -> searched (r1 ++ r2) st1 st3.
Proof.
  intros [M1 R1 C1 N1 K1] [M2 R2 C2 N2 K2]. split.
  - set_solver.
  - intros u [?|?]%elem_of_app; auto.
  - rewrite (difference_chain _ _ _ M1 M2), total_union by set_solver. lia.
  - intros u [?|(r & ? & ?)]%N2; [|right; exists r; rewrite elem_of_app; auto].
    destruct (N1 u) as [?|(r & ? & ?)]; [done|auto|right; exists r; rewrite elem_of_app; auto].
  - intros u v Hu Hnu Hs. destruct (decide (u ∈ checked st2)); eauto.
Qed.

(** Complaints change the count only. *)
Lemma foldr_complain names st :
  errorCount (foldr complain st names) = errorCount st + len names /\
  checked (foldr complain st names) = checked st.
Proof.
  unfold len. induction names as [|x names [IH1 IH2]]; simpl; [split; [lia|done]|].
  rewrite IH1, IH2. split; [lia|done].
Qed.

(** The complaints of a list of edges. *)
Definition complaints (es : list (list string * Z)) : Z := foldr (fun e acc => len e.1 + acc) 0 es.

Lemma complaints_edges t : complaints (edges t) = lowerFields t.
Proof.
  unfold edges, lowerFields. destruct (types !! t) as [[fields| | | | |]|]; try done.
  unfold len. induction fields as [|[name ft] fields IH]; [done|].
  cbn [fmap list_fmap complaints foldr fst]. fold (complaints ((fun f : string * Z =>
    (if isUpper f.1 then [] else [f.1], f.2)) <$> fields)). rewrite IH, filter_cons. simpl.
  destruct (isUpper name); simpl; [done|]. unfold len. simpl. lia.
Qed.

(** A visit of a list of edges. *)
Lemma visit_searched check es : forall st st',
  (forall u s s', u ∈ es.*2 -> check u s = Some s' -> searched [u] s s') ->
  visit check es st = Some st' ->
  exists st0, errorCount st0 = errorCount st + complaints es /\ checked st0 = checked st /\ searched es.*2 st0 st'.
Proof.
  induction es as [|[names u] es IH]; intros st st' Hc H; cbn [visit] in H.
  { injection H as <-. exists st. split_and!; [simpl; lia|done|apply searched_nil]. }
  destruct (check u (foldr complain st names)) as [s|] eqn:E; [|done]. cbn [mbind option_bind] in H.
  apply Hc in E; [|by left]. destruct (foldr_complain names st) as [F1 F2].
  destruct (IH s st') as (s0 & A1 & A2 & A3); [intros; eapply Hc; [by right|done]|done|].
  exists (mkLabgob (errorCount st + complaints ((names, u) :: es)) (checked st) (printed st)).
  split_and!; [done|done|]. change (((names, u) :: es).*2) with ([u] ++ es.*2).
  eapply searched_app; [|exact A3]. destruct E as [M R C N K].
  split; simpl; rewrite ?A2, <- ?F2; try done. rewrite A1, C, F1, F2. simpl. lia.
Qed.

Lemma checkType_searched fuel : forall t st st',
  checkType fuel types t st = Some st' -> searched [t] st st'.
Proof.
  induction fuel as [|fuel IH]; intros t st st' H; [done|]. rewrite checkType_visit in H.
  case_decide as Ht; [injection H as <-; by apply searched_here|].
  apply visit_searched in H as (st0 & E1 & E2 & [M R C N K]); [|intros; by apply IH].
  rewrite complaints_edges in E1. simpl in E1, E2. rewrite E2 in *.
  assert (Hnew : checked st' ∖ checked st = {[t]} ∪ (checked st' ∖ ({[t]} ∪ checked st))).
  { apply set_eq. intros x. rewrite elem_of_union, !elem_of_difference, elem_of_union, elem_of_singleton.
    destruct (decide (x = t)) as [->|]; [|naive_solver]. split; [auto|]. intros _. split; [set_solver|done]. }
  split.
  - set_solver.
  - intros u ->%list_elem_of_singleton. set_solver.
  - rewrite Hnew, total_union, total_singleton by set_solver. lia.
  - intros u [[->%elem_of_singleton|?]%elem_of_union|(r & Hr & Hru)]%N; [|auto|].
    + right. exists t. split; [by left|]. apply rtc_refl.
    + right. exists t. split; [by left|]. apply list_elem_of_fmap in Hr as ([names r'] & -> & Hr).
      eapply rtc_l; [by exists names|done].
  - intros u v Hu Hnu Hs. destruct (decide (u = t)) as [->|Hne].
    + destruct Hs as [names Hs]. apply R, list_elem_of_fmap. by exists (names, v).
    + apply (K u v Hu); [set_solver|done].
Qed.

(** ** Termination *)
Definition unchecked (st : labgob) : nat := size (dom types ∖ checked st).

Lemma visit_total check es : forall st,
  (forall u s, checked st ⊆ checked s -> is_Some (check u s)) ->
  (forall u s s', check u s = Some s' -> checked s ⊆ checked s') ->
  is_Some (visit check es st).
Proof.
  induction es as [|[names u] es IH]; intros st Ht Hm; cbn [visit]; [by eexists|].
  destruct (foldr_complain names st) as [_ F]. destruct (Ht u (foldr complain st names)) as [s Hs]; [by rewrite F|].
  rewrite Hs. apply IH; [|done]. intros v s' Hv. apply Ht. apply Hm in Hs. rewrite F in Hs. set_solver.
Qed.

Lemma checkType_total fuel : forall t st, (unchecked st < fuel)%nat -> is_Some (checkType fuel types t st).
Proof.
  induction fuel as [|fuel IH]; intros t st Hf; [lia|]. rewrite checkType_visit. case_decide as Ht; [by eexists|].
  destruct (decide (t ∈ dom types)) as [Hd|Hd].
  - apply visit_total; [|intros u s s' H; by apply (se_mono _ _ _ (checkType_searched _ _ _ _ H))].
    intros u s Hs. apply IH. simpl in Hs. unfold unchecked in *.
    assert (size (dom types ∖ checked s) < size (dom types ∖ checked st))%nat; [|lia].
    apply subset_size. split; [set_solver|]. intros H. specialize (H t).
    rewrite !elem_of_difference in H. set_solver.
  - assert (edges t = []) as ->; [|by eexists]. unfold edges. by rewrite (not_elem_of_dom_1 _ _ Hd).
Qed.

(** Every type that was checked has had its components checked. *)
Definition closed (st : labgob) : Prop := forall u v, u ∈ checked st -> succ u v -> v ∈ checked st.

Lemma closed_reachable st r u : closed st -> r ∈ checked st -> reachable r u -> u ∈ checked st.
Proof. intros Hc Hr H. induction H; eauto. Qed.
End Search.

(** The types sent in one run, one [checkValue] after another. *)
Fixpoint checkAll (types : program) (ts : list Z) (st : labgob) : outcome labgob :=
  match ts with
  | [] => Ret st
  | t :: ts' => st' ← checkValue types (Some t) st; checkAll types ts' st'
  end.

Lemma checkValue_searched types t st : exists st',
  checkValue types (Some t) st = Ret st' /\ searched types [t] st st'.
Proof.
  destruct (checkType_total types (depth types st) t st) as [st' H]; [unfold depth, unchecked; lia|].
  exists st'. cbn [checkValue]. rewrite H. split; [done|]. by eapply checkType_searched.
Qed.

Lemma checkAll_searched types ts : forall st, exists st', checkAll types ts st = Ret st' /\ searched types ts st st'.
Proof.
  induction ts as [|t ts IH]; intros st; [exists st; split; [done|apply searched_nil]|].
  destruct (checkValue_searched types t st) as (s & E & S1). destruct (IH s) as (st' & E' & S2).
  exists st'. split; [cbn [checkAll]; rewrite E; exact E'|]. by apply (searched_app _ [t] ts _ s).
Qed.

(** ** Theorems *)

(** C37: labgob's check of a program's types ends, also on recursive types, and
    complains about each lower-case field of each type exactly once.  After any
    sequence of values has been sent, the checked types are those reachable from
    the types of the values, and the error count is the number of lower-case
    fields among them, however often and in whatever order they were met. *)
Theorem lowercase_fields_counted_once types ts :
  exists st, checkAll types ts initial = Ret st /\
    (forall u, u ∈ checked st <-> exists t, t ∈ ts /\ reachable types t u) /\
    errorCount st = total types (checked st).
Proof.
  destruct (checkAll_searched types ts initial) as (st & E & [M R C N K]). exists st. split; [done|].
  assert (Hcl : closed types st) by (intros u v Hu Hs; by apply (K u v); [|apply not_elem_of_empty|]).
  split.
  - intros u. split.
    + intros [?%not_elem_of_empty|?]%N; done.
    + intros (t & Ht & Hr). eapply closed_reachable; [done|by apply R|done].
  - rewrite C. simpl. rewrite difference_empty_L. lia.
Qed.

(** ** checkDefault against the list of a value's leaves *)

(** The basic values inside [v], each with its depth, its path, whether it is zero
    and whether a lower-case field leads to it. *)
Record leaf : Type := mkLeaf { l_depth : nat; l_path : string; l_zero : bool; l_hidden : bool }.
Fixpoint leaves (d : nat) (ro : bool) (name : string) (v : govalue) : list leaf :=
  match v with
  | VStruct fields => flat_map (fun f => leaves (S d) (ro || negb (isUpper f.1)) (fieldName name f.1) f.2) fields
  | VPtr None => []
  | VPtr (Some v) => leaves (S d) ro name v
  | VBasic tname iszero => [mkLeaf d (if decide (name = "") then tname else name) iszero ro]
  | VOther => []
  end.

(** The check sees three levels. *)
Definition seen (l : list leaf) : list leaf := filter (fun x => (l_depth x <= 3)%nat) l.
Definition stale (l : list leaf) : list string := l_path <$> filter (fun x => l_zero x = false) l.

Definition warnAll (names : list string) (st : labgob) : labgob := foldl (fun st x => warn x st) st names.

(** What the check does with the leaves it sees, one after the other. *)
Definition report (l : list leaf) (st : labgob) : outcome labgob :=
  if decide (Exists (fun x => l_hidden x = true) l) then Panic else Ret (warnAll (stale l) st).

Lemma report_app l k st : report (l ++ k) st = (st' ← report l st; report k st').
Proof.
  unfold report, stale. destruct (decide (Exists _ (l ++ k))) as [H|H]; rewrite Exists_app in H.
  - destruct (decide (Exists _ l)) as [H1|H1]; [done|]. cbn [mbind outcome_bind].
    rewrite decide_True; [done|]. tauto.
  - rewrite !decide_False by tauto. cbn [mbind outcome_bind]. rewrite decide_False by tauto.
    unfold warnAll. by rewrite filter_app, fmap_app, foldl_app.
Qed.

(** Leaves are at least as deep as the value. *)
Lemma leaves_deep v : forall d ro name x, x ∈ leaves d ro name v -> (d <= l_depth x)%nat.
Proof.
  refine ((fix go (v : govalue) {struct v} : forall d ro name x, x ∈ leaves d ro name v -> (d <= l_depth x)%nat := _) v).
  intros d ro name x. destruct v as [fields|[v'|]|tname z|]; cbn [leaves]; intros Hx;
    try (by apply elem_of_nil in Hx).
  - revert Hx. induction fields as [|[fn fv] fields IH]; cbn [flat_map]; intros Hx; [by apply elem_of_nil in Hx|].
    apply elem_of_app in Hx as [Hx|Hx]; [apply go in Hx; lia|by apply IH].
  - apply go in Hx. lia.
  - apply list_elem_of_singleton in Hx as ->. done.
Qed.

Lemma seen_deep v d ro name : (3 < d)%nat -> seen (leaves d ro name v) = [].
Proof.
  intros Hd. unfold seen. pose proof (leaves_deep v d ro name) as H. induction (leaves d ro name v) as [|x l IH]; [done|].
  rewrite filter_cons, decide_False; [apply IH; intros; apply H; by right|].
  specialize (H x ltac:(by left)). lia.
Qed.

Lemma foldl_panics {A B} (f : B -> A -> outcome A) fields (r : outcome A) :
  (forall a, r <> Ret a) -> foldl (fun r x => a ← r; f x a) r fields = r.
Proof.
  induction fields as [|x fields IH] in r |- *; intros Hr; [done|]. cbn [foldl].
  destruct r; [by destruct (Hr a)|by apply IH|by apply IH].
Qed.

Lemma checkDefault1_reports levels : forall v ro name d st, (d + levels = 4)%nat ->
  checkDefault1 levels ro v name st = report (seen (leaves d ro name v)) st.
Proof.
  induction levels as [|levels IH]; intros v ro name d st Hd; cbn [checkDefault1].
  { by rewrite seen_deep by lia. }
  destruct v as [fields|[v|]|tname z|]; cbn [leaves]; [|apply IH; lia|done| |done].
  - revert st. induction fields as [|[fn fv] fields IHf]; intros st; [done|].
    cbn [foldl flat_map fst snd]. unfold seen. rewrite filter_app. fold (seen (leaves (S d) (ro || negb (isUpper fn)) (fieldName name fn) fv)).
    rewrite report_app, <- (IH _ _ _ (S d)) by lia. cbn [mbind outcome_bind].
    destruct (checkDefault1 levels _ fv (fieldName name fn) st) as [st'| |]; cbn [mbind outcome_bind]; [apply IHf| |];
      by rewrite (foldl_panics (fun f st => checkDefault1 levels (ro || negb (isUpper f.1)) f.2 (fieldName name f.1) st)).
  - set (what := if decide (name = "") then tname else name). unfold seen.
    rewrite filter_cons, decide_True by (simpl; lia). unfold report, stale. rewrite filter_nil.
    destruct ro; [by rewrite decide_True by (by left)|].
    rewrite decide_False by (by intros [?|?]%Exists_cons; [|apply Exists_nil in H]).
    rewrite filter_cons. by destruct z.
Qed.

Lemma warnAll_spec names : forall st, 0 <= errorCount st ->
  errorCount (warnAll names st) = errorCount st + len names /\ checked (warnAll names st) = checked st /\
  printed (warnAll names st) = printed st ++ (if errorCount st =? 0 then take 1 names else []).
Proof.
  unfold len. induction names as [|x names IH]; intros st Hst.
  { simpl. rewrite Z.add_0_r. by destruct (errorCount st =? 0); rewrite app_nil_r. }
  cbn [warnAll foldl]. fold (warnAll names (warn x st)).
  destruct (IH (warn x st)) as (E1 & E2 & E3); [simpl; lia|]. rewrite E1, E2, E3. cbn [warn errorCount checked printed].
  rewrite (proj2 (Z.eqb_neq (errorCount st + 1) 0)) by lia. rewrite app_nil_r.
  split_and!; [simpl; lia|done|]. destruct (Z.ltb_spec (errorCount st) 1), (Z.eqb_spec (errorCount st) 0); try lia; [done|].
  by rewrite app_nil_r.
Qed.

(** Labgob's check of the variable a reply is decoded into counts exactly the
    basic values inside it, at most three levels of structs and pointers down,
    that are not zero, and prints the path of the first error of the process only;
    but it panics when a lower-case field leads to one of the values it looks at,
    zero or not. *)
Theorem stale_values_counted v st :
  0 <= errorCount st ->
  let l := seen (leaves 1 false "" v) in
  (Forall (fun x => l_hidden x = false) l -> exists st', checkDefault (Some v) st = Ret st' /\
    errorCount st' = errorCount st + len (stale l) /\ checked st' = checked st /\
    printed st' = printed st ++ (if errorCount st =? 0 then take 1 (stale l) else [])) /\
  (Exists (fun x => l_hidden x = true) l -> checkDefault (Some v) st = Panic).
Proof.
  intros Hst l. unfold checkDefault. rewrite (checkDefault1_reports 3 v false "" 1) by done. fold l. unfold report.
  split.
  - intros Hf. rewrite decide_False; [|].
    + eexists. split; [done|]. by apply warnAll_spec.
    + rewrite Forall_forall in Hf. intros (x & Hx & Hh)%Exists_exists. by rewrite (Hf x Hx) in Hh.
  - intros He. by rewrite decide_True.
Qed.

(** Decoding into a struct with a lower-case integer ends in a panic instead of
    the warning. *)
Example lowercase_field_panics :
  checkDefault (Some (VPtr (Some (VStruct [("term", VBasic "int" true)])))) initial = Panic.
Proof. reflexivity. Qed.

(** [Decode(nil)] never reaches the nil test of [checkDefault]. *)
Lemma decode_nil_panics {A} `{Gob A} types before data st :
  LabDecode (A := A) types None before data st = Panic.
Proof. done. Qed.

(** What is encoded is what gob encodes, whatever was checked before. *)
Lemma LabEncode_bytes {A} `{Gob A} types t (e : A) st : exists st',
  LabEncode types (Some t) e st = Ret (st', Encode e).
Proof.
  destruct (checkValue_searched types t st) as (st' & E & _). exists st'. unfold LabEncode. by rewrite E.
Qed.

(** ** Witnesses *)

(** A recursive list type with a lower-case field, and a map to it. *)
Definition list_types : program :=
  {[1 := Struct [("Val", 2); ("next", 3)]; 2 := Basic; 3 := Ptr 1; 4 := Map 2 1]}.

Example list_types_checked : exists st, checkAll list_types [4; 1; 4] initial = Ret st /\
  errorCount st = 1 /\ printed st = ["next"] /\ size (checked st) = 4%nat.
Proof. eexists. split; [vm_compute; reflexivity|]. vm_compute. done. Qed.

Definition reply_value : govalue :=
  VPtr (Some (VStruct [("Term", VBasic "int" false);
    ("In", VStruct [("A", VBasic "int" false); ("B", VStruct [("C", VBasic "int" false)])])])).

Lemma stale_values_counted_witness : exists st', checkDefault (Some reply_value) initial = Ret st' /\
  errorCount st' = 1 /\ printed st' = ["Term"].
Proof.
  destruct (stale_values_counted reply_value initial) as [H _]; [simpl; lia|].
  destruct H as (st' & E & H1 & _ & H2); [repeat constructor|].
  exists st'. split; [exact E|]. split; [rewrite H1|rewrite H2]; vm_compute; reflexivity.
Defined.
