(* ===== verification/MapReduce.v ===== *)
(** * The MapReduce master: mapreduce/{common,master,master_splitmerge}.go

    File names, the order of a job, the merge of the reduce outputs and the
    removal of a job's files.  The file system maps names to contents; [records]
    is what the JSON decoder yields before its first error, and [canCreate] says
    where os.Create succeeds.  [doMap], [doReduce] and the task loop of [schedule]
    have no body at this commit.  Errors that end the process are [Fatal]. *)

From Stdlib Require Import Ascii.
From stdpp Require Import base list list_numbers gmap strings sorting pretty.
From S2P Require Import Prelude Names LabRpc Harness.
Open Scope Z_scope.

(** ** Names (common.go) *)
Inductive jobPhase : Type := mapPhase | reducePhase.
Record KeyValue : Type := mkKeyValue { Key : string; Value : string }.

Definition reduceName (jobName : string) (mapTask reduceTask : Z) : string :=
  "mrtmp." +:+ jobName +:+ "-" +:+ Itoa mapTask +:+ "-" +:+ Itoa reduceTask.
Definition mergeName (jobName : string) (reduceTask : Z) : string :=
  "mrtmp." +:+ jobName +:+ "-res-" +:+ Itoa reduceTask.
Definition outName (jobName : string) : string := "mrtmp." +:+ jobName.

(** ** ihash (common_map.go): FNV-1a on 32 bits *)
Definition fnv_step (h : Z) (c : ascii) : Z := Z.lxor h (Z.of_N (N_of_ascii c)) * 16777619 mod 2 ^ 32.
Fixpoint Sum32a (h : Z) (s : string) : Z :=
  match s with EmptyString => h | String c s' => Sum32a (fnv_step h c) s' end.
Definition ihash (s : string) : Z := Z.land (Sum32a 2166136261 s) 2147483647.

(** ** State (master.go) *)
Record Master : Type := mkMaster {
  address : string;
  workers : list string;
  jobName : string;
  files : list string;
  nReduce : Z;
  shutdown : bool;          (* the channel is closed *)
  listening : bool;
  stats : list Z;
  doneSignals : nat         (* sends on doneChannel *)
}.
Abbreviation FS := (gmap string string).

Inductive mr_fatal : Type :=
| MergeOpen (name : string)
| MergeCreate (name : string)
| CleanupMissing (name : string).

Definition newMaster (master : string) : Master := mkMaster master [] "" [] 0 false false [] 0.
Definition Register (worker : string) (mr : Master) : Master :=
  mkMaster (address mr) (workers mr ++ [worker]) (jobName mr) (files mr) (nReduce mr) (shutdown mr)
    (listening mr) (stats mr) (doneSignals mr).
Definition set_job (job : string) (fs : list string) (n : Z) (mr : Master) : Master :=
  mkMaster (address mr) (workers mr) job fs n (shutdown mr) (listening mr) (stats mr) (doneSignals mr).
Definition set_stats (v : list Z) (mr : Master) : Master :=
  mkMaster (address mr) (workers mr) (jobName mr) (files mr) (nReduce mr) (shutdown mr) (listening mr) v
    (doneSignals mr).
Definition signalDone (mr : Master) : Master :=
  mkMaster (address mr) (workers mr) (jobName mr) (files mr) (nReduce mr) (shutdown mr) (listening mr)
    (stats mr) (S (doneSignals mr)).

(** [Shutdown] (master_rpc.go): closing a closed channel panics. *)
Definition Shutdown (mr : Master) : outcome Master :=
  if shutdown mr then Panic
  else Ret (mkMaster (address mr) (workers mr) (jobName mr) (files mr) (nReduce mr) true false (stats mr)
              (doneSignals mr)).

(** [Wait]: the receive that lets [run] return. *)
Definition Wait (mr : Master) : outcome Master :=
  match doneSignals mr with
  | O => Block
  | S k => Ret (mkMaster (address mr) (workers mr) (jobName mr) (files mr) (nReduce mr) (shutdown mr)
                  (listening mr) (stats mr) k)
  end.

(** Arguments and replies of the calls (common_rpc.go). *)
Record DoTaskArgs : Type := mkDoTaskArgs {
  ta_JobName : string; ta_File : string; ta_Phase : jobPhase; ta_TaskNumber : Z; ta_NumOtherPhase : Z
}.
Record ShutdownReply : Type := mkShutdownReply { Ntasks : Z }.
Record RegisterArgs : Type := mkRegisterArgs { ra_Worker : string }.

(** [call]: [dial srv] is the connection, if there is one, and what a call over
    it returns, an error text or the reply. *)
Definition call {A R} (dial : string -> option (A -> string + R)) (srv : string) (args : A) : bool * option R :=
  match dial srv with
  | None => (false, None)
  | Some c => match c args with inl _ => (false, None) | inr reply => (true, Some reply) end
  end.

(** [register] of a worker (worker.go): a call that fails is only reported. *)
Definition register (name : string) (reached : bool) (mr : Master) : Master :=
  if reached then Register name mr else mr.

(** [startRPCServer]: the socket is free. *)
Definition startRPCServer (mr : Master) : Master :=
  mkMaster (address mr) (workers mr) (jobName mr) (files mr) (nReduce mr) (shutdown mr) true (stats mr)
    (doneSignals mr).
(** [stopRPCServer]: the call reaches the server while it listens. *)
Definition stopRPCServer (mr : Master) : outcome Master :=
  if listening mr then Shutdown mr else Ret mr.

(** [killWorkers]; [callShutdown w] is the reply to Worker.Shutdown, if any. *)
Definition killWorkers (callShutdown : string -> option Z) (mr : Master) : list Z :=
  omap callShutdown (workers mr).

(** ** Tasks: empty bodies *)
Definition doMap (job : string) (mapTask : Z) (inFile : string) (n : Z)
    (mapF : string -> string -> list KeyValue) (fs : FS) : FS := fs.
Definition doReduce (job : string) (reduceTask : Z) (outFile : string) (nMap : Z)
    (reduceF : string -> list string -> string) (fs : FS) : FS := fs.

(** [schedule]: the numbers it prints; no task is sent to a worker. *)
Definition schedule (job : string) (mapFiles : list string) (n : Z) (phase : jobPhase) : Z * Z :=
  match phase with
  | mapPhase => (len mapFiles, n)
  | reducePhase => (n, len mapFiles)
  end.

Section Job.
Context (records : string -> list KeyValue) (canCreate : string -> bool).

(** ** merge (master_splitmerge.go) *)
Fixpoint readAll (mr : Master) (tasks : list Z) (fs : FS) (kvs : gmap string string)
    : verdict mr_fatal (gmap string string) :=
  match tasks with
  | [] => Pass kvs
  | i :: tasks' =>
      match fs !! mergeName (jobName mr) i with
      | None => Fatal (MergeOpen (mergeName (jobName mr) i))
      | Some data => readAll mr tasks' fs (foldl (fun m kv => <[Key kv := Value kv]> m) kvs (records data))
      end
  end.

Definition line (kvs : gmap string string) (k : string) : string :=
  k +:+ ": " +:+ default "" (kvs !! k) +:+ String (ascii_of_nat 10) "".
Definition sortedKeys (kvs : gmap string string) : list string := merge_sort String.le (map_to_list kvs).*1.

Definition merge (mr : Master) (fs : FS) : verdict mr_fatal FS :=
  kvs ← readAll mr (seqZ 0 (nReduce mr)) fs ∅;
  let out := outName (jobName mr) in
  if canCreate out then Pass (<[out := String.concat "" (line kvs <$> sortedKeys kvs)]> fs)
  else Fatal (MergeCreate out).

(** ** CleanupFiles *)
Definition removeFile (name : string) (fs : FS) : verdict mr_fatal FS :=
  match fs !! name with Some _ => Pass (delete name fs) | None => Fatal (CleanupMissing name) end.
Fixpoint removeFiles (names : list string) (fs : FS) : verdict mr_fatal FS :=
  match names with [] => Pass fs | n :: names' => fs' ← removeFile n fs; removeFiles names' fs' end.

(** The files the loops of [CleanupFiles] go through, in order. *)
Definition jobFiles (mr : Master) : list string :=
  (i ← seqZ 0 (len (files mr)); j ← seqZ 0 (nReduce mr); [reduceName (jobName mr) i j]) ++
  (mergeName (jobName mr) <$> seqZ 0 (nReduce mr)) ++ [outName (jobName mr)].
Definition CleanupFiles (mr : Master) (fs : FS) : verdict mr_fatal FS := removeFiles (jobFiles mr) fs.

(** ** run, Sequential, Distributed *)
Definition run (job : string) (fnames : list string) (n : Z)
    (sched : jobPhase -> Master -> FS -> verdict mr_fatal (Master * FS))
    (finish : Master -> verdict mr_fatal Master) (mr : Master) (fs : FS) : verdict mr_fatal (Master * FS) :=
  let mr0 := set_job job fnames n mr in
  '(mr1, fs1) ← sched mapPhase mr0 fs;
  '(mr2, fs2) ← sched reducePhase mr1 fs1;
  mr3 ← finish mr2;
  fs3 ← merge mr3 fs2;
  Pass (signalDone mr3, fs3).

Definition seqPhase (mapF : string -> string -> list KeyValue) (reduceF : string -> list string -> string)
    (phase : jobPhase) (mr : Master) (fs : FS) : FS :=
  match phase with
  | mapPhase => foldl (fun fs x => doMap (jobName mr) x.1 x.2 (nReduce mr) mapF fs) fs
                  (zip (seqZ 0 (len (files mr))) (files mr))
  | reducePhase => foldl (fun fs i => doReduce (jobName mr) i (mergeName (jobName mr) i) (len (files mr)) reduceF fs)
                     fs (seqZ 0 (nReduce mr))
  end.

Definition Sequential (job : string) (fnames : list string) (n : Z) mapF reduceF (fs : FS)
    : verdict mr_fatal (Master * FS) :=
  run job fnames n (fun phase mr fs => Pass (mr, seqPhase mapF reduceF phase mr fs))
    (fun mr => Pass (set_stats [len fnames + n] mr)) (newMaster "master") fs.

(** [registered] are the workers that register before the job ends. *)
Definition Distributed (job : string) (fnames : list string) (n : Z) (master : string)
    (registered : list string) (callShutdown : string -> option Z) (fs : FS) : verdict mr_fatal (Master * FS) :=
  let mr := foldl (fun mr w => Register w mr) (startRPCServer (newMaster master)) registered in
  run job fnames n
    (fun phase mr fs => let _ := schedule (jobName mr) (files mr) (nReduce mr) phase in Pass (mr, fs))
    (fun mr => lift (stopRPCServer (set_stats (killWorkers callShutdown mr) mr))) mr fs.
End Job.

(** ** The files of a job *)

(** The names of one job are told apart by what follows the job's name. *)
Lemma reduceName_inj job m r m' r' :
  0 <= m -> 0 <= m' -> reduceName job m r = reduceName job m' r' -> m = m' /\ r = r'.
Proof.
  unfold reduceName. intros Hm Hm' E. apply (inj (String.append "mrtmp.")), (inj (String.append job)),
    (inj (String.append "-")), split_dash in E as [E1 E2]; [|by apply Itoa_nodash..].
  by apply Itoa_inj in E1, E2.
Qed.

Lemma mergeName_inj job r r' : mergeName job r = mergeName job r' -> r = r'.
Proof.
  unfold mergeName. intros E. apply (inj (String.append "mrtmp.")), (inj (String.append job)),
    (inj (String.append "-res-")) in E. by apply Itoa_inj.
Qed.

Lemma reduce_merge_ne job m r r' : 0 <= m -> reduceName job m r <> mergeName job r'.
Proof.
  unfold reduceName, mergeName. intros Hm E. apply (inj (String.append "mrtmp.")), (inj (String.append job)) in E.
  change ("-res-" +:+ Itoa r') with ("-" +:+ "res" +:+ "-" +:+ Itoa r') in E.
  apply (inj (String.append "-")), split_dash in E as [E _]; [|by apply Itoa_nodash|done].
  pose proof (Itoa_digits m Hm) as H. by rewrite E in H.
Qed.

Lemma length_string_app (a b : string) : String.length (a +:+ b) = (String.length a + String.length b)%nat.
Proof. induction a as [|c a IH]; simpl; [done|]. by rewrite IH. Qed.

Lemma out_name_ne job suffix : suffix <> "" -> outName job <> "mrtmp." +:+ job +:+ suffix.
Proof.
  unfold outName. intros Hs E. apply (f_equal String.length) in E. rewrite !length_string_app in E.
  destruct suffix; [done|]. simpl in E. lia.
Qed.

Lemma NoDup_reduceNames job n (l : list Z) :
  NoDup l -> (forall i, i ∈ l -> 0 <= i) -> NoDup (i ← l; j ← seqZ 0 n; [reduceName job i j]).
Proof.
  intros Hnd Hr. induction l as [|i l IH]; [constructor|]. apply NoDup_cons in Hnd as [Hi Hnd].
  cbn [mbind list_bind]. apply NoDup_app. split_and!.
  - assert ((j ← seqZ 0 n; [reduceName job i j]) = reduceName job i <$> seqZ 0 n) as ->.
    { generalize (seqZ 0 n). induction l0 as [|j l0 IH']; [done|]. cbn [mbind list_bind fmap list_fmap app]. by rewrite IH'. }
    apply NoDup_fmap_2_strong; [|apply NoDup_seqZ]. intros x y _ _ E.
    assert (0 <= i) by (apply Hr; by left). by apply reduceName_inj in E as [_ ?].
  - intros x Hx Hx'. apply list_elem_of_bind in Hx as (j & ->%list_elem_of_singleton & _).
    apply list_elem_of_bind in Hx' as (i' & Hx' & Hi').
    apply list_elem_of_bind in Hx' as (j' & E%list_elem_of_singleton & _).
    apply reduceName_inj in E as [-> _]; [done|apply Hr; by left|apply Hr; by right].
  - apply IH; [done|]. intros k Hk. apply Hr. by right.
Qed.

Lemma jobFiles_NoDup mr : NoDup (jobFiles mr).
Proof.
  assert (Hout : forall x, x ∈ [outName (jobName mr)] -> forall s, s <> "" -> x <> "mrtmp." +:+ jobName mr +:+ s).
  { intros x ->%list_elem_of_singleton. apply out_name_ne. }
  unfold jobFiles. apply NoDup_app. split_and!.
  - apply NoDup_reduceNames; [apply NoDup_seqZ|]. intros i Hi%elem_of_seqZ. lia.
  - intros x Hx Hx'. apply list_elem_of_bind in Hx as (i & Hx & Hi%elem_of_seqZ).
    apply list_elem_of_bind in Hx as (j & ->%list_elem_of_singleton & _).
    apply elem_of_app in Hx' as [(r & E & _)%list_elem_of_fmap|Hx'].
    + apply reduce_merge_ne in E; [done|lia].
    + refine (Hout _ Hx' ("-" +:+ Itoa i +:+ "-" +:+ Itoa j) _ eq_refl). done.
  - apply NoDup_app. split_and!; [| |apply NoDup_singleton].
    2:{ intros x (r & -> & _)%list_elem_of_fmap Hx'. by refine (Hout _ Hx' ("-res-" +:+ Itoa r) _ eq_refl). }
    apply NoDup_fmap_2; [|apply NoDup_seqZ]. intros x y E. by apply mergeName_inj in E.
Qed.

(** Removing distinct files. *)
Lemma removeFiles_spec names : forall fs : FS,
  NoDup names -> (forall x, x ∈ names -> is_Some (fs !! x)) ->
  exists fs', removeFiles names fs = Pass fs' /\
    forall x, fs' !! x = if decide (x ∈ names) then None else fs !! x.
Proof.
  induction names as [|x names IH]; intros fs Hnd Hin; cbn [removeFiles].
  { exists fs. split; [done|]. intros y. by rewrite decide_False by apply not_elem_of_nil. }
  apply NoDup_cons in Hnd as [Hx Hnd]. destruct (Hin x) as [data Hd]; [by left|].
  unfold removeFile. rewrite Hd. cbn [mbind].
  destruct (IH (delete x fs)) as (fs' & E & Hl); [done| |].
  { intros y Hy. rewrite lookup_delete_ne by (intros ->; done). apply Hin. by right. }
  exists fs'. split; [exact E|]. intros y. rewrite Hl. destruct (decide (y = x)) as [->|Hne].
  - rewrite (decide_True (P := x ∈ x :: names)) by by left. case_decide; [done|]. by rewrite lookup_delete_eq.
  - rewrite lookup_delete_ne by done. destruct (decide (y ∈ names)) as [H|H].
    + by rewrite decide_True by by right.
    + rewrite decide_False; [done|]. by intros [?|?]%elem_of_cons.
Qed.

(** [CleanupFiles] after a complete job succeeds and removes exactly the
    intermediate, reduce and output files of that job: their names never clash,
    so no file is removed twice, and no file of another name is touched. *)
Theorem cleanup_removes_job mr (fs : FS) :
  (forall x, x ∈ jobFiles mr -> is_Some (fs !! x)) ->
  exists fs', CleanupFiles mr fs = Pass fs' /\ forall x, fs' !! x = if decide (x ∈ jobFiles mr) then None else fs !! x.
Proof. intros H. by apply removeFiles_spec; [apply jobFiles_NoDup|]. Qed.

(** ** ihash *)

(** The hash that assigns keys to reduce tasks is a non-negative 31-bit
    number, so that it picks one of the [n] tasks for every [n]. *)
Theorem ihash_bounds s n : 0 < n -> 0 <= ihash s < 2 ^ 31 /\ 0 <= Z.rem (ihash s) n < n.
Proof.
  intros Hn. assert (H : 0 <= ihash s < 2 ^ 31).
  { unfold ihash. change 2147483647 with (Z.ones 31).
    assert (Hs : forall s h, 0 <= h -> 0 <= Sum32a h s).
    { clear. induction s as [|c s IH]; intros h Hh; simpl; [done|]. apply IH. unfold fnv_step. apply Z.mod_pos_bound. lia. }
    rewrite Z.land_ones by lia. apply Z.mod_pos_bound. lia. }
  split; [done|]. apply Z.rem_bound_pos; lia.
Qed.

Example ihash_a : ihash "a" = 1678518572.
Proof. reflexivity. Qed.

(** ** The merged output *)
Section Output.
Context (records : string -> list KeyValue) (canCreate : string -> bool).

(** The records of the reduce outputs, in the order they are read. *)
Definition allRecords (mr : Master) (fs : FS) (tasks : list Z) : list KeyValue :=
  i ← tasks; records (default "" (fs !! mergeName (jobName mr) i)).

Definition store (kvs : gmap string string) (l : list KeyValue) : gmap string string :=
  foldl (fun m kv => <[Key kv := Value kv]> m) kvs l.

Lemma readAll_store mr fs tasks : forall kvs,
  (forall i, i ∈ tasks -> is_Some (fs !! mergeName (jobName mr) i)) ->
  readAll records mr tasks fs kvs = Pass (store kvs (allRecords mr fs tasks)).
Proof.
  induction tasks as [|i tasks IH]; intros kvs Hin; [done|]. cbn [readAll].
  destruct (Hin i) as [data Hd]; [by left|]. unfold allRecords. cbn [mbind list_bind]. rewrite Hd. cbn [default].
  unfold store. rewrite foldl_app. apply IH. intros j Hj. apply Hin. by right.
Qed.

Lemma readAll_missing mr fs tasks i : forall kvs,
  i ∈ tasks -> fs !! mergeName (jobName mr) i = None ->
  exists j, j ∈ tasks /\ fs !! mergeName (jobName mr) j = None /\
    readAll records mr tasks fs kvs = Fatal (MergeOpen (mergeName (jobName mr) j)).
Proof.
  induction tasks as [|t tasks IH]; intros kvs Hi Hm; [by apply elem_of_nil in Hi|]. cbn [readAll].
  destruct (fs !! mergeName (jobName mr) t) as [data|] eqn:E; [|exists t; split_and!; [left|done|done]].
  apply elem_of_cons in Hi as [->|Hi]; [by rewrite Hm in E|].
  destruct (IH (store kvs (records data)) Hi Hm) as (j & ? & ? & ?). exists j. split_and!; [by right|done|done].
Qed.

(** The last record of a key wins. *)
Lemma store_lookup l : forall kvs k,
  store kvs l !! k = match last (filter (fun kv => Key kv = k) l) with Some kv => Some (Value kv) | None => kvs !! k end.
Proof.
  induction l as [|kv l IH] using rev_ind; intros kvs k; [done|]. unfold store. rewrite foldl_app, filter_app, last_app.
  cbn [foldl]. rewrite filter_cons, filter_nil. destruct (decide (Key kv = k)) as [<-|Hne].
  - by rewrite lookup_insert_eq.
  - rewrite lookup_insert_ne by done. apply IH.
Qed.

Lemma sortedKeys_spec kvs :
  StronglySorted String.le (sortedKeys kvs) /\ NoDup (sortedKeys kvs) /\
  forall k, k ∈ sortedKeys kvs <-> is_Some (kvs !! k).
Proof.
  unfold sortedKeys. pose proof (merge_sort_Permutation String.le (map_to_list kvs).*1) as Hp. split_and!.
  - apply StronglySorted_merge_sort; apply _.
  - rewrite Hp. apply NoDup_fst_map_to_list.
  - intros k. rewrite Hp, list_elem_of_fmap. split.
    + intros ([k' v] & -> & H%elem_of_map_to_list). by exists v.
    + intros [v H]. exists (k, v). split; [done|]. by apply elem_of_map_to_list.
Qed.

(** C38: the merged output is complete and sorted.  When every reduce task left
    its file, [merge] writes one line per key that occurs in any of them, in
    strictly increasing order, with the value of the last record of the key, and
    changes no other file.  A missing reduce output ends the process instead. *)
Theorem merge_output mr (fs : FS) :
  ((forall i, 0 <= i < nReduce mr -> is_Some (fs !! mergeName (jobName mr) i)) ->
   canCreate (outName (jobName mr)) = true ->
   exists kvs keys,
     merge records canCreate mr fs =
       Pass (<[outName (jobName mr) := String.concat "" (line kvs <$> keys)]> fs) /\
     StronglySorted String.le keys /\ NoDup keys /\ (forall k, k ∈ keys <-> is_Some (kvs !! k)) /\
     forall k, kvs !! k = Value <$> last (filter (fun kv => Key kv = k) (allRecords mr fs (seqZ 0 (nReduce mr))))) /\
  (forall i, 0 <= i < nReduce mr -> fs !! mergeName (jobName mr) i = None ->
   exists j, 0 <= j < nReduce mr /\ fs !! mergeName (jobName mr) j = None /\
     merge records canCreate mr fs = Fatal (MergeOpen (mergeName (jobName mr) j))).
Proof.
  split.
  - intros Hin Hc. set (kvs := store ∅ (allRecords mr fs (seqZ 0 (nReduce mr)))).
    exists kvs, (sortedKeys kvs). destruct (sortedKeys_spec kvs) as (Hs & Hnd & Hk). split_and!; try done.
    + unfold merge. rewrite readAll_store by (intros i Hi%elem_of_seqZ; apply Hin; lia).
      cbn [mbind verdict_bind]. by rewrite Hc.
    + intros k. unfold kvs. rewrite store_lookup, lookup_empty. by destruct (last _).
  - intros i Hi Hm. destruct (readAll_missing mr fs (seqZ 0 (nReduce mr)) i ∅) as (j & Hj%elem_of_seqZ & Hjm & E);
      [apply elem_of_seqZ; lia|done|]. exists j. split_and!; [lia|lia|done|]. unfold merge. by rewrite E.
Qed.

(** At this commit [doReduce] writes no file: a job with a reduce task dies in its
    merge unless the outputs were there before. *)
Lemma sequential_job_fails job fnames n mapF reduceF fs :
  0 < n -> fs !! mergeName job 0 = None ->
  Sequential records canCreate job fnames n mapF reduceF fs = Fatal (MergeOpen (mergeName job 0)).
Proof.
  intros Hn Hm.
  assert (Hmap : forall mr, seqPhase mapF reduceF mapPhase mr fs = fs).
  { intros mr. simpl. generalize (zip (seqZ 0 (len (files mr))) (files mr)).
    intros l. by induction l. }
  assert (Hred : forall mr, seqPhase mapF reduceF reducePhase mr fs = fs).
  { intros mr. simpl. generalize (seqZ 0 (nReduce mr)). intros l. by induction l. }
  unfold Sequential, run. cbn [mbind verdict_bind]. rewrite Hmap, Hred. unfold merge. cbn [nReduce set_stats set_job].
  rewrite seqZ_cons by lia. cbn [readAll jobName set_stats set_job]. by rewrite Hm.
Qed.
End Output.

(** ** Witnesses *)
Definition demo_job : Master := set_job "wc" ["a.txt"] 2 (newMaster "master").
Definition demo_records (data : string) : list KeyValue :=
  if decide (data = "0") then [mkKeyValue "b" "1"; mkKeyValue "a" "2"] else [mkKeyValue "b" "3"].
Definition demo_fs : FS :=
  {[ "mrtmp.wc-0-0" := ""; "mrtmp.wc-0-1" := ""; "mrtmp.wc-res-0" := "0"; "mrtmp.wc-res-1" := "1"; "mrtmp.wc" := ""; "x" := "" ]}.

Lemma cleanup_removes_job_witness : exists fs', CleanupFiles demo_job demo_fs = Pass fs' /\
  fs' !! "mrtmp.wc-res-1" = None /\ fs' !! "x" = Some "".
Proof.
  destruct (cleanup_removes_job demo_job demo_fs) as (fs' & E & H).
  - assert (Hj : jobFiles demo_job = ["mrtmp.wc-0-0"; "mrtmp.wc-0-1"; "mrtmp.wc-res-0"; "mrtmp.wc-res-1"; "mrtmp.wc"])
      by (vm_compute; reflexivity).
    rewrite Hj. intros x Hx. rewrite !elem_of_cons, elem_of_nil in Hx.
    destruct Hx as [->|[->|[->|[->|[->|[]]]]]]; vm_compute; by eexists.
  - exists fs'. split; [exact E|]. split; rewrite H; vm_compute; reflexivity.
Defined.

Lemma ihash_bounds_witness : 0 <= Z.rem (ihash "key") 5 < 5.
Proof. apply (ihash_bounds "key" 5). lia. Defined.

Lemma merge_output_witness : exists kvs keys,
  merge demo_records (fun _ => true) demo_job demo_fs =
    Pass (<["mrtmp.wc" := String.concat "" (line kvs <$> keys)]> demo_fs) /\ kvs !! "b" = Some "3".
Proof.
  destruct (merge_output demo_records (fun _ => true) demo_job demo_fs) as [H _].
  destruct H as (kvs & keys & E & _ & _ & _ & Hl).
  - intros i Hi. simpl in Hi. assert (i = 0 \/ i = 1) as [->| ->] by lia; vm_compute; by eexists.
  - reflexivity.
  - exists kvs, keys. split; [exact E|]. rewrite Hl. vm_compute. reflexivity.
Defined.
