(* ===== verification/MRWorker.v ===== *)
(** * MapReduce workers: mapreduce/worker.go and the registrations of master.go

    Four small concurrent programs as step functions: [forwardRegistrations],
    which passes registered workers on; the tasks of workers that share a
    [Parallelism] record; the accept loop of [RunWorker]; and the accept loop of
    the master's server (master_rpc.go).  A step is a critical section; tasks
    themselves have no body at this commit (MapReduce.v). *)

From stdpp Require Import base list list_numbers gmap strings.
From S2P Require Import Prelude LabRpc MapReduce.
Open Scope Z_scope.

(** ** forwardRegistrations (master.go) *)
Module Forward.

(** [waiting]: the loop is inside newCond.Wait.  A message is sent by a goroutine
    of its own: [inflight] holds those that have not been received. *)
Record state : Type := mkState {
  workers : list string; i : nat; waiting : bool; inflight : list string; received : list string
}.
Definition init (ws : list string) : state := mkState ws 0 false [] [].

Inductive event : Type :=
| Register (w : string)        (* the RPC: append, Broadcast *)
| Loop                         (* one turn of the loop, up to Unlock or Wait *)
| Receive (k : nat).           (* schedule reads the k-th pending message *)

Definition step (s : state) (e : event) : option state :=
  match e with
  | Register w => Some (mkState (workers s ++ [w]) (i s) false (inflight s) (received s))
  | Loop =>
      if waiting s then None
      else match workers s !! i s with
           | Some w => Some (mkState (workers s) (S (i s)) false (inflight s ++ [w]) (received s))
           | None => Some (mkState (workers s) (i s) true (inflight s) (received s))
           end
  | Receive k =>
      match inflight s !! k with
      | Some w => Some (mkState (workers s) (i s) (waiting s) (delete k (inflight s)) (received s ++ [w]))
      | None => None
      end
  end.

Fixpoint exec (s : state) (es : list event) : option state :=
  match es with [] => Some s | e :: es' => s' ← step s e; exec s' es' end.

(** Everything that was registered and passed is received or on its way, and the
    loop sleeps only when it has passed everything. *)
Record ok (s : state) : Prop := {
  ok_split : received s ++ inflight s ≡ₚ take (i s) (workers s);
  ok_le : (i s <= length (workers s))%nat;
  ok_awake : waiting s = true -> i s = length (workers s)
}.

Lemma fwd_init_ok ws : ok (init ws).
Proof. split; simpl; [done|lia|done]. Qed.

Lemma fwd_step_ok s e s' : ok s -> step s e = Some s' -> ok s'.
Proof.
  intros [H1 H2 H3]. destruct e as [w| |k]; simpl.
  - intros [= <-]. split; simpl; [|rewrite length_app; simpl; lia|done]. by rewrite take_app_le by lia.
  - destruct (waiting s); [done|]. destruct (workers s !! i s) as [w|] eqn:E; intros [= <-]; split; simpl.
    + rewrite (take_S_r _ _ w) by done. by rewrite app_assoc, H1.
    + apply lookup_lt_Some in E. lia.
    + done.
    + done.
    + done.
    + intros _. apply lookup_ge_None in E. lia.
  - destruct (inflight s !! k) as [w|] eqn:E; [|done]. intros [= <-]. split; simpl; [|done|done].
    rewrite <- H1. rewrite <- app_assoc. f_equiv. symmetry. by apply delete_Permutation.
Qed.

Lemma fwd_exec_ok es : forall s s', ok s -> exec s es = Some s' -> ok s'.
Proof.
  induction es as [|e es IH]; intros s s' Hs; simpl; [by intros [= <-]|].
  destruct (step s e) as [s1|] eqn:E; [|done]. apply IH. by eapply fwd_step_ok.
Qed.

(** From an [ok] state the loop and the reader finish the work. *)
Lemma forward_rest m : forall s, ok s -> (length (workers s) - i s = m)%nat ->
  exists s', exec s (replicate m Loop) = Some s' /\ ok s' /\ workers s' = workers s /\ i s' = length (workers s) /\
    received s' = received s.
Proof.
  induction m as [|m IH]; intros s Hs Hm.
  { exists s. pose proof (ok_le _ Hs). split_and!; try done. lia. }
  destruct (lookup_lt_is_Some_2 (workers s) (i s)) as [w Hw]; [lia|].
  assert (Hw0 : waiting s = false).
  { destruct (waiting s) eqn:E; [|done]. apply (ok_awake _ Hs) in E. lia. }
  assert (E : step s Loop = Some (mkState (workers s) (S (i s)) false (inflight s ++ [w]) (received s))).
  { cbn [step]. by rewrite Hw0, Hw. }
  destruct (IH _ (fwd_step_ok _ _ _ Hs E)) as (s' & E' & Hok & H1 & H2 & H3); [simpl; lia|].
  exists s'. cbn [replicate exec]. rewrite E. split_and!; done.
Qed.

Lemma receive_rest m : forall s, ok s -> length (inflight s) = m ->
  exists s', exec s (replicate m (Receive 0)) = Some s' /\ ok s' /\ workers s' = workers s /\ i s' = i s /\ inflight s' = [].
Proof.
  induction m as [|m IH]; intros s Hs Hm.
  { exists s. split_and!; try done. by apply nil_length_inv. }
  destruct (inflight s) as [|w l] eqn:El; [done|].
  assert (E : step s (Receive 0) = Some (mkState (workers s) (i s) (waiting s) l (received s ++ [w]))).
  { cbn [step]. by rewrite El. }
  destruct (IH _ (fwd_step_ok _ _ _ Hs E)) as (s' & E' & Hok & H1 & H2 & H3); [simpl in *; lia|].
  exists s'. cbn [replicate exec]. rewrite E. split_and!; done.
Qed.

Lemma fwd_exec_app es1 es2 s s1 s2 : exec s es1 = Some s1 -> exec s1 es2 = Some s2 -> exec s (es1 ++ es2) = Some s2.
Proof.
  revert s. induction es1 as [|e es1 IH]; intros s; simpl; [by intros [= <-]|].
  destruct (step s e) as [s'|]; [|done]. apply IH.
Qed.

(** C39: no registration is lost or passed twice.  In every interleaving of
    registrations, turns of [forwardRegistrations] and reads of the channel, the
    workers received so far are registered ones, each at most as often as it
    registered, and the loop sleeps only when it has passed all of them; and from
    every such state finitely many turns and reads deliver exactly the registered
    workers. *)
Theorem registrations_forwarded ws es s :
  exec (init ws) es = Some s ->
  (exists rest, received s ++ rest ≡ₚ workers s) /\
  (waiting s = true -> i s = length (workers s)) /\
  exists es' s', exec s es' = Some s' /\ workers s' = workers s /\ received s' ≡ₚ workers s.
Proof.
  intros H. pose proof (fwd_exec_ok _ _ _ (fwd_init_ok ws) H) as Hs. split_and!.
  - exists (inflight s ++ drop (i s) (workers s)). rewrite app_assoc, (ok_split _ Hs). by rewrite take_drop.
  - apply (ok_awake _ Hs).
  - destruct (forward_rest _ s Hs eq_refl) as (s1 & E1 & Hs1 & W1 & I1 & _).
    destruct (receive_rest _ s1 Hs1 eq_refl) as (s2 & E2 & Hs2 & W2 & I2 & F2).
    exists (replicate (length (workers s) - i s) Loop ++ replicate (length (inflight s1)) (Receive 0)), s2.
    split; [by eapply fwd_exec_app|]. split; [congruence|]. pose proof (ok_split _ Hs2) as Hp.
    rewrite F2, app_nil_r, W2, I2, I1, W1, take_ge in Hp by lia. done.
Qed.

(** Worker c registers while the loop sleeps; the messages arrive out of order. *)
Lemma registrations_forwarded_witness : exists s,
  exec (init ["a"]) [Loop; Loop; Register "b"; Register "c"; Loop; Receive 1] = Some s /\ received s = ["b"] /\
  exists es' s', exec s es' = Some s' /\ received s' ≡ₚ ["a"; "b"; "c"].
Proof.
  destruct (exec (init ["a"]) [Loop; Loop; Register "b"; Register "c"; Loop; Receive 1]) as [s|] eqn:E;
    [|vm_compute in E; discriminate E].
  destruct (registrations_forwarded _ _ _ E) as (_ & _ & es' & s' & H1 & _ & H2).
  exists s. split; [reflexivity|]. vm_compute in E. injection E as <-. split; [reflexivity|]. by exists es', s'.
Defined.
End Forward.

(** ** DoTask and Parallelism (worker.go) *)
Module Tasks.

(** How far a DoTask has come: called; counted by its worker; counted in the
    parallelism record too; no longer counted by its worker; returned. *)
Inductive phase : Type := Called | Entered | Measured | Left | Returned.

Record state : Type := mkState {
  nTasks : list Z; concurrent : list Z;      (* per worker *)
  now : Z; max : Z;                          (* the shared record *)
  tasks : list (nat * phase)                 (* every DoTask so far: its worker *)
}.
Definition init (nworkers : nat) : state := mkState (replicate nworkers 0) (replicate nworkers 0) 0 0 [].

Inductive event : Type :=
| Call (w : nat)
| Advance (t : nat).        (* task t runs its next critical section *)

Inductive result : Type :=
| Next (s : state)
| Fatal                     (* more than one DoTask at one worker *)
| Impossible.               (* no such event here *)

Definition goto (t w : nat) (ph : phase) (s : state) : state :=
  mkState (nTasks s) (concurrent s) (now s) (max s) (<[t := (w, ph)]> (tasks s)).

(** The first critical section and the check of [nc]. *)
Definition enter (t w : nat) (s : state) : result :=
  match nTasks s !! w, concurrent s !! w with
  | Some n, Some c =>
      if 1 <? c + 1 then Fatal
      else Next (goto t w Entered (mkState (<[w := n + 1]> (nTasks s)) (<[w := c + 1]> (concurrent s))
                                     (now s) (max s) (tasks s)))
  | _, _ => Impossible
  end.

Definition measure (t w : nat) (s : state) : result :=
  let n := int32 (now s + 1) in
  Next (goto t w Measured (mkState (nTasks s) (concurrent s) n (if max s <? n then n else max s) (tasks s))).

Definition leave (t w : nat) (s : state) : result :=
  match concurrent s !! w with
  | Some c => Next (goto t w Left (mkState (nTasks s) (<[w := c - 1]> (concurrent s)) (now s) (max s) (tasks s)))
  | None => Impossible
  end.

Definition finish (t w : nat) (s : state) : result :=
  Next (goto t w Returned (mkState (nTasks s) (concurrent s) (int32 (now s - 1)) (max s) (tasks s))).

Definition step (s : state) (e : event) : result :=
  match e with
  | Call w => if decide (w < length (nTasks s))%nat
              then Next (mkState (nTasks s) (concurrent s) (now s) (max s) (tasks s ++ [(w, Called)]))
              else Impossible
  | Advance t =>
      match tasks s !! t with
      | Some (w, Called) => enter t w s
      | Some (w, Entered) => measure t w s
      | Some (w, Measured) => leave t w s
      | Some (w, Left) => finish t w s
      | _ => Impossible
      end
  end.

Fixpoint exec (s : state) (es : list event) : result :=
  match es with
  | [] => Next s
  | e :: es' => match step s e with Next s' => exec s' es' | r => r end
  end.

(** ** Counting *)
Definition count {A} (f : A -> bool) (l : list A) : Z := foldr (fun x acc => (if f x then 1 else 0) + acc) 0 l.

Lemma count_app {A} (f : A -> bool) l k : count f (l ++ k) = count f l + count f k.
Proof. induction l as [|x l IH]; simpl; lia. Qed.

Lemma count_bounds {A} (f : A -> bool) l : 0 <= count f l <= len l.
Proof. unfold len. induction l as [|x l IH]; simpl; [lia|]. destruct (f x); lia. Qed.

Lemma count_insert {A} (f : A -> bool) l k x y :
  l !! k = Some x ->
  count f (<[k := y]> l) = count f l - (if f x then 1 else 0) + (if f y then 1 else 0).
Proof.
  revert k. induction l as [|z l IH]; intros [|k] H; try done; simpl in *.
  - injection H as ->. lia.
  - rewrite (IH k H). lia.
Qed.

(** The tasks that a worker counts, that the record counts, and that a worker has
    ever counted. *)
Definition working (w : nat) (x : nat * phase) : bool :=
  bool_decide (x.1 = w) && match x.2 with Entered | Measured => true | _ => false end.
Definition measured (x : nat * phase) : bool := match x.2 with Measured | Left => true | _ => false end.
Definition started (w : nat) (x : nat * phase) : bool :=
  bool_decide (x.1 = w) && match x.2 with Called => false | _ => true end.

Lemma int32_id x : - 2 ^ 31 <= x < 2 ^ 31 -> int32 x = x.
Proof. intros H. unfold int32. rewrite Z.mod_small; lia. Qed.

Record ok (s : state) : Prop := {
  ok_len : length (concurrent s) = length (nTasks s);
  ok_tasks w n : nTasks s !! w = Some n -> n = count (started w) (tasks s);
  ok_conc w c : concurrent s !! w = Some c -> c = count (working w) (tasks s) /\ c <= 1;
  ok_now : now s = count measured (tasks s)
}.

Lemma task_init_ok n : ok (init n).
Proof.
  split; simpl; [by rewrite !length_replicate| | |done]; intros w x [-> _]%lookup_replicate; [done|].
  split; [done|lia].
Qed.

(** Moving a task on changes the counts of its worker by what the phases say. *)
Lemma moved_counts (f : nat * phase -> bool) l t w ph ph' :
  l !! t = Some (w, ph) ->
  count f (<[t := (w, ph')]> l) = count f l - (if f (w, ph) then 1 else 0) + (if f (w, ph') then 1 else 0).
Proof. apply count_insert. Qed.

Lemma other_worker (w w' : nat) : w <> w' -> bool_decide (w = w') = false.
Proof. intros H. by apply bool_decide_eq_false. Qed.

Lemma enter_ok s t w s' :
  ok s -> tasks s !! t = Some (w, Called) -> enter t w s = Next s' -> ok s'.
Proof.
  intros [L T C N] Ht. unfold enter. destruct (nTasks s !! w) as [n|] eqn:En; [|done].
  destruct (concurrent s !! w) as [c|] eqn:Ec; [|done]. destruct (Z.ltb_spec 1 (c + 1)) as [|Hc]; [done|].
  intros [= <-]. destruct (C w c Ec) as [Hc' _]. pose proof (T w n En) as Hn.
  split; simpl; rewrite ?length_insert; try done.
  - intros w' n'. rewrite (moved_counts _ _ _ _ _ _ Ht). unfold started at 2 3. simpl.
    destruct (decide (w = w')) as [<-|Hne].
    + rewrite list_lookup_insert_eq by (by eapply lookup_lt_Some). intros [= <-].
      rewrite bool_decide_eq_true_2 by done. simpl. lia.
    + rewrite list_lookup_insert_ne, other_worker by done. simpl. intros H%T. lia.
  - intros w' c'. rewrite (moved_counts _ _ _ _ _ _ Ht). unfold working at 2 3. simpl.
    destruct (decide (w = w')) as [<-|Hne].
    + rewrite list_lookup_insert_eq by (by eapply lookup_lt_Some). intros [= <-].
      rewrite bool_decide_eq_true_2 by done. simpl. lia.
    + rewrite list_lookup_insert_ne, other_worker by done. simpl. intros [? ?]%C. lia.
  - rewrite (moved_counts _ _ _ _ _ _ Ht). unfold measured at 2 3. simpl. lia.
Qed.

(** The other sections leave [nTasks] alone. *)
Lemma leave_ok s t w s' :
  ok s -> tasks s !! t = Some (w, Measured) -> leave t w s = Next s' -> ok s'.
Proof.
  intros [L T C N] Ht. unfold leave. destruct (concurrent s !! w) as [c|] eqn:Ec; [|done].
  intros [= <-]. destruct (C w c Ec) as [Hc ?]. split; simpl; rewrite ?length_insert; try done.
  - intros w' n' Hx%T. rewrite (moved_counts _ _ _ _ _ _ Ht). unfold started at 2 3. simpl.
    rewrite !andb_true_r. destruct (bool_decide (w = w')); lia.
  - intros w' c'. rewrite (moved_counts _ _ _ _ _ _ Ht). unfold working at 2 3. simpl.
    destruct (decide (w = w')) as [<-|Hne].
    + rewrite list_lookup_insert_eq by (by eapply lookup_lt_Some). intros [= <-].
      rewrite bool_decide_eq_true_2 by done. simpl. lia.
    + rewrite list_lookup_insert_ne, other_worker by done. simpl. intros [? ?]%C. lia.
  - rewrite (moved_counts _ _ _ _ _ _ Ht). unfold measured at 2 3. simpl. lia.
Qed.

Lemma measure_ok s t w :
  ok s -> tasks s !! t = Some (w, Entered) -> len (tasks s) < 2 ^ 31 ->
  exists s', measure t w s = Next s' /\ ok s' /\ now s' = now s + 1 /\ max s' = Z.max (max s) (now s + 1).
Proof.
  intros [L T C N] Ht Hb. unfold measure. pose proof (count_bounds measured (tasks s)) as Hc.
  assert (Hm : count measured (<[t := (w, Measured)]> (tasks s)) = now s + 1).
  { rewrite (moved_counts _ _ _ _ _ _ Ht). unfold measured at 2 3. simpl. lia. }
  pose proof (count_bounds measured (<[t := (w, Measured)]> (tasks s))) as Hc'.
  unfold len in Hb, Hc, Hc'. rewrite length_insert in Hc'. rewrite int32_id by lia.
  eexists. split; [done|]. split_and!; [|done|simpl; destruct (Z.ltb_spec (max s) (now s + 1)); lia].
  split; simpl; try done.
  - intros w' n' Hx%T. rewrite (moved_counts _ _ _ _ _ _ Ht). unfold started at 2 3. simpl.
    rewrite !andb_true_r. destruct (bool_decide (w = w')); lia.
  - intros w' c' [? ?]%C. rewrite (moved_counts _ _ _ _ _ _ Ht). unfold working at 2 3. simpl.
    rewrite !andb_true_r. destruct (bool_decide (w = w')); lia.
Qed.

Lemma finish_ok s t w :
  ok s -> tasks s !! t = Some (w, Left) -> len (tasks s) < 2 ^ 31 ->
  exists s', finish t w s = Next s' /\ ok s' /\ now s' = now s - 1 /\ max s' = max s.
Proof.
  intros [L T C N] Ht Hb. unfold finish. pose proof (count_bounds measured (tasks s)) as Hc. unfold len in *.
  rewrite int32_id by lia. eexists. split; [done|]. split_and!; [|done|done]. split; simpl; try done.
  - intros w' n' Hx%T. rewrite (moved_counts _ _ _ _ _ _ Ht). unfold started at 2 3. simpl.
    rewrite !andb_true_r. destruct (bool_decide (w = w')); lia.
  - intros w' c' [? ?]%C. rewrite (moved_counts _ _ _ _ _ _ Ht). unfold working at 2 3. simpl.
    rewrite !andb_false_r. lia.
  - rewrite (moved_counts _ _ _ _ _ _ Ht). unfold measured at 2 3. simpl. lia.
Qed.

(** One step: the counts stay right and [max] stays the greatest [now]. *)
Lemma task_step_ok s e s' :
  ok s -> now s <= max s -> len (tasks s') < 2 ^ 31 -> step s e = Next s' ->
  ok s' /\ max s' = Z.max (max s) (now s').
Proof.
  intros Hs Hm Hb. destruct e as [w|t]; cbn [step].
  - case_decide as Hw; [|done]. intros [= <-]. destruct Hs as [L T C N]. simpl. split; [|lia]. split; simpl.
    + done.
    + intros w' n' Hx%T. rewrite count_app. simpl. unfold started, working in *. simpl. rewrite ?andb_false_r. lia.
    + intros w' c' [? ?]%C. rewrite count_app. simpl. unfold started, working in *. simpl. rewrite ?andb_false_r. lia.
    + rewrite count_app. simpl. unfold measured in *. simpl. lia.
  - destruct (tasks s !! t) as [[w ph]|] eqn:Et; [|done]. destruct ph; intros E.
    + pose proof (enter_ok _ _ _ _ Hs Et E) as Hs'. split; [done|]. unfold enter in E.
      destruct (nTasks s !! w), (concurrent s !! w); try done. destruct (1 <? _); [done|]. injection E as <-. simpl. lia.
    + assert (Hb' : len (tasks s) < 2 ^ 31).
      { unfold measure in E. injection E as <-. simpl in Hb. unfold len in *. by rewrite length_insert in Hb. }
      destruct (measure_ok _ _ _ Hs Et Hb') as (s1 & E1 & Hs1 & En & Em). rewrite E1 in E. injection E as <-.
      split; [done|lia].
    + pose proof (leave_ok _ _ _ _ Hs Et E) as Hs'. split; [done|]. unfold leave in E.
      destruct (concurrent s !! w); [|done]. injection E as <-. simpl. lia.
    + assert (Hb' : len (tasks s) < 2 ^ 31).
      { unfold finish in E. injection E as <-. simpl in Hb. unfold len in *. by rewrite length_insert in Hb. }
      destruct (finish_ok _ _ _ Hs Et Hb') as (s1 & E1 & Hs1 & En & Em). rewrite E1 in E. injection E as <-.
      split; [done|lia].
    + done.
Qed.

Lemma task_exec_snoc s es e :
  exec s (es ++ [e]) = match exec s es with Next s' => step s' e | r => r end.
Proof.
  revert s. induction es as [|e' es IH]; intros s; simpl; [by destruct (step s e)|].
  destruct (step s e'); [apply IH|done|done].
Qed.

Lemma step_tasks s e s' : step s e = Next s' -> (length (tasks s) <= length (tasks s'))%nat.
Proof.
  destruct e as [w|t]; cbn [step].
  - case_decide; [|done]. intros [= <-]. simpl. rewrite length_app. lia.
  - destruct (tasks s !! t) as [[w []]|]; try done; unfold enter, measure, leave, finish;
      repeat case_match; intros E; simplify_eq; simpl; rewrite ?length_insert; lia.
Qed.

(** The greatest value of [now] over the prefixes of a run. *)
Definition peak_of (n : nat) (es : list event) (m : Z) : Prop :=
  (forall es1 es2 s1, es = es1 ++ es2 -> exec (init n) es1 = Next s1 -> now s1 <= m) /\
  exists es1 es2 s1, es = es1 ++ es2 /\ exec (init n) es1 = Next s1 /\ now s1 = m.

Lemma exec_measures n es : forall s,
  exec (init n) es = Next s -> len (tasks s) < 2 ^ 31 -> ok s /\ now s <= max s /\ peak_of n es (max s).
Proof.
  induction es as [|e es IH] using rev_ind; intros s H Hb.
  { simpl in H. injection H as <-. split_and!; [apply task_init_ok|done|]. split.
    - intros es1 es2 s1 E H1. symmetry in E. apply app_eq_nil in E as [-> _]. injection H1 as <-. done.
    - exists [], [], (init n). done. }
  rewrite task_exec_snoc in H. destruct (exec (init n) es) as [s0| |] eqn:E0; [|done|done].
  pose proof (step_tasks _ _ _ H) as Hl.
  destruct (IH s0 eq_refl) as (Hok & Hm & Hp1 & Hp2); [unfold len in *; lia|].
  destruct (task_step_ok _ _ _ Hok Hm Hb H) as [Hok' Hm']. split; [done|]. split; [lia|]. split.
  - intros es1 es2 s1 E H1. destruct es2 as [|x es2 _] using rev_ind.
    + rewrite app_nil_r in E. subst es1. rewrite task_exec_snoc, E0 in H1. rewrite H in H1. injection H1 as <-. lia.
    + rewrite app_assoc in E. apply app_inj_tail in E as [-> _]. specialize (Hp1 es1 es2 s1 eq_refl H1). lia.
  - destruct (decide (now s <= max s0)) as [Hle|Hgt].
    + destruct Hp2 as (es1 & es2 & s1 & -> & H1 & H2). exists es1, (es2 ++ [e]), s1.
      split; [by rewrite app_assoc|]. split; [done|lia].
    + exists (es ++ [e]), [], s. split; [by rewrite app_nil_r|]. split; [by rewrite task_exec_snoc, E0|lia].
Qed.

(** C40: the bookkeeping of the workers is exact in every interleaving of their
    critical sections that does not end in the fatal error: a worker's [nTasks] is
    the number of tasks it was given, no worker runs two at once, [now] is the
    number of tasks that run, and [max] is the greatest number that ever ran at
    the same time, which is what the tests read to see whether the work was done
    in parallel. *)
Theorem parallelism_measured n es s :
  exec (init n) es = Next s -> len (tasks s) < 2 ^ 31 ->
  (forall w k, nTasks s !! w = Some k -> k = count (started w) (tasks s)) /\
  (forall w c, concurrent s !! w = Some c -> c = count (working w) (tasks s) /\ c <= 1) /\
  now s = count measured (tasks s) /\ peak_of n es (max s).
Proof.
  intros H Hb. destruct (exec_measures _ _ _ H Hb) as (Hok & _ & Hp).
  split_and!; [apply (ok_tasks _ Hok)|apply (ok_conc _ Hok)|apply (ok_now _ Hok)|apply Hp..].
Qed.

(** Two workers, overlapping; worker 0 gets a second task after its first. *)
Definition overlap : list event :=
  [Call 0; Call 1; Advance 0; Advance 1; Advance 0; Advance 1; Advance 1; Advance 1; Advance 0; Advance 0; Call 0; Advance 2].

Lemma parallelism_measured_witness : exists s, exec (init 2) overlap = Next s /\ max s = 2 /\ now s = 0 /\
  peak_of 2 overlap 2.
Proof.
  destruct (exec (init 2) overlap) as [s| |] eqn:E; [|vm_compute in E; discriminate E|vm_compute in E; discriminate E].
  assert (H : max s = 2 /\ now s = 0 /\ len (tasks s) < 2 ^ 31).
  { vm_compute in E. injection E as <-. split_and!; done. }
  destruct H as (Hm & Hn & Hb). destruct (parallelism_measured 2 overlap s E Hb) as (_ & _ & _ & Hp).
  exists s. rewrite Hm in Hp. split_and!; try done; apply Hp.
Defined.

Lemma two_tasks_fatal : exec (init 1) [Call 0; Call 0; Advance 0; Advance 1] = Fatal.
Proof. reflexivity. Qed.
End Tasks.

(** ** The accept loop of RunWorker (worker.go) *)
Module Accept.

Inductive place : Type := AtCheck | AtAccept | Stopped.

(** [serving] counts the Shutdown calls that are being served. *)
Record state : Type := mkState { nRPC : Z; at_ : place; serving : nat; accepted : nat }.
Definition init (n : Z) : state := mkState n AtCheck 0 0.

Inductive event : Type :=
| Check                        (* the test nRPC == 0 *)
| Conn (isShutdown : bool)     (* Accept returns a connection *)
| ConnError                    (* Accept fails *)
| Shutdown.                    (* the handler: nRPC = 1 *)

Definition step (s : state) (e : event) : option state :=
  match e, at_ s with
  | Check, AtCheck =>
      Some (mkState (nRPC s) (if nRPC s =? 0 then Stopped else AtAccept) (serving s) (accepted s))
  | Conn b, AtAccept =>
      Some (mkState (nRPC s - 1) AtCheck (if b then S (serving s) else serving s) (S (accepted s)))
  | ConnError, AtAccept => Some (mkState (nRPC s) Stopped (serving s) (accepted s))
  | Shutdown, _ =>
      match serving s with
      | O => None
      | S k => Some (mkState 1 (at_ s) k (accepted s))
      end
  | _, _ => None
  end.

Fixpoint exec (s : state) (es : list event) : option state :=
  match es with [] => Some s | e :: es' => s' ← step s e; exec s' es' end.

(** [RunWorker] up to its loop: [listened] says whether the socket could be
    opened, without which the process ends ([None]); the new worker registers with
    the master over [dial]. *)
Definition RunWorker (MasterAddress name : string) (n : Z) (listened : bool)
    (dial : string -> option (RegisterArgs -> string + unit)) (mr : Master) : option (state * Master) :=
  if listened then Some (init n, register name (call dial MasterAddress (mkRegisterArgs name)).1 mr)
  else None.

(** A worker whose registration is answered is at the end of the master's list,
    once; one whose registration fails enters its loop all the same, unknown to
    the master. *)
Lemma run_worker_registers master name n dial mr s mr' :
  RunWorker master name n true dial mr = Some (s, mr') ->
  s = init n /\
  MapReduce.workers mr' = MapReduce.workers mr ++
    match dial master with
    | Some c => match c (mkRegisterArgs name) with inr _ => [name] | inl _ => [] end
    | None => []
    end.
Proof.
  unfold RunWorker, register, call. intros [= <- <-]. split; [done|].
  destruct (dial master) as [c|]; simpl; [destruct (c _); simpl|]; rewrite ?app_nil_r; done.
Qed.

(** A worker that is not shut down serves exactly as many connections as it
    was told to: it never accepts more than [n], and it leaves its loop only after
    it has accepted [n]. *)
Theorem worker_serves_n (n : nat) es s :
  (forall e, e ∈ es -> e = Check \/ e = Conn false) -> exec (init (Z.of_nat n)) es = Some s ->
  (accepted s <= n)%nat /\ nRPC s = Z.of_nat n - Z.of_nat (accepted s) /\ (at_ s = Stopped -> accepted s = n).
Proof.
  intros Hes H.
  assert (G : forall es s0 s, (forall e, e ∈ es -> e = Check \/ e = Conn false) -> exec s0 es = Some s ->
    nRPC s0 = Z.of_nat n - Z.of_nat (accepted s0) -> (at_ s0 = Stopped -> nRPC s0 = 0) ->
    (at_ s0 = AtAccept -> nRPC s0 <> 0) -> 0 <= nRPC s0 ->
    nRPC s = Z.of_nat n - Z.of_nat (accepted s) /\ (at_ s = Stopped -> nRPC s = 0) /\ 0 <= nRPC s).
  { clear. induction es as [|e es IH]; intros s0 s Hes H H1 H2 H3 H4; simpl in H; [by simplify_eq|].
    destruct (step s0 e) as [s1|] eqn:E; [|done]. cbn [mbind option_bind] in H.
    refine (IH s1 s _ H _ _ _ _); [intros; apply Hes; by right| | | |];
      destruct (Hes e) as [->| ->]; try (by left); cbn [step] in E;
      destruct (at_ s0) eqn:Ea; simplify_eq/=; try lia; try done.
    - by destruct (Z.eqb_spec (nRPC s0) 0).
    - by destruct (Z.eqb_spec (nRPC s0) 0).
    - specialize (H3 eq_refl). lia. }
  destruct (G es (init (Z.of_nat n)) s Hes H) as (E & Hs & Hn); simpl; try done; try lia.
  split_and!; [lia|done|]. intros Hst%Hs. lia.
Qed.

(** A Shutdown call does not end the loop by itself: the handler sets nRPC to 1,
    and the loop stops only after it has accepted one more connection. *)
Lemma shutdown_needs_connection es : forall s s',
  nRPC s <> 0 -> at_ s <> Stopped -> (forall e, e ∈ es -> e = Check \/ e = Shutdown) -> exec s es = Some s' ->
  at_ s' <> Stopped.
Proof.
  induction es as [|e es IH]; intros s s' Hn Ha Hes H; simpl in H; [by simplify_eq|].
  destruct (step s e) as [s1|] eqn:E; [|done]. cbn [mbind option_bind] in H.
  refine (IH s1 s' _ _ _ H); [| |intros; apply Hes; by right]; destruct (Hes e) as [->| ->]; try (by left);
    cbn [step] in E; destruct (at_ s) eqn:Ea, (serving s); simplify_eq/=; try done;
    by destruct (Z.eqb_spec (nRPC s) 0).
Qed.

(** After the master has shut a worker down, the worker's loop is blocked in
    Accept until somebody connects once more, whatever the order of its checks and
    of the handler. *)
Theorem shutdown_leaves_loop_waiting (n : Z) es s :
  n <> 0 -> n <> 1 -> (forall e, e ∈ es -> e = Check \/ e = Shutdown) ->
  exec (init n) ([Check; Conn true] ++ es) = Some s -> at_ s <> Stopped.
Proof.
  intros Hn Hn1 Hes H. simpl in H. destruct (Z.eqb_spec n 0) as [?|_]; [done|]. cbn [step at_ mbind option_bind] in H.
  eapply shutdown_needs_connection; [| |exact Hes|exact H]; simpl; [lia|done].
Qed.

Lemma worker_serves_n_witness : exists s,
  exec (init 2) [Check; Conn false; Check; Conn false; Check] = Some s /\ at_ s = Stopped /\ accepted s = 2%nat.
Proof.
  destruct (exec (init 2) [Check; Conn false; Check; Conn false; Check]) as [s|] eqn:E; [|vm_compute in E; discriminate E].
  destruct (worker_serves_n 2 [Check; Conn false; Check; Conn false; Check] s) as (_ & _ & H).
  - intros e He. rewrite !elem_of_cons, elem_of_nil in He. tauto.
  - exact E.
  - assert (Hs : at_ s = Stopped) by (vm_compute in E; by injection E as <-).
    exists s. split; [reflexivity|]. split; [exact Hs|exact (H Hs)].
Defined.

Lemma shutdown_leaves_loop_waiting_witness : exists s,
  exec (init (-1)) [Check; Conn true; Shutdown; Check] = Some s /\ at_ s <> Stopped.
Proof.
  destruct (exec (init (-1)) [Check; Conn true; Shutdown; Check]) as [s|] eqn:E; [|vm_compute in E; discriminate E].
  exists s. split; [reflexivity|]. apply (shutdown_leaves_loop_waiting (-1) [Shutdown; Check] s); [done|done| |exact E].
  intros e He. rewrite !elem_of_cons, elem_of_nil in He. tauto.
Defined.
End Accept.

(** ** The accept loop of the master's server (master_rpc.go) *)
Module MasterAccept.

Inductive place : Type := AtSelect | AtAccept | Done.

(** [shutdown]: the channel is closed; [open]: the listener is. *)
Record state : Type := mkState { shutdown : bool; open : bool; at_ : place; served : nat }.
Definition init : state := mkState false true AtSelect 0.

Inductive event : Type :=
| Select                       (* the select with its default case *)
| Conn                         (* Accept returns a connection; it is served by a goroutine *)
| ConnError                    (* Accept fails: break *)
| CloseChannel                 (* Shutdown: close(mr.shutdown) *)
| CloseListener.               (* Shutdown: mr.l.Close() *)

Definition step (s : state) (e : event) : option state :=
  match e, at_ s with
  | Select, AtSelect => Some (mkState (shutdown s) (open s) (if shutdown s then Done else AtAccept) (served s))
  | Conn, AtAccept => if open s then Some (mkState (shutdown s) (open s) AtSelect (S (served s))) else None
  | ConnError, AtAccept => Some (mkState (shutdown s) (open s) Done (served s))
  | CloseChannel, _ => if shutdown s then None else Some (mkState true (open s) (at_ s) (served s))
  | CloseListener, _ => if shutdown s then Some (mkState true false (at_ s) (served s)) else None
  | _, _ => None
  end.

Fixpoint exec (s : state) (es : list event) : option state :=
  match es with [] => Some s | e :: es' => s' ← step s e; exec s' es' end.

(** After both halves of Shutdown the server accepts nothing more, and its loop
    ends with its next step, wherever the shutdown found it. *)
Theorem shutdown_ends_master_loop es s :
  exec init es = Some s -> CloseListener ∈ es ->
  (forall es' s', exec s es' = Some s' -> served s' = served s) /\
  (at_ s = Done \/ exists e s', step s e = Some s' /\ at_ s' = Done).
Proof.
  intros H Hc.
  assert (Hst : forall es s s', exec s es = Some s' -> shutdown s = true -> open s = false ->
    shutdown s' = true /\ open s' = false /\ served s' = served s).
  { clear. induction es as [|e es IH]; intros s s' H H1 H2; simpl in H; [by simplify_eq|].
    destruct (step s e) as [s1|] eqn:E; [|done]. cbn [mbind option_bind] in H.
    destruct (IH s1 s' H) as (? & ? & ?); destruct e; cbn [step] in E;
      destruct (at_ s); rewrite ?H1, ?H2 in E; simplify_eq/=; done. }
  assert (Hclosed : shutdown s = true /\ open s = false).
  { clear - H Hc Hst. revert H. generalize init. induction es as [|e es IH]; intros s0 H; [by apply elem_of_nil in Hc|].
    simpl in H. destruct (step s0 e) as [s1|] eqn:E; [|done]. cbn [mbind option_bind] in H.
    apply elem_of_cons in Hc as [<-|Hc]; [|by apply (IH Hc s1)].
    cbn [step] in E. destruct (Hst es s1 s H) as (? & ? & _); destruct (at_ s0), (shutdown s0); simplify_eq/=; done. }
  destruct Hclosed as [H1 H2]. split.
  - intros es' s' H'. by apply (Hst es' s s').
  - destruct (at_ s) eqn:Ea; [right; exists Select|right; exists ConnError|by left]; eexists; cbn [step];
      rewrite Ea, ?H1; done.
Qed.
End MasterAccept.
