(* ===== verification/Programs.v ===== *)
(** * The command-line programs

    src/main/: what each program calls for its arguments, in order, and how it
    ends.  The packages diskv, lockservice, pbservice and viewservice are not in
    the repository, so that a call of them is a value of [action]; so are the
    entry points of mapreduce, whose model is MapReduce.  What a call returns is
    an argument.  [mapF] and [reduceF] of wc.go and ii.go are empty at this
    commit. *)

From Stdlib Require Import Ascii.
From stdpp Require Import base list list_numbers strings pretty.
From S2P Require Import Prelude Names.
Open Scope Z_scope.

(** ** strconv *)

(** The digits of [ParseUint] in base 10, after the number [n] read so far. *)
Inductive parsed : Type := SyntaxError | RangeError | Parsed (n : Z).
Definition cutoff : Z := (2 ^ 64 - 1) / 10 + 1.
Definition digitValue (c : ascii) : Z := Z.of_N (N_of_ascii c) - 48.
Fixpoint parseDigits (s : string) (n : Z) : parsed :=
  match s with
  | EmptyString => Parsed n
  | String c s' =>
      if negb (digit c) then SyntaxError
      else if cutoff <=? n then RangeError
      else if 2 ^ 64 - 1 <? n * 10 + digitValue c then RangeError
      else parseDigits s' (n * 10 + digitValue c)
  end.
Definition parseUint (s : string) : parsed :=
  match s with EmptyString => SyntaxError | _ => parseDigits s 0 end.

(** [ParseInt(s, 10, 64)] and [Atoi]: the number they return, also with an error,
    which the programs do not look at. *)
Definition clamp (neg : bool) (un : Z) : Z :=
  if neg then (if 2 ^ 63 <? un then - 2 ^ 63 else - un)
  else if 2 ^ 63 <=? un then 2 ^ 63 - 1 else un.
Definition ParseInt (s : string) : Z :=
  let '(neg, body) :=
    match s with
    | String c s' =>
        if Ascii.eqb c "-"%char then (true, s') else if Ascii.eqb c "+"%char then (false, s') else (false, s)
    | EmptyString => (false, s)
    end in
  match parseUint body with
  | SyntaxError => 0
  | RangeError => clamp neg (2 ^ 64 - 1)
  | Parsed un => clamp neg un
  end.
Definition Atoi (s : string) : Z := ParseInt s.
Definition ParseBool (s : string) : bool :=
  bool_decide (s ∈ ["1"; "t"; "T"; "TRUE"; "true"; "True"]%string).

(** ** What the programs do *)
Definition nl : string := String "010"%char "".
Inductive action : Type :=
| DiskvStartServer (gid : Z) (masters replicas : list string) (me : Z) (dir : string) (restart : bool)
| DiskvSetunreliable (unreliable : bool)
| LockMakeClerk (primary backup : string)
| LockLock (name : string)
| LockUnlock (name : string)
| LockStartServer (primary backup : string) (am_primary : bool)
| PbMakeClerk (viewport me : string)
| PbGet (key : string)
| PbPut (key value : string)
| PbStartServer (viewport me : string)
| ViewStartServer (port : string)
| MrSequential (job : string) (files : list string) (nreduce : Z)
| MrDistributed (job : string) (files : list string) (nreduce : Z) (master : string)
| MrWait
| MrRunWorker (master me : string) (nRPC : Z)
| Printf (text : string).

(** [os.Exit(code)], with 2 for a panic, the end of [main], the loop around [time.Sleep], and the
    process that kills itself after ten minutes. *)
Inductive ending : Type := Exit (code : Z) | Returns | SleepsForEver | KillsItself.

Definition program : Type := list string -> list action * ending.

(** ** diskvd.go *)
Record options : Type := mkOptions {
  gid : Z; masters : list string; replicas : list string; me : Z; unreliable : bool; dir : string; restart : bool
}.

Definition initial : options := mkOptions (-1) [] [] (-1) false "" false.

(** The body of the loop; [None] when it calls [usage]. *)
Definition option_of (a0 a1 : string) (o : options) : option options :=
  let '(mkOptions g ms rs i u d r) := o in
  if decide (a0 = "-g"%string) then Some (mkOptions (ParseInt a1) ms rs i u d r)
  else if decide (a0 = "-m"%string) then Some (mkOptions g (ms ++ [a1]) rs i u d r)
  else if decide (a0 = "-s"%string) then Some (mkOptions g ms (rs ++ [a1]) i u d r)
  else if decide (a0 = "-i"%string) then Some (mkOptions g ms rs (Atoi a1) u d r)
  else if decide (a0 = "-u"%string) then Some (mkOptions g ms rs i (ParseBool a1) d r)
  else if decide (a0 = "-d"%string) then Some (mkOptions g ms rs i u a1 r)
  else if decide (a0 = "-r"%string) then Some (mkOptions g ms rs i u d (ParseBool a1))
  else None.

(** [for i := 1; i+1 < len(os.Args); i += 2], on the arguments after the name. *)
Fixpoint parseArgs (args : list string) (o : options) : option options :=
  match args with
  | a0 :: a1 :: args' => o' ← option_of a0 a1 o; parseArgs args' o'
  | _ => Some o
  end.

Definition incomplete (o : options) : bool :=
  (gid o <? 0) || (me o <? 0) || (len (masters o) <? 1) || (len (replicas o) <=? me o)
  || bool_decide (dir o = ""%string).

Definition diskvd_usage : list action * ending :=
  ([Printf ("Usage: diskvd -g gid -m master... -s server... -i my-index -d dir" +:+ nl)], Exit 1).

Definition diskvd : program := fun args =>
  match parseArgs (tail args) initial with
  | None => diskvd_usage
  | Some o =>
      if incomplete o then diskvd_usage
      else ([DiskvStartServer (gid o) (masters o) (replicas o) (me o) (dir o) (restart o);
             DiskvSetunreliable (unreliable o)], KillsItself)
  end.

(** ** lockc.go, lockd.go *)
Definition lockc_usage : list action * ending :=
  ([Printf ("Usage: lockc -l|-u primaryport backupport lockname" +:+ nl)], Exit 1).
Definition reply_line (ok : bool) : string := "reply: " +:+ (if ok then "true" else "false") +:+ nl.

(** [ok name] is the answer of the lock server. *)
Definition lockc (ok : string -> bool) : program := fun args =>
  match args with
  | [_; flag; primary; backup; name] =>
      let ck := LockMakeClerk primary backup in
      if decide (flag = "-l"%string) then ([ck; LockLock name; Printf (reply_line (ok name))], Returns)
      else if decide (flag = "-u"%string) then ([ck; LockUnlock name; Printf (reply_line (ok name))], Returns)
      else (ck :: lockc_usage.1, lockc_usage.2)
  | _ => lockc_usage
  end.

Definition lockd : program := fun args =>
  match args with
  | [_; flag; primary; backup] =>
      if decide (flag = "-p"%string) then ([LockStartServer primary backup true], SleepsForEver)
      else if decide (flag = "-b"%string) then ([LockStartServer primary backup false], SleepsForEver)
      else ([Printf ("Usage: lockd -p|-b primaryport backupport" +:+ nl)], Exit 1)
  | _ => ([Printf ("Usage: lockd -p|-b primaryport backupport" +:+ nl)], Exit 1)
  end.

(** ** pbc.go, pbd.go, viewd.go *)

(** [value key] is what the primary/backup service answers. *)
Definition pbc (value : string -> string) : program := fun args =>
  match args with
  | [_; viewport; key] => ([PbMakeClerk viewport ""; PbGet key; Printf (value key +:+ nl)], Returns)
  | [_; viewport; key; v] => ([PbMakeClerk viewport ""; PbPut key v], Returns)
  | _ => ([Printf ("Usage: pbc viewport key" +:+ nl); Printf ("       pbc viewport key value" +:+ nl)], Exit 1)
  end.

Definition pbd : program := fun args =>
  match args with
  | [_; viewport; myport] => ([PbStartServer viewport myport], SleepsForEver)
  | _ => ([Printf ("Usage: pbd viewport myport" +:+ nl)], Exit 1)
  end.

Definition viewd : program := fun args =>
  match args with
  | [_; port] => ([ViewStartServer port], SleepsForEver)
  | _ => ([Printf ("Usage: viewd port" +:+ nl)], Exit 1)
  end.

(** ** wc.go, ii.go *)

(** Both programs, for the name of their job. *)
Definition mr_main (job : string) : program := fun args =>
  match args with
  | _ :: a1 :: a2 :: a3 :: rest =>
      if decide (a1 = "master"%string) then
        if decide (a2 = "sequential"%string) then ([MrSequential job (a3 :: rest) 3; MrWait], Returns)
        else ([MrDistributed job (a3 :: rest) 3 a2; MrWait], Returns)
      else ([MrRunWorker a2 a3 100], Returns)
  | a0 :: _ => ([Printf (a0 +:+ ": see usage comments in file" +:+ nl)], Returns)
  | [] => ([], Exit 2)
  end.
Definition wc : program := mr_main "wcseq".
Definition ii : program := mr_main "iiseq".

(** ** Numbers on the command line *)

Lemma parse_pretty_go x s :
  (x < 2 ^ 64)%N -> parseDigits (pretty_N_go x s) 0 = parseDigits s (Z.of_N x).
Proof.
  revert s. induction (N.lt_wf_0 x) as [x _ IH]. intros s Hx. destruct (decide (x = 0%N)) as [->|Hx0].
  { by rewrite pretty_N_go_0. }
  rewrite pretty_N_go_step by lia. assert (x / 10 < x)%N by (apply N.div_lt; lia). rewrite IH by lia.
  cbn [parseDigits].
  assert (digit (pretty_N_char (x `mod` 10)) = true /\
          digitValue (pretty_N_char (x `mod` 10)) = Z.of_N (x `mod` 10)) as [-> ->].
  { assert (x `mod` 10 < 10)%N as Hm by (apply N.mod_lt; lia). revert Hm. generalize (x `mod` 10)%N.
    intros d Hd. assert (d ∈ [0; 1; 2; 3; 4; 5; 6; 7; 8; 9]%N) as Hin by (repeat (rewrite elem_of_cons); lia).
    repeat (apply elem_of_cons in Hin as [->|Hin]; [by vm_compute|]). by apply elem_of_nil in Hin. }
  pose proof (N.div_mod x 10 ltac:(lia)) as E. cbn [negb].
  generalize dependent (x / 10)%N. generalize (x `mod` 10)%N. intros r q Hq E.
  replace (Z.of_N q * 10 + Z.of_N r) with (Z.of_N x) by lia.
  unfold cutoff. change ((2 ^ 64 - 1) / 10 + 1) with 1844674407370955162.
  rewrite (proj2 (Z.leb_gt _ _)), (proj2 (Z.ltb_ge _ _)) by lia. done.
Qed.

Lemma parseUint_pretty x : (x < 2 ^ 64)%N -> parseUint (pretty x) = Parsed (Z.of_N x).
Proof.
  intros Hx. unfold pretty, pretty_N. case_decide as Hz; [by subst|]. unfold parseUint.
  pose proof (parse_pretty_go x "" Hx) as E.
  destruct (pretty_N_go x "") eqn:Ep; [|done]. simpl in E. simplify_eq. lia.
Qed.

Lemma digits_unsigned s c s' : digits s = true -> s = String c s' -> c <> "-"%char /\ c <> "+"%char.
Proof. intros H ->. simpl in H. apply andb_true_iff in H as [H _]. by split; intros ->; vm_compute in H. Qed.

(** What Itoa prints is read back, over the whole range of int64. *)
Lemma ParseInt_Itoa z : - 2 ^ 63 <= z < 2 ^ 63 -> ParseInt (Itoa z) = z.
Proof.
  intros Hz. destruct (decide (z < 0)) as [Hn|Hn].
  - destruct z as [|p|p]; [lia..|].
    change (Itoa (Z.neg p)) with (String "-"%char (pretty (N.pos p))). unfold ParseInt.
    change (Ascii.eqb "-" "-") with true. cbv iota. rewrite parseUint_pretty by lia. unfold clamp.
    rewrite (proj2 (Z.ltb_ge _ _)) by lia. lia.
  - assert (Itoa z = pretty (Z.to_N z)) as E by (unfold Itoa, pretty at 1, pretty_Z; destruct z; [done|done|lia]).
    pose proof (Itoa_digits z ltac:(lia)) as Hd. pose proof (parseUint_pretty (Z.to_N z) ltac:(lia)) as Hp.
    rewrite <- E in Hp. unfold ParseInt. destruct (Itoa z) as [|c s] eqn:Es; [done|].
    destruct (digits_unsigned _ _ _ Hd eq_refl) as [H1 H2].
    rewrite (proj2 (Ascii.eqb_neq _ _) H1), (proj2 (Ascii.eqb_neq _ _) H2), Hp. unfold clamp.
    rewrite (proj2 (Z.leb_gt _ _)) by lia. lia.
Qed.

(** ** The command line of diskvd *)

(** The arguments in pairs, a single last one dropped. *)
Fixpoint pairs (args : list string) : list (string * string) :=
  match args with a0 :: a1 :: args' => (a0, a1) :: pairs args' | _ => [] end.

(** The values an option is given, in order. *)
Definition values (flag : string) (ps : list (string * string)) : list string :=
  (filter (fun p => p.1 = flag) ps).*2.
Definition lastValue {A} (flag : string) (read : string -> A) (dflt : A) (ps : list (string * string)) : A :=
  default dflt (read <$> last (values flag ps)).

(** The options as a reference reads them: single-valued options by their last
    occurrence. *)
Definition asked (ps : list (string * string)) : options :=
  mkOptions (lastValue "-g" ParseInt (-1) ps) (values "-m" ps) (values "-s" ps) (lastValue "-i" Atoi (-1) ps)
    (lastValue "-u" ParseBool false ps) (lastValue "-d" id "" ps) (lastValue "-r" ParseBool false ps).

Definition flags : list string := ["-g"; "-m"; "-s"; "-i"; "-u"; "-d"; "-r"]%string.
Definition known (ps : list (string * string)) : Prop := Forall (fun p => p.1 ∈ flags) ps.
#[export] Instance known_dec ps : Decision (known ps) := _.

(** A command line with which a server can run. *)
Definition complete (o : options) : Prop :=
  0 <= gid o /\ 0 <= me o < len (replicas o) /\ masters o <> [] /\ dir o <> ""%string.

#[export] Instance complete_dec o : Decision (complete o).
Proof. unfold complete. apply _. Defined.

Lemma values_snoc flag ps p :
  values flag (ps ++ [p]) = values flag ps ++ (if decide (p.1 = flag) then [p.2] else []).
Proof.
  unfold values. rewrite filter_app, fmap_app. f_equal. rewrite filter_cons, filter_nil. by case_decide.
Qed.

Lemma lastValue_snoc {A} flag (read : string -> A) d ps p :
  lastValue flag read d (ps ++ [p]) = if decide (p.1 = flag) then read p.2 else lastValue flag read d ps.
Proof. unfold lastValue. rewrite values_snoc. case_decide; [by rewrite last_snoc|by rewrite app_nil_r]. Qed.

Lemma option_of_asked ps a0 a1 :
  option_of a0 a1 (asked ps) = if decide (a0 ∈ flags) then Some (asked (ps ++ [(a0, a1)])) else None.
Proof.
  unfold option_of, asked. rewrite !lastValue_snoc, !values_snoc. simpl.
  assert (a0 ∈ flags <-> a0 = "-g" \/ a0 = "-m" \/ a0 = "-s" \/ a0 = "-i" \/ a0 = "-u" \/ a0 = "-d" \/ a0 = "-r")%string
    as Hf by (unfold flags; rewrite !elem_of_cons, elem_of_nil; tauto).
  repeat case_decide; simplify_eq; rewrite ?app_nil_r; naive_solver.
Qed.

Lemma parseArgs_asked args ps :
  parseArgs args (asked ps) = if decide (known (pairs args)) then Some (asked (ps ++ pairs args)) else None.
Proof.
  revert ps. remember (length args) as k eqn:Hk. assert (length args <= k)%nat as Hle by lia. clear Hk.
  revert args Hle. induction k as [|k IH]; intros [|a0 [|a1 args]] Hle ps; simpl in Hle; try lia;
    cbn [parseArgs pairs]; rewrite ?app_nil_r; [by rewrite decide_True by constructor..|].
  rewrite option_of_asked. case_decide as H0; cbn [mbind option_bind].
  - rewrite IH by lia. unfold known. rewrite <- app_assoc. cbn [app]. repeat case_decide; try done; exfalso.
    + match goal with H : ~ Forall _ (_ :: _) |- _ => apply H; by constructor end.
    + match goal with H : Forall _ (_ :: _) |- _ => by inversion H end.
  - rewrite decide_False; [done|]. intros Hf. by inversion Hf.
Qed.

Lemma incomplete_spec o : incomplete o = false <-> complete o.
Proof.
  unfold incomplete, complete. rewrite !orb_false_iff, !Z.ltb_ge, Z.leb_gt, bool_decide_eq_false.
  destruct (masters o); unfold len; simpl; naive_solver lia.
Qed.

(** Diskvd starts a server exactly for the complete command lines: all
    options known, a group id and an index that are not negative, the index below
    the number of replicas, at least one master and a directory.  The server gets
    the values of the last occurrence of each option, and all masters and replicas
    in order.  On every other command line it prints its usage, starts nothing and
    exits with 1. *)
Theorem diskvd_starts name args :
  let o := asked (pairs args) in
  diskvd (name :: args) =
    if decide (known (pairs args)) then
      if decide (complete o) then
        ([DiskvStartServer (gid o) (masters o) (replicas o) (me o) (dir o) (restart o);
          DiskvSetunreliable (unreliable o)], KillsItself)
      else diskvd_usage
    else diskvd_usage.
Proof.
  intros o. unfold diskvd. simpl tail. change initial with (asked []). rewrite parseArgs_asked. simpl app. fold o.
  case_decide as Hk; [|done]. destruct (incomplete o) eqn:E.
  - rewrite decide_False; [done|]. intros H%incomplete_spec. congruence.
  - by rewrite decide_True by (by apply incomplete_spec).
Qed.

(** Errors of ParseInt and Atoi are dropped: a group id and an index that are not
    numbers are taken as 0, and the server starts. *)
Lemma malformed_numbers_accepted :
  diskvd ["diskvd"; "-g"; "x"; "-m"; "m0"; "-s"; "s0"; "-i"; "y"; "-d"; "/tmp"]%string =
    ([DiskvStartServer 0 ["m0"%string] ["s0"%string] 0 "/tmp" false; DiskvSetunreliable false], KillsItself).
Proof. vm_compute. reflexivity. Qed.
